(* ===== verification/_CoqProject ===== *)
-Q . S2P
Prelude.v
Libc.v
Mode.v
Heapsort.v
Strnum.v
Humanize.v
Unvis.v
Vis.v
Base64.v
Cksum.v
Dd.v
DdBlock.v
Mem.v
Chacha.v
Arc4random.v
Tr.v
TrSpec.v
Ssprintf.v
SsprintfSpec.v
Find.v
FindSpec.v
Tsort.v
TsortSpec.v
Look.v
LookSpec.v
Zopen.v
ZopenBits.v
ZopenSpec.v
ZopenSafe.v
Arith.v
ArithSpec.v
ArithSound.v
ArithEnds.v
ArithText.v
Menuc.v
Expand.v
DdMsg.v
DdArgs.v
DdPos.v
DdMain.v
