(* ===== verification/Prelude.v ===== *)
(** * A verification library for the Netbase userland

    Netbase is the NetBSD userland on a Linux libc: src/src.netbsd holds the
    programs (bin, sbin, usr.bin, usr.sbin) and under lib/netbsd and lib/util the
    NetBSD library functions they share.  The programs are small and
    independent; what they have in common is that library, and the parts of them
    where an error is costly are codecs, copies, number conversions and sorting.
    This development models those parts, function by function.

    ** Files

    - Prelude (this file): characters and strings as lists of integers, the error
      monad [res], machine words, tactics.
    - Libc: the ISO C functions the sources call (character classes of the C locale,
      the strtol family, decimal output, snprintf).
    - Mode: lib/netbsd/setmode.c and strmode.c, the chmod(1) language.  [setmode]
      compiles it to an array of [BITCMD]s through [ADDCMD]/[addcmd], [compress_mode]
      shortens the array in place, [getmode] runs it.
    - Heapsort: lib/netbsd/heapsort.c.  The macros CREATE and SELECT are the
      functions of those names, on an array with 1-based indices.
    - Strnum: strtoi.c, strtou.c, strtonum.c, reallocarr.c, strsuftoll.c (lib/netbsd)
      and strpct.c (lib/util).
    - Humanize: lib/netbsd/humanize_number.c.
    - Unvis, Vis: lib/netbsd/unvis.c and vis.c.  [unvis] is the state machine of the
      code, one definition per state; [istrsenvisx] is the encoder with its three
      loops; the locale is the class [Locale].
    - Base64: usr.bin/base64/base64.c, on streams whose writes may fail.
    - Cksum: usr.bin/cksum/crc.c (slice-by-16), sum1.c and sum2.c.
    - Dd: bin/dd/dd.c, conv.c, conv_tab.c and dd_swab.c: the two buffers in one
      store (they are the same block when the block sizes agree), reading,
      converting and writing.  DdBlock: conv=block.
    - Mem: blocks of bytes named by addresses, for code whose pointers alias.  Chacha,
      Arc4random: lib/netbsd/arc4random.c, the cipher and the generator over it.
    - Tr, TrSpec: usr.bin/tr/tr.c and str.c.  [next] is the state machine that hands out
      the characters of an operand; TrSpec says what an operand denotes.
    - Ssprintf, SsprintfSpec: lib/netbsd/snprintf_ss.c, the formatter that is safe in a
      signal handler.
    - Find, FindSpec: usr.bin/find: [find_create] and [find_formplan] of find.c, the
      constructors of function.c, and operator.c, which squishes the list of nodes into a tree.
    - Tsort, TsortSpec: usr.bin/tsort/tsort.c on a store of nodes.
    - Look, LookSpec: usr.bin/look/look.c, binary and linear search in a mapped file.
    - Zopen: usr.bin/compress/zopen.c, the LZW stream, and the copying loops of
      compress.c.  ZopenBits: codes in the bit stream ([output], [getcode]).  ZopenSpec: the
      coder and the decoder keep the same table.  ZopenSafe: the decoder on any input.
    - Arith: bin/sh/arithmetic.c and arith_token.c, the evaluator of shell arithmetic,
      over the interface [Vars] to the shell's variables.  ArithSpec: the grammar, with C's
      table of levels written down apart from the code's, and the value of expressions,
      which the evaluator computes; ArithSound: what it accepts is
      an expression; ArithEnds: it ends; ArithText: texts and values, and the properties.
    - Menuc: the symbol table of usr.bin/menuc (avl.c, mdb.c), a balanced tree and an array.
    - Expand: usr.bin/expand/expand.c and usr.bin/unexpand/unexpand.c.
    - DdMsg: bin/dd/misc.c, the summary.  DdArgs: bin/dd/args.c, the operands.  DdPos:
      bin/dd/position.c, skip= and seek=.  DdMain: the composition of dd's parts in main.
    A definition has the name of the C function, or of the function and of the part of
    it it stands for ([perm_loop] is the permission loop of [setmode]).

    ** Conventions

    A C string is the list of its characters before the NUL; [peek] reads the NUL at
    its end.  Machine integers are integers of type [Z]; where an operation can
    wrap, the wrap is written out ([u8], [u32], [u64], [s64]), and where signed
    overflow is undefined and matters it is a [Fault] (in shell arithmetic the ending
    [Overflow]).  [Fault] also stands for every access outside an object and for a loop
    out of fuel, with one exception: decompress reads the byte after its input buffer,
    [past] is what it finds there, and the theorem on its safety shows that nothing
    depends on it (ZopenSafe).  Every loop with fuel
    is called with a bound computed from its input (the length of an array, a
    string or a file, or the number of digits), and the theorems on results state that
    the result is [Ok], so that the bound is enough is part of what they prove.
    Memory allocation, the locale and the device at the other end of a descriptor
    are parameters, quantified in the theorems; the hypotheses on them are ISO C's
    ([LocaleOk], [AsciiLocale]) and are discharged for the C locale.

    ** What is proved

    - Functional correctness: the compressed command array does what the original
      does and a symbolic mode without copied permissions means what chmod(1) says, X where
      it is added (Mode); heapsort sorts
      (Heapsort); strtonum, strsuftoll, strpct against the numbers they denote
      (Strnum); the scaled number is the exact quotient rounded to the nearest, and
      autoscaling chooses the least scale that fits (Humanize); base64 is RFC
      4648, up to the first failing write (Base64); the sixteen-way sliced CRC is the
      remainder POSIX defines and the sums are those the comments describe (Cksum);
      dd copies its converted input whatever the block sizes and however reads and
      writes are cut, without padding, swapping, limits or errors (Dd), and blocks and
      unblocks records (DdBlock, Dd); its report is the documented text (DdMsg); the cipher
      is ChaCha20, round by round, and arc4random hands out and erases its key stream (Chacha,
      Arc4random); tr translates, deletes and squeezes what its operands denote
      (TrSpec); snprintf_ss formats as ISO C says (SsprintfSpec); find runs the formula
      its words spell, in find(1)'s precedence, and what else it accepts is pinned (FindSpec); tsort's output extends
      the order and every node is printed (TsortSpec); look prints the lines that match
      (LookSpec); shell arithmetic has the values of C where no signed operation
      overflows, and accepts C's expressions only (ArithText).
    - Composition: what dd writes for the operands it accepts (DdMain), from the consistency
      of the configuration they set (DdArgs), the skipping (DdPos) and the copy.
    - Invariants: the symbol table of menuc is an ordered AVL tree, whose records are
      those of its array (Menuc).
    - Round trips: strmode, vis with unvis, base64 with its decoder, the EBCDIC tables,
      compress with its decoder (ZopenSpec), the tokens of shell arithmetic (ArithText),
      unexpand with expand (Expand).
    - Memory safety and bounds: setmode, vis, unvis, the overflow test of
      reallocarr, the buffer of humanize_number, decompress on any input (ZopenSafe).
    - Error behaviour: which strings strtonum refuses and how, which inputs without a NUL
      the base64 decoder accepts, which expressions find accepts.
    - Defects: where the code falls short of its intent a theorem or lemma states
      what it does instead; they come last in each file.  The specifications say what the
      manual or the standard says, so the property has the hypothesis that excludes
      the defect, and its comment names it.

    ** Not modelled

    The programs' option parsing, messages and system calls; everything that is mostly
    an interface to a kernel or a network (ifconfig, mount_*, the rpc, bluetooth and
    routing daemons, the debuggers of file systems); generated parsers; vendored
    libraries (libtommath in nvmectl, the awk and less sources); and, for lack of
    room, the interpreters and editors (sh but for its arithmetic, csh, ksh, make, m4,
    sed, patch, ed) and the OpenBSD programs under src/src.openbsd.  Of dd the opening
    of the files and signals are left out; of base64 the option parsing; of tsort the
    option -d; of find the tests of the primaries and the walk of the hierarchy. *)

From Stdlib Require Export Ascii.
From stdpp Require Export prelude list strings.
From Stdlib Require Export ZArith Lia.

#[global] Open Scope Z_scope.

(** ** Characters and strings

    A C [char] or byte is the integer it denotes.  [ch] and [str] turn Rocq
    literals into those integers when they are parsed, so the kernel and [lia]
    only ever see numerals. *)

Definition bytes_of (s : string) : list Z :=
  (λ a, Z.of_N (N_of_ascii a)) <$> String.list_ascii_of_string s.

Notation "'ch' c" :=
  (ltac:(let z := eval vm_compute in (Z.of_N (N_of_ascii c%char)) in exact z))
  (at level 10, c at level 9, only parsing).
Notation "'str' s" :=
  (ltac:(let z := eval vm_compute in (bytes_of s%string) in exact z))
  (at level 10, s at level 9, only parsing).

(** The character a C string pointer reads: a string is the list of its
    non-NUL characters, and reading past the last one yields the NUL. *)
Definition peek (p : list Z) : Z := match p with [] => 0 | c :: _ => c end.

Definition is_byte (c : Z) : Prop := 0 <= c < 256.
Definition is_char (c : Z) : Prop := 0 < c < 256.

(** ** Fallible operations

    [Ok] is a normal result, [Err e] a failure reported through [errno], and
    [Fault] an access outside the memory the code owns: no theorem below ever
    needs to assume it away, each memory-safety property shows it is not
    reached. *)
Inductive res (A : Type) : Type :=
  | Ok (a : A)
  | Err (e : Z)
  | Fault.
Arguments Ok {A} a.
Arguments Err {A} e.
Arguments Fault {A}.

Definition res_bind {A B} (m : res A) (k : A → res B) : res B :=
  match m with Ok a => k a | Err e => Err e | Fault => Fault end.

Declare Scope res_scope.
Delimit Scope res_scope with res.
Notation "'let*' x ':=' m 'in' k" := (res_bind m (λ x, k))
  (at level 200, x pattern, m at level 100, k at level 200, right associativity)
  : res_scope.
#[global] Open Scope res_scope.

Definition res_ok {A} (r : res A) : bool :=
  match r with Ok _ => true | _ => false end.

Definition res_faults {A} (r : res A) : bool :=
  match r with Fault => true | _ => false end.

Lemma res_bind_Ok {A B} (m : res A) (k : A → res B) b :
  res_bind m k = Ok b ↔ ∃ a, m = Ok a ∧ k a = Ok b.
Proof. destruct m; naive_solver. Qed.

Lemma res_bind_no_fault {A B} (m : res A) (k : A → res B) :
  m ≠ Fault → (∀ a, m = Ok a → k a ≠ Fault) → res_bind m k ≠ Fault.
Proof. destruct m; naive_solver. Qed.

Lemma res_bind_assoc {A B C} (m : res A) (k : A → res B) (h : B → res C) :
  res_bind (res_bind m k) h = res_bind m (λ a, res_bind (k a) h).
Proof. by destruct m. Qed.

(** [safe P r]: [r] is not a fault, and satisfies [P] when it is a result.  The
    rule for [let*] composes such facts along a function body. *)
Definition safe {A} (P : A → Prop) (r : res A) : Prop :=
  match r with Ok a => P a | Err _ => True | Fault => False end.

Lemma safe_bind {A B} (P : A → Prop) (Q : B → Prop) m (k : A → res B) :
  safe P m → (∀ a, P a → safe Q (k a)) → safe Q (res_bind m k).
Proof. destruct m; naive_solver. Qed.

Lemma safe_mono {A} (P Q : A → Prop) m : safe P m → (∀ a, P a → Q a) → safe Q m.
Proof. destruct m; naive_solver. Qed.

Lemma safe_no_fault {A} (P : A → Prop) m : safe P m → m ≠ Fault.
Proof. by destruct m. Qed.

(** [safe_or E P r]: no fault, a result satisfies [P] and an error [E].  With the empty
    [E] the operation succeeds. *)
Definition safe_or {A} (E : Z → Prop) (P : A → Prop) (r : res A) : Prop :=
  match r with Ok a => P a | Err e => E e | Fault => False end.

Lemma safe_or_bind {A B} E (P : A → Prop) (Q : B → Prop) m (k : A → res B) :
  safe_or E P m → (∀ a, P a → safe_or E Q (k a)) → safe_or E Q (res_bind m k).
Proof. destruct m; naive_solver. Qed.

Lemma safe_or_mono {A} E (P Q : A → Prop) m :
  safe_or E P m → (∀ a, P a → Q a) → safe_or E Q m.
Proof. destruct m; naive_solver. Qed.

Lemma safe_or_Ok {A} E (P : A → Prop) m a : safe_or E P m → m = Ok a → P a.
Proof. by intros H ->. Qed.

(** [yields P r]: when [r] is a result it satisfies [P]; errors and faults are left
    aside.  This is the form of an invariant that an operation keeps. *)
Definition yields {A} (P : A → Prop) (r : res A) : Prop :=
  match r with Ok a => P a | _ => True end.

Lemma yields_bind {A B} (P : A → Prop) (Q : B → Prop) m (k : A → res B) :
  yields P m → (∀ a, P a → yields Q (k a)) → yields Q (res_bind m k).
Proof. destruct m; naive_solver. Qed.

Lemma yields_mono {A} (P Q : A → Prop) m : yields P m → (∀ a, P a → Q a) → yields Q m.
Proof. destruct m; naive_solver. Qed.

Lemma yields_Ok {A} (P : A → Prop) m a : yields P m → m = Ok a → P a.
Proof. by intros H ->. Qed.

(** ** Machine integers *)

Definition u8 (z : Z) : Z := z mod 2 ^ 8.
Definition u32 (z : Z) : Z := z mod 2 ^ 32.
Definition u64 (z : Z) : Z := z mod 2 ^ 64.
Definition s8 (z : Z) : Z := (z + 2 ^ 7) mod 2 ^ 8 - 2 ^ 7.
Definition s32 (z : Z) : Z := (z + 2 ^ 31) mod 2 ^ 32 - 2 ^ 31.
Definition s64 (z : Z) : Z := (z + 2 ^ 63) mod 2 ^ 64 - 2 ^ 63.

Definition INT_MAX : Z := 2 ^ 31 - 1.
Definition INT_MIN : Z := - 2 ^ 31.
Definition UINT_MAX : Z := 2 ^ 32 - 1.
Definition INTMAX_MAX : Z := 2 ^ 63 - 1.
Definition INTMAX_MIN : Z := - 2 ^ 63.
Definition UINTMAX_MAX : Z := 2 ^ 64 - 1.
Definition SIZE_MAX : Z := 2 ^ 64 - 1.

Lemma u8_small z : 0 <= z < 256 → u8 z = z.
Proof. intros ?. apply Z.mod_small. lia. Qed.
Lemma u32_small z : 0 <= z < 2 ^ 32 → u32 z = z.
Proof. apply Z.mod_small. Qed.
Lemma u64_small z : 0 <= z < 2 ^ 64 → u64 z = z.
Proof. apply Z.mod_small. Qed.
Lemma u8_range z : 0 <= u8 z < 256.
Proof. apply (Z.mod_pos_bound z (2 ^ 8)). lia. Qed.
Lemma u32_range z : 0 <= u32 z < 2 ^ 32.
Proof. apply Z.mod_pos_bound. lia. Qed.
Lemma u64_range z : 0 <= u64 z < 2 ^ 64.
Proof. apply Z.mod_pos_bound. lia. Qed.
Lemma s64_range z : - 2 ^ 63 <= s64 z < 2 ^ 63.
Proof. unfold s64. pose proof (Z.mod_pos_bound (z + 2 ^ 63) (2 ^ 64)). lia. Qed.
Lemma s8_small z : -128 <= z < 128 → s8 z = z.
Proof. intros ?. unfold s8. rewrite Z.mod_small; lia. Qed.
Lemma s32_small z : - 2 ^ 31 <= z < 2 ^ 31 → s32 z = z.
Proof. intros ?. unfold s32. rewrite Z.mod_small; lia. Qed.
Lemma s64_small z : - 2 ^ 63 <= z < 2 ^ 63 → s64 z = z.
Proof. intros ?. unfold s64. rewrite Z.mod_small; lia. Qed.

(** C's bitwise operators.  [a & ~b] on words of any one width is [Z.ldiff a b]. *)
Notation "a .| b" := (Z.lor a b) (at level 50, left associativity) : Z_scope.
Notation "a .& b" := (Z.land a b) (at level 40, left associativity) : Z_scope.
Notation "a .&~ b" := (Z.ldiff a b) (at level 40, left associativity) : Z_scope.

(** [flag & mask != 0], the test C writes [if (flag & mask)]. *)
Definition has (flags mask : Z) : bool := negb (Z.land flags mask =? 0).

(** ** Tactics *)

(** Proves an equation between words bit by bit.  [Zbits] introduces the bit
    index and pushes [Z.testbit] inwards; the hints of [zbits] add facts on
    derived operations. *)
Create HintDb zbits discriminated.
#[export] Hint Rewrite Z.land_spec Z.lor_spec Z.lxor_spec Z.ldiff_spec Z.bits_0
  : zbits.

Ltac Zbits :=
  apply Z.bits_inj'; intros ?n ?Hn; autorewrite with zbits;
  repeat match goal with
         | |- context [Z.testbit ?a ?i] => destruct (Z.testbit a i)
         end; try reflexivity; simpl; try reflexivity.

(** Splits the boolean tests of the code into arithmetic facts. *)
Ltac Zcases :=
  repeat match goal with
         | H : context [?a =? ?b] |- _ => destruct (Z.eqb_spec a b)
         | H : context [?a <? ?b] |- _ => destruct (Z.ltb_spec a b)
         | H : context [?a <=? ?b] |- _ => destruct (Z.leb_spec a b)
         | |- context [?a =? ?b] => destruct (Z.eqb_spec a b)
         | |- context [?a <? ?b] => destruct (Z.ltb_spec a b)
         | |- context [?a <=? ?b] => destruct (Z.leb_spec a b)
         end.

Lemma ldiff_lor_l a b c : (a .| b) .&~ c = (a .&~ c) .| (b .&~ c).
Proof. Zbits. Qed.

(** Tests of single bits. *)
Lemma land_pow2_bit f k : 0 <= k → f .& 2 ^ k = if Z.testbit f k then 2 ^ k else 0.
Proof.
  intros Hk. apply Z.bits_inj'. intros i Hi. rewrite Z.land_spec, Z.pow2_bits_eqb by done.
  destruct (Z.eqb_spec k i) as [->|Hne].
  - rewrite andb_true_r. destruct (Z.testbit f i); [by rewrite Z.pow2_bits_true|by rewrite Z.bits_0].
  - rewrite andb_false_r. destruct (Z.testbit f k); [by rewrite Z.pow2_bits_false|by rewrite Z.bits_0].
Qed.

Lemma has_bit f k : 0 <= k → has f (2 ^ k) = Z.testbit f k.
Proof.
  intros Hk. unfold has. rewrite land_pow2_bit by done. destruct (Z.testbit f k); [|done].
  apply negb_true_iff, Z.eqb_neq. pose proof (Z.pow_pos_nonneg 2 k). lia.
Qed.

Lemma has_or_mask f a b : has f (a .| b) = has f a || has f b.
Proof.
  unfold has. rewrite Z.land_lor_distr_r.
  destruct (Z.eqb_spec (f .& a) 0) as [->|Ha]; cbn [negb orb]; [by rewrite Z.lor_0_l|].
  apply negb_true_iff, Z.eqb_neq. by intros [? _]%Z.lor_eq_0_iff.
Qed.

Lemma lor_pos a b : 0 < a → 0 <= b → 0 < a .| b.
Proof.
  intros. assert (0 <= a .| b) by (apply Z.lor_nonneg; lia).
  assert (a .| b ≠ 0) by (intros [? _]%Z.lor_eq_0_iff; lia). lia.
Qed.

#[export] Hint Resolve u8_range u32_range u64_range : core.
