(* ===== verification/Libc.v ===== *)
(** * The C library functions the sources call

    The character classes of the C locale and the [strtol] family of ISO C,
    which the modelled sources rely on.  Characters are the [unsigned char]
    values 0..255 (and negative [char] values, which belong to no class). *)

From S2P Require Import Prelude.

(** ** Character classes of the C locale *)

Definition isdigit (c : Z) : bool := (ch "0" <=? c) && (c <=? ch "9").
Definition isupper (c : Z) : bool := (ch "A" <=? c) && (c <=? ch "Z").
Definition islower (c : Z) : bool := (ch "a" <=? c) && (c <=? ch "z").
Definition isalpha (c : Z) : bool := isupper c || islower c.
Definition isalnum (c : Z) : bool := isalpha c || isdigit c.
Definition isxdigit (c : Z) : bool :=
  isdigit c || ((ch "A" <=? c) && (c <=? ch "F"))
            || ((ch "a" <=? c) && (c <=? ch "f")).
Definition isgraph (c : Z) : bool := (33 <=? c) && (c <=? 126).
Definition isprint (c : Z) : bool := (32 <=? c) && (c <=? 126).
Definition iscntrl (c : Z) : bool := ((0 <=? c) && (c <=? 31)) || (c =? 127).
Definition isspace (c : Z) : bool := (c =? 32) || ((9 <=? c) && (c <=? 13)).
Definition isblank (c : Z) : bool := (c =? 32) || (c =? 9).
Definition ispunct (c : Z) : bool := isgraph c && negb (isalnum c).
Definition tolower (c : Z) : Z := if isupper c then c + 32 else c.
Definition toupper (c : Z) : Z := if islower c then c - 32 else c.

(** ** Error numbers *)

Definition ENOMEM : Z := 12.
Definition EINVAL : Z := 22.
Definition ENOSPC : Z := 28.
Definition ERANGE : Z := 34.
Definition EOVERFLOW : Z := 75.
Definition EIO : Z := 5.
Definition EFTYPE : Z := 79.
Definition ENOTSUP : Z := 95.
Definition ECANCELED : Z := 125.

(** ** The strtol family

    The value of a digit in bases up to 36; 99 stands for no digit. *)
Definition digit_val (c : Z) : Z :=
  if isdigit c then c - ch "0"
  else if isupper c then c - ch "A" + 10
  else if islower c then c - ch "a" + 10
  else 99.

(** The longest run of digits of [base] at the head of [s]: its value on top
    of [acc], and the rest of the string. *)
Fixpoint digits (base : Z) (s : list Z) (acc : Z) : Z * list Z :=
  match s with
  | c :: s' => if digit_val c <? base then digits base s' (acc * base + digit_val c)
               else (acc, s)
  | [] => (acc, s)
  end.

Fixpoint skip_space (s : list Z) : list Z :=
  match s with
  | c :: s' => if isspace c then skip_space s' else s
  | [] => s
  end.

(** The optional sign: whether it is a minus, and what follows. *)
Definition strto_sign (s : list Z) : bool * list Z :=
  match s with
  | c :: s' => if c =? ch "-" then (true, s')
               else if c =? ch "+" then (false, s') else (false, s)
  | [] => (false, s)
  end.

(** The base in use and the digits after an optional [0x] prefix. *)
Definition strto_prefix (base : Z) (s : list Z) : Z * list Z :=
  match s with
  | z :: x :: h :: s' =>
      if (z =? ch "0") && (tolower x =? ch "x") && (digit_val h <? 16)
         && ((base =? 0) || (base =? 16))
      then (16, h :: s')
      else (if base =? 0 then if z =? ch "0" then 8 else 10 else base, s)
  | z :: _ => (if base =? 0 then if z =? ch "0" then 8 else 10 else base, s)
  | [] => (if base =? 0 then 10 else base, s)
  end.

(** What the conversion reads: [None] when there are no digits, else the sign,
    the magnitude and the rest. *)
Definition strto_scan (base : Z) (s : list Z) : option (bool * Z * list Z) :=
  let '(neg, s1) := strto_sign (skip_space s) in
  let '(b, s2) := strto_prefix base s1 in
  if digit_val (peek s2) <? b then
    let '(v, rest) := digits b s2 0 in Some (neg, v, rest)
  else None.

(** [strtoimax(s, &end, base)]: the value, the string at [end], and [errno] (0
    when the call leaves it alone). *)
Definition strtoimax (s : list Z) (base : Z) : Z * list Z * Z :=
  match strto_scan base s with
  | None => (0, s, 0)
  | Some (neg, v, rest) =>
      let w := if neg then - v else v in
      if w <? INTMAX_MIN then (INTMAX_MIN, rest, ERANGE)
      else if INTMAX_MAX <? w then (INTMAX_MAX, rest, ERANGE)
      else (w, rest, 0)
  end.

(** [strtoumax]: a minus sign negates in the unsigned type. *)
Definition strtoumax (s : list Z) (base : Z) : Z * list Z * Z :=
  match strto_scan base s with
  | None => (0, s, 0)
  | Some (neg, v, rest) =>
      if UINTMAX_MAX <? v then (UINTMAX_MAX, rest, ERANGE)
      else (if neg then u64 (- v) else v, rest, 0)
  end.

(** [long] is 64 bits wide, so [strtol] is [strtoimax]. *)
Definition strtol := strtoimax.

(** ** Strings *)

(** [strcmp] of two strings: the difference of the first characters that differ. *)
Fixpoint strcmp (s t : list Z) : Z :=
  match s, t with
  | [], _ => 0 - peek t
  | c :: _, [] => c
  | c :: s', d :: t' => if c =? d then strcmp s' t' else c - d
  end.

(** [strsep(&s, delim)]: the token, and the rest after the delimiter, or [None] for the
    null pointer. *)
Fixpoint strsep (delim s : list Z) : list Z * option (list Z) :=
  match s with
  | [] => ([], None)
  | c :: s' =>
      if existsb (Z.eqb c) delim then ([], Some s')
      else let '(tok, rest) := strsep delim s' in (c :: tok, rest)
  end.

(** [bsearch] for the entry of that name, in a table that must be in the order of the
    names. *)
Fixpoint ascending (names : list (list Z)) : bool :=
  match names with
  | n :: (n' :: _) as names' => (strcmp n n' <? 0) && ascending names'
  | _ => true
  end.

Definition bsearch {A} (name : A → list Z) (key : list Z) (table : list A) : res (option A) :=
  if ascending (name <$> table)
  then Ok (List.find (λ a, strcmp key (name a) =? 0) table)
  else Fault.

(** ** Formatted output

    The decimal digits [printf] writes for an integer of up to 64 bits, whose
    value has at most 20 digits. *)
Fixpoint decimal_digits (fuel : nat) (v : Z) (acc : list Z) : list Z :=
  match fuel with
  | O => acc
  | S fuel => let acc := ch "0" + v mod 10 :: acc in
              if v / 10 =? 0 then acc else decimal_digits fuel (v / 10) acc
  end.
Definition print_uint (v : Z) : list Z := decimal_digits 20 v [].
Definition print_int (v : Z) : list Z :=
  if v <? 0 then ch "-" :: print_uint (- v) else print_uint v.

(** The string a pointer to characters denotes: up to its first NUL. *)
Fixpoint cstr (p : list Z) : list Z :=
  match p with
  | c :: p => if c =? 0 then [] else c :: cstr p
  | [] => []
  end.

(** [snprintf(buf, len, ...)] of the text [t]: the bytes it stores.  It returns
    the length of [t]. *)
Definition snprintf (buf : list Z) (len : Z) (t : list Z) : res (list Z) :=
  if len <=? 0 then Ok buf
  else let w := take (Z.to_nat (len - 1)) t ++ [0] in
       if (length w <=? length buf)%nat then Ok (w ++ drop (length w) buf) else Fault.

(** ** Facts the components share *)

Lemma isdigit_range c : isdigit c = true ↔ 48 <= c <= 57.
Proof. unfold isdigit. Zcases; naive_solver lia. Qed.

Lemma digit_val_digit c : isdigit c = true → digit_val c = c - 48.
Proof. unfold digit_val. by intros ->. Qed.

Lemma digit_val_nonneg c : 0 <= digit_val c.
Proof. unfold digit_val, isdigit, isupper, islower. Zcases; simpl; lia. Qed.

Lemma digits_mono base s acc :
  0 < base → 0 <= acc → acc <= fst (digits base s acc).
Proof.
  intros Hb. revert acc. induction s as [|c s IH]; intros acc Hacc; simpl; [lia|].
  case_match; simpl; [|lia].
  pose proof (digit_val_nonneg c).
  specialize (IH (acc * base + digit_val c)). nia.
Qed.

Lemma digits_suffix base s acc : ∃ d, s = d ++ snd (digits base s acc).
Proof.
  revert acc. induction s as [|c s IH]; intros acc; simpl; [by exists []|].
  case_match; simpl; [|by exists []].
  destruct (IH (acc * base + digit_val c)) as [d Hd].
  exists (c :: d). simpl. congruence.
Qed.

(** The run of digits stops at a character that is no digit of the base. *)
Lemma digits_rest base s acc :
  digits base s acc = (fst (digits base s acc), snd (digits base s acc))
  ∧ (snd (digits base s acc) = [] ∨ base <= digit_val (peek (snd (digits base s acc)))).
Proof.
  revert acc. induction s as [|c s IH]; intros acc; simpl; [auto|].
  destruct (Z.ltb_spec (digit_val c) base); [apply IH|]. simpl. auto.
Qed.

(** Whole strings of digits are read to the end. *)
Definition digits_value (base : Z) (ds : list Z) : Z :=
  foldl (λ acc c, acc * base + digit_val c) 0 ds.

Lemma digits_all base ds acc rest :
  Forall (λ c, digit_val c < base) ds →
  (rest = [] ∨ base <= digit_val (peek rest)) →
  digits base (ds ++ rest) acc =
    (foldl (λ acc c, acc * base + digit_val c) acc ds, rest).
Proof.
  intros Hds Hrest. revert acc.
  induction Hds as [|c ds Hc Hds IH]; intros acc; simpl.
  - destruct rest as [|c rest]; [done|]. simpl.
    destruct Hrest as [?|Hr]; [done|]. simpl in Hr.
    destruct (Z.ltb_spec (digit_val c) base); [lia|done].
  - destruct (Z.ltb_spec (digit_val c) base); [|lia]. apply IH.
Qed.

Lemma strto_prefix_plain base s :
  base ≠ 0 → base ≠ 16 → strto_prefix base s = (base, s).
Proof.
  intros H0 H16. apply Z.eqb_neq in H0, H16. unfold strto_prefix.
  destruct s as [|z [|x [|h s]]]; rewrite H0, ?H16; cbn [orb]; rewrite ?andb_false_r; done.
Qed.

Lemma digits_value_nonneg base ds : 0 < base → 0 <= digits_value base ds.
Proof.
  intros Hb. unfold digits_value.
  assert (∀ acc, 0 <= acc → 0 <= foldl (λ acc c, acc * base + digit_val c) acc ds) as H.
  { induction ds as [|c ds IH]; intros acc Hacc; simpl; [done|].
    apply IH. pose proof (digit_val_nonneg c). nia. }
  by apply H.
Qed.

Lemma digits_value_all base ds rest :
  Forall (λ c, digit_val c < base) ds →
  (rest = [] ∨ base <= digit_val (peek rest)) →
  digits base (ds ++ rest) 0 = (digits_value base ds, rest).
Proof. apply digits_all. Qed.

(** The number of digits [printf] writes. *)
Lemma decimal_digits_length fuel v acc (n : nat) :
  (0 < n)%nat → 0 <= v < 10 ^ Z.of_nat n →
  (length (decimal_digits fuel v acc) <= n + length acc)%nat.
Proof.
  revert v acc n. induction fuel as [|fuel IH]; intros v acc n Hn Hv; simpl; [lia|].
  destruct (Z.eqb_spec (v / 10) 0); simpl; [lia|].
  destruct n as [|n]; [lia|].
  assert (10 ^ Z.of_nat (S n) = 10 * 10 ^ Z.of_nat n) as E
    by (rewrite Nat2Z.inj_succ, Z.pow_succ_r; lia).
  assert (0 <= v / 10 < 10 ^ Z.of_nat n)
    by (split; [apply Z.div_pos; lia|apply Z.div_lt_upper_bound; lia]).
  destruct n as [|n]; [change (10 ^ Z.of_nat 0) with 1 in *; lia|].
  etransitivity; [apply (IH _ _ (S n)); [lia|done]|]. simpl. lia.
Qed.

Lemma print_uint_length v (n : nat) :
  (0 < n)%nat → 0 <= v < 10 ^ Z.of_nat n → (length (print_uint v) <= n)%nat.
Proof.
  intros. unfold print_uint. etransitivity; [by apply (decimal_digits_length _ _ _ n)|].
  simpl. lia.
Qed.

Lemma decimal_digits_nonempty fuel v acc :
  (length acc < length (decimal_digits (S fuel) v acc))%nat.
Proof.
  revert v acc. induction fuel as [|fuel IH]; intros v acc.
  - cbn. case_match; simpl; lia.
  - cbn [decimal_digits]. case_match; [simpl; lia|].
    etransitivity; [|apply IH]. simpl. lia.
Qed.

Lemma print_uint_nonempty v : (1 <= length (print_uint v))%nat.
Proof. apply (decimal_digits_nonempty 19 v []). Qed.

(** A text that fits is stored whole, with its NUL. *)
Lemma snprintf_fits buf len t :
  Z.of_nat (length t) < len → len <= Z.of_nat (length buf) →
  snprintf buf len t = Ok (t ++ 0 :: drop (length t + 1) buf).
Proof.
  intros Ht Hb. unfold snprintf. destruct (Z.leb_spec len 0); [lia|].
  rewrite (take_ge t) by lia. rewrite length_app. simpl.
  destruct (Nat.leb_spec (length t + 1) (length buf)); [|lia].
  by rewrite <- app_assoc.
Qed.

Lemma snprintf_safe buf len t :
  len <= Z.of_nat (length buf) → ∃ buf', snprintf buf len t = Ok buf'.
Proof.
  intros Hb. unfold snprintf. destruct (Z.leb_spec len 0); [by eexists|].
  rewrite length_app, length_take. simpl.
  destruct (Nat.leb_spec (Nat.min (Z.to_nat (len - 1)) (length t) + 1) (length buf)); [by eexists|lia].
Qed.

(** What [printf] writes is read back. *)
Lemma decimal_digits_value fuel v acc x :
  0 <= v < 10 ^ Z.of_nat fuel → x = 0 →
  foldl (λ a c, a * 10 + digit_val c) x (decimal_digits fuel v acc)
  = foldl (λ a c, a * 10 + digit_val c) v acc.
Proof.
  intros Hv ->. revert v acc Hv. induction fuel as [|fuel IH]; intros v acc Hv.
  { change (10 ^ Z.of_nat 0) with 1 in Hv. by replace v with 0 by lia. }
  rewrite Nat2Z.inj_succ, Z.pow_succ_r in Hv by lia.
  assert (0 <= v mod 10 < 10) by (apply Z.mod_pos_bound; lia).
  assert (digit_val (48 + v mod 10) = v mod 10) as Hd
    by (rewrite digit_val_digit by (apply isdigit_range; lia); lia).
  cbn [decimal_digits]. destruct (Z.eqb_spec (v / 10) 0) as [E|E].
  - cbn [foldl]. rewrite Hd. f_equal. pose proof (Z.div_mod v 10). lia.
  - rewrite IH by (split; [apply Z.div_pos; lia|apply Z.div_lt_upper_bound; lia]).
    cbn [foldl]. rewrite Hd. f_equal. pose proof (Z.div_mod v 10). lia.
Qed.

Lemma decimal_digits_first fuel v acc :
  0 < v < 10 ^ Z.of_nat fuel → ch "1" <= peek (decimal_digits fuel v acc) <= ch "9".
Proof.
  revert v acc. induction fuel as [|fuel IH]; intros v acc Hv.
  { change (10 ^ Z.of_nat 0) with 1 in Hv. lia. }
  rewrite Nat2Z.inj_succ, Z.pow_succ_r in Hv by lia.
  assert (0 <= v mod 10 < 10) by (apply Z.mod_pos_bound; lia).
  cbn [decimal_digits]. destruct (Z.eqb_spec (v / 10) 0) as [E|E].
  - simpl. pose proof (Z.div_mod v 10). lia.
  - assert (0 <= v / 10) by (apply Z.div_pos; lia).
    apply IH. split; [lia|apply Z.div_lt_upper_bound; lia].
Qed.

Lemma decimal_digits_all fuel v acc :
  Forall (λ c, isdigit c = true) acc → Forall (λ c, isdigit c = true) (decimal_digits fuel v acc).
Proof.
  revert v acc. induction fuel as [|fuel IH]; intros v acc Hacc; cbn [decimal_digits]; [done|].
  assert (isdigit (48 + v mod 10) = true)
    by (apply isdigit_range; pose proof (Z.mod_pos_bound v 10); lia).
  case_match; [by apply Forall_cons|]. apply IH. by apply Forall_cons.
Qed.

Lemma print_uint_digits v : Forall (λ c, isdigit c = true) (print_uint v).
Proof. by apply decimal_digits_all. Qed.

(** The decimal digits of a positive number have no leading zero, so base 0 reads them in
    base 10. *)
Lemma strto_print n rest :
  0 < n < 10 ^ 20 → (rest = [] ∨ 10 <= digit_val (peek rest)) →
  ch "1" <= peek (print_uint n ++ rest) <= ch "9"
  ∧ strto_prefix 0 (print_uint n ++ rest) = (10, print_uint n ++ rest)
  ∧ digits 10 (print_uint n ++ rest) 0 = (n, rest).
Proof.
  intros Hn Hrest. pose proof (decimal_digits_first 20 n [] Hn) as Hf.
  fold (print_uint n) in Hf. pose proof (print_uint_digits n) as Hds.
  pose proof (decimal_digits_value 20 n [] 0 ltac:(lia) eq_refl) as Hval.
  fold (print_uint n) in Hval. simpl foldl in Hval at 2.
  destruct (print_uint n) as [|c ds]; [simpl in Hf; lia|]. simpl peek in Hf. split; [done|]. split.
  - assert (c =? ch "0" = false) as E by (apply Z.eqb_neq; lia).
    unfold strto_prefix. cbn [app]. destruct (ds ++ rest) as [|x [|h l]]; by rewrite !E.
  - rewrite (digits_value_all 10 (c :: ds) rest); [by unfold digits_value; rewrite Hval| |done].
    eapply Forall_impl; [exact Hds|]. intros x Hx. simpl.
    rewrite digit_val_digit by done. apply isdigit_range in Hx. lia.
Qed.

(** [strtol] with base 0 reads it back. *)
Lemma strtol_print n rest :
  0 < n <= INTMAX_MAX → (rest = [] ∨ 10 <= digit_val (peek rest)) →
  strtol (print_uint n ++ rest) 0 = (n, rest, 0).
Proof.
  intros Hn Hrest. unfold strtol, strtoimax, strto_scan, INTMAX_MAX in *.
  destruct (strto_print n rest ltac:(lia) Hrest) as (Hf & Hp & Hd).
  assert (skip_space (print_uint n ++ rest) = print_uint n ++ rest) as ->.
  { destruct (print_uint n ++ rest); [done|]. simpl in *. unfold isspace. Zcases; first [lia|done]. }
  assert (strto_sign (print_uint n ++ rest) = (false, print_uint n ++ rest)) as ->.
  { destruct (print_uint n ++ rest); [done|]. simpl in *. Zcases; first [lia|done]. }
  rewrite Hp, Hd. rewrite (proj2 (Z.ltb_lt _ _)) by (rewrite digit_val_digit by (apply isdigit_range; lia); lia).
  unfold INTMAX_MIN in *. Zcases; first [lia|done].
Qed.

(** Numbers have no NUL in their spelling, and a string ends at its NUL. *)
Lemma decimal_digits_nonzero fuel v acc :
  Forall (λ c, c ≠ 0) acc → Forall (λ c, c ≠ 0) (decimal_digits fuel v acc).
Proof.
  revert v acc. induction fuel as [|fuel IH]; intros v acc Hacc; simpl; [done|].
  pose proof (Z.mod_pos_bound v 10). case_match; [|apply IH]; (constructor; [lia|done]).
Qed.

Lemma print_int_nonzero v : Forall (λ c, c ≠ 0) (print_int v).
Proof.
  unfold print_int, print_uint. case_match; [constructor; [done|]|];
    by apply decimal_digits_nonzero.
Qed.

Lemma cstr_whole t : Forall (λ c, c ≠ 0) t → cstr t = t.
Proof.
  induction 1 as [|c t Hc Ht IH]; simpl; [done|].
  by rewrite (proj2 (Z.eqb_neq c 0)), IH.
Qed.

Lemma cstr_nul t r : Forall (λ c, c ≠ 0) t → cstr (t ++ 0 :: r) = t.
Proof.
  induction 1 as [|c t Hc Ht IH]; simpl; [done|].
  by rewrite (proj2 (Z.eqb_neq c 0)), IH.
Qed.

Lemma strcmp_refl s : strcmp s s = 0.
Proof. induction s as [|c s IH]; simpl; [done|]. by rewrite Z.eqb_refl. Qed.
