(* ===== verification/Mode.v ===== *)
(** * File modes: setmode.c and strmode.c of lib/netbsd

    [setmode] compiles the mode argument of chmod, mkdir, mknod and install into
    an array of [BITCMD]s, [compress_mode] shortens the array in place and
    [getmode] runs it on a file's mode.  [strmode] prints a mode the way ls does. *)

From S2P Require Import Prelude Libc.

(** ** Mode bits (sys/stat.h) *)

Definition S_IFMT : Z := 0xF000.
Definition S_IFIFO : Z := 0x1000.
Definition S_IFCHR : Z := 0x2000.
Definition S_IFDIR : Z := 0x4000.
Definition S_IFBLK : Z := 0x6000.
Definition S_IFREG : Z := 0x8000.
Definition S_IFLNK : Z := 0xA000.
Definition S_IFSOCK : Z := 0xC000.
Definition S_ISUID : Z := 0x800.
Definition S_ISGID : Z := 0x400.
Definition S_ISVTX : Z := 0x200.
Definition S_ISTXT : Z := S_ISVTX.
Definition S_IRUSR : Z := 0x100.
Definition S_IWUSR : Z := 0x80.
Definition S_IXUSR : Z := 0x40.
Definition S_IRGRP : Z := 0x20.
Definition S_IWGRP : Z := 0x10.
Definition S_IXGRP : Z := 0x8.
Definition S_IROTH : Z := 0x4.
Definition S_IWOTH : Z := 0x2.
Definition S_IXOTH : Z := 0x1.
Definition S_IRWXU : Z := 0x1C0.
Definition S_IRWXG : Z := 0x38.
Definition S_IRWXO : Z := 0x7.

Definition CMD2_CLR : Z := 0x01.
Definition CMD2_SET : Z := 0x02.
Definition CMD2_GBITS : Z := 0x04.
Definition CMD2_OBITS : Z := 0x08.
Definition CMD2_UBITS : Z := 0x10.

Definition STANDARD_BITS : Z :=
  S_ISUID .| S_ISGID .| S_IRWXU .| S_IRWXG .| S_IRWXO.
Definition XBITS : Z := S_IXUSR .| S_IXGRP .| S_IXOTH.
(** [(mode_t)~0] *)
Definition ALL_BITS : Z := 2 ^ 32 - 1.

Record BITCMD := mkBITCMD { cmd : Z; cmd2 : Z; bits : Z }.

#[global] Instance BITCMD_eq_dec : EqDecision BITCMD.
Proof. solve_decision. Defined.

(** ** getmode *)

(** The code after [common:], which copies [value] into the classes that
    [cmd2] names. *)
Definition copy_bits (set : BITCMD) (value newmode : Z) : Z :=
  let newmode :=
    if has (cmd2 set) CMD2_CLR then
      let clrval := if has (cmd2 set) CMD2_SET then S_IRWXO else value in
      let newmode := if has (cmd2 set) CMD2_UBITS
        then newmode .&~ (Z.shiftl clrval 6 .& bits set) else newmode in
      let newmode := if has (cmd2 set) CMD2_GBITS
        then newmode .&~ (Z.shiftl clrval 3 .& bits set) else newmode in
      if has (cmd2 set) CMD2_OBITS
        then newmode .&~ (clrval .& bits set) else newmode
    else newmode in
  if has (cmd2 set) CMD2_SET then
    let newmode := if has (cmd2 set) CMD2_UBITS
      then newmode .| (Z.shiftl value 6 .& bits set) else newmode in
    let newmode := if has (cmd2 set) CMD2_GBITS
      then newmode .| (Z.shiftl value 3 .& bits set) else newmode in
    if has (cmd2 set) CMD2_OBITS
      then newmode .| (value .& bits set) else newmode
  else newmode.

(** One turn of the switch: the new mode, or [None] at the terminator. *)
Definition getmode_step (set : BITCMD) (omode newmode : Z) : option Z :=
  let c := cmd set in
  if c =? ch "u" then
    Some (copy_bits set (Z.shiftr (newmode .& S_IRWXU) 6) newmode)
  else if c =? ch "g" then
    Some (copy_bits set (Z.shiftr (newmode .& S_IRWXG) 3) newmode)
  else if c =? ch "o" then
    Some (copy_bits set (newmode .& S_IRWXO) newmode)
  else if c =? ch "+" then Some (newmode .| bits set)
  else if c =? ch "-" then Some (newmode .&~ bits set)
  else if c =? ch "X" then
    Some (if has omode (S_IFDIR .| S_IXUSR .| S_IXGRP .| S_IXOTH)
          then newmode .| bits set else newmode)
  else None.

(** The loop, from the entry [set] points to; an array without a terminator is
    read past its end. *)
Fixpoint getmode_loop (set : list BITCMD) (omode newmode : Z) : res Z :=
  match set with
  | [] => Fault
  | c :: set' => match getmode_step c omode newmode with
                 | Some m => getmode_loop set' omode m
                 | None => Ok newmode
                 end
  end.

Definition getmode (bbox : list BITCMD) (omode : Z) : res Z :=
  getmode_loop bbox omode omode.

(** ** compress_mode

    The array is compressed in place: [set] is the write index and [nset] the
    read index.  The accumulators are the [int]s of the code. *)

Definition is_pmX (op : Z) : bool :=
  (op =? ch "+") || (op =? ch "-") || (op =? ch "X").

(** [*set = c], inside the array. *)
Definition arr_set (a : list BITCMD) (i : nat) (c : BITCMD) : res (list BITCMD) :=
  if decide (i < length a)%nat then Ok (<[i := c]> a) else Fault.

(** The while loop; [true] when it returns from the function. *)
Fixpoint copy_loop (fuel : nat) (a : list BITCMD) (set nset : nat)
    : res (list BITCMD * nat * nat * bool) :=
  match fuel with
  | O => Fault
  | S fuel =>
      match a !! nset with
      | None => Fault
      | Some c =>
          if is_pmX (cmd c) then Ok (a, set, nset, false) else
          let* a' := arr_set a set c in
          if cmd c =? 0 then Ok (a', S set, S nset, true)
          else copy_loop fuel a' (S set) (S nset)
      end
  end.

Record accum := mkAccum { setbits : Z; clrbits : Z; Xbits : Z }.

Definition accum_step (c : BITCMD) (x : accum) : option accum :=
  let op := cmd c in
  if op =? ch "-" then
    Some (mkAccum (setbits x .&~ bits c) (clrbits x .| bits c) (Xbits x .&~ bits c))
  else if op =? ch "+" then
    Some (mkAccum (setbits x .| bits c) (clrbits x .&~ bits c) (Xbits x .&~ bits c))
  else if op =? ch "X" then
    Some (mkAccum (setbits x) (clrbits x) (Xbits x .| (bits c .&~ setbits x)))
  else None.

Fixpoint gather_loop (fuel : nat) (a : list BITCMD) (nset : nat) (x : accum)
    : res (nat * accum) :=
  match fuel with
  | O => Fault
  | S fuel =>
      match a !! nset with
      | None => Fault
      | Some c => match accum_step c x with
                  | Some x' => gather_loop fuel a (S nset) x'
                  | None => Ok (nset, x)
                  end
      end
  end.

(** [if (bits) { set->cmd = op; set->cmd2 = 0; set->bits = bits; set++; }] *)
Definition emit (op bits : Z) (a : list BITCMD) (set : nat)
    : res (list BITCMD * nat) :=
  if bits =? 0 then Ok (a, set)
  else let* a' := arr_set a set (mkBITCMD op 0 bits) in Ok (a', S set).

Fixpoint compress_loop (fuel : nat) (a : list BITCMD) (set nset : nat)
    : res (list BITCMD) :=
  match fuel with
  | O => Fault
  | S fuel =>
      let* (a, set, nset, done) := copy_loop (S (length a)) a set nset in
      if (done : bool) then Ok a else
      let* (nset, x) := gather_loop (S (length a)) a nset (mkAccum 0 0 0) in
      let* (a, set) := emit (ch "-") (clrbits x) a set in
      let* (a, set) := emit (ch "+") (setbits x) a set in
      let* (a, set) := emit (ch "X") (Xbits x) a set in
      compress_loop fuel a set nset
  end.

Definition compress_mode (a : list BITCMD) : res (list BITCMD) :=
  compress_loop (S (length a)) a 0 0.

(** ** setmode *)

(** The array [saveset]: the entries before [set], and its size [setlen]. *)
Record cmdbuf := mkBuf { written : list BITCMD; setlen : Z }.

Definition SET_LEN : Z := 6.
Definition SET_LEN_INCR : Z := 4.

Section setmode.
(** Whether [reallocarr] finds room for that many entries, and what a field of
    a fresh entry holds before it is stored to. *)
Context (alloc : Z → bool) (garbage : Z).

(** [*set++ = c], inside the allocation. *)
Definition put (b : cmdbuf) (c : BITCMD) : res cmdbuf :=
  if Z.of_nat (length (written b)) <? setlen b
  then Ok (mkBuf (written b ++ [c]) (setlen b)) else Fault.

Definition addcmd (b : cmdbuf) (op who oparg mask : Z) : res cmdbuf :=
  let who_or d := if who =? 0 then d else who in
  let plain b op := put b (mkBITCMD op garbage (who_or mask .& oparg)) in
  if op =? ch "=" then
    let* b := put b (mkBITCMD (ch "-") garbage (who_or STANDARD_BITS)) in
    plain b (ch "+")
  else if (op =? ch "+") || (op =? ch "-") || (op =? ch "X") then plain b op
  else if (op =? ch "u") || (op =? ch "g") || (op =? ch "o") then
    let classes :=
      if who =? 0 then CMD2_UBITS .| CMD2_GBITS .| CMD2_OBITS
      else (if has who S_IRUSR then CMD2_UBITS else 0)
        .| (if has who S_IRGRP then CMD2_GBITS else 0)
        .| (if has who S_IROTH then CMD2_OBITS else 0) in
    let bits := if who =? 0 then mask else ALL_BITS in
    let how :=
      if oparg =? ch "+" then CMD2_SET
      else if oparg =? ch "-" then CMD2_CLR
      else if oparg =? ch "=" then CMD2_SET .| CMD2_CLR else 0 in
    put b (mkBITCMD op (classes .| how) bits)
  else put b (mkBITCMD garbage garbage garbage).

(** Grows the array when [set >= endset], with [endset] two entries short of
    its end, then calls [addcmd]. *)
Definition ADDCMD (b : cmdbuf) (op who oparg mask : Z) : res cmdbuf :=
  let* b :=
    if setlen b - 2 <=? Z.of_nat (length (written b)) then
      if alloc (setlen b + SET_LEN_INCR)
      then Ok (mkBuf (written b) (setlen b + SET_LEN_INCR)) else Err ENOMEM
    else Ok b in
  addcmd b op who oparg mask.

Fixpoint who_loop (p : list Z) (who : Z) : Z * list Z :=
  match p with
  | c :: p' =>
      if c =? ch "a" then who_loop p' (who .| STANDARD_BITS)
      else if c =? ch "u" then who_loop p' (who .| (S_ISUID .| S_IRWXU))
      else if c =? ch "g" then who_loop p' (who .| (S_ISGID .| S_IRWXG))
      else if c =? ch "o" then who_loop p' (who .| S_IRWXO)
      else (who, p)
  | [] => (who, p)
  end.

(** The local variables of the permission loop. *)
Record pvars := mkVars {
  who : Z; perm : Z; permXbits : Z; equalopdone : bool; buf : cmdbuf }.

(** The cases of the switch that accumulate bits. *)
Definition perm_char (c : Z) (v : pvars) : option pvars :=
  let setid := (who v =? 0) || negb (who v .&~ S_IRWXO =? 0) in
  let add w p x := mkVars w p x (equalopdone v) (buf v) in
  if c =? ch "r" then
    Some (add (who v) (perm v .| (S_IRUSR .| S_IRGRP .| S_IROTH)) (permXbits v))
  else if c =? ch "s" then
    Some (if setid then add (who v) (perm v .| (S_ISUID .| S_ISGID)) (permXbits v)
          else v)
  else if c =? ch "t" then
    Some (if setid then add (who v .| S_ISTXT) (perm v .| S_ISTXT) (permXbits v)
          else v)
  else if c =? ch "w" then
    Some (add (who v) (perm v .| (S_IWUSR .| S_IWGRP .| S_IWOTH)) (permXbits v))
  else if c =? ch "X" then Some (add (who v) (perm v) XBITS)
  else if c =? ch "x" then
    Some (add (who v) (perm v .| XBITS) (permXbits v))
  else None.

(** The cases 'u', 'g' and 'o': flush, then copy. *)
Definition perm_copy (op c mask : Z) (v : pvars) : res pvars :=
  let* v := if perm v =? 0 then Ok v else
    let* b := ADDCMD (buf v) op (who v) (perm v) mask in
    Ok (mkVars (who v) 0 (permXbits v) (equalopdone v) b) in
  let v := mkVars (who v) (perm v) (permXbits v)
             ((op =? ch "=") || equalopdone v) (buf v) in
  let* v := if (op =? ch "+") && negb (permXbits v =? 0) then
    let* b := ADDCMD (buf v) (ch "X") (who v) (permXbits v) mask in
    Ok (mkVars (who v) (perm v) 0 (equalopdone v) b) else Ok v in
  let* b := ADDCMD (buf v) c (who v) op mask in
  Ok (mkVars (who v) (perm v) (permXbits v) (equalopdone v) b).

(** The default case: add what has not been added. *)
Definition perm_flush (op mask : Z) (v : pvars) : res pvars :=
  let* v := if negb (perm v =? 0) || ((op =? ch "=") && negb (equalopdone v)) then
    let* b := ADDCMD (buf v) op (who v) (perm v) mask in
    Ok (mkVars (who v) 0 (permXbits v) ((op =? ch "=") || equalopdone v) b)
    else Ok v in
  if permXbits v =? 0 then Ok v else
    let* b := ADDCMD (buf v) (ch "X") (who v) (permXbits v) mask in
    Ok (mkVars (who v) (perm v) 0 (equalopdone v) b).

Fixpoint perm_loop (p : list Z) (op mask : Z) (v : pvars) : res (pvars * list Z) :=
  match p with
  | c :: p' =>
      match perm_char c v with
      | Some v => perm_loop p' op mask v
      | None =>
          if (c =? ch "u") || (c =? ch "g") || (c =? ch "o") then
            let* v := perm_copy op c mask v in perm_loop p' op mask v
          else let* v := perm_flush op mask v in Ok (v, p)
      end
  | [] => let* v := perm_flush op mask v in Ok (v, p)
  end.

(** The clause loop.  [fresh] is false after [goto getop]. *)
Fixpoint clause_loop (fuel : nat) (p : list Z) (fresh : bool) (mask : Z) (v : pvars)
    : res cmdbuf :=
  match fuel with
  | O => Fault
  | S fuel =>
      let '(w, p) := if fresh then who_loop p 0 else (who v, p) in
      let op := peek p in
      if negb ((op =? ch "+") || (op =? ch "-") || (op =? ch "=")) then Err EINVAL
      else
        let done := if op =? ch "=" then false else equalopdone v in
        let* (v, p) := perm_loop (tl p) op mask
          (mkVars (w .&~ S_ISTXT) 0 0 done (buf v)) in
        match p with
        | [] => Ok (buf v)
        | c :: p' => if c =? ch "," then clause_loop fuel p' true mask v
                     else clause_loop fuel p false mask v
        end
  end.

(** [set->cmd = 0] *)
Definition terminate (b : cmdbuf) : res (list BITCMD) :=
  let* b := put b (mkBITCMD 0 garbage garbage) in Ok (written b).

Definition setmode (umask : Z) (p : list Z) : res (list BITCMD) :=
  if peek p =? 0 then Err EINVAL else
  let mask := ALL_BITS .&~ umask in
  if negb (alloc (SET_LEN + 2)) then Err ENOMEM else
  let b := mkBuf [] (SET_LEN + 2) in
  if isdigit (peek p) then
    let '(lval, ep, errno) := strtol p 8 in
    if negb (peek ep =? 0) then Err EINVAL
    else if (errno =? ERANGE) && ((lval =? INTMAX_MAX) || (lval =? INTMAX_MIN))
    then Err ERANGE
    else if negb (lval .&~ (STANDARD_BITS .| S_ISTXT) =? 0) then Err EINVAL
    else
      let* b := ADDCMD b (ch "=") (STANDARD_BITS .| S_ISTXT) lval mask in
      terminate b
  else
    let* b := clause_loop (S (length p)) p true mask (mkVars 0 0 0 false b) in
    let* a := terminate b in
    compress_mode a.
End setmode.

(** ** strmode *)

Definition strmode_type (mode : Z) : Z :=
  let t := mode .& S_IFMT in
  if t =? S_IFDIR then ch "d"
  else if t =? S_IFCHR then ch "c"
  else if t =? S_IFBLK then ch "b"
  else if t =? S_IFREG then ch "-"
  else if t =? S_IFLNK then ch "l"
  else if t =? S_IFSOCK then ch "s"
  else if t =? S_IFIFO then ch "p"
  else ch "?".

(** The switch on the execute bit [x] and the special bit [s] of a class. *)
Definition strmode_exec (mode x s none xc sc both : Z) : Z :=
  let t := mode .& (x .| s) in
  if t =? 0 then none else if t =? x then xc else if t =? s then sc else both.

Definition strmode_perm (mode b c : Z) : Z := if has mode b then c else ch "-".

Definition strmode (mode : Z) : list Z :=
  [ strmode_type mode;
    strmode_perm mode S_IRUSR (ch "r"); strmode_perm mode S_IWUSR (ch "w");
    strmode_exec mode S_IXUSR S_ISUID (ch "-") (ch "x") (ch "S") (ch "s");
    strmode_perm mode S_IRGRP (ch "r"); strmode_perm mode S_IWGRP (ch "w");
    strmode_exec mode S_IXGRP S_ISGID (ch "-") (ch "x") (ch "S") (ch "s");
    strmode_perm mode S_IROTH (ch "r"); strmode_perm mode S_IWOTH (ch "w");
    strmode_exec mode S_IXOTH S_ISVTX (ch "-") (ch "x") (ch "T") (ch "t");
    ch " " ].

(** ** compress_mode preserves the meaning of the array

    [refines a a' set nset f]: the array [a'] agrees with [a] below the write
    index [set], and running it from there is running [a] from the read index
    [nset] on the mode changed by [f], the commands gathered but not written. *)

Definition refines (a a' : list BITCMD) (set nset : nat) (f : Z → Z → Z) : Prop :=
  length a' = length a ∧ take set a' = take set a ∧
  ∀ omode m, getmode_loop (drop set a') omode m =
             getmode_loop (drop nset a) omode (f omode m).

Definition keep (_ m : Z) : Z := m.

(** The command [op] with bits [b] as a function on modes. *)
Definition apply_cmd (op b omode m : Z) : Z :=
  default m (getmode_step (mkBITCMD op 0 b) omode m).

Definition term_at (a : list BITCMD) (nset : nat) : Prop :=
  ∃ i c, (nset <= i)%nat ∧ a !! i = Some c ∧ cmd c = 0.

Lemma term_at_lt a nset : term_at a nset → (nset < length a)%nat.
Proof. intros (i & c & ? & Hi & _). apply lookup_lt_Some in Hi. lia. Qed.

Lemma term_at_S a set nset c d :
  (set <= nset)%nat → a !! nset = Some c → cmd c ≠ 0 →
  term_at a nset → term_at (<[set := d]> a) (S nset).
Proof.
  intros ? Hc Hne (i & c' & ? & Hi & ?). exists i, c'.
  assert (i ≠ nset) by congruence.
  rewrite list_lookup_insert_ne by lia. split_and!; auto; lia.
Qed.

Lemma take_S_lookup (a' : list BITCMD) set b :
  take (S set) a' = b → (set < length a')%nat →
  drop set a' = default (mkBITCMD 0 0 0) (b !! set) :: drop (S set) a'.
Proof.
  intros <- Hlt. destruct (lookup_lt_is_Some_2 a' set Hlt) as [x Hx].
  rewrite lookup_take_lt by lia. rewrite Hx. simpl. by apply drop_S.
Qed.

Lemma take_insert_S (a : list BITCMD) set c a' :
  (set < length a)%nat → take (S set) a' = take (S set) (<[set := c]> a) →
  length a' = length a →
  take set a' = take set a ∧ drop set a' = c :: drop (S set) a'.
Proof.
  intros Hlt Ht Hl. split.
  - apply (f_equal (take set)) in Ht. rewrite !take_take in Ht.
    replace (set `min` S set)%nat with set in Ht by lia.
    rewrite Ht. by apply take_insert_ge.
  - rewrite (take_S_lookup _ _ _ Ht) by lia.
    rewrite lookup_take_lt by lia. by rewrite list_lookup_insert_eq by lia.
Qed.

Lemma refines_copy a a' set nset c :
  a !! nset = Some c → (set <= nset)%nat →
  refines (<[set := c]> a) a' (S set) (S nset) keep → refines a a' set nset keep.
Proof.
  intros Hc Hle (Hl & Ht & Hrun). rewrite length_insert in Hl.
  pose proof (lookup_lt_Some _ _ _ Hc).
  destruct (take_insert_S a set c a') as [Ht' Hd]; [lia|done|done|].
  split_and!; auto. intros omode m.
  rewrite Hd, (drop_S _ _ _ Hc). unfold keep in *. simpl.
  destruct (getmode_step c omode m) as [m'|]; [|done].
  by rewrite Hrun, drop_insert_lt by lia.
Qed.

Lemma refines_term a set nset c :
  a !! nset = Some c → cmd c = 0 → (set <= nset)%nat →
  refines a (<[set := c]> a) set nset keep.
Proof.
  intros Hc H0 Hle. pose proof (lookup_lt_Some _ _ _ Hc).
  split_and!; [by rewrite length_insert|by apply take_insert_ge|].
  intros omode m. rewrite (drop_S _ _ _ Hc).
  rewrite (drop_S _ c set) by (apply list_lookup_insert_eq; lia).
  simpl. unfold getmode_step. by rewrite H0.
Qed.

Lemma arr_set_Ok a i c : (i < length a)%nat → arr_set a i c = Ok (<[i := c]> a).
Proof. intros. unfold arr_set. by rewrite decide_True. Qed.

Lemma apply_cmd_0 op omode m : is_pmX op = true → apply_cmd op 0 omode m = m.
Proof.
  unfold is_pmX, apply_cmd, getmode_step. simpl. intros Hop.
  Zcases; subst; try discriminate; simpl; try done;
    try (by rewrite Z.lor_0_r); try (by rewrite Z.ldiff_0_r).
  case_match; [by rewrite Z.lor_0_r|done].
Qed.

Lemma getmode_step_pmX op b omode m :
  is_pmX op = true →
  getmode_step (mkBITCMD op 0 b) omode m = Some (apply_cmd op b omode m).
Proof.
  unfold is_pmX, apply_cmd, getmode_step. simpl. intros Hop.
  Zcases; subst; try discriminate; done.
Qed.

Definition nz (b : Z) : nat := if b =? 0 then 0%nat else 1%nat.

Lemma emit_spec op b a set nset :
  is_pmX op = true → (set + nz b <= nset)%nat → (nset < length a)%nat →
  ∃ a2, emit op b a set = Ok (a2, (set + nz b)%nat) ∧ length a2 = length a ∧
    drop nset a2 = drop nset a ∧
    ∀ a' f, refines a2 a' (set + nz b) nset f →
            refines a a' set nset (λ omode m, f omode (apply_cmd op b omode m)).
Proof.
  unfold emit, nz. intros Hop Hle Hlt. destruct (Z.eqb_spec b 0) as [->|Hb].
  - exists a. rewrite Nat.add_0_r. split_and!; auto.
    intros a' f (Hl & Ht & Hrun). split_and!; auto.
    intros. by rewrite Hrun, apply_cmd_0.
  - rewrite arr_set_Ok by lia. simpl. rewrite Nat.add_1_r.
    eexists. split_and!; [done|by rewrite length_insert|by rewrite drop_insert_lt by lia|].
    intros a' f (Hl & Ht & Hrun). rewrite length_insert in Hl.
    destruct (take_insert_S a set (mkBITCMD op 0 b) a') as [Ht' Hd]; [lia|done|done|].
    split_and!; auto. intros omode m. rewrite Hd. simpl.
    rewrite getmode_step_pmX by done. rewrite Hrun. by rewrite drop_insert_lt by lia.
Qed.

Lemma copy_loop_spec fuel a set nset :
  (set <= nset)%nat → term_at a nset → (length a - nset < fuel)%nat →
  ∃ a1 set1 nset1 d, copy_loop fuel a set nset = Ok (a1, set1, nset1, d) ∧
    length a1 = length a ∧
    if d then refines a a1 set nset keep
    else (set1 <= nset1)%nat ∧ (nset <= nset1)%nat ∧ term_at a1 nset1 ∧
         (∃ c, a1 !! nset1 = Some c ∧ is_pmX (cmd c) = true) ∧
         ∀ a', refines a1 a' set1 nset1 keep → refines a a' set nset keep.
Proof.
  revert a set nset. induction fuel as [|fuel IH]; intros a set nset Hle Hterm Hf; [lia|].
  pose proof (term_at_lt _ _ Hterm) as Hlt. simpl.
  destruct (lookup_lt_is_Some_2 a nset Hlt) as [c Hc]. rewrite Hc.
  destruct (is_pmX (cmd c)) eqn:Hp.
  { do 4 eexists. split; [done|]. split; [done|]. simpl. split_and!; eauto. }
  rewrite arr_set_Ok by lia. simpl.
  destruct (Z.eqb_spec (cmd c) 0) as [H0|H0].
  - do 4 eexists. split; [done|]. rewrite length_insert. split; [done|]. simpl.
    by apply refines_term.
  - destruct (IH (<[set := c]> a) (S set) (S nset))
      as (a1 & set1 & nset1 & d & -> & Hl & Hd).
    + lia.
    + eapply term_at_S; eauto.
    + rewrite length_insert. lia.
    + rewrite length_insert in Hl. do 4 eexists. split; [done|]. split; [done|].
      destruct d; [by eapply refines_copy|].
      destruct Hd as (? & ? & ? & ? & Hr). split_and!; eauto; [lia|].
      intros. eapply refines_copy; eauto.
Qed.

(** What the accumulators stand for: clear, then set, then the conditional X. *)
Definition acc_run (x : accum) (omode m : Z) : Z :=
  apply_cmd (ch "X") (Xbits x) omode
    (apply_cmd (ch "+") (setbits x) omode (apply_cmd (ch "-") (clrbits x) omode m)).

Definition n_emit (x : accum) : nat := (nz (clrbits x) + nz (setbits x) + nz (Xbits x))%nat.

Lemma accum_step_run c x x' omode m :
  accum_step c x = Some x' →
  getmode_step c omode (acc_run x omode m) = Some (acc_run x' omode m).
Proof.
  destruct c as [op c2 b], x as [s k X].
  unfold accum_step, acc_run, apply_cmd, getmode_step. simpl.
  intros H. Zcases; subst; try discriminate; simplify_eq/=;
    destruct (has omode _); simpl; f_equal; Zbits.
Qed.

Lemma nz_ldiff a b : (nz (a .&~ b) <= nz a)%nat.
Proof. unfold nz. Zcases; subst; try lia. by rewrite Z.ldiff_0_l in *. Qed.

Lemma nz_le_1 a : (nz a <= 1)%nat.
Proof. unfold nz. case_match; lia. Qed.

Lemma accum_step_emit c x x' :
  accum_step c x = Some x' → (n_emit x' <= S (n_emit x))%nat.
Proof.
  unfold accum_step, n_emit. intros H.
  pose proof (nz_ldiff (setbits x) (bits c)). pose proof (nz_ldiff (clrbits x) (bits c)).
  pose proof (nz_ldiff (Xbits x) (bits c)).
  repeat case_match; simplify_eq/=;
    repeat match goal with |- context [nz (?a .| ?b)] =>
      pose proof (nz_le_1 (a .| b)); generalize dependent (nz (a .| b)); intros end; lia.
Qed.

Lemma gather_loop_spec fuel a nset x :
  term_at a nset → (length a - nset < fuel)%nat →
  ∃ nset' x', gather_loop fuel a nset x = Ok (nset', x') ∧ term_at a nset' ∧
    (nset <= nset')%nat ∧ (n_emit x' + nset <= n_emit x + nset')%nat ∧
    (∀ c, a !! nset = Some c → is_pmX (cmd c) = true → (nset < nset')%nat) ∧
    ∀ omode m, getmode_loop (drop nset a) omode (acc_run x omode m) =
               getmode_loop (drop nset' a) omode (acc_run x' omode m).
Proof.
  revert nset x. induction fuel as [|fuel IH]; intros nset x Hterm Hf; [lia|].
  pose proof (term_at_lt _ _ Hterm) as Hlt. simpl.
  destruct (lookup_lt_is_Some_2 a nset Hlt) as [c Hc]. rewrite Hc.
  destruct (accum_step c x) as [x1|] eqn:Hx.
  - assert (cmd c ≠ 0) as Hc0.
    { intros H0. unfold accum_step in Hx. by rewrite H0 in Hx. }
    assert (term_at a (S nset)) as Hterm'.
    { destruct Hterm as (i & c' & ? & Hi & ?). exists i, c'.
      assert (i ≠ nset) by congruence. split_and!; auto; lia. }
    destruct (IH (S nset) x1 Hterm') as (nset' & x' & -> & ? & ? & ? & _ & Hrun); [lia|].
    pose proof (accum_step_emit _ _ _ Hx).
    exists nset', x'. split_and!; auto; try lia.
    intros omode m. rewrite (drop_S _ _ _ Hc). simpl.
    rewrite (accum_step_run _ _ _ _ _ Hx). apply Hrun.
  - exists nset, x. split_and!; auto.
    intros c' Hc' Hp. simplify_eq. unfold accum_step in Hx. unfold is_pmX in Hp.
    Zcases; naive_solver.
Qed.

Lemma acc_run_0 omode m : acc_run (mkAccum 0 0 0) omode m = m.
Proof. unfold acc_run. by rewrite !apply_cmd_0. Qed.

Lemma refines_acc a a' set nset1 nset2 x x' :
  (∀ omode m, getmode_loop (drop nset1 a) omode (acc_run x omode m) =
              getmode_loop (drop nset2 a) omode (acc_run x' omode m)) →
  refines a a' set nset2 (acc_run x') → refines a a' set nset1 (acc_run x).
Proof.
  intros Hg (Hl & Ht & Hrun). split_and!; auto. intros. by rewrite Hrun, Hg.
Qed.

Lemma refines_ext a a' set nset f g :
  (∀ omode m, f omode m = g omode m) → refines a a' set nset f → refines a a' set nset g.
Proof. intros Hfg (Hl & Ht & Hrun). split_and!; auto. intros. by rewrite Hrun, Hfg. Qed.

Lemma refines_from a b a' set nset f :
  length b = length a → drop nset b = drop nset a → take set b = take set a →
  refines b a' set nset f → refines a a' set nset f.
Proof.
  intros Hl Hd Ht (Hl' & Ht' & Hrun). split_and!; [congruence|congruence|].
  intros. by rewrite Hrun, Hd.
Qed.

Lemma compress_loop_spec fuel a set nset :
  (set <= nset)%nat → term_at a nset → (length a - nset < fuel)%nat →
  ∃ a', compress_loop fuel a set nset = Ok a' ∧ refines a a' set nset keep.
Proof.
  revert a set nset. induction fuel as [|fuel IH]; intros a set nset Hle Hterm Hf; [lia|].
  cbn [compress_loop].
  destruct (copy_loop_spec (S (length a)) a set nset)
    as (a1 & set1 & nset1 & d & -> & Hl1 & Hd); [done|done|lia|].
  cbn [res_bind]. destruct d; [eauto|].
  destruct Hd as (Hle1 & Hn1 & Hterm1 & (c & Hc & Hp) & Hr1).
  destruct (gather_loop_spec (S (length a1)) a1 nset1 (mkAccum 0 0 0))
    as (nset2 & x & Hg & Hterm2 & Hn2 & Hemit & Hstrict & Hrun); [done|lia|].
  specialize (Hstrict _ Hc Hp). pose proof (term_at_lt _ _ Hterm2).
  unfold n_emit in Hemit. simpl in Hemit. change (nz 0) with 0%nat in Hemit.
  rewrite Hg. cbn [res_bind].
  destruct (emit_spec (ch "-") (clrbits x) a1 set1 nset2)
    as (a2 & -> & Hl2 & Hdr2 & Hr2); [done|lia|lia|]. cbn [res_bind].
  destruct (emit_spec (ch "+") (setbits x) a2 (set1 + nz (clrbits x)) nset2)
    as (a3 & -> & Hl3 & Hdr3 & Hr3); [done|lia|lia|]. cbn [res_bind].
  destruct (emit_spec (ch "X") (Xbits x) a3 (set1 + nz (clrbits x) + nz (setbits x)) nset2)
    as (a4 & -> & Hl4 & Hdr4 & Hr4); [done|lia|lia|]. cbn [res_bind].
  destruct (IH a4 (set1 + nz (clrbits x) + nz (setbits x) + nz (Xbits x))%nat nset2)
    as (a' & -> & Hr5); [lia| |lia|].
  { destruct Hterm2 as (i & c' & Hi & Hlk & H0). exists i, c'. split_and!; auto.
    rewrite <- Hlk. replace i with (nset2 + (i - nset2))%nat by lia.
    rewrite <- !lookup_drop. congruence. }
  exists a'. split; [done|]. apply Hr1.
  eapply refines_ext; [|eapply refines_acc; [exact Hrun|]].
  { intros. apply acc_run_0. }
  eapply refines_ext; [|apply Hr2, Hr3, Hr4, Hr5]. done.
Qed.

Lemma compress_mode_refines a :
  term_at a 0 → ∃ a', compress_mode a = Ok a' ∧ refines a a' 0 0 keep.
Proof. intros. apply compress_loop_spec; [lia|done|lia]. Qed.

(** C1.  Compressing the array in place never leaves it, keeps its size, and does
    not change what [getmode] computes for any file mode, although commands are
    merged, dropped and moved over the ones still to be read. *)
Theorem compress_mode_preserves_getmode a :
  (∃ i c, a !! i = Some c ∧ cmd c = 0) →
  ∃ a', compress_mode a = Ok a' ∧ length a' = length a ∧
        ∀ omode, getmode a' omode = getmode a omode.
Proof.
  intros (i & c & Hi & Hc).
  destruct (compress_mode_refines a) as (a' & -> & Hl & _ & Hrun).
  { exists i, c. split_and!; auto. lia. }
  exists a'. split_and!; auto. intros omode. apply Hrun.
Qed.

Definition sample_cmds : list BITCMD :=
  [ mkBITCMD (ch "X") 0 0x49; mkBITCMD (ch "+") 0 0x1FF; mkBITCMD (ch "-") 0 0x12;
    mkBITCMD (ch "g") 0x12 ALL_BITS; mkBITCMD (ch "-") 0 0x7; mkBITCMD 0 0 0 ].

Lemma compress_mode_preserves_getmode_witness :
  compress_mode sample_cmds =
    Ok [ mkBITCMD (ch "-") 0 0x12; mkBITCMD (ch "+") 0 0x1ED;
         mkBITCMD (ch "g") 0x12 ALL_BITS; mkBITCMD (ch "-") 0 0x7; mkBITCMD 0 0 0;
         mkBITCMD 0 0 0 ] ∧
  ∃ a', compress_mode sample_cmds = Ok a' ∧ length a' = length sample_cmds ∧
        ∀ omode, getmode a' omode = getmode sample_cmds omode.
Proof.
  split; [vm_compute; reflexivity|].
  apply (compress_mode_preserves_getmode sample_cmds).
  exists 5%nat, (mkBITCMD 0 0 0). split; reflexivity.
Defined.

(** ** The builder: memory safety

    [buf_wf]: there is room for one more entry.  [ADDCMD] restores it, though
    '=' adds two entries. *)

Definition buf_wf (b : cmdbuf) : Prop :=
  0 <= setlen b ∧ Z.of_nat (length (written b)) <= setlen b - 1.

(** What a command adds to a mode, and that it is not the terminator. *)
Definition is_cmd (c : BITCMD) : Prop := ∀ omode m, is_Some (getmode_step c omode m).

Definition run (cs : list BITCMD) (omode m : Z) : Z :=
  foldl (λ m c, default m (getmode_step c omode m)) m cs.

Lemma run_app cs cs' omode m : run (cs ++ cs') omode m = run cs' omode (run cs omode m).
Proof. unfold run. by rewrite foldl_app. Qed.

Lemma getmode_loop_run cs rest omode m :
  Forall is_cmd cs → getmode_loop (cs ++ rest) omode m =
                     getmode_loop rest omode (run cs omode m).
Proof.
  intros Hcs. revert m. induction Hcs as [|c cs Hc _ IH]; intros m; [done|].
  simpl. destruct (Hc omode m) as [m' ->]. by rewrite IH.
Qed.

Definition op_cmd (op : Z) : bool :=
  is_pmX op || (op =? ch "u") || (op =? ch "g") || (op =? ch "o").

Lemma op_cmd_is_cmd op c2 b : op_cmd op = true → is_cmd (mkBITCMD op c2 b).
Proof.
  unfold op_cmd, is_pmX, is_cmd, getmode_step. intros Hop omode m. simpl.
  Zcases; try discriminate; eauto.
Qed.

Section builder.
Context (alloc : Z → bool) (garbage : Z).

(** The entries [addcmd] writes. *)
Definition cmds_of (op who oparg mask : Z) : list BITCMD :=
  match addcmd garbage (mkBuf [] 2) op who oparg mask with
  | Ok b => written b | _ => [] end.

Definition op_ok (op : Z) : bool := op_cmd op || (op =? ch "=").

Lemma put_spec b c :
  Z.of_nat (length (written b)) < setlen b →
  put b c = Ok (mkBuf (written b ++ [c]) (setlen b)).
Proof. intros. unfold put. by destruct (Z.ltb_spec (Z.of_nat (length (written b))) (setlen b)); [|lia]. Qed.

Lemma addcmd_spec b op who oparg mask :
  Z.of_nat (length (written b)) + 2 <= setlen b → op_ok op = true →
  addcmd garbage b op who oparg mask =
    Ok (mkBuf (written b ++ cmds_of op who oparg mask) (setlen b)) ∧
  (length (cmds_of op who oparg mask) <= 2)%nat ∧
  Forall is_cmd (cmds_of op who oparg mask).
Proof.
  intros Hb Hop. unfold cmds_of, addcmd.
  assert (op = ch "=" ∨ is_pmX op = true ∨ op = ch "u" ∨ op = ch "g" ∨ op = ch "o")
    as Hcases.
  { unfold op_ok, op_cmd in Hop. destruct (is_pmX op); [auto|]. Zcases; naive_solver. }
  destruct Hcases as [->|Hcases].
  { change (ch "=" =? ch "=") with true. cbn iota.
    rewrite (put_spec b) by lia. rewrite (put_spec (mkBuf [] 2)) by (simpl; lia).
    cbn [res_bind]. rewrite !put_spec by (cbn; rewrite ?length_app; simpl; lia). simpl.
    rewrite <- app_assoc. split_and!; auto.
    repeat constructor; apply op_cmd_is_cmd; done. }
  assert (op =? ch "=" = false) as ->.
  { apply Z.eqb_neq. intros ->. destruct Hcases as [?|[?|[?|?]]]; discriminate. }
  destruct (is_pmX op) eqn:Hp; unfold is_pmX in Hp; rewrite Hp.
  { rewrite !put_spec by (simpl; lia). simpl. split_and!; [done|lia|].
    repeat constructor. apply op_cmd_is_cmd. unfold op_cmd, is_pmX. by rewrite Hp. }
  assert (((op =? ch "u") || (op =? ch "g") || (op =? ch "o")) = true) as ->.
  { destruct Hcases as [?|[->|[->| ->]]]; first [done | unfold is_pmX in *; congruence]. }
  rewrite !put_spec by (simpl; lia). simpl. split_and!; [done|lia|].
  repeat constructor. apply op_cmd_is_cmd.
  destruct Hcases as [?|[->|[->| ->]]]; first [done | unfold is_pmX in *; congruence].
Qed.

Lemma ADDCMD_spec b op who oparg mask :
  buf_wf b → op_ok op = true →
  ADDCMD alloc garbage b op who oparg mask = Err ENOMEM ∧ (∃ n, alloc n = false) ∨
  ∃ b', ADDCMD alloc garbage b op who oparg mask = Ok b' ∧ buf_wf b' ∧
        written b' = written b ++ cmds_of op who oparg mask.
Proof.
  unfold ADDCMD, buf_wf. intros [H0 Hb] Hop.
  destruct (Z.leb_spec (setlen b - 2) (Z.of_nat (length (written b)))) as [Hge|Hlt].
  - destruct (alloc _) eqn:Ha; [right|left; eauto]. cbn [res_bind].
    destruct (addcmd_spec (mkBuf (written b) (setlen b + SET_LEN_INCR)) op who oparg mask)
      as (-> & Hl & _); [cbn [written setlen]; unfold SET_LEN_INCR; lia|done|].
    eexists. split; [done|]. cbn [written setlen]. rewrite length_app.
    unfold SET_LEN_INCR. split; [lia|done].
  - right. cbn [res_bind].
    destruct (addcmd_spec b op who oparg mask) as (-> & Hl & _); [lia|done|].
    eexists. split; [done|]. cbn [written setlen]. rewrite length_app.
    split; [lia|done].
Qed.
End builder.

Definition buf_good (b : cmdbuf) : Prop := buf_wf b ∧ Forall is_cmd (written b).

Section safety.
Context (alloc : Z → bool) (garbage : Z).

Lemma cmds_of_is_cmd op who oparg mask :
  op_ok op = true → Forall is_cmd (cmds_of garbage op who oparg mask).
Proof. intros Hop. apply (addcmd_spec alloc garbage (mkBuf [] 2)); [simpl; lia|done]. Qed.

Lemma ADDCMD_safe b op who oparg mask :
  buf_good b → op_ok op = true →
  safe buf_good (ADDCMD alloc garbage b op who oparg mask).
Proof.
  intros [Hwf Hcs] Hop.
  destruct (ADDCMD_spec alloc garbage b op who oparg mask)
    as [[-> _]|(b' & -> & ? & Hw)]; [done|done|done|].
  split; [done|]. rewrite Hw. apply Forall_app. split; [done|].
  by apply cmds_of_is_cmd.
Qed.

Definition op_pme (op : Z) : bool := (op =? ch "+") || (op =? ch "-") || (op =? ch "=").

Lemma op_pme_ok op : op_pme op = true → op_ok op = true.
Proof. unfold op_pme, op_ok, op_cmd, is_pmX. intros. Zcases; done. Qed.

Ltac safe_add :=
  eapply safe_bind; [apply ADDCMD_safe; [done|by auto using op_pme_ok]|];
  intros ?b ?Hb.

Lemma perm_char_buf c v v' : perm_char c v = Some v' → buf v' = buf v.
Proof. unfold perm_char. intros. repeat case_match; by simplify_eq/=. Qed.

Lemma perm_copy_safe op c mask v :
  op_pme op = true → (c =? ch "u") || (c =? ch "g") || (c =? ch "o") = true →
  buf_good (buf v) → safe (λ v, buf_good (buf v)) (perm_copy alloc garbage op c mask v).
Proof.
  intros Hop Hc Hb. unfold perm_copy.
  assert (op_ok c = true) by (unfold op_ok, op_cmd, is_pmX; Zcases; done).
  eapply (safe_bind (λ v, buf_good (buf v))).
  { case_match; [done|]. by safe_add. }
  intros v1 Hv1. eapply (safe_bind (λ v, buf_good (buf v))).
  { case_match; [by safe_add|done]. }
  intros v2 Hv2. by safe_add.
Qed.

Lemma perm_flush_safe op mask v :
  op_pme op = true → buf_good (buf v) →
  safe (λ v, buf_good (buf v)) (perm_flush alloc garbage op mask v).
Proof.
  intros Hop Hb. unfold perm_flush.
  eapply (safe_bind (λ v, buf_good (buf v))).
  { case_match; [by safe_add|done]. }
  intros v1 Hv1. case_match; [done|]. by safe_add.
Qed.

Lemma perm_loop_safe p op mask v :
  op_pme op = true → buf_good (buf v) →
  safe (λ '(v, q), buf_good (buf v) ∧ (length q <= length p)%nat)
    (perm_loop alloc garbage p op mask v).
Proof.
  intros Hop. revert v. induction p as [|c p IH]; intros v Hv; simpl.
  { eapply safe_bind; [by apply perm_flush_safe|]. intros v1 ?. simpl. auto. }
  destruct (perm_char c v) as [v1|] eqn:Hc.
  { eapply safe_mono; [apply IH; by rewrite (perm_char_buf _ _ _ Hc)|].
    intros [v2 q] []. split; [done|lia]. }
  case_match.
  - eapply safe_bind; [by apply perm_copy_safe|]. intros v1 Hv1.
    eapply safe_mono; [by apply IH|]. intros [v2 q] []. split; [done|lia].
  - eapply safe_bind; [by apply perm_flush_safe|]. intros v1 Hv1. simpl. auto.
Qed.

Lemma who_loop_length p who : (length (snd (who_loop p who)) <= length p)%nat.
Proof.
  revert who. induction p as [|c p IH]; intros who; simpl; [lia|].
  repeat case_match; simpl; try lia; (etrans; [apply IH|lia]).
Qed.

Lemma clause_loop_safe fuel p fresh mask v :
  (length p < fuel)%nat → buf_good (buf v) →
  safe buf_good (clause_loop alloc garbage fuel p fresh mask v).
Proof.
  revert p fresh v. induction fuel as [|fuel IH]; intros p fresh v Hf Hv; [lia|].
  cbn [clause_loop].
  destruct (if fresh then who_loop p 0 else (who v, p)) as [w q] eqn:Hw.
  assert (length q <= length p)%nat as Hq.
  { destruct fresh; [|by simplify_eq]. pose proof (who_loop_length p 0) as H.
    by rewrite Hw in H. }
  destruct (op_pme (peek q)) eqn:Hop; unfold op_pme in Hop; rewrite Hop; simpl; [|done].
  assert (q ≠ []) as Hne by (intros ->; discriminate).
  eapply safe_bind; [by apply perm_loop_safe|]. intros [v1 r] [Hv1 Hr].
  assert (length r < fuel)%nat by (destruct q; simpl in *; [done|lia]).
  destruct r as [|c r]; [done|].
  destruct (c =? ch ","); apply IH; auto; simpl in *; lia.
Qed.

Definition runs (a : list BITCMD) : Prop := ∀ omode, ∃ m, getmode a omode = Ok m.

Lemma terminate_good b :
  buf_good b → ∃ t, terminate garbage b = Ok (written b ++ [t]) ∧ cmd t = 0.
Proof.
  intros [[H0 Hb] _]. unfold terminate. rewrite put_spec by lia. simpl. eauto.
Qed.

Lemma getmode_terminated cs t omode :
  Forall is_cmd cs → cmd t = 0 → getmode (cs ++ [t]) omode = Ok (run cs omode omode).
Proof.
  intros Hcs Ht. unfold getmode. rewrite getmode_loop_run by done. simpl.
  unfold getmode_step. by rewrite Ht.
Qed.

Lemma compress_terminated cs t :
  Forall is_cmd cs → cmd t = 0 →
  ∃ a, compress_mode (cs ++ [t]) = Ok a ∧
       ∀ omode, getmode a omode = Ok (run cs omode omode).
Proof.
  intros Hcs Ht. destruct (compress_mode_refines (cs ++ [t])) as (a & -> & _ & _ & Hrun).
  { exists (length cs), t. split_and!; [lia| |done].
    rewrite lookup_app_r by lia. by rewrite Nat.sub_diag. }
  exists a. split; [done|]. intros omode.
  rewrite <- (getmode_terminated cs t omode) by done. apply Hrun.
Qed.

(** C14.  [setmode] never writes outside the array it allocated, however long the
    mode string and whatever the growth steps, and [getmode] can run every
    array it returns: it is terminated inside its bounds. *)
Theorem setmode_memory_safe umask p :
  safe runs (setmode alloc garbage umask p).
Proof.
  unfold setmode. do 2 (case_match; [done|]).
  assert (buf_good (mkBuf [] (SET_LEN + 2))) as Hb0.
  { split; [|constructor]. unfold buf_wf. simpl. unfold SET_LEN. lia. }
  case_match.
  - destruct (strtol p 8) as [[lval ep] errno]. do 3 (case_match; [done|]).
    eapply safe_bind; [by apply ADDCMD_safe|]. intros b Hb.
    destruct (terminate_good b Hb) as (t & -> & Ht). simpl. intros omode.
    eexists. apply getmode_terminated; [apply Hb|done].
  - eapply safe_bind; [apply clause_loop_safe; [lia|done]|]. intros b Hb.
    destruct (terminate_good b Hb) as (t & -> & Ht). simpl.
    destruct (compress_terminated (written b) t) as (a & -> & Ha); [apply Hb|done|].
    simpl. intros omode. eauto.
Qed.
End safety.

(** ** What a symbolic mode means

    The clauses of the mode grammar with a nonempty class list and no copy
    permissions, as abstract syntax, and their reading by chmod(1). *)

Inductive class := Cu | Cg | Co | Ca.
Inductive mode_op := Plus | Minus | Assign.
Inductive permission := Pr | Pw | Px | Ps | PX.

Record clause := mkClause {
  cl_who : class; cl_more : list class; cl_op : mode_op; cl_perms : list permission }.

Definition class_char (w : class) : Z :=
  match w with Cu => ch "u" | Cg => ch "g" | Co => ch "o" | Ca => ch "a" end.
Definition class_bits (w : class) : Z :=
  match w with
  | Cu => S_ISUID .| S_IRWXU | Cg => S_ISGID .| S_IRWXG
  | Co => S_IRWXO | Ca => STANDARD_BITS end.
Definition op_char (o : mode_op) : Z :=
  match o with Plus => ch "+" | Minus => ch "-" | Assign => ch "=" end.
Definition perm_char_of (p : permission) : Z :=
  match p with Pr => ch "r" | Pw => ch "w" | Px => ch "x" | Ps => ch "s"
             | PX => ch "X" end.
Definition perm_bits (p : permission) : Z :=
  match p with
  | Pr => S_IRUSR .| S_IRGRP .| S_IROTH | Pw => S_IWUSR .| S_IWGRP .| S_IWOTH
  | Px => XBITS | Ps => S_ISUID .| S_ISGID | PX => 0 end.
Definition is_PX (p : permission) : bool := match p with PX => true | _ => false end.

Definition classes (cl : clause) : list class := cl_who cl :: cl_more cl.
Definition bits_of {A} (f : A → Z) (l : list A) : Z := foldl (λ b x, b .| f x) 0 l.

Definition print_clause (cl : clause) : list Z :=
  map class_char (classes cl) ++ [op_char (cl_op cl)] ++ map perm_char_of (cl_perms cl).

Fixpoint print_clauses (cl : clause) (cls : list clause) : list Z :=
  match cls with
  | [] => print_clause cl
  | cl' :: cls => print_clause cl ++ [ch ","] ++ print_clauses cl' cls
  end.

(** A directory, or a file that somebody may execute. *)
Definition searchable (omode : Z) : bool := (omode .& S_IFMT =? S_IFDIR) || has omode XBITS.

(** The effect of a clause on the mode [m] of a file whose mode was [omode], as chmod(1)
    has it: the classes select bits of the permissions to add, remove or assign, and [X]
    stands for the execute bits with [+] when the file is a directory or executable, and
    for nothing otherwise. *)
Definition clause_meaning (omode m : Z) (cl : clause) : Z :=
  let w := bits_of class_bits (classes cl) in
  let p := bits_of perm_bits (cl_perms cl) in
  let x := if existsb is_PX (cl_perms cl) && searchable omode then XBITS else 0 in
  match cl_op cl with
  | Plus => m .| (w .& (p .| x))
  | Minus => m .&~ (w .& p)
  | Assign => m .&~ w .| (w .& p)
  end.

(** The bit of [S_IFDIR] is that of a directory: block devices and sockets have it too. *)
Definition dir_bit_ok (omode : Z) : Prop := has omode S_IFDIR = (omode .& S_IFMT =? S_IFDIR).

Lemma dir_bit_searchable omode :
  dir_bit_ok omode → has omode (S_IFDIR .| XBITS) = searchable omode.
Proof.
  unfold dir_bit_ok, searchable, has. intros <-. rewrite Z.land_lor_distr_r.
  destruct (Z.eqb_spec (omode .& S_IFDIR) 0) as [->|Hn]; [by rewrite Z.lor_0_l|].
  simpl. apply negb_true_iff, Z.eqb_neq. by intros [? _]%Z.lor_eq_0_iff.
Qed.

(** [X] is used where it has a meaning. *)
Definition X_with_plus (cl : clause) : Prop :=
  existsb is_PX (cl_perms cl) = true → cl_op cl = Plus.

Section symbolic.
Context (alloc : Z → bool) (garbage : Z).
Hypothesis alloc_ok : ∀ n, alloc n = true.

Lemma foldl_lor {A} (f : A → Z) l b :
  foldl (λ b x, b .| f x) b l = b .| bits_of f l.
Proof.
  unfold bits_of. revert b. induction l as [|x l IH]; intros b; simpl.
  - by rewrite Z.lor_0_r.
  - rewrite IH, (IH (0 .| f x)). by rewrite Z.lor_0_l, Z.lor_assoc.
Qed.

Lemma bits_of_cons {A} (f : A → Z) x l : bits_of f (x :: l) = f x .| bits_of f l.
Proof. unfold bits_of at 1. simpl. rewrite Z.lor_0_l. apply foldl_lor. Qed.

Lemma who_loop_classes ws rest w :
  op_pme (peek rest) = true →
  who_loop (map class_char ws ++ rest) w = (w .| bits_of class_bits ws, rest).
Proof.
  intros Hr. revert w. induction ws as [|c ws IH]; intros w; simpl.
  - change (bits_of class_bits []) with 0. rewrite Z.lor_0_r.
    destruct rest as [|c rest]; [done|]. simpl in *. unfold op_pme in Hr.
    Zcases; subst; done.
  - rewrite bits_of_cons. destruct c; simpl; by rewrite IH, <- Z.lor_assoc.
Qed.

(** The class bits are the standard bits, and never empty. *)
Lemma classes_no_sticky ws : bits_of class_bits ws .&~ S_ISTXT = bits_of class_bits ws.
Proof.
  induction ws as [|w ws IH]; [done|]. rewrite bits_of_cons.
  rewrite ldiff_lor_l, IH. by destruct w.
Qed.

Lemma bits_of_nonneg {A} (f : A → Z) l : (∀ x, 0 <= f x) → 0 <= bits_of f l.
Proof.
  intros Hf. induction l as [|x l IH]; [done|].
  rewrite bits_of_cons. apply Z.lor_nonneg. auto.
Qed.

Lemma classes_pos w ws : 0 < bits_of class_bits (w :: ws).
Proof.
  rewrite bits_of_cons. apply lor_pos; [by destruct w|].
  apply bits_of_nonneg. by intros [].
Qed.

(** The permissions accumulated by the loop agree, within the classes, with
    those of the specification. *)
Lemma perm_char_step p v :
  who v ≠ 0 →
  ∃ v', perm_char (perm_char_of p) v = Some v' ∧
    who v' = who v ∧ buf v' = buf v ∧ equalopdone v' = equalopdone v ∧
    who v .& perm v' = who v .& (perm v .| perm_bits p) ∧
    permXbits v' = (if is_PX p then XBITS else permXbits v).
Proof.
  intros Hw. destruct p; unfold perm_char; simpl;
    try (eexists; split; [done|]; split_and!; auto; by rewrite Z.lor_0_r).
  destruct (Z.eqb_spec (who v) 0) as [?|_]; [done|].
  destruct (Z.eqb_spec (who v .&~ S_IRWXO) 0) as [H0|_]; simpl;
    (eexists; split; [done|]; split_and!; auto).
  rewrite Z.land_lor_distr_r.
  assert (who v .& (S_ISUID .| S_ISGID) = 0) as ->; [|by rewrite Z.lor_0_r].
  apply Z.bits_inj'. intros n _. apply (f_equal (λ z, Z.testbit z n)) in H0.
  rewrite Z.ldiff_spec, Z.bits_0 in H0. rewrite Z.land_spec, Z.bits_0.
  destruct (Z.testbit (who v) n); [|done]. simpl in *.
  destruct (decide (n < 3)); [|by (destruct (Z.testbit S_IRWXO n) eqn:E; [|done];
    exfalso; unfold S_IRWXO in E; change 7 with (Z.ones 3) in E;
    rewrite Z.ones_spec_high in E by lia)].
  assert (n = 0 ∨ n = 1 ∨ n = 2 ∨ n < 0) as [->|[->|[->|?]]] by lia; try done.
  by apply Z.testbit_neg_r.
Qed.

Lemma perm_chars_loop ps rest op mask v :
  who v ≠ 0 →
  ∃ v', perm_loop alloc garbage (map perm_char_of ps ++ rest) op mask v =
        perm_loop alloc garbage rest op mask v' ∧
    who v' = who v ∧ buf v' = buf v ∧ equalopdone v' = equalopdone v ∧
    who v .& perm v' = who v .& (perm v .| bits_of perm_bits ps) ∧
    permXbits v' = (if existsb is_PX ps then XBITS else permXbits v).
Proof.
  revert v. induction ps as [|p ps IH]; intros v Hw.
  - exists v. change (bits_of perm_bits []) with 0. by rewrite Z.lor_0_r.
  - destruct (perm_char_step p v Hw) as (v1 & Hc & Hw1 & Hb1 & He1 & Hp1 & HX1).
    destruct (IH v1) as (v2 & Hl & Hw2 & Hb2 & He2 & Hp2 & HX2); [congruence|].
    exists v2. simpl. rewrite Hc, Hl.
    split_and!; try congruence.
    + rewrite bits_of_cons, Z.lor_assoc, Z.land_lor_distr_r, <- Hp1.
      by rewrite <- Z.land_lor_distr_r, <- Hw1.
    + rewrite HX2, HX1. by destruct (is_PX p), (existsb is_PX ps).
Qed.

Lemma ADDCMD_Ok b op who oparg mask :
  buf_wf b → op_ok op = true →
  ∃ b', ADDCMD alloc garbage b op who oparg mask = Ok b' ∧ buf_wf b' ∧
        written b' = written b ++ cmds_of garbage op who oparg mask.
Proof.
  intros Hb Hop. destruct (ADDCMD_spec alloc garbage b op who oparg mask Hb Hop)
    as [[_ [n Hn]]|?]; [by rewrite alloc_ok in Hn|done].
Qed.

(** The effect of an operator with class bits [w] and permission bits [p]. *)
Definition op_meaning (op w p m : Z) : Z :=
  if op =? ch "+" then m .| (w .& p)
  else if op =? ch "-" then m .&~ (w .& p)
  else m .&~ w .| (w .& p).

Lemma run_cmds_of op w p mask omode m :
  w ≠ 0 → op_pme op = true →
  run (cmds_of garbage op w p mask) omode m = op_meaning op w p m.
Proof.
  intros Hw Hop. apply Z.eqb_neq in Hw. unfold op_pme in Hop.
  unfold cmds_of, addcmd, put, op_meaning.
  destruct (Z.eqb_spec op (ch "+")) as [->|_]; [by simpl; rewrite Hw|].
  destruct (Z.eqb_spec op (ch "-")) as [->|_]; [by simpl; rewrite Hw|].
  destruct (Z.eqb_spec op (ch "=")) as [->|_]; [by simpl; rewrite Hw|done].
Qed.

Lemma run_cmds_of_X w x mask omode m :
  w ≠ 0 → run (cmds_of garbage (ch "X") w x mask) omode m =
    if has omode (S_IFDIR .| XBITS) then m .| (w .& x) else m.
Proof.
  intros Hw. apply Z.eqb_neq in Hw. unfold cmds_of, addcmd, put. simpl. by rewrite Hw.
Qed.

Lemma perm_flush_spec op mask v :
  op_pme op = true → who v ≠ 0 → buf_wf (buf v) →
  (op = ch "=" → equalopdone v = false) →
  ∃ v' cs, perm_flush alloc garbage op mask v = Ok v' ∧ buf_wf (buf v') ∧
    written (buf v') = written (buf v) ++ cs ∧ Forall is_cmd cs ∧
    ∀ omode m, run cs omode m =
      let m1 := op_meaning op (who v) (perm v) m in
      if negb (permXbits v =? 0) && has omode (S_IFDIR .| XBITS)
      then m1 .| (who v .& permXbits v) else m1.
Proof.
  intros Hop Hw Hb He. unfold perm_flush.
  assert (∃ v1 cs, (if negb (perm v =? 0) || ((op =? ch "=") && negb (equalopdone v))
      then let* b := ADDCMD alloc garbage (buf v) op (who v) (perm v) mask in
        Ok (mkVars (who v) 0 (permXbits v) ((op =? ch "=") || equalopdone v) b)
      else Ok v) = Ok v1 ∧ buf_wf (buf v1) ∧ who v1 = who v ∧
      permXbits v1 = permXbits v ∧
      written (buf v1) = written (buf v) ++ cs ∧ Forall is_cmd cs ∧
      ∀ omode m, run cs omode m = op_meaning op (who v) (perm v) m)
    as (v1 & cs & -> & Hb1 & Hw1 & HX1 & Hc1 & Hi1 & Hr1).
  { destruct (negb (perm v =? 0) || _) eqn:Hneed.
    - destruct (ADDCMD_Ok (buf v) op (who v) (perm v) mask)
        as (b & -> & ? & ?); [done|by apply op_pme_ok|].
      do 2 eexists. split; [done|]. split_and!; eauto.
      + by apply cmds_of_is_cmd, op_pme_ok.
      + intros. by apply run_cmds_of.
    - exists v, []. rewrite app_nil_r. split_and!; auto. intros omode m. simpl.
      apply orb_false_iff in Hneed as [Hp Hq]. apply negb_false_iff, Z.eqb_eq in Hp.
      rewrite Hp. unfold op_meaning. rewrite Z.land_0_r, Z.lor_0_r, Z.ldiff_0_r.
      destruct (Z.eqb_spec op (ch "+")); [done|].
      destruct (Z.eqb_spec op (ch "-")); [done|].
      assert (op = ch "=") as -> by (unfold op_pme in Hop; Zcases; done).
      by rewrite He in Hq. }
  cbn [res_bind]. rewrite HX1, Hw1. destruct (Z.eqb_spec (permXbits v) 0) as [HX|HX].
  - exists v1, cs. split_and!; auto.
  - destruct (ADDCMD_Ok (buf v1) (ch "X") (who v) (permXbits v) mask)
      as (b & -> & ? & Hwr); [done|done|].
    do 2 eexists. split; [done|]. split_and!; [done| | |].
    + cbn [buf]. by rewrite Hwr, Hc1, <- app_assoc.
    + apply Forall_app. split; [done|]. by apply cmds_of_is_cmd.
    + intros omode m. rewrite run_app, run_cmds_of_X, Hr1 by done. done.
Qed.

Lemma perm_loop_stop rest op mask v :
  rest = [] ∨ (∃ q, rest = ch "," :: q) →
  perm_loop alloc garbage rest op mask v =
    let* v' := perm_flush alloc garbage op mask v in Ok (v', rest).
Proof. intros [->|[q ->]]; done. Qed.

(** One clause: scan the classes, the operator and the permissions, flush. *)
Lemma clause_spec cl rest mask done b :
  rest = [] ∨ (∃ q, rest = ch "," :: q) → buf_wf b → X_with_plus cl →
  who_loop (print_clause cl ++ rest) 0 =
    (bits_of class_bits (classes cl),
     op_char (cl_op cl) :: map perm_char_of (cl_perms cl) ++ rest) ∧
  ∃ v' cs,
    perm_loop alloc garbage (map perm_char_of (cl_perms cl) ++ rest)
      (op_char (cl_op cl)) mask
      (mkVars (bits_of class_bits (classes cl) .&~ S_ISTXT) 0 0
         (if op_char (cl_op cl) =? ch "=" then false else done) b) = Ok (v', rest) ∧
    buf_wf (buf v') ∧ written (buf v') = written b ++ cs ∧ Forall is_cmd cs ∧
    ∀ omode m, dir_bit_ok omode → run cs omode m = clause_meaning omode m cl.
Proof.
  intros Hrest Hb HX. split.
  { unfold print_clause. rewrite <- app_assoc, who_loop_classes, Z.lor_0_l; [done|].
    by destruct (cl_op cl). }
  rewrite classes_no_sticky. set (w := bits_of class_bits (classes cl)).
  assert (w ≠ 0) as Hw by (pose proof (classes_pos (cl_who cl) (cl_more cl)); unfold w, classes; lia).
  destruct (perm_chars_loop (cl_perms cl) rest (op_char (cl_op cl)) mask
    (mkVars w 0 0 (if op_char (cl_op cl) =? ch "=" then false else done) b))
    as (v1 & -> & Hw1 & Hb1 & He1 & Hp1 & HX1); [done|].
  cbn [who buf equalopdone perm permXbits] in *. rewrite perm_loop_stop by done.
  destruct (perm_flush_spec (op_char (cl_op cl)) mask v1)
    as (v2 & cs & -> & Hb2 & Hc2 & Hi2 & Hr2); [by destruct (cl_op cl)|congruence|congruence| |].
  { intros E. by rewrite He1, E. }
  exists v2, cs. cbn [res_bind]. rewrite Hb1 in Hc2. split_and!; auto.
  rewrite Z.lor_0_l in Hp1.
  intros omode m Hd. rewrite Hr2, Hw1, HX1. unfold clause_meaning. fold w.
  unfold op_meaning. rewrite Hp1, dir_bit_searchable by done.
  unfold X_with_plus in HX. destruct (existsb is_PX (cl_perms cl)).
  - rewrite HX by done. simpl. destruct (searchable omode); [|by rewrite Z.lor_0_r].
    by rewrite Z.land_lor_distr_r, Z.lor_assoc.
  - destruct (cl_op cl); simpl; by rewrite ?Z.lor_0_r.
Qed.

Lemma clause_loop_print cl cls fuel mask v :
  (length cls < fuel)%nat → buf_wf (buf v) → Forall X_with_plus (cl :: cls) →
  ∃ b cs, clause_loop alloc garbage fuel (print_clauses cl cls) true mask v = Ok b ∧
    buf_wf b ∧ written b = written (buf v) ++ cs ∧ Forall is_cmd cs ∧
    ∀ omode m, dir_bit_ok omode → run cs omode m = foldl (clause_meaning omode) m (cl :: cls).
Proof.
  revert cl fuel v. induction cls as [|cl' cls IH];
    intros cl fuel v Hf Hb [HX HXs]%Forall_cons;
    (destruct fuel as [|fuel]; [simpl in Hf; lia|]); cbn [print_clauses clause_loop].
  - destruct (clause_spec cl [] mask (equalopdone v) (buf v))
      as [Hwho (v' & cs & Hperm & ? & ? & ? & ?)]; [by left|done|done|].
    rewrite !app_nil_r in Hwho. rewrite app_nil_r in Hperm.
    rewrite Hwho. cbn [peek tl]. rewrite Hperm.
    exists (buf v'), cs. by destruct (cl_op cl).
  - destruct (clause_spec cl (ch "," :: print_clauses cl' cls) mask (equalopdone v) (buf v))
      as [Hwho (v' & cs & Hperm & Hb' & Hw' & Hi & Hr)]; [eauto|done|done|].
    cbn [app]. rewrite Hwho. cbn [peek tl]. rewrite Hperm.
    destruct (IH cl' fuel v') as (b & cs' & Hl & ? & Hw2 & ? & Hr2); [simpl in Hf; lia|done|done|].
    exists b, (cs ++ cs'). split_and!; auto.
    + destruct (cl_op cl); simpl; by rewrite Hl.
    + by rewrite Hw2, Hw', <- app_assoc.
    + by apply Forall_app.
    + intros omode m Hd. by rewrite run_app, Hr, Hr2.
Qed.

Lemma print_clauses_peek cl cls :
  ∃ c p, print_clauses cl cls = c :: p ∧ c ≠ 0 ∧ isdigit c = false.
Proof.
  assert (∃ c p, print_clause cl = c :: p ∧ c ≠ 0 ∧ isdigit c = false) as (c & p & Hc & ?).
  { unfold print_clause, classes. simpl. do 2 eexists. split; [done|]. by destruct (cl_who cl). }
  destruct cls; cbn [print_clauses]; rewrite Hc; cbn [app]; eauto.
Qed.

Lemma print_clause_length cl : (0 < length (print_clause cl))%nat.
Proof. unfold print_clause, classes. simpl. lia. Qed.

Lemma print_clauses_length cl cls : (length cls < length (print_clauses cl cls))%nat.
Proof.
  revert cl. induction cls as [|cl' cls IH]; intros cl; simpl.
  - apply print_clause_length.
  - rewrite length_app. simpl. pose proof (print_clause_length cl).
    specialize (IH cl'). lia.
Qed.

(** C2.  For every list of clauses, each with one of the classes u, g, o and a at least,
    one operator and any of the permissions r, w, x, s and X, X only after +, running the
    array that [setmode] compiles (and compresses) from its printed form changes a file's
    mode exactly as chmod(1) says, clause by clause from left to right, whatever the umask
    is.  The file is not a block device or a socket, which [X] takes for a directory, and
    the allocations succeed. *)
Theorem setmode_symbolic umask cl cls :
  Forall X_with_plus (cl :: cls) →
  ∃ a, setmode alloc garbage umask (print_clauses cl cls) = Ok a ∧
    ∀ omode, dir_bit_ok omode →
      getmode a omode = Ok (foldl (clause_meaning omode) omode (cl :: cls)).
Proof.
  intros HX. unfold setmode.
  destruct (print_clauses_peek cl cls) as (c & p & Hp & Hc & Hd).
  assert (peek (print_clauses cl cls) = c) as -> by (by rewrite Hp).
  apply Z.eqb_neq in Hc. rewrite Hc, Hd, alloc_ok.
  destruct (clause_loop_print cl cls (S (length (print_clauses cl cls)))
    (ALL_BITS .&~ umask) (mkVars 0 0 0 false (mkBuf [] (SET_LEN + 2))))
    as (b & cs & Hl & Hb & Hw & Hi & Hr).
  { pose proof (print_clauses_length cl cls). lia. }
  { unfold buf_wf. simpl. unfold SET_LEN. lia. }
  { done. }
  cbn [negb]. rewrite Hl. cbn [res_bind].
  destruct (terminate_good garbage b) as (t & -> & Ht); [split; [done|by rewrite Hw]|].
  cbn [res_bind]. rewrite Hw. simpl.
  destruct (compress_terminated cs t Hi Ht) as (a & -> & Ha).
  exists a. split; [done|]. intros omode Hdir. by rewrite Ha, Hr.
Qed.
End symbolic.

Lemma setmode_symbolic_witness :
  (∀ n : Z, (λ _, true) n = true) ∧
  ∃ a, setmode (λ _, true) 7 0x12 (str "u=rwx,go-w,a+X") = Ok a ∧
       getmode a 0x81A4 = Ok 0x81E4.
Proof.
  split; [done|].
  destruct (setmode_symbolic (λ _, true) 7 (λ _, eq_refl) 0x12
    (mkClause Cu [] Assign [Pr; Pw; Px])
    [mkClause Cg [Co] Minus [Pw]; mkClause Ca [] Plus [PX]]) as (a & Ha & Hm).
  { repeat constructor; intros H; (discriminate H || reflexivity). }
  exists a. split; [exact Ha|]. rewrite Hm by reflexivity. vm_compute. reflexivity.
Defined.

(** ** Absolute modes *)

Definition octal (c : Z) : Prop := digit_val c < 8.

Definition octal_value (ds : list Z) : Z := digits_value 8 ds.

Lemma octal_isdigit c : octal c → isdigit c = true.
Proof.
  unfold octal, digit_val, isupper, islower. intros H.
  destruct (isdigit c); [done|]. Zcases; simpl in *; lia.
Qed.

(** On a nonempty octal string [strtol] reads everything; [errno] reports a
    saturated value. *)
Lemma strtol_octal ds :
  ds ≠ [] → Forall octal ds →
  strtol ds 8 = if INTMAX_MAX <? octal_value ds then (INTMAX_MAX, [], ERANGE)
                else (octal_value ds, [], 0).
Proof.
  intros Hne Hall. destruct ds as [|c ds]; [done|].
  assert (octal c) as Hc by (by inversion Hall).
  pose proof (octal_isdigit c Hc) as Hd. apply isdigit_range in Hd as Hr.
  assert (isspace c = false) as Hs by (unfold isspace; Zcases; simpl; lia).
  assert (strto_sign (c :: ds) = (false, c :: ds)) as Hsign.
  { unfold strto_sign. Zcases; try lia; done. }
  assert (strto_prefix 8 (c :: ds) = (8, c :: ds)) as Hpre
    by (by apply strto_prefix_plain).
  unfold strtol, strtoimax, strto_scan. simpl skip_space. rewrite Hs, Hsign, Hpre.
  cbn [peek]. unfold octal in Hc. destruct (Z.ltb_spec (digit_val c) 8); [|lia].
  rewrite <- (app_nil_r (c :: ds)), digits_all by (auto; by left).
  rewrite app_nil_r. unfold octal_value, digits_value.
  set (v := foldl _ _ _).
  assert (0 <= v) by (by apply (digits_value_nonneg 8 (c :: ds))).
  destruct (Z.ltb_spec v INTMAX_MIN); [unfold INTMAX_MIN in *; lia|done].
Qed.

(** A nonempty string of octal digits is an absolute mode: up to 07777 it
    assigns all twelve bits, and a larger value is refused with EINVAL, or
    ERANGE when it does not fit a long. *)
Theorem setmode_absolute garbage umask ds :
  ds ≠ [] → Forall octal ds →
  let r := setmode (λ _, true) garbage umask ds in
  if octal_value ds <=? 0xFFF then
    ∃ a, r = Ok a ∧ ∀ omode, getmode a omode = Ok (omode .&~ 0xFFF .| octal_value ds)
  else r = Err (if INTMAX_MAX <? octal_value ds then ERANGE else EINVAL).
Proof.
  intros Hne Hall r. subst r. unfold setmode. rewrite strtol_octal by done.
  destruct ds as [|c ds]; [done|]. cbn [peek].
  pose proof (octal_isdigit c ltac:(by inversion Hall)) as Hd. rewrite Hd.
  apply isdigit_range in Hd. destruct (Z.eqb_spec c 0); [lia|]. simpl negb. cbn iota.
  set (v := octal_value _).
  assert (0 <= v) as Hv by (by apply (digits_value_nonneg 8 (c :: ds))).
  change (STANDARD_BITS .| S_ISTXT) with (Z.ones 12).
  destruct (Z.ltb_spec INTMAX_MAX v); cbn [fst snd peek].
  { unfold INTMAX_MAX in *. by destruct (Z.leb_spec v 0xFFF); [lia|]. }
  change (0 =? ERANGE) with false. cbn [andb].
  assert ((v .&~ Z.ones 12 =? 0) = (v <=? 0xFFF)) as ->.
  { rewrite Z.ldiff_ones_r by lia. rewrite Z.shiftl_mul_pow2, Z.shiftr_div_pow2 by lia.
    pose proof (Z.div_mod v (2 ^ 12)). pose proof (Z.mod_pos_bound v (2 ^ 12)).
    destruct (Z.leb_spec v 0xFFF); [apply Z.eqb_eq|apply Z.eqb_neq]; [|lia].
    rewrite Z.div_small by lia. lia. }
  destruct (Z.leb_spec v 0xFFF) as [Hle|]; [|done]. simpl.
  eexists. split; [done|]. intros omode. unfold getmode. simpl.
  unfold getmode_step. simpl. do 3 f_equal.
  change 4095 with (Z.ones 12). rewrite Z.land_comm, Z.land_ones by lia.
  apply Z.mod_small. lia.
Qed.

Lemma setmode_absolute_witness :
  str "0755" ≠ [] ∧ Forall octal (str "0755") ∧
  ∃ a, setmode (λ _, true) 7 0x12 (str "0755") = Ok a ∧
       ∀ omode, getmode a omode = Ok (omode .&~ 0xFFF .| 0x1ED).
Proof.
  assert (Forall octal (str "0755")) as H by (repeat constructor; vm_compute; reflexivity).
  split; [discriminate|]. split; [exact H|].
  exact (setmode_absolute 7 0x12 (str "0755") ltac:(discriminate) H).
Defined.

(** The sticky bit replaces the class selection: with no explicit class,
    [+rt] sets the sticky bit alone and the read permission is lost, while [+r]
    followed by [+t] grants both. *)
Theorem setmode_sticky_drops_permissions garbage omode :
  (∃ a, setmode (λ _, true) garbage 0 (str "+rt") = Ok a ∧
        getmode a omode = Ok (omode .| S_ISVTX)) ∧
  (∃ a, setmode (λ _, true) garbage 0 (str "+r,+t") = Ok a ∧
        getmode a omode = Ok (omode .| (S_IRUSR .| S_IRGRP .| S_IROTH .| S_ISVTX))).
Proof.
  split; (eexists; split; [vm_compute; reflexivity|]);
    unfold getmode, getmode_step; simpl; reflexivity.
Qed.

(** A clause that removes [X] grants it: [a-X] on a mode with any execute bit
    sets the execute bits of every class. *)
Theorem setmode_minus_X_grants garbage umask omode :
  has omode (S_IFDIR .| XBITS) = true →
  ∃ a, setmode (λ _, true) garbage umask (str "a-X") = Ok a ∧
       getmode a omode = Ok (omode .| XBITS).
Proof.
  intros Hx. eexists. split; [lazy; reflexivity|].
  unfold getmode. cbn [getmode_loop getmode_step cmd]. simpl.
  change (has omode 0x4049 = true) in Hx. change (S_IFDIR .| _ .| _ .| _) with 0x4049.
  by rewrite Hx.
Qed.

Lemma setmode_minus_X_grants_witness :
  has 0x81C0 (S_IFDIR .| XBITS) = true ∧
  ∃ a, setmode (λ _, true) 7 0x12 (str "a-X") = Ok a ∧ getmode a 0x81C0 = Ok 0x81C9.
Proof.
  split; [reflexivity|]. exact (setmode_minus_X_grants 7 0x12 0x81C0 eq_refl).
Defined.

(** [a+X] makes a block device executable that nobody may execute: its type has the bit of
    [S_IFDIR]. *)
Lemma getmode_X_block_device garbage umask :
  ∃ a, setmode (λ _, true) garbage umask (str "a+X") = Ok a ∧
       getmode a (S_IFBLK .| 0x1A4) = Ok (S_IFBLK .| 0x1ED).
Proof. eexists. split; [lazy; reflexivity|reflexivity]. Qed.

(** ** strmode *)

(** Reads a mode back from the line [strmode] prints. *)
Definition type_of_char (c : Z) : Z :=
  if c =? ch "d" then S_IFDIR else if c =? ch "c" then S_IFCHR
  else if c =? ch "b" then S_IFBLK else if c =? ch "-" then S_IFREG
  else if c =? ch "l" then S_IFLNK else if c =? ch "s" then S_IFSOCK
  else if c =? ch "p" then S_IFIFO else 0.

Definition exec_of_char (c x s : Z) : Z :=
  if c =? ch "x" then x
  else if (c =? ch "S") || (c =? ch "T") then s
  else if (c =? ch "s") || (c =? ch "t") then x .| s else 0.

Definition bit_of_char (c yes b : Z) : Z := if c =? yes then b else 0.

Definition strmode_decode (l : list Z) : Z :=
  match l with
  | [t; ur; uw; ux; gr; gw; gx; tr; tw; tx; _] =>
      type_of_char t
      .| bit_of_char ur (ch "r") S_IRUSR .| bit_of_char uw (ch "w") S_IWUSR
      .| exec_of_char ux S_IXUSR S_ISUID
      .| bit_of_char gr (ch "r") S_IRGRP .| bit_of_char gw (ch "w") S_IWGRP
      .| exec_of_char gx S_IXGRP S_ISGID
      .| bit_of_char tr (ch "r") S_IROTH .| bit_of_char tw (ch "w") S_IWOTH
      .| exec_of_char tx S_IXOTH S_ISVTX
  | _ => 0
  end.

Definition known_type (mode : Z) : bool :=
  existsb (Z.eqb (mode .& S_IFMT))
    [S_IFDIR; S_IFCHR; S_IFBLK; S_IFREG; S_IFLNK; S_IFSOCK; S_IFIFO].

(** One bit of a word is clear or set. *)
Lemma land_pow2 m b : 0 <= b → m .& 2 ^ b = 0 ∨ m .& 2 ^ b = 2 ^ b.
Proof.
  intros Hb.
  assert (m .& 2 ^ b = if Z.testbit m b then 2 ^ b else 0) as ->; [|case_match; auto].
  apply Z.bits_inj'. intros n Hn. rewrite Z.land_spec, Z.pow2_bits_eqb by done.
  destruct (Z.eqb_spec b n) as [->|Hne].
  - rewrite andb_true_r. destruct (Z.testbit m n).
    + by rewrite Z.pow2_bits_true.
    + by rewrite Z.bits_0.
  - rewrite andb_false_r. destruct (Z.testbit m b); [|by rewrite Z.bits_0].
    by rewrite Z.pow2_bits_false.
Qed.

Lemma strmode_perm_bit mode c b k :
  c ≠ ch "-" → 0 <= k → b = 2 ^ k → bit_of_char (strmode_perm mode b c) c b = mode .& b.
Proof.
  intros Hc Hk ->. unfold bit_of_char, strmode_perm, has.
  destruct (land_pow2 mode k Hk) as [-> | ->].
  - change (negb (0 =? 0)) with false. cbn iota.
    destruct (Z.eqb_spec (ch "-") c); congruence.
  - destruct (Z.eqb_spec (2 ^ k) 0); [lia|]. simpl. by rewrite Z.eqb_refl.
Qed.

Lemma strmode_exec_bits mode x s sc both kx ks :
  x = 2 ^ kx → s = 2 ^ ks → 0 <= kx → 0 <= ks → kx ≠ ks →
  (sc, both) = (ch "S", ch "s") ∨ (sc, both) = (ch "T", ch "t") →
  exec_of_char (strmode_exec mode x s (ch "-") (ch "x") sc both) x s = mode .& (x .| s).
Proof.
  intros -> -> Hx Hs Hne Hc. unfold strmode_exec. rewrite Z.land_lor_distr_r.
  assert (2 ^ kx ≠ 2 ^ ks) by (intros ?%Z.pow_inj_r; lia).
  assert (0 < 2 ^ kx ∧ 0 < 2 ^ ks) as [? ?] by (split; apply Z.pow_pos_nonneg; lia).
  assert (2 ^ kx .| 2 ^ ks ≠ 2 ^ kx ∧ 2 ^ kx .| 2 ^ ks ≠ 2 ^ ks) as [? ?].
  { split; intros E; apply (f_equal (λ z, (Z.testbit z kx, Z.testbit z ks))) in E;
      rewrite !Z.lor_spec, !Z.pow2_bits_true, !Z.pow2_bits_false in E by done; done. }
  pose proof (lor_pos (2 ^ kx) (2 ^ ks)).
  destruct (land_pow2 mode kx Hx) as [-> | ->], (land_pow2 mode ks Hs) as [-> | ->];
    rewrite ?Z.lor_0_l, ?Z.lor_0_r; Zcases; try lia; try done;
    destruct Hc as [[= -> ->]|[= -> ->]]; done.
Qed.

Lemma strmode_type_bits mode :
  known_type mode = true → type_of_char (strmode_type mode) = mode .& S_IFMT.
Proof.
  unfold known_type, strmode_type. cbn [existsb]. generalize (mode .& S_IFMT) as t.
  intros t Ht. Zcases; subst; try done; discriminate.
Qed.

(** [strmode] loses nothing: the twelve permission bits and the file type can
    be read back from the eleven characters it prints, for every mode of a known
    type; the set-id and sticky letters tell all four cases apart. *)
Theorem strmode_roundtrip mode :
  known_type mode = true →
  length (strmode mode) = 11%nat ∧ strmode_decode (strmode mode) = mode .& 0xFFFF.
Proof.
  intros Ht. split; [done|]. unfold strmode, strmode_decode.
  rewrite strmode_type_bits by done.
  rewrite (strmode_perm_bit _ _ S_IRUSR 8), (strmode_perm_bit _ _ S_IWUSR 7),
    (strmode_perm_bit _ _ S_IRGRP 5), (strmode_perm_bit _ _ S_IWGRP 4),
    (strmode_perm_bit _ _ S_IROTH 2), (strmode_perm_bit _ _ S_IWOTH 1) by done.
  rewrite (strmode_exec_bits _ S_IXUSR S_ISUID _ _ 6 11),
    (strmode_exec_bits _ S_IXGRP S_ISGID _ _ 3 10),
    (strmode_exec_bits _ S_IXOTH S_ISVTX _ _ 0 9) by (auto; done).
  by rewrite <- !Z.land_lor_distr_r.
Qed.

Lemma strmode_roundtrip_witness :
  known_type 0x89ED = true ∧ strmode 0x89ED = str "-rwsr-xr-x " ∧
  length (strmode 0x89ED) = 11%nat ∧ strmode_decode (strmode 0x89ED) = 0x89ED .& 0xFFFF.
Proof.
  split; [reflexivity|]. split; [reflexivity|]. exact (strmode_roundtrip 0x89ED eq_refl).
Defined.
