(* ===== verification/Heapsort.v ===== *)
(** * heapsort: lib/netbsd/heapsort.c

    The in-place heapsort behind sort(1) and others.  The array is a list of
    records; [compar] is the caller's comparison function.  Items are numbered
    from 1, as in the code, where [base] points one record below the array.
    [COPY] and [SWAP] move whole records, so the model moves list elements. *)

From Stdlib Require Import Sorted.
From S2P Require Import Prelude Libc.

(** ** The code *)

Section code.
Context {A : Type} (compar : A → A → Z).

(** The record [base + i * size]. *)
Definition rd (a : list A) (i : nat) : option A :=
  match i with O => None | S j => a !! j end.
Definition wr (a : list A) (i : nat) (v : A) : list A := <[Nat.pred i := v]> a.

Definition load (a : list A) (i : nat) : res A :=
  match rd a i with Some x => Ok x | None => Fault end.
Definition store (a : list A) (i : nat) (v : A) : res (list A) :=
  if rd a i then Ok (wr a i v) else Fault.

(** [if (child_i < nmemb && compar(child, child + size) < 0) ++child_i;] *)
Definition larger_child (a : list A) (nmemb child_i : nat) : res nat :=
  if (child_i <? nmemb)%nat then
    let* x := load a child_i in
    let* y := load a (S child_i) in
    Ok (if compar x y <? 0 then S child_i else child_i)
  else Ok child_i.

(** The macro CREATE: sift the record [par_i] down. *)
Fixpoint CREATE (fuel : nat) (a : list A) (nmemb par_i : nat) : res (list A) :=
  match fuel with
  | O => Fault
  | S fuel =>
      let child_i := (par_i * 2)%nat in
      if (child_i <=? nmemb)%nat then
        let* child_i := larger_child a nmemb child_i in
        let* child := load a child_i in
        let* par := load a par_i in
        if compar child par <=? 0 then Ok a
        else
          let* a := store a par_i child in
          let* a := store a child_i par in
          CREATE fuel a nmemb child_i
      else Ok a
  end.

(** The first loop of the macro SELECT: larger children move up to their
    parents, from the root to a leaf, whose index is returned. *)
Fixpoint select_down (fuel : nat) (a : list A) (nmemb par_i : nat)
    : res (list A * nat) :=
  match fuel with
  | O => Fault
  | S fuel =>
      let child_i := (par_i * 2)%nat in
      if (child_i <=? nmemb)%nat then
        let* child_i := larger_child a nmemb child_i in
        let* child := load a child_i in
        let* a := store a par_i child in
        select_down fuel a nmemb child_i
      else Ok (a, par_i)
  end.

(** The second loop: [k] climbs from that leaf to its place. *)
Fixpoint select_up (fuel : nat) (a : list A) (k : A) (par_i : nat) : res (list A) :=
  match fuel with
  | O => Fault
  | S fuel =>
      let child_i := par_i in
      let par_i := (child_i / 2)%nat in
      if (child_i =? 1)%nat then store a child_i k
      else
        let* par := load a par_i in
        if compar k par <? 0 then store a child_i k
        else
          let* a := store a child_i par in
          select_up fuel a k par_i
  end.

Definition SELECT (a : list A) (nmemb : nat) (k : A) : res (list A) :=
  let* (a, par_i) := select_down (S nmemb) a nmemb 1 in
  select_up (S par_i) a k par_i.

(** [for (l = nmemb / 2 + 1; --l;)] *)
Fixpoint create_all (l : nat) (a : list A) (nmemb : nat) : res (list A) :=
  match l with
  | O => Ok a
  | S l' => let* a := CREATE (S nmemb) a nmemb l in create_all l' a nmemb
  end.

(** [while (nmemb > 1)] *)
Fixpoint select_all (nmemb : nat) (a : list A) : res (list A) :=
  match nmemb with
  | O | S O => Ok a
  | S nmemb' =>
      let* k := load a nmemb in
      let* top := load a 1 in
      let* a := store a nmemb top in
      let* a := SELECT a nmemb' k in
      select_all nmemb' a
  end.

(** [alloc] says whether the one-record buffer [k] can be allocated. *)
Definition heapsort (alloc : Z → bool) (a : list A) (size : Z) : res (list A) :=
  let nmemb := length a in
  if (nmemb <=? 1)%nat then Ok a
  else if size =? 0 then Err EINVAL
  else if negb (alloc size) then Err ENOMEM
  else
    let* a := create_all (nmemb / 2) a nmemb in
    select_all nmemb a.
End code.

(** ** Comparison functions

    What a caller promises: [compar] is a total preorder, read through the sign of
    its result. *)
Class Comparator {A} (compar : A → A → Z) : Prop := {
  compar_flip x y : compar x y <= 0 ↔ 0 <= compar y x;
  compar_trans x y z : compar x y <= 0 → compar y z <= 0 → compar x z <= 0 }.

(** The usual comparison by an integer key. *)
#[global] Instance key_comparator {A} (key : A → Z) :
  Comparator (λ x y, key x - key y).
Proof. split; intros; lia. Qed.

(** ** Arrays *)

Section arrays.
Context {A : Type}.
Implicit Types (a : list A) (i j n : nat).

Lemma rd_is_Some a i : is_Some (rd a i) ↔ (1 <= i <= length a)%nat.
Proof.
  destruct i; simpl; [split; [intros []|]; intros; try done; lia|].
  rewrite lookup_lt_is_Some. lia.
Qed.

Lemma rd_lt a i : (1 <= i <= length a)%nat → ∃ x, rd a i = Some x.
Proof. intros ?%rd_is_Some. by destruct (rd a i) as [x|]; [exists x|inversion H]. Qed.

Lemma length_wr a i v : length (wr a i v) = length a.
Proof. apply length_insert. Qed.

Lemma rd_wr_eq a i v : (1 <= i <= length a)%nat → rd (wr a i v) i = Some v.
Proof. destruct i; simpl; [lia|]. intros. apply list_lookup_insert_eq. lia. Qed.

Lemma rd_wr_ne a i j v : i ≠ j → (1 <= i)%nat → rd (wr a i v) j = rd a j.
Proof. destruct i, j; simpl; intros; try lia; [done|]. apply list_lookup_insert_ne. lia. Qed.

Lemma wr_wr a i v w : wr (wr a i v) i w = wr a i w.
Proof. apply list_insert_insert_eq. Qed.

Lemma load_Ok a i x : rd a i = Some x → load a i = Ok x.
Proof. unfold load. by intros ->. Qed.

Lemma store_Ok a i v : (1 <= i <= length a)%nat → store a i v = Ok (wr a i v).
Proof. intros [x Hx]%rd_lt. unfold store. by rewrite Hx. Qed.

(** Moving the hole from [i] to [j] permutes the array with the hole filled. *)
Lemma wr_swap_perm a i j x v :
  (1 <= i <= length a)%nat → i ≠ j → rd a j = Some x →
  wr (wr a i x) j v ≡ₚ wr a i v.
Proof.
  intros Hi Hne Hj. assert (1 <= j <= length a)%nat as Hj' by (apply rd_is_Some; eauto).
  destruct i as [|i], j as [|j]; try lia. simpl in *. unfold wr. simpl.
  replace (<[i:=x]> a) with (<[i:=x]> (<[i:=v]> a)) by apply list_insert_insert_eq.
  apply Permutation_insert_swap.
  - apply list_lookup_insert_eq. lia.
  - by rewrite list_lookup_insert_ne by lia.
Qed.

Lemma wr_id a i x : rd a i = Some x → wr a i x = a.
Proof. destruct i; [done|]. apply list_insert_id. Qed.
End arrays.

(** Simplifies a read of an updated array; index side conditions go to [lia]. *)
Ltac rd_simp :=
  repeat match goal with
         | H : context [rd (wr ?a ?i ?v) ?i] |- _ => rewrite rd_wr_eq in H by (rewrite ?length_wr; lia)
         | H : context [rd (wr ?a ?i ?v) ?j] |- _ => rewrite rd_wr_ne in H by lia
         | |- context [rd (wr ?a ?i ?v) ?i] => rewrite rd_wr_eq by (rewrite ?length_wr; lia)
         | |- context [rd (wr ?a ?i ?v) ?j] => rewrite rd_wr_ne by lia
         end; simplify_eq.

(** Decides whether the index [i] is [j], replacing [i]. *)
Ltac at_index i j := destruct (decide (i = j)) as [->|?]; rd_simp.

(** ** Heaps *)

Section heaps.
Context {A : Type} (compar : A → A → Z) `{!Comparator compar}.
Implicit Types (a : list A) (i j n p c : nat).

Definition le (x y : A) : Prop := compar x y <= 0.

Lemma le_refl x : le x x.
Proof. unfold le. pose proof (compar_flip x x). lia. Qed.
Lemma le_trans x y z : le x y → le y z → le x z.
Proof. apply compar_trans. Qed.
Lemma not_gt_le x y : ¬ compar x y <= 0 → le y x.
Proof. unfold le. rewrite (compar_flip y x). lia. Qed.
Lemma not_lt_le x y : ¬ compar x y < 0 → le y x.
Proof. unfold le. rewrite (compar_flip y x). lia. Qed.

Definition child c i : Prop := c = (2 * i)%nat ∨ c = (2 * i + 1)%nat.

(** Every record from [l] on dominates its children among the first [n]. *)
Definition heap a l n : Prop := ∀ i c x y,
  (l <= i)%nat → child c i → (c <= n)%nat → rd a i = Some x → rd a c = Some y → le y x.

(** Both children of [p] may exceed it, but not its parent. *)
Definition almost_heap a l n p : Prop :=
  (∀ i c x y, (l <= i)%nat → i ≠ p → child c i → (c <= n)%nat →
     rd a i = Some x → rd a c = Some y → le y x) ∧
  (∀ q c x y, (l <= q)%nat → child p q → child c p → (c <= n)%nat →
     rd a q = Some x → rd a c = Some y → le y x).

Definition same_above n a a' : Prop :=
  length a' = length a ∧ ∀ i, (n < i)%nat → rd a' i = rd a i.

Lemma larger_child_spec a n p :
  (1 <= p)%nat → (2 * p <= n <= length a)%nat →
  ∃ c x, larger_child compar a n (p * 2) = Ok c ∧ child c p ∧ (c <= n)%nat ∧
    rd a c = Some x ∧
    ∀ c' y, child c' p → (c' <= n)%nat → rd a c' = Some y → le y x.
Proof.
  intros Hp Hn. unfold larger_child, child.
  destruct (rd_lt a (2 * p)) as [x Hx]; [lia|].
  replace (p * 2)%nat with (2 * p)%nat by lia.
  destruct (Nat.ltb_spec (2 * p) n) as [Hlt|Hge].
  - destruct (rd_lt a (2 * p + 1)) as [y Hy]; [lia|].
    rewrite (load_Ok _ _ _ Hx). cbn [res_bind].
    replace (S (2 * p)) with (2 * p + 1)%nat by lia.
    rewrite (load_Ok _ _ _ Hy). cbn [res_bind].
    destruct (Z.ltb_spec (compar x y) 0).
    + exists (2 * p + 1)%nat, y. split_and!; auto; [lia|].
      intros c' z [-> | ->] _ Hz; simplify_eq; [unfold le; lia|apply le_refl].
    + exists (2 * p)%nat, x. split_and!; auto; [lia|].
      intros c' z [-> | ->] _ Hz; simplify_eq; [apply le_refl|apply not_lt_le; lia].
  - exists (2 * p)%nat, x. split_and!; auto; [lia|].
    intros c' z [-> | ->] ? Hz; simplify_eq; [apply le_refl|lia].
Qed.

Lemma sift_swap a l n p c x par :
  (1 <= l <= p)%nat → (n <= length a)%nat → almost_heap a l n p →
  child c p → (c <= n)%nat → rd a c = Some x → rd a p = Some par → le par x →
  (∀ c' y, child c' p → (c' <= n)%nat → rd a c' = Some y → le y x) →
  almost_heap (wr (wr a p x) c par) l n c.
Proof.
  intros Hl Hn [H1 H2] Hc Hcn Hx Hpar Hle Hmax. split.
  - intros i c' z y Hi Hne Hc' Hcn' Hz Hy. unfold child in *. at_index i p.
    + at_index c' c; [done|]. eauto.
    + at_index c' c; [lia|]. at_index c' p; [|eauto].
      eapply (H2 i c); eauto.
  - intros q c' z y Hq Hcq Hc' Hcn' Hz Hy. unfold child in *.
    assert (q = p) as -> by lia. rd_simp. eapply (H1 c); eauto; lia.
Qed.

Lemma CREATE_spec fuel a l n p :
  (1 <= l <= p)%nat → (p <= n <= length a)%nat → (n - p < fuel)%nat →
  almost_heap a l n p →
  ∃ a', CREATE compar fuel a n p = Ok a' ∧ a' ≡ₚ a ∧ same_above n a a' ∧ heap a' l n.
Proof.
  revert a p. induction fuel as [|fuel IH]; intros a p Hl Hn Hf Hh; [lia|].
  cbn [CREATE]. destruct (Nat.leb_spec (p * 2) n) as [Hle|Hgt].
  2:{ exists a. split_and!; [done..|]. destruct Hh as [H1 _].
      intros i c x y Hi Hc Hcn. apply (H1 i c); auto. unfold child in *. lia. }
  destruct (larger_child_spec a n p) as (c & x & -> & Hc & Hcn & Hx & Hmax); [lia|lia|].
  destruct (rd_lt a p) as [par Hpar]; [lia|]. assert (p < c)%nat by (unfold child in *; lia).
  cbn [res_bind]. rewrite (load_Ok _ _ _ Hx), (load_Ok _ _ _ Hpar). cbn [res_bind].
  destruct (Z.leb_spec (compar x par) 0) as [Hc0|Hc0].
  - exists a. split_and!; [done..|]. destruct Hh as [H1 _].
    intros i c' z y Hi Hc' Hcn' Hz Hy. at_index i p; [|eauto].
    eapply le_trans; [eapply Hmax|]; eauto.
  - rewrite !store_Ok by (rewrite ?length_wr; lia). cbn [res_bind].
    rewrite store_Ok by (rewrite ?length_wr; lia). cbn [res_bind].
    destruct (IH (wr (wr a p x) c par) c) as (a' & -> & Hp & [Hlen Hab] & Hh');
      [lia|rewrite !length_wr; lia|lia| |].
    { eapply sift_swap; eauto; [lia|]. apply not_gt_le. lia. }
    exists a'. split_and!; auto.
    + rewrite Hp, wr_swap_perm by (done || lia). by rewrite wr_id.
    + rewrite !length_wr in Hlen. split; [done|]. intros i Hi.
      rewrite Hab by done. rd_simp. done.
Qed.

Lemma create_all_spec l a n :
  (2 * l <= n <= length a)%nat → heap a (S l) n →
  ∃ a', create_all compar l a n = Ok a' ∧ a' ≡ₚ a ∧ heap a' 1 n.
Proof.
  revert a. induction l as [|l IH]; intros a Hl Hh; [by exists a|].
  cbn [create_all].
  destruct (CREATE_spec (S n) a (S l) n (S l)) as (a' & -> & Hp & [Hlen _] & Hh'); try lia.
  { split.
    - intros i c x y Hi Hne. apply Hh. lia.
    - intros q c x y Hq Hc. unfold child in Hc. lia. }
  cbn [res_bind]. destruct (IH a') as (a2 & -> & Hp2 & Hh2); [lia|done|].
  exists a2. split_and!; auto. by rewrite Hp2.
Qed.

Lemma heap_leaves a n : heap a (S (n / 2)) n.
Proof.
  intros i c x y Hi Hc Hcn. unfold child in Hc.
  pose proof (Nat.div_mod_eq n 2). pose proof (Nat.mod_upper_bound n 2). lia.
Qed.

Lemma heap_root_max a n i x top :
  heap a 1 n → (1 <= i <= n)%nat → rd a i = Some x → rd a 1 = Some top → le x top.
Proof.
  intros Hh. revert x. induction i as [i IH] using lt_wf_ind; intros x Hi Hx Htop.
  destruct (decide (i = 1%nat)) as [->|Hne]; [simplify_eq; apply le_refl|].
  pose proof (Nat.div_mod_eq i 2). pose proof (Nat.mod_upper_bound i 2).
  assert (1 <= i / 2 < i)%nat as Hj by lia.
  assert (is_Some (rd a (i / 2))) as [z Hz].
  { apply rd_is_Some. assert (is_Some (rd a i)) as ?%rd_is_Some by eauto. lia. }
  eapply le_trans.
  - eapply (Hh (i / 2)%nat i); eauto; [lia|unfold child; lia|lia].
  - eapply (IH (i / 2)%nat); eauto; lia.
Qed.

(** ** Selection *)

(** All of the first [n] records satisfy [P]. *)
Definition all_below (P : A → Prop) n a : Prop :=
  ∀ i x, (1 <= i <= n)%nat → rd a i = Some x → P x.

Lemma all_below_wr P n a i v :
  (1 <= i <= length a)%nat → all_below P n a → P v → all_below P n (wr a i v).
Proof.
  intros Hi Ha Hv j x Hj Hx. at_index j i; [done|]. eapply Ha; eauto.
Qed.

Lemma same_above_wr n a a' i v :
  (1 <= i <= n)%nat → same_above n (wr a i v) a' → same_above n a a'.
Proof.
  intros Hi [Hl Hs]. rewrite length_wr in Hl. split; [done|].
  intros j Hj. rewrite Hs by done. by rd_simp.
Qed.

Lemma select_down_spec fuel a n p :
  (1 <= p <= n)%nat → (n <= length a)%nat → (n - p < fuel)%nat → heap a 1 n →
  ∃ a' p', select_down compar fuel a n p = Ok (a', p') ∧ (1 <= p' <= n)%nat ∧
    (n < 2 * p')%nat ∧ heap a' 1 n ∧ same_above n a a' ∧
    (∀ k, wr a' p' k ≡ₚ wr a p k) ∧ (∀ P, all_below P n a → all_below P n a').
Proof.
  revert a p. induction fuel as [|fuel IH]; intros a p Hp Hn Hf Hh; [lia|].
  cbn [select_down]. destruct (Nat.leb_spec (p * 2) n) as [Hle|Hgt].
  2:{ exists a, p. split_and!; try done; lia. }
  destruct (larger_child_spec a n p) as (c & x & -> & Hc & Hcn & Hx & Hmax); [lia|lia|].
  destruct (rd_lt a p) as [par Hpar]; [lia|]. assert (p < c)%nat by (unfold child in *; lia).
  cbn [res_bind]. rewrite (load_Ok _ _ _ Hx). cbn [res_bind].
  rewrite store_Ok by lia. cbn [res_bind].
  destruct (IH (wr a p x) c) as (a' & p' & -> & Hp' & Hleaf & Hh' & Hs & Hperm & HP);
    [lia|rewrite length_wr; lia|lia| |].
  { intros i c' z y Hi Hc' Hcn' Hz Hy.
    assert (c' ≠ i) by (unfold child in *; lia).
    at_index i p; [eauto|]. at_index c' p; [|eauto].
    eapply le_trans; [eapply (Hh p c)|eapply (Hh i p)]; eauto; lia. }
  exists a', p'. split_and!; auto; try lia.
  - by eapply same_above_wr; [|exact Hs]; lia.
  - intros k. rewrite Hperm. apply wr_swap_perm; [lia|lia|done].
  - intros P HPa. apply HP, all_below_wr; [lia|done|].
    apply (HPa c); [lia|done].
Qed.

Lemma select_up_spec fuel a n k p :
  (1 <= p <= n)%nat → (n <= length a)%nat → (p < fuel)%nat → heap a 1 n →
  (∀ c y, child c p → (c <= n)%nat → rd a c = Some y → le y k) →
  ∃ a', select_up compar fuel a k p = Ok a' ∧ a' ≡ₚ wr a p k ∧ heap a' 1 n ∧
    same_above n a a' ∧ (∀ P, all_below P n a → P k → all_below P n a').
Proof.
  revert a p. induction fuel as [|fuel IH]; intros a p Hp Hn Hf Hh Hk; [lia|].
  assert ((p = 1%nat ∨ ∃ par, rd a (p / 2) = Some par ∧ le k par) →
    ∃ a', store a p k = Ok a' ∧ a' ≡ₚ wr a p k ∧ heap a' 1 n ∧
    same_above n a a' ∧ (∀ P, all_below P n a → P k → all_below P n a')) as Hstop.
  { intros Hpar. rewrite store_Ok by lia. exists (wr a p k). split_and!; auto.
    - intros i c z y Hi Hc Hcn Hz Hy. assert (c ≠ i) by (unfold child in *; lia).
      at_index i p; [eauto|]. at_index c p; [|eauto].
      destruct Hpar as [->|(par & Hpar & ?)]; [unfold child in *; lia|].
      assert (i = p / 2)%nat as ->; [|by simplify_eq].
      pose proof (Nat.div_mod_eq p 2). pose proof (Nat.mod_upper_bound p 2).
      unfold child in *. lia.
    - apply (same_above_wr n a _ p k); [lia|done].
    - intros. by apply all_below_wr; [lia|..]. }
  cbn [select_up]. destruct (Nat.eqb_spec p 1) as [->|Hne]; [by apply Hstop; left|].
  pose proof (Nat.div_mod_eq p 2). pose proof (Nat.mod_upper_bound p 2).
  assert (1 <= p / 2 < p)%nat by lia.
  destruct (rd_lt a (p / 2)) as [par Hpar]; [lia|]. rewrite (load_Ok _ _ _ Hpar). cbn [res_bind].
  destruct (Z.ltb_spec (compar k par) 0).
  { apply Hstop. right. exists par. split; [done|]. unfold le. lia. }
  clear Hstop. rewrite store_Ok by lia. cbn [res_bind].
  assert (child p (p / 2)) as Hchild by (unfold child; lia).
  assert (le par k) as Hpk by (apply not_lt_le; lia).
  destruct (rd_lt a p) as [old Hold]; [lia|].
  destruct (IH (wr a p par) (p / 2)%nat) as (a' & -> & Hperm & Hh' & Hs & HP);
    [lia|rewrite length_wr; lia|lia| | |].
  - intros i c z y Hi Hc Hcn Hz Hy. assert (c ≠ i) by (unfold child in *; lia).
    at_index i p.
    + eapply le_trans; [eapply (Hh p c)|eapply (Hh (p / 2)%nat p)]; eauto; lia.
    + at_index c p; [|eauto].
      assert (i = p / 2)%nat as -> by (unfold child in *; lia). simplify_eq. apply le_refl.
  - intros c y Hc Hcn Hy. at_index c p; [done|].
    eapply le_trans; [eapply (Hh (p / 2)%nat c)|]; eauto; lia.
  - exists a'. split_and!; auto.
    + rewrite Hperm. apply wr_swap_perm; [lia|lia|done].
    + by eapply same_above_wr; [|exact Hs]; lia.
    + intros P HPa HPk. apply HP; [|done]. apply all_below_wr; [lia|done|].
      apply (HPa (p / 2)%nat); [lia|done].
Qed.
End heaps.

(** ** The sort *)

Section sort.
Context {A : Type} (compar : A → A → Z) `{!Comparator compar}.
Implicit Types (a : list A) (i j n : nat).

Lemma SELECT_spec a n k top :
  (1 <= n)%nat → (n <= length a)%nat → heap compar a 1 n → rd a 1 = Some top →
  ∃ a', SELECT compar a n k = Ok a' ∧ a' ≡ₚ wr a 1 k ∧ heap compar a' 1 n ∧
    same_above n a a' ∧ (∀ P, all_below P n a → P k → all_below P n a').
Proof.
  intros Hn Hl Hh Htop. unfold SELECT.
  destruct (select_down_spec compar (S n) a n 1)
    as (a1 & p & -> & Hp & Hleaf & Hh1 & [Hlen1 Hs1] & Hperm1 & HP1); [lia|lia|lia|done|].
  cbn [res_bind].
  destruct (select_up_spec compar (S p) a1 n k p)
    as (a2 & -> & Hperm2 & Hh2 & [Hlen2 Hs2] & HP2); [lia|lia|lia|done| |].
  { unfold child. intros. lia. }
  exists a2. split_and!; auto.
  - by rewrite Hperm2, Hperm1.
  - split; [congruence|]. intros i Hi. by rewrite Hs2, Hs1.
Qed.

(** The records above [n] are in their final place. *)
Definition settled a n : Prop := ∀ i j x y,
  (1 <= i < j)%nat → (n < j)%nat → rd a i = Some x → rd a j = Some y → le compar x y.

Lemma select_all_spec n a :
  (n <= length a)%nat → heap compar a 1 n → settled a n →
  ∃ a', select_all compar n a = Ok a' ∧ a' ≡ₚ a ∧ settled a' 1.
Proof.
  revert a. induction n as [|n IH]; intros a Hl Hh Hset.
  { exists a. split_and!; [done..|]. intros i j x y ??. apply Hset; lia. }
  destruct (decide (n = 0%nat)) as [->|Hn0]; [by exists a|].
  destruct (rd_lt a (S n)) as [k Hk]; [lia|].
  destruct (rd_lt a 1) as [top Htop]; [lia|].
  assert (select_all compar (S n) a =
    let* a := SELECT compar (wr a (S n) top) n k in select_all compar n a) as ->.
  { destruct n as [|n]; [done|]. cbn [select_all].
    rewrite (load_Ok _ _ _ Hk). cbn [res_bind].
    rewrite (load_Ok _ _ _ Htop). cbn [res_bind]. by rewrite store_Ok by lia. }
  destruct (SELECT_spec (wr a (S n) top) n k top)
    as (a1 & -> & Hperm & Hh1 & [Hlen1 Hs1] & HP); [lia|rewrite length_wr; lia| | |].
  { intros i c x y Hi Hc Hcn Hx Hy. assert (i < c)%nat by (unfold child in *; lia).
    rd_simp. eapply (Hh i c); eauto. }
  { by rd_simp. }
  rewrite length_wr in Hlen1. cbn [res_bind].
  destruct (IH a1) as (a2 & -> & Hperm2 & Hset2); [lia|done| |].
  - assert (rd a1 (S n) = Some top) as HSn by (rewrite Hs1 by lia; by rd_simp).
    assert (∀ P : A → Prop, (∀ i x, (1 <= i <= S n)%nat → rd a i = Some x → P x) →
      all_below P n a1) as Hall.
    { intros P HPa. apply HP; [|by apply (HPa (S n)); [lia|]].
      intros i x Hi Hx. rd_simp. apply (HPa i); [lia|done]. }
    intros i j x y Hij Hj Hx Hy. destruct (decide (j = S n)) as [->|Hne].
    + assert (y = top) as -> by congruence.
      apply (Hall (λ x, le compar x top)) with i; [|lia|done].
      intros i' x' Hi' Hx'. eapply (heap_root_max compar a (S n)); eauto.
    + assert (rd a j = Some y) as Hya by (rewrite Hs1 in Hy by lia; by rd_simp).
      destruct (decide (i <= n)%nat).
      * apply (Hall (λ x, le compar x y)) with i; [|lia|done].
        intros i' x' Hi' Hx'. apply (Hset i' j); [lia|lia|done|done].
      * destruct (decide (i = S n)) as [->|]; simplify_eq.
        -- apply (Hset 1%nat j); [lia|lia|done|done].
        -- rewrite Hs1 in Hx by lia. rd_simp. apply (Hset i j); [lia|lia|done|done].
  - exists a2. split_and!; auto. rewrite Hperm2, Hperm.
    rewrite wr_swap_perm by (done || lia). by rewrite wr_id.
Qed.

Lemma settled_sorted a : settled a 1 → StronglySorted (le compar) a.
Proof.
  intros Hset.
  assert (∀ i j x y, (i < j)%nat → a !! i = Some x → a !! j = Some y → le compar x y) as H.
  { intros i j x y Hij Hx Hy. apply (Hset (S i) (S j)); [lia|lia|done|done]. }
  clear Hset. induction a as [|x a IH]; [constructor|]. constructor.
  - apply IH. intros i j y z Hij Hy Hz. apply (H (S i) (S j)); [lia|done|done].
  - apply Forall_lookup. intros j y Hy. apply (H 0%nat (S j)); [lia|done|done].
Qed.

(** C7.  [heapsort] sorts: for any total preorder it terminates without touching
    memory outside the array, and leaves a permutation of the records in
    ascending order. *)
Theorem heapsort_sorts alloc a size :
  size ≠ 0 → alloc size = true →
  ∃ a', heapsort compar alloc a size = Ok a' ∧ a' ≡ₚ a ∧
        StronglySorted (le compar) a'.
Proof.
  intros Hsize Halloc. unfold heapsort. destruct (Nat.leb_spec (length a) 1) as [Hle|Hgt].
  { exists a. split_and!; [done..|]. destruct a as [|x [|y a]]; simpl in Hle; [constructor..|lia].
    all: constructor. }
  apply Z.eqb_neq in Hsize. rewrite Hsize, Halloc. cbn [negb].
  destruct (create_all_spec compar (length a / 2) a (length a)) as (a1 & -> & Hp1 & Hh1).
  { pose proof (Nat.div_mod_eq (length a) 2). lia. }
  { apply heap_leaves. }
  cbn [res_bind]. pose proof (Permutation_length Hp1) as Hlen.
  destruct (select_all_spec (length a) a1) as (a2 & -> & Hp2 & Hset); [lia|done| |].
  { intros i j x y _ Hj _ Hy. assert (is_Some (rd a1 j)) as ?%rd_is_Some by eauto. lia. }
  exists a2. split_and!; [done| |by apply settled_sorted]. by rewrite Hp2.
Qed.

End sort.

Lemma heapsort_sorts_witness :
  4 ≠ 0 ∧ (λ _ : Z, true) 4 = true ∧
  heapsort (λ x y, fst x - fst y) (λ _, true)
    [(3, ch "a"); (1, ch "b"); (2, ch "c"); (1, ch "d"); (5, ch "e")] 4 =
    Ok [(1, ch "b"); (1, ch "d"); (2, ch "c"); (3, ch "a"); (5, ch "e")] ∧
  ∃ a', heapsort (λ x y, fst x - fst y) (λ _, true)
    [(3, ch "a"); (1, ch "b"); (2, ch "c"); (1, ch "d"); (5, ch "e")] 4 = Ok a' ∧
    a' ≡ₚ [(3, ch "a"); (1, ch "b"); (2, ch "c"); (1, ch "d"); (5, ch "e")] ∧
    StronglySorted (le (λ x y : Z * Z, fst x - fst y)) a'.
Proof.
  split; [discriminate|]. split; [reflexivity|]. split; [vm_compute; reflexivity|].
  apply (@heapsort_sorts _ (λ x y : Z * Z, fst x - fst y) (key_comparator fst));
    [discriminate|reflexivity].
Defined.
