(* ===== verification/Strnum.v ===== *)
(** * Numbers and sizes: strtoi.c, strtou.c, strtonum.c, reallocarr.c,
      strsuftoll.c (lib/netbsd) and strpct.c (lib/util)

    The checked conversions the utilities use for their numeric arguments, the
    overflow-checked allocation, and the percentage printer. *)

From S2P Require Import Prelude Libc.

(** ** strtoi and strtou

    The result is the value, the string at [*endptr] and the final [*rstatus];
    [errno] itself is saved and restored by the code.  The pointers [nptr] and
    [*endptr] are equal when no character was consumed. *)

Definition same_ptr (p q : list Z) : bool := (length p =? length q)%nat.

Definition strtoi (nptr : list Z) (base lo hi : Z) : Z * list Z * Z :=
  let '(im, endptr, errno) := strtoimax nptr base in
  let rstatus := errno in
  let rstatus := if (rstatus =? 0) && same_ptr nptr endptr then ECANCELED else rstatus in
  if im <? lo then (lo, endptr, if rstatus =? 0 then ERANGE else rstatus)
  else if hi <? im then (hi, endptr, if rstatus =? 0 then ERANGE else rstatus)
  else
    let rstatus := if (rstatus =? 0) && negb (peek endptr =? 0) then ENOTSUP else rstatus in
    (im, endptr, rstatus).

Definition strtou (nptr : list Z) (base lo hi : Z) : Z * list Z * Z :=
  let '(im, endptr, errno) := strtoumax nptr base in
  let rstatus := errno in
  let rstatus := if (rstatus =? 0) && same_ptr nptr endptr then ECANCELED else rstatus in
  if im <? lo then (lo, endptr, if rstatus =? 0 then ERANGE else rstatus)
  else if hi <? im then (hi, endptr, if rstatus =? 0 then ERANGE else rstatus)
  else
    let rstatus := if (rstatus =? 0) && negb (peek endptr =? 0) then ENOTSUP else rstatus in
    (im, endptr, rstatus).

(** ** strtonum *)

(** [*errstr]: NULL or one of the three messages. *)
Inductive errstr := NoError | Invalid | TooSmall | TooLarge.

#[global] Instance errstr_eq_dec : EqDecision errstr.
Proof. solve_decision. Defined.

(** [None] is the call of [abort] for a status [strtoi] does not return. *)
Definition strtonum (nptr : list Z) (minval maxval : Z) : option (Z * errstr) :=
  if maxval <? minval then Some (0, Invalid)
  else
    let '(rv, eptr, e) := strtoi nptr 10 minval maxval in
    if e =? 0 then Some (rv, NoError)
    else if (e =? ECANCELED) || (e =? ENOTSUP) then Some (0, Invalid)
    else if e =? ERANGE then
      if negb (peek eptr =? 0) then Some (0, Invalid)
      else Some (0, if rv =? maxval then TooLarge else TooSmall)
    else None.

(** ** reallocarr *)

Definition SQRT_SIZE_MAX : Z := Z.shiftl 1 (8 * 8 / 2).

(** [ptr] is the size of the block the pointer owns ([None] for NULL); the result
    is the error number and the block afterwards.  [realloc_ok] says whether
    [realloc] can provide that many bytes. *)
Definition reallocarr (realloc_ok : Z → bool) (ptr : option Z) (number size : Z)
    : Z * option Z :=
  if (number =? 0) || (size =? 0) then (0, None)
  else if (SQRT_SIZE_MAX <=? (number .| size)) && (SIZE_MAX / size <? number)
  then (EOVERFLOW, ptr)
  else if realloc_ok (u64 (number * size)) then (0, Some (u64 (number * size)))
  else (ENOMEM, ptr).

(** ** strsuftoll *)

(** The message left in [ebuf]. *)
Inductive suf_error :=
  | RecursionLimit | Range | BadNumber | LessThan (num min : Z) | GreaterThan (num max : Z).

(** The multiplier of a unit letter. *)
Definition suffix_mult (c : Z) : option Z :=
  if c =? ch "b" then Some 512
  else if c =? ch "k" then Some 1024
  else if c =? ch "m" then Some 1048576
  else if c =? ch "g" then Some 1073741824
  else if c =? ch "t" then Some 1099511627776
  else if c =? ch "w" then Some 4
  else None.

(** The first switch: [num] scaled and the string after the letter; the [long
    long] product wraps around. *)
Definition apply_suffix (num : Z) (expr : list Z) : Z * list Z + suf_error :=
  match suffix_mult (peek expr) with
  | Some k => let t := num in
              let num := s64 (num * k) in
              if num <? t then inr Range else inl (num, tl expr)
  | None => inl (num, expr)
  end.

Definition in_range (num min max : Z) : Z + suf_error :=
  if num <? min then inr (LessThan num min)
  else if max <? num then inr (GreaterThan num max)
  else inl num.

(** [levels] is the number of recursion levels left before [depth > 16]. *)
Fixpoint strsuftollx_rec (levels : nat) (val : list Z) (min max : Z) : Z + suf_error :=
  match levels with
  | O => inr RecursionLimit
  | S levels =>
      let val := skip_space val in
      let '(num, expr, errno) := strtoimax val 10 in
      if errno =? ERANGE then inr Range
      else if same_ptr expr val then inr BadNumber
      else
        match apply_suffix num expr with
        | inr e => inr e
        | inl (num, expr) =>
            let c := peek expr in
            if c =? 0 then in_range num min max
            else if (c =? ch "*") || (c =? ch "x") then
              let t := num in
              match strsuftollx_rec levels (tl expr) min max with
              | inr e => inr e
              | inl r => let num := s64 (num * r) in
                         if num <? t then inr Range else in_range num min max
              end
            else inr BadNumber
        end
  end.

Definition strsuftollx (val : list Z) (min max : Z) : Z + suf_error :=
  strsuftollx_rec 17 val min max.

(** [strsuftoll] returns the number or exits with the message. *)
Definition strsuftoll (val : list Z) (min max : Z) : option Z :=
  match strsuftollx val min max with inl n => Some n | inr _ => None end.

(** ** strpct *)

(** The loop that raises [factor] by powers of ten, and its counter [u]. *)
Fixpoint pct_factor (digits : nat) (factor : Z) (u : nat) : Z * nat :=
  match digits with
  | O => (factor, u)
  | S d => if factor <? UINTMAX_MAX / 10 then pct_factor d (factor * 10) (S u)
           else (factor, u)
  end.

(** The digits of a nonnegative integer padded with zeros to [width]. *)
Definition print_padded (width : nat) (v : Z) : list Z :=
  let d := print_uint v in replicate (width - length d) (ch "0") ++ d.

(** The text formatted into the buffer, before [snprintf] truncates it. *)
Definition strpct_text (numerator denominator : Z) (digits : nat) : list Z :=
  let '(factor, u) := pct_factor digits 100 0 in
  let '(numerator, denominator) :=
    if numerator <? UINTMAX_MAX / factor then (u64 (numerator * factor), denominator)
    else (numerator, denominator / factor) in
  let denominator := if denominator =? 0 then 1 else denominator in
  let result := numerator / denominator in
  match digits with
  | O => print_uint result
  | _ => let factor := factor / 100 in
         print_uint (result / factor) ++ [ch "."] ++ print_padded u (result mod factor)
  end.

Definition strpct (bufsiz : nat) (numerator denominator : Z) (digits : nat) : list Z :=
  take (bufsiz - 1) (strpct_text numerator denominator digits).

(** The signs of [strspct]; the negation of INTMAX_MIN wraps to itself and the
    cast to [uintmax_t] reads it as 2^63. *)
Definition strspct (bufsiz : nat) (numerator denominator : Z) (digits : nat) : list Z :=
  match bufsiz with
  | O | 1%nat => []
  | _ =>
      let '(denominator, sign) :=
        if denominator <? 0 then (s64 (- denominator), true) else (denominator, false) in
      let '(numerator, sign) :=
        if numerator <? 0 then (s64 (- numerator), negb sign) else (numerator, sign) in
      if sign
      then ch "-" :: strpct (bufsiz - 1) (u64 numerator) (u64 denominator) digits
      else strpct bufsiz (u64 numerator) (u64 denominator) digits
  end.

(** ** strtonum meets its specification *)

(** What a numeric argument denotes: the whole string must be a decimal number. *)
Definition number_of (s : list Z) : option Z :=
  match strto_scan 10 s with
  | Some (neg, v, []) => Some (if (neg : bool) then - v else v)
  | _ => None
  end.

Definition strtonum_spec (s : list Z) (minval maxval : Z) : Z * errstr :=
  if bool_decide (maxval < minval) then (0, Invalid) else
  match number_of s with
  | None => (0, Invalid)
  | Some v => if v <? minval then (0, TooSmall)
              else if maxval <? v then (0, TooLarge)
              else (v, NoError)
  end.

(** A scan consumes at least one character of the string. *)
Lemma skip_space_suffix s : ∃ d, s = d ++ skip_space s.
Proof.
  induction s as [|c s [d IH]]; simpl; [by exists []|].
  case_match; [|by exists []]. exists (c :: d). simpl. congruence.
Qed.

Lemma strto_sign_suffix s : ∃ d, s = d ++ snd (strto_sign s).
Proof.
  unfold strto_sign. destruct s as [|c s]; [by exists []|].
  repeat case_match; simpl; [by exists [c]|by exists [c]|by exists []].
Qed.

Lemma strto_scan_10 s neg v rest :
  strto_scan 10 s = Some (neg, v, rest) → (∃ c d, s = (c :: d) ++ rest) ∧ 0 <= v.
Proof.
  unfold strto_scan. destruct (skip_space_suffix s) as [d1 H1].
  destruct (strto_sign_suffix (skip_space s)) as [d2 H2].
  destruct (strto_sign (skip_space s)) as [n s1] eqn:Hs.
  rewrite strto_prefix_plain by lia.
  destruct s1 as [|c s1]; [done|]. cbn [peek digits snd] in *.
  destruct (Z.ltb_spec (digit_val c) 10); [|done].
  destruct (digits 10 s1 _) as [v' rest'] eqn:Hdig. intros [= <- <- <-].
  destruct (digits_suffix 10 s1 (0 * 10 + digit_val c)) as [d Hsuf].
  pose proof (digit_val_nonneg c).
  pose proof (digits_mono 10 s1 (0 * 10 + digit_val c) ltac:(lia) ltac:(lia)) as Hm.
  rewrite Hdig in *. cbn [fst snd] in *. split; [|lia].
  destruct (d1 ++ d2 ++ c :: d) as [|c' d'] eqn:E.
  { destruct d1, d2; done. }
  exists c', d'. rewrite <- E, H1, H2, Hsuf, <- !app_assoc. done.
Qed.

Lemma same_ptr_app c d q : same_ptr ((c :: d) ++ q) q = false.
Proof. apply Nat.eqb_neq. rewrite length_app. simpl. lia. Qed.

Lemma same_ptr_refl p : same_ptr p p = true.
Proof. apply Nat.eqb_refl. Qed.

Lemma peek_nul (s : list Z) :
  Forall is_char s → (peek s =? 0) = match s with [] => true | _ => false end.
Proof. destruct 1 as [|c s [Hc _]]; [done|]. simpl. apply Z.eqb_neq. lia. Qed.

(** [strtoi] on a base-10 string, in terms of what the scan reads. *)
Lemma strtoi_scan s lo hi :
  Forall is_char s → INTMAX_MIN <= lo → lo <= hi → hi <= INTMAX_MAX →
  strtoi s 10 lo hi =
    match strto_scan 10 s with
    | None => (if 0 <? lo then lo else if hi <? 0 then hi else 0, s, ECANCELED)
    | Some (neg, v, rest) =>
        let w := if neg then - v else v in
        if w <? lo then (lo, rest, ERANGE)
        else if hi <? w then (hi, rest, ERANGE)
        else (w, rest, match rest with [] => 0 | _ => ENOTSUP end)
    end.
Proof.
  intros Hs Hlo Hlt Hhi. unfold strtoi, strtoimax.
  destruct (strto_scan 10 s) as [[[neg v] rest]|] eqn:Hscan.
  2:{ rewrite same_ptr_refl. cbn. by destruct (0 <? lo), (hi <? 0). }
  apply strto_scan_10 in Hscan as [(c & d & ->) Hv].
  apply Forall_app in Hs as [_ Hrest%peek_nul].
  unfold INTMAX_MIN, INTMAX_MAX in *. cbv zeta. generalize (if neg then - v else v) as w.
  intros w. destruct (Z.ltb_spec w (- 2 ^ 63)); [|destruct (Z.ltb_spec (2 ^ 63 - 1) w)];
    rewrite same_ptr_app, ?andb_false_r, ?Hrest; cbn [andb negb Z.eqb ERANGE].
  - destruct (Z.ltb_spec (- 2 ^ 63) lo), (Z.ltb_spec w lo); try lia; [done|].
    assert (lo = - 2 ^ 63) as -> by lia. by destruct (Z.ltb_spec hi (- 2 ^ 63)); [lia|].
  - destruct (Z.ltb_spec (2 ^ 63 - 1) lo), (Z.ltb_spec w lo); try lia.
    destruct (Z.ltb_spec hi w); [|lia].
    destruct (Z.ltb_spec hi (2 ^ 63 - 1)); [done|].
    assert (hi = 2 ^ 63 - 1) as -> by lia. done.
  - destruct (w <? lo), (hi <? w), rest; done.
Qed.

(** C24.  For bounds within [long long], [strtonum] accepts exactly the decimal numbers
    between them and classifies every other string: values beyond the bounds (also beyond
    64 bits) as too small or too large, everything that is not a number as invalid; and
    everything is invalid when the bounds are the wrong way round.  Left out is a number
    below two equal bounds, which it calls too large ([strtonum_equal_bounds]). *)
Theorem strtonum_correct s minval maxval :
  Forall is_char s → INTMAX_MIN <= minval → maxval <= INTMAX_MAX →
  (minval = maxval → ∀ v, number_of s = Some v → minval <= v) →
  strtonum s minval maxval = Some (strtonum_spec s minval maxval).
Proof.
  intros Hs Hlo Hhi Heq. unfold strtonum, strtonum_spec. unfold number_of in *.
  destruct (Z.ltb_spec maxval minval);
    [by rewrite bool_decide_eq_true_2|rewrite bool_decide_eq_false_2 by lia].
  rewrite strtoi_scan by (done || lia).
  destruct (strto_scan 10 s) as [[[neg v] rest]|] eqn:Hscan; [|done].
  apply strto_scan_10 in Hscan as [(c & d & ->) Hv].
  apply Forall_app in Hs as [_ Hrest%peek_nul]. cbv zeta.
  revert Heq. generalize (if neg then - v else v) as w. intros w Heq.
  destruct rest as [|r rest]; cbn -[Z.ltb Z.eqb];
    destruct (Z.ltb_spec w minval); cbn -[Z.ltb Z.eqb];
    try (destruct (Z.ltb_spec maxval w); cbn -[Z.ltb Z.eqb]);
    rewrite ?Z.eqb_refl; cbn [peek] in Hrest; rewrite ?Hrest; try done; try lia.
  destruct (Z.eqb_spec minval maxval) as [E|]; [|done]. specialize (Heq E w eq_refl). lia.
Qed.

Lemma strtonum_correct_witness :
  Forall is_char (str " -42") ∧ INTMAX_MIN <= -100 ∧ 7 <= INTMAX_MAX ∧
  strtonum (str " -42") (-100) 7 = Some (-42, NoError).
Proof.
  assert (Forall is_char (str " -42")) as H by (repeat constructor).
  split; [exact H|]. split; [discriminate|]. split; [discriminate|].
  exact (strtonum_correct (str " -42") (-100) 7 H ltac:(discriminate) ltac:(discriminate)
    ltac:(discriminate)).
Defined.

(** When both bounds are equal every out-of-range number is called too large,
    also those below the bound. *)
Theorem strtonum_equal_bounds s v b :
  Forall is_char s → number_of s = Some v → INTMAX_MIN <= b <= INTMAX_MAX →
  strtonum s b b = Some (if v =? b then (b, NoError) else (0, TooLarge)).
Proof.
  intros Hs Hn Hb. unfold strtonum. unfold number_of in Hn.
  destruct (Z.ltb_spec b b); [lia|]. rewrite strtoi_scan by (done || lia).
  destruct (strto_scan 10 s) as [[[neg v'] rest]|]; [|done].
  destruct rest; [|done]. injection Hn as ->. cbv zeta.
  destruct (Z.ltb_spec v b); [|destruct (Z.ltb_spec b v)];
    rewrite ?Z.eqb_refl.
  - by destruct (Z.eqb_spec v b); [lia|].
  - by destruct (Z.eqb_spec v b); [lia|].
  - assert (v = b) as -> by lia. by rewrite Z.eqb_refl.
Qed.

Lemma strtonum_equal_bounds_witness :
  Forall is_char (str "1") ∧ number_of (str "1") = Some 1 ∧
  (INTMAX_MIN <= 5 <= INTMAX_MAX) ∧ strtonum (str "1") 5 5 = Some (0, TooLarge).
Proof.
  assert (Forall is_char (str "1")) as H by (repeat constructor).
  assert (INTMAX_MIN <= 5 <= INTMAX_MAX) as H5 by (split; discriminate).
  split; [exact H|]. split; [reflexivity|]. split; [exact H5|].
  exact (strtonum_equal_bounds (str "1") 1 5 H eq_refl H5).
Defined.

(** ** reallocarr *)

(** C11.  The cheap test on the high halves followed by one division is exactly the
    overflow test: a request is refused with EOVERFLOW, keeping the old block,
    if and only if the product does not fit [size_t]; otherwise the block gets
    the exact product, never a wrapped one. *)
Theorem reallocarr_exact realloc_ok ptr number size :
  0 < number <= SIZE_MAX → 0 < size <= SIZE_MAX →
  reallocarr realloc_ok ptr number size =
    if SIZE_MAX <? number * size then (EOVERFLOW, ptr)
    else if realloc_ok (number * size) then (0, Some (number * size)) else (ENOMEM, ptr).
Proof.
  intros Hn Hs. unfold reallocarr.
  destruct (Z.eqb_spec number 0); [lia|]. destruct (Z.eqb_spec size 0); [lia|].
  cbn [orb]. change SQRT_SIZE_MAX with (2 ^ 32).
  assert (((2 ^ 32 <=? (number .| size)) && (SIZE_MAX / size <? number)) =
          (SIZE_MAX <? number * size)) as ->.
  { unfold SIZE_MAX in *.
    assert ((2 ^ 64 - 1) / size < number ↔ 2 ^ 64 - 1 < number * size) as Hdiv.
    { split; intros H.
      - pose proof (Z.mul_succ_div_gt (2 ^ 64 - 1) size). nia.
      - apply Z.div_lt_upper_bound; nia. }
    destruct (Z.leb_spec (2 ^ 32) (number .| size)) as [|Hlow]; cbn [andb].
    { destruct (Z.ltb_spec ((2 ^ 64 - 1) / size) number),
        (Z.ltb_spec (2 ^ 64 - 1) (number * size)); try done; lia. }
    assert (number < 2 ^ 32 ∧ size < 2 ^ 32) as [? ?].
    { assert (∀ a b, 0 <= a → 0 <= b → a <= (a .| b)) as Hle.
      { intros a b Ha Hb. apply Z.ldiff_le; [by apply Z.lor_nonneg|].
        apply Z.bits_inj'. intros k Hk. rewrite Z.ldiff_spec, Z.lor_spec, Z.bits_0.
        by destruct (Z.testbit a k), (Z.testbit b k). }
      pose proof (Hle number size). pose proof (Hle size number).
      rewrite (Z.lor_comm size) in *. lia. }
    symmetry. apply Z.ltb_ge. nia. }
  destruct (Z.ltb_spec SIZE_MAX (number * size)); [done|].
  rewrite u64_small; [done|]. unfold SIZE_MAX in *. nia.
Qed.

Lemma reallocarr_exact_witness :
  (0 < 0x100000000 <= SIZE_MAX) ∧ (0 < 0x100000000 <= SIZE_MAX) ∧
  reallocarr (λ _, true) (Some 8) 0x100000000 0x100000000 = (EOVERFLOW, Some 8) ∧
  reallocarr (λ _, true) (Some 8) 0x100000000 0xFFFFFFFF = (0, Some 0xFFFFFFFF00000000).
Proof.
  assert (0 < 0x100000000 <= SIZE_MAX) as H by (split; [reflexivity|discriminate]).
  assert (0 < 0xFFFFFFFF <= SIZE_MAX) as H' by (split; [reflexivity|discriminate]).
  split; [exact H|]. split; [exact H|].
  split; [rewrite (reallocarr_exact _ _ _ _ H H)|rewrite (reallocarr_exact _ _ _ _ H H')];
    reflexivity.
Defined.

(** ** strsuftoll *)

(** The expressions of the manual: factors joined by [x], each a nonempty string
    of decimal digits with an optional unit letter. *)
Record factor := mkFactor { f_digits : list Z; f_suffix : option (Z * Z) }.

Definition factor_mult (f : factor) : Z :=
  match f_suffix f with Some (_, k) => k | None => 1 end.
Definition factor_value (f : factor) : Z :=
  digits_value 10 (f_digits f) * factor_mult f.
Definition print_factor (f : factor) : list Z :=
  f_digits f ++ match f_suffix f with Some (c, _) => [c] | None => [] end.

Definition factor_ok (f : factor) : Prop :=
  f_digits f ≠ [] ∧ Forall (λ c, isdigit c = true) (f_digits f) ∧
  match f_suffix f with Some (c, k) => suffix_mult c = Some k | None => True end.

Fixpoint print_product (f : factor) (fs : list factor) : list Z :=
  match fs with
  | [] => print_factor f
  | f' :: fs => print_factor f ++ [ch "x"] ++ print_product f' fs
  end.

Fixpoint product (f : factor) (fs : list factor) : Z :=
  match fs with
  | [] => factor_value f
  | f' :: fs => factor_value f * product f' fs
  end.

(** Every product of a suffix of the factors lies within the bounds, and no factor
    is zero: the code checks both for each of its recursive calls. *)
Fixpoint product_ok (min max : Z) (f : factor) (fs : list factor) : Prop :=
  0 < factor_value f ∧ min <= product f fs <= max ∧
  match fs with [] => True | f' :: fs => product_ok min max f' fs end.

Lemma suffix_mult_props c k :
  suffix_mult c = Some k →
  1 <= k <= 2 ^ 40 ∧ 10 <= digit_val c ∧ c ≠ 0 ∧ c ≠ ch "x" ∧ c ≠ ch "*" ∧ isspace c = false.
Proof.
  unfold suffix_mult. intros H. Zcases; subst; simplify_eq;
    (split; [lia|]; split; [vm_compute; discriminate|]; done).
Qed.

Lemma decimal_first c : isdigit c = true → isspace c = false ∧ c ≠ ch "-" ∧ c ≠ ch "+" ∧ c ≠ 0.
Proof.
  intros ?%isdigit_range. split; [|lia]. unfold isspace. Zcases; simpl; lia.
Qed.

Lemma suf_stop rest :
  (∃ c, rest = [] ∨ ∃ p, rest = c :: p ∧ 10 <= digit_val c) → 
  rest = [] ∨ 10 <= digit_val (peek rest).
Proof. intros (c & [->|(p & -> & ?)]); [by left|by right]. Qed.

(** [strtoll] reads a nonempty run of decimal digits in front of any character
    that is no digit. *)
Lemma strtoimax_decimal ds rest :
  ds ≠ [] → Forall (λ c, isdigit c = true) ds →
  (rest = [] ∨ 10 <= digit_val (peek rest)) → digits_value 10 ds <= INTMAX_MAX →
  skip_space (ds ++ rest) = ds ++ rest ∧
  strtoimax (ds ++ rest) 10 = (digits_value 10 ds, rest, 0).
Proof.
  intros Hne Hds Hrest Hmax. destruct ds as [|c ds]; [done|].
  assert (isdigit c = true) as Hc by by inversion Hds.
  destruct (decimal_first c Hc) as (Hsp & Hm & Hp & _).
  assert (Forall (λ c, digit_val c < 10) (c :: ds)) as Hval.
  { eapply Forall_impl; [exact Hds|]. intros x Hx. rewrite digit_val_digit by done.
    apply isdigit_range in Hx. lia. }
  assert (skip_space ((c :: ds) ++ rest) = (c :: ds) ++ rest) as Hskip
    by (simpl; by rewrite Hsp).
  split; [done|]. unfold strtoimax, strto_scan. rewrite Hskip.
  assert (strto_sign ((c :: ds) ++ rest) = (false, (c :: ds) ++ rest)) as ->.
  { simpl. apply Z.eqb_neq in Hm, Hp. by rewrite Hm, Hp. }
  rewrite strto_prefix_plain by lia.
  assert (digit_val (peek ((c :: ds) ++ rest)) < 10) as Hlt by by inversion Hval.
  apply Z.ltb_lt in Hlt. rewrite Hlt.
  rewrite digits_value_all by done.
  pose proof (digits_value_nonneg 10 (c :: ds) ltac:(lia)) as Hnn.
  unfold INTMAX_MIN, INTMAX_MAX in *.
  destruct (Z.ltb_spec (digits_value 10 (c :: ds)) (- 2 ^ 63)); [lia|].
  by destruct (Z.ltb_spec (2 ^ 63 - 1) (digits_value 10 (c :: ds))); [lia|].
Qed.

(** One factor: its value, when it fits, and what follows it. *)
Lemma factor_spec f rest :
  factor_ok f → (rest = [] ∨ ∃ p, rest = ch "x" :: p) → 0 < factor_value f <= INTMAX_MAX →
  let val := print_factor f ++ rest in
  skip_space val = val ∧
  ∃ num expr, strtoimax val 10 = (num, expr, 0) ∧ same_ptr expr val = false ∧
    apply_suffix num expr = inl (factor_value f, rest).
Proof.
  intros (Hne & Hds & Hsuf) Hrest Hv val. subst val. unfold print_factor, factor_value, factor_mult in *.
  pose proof (digits_value_nonneg 10 (f_digits f) ltac:(lia)) as Hnn.
  assert (Hstop : ∀ ex, ex = match f_suffix f with Some (c, _) => [c] | None => [] end ++ rest →
    ex = [] ∨ 10 <= digit_val (peek ex)).
  { intros ex ->. destruct (f_suffix f) as [[c k]|]; simpl.
    - right. by apply suffix_mult_props in Hsuf as (? & ? & _).
    - destruct Hrest as [->|[p ->]]; [by left|right; vm_compute; discriminate]. }
  rewrite <- app_assoc.
  destruct (strtoimax_decimal (f_digits f)
    (match f_suffix f with Some (c, _) => [c] | None => [] end ++ rest)) as [Hskip Hs];
    [done|done|by apply Hstop| |].
  { destruct (f_suffix f) as [[c k]|]; [|lia].
    apply suffix_mult_props in Hsuf as (? & _). nia. }
  split; [done|]. do 2 eexists. split; [exact Hs|]. split.
  { destruct (f_digits f) as [|c ds]; [done|].
    unfold same_ptr. rewrite Nat.eqb_sym. exact (same_ptr_app c ds _). }
  unfold apply_suffix. destruct (f_suffix f) as [[c k]|]; simpl.
  - rewrite Hsuf. apply suffix_mult_props in Hsuf as (? & _).
    unfold INTMAX_MAX in *. rewrite s64_small by nia.
    destruct (Z.ltb_spec (digits_value 10 (f_digits f) * k) (digits_value 10 (f_digits f))); [nia|done].
  - rewrite Z.mul_1_r. by destruct Hrest as [->|[p ->]].
Qed.

Lemma product_pos min max f fs : product_ok min max f fs → 0 < product f fs.
Proof.
  revert f. induction fs as [|f' fs IH]; intros f (? & _ & H); simpl; [done|].
  specialize (IH f' H). nia.
Qed.

(** A product of at most seventeen scaled factors, none of them zero, whose
    partial products all lie within the bounds, converts to its value. *)
Theorem strsuftollx_product f fs min max :
  (length fs < 17)%nat → Forall factor_ok (f :: fs) → max <= INTMAX_MAX →
  product_ok min max f fs →
  strsuftollx (print_product f fs) min max = inl (product f fs).
Proof.
  unfold strsuftollx. intros Hlen Hok Hmax. revert Hlen f Hok. generalize 17%nat as levels.
  induction fs as [|f' fs IH]; intros levels Hlen f Hok Hprod;
    (destruct levels as [|levels]; [simpl in Hlen; lia|]);
    pose proof (Forall_inv Hok) as Hf; destruct Hprod as (Hpos & Hrange & Hrest);
    cbn [print_product product strsuftollx_rec] in *.
  - destruct (factor_spec f []) as (Hskip & num & expr & Hs & Hptr & Hsuf); [done|by left|lia|].
    rewrite app_nil_r in *. rewrite Hskip, Hs, Hptr. cbn -[apply_suffix in_range].
    rewrite Hsuf. cbn. unfold in_range.
    destruct (Z.ltb_spec (factor_value f) min); [lia|].
    by destruct (Z.ltb_spec max (factor_value f)); [lia|].
  - pose proof (product_pos _ _ _ _ Hrest) as Hpp.
    destruct (factor_spec f ([ch "x"] ++ print_product f' fs))
      as (Hskip & num & expr & Hs & Hptr & Hsuf); [done|right; by eexists|nia|].
    rewrite Hskip, Hs, Hptr. cbn -[apply_suffix in_range strsuftollx_rec].
    rewrite Hsuf. cbn -[in_range strsuftollx_rec].
    rewrite IH; [|simpl in Hlen; lia|by inversion Hok|done].
    unfold INTMAX_MAX in *. rewrite s64_small by nia. unfold in_range.
    destruct (Z.ltb_spec (factor_value f * product f' fs) (factor_value f)); [nia|].
    destruct (Z.ltb_spec (factor_value f * product f' fs) min); [lia|].
    by destruct (Z.ltb_spec max (factor_value f * product f' fs)); [lia|].
Qed.

Lemma strsuftollx_product_witness :
  strsuftollx (str "3x2kx4b") 1 0x100000000 = inl 12582912.
Proof.
  refine (strsuftollx_product (mkFactor (str "3") None)
    [mkFactor (str "2") (Some (ch "k", 1024)); mkFactor (str "4") (Some (ch "b", 512))]
    1 0x100000000 _ _ _ _).
  - simpl. lia.
  - repeat constructor; discriminate.
  - discriminate.
  - repeat split; discriminate.
Defined.

(** The overflow test after a scaling only compares the wrapped product with the
    number before it, so some overflows go unnoticed: this count of kibibytes is
    more than 2^64 bytes and is accepted as 2^60; and a product with zero or a
    scaled negative number is called an overflow although it fits. *)
Theorem strsuftollx_overflow_check :
  strsuftollx (str "19140298416324608k") 0 INTMAX_MAX = inl (2 ^ 60) ∧
  19140298416324608 * 1024 = 2 ^ 64 + 2 ^ 60 ∧
  strsuftollx (str "5x0") 0 INTMAX_MAX = inr Range ∧
  strsuftollx (str "-1k") INTMAX_MIN INTMAX_MAX = inr Range.
Proof. vm_compute. auto. Qed.

(** ** strpct *)

Lemma pct_factor_exact digits factor u :
  0 < factor → factor * 10 ^ Z.of_nat digits <= UINTMAX_MAX - 10 →
  pct_factor digits factor u = (factor * 10 ^ Z.of_nat digits, (u + digits)%nat).
Proof.
  revert factor u.
  induction digits as [|d IH]; intros factor u Hpos Hle; cbn [pct_factor].
  { rewrite Z.mul_1_r, Nat.add_0_r. done. }
  rewrite Nat2Z.inj_succ, Z.pow_succ_r in * by lia.
  assert (1 <= 10 ^ Z.of_nat d) by (pose proof (Z.pow_pos_nonneg 10 (Z.of_nat d)); lia).
  destruct (Z.ltb_spec factor (UINTMAX_MAX / 10)) as [|Hge].
  - rewrite IH by nia. apply pair_equal_spec. split; [nia|lia].
  - change (UINTMAX_MAX / 10) with 1844674407370955161 in Hge.
    unfold UINTMAX_MAX in *. nia.
Qed.

(** The exact fixed-point percentage: floor(100 * n * 10^digits / d), printed with
    [digits] decimals. *)
Definition percentage (n d : Z) (digits : nat) : list Z :=
  let q := n * 100 * 10 ^ Z.of_nat digits / d in
  match digits with
  | O => print_uint q
  | _ => print_uint (q / 10 ^ Z.of_nat digits) ++ [ch "."]
         ++ print_padded digits (q mod 10 ^ Z.of_nat digits)
  end.

(** As long as the scaled numerator fits 64 bits [strpct] prints the exact
    percentage, truncated towards zero at the requested digit. *)
Theorem strpct_exact bufsiz n d digits :
  0 <= n → 0 < d → (digits <= 15)%nat →
  n < UINTMAX_MAX / (100 * 10 ^ Z.of_nat digits) →
  strpct bufsiz n d digits = take (bufsiz - 1) (percentage n d digits).
Proof.
  intros Hn Hd Hdig Hfit. unfold strpct, strpct_text, percentage. f_equal.
  assert (0 < 10 ^ Z.of_nat digits <= 10 ^ 15) as Hpow.
  { split; [apply Z.pow_pos_nonneg; lia|apply Z.pow_le_mono_r; lia]. }
  rewrite pct_factor_exact by (unfold UINTMAX_MAX; lia).
  set (p := 10 ^ Z.of_nat digits) in *. apply Z.ltb_lt in Hfit as Hfit'. rewrite Hfit'.
  rewrite u64_small.
  2:{ split; [nia|]. pose proof (Z.mul_div_le UINTMAX_MAX (100 * p)). unfold UINTMAX_MAX in *. nia. }
  destruct (Z.eqb_spec d 0); [lia|]. rewrite Z.mul_assoc.
  destruct digits as [|digits]; [done|].
  replace (100 * p / 100) with p by (rewrite Z.mul_comm, Z.div_mul; lia). done.
Qed.

Lemma strpct_exact_witness :
  strpct 20 1 3 2 = str "33.33" ∧ strpct 20 1 3 2 = take 19 (percentage 1 3 2).
Proof.
  split; [vm_compute; reflexivity|]. apply (strpct_exact 20 1 3 2); vm_compute; congruence || lia.
Defined.

(** [strspct] prints a minus sign exactly when one of the two arguments is
    negative, also for a zero numerator, followed by the percentage of the
    magnitudes in the rest of the buffer. *)
Theorem strspct_sign bufsiz n d digits :
  (2 <= bufsiz)%nat → INTMAX_MIN <= n <= INTMAX_MAX → INTMAX_MIN <= d <= INTMAX_MAX →
  strspct bufsiz n d digits =
    if xorb (n <? 0) (d <? 0)
    then ch "-" :: strpct (bufsiz - 1) (Z.abs n) (Z.abs d) digits
    else strpct bufsiz (Z.abs n) (Z.abs d) digits.
Proof.
  intros Hb Hn Hd. unfold strspct. destruct bufsiz as [|[|b]]; [lia|lia|].
  assert (∀ z, INTMAX_MIN <= z <= INTMAX_MAX →
    u64 (if z <? 0 then s64 (- z) else z) = Z.abs z) as Habs.
  { unfold INTMAX_MIN, INTMAX_MAX. intros z Hz. destruct (Z.ltb_spec z 0).
    - rewrite Z.abs_neq by lia. destruct (decide (z = - 2 ^ 63)) as [->|]; [done|].
      rewrite s64_small, u64_small by lia. done.
    - rewrite Z.abs_eq by lia. apply u64_small. lia. }
  rewrite <- (Habs n Hn), <- (Habs d Hd).
  by destruct (d <? 0), (n <? 0).
Qed.

Lemma strspct_sign_witness :
  strspct 20 (-1) 4 0 = str "-25" ∧
  strspct 20 (-1) 4 0 = ch "-" :: strpct 19 1 4 0.
Proof.
  split; [vm_compute; reflexivity|].
  apply (strspct_sign 20 (-1) 4 0); [lia|split; discriminate|split; discriminate].
Defined.
