(* ===== verification/Humanize.v ===== *)
(** * humanize_number: lib/netbsd/humanize_number.c

    Byte counts for people: the scaling, the rounding, the fit into the caller's
    buffer.  Signed overflow is undefined in C, so it is a [Fault] here. *)

From S2P Require Import Prelude Libc.

(** ** The flags (include/netbsd/stdlib.h) *)

Definition HN_DECIMAL : Z := 0x01.
Definition HN_NOSPACE : Z := 0x02.
Definition HN_B : Z := 0x04.
Definition HN_DIVISOR_1000 : Z := 0x08.
Definition HN_GETSCALE : Z := 0x10.
Definition HN_AUTOSCALE : Z := 0x20.

Definition INT64_MAX : Z := 2 ^ 63 - 1.
Definition INT64_MIN : Z := - 2 ^ 63.
Definition maxscale : nat := 6.

(** The result of an [int64_t] operation. *)
Definition i64 (z : Z) : res Z :=
  if (INT64_MIN <=? z) && (z <=? INT64_MAX) then Ok z else Fault.

(** ** The steps of humanize_number *)

Definition hn_divisor (flags : Z) : Z := if has flags HN_DIVISOR_1000 then 1000 else 1024.

(** The string literals; each prefix is followed by its NUL. *)
Definition hn_prefixes (flags : Z) : list Z :=
  if has flags HN_DIVISOR_1000 then
    if has flags HN_B
    then [ch "B"; 0; ch "k"; 0; ch "M"; 0; ch "G"; 0; ch "T"; 0; ch "P"; 0; ch "E"; 0]
    else [0; 0; ch "k"; 0; ch "M"; 0; ch "G"; 0; ch "T"; 0; ch "P"; 0; ch "E"; 0]
  else
    if has flags HN_B
    then [ch "B"; 0; ch "K"; 0; ch "M"; 0; ch "G"; 0; ch "T"; 0; ch "P"; 0; ch "E"; 0]
    else [0; 0; ch "K"; 0; ch "M"; 0; ch "G"; 0; ch "T"; 0; ch "P"; 0; ch "E"; 0].

Definition SCALE2PREFIX (flags : Z) (scale : nat) : list Z :=
  cstr (drop (2 * scale) (hn_prefixes flags)).

(** The sign, the magnitude in hundredths where it fits, [post] and [baselen]. *)
Definition hn_sign (bytes : Z) : res (Z * Z * Z * Z) :=
  if bytes <? 0 then
    let* minus := i64 (- bytes) in
    if minus <? Z.quot INT64_MAX 100
    then let* bytes := i64 (bytes * -100) in Ok (-1, bytes, 1, 3)
    else Ok (-1, minus, 100, 3 + 2)
  else
    if bytes <? Z.quot INT64_MAX 100
    then let* bytes := i64 (bytes * 100) in Ok (1, bytes, 1, 2)
    else Ok (1, bytes, 100, 2 + 2).

(** [for (max = 100, i = len - baselen; i-- > 0;) max *= 10;] *)
Fixpoint hn_max (i : nat) (max : Z) : res Z :=
  match i with
  | O => Ok max
  | S i => let* max := i64 (max * 10) in hn_max i max
  end.

(** [for (i = 0; bytes >= max - 50 && i < maxscale; i++) bytes /= divisor;] with
    [n] the scales left below [maxscale]. *)
Fixpoint hn_divide (n i : nat) (bytes max divisor : Z) : Z * nat :=
  match n with
  | O => (bytes, i)
  | S n => if max - 50 <=? bytes then hn_divide n (S i) (Z.quot bytes divisor) max divisor
           else (bytes, i)
  end.

Definition hn_autoscale (room bytes divisor : Z) : res (Z * nat) :=
  if 19 <? room then Ok (bytes, O)
  else let* max := hn_max (Z.to_nat room) 100 in
       Ok (hn_divide maxscale 0 bytes max divisor).

(** [for (i = 0; i < scale && i < maxscale; i++) bytes /= divisor;] *)
Fixpoint hn_fixed (i : nat) (bytes divisor : Z) : Z :=
  match i with O => bytes | S i => hn_fixed i (Z.quot bytes divisor) divisor end.

Section humanize.
(** [localeconv()->decimal_point]. *)
Context (decimal_point : list Z).

(** The text formatted into the buffer; [None] when there is no room for the
    decimal. *)
Definition hn_text (len bytes sign post baselen : Z) (i : nat) (sep suffix : list Z)
    (flags : Z) : res (option (list Z)) :=
  match i with
  | O => let bytes := if post =? 1 then Z.quot bytes 100 else bytes in
         let* v := i64 (sign * bytes) in
         Ok (Some (print_int v ++ sep ++ SCALE2PREFIX flags 0 ++ suffix))
  | _ =>
      let* bytes := i64 (bytes * post) in
      if (bytes <? 995) && has flags HN_DECIMAL then
        if len <? baselen + 1 + 1 + Z.of_nat (length decimal_point) then Ok None
        else let b := Z.quot (bytes + 5) 10 in
             let s1 := Z.quot b 10 in
             let s2 := Z.rem b 10 in
             Ok (Some (print_int (sign * s1) ++ decimal_point ++ print_int s2
                       ++ sep ++ SCALE2PREFIX flags i ++ suffix))
      else let* b := i64 (bytes + 50) in
           Ok (Some (print_int (sign * Z.quot b 100)
                     ++ sep ++ SCALE2PREFIX flags i ++ suffix))
  end.

(** The end of the function: the text goes to the buffer. *)
Definition hn_print (buf : list Z) (len bytes sign post baselen : Z) (i : nat)
    (sep suffix : list Z) (flags : Z) : res (Z * option (list Z)) :=
  let* text := hn_text len bytes sign post baselen i sep suffix flags in
  match text with
  | None => Ok (-1, Some buf)
  | Some text =>
      let* buf := snprintf buf len text in
      let r := Z.of_nat (length text) in
      Ok (if len <? r then -1 else r, Some buf)
  end.

(** [buf] of [None] is the null pointer.  The result is the value returned and the
    buffer. *)
Definition humanize_number (buf : option (list Z)) (len bytes : Z)
    (suffix : option (list Z)) (scale flags : Z) : res (Z * option (list Z)) :=
  let suffix := default [] suffix in
  let divisor := hn_divisor flags in
  let auto := has scale (HN_AUTOSCALE .| HN_GETSCALE) in
  if (scale <? 0) || ((Z.of_nat maxscale <? scale) && negb auto) then Ok (-1, buf) else
  match buf with
  | None => Ok (-1, None)
  | Some buf =>
      let* buf := if 0 <? len then match buf with [] => Fault | _ :: buf => Ok (0 :: buf) end
                  else Ok buf in
      let* (sign, bytes, post, baselen) := hn_sign bytes in
      let '(sep, baselen) := if has flags HN_NOSPACE then ([], baselen)
                             else ([ch " "], baselen + 1) in
      let baselen := baselen + Z.of_nat (length suffix) in
      if len <? baselen + 1 then Ok (-1, Some buf) else
      let* (bytes, i) := if auto then hn_autoscale (len - baselen) bytes divisor
                          else Ok (hn_fixed (Z.to_nat scale) bytes divisor, Z.to_nat scale) in
      if auto && has scale HN_GETSCALE then Ok (Z.of_nat i, Some buf) else
      hn_print buf len bytes sign post baselen i sep suffix flags
  end.

End humanize.

(** ** What the numbers mean

    [hn_round m d k] is m/d^k rounded to the nearest integer, halves up;
    [hn_tenths] is the same in tenths. *)
Definition hn_round (m d : Z) (k : nat) : Z :=
  (2 * m + d ^ Z.of_nat k) / (2 * d ^ Z.of_nat k).
Definition hn_tenths (m d : Z) (k : nat) : Z :=
  (20 * m + d ^ Z.of_nat k) / (2 * d ^ Z.of_nat k).

(** A minus sign for a negative count, unless the rounded value is zero. *)
Definition hn_minus (bytes rounded : Z) : list Z :=
  if (bytes <? 0) && (0 <? rounded) then [ch "-"] else [].

(** The number for [bytes] at scale [k]: the count itself at scale 0, otherwise
    tenths where [HN_DECIMAL] asks for them and the rounded value is below 10,
    otherwise whole units. *)
Definition hn_number (decimal_point : list Z) (bytes : Z) (k : nat) (flags : Z) : list Z :=
  let tenths := hn_tenths (Z.abs bytes) (hn_divisor flags) k in
  let units := hn_round (Z.abs bytes) (hn_divisor flags) k in
  if (k =? 0)%nat then hn_minus bytes (Z.abs bytes) ++ print_uint (Z.abs bytes)
  else if has flags HN_DECIMAL && (tenths <? 100)
  then hn_minus bytes tenths ++ print_uint (tenths / 10) ++ decimal_point
       ++ print_uint (tenths mod 10)
  else hn_minus bytes units ++ print_uint units.

(** The prefixes of humanize_number(3): none or B for the unit, k or K for the first
    power as the divisor is 1000 or 1024, then M, G, T, P and E. *)
Definition hn_prefix (flags : Z) (k : nat) : list Z :=
  match k with
  | O => if has flags HN_B then str "B" else []
  | 1%nat => if has flags HN_DIVISOR_1000 then str "k" else str "K"
  | 2%nat => str "M"
  | 3%nat => str "G"
  | 4%nat => str "T"
  | 5%nat => str "P"
  | _ => str "E"
  end.

Definition hn_sep (flags : Z) : list Z := if has flags HN_NOSPACE then [] else [ch " "].

Definition hn_spec (decimal_point : list Z) (bytes : Z) (suffix : list Z) (k : nat)
    (flags : Z) : list Z :=
  hn_number decimal_point bytes k flags ++ hn_sep flags ++ hn_prefix flags k ++ suffix.

(** A negative count whose tenths print with the integer part 0 and are not zero:
    the code prints the sign with the integer part and loses it there. *)
Definition hn_loses_sign (bytes : Z) (k : nat) (flags : Z) : bool :=
  (bytes <? 0) && negb (k =? 0)%nat && has flags HN_DECIMAL
  && (0 <? hn_tenths (Z.abs bytes) (hn_divisor flags) k)
  && (hn_tenths (Z.abs bytes) (hn_divisor flags) k <? 10).

(** What the code puts before the separator: the sign goes with the integer part. *)
Definition hn_printed (decimal_point : list Z) (bytes : Z) (k : nat) (flags : Z) : list Z :=
  let d := hn_divisor flags in
  let m := Z.abs bytes in
  let s := if bytes <? 0 then -1 else 1 in
  match k with
  | O => print_int bytes
  | _ => if (hn_tenths m d k <? 100) && has flags HN_DECIMAL
         then print_int (s * (hn_tenths m d k / 10)) ++ decimal_point
              ++ print_int (hn_tenths m d k mod 10)
         else print_int (s * hn_round m d k)
  end.

Definition hn_output (decimal_point : list Z) (bytes : Z) (suffix : list Z) (k : nat)
    (flags : Z) : list Z :=
  hn_printed decimal_point bytes k flags ++ hn_sep flags ++ SCALE2PREFIX flags k ++ suffix.

(** The columns the code reserves: sign, digit, prefix, separator and suffix. *)
Definition hn_base (bytes : Z) (suffix : list Z) (flags : Z) : Z :=
  (if bytes <? 0 then 3 else 2) + Z.of_nat (length (hn_sep flags)) + Z.of_nat (length suffix).

(** Counts small enough for hundredths to fit [int64_t]. *)
Definition hn_small (bytes : Z) : Prop := Z.abs bytes < INT64_MAX / 100.

(** *** Arithmetic *)

Lemma i64_ok z : INT64_MIN <= z <= INT64_MAX → i64 z = Ok z.
Proof. intros ?. unfold i64. Zcases; simpl; try done; lia. Qed.

Lemma hn_divisor_pos flags : 1000 <= hn_divisor flags.
Proof. unfold hn_divisor. case_match; lia. Qed.

Lemma hn_pow_ge flags (k : nat) : 1000 ^ Z.of_nat k <= hn_divisor flags ^ Z.of_nat k.
Proof. apply Z.pow_le_mono_l. pose proof (hn_divisor_pos flags). lia. Qed.

Lemma hn_pow_pos flags (k : nat) : 0 < hn_divisor flags ^ Z.of_nat k.
Proof. pose proof (hn_divisor_pos flags). apply Z.pow_pos_nonneg; lia. Qed.

Lemma div_pow_succ b d (k : nat) :
  0 < d → b / d / d ^ Z.of_nat k = b / d ^ Z.of_nat (S k).
Proof.
  intros Hd. rewrite Nat2Z.inj_succ, Z.pow_succ_r by lia.
  apply Z.div_div; [lia|]. apply Z.pow_pos_nonneg; lia.
Qed.

Lemma hn_fixed_div k b d : 0 <= b → 0 < d → hn_fixed k b d = b / d ^ Z.of_nat k.
Proof.
  intros Hb Hd. revert b Hb. induction k as [|k IH]; intros b Hb.
  - simpl. by rewrite Z.div_1_r.
  - cbn [hn_fixed]. rewrite Z.quot_div_nonneg by lia.
    rewrite IH by (apply Z.div_pos; lia). by apply div_pow_succ.
Qed.

Lemma div_plus_div x y D c : 0 < D → 0 < c → (x / D + y) / c = (x + y * D) / (c * D).
Proof.
  intros HD Hc. rewrite <- (Z.div_add x y D) by lia.
  rewrite Z.div_div by lia. by rewrite (Z.mul_comm D c).
Qed.

Lemma div_cancel a x y : 0 < a → 0 < y → (a * x) / (a * y) = x / y.
Proof. intros. apply Z.div_mul_cancel_l; lia. Qed.

Lemma round_floor m d (k : nat) :
  0 < d → (100 * m / d ^ Z.of_nat k + 50) / 100 = hn_round m d k.
Proof.
  intros Hd. assert (0 < d ^ Z.of_nat k) by (apply Z.pow_pos_nonneg; lia).
  unfold hn_round. rewrite div_plus_div by lia.
  rewrite <- (div_cancel 50 (2 * m + _)) by lia. f_equal; lia.
Qed.

Lemma tenths_floor m d (k : nat) :
  0 < d → (100 * m / d ^ Z.of_nat k + 5) / 10 = hn_tenths m d k.
Proof.
  intros Hd. assert (0 < d ^ Z.of_nat k) by (apply Z.pow_pos_nonneg; lia).
  unfold hn_tenths. rewrite div_plus_div by lia.
  rewrite <- (div_cancel 5 (20 * m + _)) by lia. f_equal; lia.
Qed.

Lemma tenths_995 m d (k : nat) :
  0 < d → (100 * m / d ^ Z.of_nat k <? 995) = (hn_tenths m d k <? 100).
Proof.
  intros Hd. assert (0 < d ^ Z.of_nat k) as HD by (apply Z.pow_pos_nonneg; lia).
  unfold hn_tenths. set (D := d ^ Z.of_nat k) in *.
  apply eq_true_iff_eq. rewrite !Z.ltb_lt. split; intros H.
  - apply Z.div_lt_upper_bound; [lia|].
    pose proof (Z.mul_succ_div_gt (100 * m) D HD). nia.
  - apply Z.div_lt_upper_bound; [lia|].
    pose proof (Z.mul_succ_div_gt (20 * m + D) (2 * D) ltac:(lia)). nia.
Qed.

(** Where no sign is lost the code's text is the one specified. *)
Lemma print_int_signed bytes v :
  0 <= v → print_int ((if bytes <? 0 then -1 else 1) * v) = hn_minus bytes v ++ print_uint v.
Proof.
  intros Hv. unfold print_int, hn_minus.
  destruct (bytes <? 0); cbn [andb]; destruct (Z.ltb_spec 0 v);
    match goal with |- context [?x <? 0] => destruct (Z.ltb_spec x 0); [|] end; try lia;
    cbn [app]; repeat f_equal; lia.
Qed.

Lemma hn_tenths_nonneg m flags k : 0 <= m → 0 <= hn_tenths m (hn_divisor flags) k.
Proof.
  intros. pose proof (hn_pow_pos flags k). unfold hn_tenths. apply Z.div_pos; lia.
Qed.

Lemma hn_round_nonneg m flags k : 0 <= m → 0 <= hn_round m (hn_divisor flags) k.
Proof.
  intros. pose proof (hn_pow_pos flags k). unfold hn_round. apply Z.div_pos; lia.
Qed.

Lemma SCALE2PREFIX_prefix flags k : (k <= 6)%nat → SCALE2PREFIX flags k = hn_prefix flags k.
Proof.
  intros Hk. unfold SCALE2PREFIX, hn_prefixes.
  do 7 (destruct k as [|k]; [simpl; repeat case_match; reflexivity|]). lia.
Qed.

Lemma hn_output_spec dp bytes suffix k flags :
  (k <= 6)%nat → hn_loses_sign bytes k flags = false →
  hn_output dp bytes suffix k flags = hn_spec dp bytes suffix k flags.
Proof.
  intros Hk Hsign. unfold hn_output, hn_spec. rewrite SCALE2PREFIX_prefix by done. f_equal.
  pose proof (hn_tenths_nonneg (Z.abs bytes) flags k ltac:(lia)) as Ht0.
  pose proof (hn_round_nonneg (Z.abs bytes) flags k ltac:(lia)) as Hr0.
  unfold hn_printed, hn_number, hn_loses_sign in *.
  destruct k as [|k]; cbn [Nat.eqb negb] in *.
  - rewrite <- print_int_signed by lia. f_equal. destruct (Z.ltb_spec bytes 0); lia.
  - rewrite (andb_comm (_ <? 100)), andb_true_r in *.
    set (t := hn_tenths _ _ _) in *. destruct (has flags HN_DECIMAL); cbn [andb];
      [|by apply print_int_signed].
    destruct (Z.ltb_spec t 100); [|by apply print_int_signed].
    pose proof (Z.div_pos t 10). pose proof (Z.mod_pos_bound t 10).
    rewrite print_int_signed, <- app_assoc by lia. f_equal.
    + unfold hn_minus. destruct (bytes <? 0); [|done]. cbn [andb] in *.
      destruct (Z.ltb_spec 0 t); [|by assert (t = 0) as -> by lia]. cbn [andb] in Hsign.
      destruct (Z.ltb_spec t 10); [done|].
      destruct (Z.ltb_spec 0 (t / 10)); [done|].
      pose proof (Z.div_le_lower_bound t 10 1). lia.
    + f_equal. f_equal. unfold print_int. destruct (Z.ltb_spec (t mod 10) 0); [lia|done].
Qed.

(** [hn_sign] on counts whose hundredths fit. *)
Lemma hn_sign_small bytes :
  hn_small bytes →
  hn_sign bytes = Ok (if bytes <? 0 then -1 else 1, 100 * Z.abs bytes, 1,
                      if bytes <? 0 then 3 else 2).
Proof.
  unfold hn_small, hn_sign. intros H.
  change (Z.quot INT64_MAX 100) with (INT64_MAX / 100).
  assert (INT64_MAX / 100 = 92233720368547758) as E by reflexivity. rewrite E in *.
  assert (INT64_MAX = 9223372036854775807) as E1 by reflexivity.
  assert (INT64_MIN = -9223372036854775808) as E2 by reflexivity.
  destruct (Z.ltb_spec bytes 0).
  - rewrite i64_ok by lia. cbn [res_bind]. destruct (Z.ltb_spec (- bytes) 92233720368547758); [|lia].
    rewrite i64_ok by lia. cbn [res_bind]. by replace (bytes * -100) with (100 * Z.abs bytes) by lia.
  - destruct (Z.ltb_spec bytes 92233720368547758); [|lia].
    rewrite i64_ok by lia. cbn [res_bind]. by replace (bytes * 100) with (100 * Z.abs bytes) by lia.
Qed.

Lemma hn_prefix_length flags k : (k <= 6)%nat → (length (SCALE2PREFIX flags k) <= 1)%nat.
Proof.
  intros Hk. unfold SCALE2PREFIX, hn_prefixes.
  do 7 (destruct k as [|k]; [repeat case_match; simpl; lia|]). lia.
Qed.

Lemma hn_max_ok n max :
  0 < max → max * 10 ^ Z.of_nat n <= INT64_MAX → hn_max n max = Ok (max * 10 ^ Z.of_nat n).
Proof.
  revert max. induction n as [|n IH]; intros max Hm Hle; cbn [hn_max].
  - f_equal. simpl. lia.
  - rewrite Nat2Z.inj_succ, Z.pow_succ_r in * by lia.
    assert (0 < 10 ^ Z.of_nat n) by (apply Z.pow_pos_nonneg; lia).
    assert (max * 10 <= INT64_MAX) by nia.
    rewrite i64_ok by (unfold INT64_MIN; lia). cbn [res_bind].
    rewrite IH by lia. f_equal. lia.
Qed.

(** The loop stops at the first scale at which the number fits, or at the last. *)
Lemma hn_divide_spec n i b max d b' k :
  0 <= b → 0 < d → hn_divide n i b max d = (b', k) →
  ∃ j, (j <= n)%nat ∧ k = (i + j)%nat ∧ b' = b / d ^ Z.of_nat j
     ∧ (∀ j', (j' < j)%nat → max - 50 <= b / d ^ Z.of_nat j')
     ∧ ((j < n)%nat → b / d ^ Z.of_nat j < max - 50).
Proof.
  intros Hb Hd. revert i b Hb. induction n as [|n IH]; intros i b Hb; simpl.
  - intros [= <- <-]. exists O. rewrite Z.div_1_r. repeat split; lia.
  - destruct (Z.leb_spec (max - 50) b) as [Hle|Hlt].
    + rewrite Z.quot_div_nonneg by lia. intros H.
      apply IH in H as (j & Hj & -> & -> & Hbelow & Hstop); [|apply Z.div_pos; lia].
      exists (S j). rewrite div_pow_succ by done. repeat split; [lia|lia|..].
      * intros [|j'] Hj'; [simpl; by rewrite Z.div_1_r|].
        rewrite <- div_pow_succ by done. apply Hbelow. lia.
      * intros ?. rewrite <- div_pow_succ by done. apply Hstop. lia.
    + intros [= <- <-]. exists O. simpl. rewrite Z.div_1_r. repeat split; lia.
Qed.

(** *** The text *)

Lemma print_int_nonempty v : (1 <= length (print_int v))%nat.
Proof.
  unfold print_int. case_match; simpl; [lia|]. apply print_uint_nonempty.
Qed.

Lemma print_int_length v (n : nat) :
  (0 < n)%nat → Z.abs v < 10 ^ Z.of_nat n →
  (length (print_int v) <= (if (v <? 0)%Z then 1 else 0) + n)%nat.
Proof.
  intros Hn Hv. unfold print_int. destruct (Z.ltb_spec v 0); cbn [length];
    pose proof (print_uint_length (Z.abs v) n Hn) as HP;
    [replace (- v) with (Z.abs v) by lia | replace v with (Z.abs v) at 1 by lia]; lia.
Qed.

Lemma hn_prefix_one flags k :
  (1 <= k <= 6)%nat → length (SCALE2PREFIX flags k) = 1%nat.
Proof.
  intros Hk. unfold SCALE2PREFIX, hn_prefixes.
  do 7 (destruct k as [|k]; [try lia; repeat case_match; reflexivity|]). lia.
Qed.

Lemma hn_scaled_bounds flags b k (M : Z) :
  0 <= b <= INT64_MAX → (1 <= k)%nat → 0 <= b / hn_divisor flags ^ Z.of_nat k <= INT64_MAX / 1000.
Proof.
  intros Hb Hk. pose proof (hn_pow_pos flags k).
  split; [apply Z.div_pos; lia|].
  transitivity (INT64_MAX / hn_divisor flags ^ Z.of_nat k).
  - apply Z.div_le_mono; lia.
  - apply Z.div_le_compat_l; [unfold INT64_MAX; lia|]. split; [lia|].
    etransitivity; [|apply hn_pow_ge].
    change 1000 with (1000 ^ 1) at 1. apply Z.pow_le_mono_r; lia.
Qed.

Section rounding.
Context (decimal_point : list Z) (flags : Z) (suffix : list Z).

(** With hundredths at hand the code prints the rounded number. *)
Lemma hn_text_small len bytes k :
  hn_small bytes → (k <= 6)%nat →
  (hn_tenths (Z.abs bytes) (hn_divisor flags) k < 100 → has flags HN_DECIMAL = true →
     hn_base bytes suffix flags + 2 + Z.of_nat (length decimal_point) <= len) ∨ k = O →
  hn_text decimal_point len (100 * Z.abs bytes / hn_divisor flags ^ Z.of_nat k)
    (if bytes <? 0 then -1 else 1) 1 (hn_base bytes suffix flags) k (hn_sep flags) suffix flags
  = Ok (Some (hn_output decimal_point bytes suffix k flags)).
Proof.
  intros Hs Hk Hroom. pose proof (hn_divisor_pos flags) as Hd.
  assert (INT64_MAX / 100 = 92233720368547758) as E by reflexivity.
  unfold hn_small in Hs. rewrite E in Hs.
  assert (INT64_MAX = 9223372036854775807) as E1 by reflexivity.
  assert (INT64_MIN = -9223372036854775808) as E2 by reflexivity.
  unfold hn_output, hn_printed. destruct k as [|k].
  - unfold hn_text. change (1 =? 1) with true. cbv iota.
    change (hn_divisor flags ^ Z.of_nat 0) with 1. rewrite Z.div_1_r.
    rewrite Z.quot_div_nonneg by lia.
    replace (100 * Z.abs bytes) with (Z.abs bytes * 100) by lia. rewrite Z.div_mul by lia.
    replace ((if bytes <? 0 then -1 else 1) * Z.abs bytes) with bytes
      by (destruct (Z.ltb_spec bytes 0); lia).
    rewrite i64_ok by lia. reflexivity.
  - unfold hn_text. rewrite Z.mul_1_r.
    pose proof (hn_scaled_bounds flags (100 * Z.abs bytes) (S k) 0 ltac:(lia) ltac:(lia)) as [Hb1 Hb2].
    assert (INT64_MAX / 1000 = 9223372036854775) as E3 by reflexivity.
    rewrite i64_ok by lia. cbn [res_bind].
    rewrite tenths_995 by lia.
    destruct (hn_tenths (Z.abs bytes) (hn_divisor flags) (S k) <? 100) eqn:Ht; cbn [andb].
    + apply Z.ltb_lt in Ht. destruct Hroom as [Hroom|?]; [|lia]. specialize (Hroom Ht).
      destruct (has flags HN_DECIMAL); [specialize (Hroom eq_refl)|].
      * destruct (Z.ltb_spec len (hn_base bytes suffix flags + 1 + 1
                                  + Z.of_nat (length decimal_point))); [lia|].
        rewrite (Z.quot_div_nonneg (_ + 5) 10) by lia. rewrite tenths_floor by lia.
        assert (0 <= hn_tenths (Z.abs bytes) (hn_divisor flags) (S k)).
        { rewrite <- tenths_floor by lia. apply Z.div_pos; lia. }
        rewrite Z.quot_div_nonneg, Z.rem_mod_nonneg by lia.
        rewrite <- !app_assoc. reflexivity.
      * rewrite i64_ok by lia. cbn [res_bind]. rewrite Z.quot_div_nonneg by lia.
        rewrite round_floor by lia. reflexivity.
    + rewrite i64_ok by lia. cbn [res_bind]. rewrite Z.quot_div_nonneg by lia.
      rewrite round_floor by lia. reflexivity.
Qed.

(** The guards of the function, passed. *)
Lemma humanize_number_enter buf len bytes scale sign b post baselen :
  0 <= scale → scale <= 6 ∨ has scale (HN_AUTOSCALE .| HN_GETSCALE) = true →
  0 < len <= Z.of_nat (length buf) →
  hn_sign bytes = Ok (sign, b, post, baselen) →
  let base := baselen + Z.of_nat (length (hn_sep flags)) + Z.of_nat (length suffix) in
  let auto := has scale (HN_AUTOSCALE .| HN_GETSCALE) in
  humanize_number decimal_point (Some buf) len bytes (Some suffix) scale flags =
    if len <? base + 1 then Ok (-1, Some (<[0%nat := 0]> buf)) else
    let* (b, i) := (if auto then hn_autoscale (len - base) b (hn_divisor flags)
                   else Ok (hn_fixed (Z.to_nat scale) b (hn_divisor flags), Z.to_nat scale)) in
    if auto && has scale HN_GETSCALE then Ok (Z.of_nat i, Some (<[0%nat := 0]> buf)) else
    hn_print decimal_point (<[0%nat := 0]> buf) len b sign post base i (hn_sep flags) suffix flags.
Proof.
  intros Hs0 Hs (Hlen & Hbuf) Hsign base auto. unfold humanize_number.
  change (default [] (Some suffix)) with suffix.
  fold auto. assert ((scale <? 0) || ((Z.of_nat maxscale <? scale) && negb auto) = false) as ->.
  { destruct (Z.ltb_spec scale 0); [lia|]. simpl. destruct Hs as [Hs|Hs]; [|by unfold auto; rewrite Hs, andb_false_r].
    unfold maxscale. destruct (Z.ltb_spec (Z.of_nat 6) scale); [lia|done]. }
  destruct buf as [|c buf]; [simpl in *; lia|].
  destruct (Z.ltb_spec 0 len); [|lia]. cbn [res_bind insert list_insert].
  rewrite Hsign. cbn [res_bind]. unfold base, hn_sep.
  destruct (has flags HN_NOSPACE); cbn [length]; rewrite ?Z.add_0_r; reflexivity.
Qed.

Lemma drop_insert0 (buf : list Z) n : drop (S n) (<[0%nat := 0]> buf) = drop (S n) buf.
Proof. by destruct buf. Qed.

Lemma hn_print_fits buf len b sign post base i text :
  hn_text decimal_point len b sign post base i (hn_sep flags) suffix flags = Ok (Some text) →
  Z.of_nat (length text) < len → len <= Z.of_nat (length buf) →
  hn_print decimal_point (<[0%nat := 0]> buf) len b sign post base i (hn_sep flags) suffix flags
  = Ok (Z.of_nat (length text), Some (text ++ 0 :: drop (length text + 1) buf)).
Proof.
  intros Ht Hl Hb. unfold hn_print. rewrite Ht. cbn [res_bind].
  rewrite snprintf_fits by (rewrite ?length_insert; lia). cbn [res_bind].
  destruct (Z.ltb_spec len (Z.of_nat (length text))); [lia|].
  by rewrite Nat.add_1_r, drop_insert0.
Qed.

End rounding.

(** ** humanize_number is correct *)

Lemma has_scale_plain (k : nat) :
  (k <= 6)%nat → has (Z.of_nat k) (HN_AUTOSCALE .| HN_GETSCALE) = false.
Proof. intros Hk. do 7 (destruct k as [|k]; [vm_compute; reflexivity|]). lia. Qed.

Lemma hn_output_length dp bytes suffix k flags :
  (k <= 6)%nat →
  hn_base bytes suffix flags <= Z.of_nat (length (hn_output dp bytes suffix k flags)) + 1 ∧
  ((1 <= k)%nat → hn_tenths (Z.abs bytes) (hn_divisor flags) k < 100 →
   has flags HN_DECIMAL = true →
   hn_base bytes suffix flags + Z.of_nat (length dp)
   <= Z.of_nat (length (hn_output dp bytes suffix k flags))).
Proof.
  intros Hk. unfold hn_output, hn_base. rewrite !length_app.
  destruct k as [|k].
  - split; [|lia]. cbn [hn_printed].
    destruct (Z.ltb_spec bytes 0) as [Hb|Hb].
    + assert (2 <= length (print_int bytes))%nat; [|lia].
      unfold print_int. destruct (Z.ltb_spec bytes 0); [|lia]. cbn [length].
      pose proof (print_uint_nonempty (- bytes)). lia.
    + pose proof (print_int_nonempty bytes). lia.
  - rewrite hn_prefix_one by lia. unfold hn_printed.
    split; [|intros _ Ht HD; apply Z.ltb_lt in Ht; rewrite Ht, HD; cbn [andb]];
    repeat case_match; rewrite ?length_app;
    repeat match goal with
           | |- context [length (print_int ?v)] =>
               pose proof (print_int_nonempty v); generalize dependent (length (print_int v)); intros
           end; lia.
Qed.

(** The run at an explicit scale, in a buffer of the columns the code reserves. *)
Lemma run_humanize_scale dp buf len bytes suffix (k : nat) flags :
  hn_small bytes → (k <= 6)%nat →
  let text := hn_output dp bytes suffix k flags in
  Z.of_nat (length text) < len <= Z.of_nat (length buf) →
  hn_base bytes suffix flags + 1 <= len →
  (hn_tenths (Z.abs bytes) (hn_divisor flags) k < 100 → has flags HN_DECIMAL = true →
     hn_base bytes suffix flags + 2 + Z.of_nat (length dp) <= len) ∨ k = O →
  humanize_number dp (Some buf) len bytes (Some suffix) (Z.of_nat k) flags =
    Ok (Z.of_nat (length text), Some (text ++ 0 :: drop (length text + 1) buf)).
Proof.
  intros Hs Hk text [Hlen Hbuf] Hbase Hroom. pose proof (hn_divisor_pos flags).
  erewrite humanize_number_enter; [|lia|lia|lia|by apply hn_sign_small].
  rewrite has_scale_plain by done. fold (hn_base bytes suffix flags).
  destruct (Z.ltb_spec len (hn_base bytes suffix flags + 1)); [lia|]. cbn [res_bind andb].
  rewrite Nat2Z.id, hn_fixed_div by lia.
  apply hn_print_fits; [|unfold text in *; lia|lia].
  by apply hn_text_small.
Qed.

Lemma run_humanize_number dp buf len bytes suffix (k : nat) flags :
  hn_small bytes → (k <= 6)%nat →
  let text := hn_output dp bytes suffix k flags in
  Z.of_nat (length text) + 2 <= len <= Z.of_nat (length buf) →
  humanize_number dp (Some buf) len bytes (Some suffix) (Z.of_nat k) flags =
    Ok (Z.of_nat (length text), Some (text ++ 0 :: drop (length text + 1) buf)).
Proof.
  intros Hs Hk text [Hlen Hbuf].
  destruct (hn_output_length dp bytes suffix k flags Hk) as [Hb1 Hb2]. fold text in Hb1, Hb2.
  apply run_humanize_scale; [done|done|unfold text in *; lia|lia|].
  destruct k as [|k]; [by right|left]. intros Ht HD. specialize (Hb2 ltac:(lia) Ht HD). lia.
Qed.

(** C26.  At an explicit scale [k] (0 to 6), for a count below INT64_MAX/100 in
    magnitude, [humanize_number] writes the count divided by the [k]-th power of the
    divisor, rounded to the nearest integer with halves away from zero, or to the
    nearest tenth under [HN_DECIMAL] when that is below ten, with its sign, then the
    separator, the prefix of the scale and the suffix, NUL terminated; it returns
    the length and leaves the rest of the buffer alone.  The buffer has at least
    [len] bytes and [len] is at least two more than the text, and a negative count
    whose tenths are 0.1 to 0.9 is excluded: there the code loses the sign
    ([humanize_number_sign_lost]). *)
Theorem humanize_number_rounds dp buf len bytes suffix (k : nat) flags :
  hn_small bytes → (k <= 6)%nat → hn_loses_sign bytes k flags = false →
  let text := hn_spec dp bytes suffix k flags in
  Z.of_nat (length text) + 2 <= len <= Z.of_nat (length buf) →
  humanize_number dp (Some buf) len bytes (Some suffix) (Z.of_nat k) flags =
    Ok (Z.of_nat (length text), Some (text ++ 0 :: drop (length text + 1) buf)).
Proof.
  intros Hs Hk Hsign. rewrite <- hn_output_spec by done. by apply run_humanize_number.
Qed.

Lemma hn_autoscale_small room b d b' k :
  0 <= b <= INT64_MAX → 1000 <= d → 1 <= room <= 16 →
  hn_autoscale room b d = Ok (b', k) →
  (k <= 6)%nat ∧ b' = b / d ^ Z.of_nat k
  ∧ (∀ j, (j < k)%nat → 100 * 10 ^ room - 50 <= b / d ^ Z.of_nat j)
  ∧ (b / d ^ Z.of_nat k < 100 * 10 ^ room - 50).
Proof.
  intros Hb Hd Hroom. unfold hn_autoscale. destruct (Z.ltb_spec 19 room); [lia|].
  assert (10 ^ room <= 10 ^ 16) by (apply Z.pow_le_mono_r; lia).
  assert (10 ^ 1 <= 10 ^ room) by (apply Z.pow_le_mono_r; lia).
  assert (INT64_MAX = 9223372036854775807) as E1 by reflexivity.
  rewrite hn_max_ok; rewrite ?Z2Nat.id by lia; [|lia|lia]. cbn [res_bind].
  destruct (hn_divide maxscale 0 b _ d) as [b1 k1] eqn:H'. intros [= <- <-].
  apply hn_divide_spec in H'; [|lia|lia]. destruct H' as (j & Hj & -> & -> & Hbelow & Hstop). simpl Nat.add.
  unfold maxscale in *. repeat split; [lia|done|].
  destruct (decide (j < 6)%nat) as [Hlt|Hge]; [by apply Hstop|].
  assert (j = 6)%nat as -> by lia.
  assert (1000 ^ 6 <= d ^ Z.of_nat 6) by (apply Z.pow_le_mono_l; lia).
  assert (b / d ^ Z.of_nat 6 < 10); [|lia].
  apply Z.div_lt_upper_bound; lia.
Qed.

Lemma hn_autoscale_total room b d :
  1 <= room → room <= 16 ∨ 19 < room → ∃ b' k, hn_autoscale room b d = Ok (b', k).
Proof.
  intros H1 H2. unfold hn_autoscale. destruct (Z.ltb_spec 19 room); [by eexists _, _|].
  assert (10 ^ room <= 10 ^ 16) by (apply Z.pow_le_mono_r; lia).
  rewrite hn_max_ok; rewrite ?Z2Nat.id by lia;
    [|lia|change INT64_MAX with 9223372036854775807; lia].
  cbn [res_bind]. destruct (hn_divide _ _ _ _ _) as [b' k]. by eexists _, _.
Qed.

(** The proof of the property below, which dd's summary uses too. *)
Lemma autoscale_least dp buf len bytes suffix flags :
  hn_small bytes → 0 < len <= Z.of_nat (length buf) →
  let room := len - hn_base bytes suffix flags in
  1 <= room <= 16 ∨ 19 < room →
  ∃ k : nat, (k <= 6)%nat
    ∧ humanize_number dp (Some buf) len bytes (Some suffix) HN_AUTOSCALE flags
      = humanize_number dp (Some buf) len bytes (Some suffix) (Z.of_nat k) flags
    ∧ humanize_number dp (Some buf) len bytes (Some suffix) HN_GETSCALE flags
      = Ok (Z.of_nat k, Some (<[0%nat := 0]> buf))
    ∧ hn_round (Z.abs bytes) (hn_divisor flags) k < 10 ^ room
    ∧ ∀ j, (j < k)%nat → 10 ^ room <= hn_round (Z.abs bytes) (hn_divisor flags) j.
Proof.
  intros Hs Hlen room Hroom. pose proof (hn_divisor_pos flags) as Hd.
  assert (0 <= 100 * Z.abs bytes <= INT64_MAX) as Hb.
  { unfold hn_small in Hs. pose proof (Z.mul_div_le INT64_MAX 100 ltac:(lia)). lia. }
  destruct (hn_autoscale_total room (100 * Z.abs bytes) (hn_divisor flags)) as (b' & k & Hauto);
    [lia|lia|].
  assert ((k <= 6)%nat ∧ b' = 100 * Z.abs bytes / hn_divisor flags ^ Z.of_nat k
    ∧ hn_round (Z.abs bytes) (hn_divisor flags) k < 10 ^ room
    ∧ ∀ j, (j < k)%nat → 10 ^ room <= hn_round (Z.abs bytes) (hn_divisor flags) j)
    as (Hk & -> & Hfit & Hmin).
  { destruct (decide (room <= 16)) as [Hle|Hgt].
    - apply hn_autoscale_small in Hauto as (Hk & -> & Hbelow & Hstop); [|done|done|lia].
      split_and!; [done|done|..].
      + rewrite <- round_floor by lia. apply Z.div_lt_upper_bound; lia.
      + intros j Hj. rewrite <- round_floor by lia. apply Z.div_le_lower_bound; [lia|].
        specialize (Hbelow j Hj). lia.
    - unfold hn_autoscale in Hauto. destruct (Z.ltb_spec 19 room); [|lia].
      injection Hauto as <- <-. split_and!; [lia|by rewrite Z.div_1_r| |lia].
      rewrite <- round_floor by lia. rewrite Z.div_1_r.
      assert (10 ^ 20 <= 10 ^ room) by (apply Z.pow_le_mono_r; lia).
      change INT64_MAX with 9223372036854775807 in *.
      apply Z.div_lt_upper_bound; lia. }
  exists k. split; [done|].
  assert (hn_base bytes suffix flags + 1 <= len) by lia.
  do 3 (erewrite humanize_number_enter;
        [|first [lia|done]|first [by right|left; lia]|lia|by apply hn_sign_small]).
  rewrite has_scale_plain by done. fold (hn_base bytes suffix flags). fold room.
  destruct (Z.ltb_spec len (hn_base bytes suffix flags + 1)); [lia|].
  assert (has HN_AUTOSCALE (HN_AUTOSCALE .| HN_GETSCALE) = true) as -> by done.
  assert (has HN_GETSCALE (HN_AUTOSCALE .| HN_GETSCALE) = true) as -> by done.
  assert (has HN_GETSCALE HN_GETSCALE = true) as -> by done.
  assert (has HN_AUTOSCALE HN_GETSCALE = false) as -> by done.
  cbv iota. rewrite Hauto. cbn [res_bind andb].
  rewrite Nat2Z.id, hn_fixed_div by lia. done.
Qed.

(** C28.  For a count below INT64_MAX/100 in magnitude, and a buffer with 1 to 16
    or more than 19 columns to spare ([room]: [len] less the columns for the sign, a
    digit, the prefix, the separator and the suffix), autoscaling is the explicit
    scale [k], where [k], which [HN_GETSCALE] reports, is the least scale at
    which the rounded count has at most as many digits as the columns to spare.
    With 17 to 19 columns the computation of [max] overflows
    ([humanize_number_max_overflow]). *)
Theorem humanize_number_autoscale dp buf len bytes suffix flags :
  hn_small bytes → 0 < len <= Z.of_nat (length buf) →
  let room := len - hn_base bytes suffix flags in
  1 <= room <= 16 ∨ 19 < room →
  ∃ k : nat, (k <= 6)%nat
    ∧ humanize_number dp (Some buf) len bytes (Some suffix) HN_AUTOSCALE flags
      = humanize_number dp (Some buf) len bytes (Some suffix) (Z.of_nat k) flags
    ∧ humanize_number dp (Some buf) len bytes (Some suffix) HN_GETSCALE flags
      = Ok (Z.of_nat k, Some (<[0%nat := 0]> buf))
    ∧ hn_round (Z.abs bytes) (hn_divisor flags) k < 10 ^ room
    ∧ ∀ j, (j < k)%nat → 10 ^ room <= hn_round (Z.abs bytes) (hn_divisor flags) j.
Proof. apply autoscale_least. Qed.

(** ** Every autoscaled number fits *)

Lemma hn_sign_big bytes :
  INT64_MIN < bytes <= INT64_MAX → ¬ hn_small bytes →
  hn_sign bytes = Ok (if bytes <? 0 then -1 else 1, Z.abs bytes, 100,
                      if bytes <? 0 then 5 else 4).
Proof.
  unfold hn_small, hn_sign. intros Hb H.
  change (Z.quot INT64_MAX 100) with (INT64_MAX / 100).
  destruct (Z.ltb_spec bytes 0).
  - rewrite i64_ok by (unfold INT64_MIN, INT64_MAX in *; lia). cbn [res_bind].
    destruct (Z.ltb_spec (- bytes) (INT64_MAX / 100)); [lia|].
    by replace (- bytes) with (Z.abs bytes) by lia.
  - destruct (Z.ltb_spec bytes (INT64_MAX / 100)); [lia|].
    by replace (Z.abs bytes) with bytes by lia.
Qed.

Lemma print_sign_length s v (n : nat) :
  s = 1 ∨ s = -1 → (0 < n)%nat → 0 <= v < 10 ^ Z.of_nat n →
  Z.of_nat (length (print_int (s * v))) <= (if s <? 0 then 1 else 0) + Z.of_nat n.
Proof.
  intros Hs Hn Hv. pose proof (print_int_length (s * v) n Hn ltac:(nia)) as H.
  destruct Hs as [-> | ->]; cbn [Z.ltb Z.compare];
    repeat match goal with H : context [?a <? 0] |- _ => destruct (Z.ltb_spec a 0) end; lia.
Qed.

(** The text has at most the columns reserved for it: [post] tells whether the
    two digits of the hundredths are among [baselen]. *)
Lemma hn_text_fits dp flags suffix len b sign post base (k n : nat) :
  sign = 1 ∨ sign = -1 → post = 1 ∨ post = 100 → (k <= 6)%nat → (0 < n)%nat →
  0 <= b → (if k then b else b * post + 50) <= INT64_MAX →
  (if k then if post =? 1 then b / 100 else b else (b * post + 50) / 100) < 10 ^ Z.of_nat n →
  (if sign <? 0 then 1 else 0) + Z.of_nat n + Z.of_nat (length (hn_sep flags))
    + 1 + Z.of_nat (length suffix) < len →
  (if sign <? 0 then 1 else 0) + 2 + Z.of_nat (length (hn_sep flags))
    + Z.of_nat (length suffix) <= base →
  ∃ t, hn_text dp len b sign post base k (hn_sep flags) suffix flags = Ok t
     ∧ ∀ text, t = Some text → Z.of_nat (length text) < len.
Proof.
  intros Hsign Hpost Hk Hn Hb Hmax Hdig Hlen Hbase.
  assert (INT64_MAX = 9223372036854775807) as E1 by reflexivity.
  assert (INT64_MIN = -9223372036854775808) as E2 by reflexivity.
  pose proof (hn_prefix_length flags k Hk) as Hpre.
  unfold hn_text. destruct k as [|k].
  - set (v := if post =? 1 then Z.quot b 100 else b).
    assert (0 <= v < 10 ^ Z.of_nat n ∧ v <= b) as [Hv Hvb].
    { unfold v. destruct (post =? 1); [|lia]. rewrite Z.quot_div_nonneg by lia.
      pose proof (Z.div_pos b 100). pose proof (Z.div_le_upper_bound b 100 b). lia. }
    rewrite i64_ok by nia. eexists. split; [reflexivity|]. intros ? [= <-].
    rewrite !length_app. pose proof (print_sign_length sign v n Hsign Hn Hv). lia.
  - rewrite i64_ok by nia. cbn [res_bind].
    destruct ((b * post <? 995) && has flags HN_DECIMAL) eqn:Hdec.
    + apply andb_prop in Hdec as [Hsm%Z.ltb_lt _].
      match goal with |- context [if ?c then Ok None else _] => destruct c eqn:Hdp end;
        [eexists; split; [reflexivity|done]|]. apply Z.ltb_ge in Hdp.
      eexists. split; [reflexivity|]. intros ? [= <-]. rewrite !length_app.
      assert (0 <= (b * post + 5) ÷ 10 < 100) as Hq.
      { rewrite Z.quot_div_nonneg by nia. split; [apply Z.div_pos; nia|].
        apply Z.div_lt_upper_bound; lia. }
      set (q := (b * post + 5) ÷ 10) in *.
      assert (0 <= q ÷ 10 < 10 ^ Z.of_nat 1).
      { rewrite Z.quot_div_nonneg by lia. split; [apply Z.div_pos; lia|].
        apply Z.div_lt_upper_bound; lia. }
      assert (0 <= Z.rem q 10 < 10 ^ Z.of_nat 1) by (apply Z.rem_bound_pos; lia).
      pose proof (print_sign_length sign (q ÷ 10) 1 Hsign ltac:(lia) ltac:(done)).
      pose proof (print_sign_length 1 (Z.rem q 10) 1 ltac:(by left) ltac:(lia) ltac:(done)) as Hs2.
      rewrite Z.mul_1_l in Hs2. cbn [Z.ltb Z.compare] in Hs2. lia.
    + rewrite i64_ok by nia. cbn [res_bind]. eexists. split; [reflexivity|]. intros ? [= <-].
      rewrite !length_app, Z.quot_div_nonneg by nia.
      pose proof (print_sign_length sign ((b * post + 50) / 100) n Hsign Hn
                    ltac:(split; [apply Z.div_pos; nia|done])). lia.
Qed.

(** The scaling step: the number to print at the scale found has at most [n]
    digits, [n] being the spare columns and, when the hundredths are not kept,
    the two [baselen] sets aside for them. *)
Lemma hn_autoscale_fits room b post flags :
  0 <= b → (post = 1 ∧ b + 50 <= INT64_MAX) ∨ (post = 100 ∧ b <= INT64_MAX) →
  1 <= room <= 16 ∨ 19 < room →
  let n := Z.to_nat (if post =? 1 then room else room + 2) in
  ∃ b' k, hn_autoscale room b (hn_divisor flags) = Ok (b', k) ∧ (k <= 6)%nat ∧ 0 <= b'
    ∧ (if k then b' else b' * post + 50) <= INT64_MAX
    ∧ (if k then if post =? 1 then b' / 100 else b' else (b' * post + 50) / 100) < 10 ^ Z.of_nat n.
Proof.
  intros Hb Hpost Hroom n. pose proof (hn_divisor_pos flags) as Hd.
  assert (INT64_MAX = 9223372036854775807) as E1 by reflexivity.
  assert (1 <= post <= 100 ∧ (post =? 1 = true ∨ post = 100)) as [Hp1 Hp2]
    by (destruct Hpost as [[-> ?]|[-> ?]]; auto with lia).
  assert (10 ^ Z.of_nat n = 10 ^ room * (if post =? 1 then 1 else 100)) as En.
  { unfold n. rewrite Z2Nat.id by (case_match; lia).
    case_match; [lia|]. rewrite Z.pow_add_r by lia. lia. }
  destruct (hn_autoscale_total room b (hn_divisor flags)) as (b' & k & Hauto); [lia|lia|].
  exists b', k. rewrite En. split; [done|].
  assert ((k <= 6)%nat ∧ b' = b / hn_divisor flags ^ Z.of_nat k
          ∧ (k = O → b' = b) ∧ b' < 100 * 10 ^ room - 50) as (Hk & Eb & Hk0 & Hfit).
  { destruct (decide (room <= 16)) as [Hle|Hgt].
    - apply hn_autoscale_small in Hauto as (Hk & -> & _ & Hstop); [|lia|lia|lia].
      split_and!; [done|done|intros ->; apply Z.div_1_r|done].
    - unfold hn_autoscale in Hauto. destruct (Z.ltb_spec 19 room); [|lia].
      injection Hauto as <- <-. assert (10 ^ 20 <= 10 ^ room) by (apply Z.pow_le_mono_r; lia).
      split_and!; [lia|by rewrite Z.div_1_r|done|lia]. }
  assert (0 <= b') as Hb'.
  { rewrite Eb. pose proof (hn_pow_pos flags k). apply Z.div_pos; lia. }
  split_and!; [done|done|..].
  - destruct k as [|k]; [rewrite Hk0 by done; lia|].
    pose proof (hn_scaled_bounds flags b (S k) 0 ltac:(lia) ltac:(lia)) as [_ Hs].
    rewrite <- Eb in Hs. assert (INT64_MAX / 1000 = 9223372036854775) as E2 by reflexivity.
    destruct Hpost as [[-> ?]|[-> ?]]; lia.
  - destruct Hpost as [[-> ?]|[-> ?]]; cbn [Z.eqb Pos.eqb];
      destruct k as [|k]; try apply Z.div_lt_upper_bound; lia.
Qed.

(** The proof of the property below, which dd's summary uses too. *)
Lemma autoscale_fits_buffer dp buf len bytes suffix flags :
  INT64_MIN < bytes <= INT64_MAX → 0 < len <= Z.of_nat (length buf) →
  (len - Z.of_nat (length suffix) <= 18 ∨ 26 <= len - Z.of_nat (length suffix)) →
  ∃ r buf', humanize_number dp (Some buf) len bytes (Some suffix) HN_AUTOSCALE flags
              = Ok (r, Some buf')
    ∧ (r = -1 ∨ ∃ text, r = Z.of_nat (length text) ∧ r < len
                      ∧ buf' = text ++ 0 :: drop (length text + 1) buf).
Proof.
  intros Hbytes Hlen Hgap.
  assert (∃ sign b post base0, hn_sign bytes = Ok (sign, b, post, base0)
    ∧ (sign = 1 ∨ sign = -1) ∧ 0 <= b
    ∧ ((post = 1 ∧ b + 50 <= INT64_MAX) ∨ (post = 100 ∧ b <= INT64_MAX))
    ∧ base0 = (if sign <? 0 then 3 else 2) + (if post =? 1 then 0 else 2))
    as (sign & b & post & base0 & Hsign & Hs & Hb & Hpost & ->).
  { destruct (decide (hn_small bytes)) as [Hsm|Hsm].
    - eexists _, _, _, _. split; [by apply hn_sign_small|]. unfold hn_small in Hsm.
      change INT64_MAX with 9223372036854775807 in *.
      change (9223372036854775807 / 100) with 92233720368547758 in *.
      split_and!; [case_match; auto|lia|left; lia|by destruct (bytes <? 0)].
    - eexists _, _, _, _. split; [by apply hn_sign_big|].
      split_and!; [case_match; auto|lia| |by destruct (bytes <? 0)].
      right. unfold INT64_MIN, INT64_MAX in *. lia. }
  erewrite humanize_number_enter; [|done|by right|lia|exact Hsign].
  set (base := _ + Z.of_nat (length suffix)) at 1.
  fold base. destruct (Z.ltb_spec len (base + 1)) as [|Hroom]; [eauto 10|].
  assert (has HN_AUTOSCALE (HN_AUTOSCALE .| HN_GETSCALE) = true) as -> by done.
  assert (has HN_AUTOSCALE HN_GETSCALE = false) as -> by done.
  assert (length (hn_sep flags) <= 1)%nat as Hsep
    by (unfold hn_sep; destruct (has _ _); simpl; lia).
  destruct (hn_autoscale_fits (len - base) b post flags) as (b' & k & -> & Hk & Hb' & Hmax & Hdig);
    [done|done|unfold base in *; destruct (sign <? 0), (post =? 1); lia|].
  cbn [res_bind andb].
  destruct (hn_text_fits dp flags suffix len b' sign post base k
              (Z.to_nat (if post =? 1 then len - base else len - base + 2)))
    as (t & Ht & Hfits);
    [done|lia|done|destruct (post =? 1); lia|done|done|done
    |unfold base; destruct (sign <? 0), (post =? 1); lia
    |unfold base; destruct (sign <? 0), (post =? 1); lia|].
  destruct t as [text|].
  - specialize (Hfits text eq_refl). rewrite hn_print_fits with (text := text) by (done || lia).
    eexists _, _. split; [done|]. right. eauto.
  - unfold hn_print. rewrite Ht. cbn [res_bind]. eauto.
Qed.

(** With room for a character the buffer holds a string afterwards, failure or not. *)
Lemma humanize_number_nul dp buf len bytes suffix flags r buf' :
  humanize_number dp (Some buf) len bytes (Some suffix) HN_AUTOSCALE flags = Ok (r, Some buf') →
  0 < len → In 0 buf'.
Proof.
  intros H Hlen. unfold humanize_number in H. simpl orb in H. cbn [default] in H.
  destruct (Z.ltb_spec 0 len); [|lia]. destruct buf as [|c buf]; [done|].
  assert (In 0 (0 :: buf)) as Hz by (by left).
  change (has HN_AUTOSCALE (HN_AUTOSCALE .| HN_GETSCALE)) with true in H.
  change (has HN_AUTOSCALE HN_GETSCALE) with false in H. cbn [andb res_bind] in H.
  destruct (hn_sign bytes) as [[[[sign b] post] base]| |]; cbn [res_bind] in H; [|done..].
  destruct (has flags HN_NOSPACE); cbn [fst snd] in H;
    (case_match; [by injection H as <- <-|]);
    (destruct (hn_autoscale _ _ _) as [[b' k]| |]; cbn [res_bind] in H; [|done..]);
    unfold hn_print in H;
    (destruct (hn_text _ _ _ _ _ _ _ _ _ _) as [[t|]| |]; cbn [res_bind] in H; [|by injection H as <- <-|done..]);
    unfold snprintf in H; (destruct (Z.leb_spec len 0); [lia|]); (case_match; cbn [res_bind] in H; [|done]);
    injection H as <- <-; rewrite !in_app_iff; left; right; by left.
Qed.

(** C27.  With autoscaling, for every count but INT64_MIN, all flags, and a nonempty
    size within the buffer that is at most 18 or at least 26 more than the length of the
    suffix, the buffer is never overrun and no signed operation overflows, and the
    call either fails or leaves in the buffer a whole text with its NUL, whose
    length it returns.  The sizes in between include those for which the
    computation of [max] overflows ([humanize_number_max_overflow]); the negation of
    INT64_MIN overflows. *)
Theorem humanize_number_fits dp buf len bytes suffix flags :
  INT64_MIN < bytes <= INT64_MAX → 0 < len <= Z.of_nat (length buf) →
  (len - Z.of_nat (length suffix) <= 18 ∨ 26 <= len - Z.of_nat (length suffix)) →
  ∃ r buf', humanize_number dp (Some buf) len bytes (Some suffix) HN_AUTOSCALE flags
              = Ok (r, Some buf')
    ∧ (r = -1 ∨ ∃ text, r = Z.of_nat (length text) ∧ r < len
                      ∧ buf' = text ++ 0 :: drop (length text + 1) buf).
Proof. apply autoscale_fits_buffer. Qed.

Lemma humanize_number_rounds_witness :
  humanize_number [ch "."] (Some (replicate 10 1)) 8 123456789 (Some (str "b")) (Z.of_nat 2) HN_DECIMAL
  = Ok (6, Some (str "118 Mb" ++ [0; 1; 1; 1])).
Proof.
  rewrite (humanize_number_rounds [ch "."] (replicate 10 1) 8 123456789 (str "b") 2 HN_DECIMAL);
    vm_compute; [reflexivity|reflexivity|lia|reflexivity|split; discriminate].
Defined.

(** A negative count keeps its sign with a nonzero integer part. *)
Lemma humanize_number_negative :
  humanize_number [ch "."] (Some (replicate 10 1)) 8 (-1536) (Some []) 1 HN_DECIMAL
  = Ok (6, Some (str "-1.5 K" ++ [0; 1; 1; 1])).
Proof. vm_compute. reflexivity. Qed.

Lemma humanize_number_autoscale_witness :
  ∃ k : nat, (k <= 6)%nat
    ∧ humanize_number [ch "."] (Some (replicate 10 1)) 6 123456789 (Some []) HN_AUTOSCALE HN_B
      = humanize_number [ch "."] (Some (replicate 10 1)) 6 123456789 (Some []) (Z.of_nat k) HN_B.
Proof.
  destruct (humanize_number_autoscale [ch "."] (replicate 10 1) 6 123456789 [] HN_B)
    as (k & Hk & Heq & _); [vm_compute; reflexivity|vm_compute; split; congruence
      |left; vm_compute; split; congruence|].
  exists k. split; [exact Hk|exact Heq].
Defined.

Lemma humanize_number_fits_witness :
  ∃ r buf', humanize_number [ch "."] (Some (replicate 10 1)) 10 INT64_MAX (Some []) HN_AUTOSCALE HN_B
              = Ok (r, Some buf').
Proof.
  destruct (humanize_number_fits [ch "."] (replicate 10 1) 10 INT64_MAX [] HN_B)
    as (r & buf' & H & _); [vm_compute; split; congruence|vm_compute; split; congruence
      |left; vm_compute; congruence|].
  exists r, buf'. exact H.
Defined.

(** ** Where the code falls short *)

(** When the buffer has 17 to 19 spare columns the computation of [max] overflows
    [int64_t]: the test that is to prevent it, [len - baselen > 19], ignores the
    factor 100 that [max] starts with. *)
Theorem humanize_number_max_overflow dp buf len bytes suffix flags :
  hn_small bytes → 0 < len <= Z.of_nat (length buf) →
  17 <= len - hn_base bytes suffix flags <= 19 →
  humanize_number dp (Some buf) len bytes (Some suffix) HN_AUTOSCALE flags = Fault.
Proof.
  intros Hs Hlen Hroom. erewrite humanize_number_enter; [|done|by right|lia|by apply hn_sign_small].
  fold (hn_base bytes suffix flags).
  destruct (Z.ltb_spec len (hn_base bytes suffix flags + 1)); [lia|].
  assert (has HN_AUTOSCALE (HN_AUTOSCALE .| HN_GETSCALE) = true) as -> by done.
  assert (len - hn_base bytes suffix flags = 17 ∨ len - hn_base bytes suffix flags = 18
          ∨ len - hn_base bytes suffix flags = 19) as [-> | [-> | ->]] by lia; reflexivity.
Qed.

Lemma humanize_number_max_overflow_witness :
  humanize_number [ch "."] (Some (replicate 19 1)) 19 1 (Some []) HN_AUTOSCALE HN_NOSPACE = Fault.
Proof.
  apply (humanize_number_max_overflow [ch "."] (replicate 19 1) 19 1 [] HN_NOSPACE);
    vm_compute; [reflexivity|split; congruence|split; congruence].
Defined.

(** A negative count whose magnitude rounds to less than one unit loses its sign
    under [HN_DECIMAL]: [sign * s1] is zero, so it is written as the positive count. *)
Lemma humanize_number_sign_lost dp buf len bytes suffix (k : nat) flags :
  hn_small bytes → 0 < bytes → (1 <= k <= 6)%nat → has flags HN_DECIMAL = true →
  hn_tenths bytes (hn_divisor flags) k < 10 →
  Z.of_nat (length (hn_output dp bytes suffix k flags)) + 2 <= len <= Z.of_nat (length buf) →
  humanize_number dp (Some buf) len (- bytes) (Some suffix) (Z.of_nat k) flags
  = humanize_number dp (Some buf) len bytes (Some suffix) (Z.of_nat k) flags.
Proof.
  intros Hs Hpos Hk HD Ht Hlen.
  assert (hn_output dp (- bytes) suffix k flags = hn_output dp bytes suffix k flags) as E.
  { unfold hn_output. f_equal. destruct k as [|k]; [lia|]. unfold hn_printed.
    rewrite Z.abs_opp, (Z.abs_eq bytes) by lia.
    destruct (Z.ltb_spec (hn_tenths bytes (hn_divisor flags) (S k)) 100); [|lia]. rewrite HD.
    cbn [andb]. rewrite (Z.div_small _ 10); [by rewrite !Z.mul_0_r|].
    split; [|done]. apply hn_tenths_nonneg. lia. }
  rewrite !run_humanize_number; rewrite ?E; try done; try lia.
  unfold hn_small in *. lia.
Qed.

(** A text one character too long for the buffer is truncated and reported as
    written: the last test is [r > len] where the text needs [len] bytes and a NUL. *)
Lemma humanize_number_truncated dp buf len bytes suffix flags :
  hn_small bytes → 0 < len <= Z.of_nat (length buf) →
  hn_base bytes suffix flags + 1 <= len →
  let text := hn_spec dp bytes suffix 0 flags in
  Z.of_nat (length text) = len →
  ∃ buf', humanize_number dp (Some buf) len bytes (Some suffix) 0 flags
            = Ok (Z.of_nat (length text), Some (take (Z.to_nat (len - 1)) text ++ 0 :: buf')).
Proof.
  intros Hs Hlen Hbase text Htext.
  change (humanize_number dp (Some buf) len bytes (Some suffix) 0 flags)
    with (humanize_number dp (Some buf) len bytes (Some suffix) (Z.of_nat 0) flags).
  erewrite humanize_number_enter; [|done|left; done|lia|by apply hn_sign_small].
  rewrite has_scale_plain by lia. fold (hn_base bytes suffix flags).
  destruct (Z.ltb_spec len (hn_base bytes suffix flags + 1)); [lia|]. cbn [res_bind andb].
  rewrite Nat2Z.id, hn_fixed_div by (pose proof (hn_divisor_pos flags); lia).
  unfold hn_print. rewrite hn_text_small by (done || lia || by right). cbn [res_bind].
  rewrite hn_output_spec by (lia || (unfold hn_loses_sign; cbn [Nat.eqb negb]; by rewrite andb_false_r)).
  fold text. unfold snprintf. destruct (Z.leb_spec len 0); [lia|].
  rewrite length_app, length_take, length_insert. cbn [length].
  destruct (Nat.leb_spec (Nat.min (Z.to_nat (len - 1)) (length text) + 1) (length buf)); [|lia].
  cbn [res_bind]. destruct (Z.ltb_spec len (Z.of_nat (length text))); [lia|].
  eexists. by rewrite <- app_assoc.
Qed.
