(* ===== verification/Unvis.v ===== *)
(** * unvis: lib/netbsd/unvis.c

    The decoder for visually encoded characters: a state machine fed one character
    at a time ([unvis]), and the string decoders built on it.  A decoded [char] is
    the byte 0..255 it holds; the machine's state is the [int] of the code, whose
    low eight bits are the state and whose top eight bits index an entity name. *)

From S2P Require Import Prelude Libc.

(** ** Flags and states *)

Definition VIS_HTTP1808 : Z := 0x0080.
Definition VIS_MIMESTYLE : Z := 0x0100.
Definition VIS_HTTP1866 : Z := 0x0200.
Definition VIS_NOESCAPE : Z := 0x0400.
Definition UNVIS_END : Z := 0x0800.

Inductive unvis_ret := UNVIS_VALID | UNVIS_VALIDPUSH | UNVIS_NOCHAR | UNVIS_SYNBAD.

#[global] Instance unvis_ret_eq_dec : EqDecision unvis_ret.
Proof. solve_decision. Defined.

Definition S_GROUND : Z := 0.
Definition S_START : Z := 1.
Definition S_META : Z := 2.
Definition S_META1 : Z := 3.
Definition S_CTRL : Z := 4.
Definition S_OCTAL2 : Z := 5.
Definition S_OCTAL3 : Z := 6.
Definition S_HEX : Z := 7.
Definition S_HEX1 : Z := 8.
Definition S_HEX2 : Z := 9.
Definition S_MIME1 : Z := 10.
Definition S_MIME2 : Z := 11.
Definition S_EATCRNL : Z := 12.
Definition S_AMP : Z := 13.
Definition S_NUMBER : Z := 14.
Definition S_STRING : Z := 15.

Definition isoctal (c : Z) : bool := (ch "0" <=? u8 c) && (u8 c <=? ch "7").
Definition xtod (c : Z) : Z :=
  if isdigit c then c - ch "0" else tolower c - ch "a" + 10.
Definition XTOD (c : Z) : Z := if isdigit c then c - ch "0" else c - ch "A" + 10.

Definition GS (a : Z) : Z := a .& 0xff.
Definition SS (a b : Z) : Z := u32 (Z.shiftl a 24) .| b.
Definition GI (a : Z) : Z := Z.shiftr (u32 a) 24.

(** ** The entity names of RFC 1866 *)

Definition nv : list (list Z * Z) :=
  [ (str "AElig", 198); (str "Aacute", 193); (str "Acirc", 194); (str "Agrave", 192);
    (str "Aring", 197); (str "Atilde", 195); (str "Auml", 196); (str "Ccedil", 199);
    (str "ETH", 208); (str "Eacute", 201); (str "Ecirc", 202); (str "Egrave", 200);
    (str "Euml", 203); (str "Iacute", 205); (str "Icirc", 206); (str "Igrave", 204);
    (str "Iuml", 207); (str "Ntilde", 209); (str "Oacute", 211); (str "Ocirc", 212);
    (str "Ograve", 210); (str "Oslash", 216); (str "Otilde", 213); (str "Ouml", 214);
    (str "THORN", 222); (str "Uacute", 218); (str "Ucirc", 219); (str "Ugrave", 217);
    (str "Uuml", 220); (str "Yacute", 221); (str "aacute", 225); (str "acirc", 226);
    (str "acute", 180); (str "aelig", 230); (str "agrave", 224); (str "amp", 38);
    (str "aring", 229); (str "atilde", 227); (str "auml", 228); (str "brvbar", 166);
    (str "ccedil", 231); (str "cedil", 184); (str "cent", 162); (str "copy", 169);
    (str "curren", 164); (str "deg", 176); (str "divide", 247); (str "eacute", 233);
    (str "ecirc", 234); (str "egrave", 232); (str "eth", 240); (str "euml", 235);
    (str "frac12", 189); (str "frac14", 188); (str "frac34", 190); (str "gt", 62);
    (str "iacute", 237); (str "icirc", 238); (str "iexcl", 161); (str "igrave", 236);
    (str "iquest", 191); (str "iuml", 239); (str "laquo", 171); (str "lt", 60);
    (str "macr", 175); (str "micro", 181); (str "middot", 183); (str "nbsp", 160);
    (str "not", 172); (str "ntilde", 241); (str "oacute", 243); (str "ocirc", 244);
    (str "ograve", 242); (str "ordf", 170); (str "ordm", 186); (str "oslash", 248);
    (str "otilde", 245); (str "ouml", 246); (str "para", 182); (str "plusmn", 177);
    (str "pound", 163); (str "quot", 34); (str "raquo", 187); (str "reg", 174);
    (str "sect", 167); (str "shy", 173); (str "sup1", 185); (str "sup2", 178);
    (str "sup3", 179); (str "szlig", 223); (str "thorn", 254); (str "times", 215);
    (str "uacute", 250); (str "ucirc", 251); (str "ugrave", 249); (str "uml", 168);
    (str "uuml", 252); (str "yacute", 253); (str "yen", 165); (str "yuml", 255) ].

Definition nv_count : nat := 100.

(** [nv[ia].name[si]]: the table has 100 entries of 7 characters each. *)
Definition nv_name (ia si : nat) : res Z :=
  match nv !! ia with
  | Some (name, _) => if (si <? 7)%nat then Ok (nth si name 0) else Fault
  | None => Fault
  end.
Definition nv_value (ia : nat) : res Z :=
  match nv !! ia with Some (_, v) => Ok v | None => Fault end.

(** ** The state machine

    A call returns its code, the character [*cp] and the state [*astate]. *)
Definition result : Type := unvis_ret * Z * Z.

Definition bad (cp : Z) : res result := Ok (UNVIS_SYNBAD, cp, SS 0 S_GROUND).

Definition unvis_end (cp astate : Z) : res result :=
  let st := GS astate in
  if (st =? S_OCTAL2) || (st =? S_OCTAL3) || (st =? S_HEX2)
  then Ok (UNVIS_VALID, cp, SS 0 S_GROUND)
  else if st =? S_GROUND then Ok (UNVIS_NOCHAR, cp, astate)
  else Ok (UNVIS_SYNBAD, cp, astate).

Definition unvis_ground (c astate flag : Z) : res result :=
  if negb (has flag VIS_NOESCAPE) && (c =? 92)
  then Ok (UNVIS_NOCHAR, 0, SS 0 S_START)
  else if has flag VIS_HTTP1808 && (c =? ch "%")
  then Ok (UNVIS_NOCHAR, 0, SS 0 S_HEX1)
  else if has flag VIS_HTTP1866 && (c =? ch "&")
  then Ok (UNVIS_NOCHAR, 0, SS 0 S_AMP)
  else if has flag VIS_MIMESTYLE && (c =? ch "=")
  then Ok (UNVIS_NOCHAR, 0, SS 0 S_MIME1)
  else Ok (UNVIS_VALID, u8 c, astate).

(** The letters after a backslash that stand for one character. *)
Definition start_letter (c : Z) : option Z :=
  if c =? 92 then Some c
  else if c =? ch "n" then Some 10
  else if c =? ch "r" then Some 13
  else if c =? ch "b" then Some 8
  else if c =? ch "a" then Some 7
  else if c =? ch "v" then Some 11
  else if c =? ch "t" then Some 9
  else if c =? ch "f" then Some 12
  else if c =? ch "s" then Some 32
  else if c =? ch "E" then Some 27
  else None.

Definition unvis_start (cp c : Z) : res result :=
  if (ch "0" <=? c) && (c <=? ch "7") then
    Ok (UNVIS_NOCHAR, c - ch "0", SS 0 S_OCTAL2)
  else if c =? ch "M" then Ok (UNVIS_NOCHAR, 128, SS 0 S_META)
  else if c =? ch "^" then Ok (UNVIS_NOCHAR, cp, SS 0 S_CTRL)
  else if c =? ch "x" then Ok (UNVIS_NOCHAR, cp, SS 0 S_HEX)
  else if (c =? 10) || (c =? ch "$") then Ok (UNVIS_NOCHAR, cp, SS 0 S_GROUND)
  else match start_letter c with
       | Some v => Ok (UNVIS_VALID, v, SS 0 S_GROUND)
       | None => if isgraph c then Ok (UNVIS_VALID, u8 c, SS 0 S_GROUND) else bad cp
       end.

Definition unvis_meta (cp c : Z) : res result :=
  if c =? ch "-" then Ok (UNVIS_NOCHAR, cp, SS 0 S_META1)
  else if c =? ch "^" then Ok (UNVIS_NOCHAR, cp, SS 0 S_CTRL)
  else bad cp.

Definition unvis_ctrl (cp c : Z) : res result :=
  Ok (UNVIS_VALID, if c =? ch "?" then cp .| 127 else cp .| (c .& 31), SS 0 S_GROUND).

Definition unvis_octal2 (cp c : Z) : res result :=
  if isoctal c
  then Ok (UNVIS_NOCHAR, u8 (Z.shiftl cp 3 + (c - ch "0")), SS 0 S_OCTAL3)
  else Ok (UNVIS_VALIDPUSH, cp, SS 0 S_GROUND).

Definition unvis_octal3 (cp c : Z) : res result :=
  if isoctal c
  then Ok (UNVIS_VALID, u8 (Z.shiftl cp 3 + (c - ch "0")), SS 0 S_GROUND)
  else Ok (UNVIS_VALIDPUSH, cp, SS 0 S_GROUND).

Definition unvis_hex1 (cp uc : Z) : res result :=
  if isxdigit uc then Ok (UNVIS_NOCHAR, xtod uc, SS 0 S_HEX2)
  else Ok (UNVIS_VALIDPUSH, cp, SS 0 S_GROUND).

Definition unvis_hex (cp uc : Z) : res result :=
  if negb (isxdigit uc) then bad cp else unvis_hex1 cp uc.

Definition unvis_hex2 (cp uc : Z) : res result :=
  if isxdigit uc then Ok (UNVIS_VALID, u8 (xtod uc .| Z.shiftl cp 4), S_GROUND)
  else Ok (UNVIS_VALIDPUSH, cp, S_GROUND).

Definition mime_digit (uc : Z) : bool := isxdigit uc && (isdigit uc || isupper uc).

Definition unvis_mime1 (cp uc : Z) : res result :=
  if (uc =? 10) || (uc =? 13) then Ok (UNVIS_NOCHAR, cp, SS 0 S_EATCRNL)
  else if mime_digit uc then Ok (UNVIS_NOCHAR, XTOD uc, SS 0 S_MIME2)
  else bad cp.

Definition unvis_mime2 (cp uc : Z) : res result :=
  if mime_digit uc
  then Ok (UNVIS_VALID, u8 (XTOD uc .| Z.shiftl cp 4), SS 0 S_GROUND)
  else bad cp.

Definition unvis_eatcrnl (cp uc astate : Z) : res result :=
  if (uc =? 13) || (uc =? 10) then Ok (UNVIS_NOCHAR, cp, astate)
  else if uc =? ch "=" then Ok (UNVIS_NOCHAR, cp, SS 0 S_MIME1)
  else Ok (UNVIS_VALID, uc, SS 0 S_GROUND).

(** The search through the table from entry [ia]: [Ok (Some ia)] when the loop
    breaks or runs off the table, [Ok None] for [goto bad]. *)
Fixpoint string_search (fuel ia si : nat) (lc uc : Z) : res (option nat) :=
  match fuel with
  | O => Fault
  | S fuel =>
      if (nv_count <=? ia)%nat then Ok (Some ia) else
      let* prev := match si with O => Ok lc | S si' => nv_name ia si' end in
      if negb (prev =? lc) then Ok None else
      let* cur := nv_name ia si in
      if cur =? uc then Ok (Some ia) else string_search fuel (S ia) si lc uc
  end.

Definition unvis_string (cp uc astate : Z) : res result :=
  let ia := Z.to_nat cp in
  let si := Z.to_nat (GI astate) in
  let* lc := match si with O => Ok 0 | S si' => nv_name ia si' end in
  let uc := if uc =? ch ";" then 0 else uc in
  let* found := string_search (S nv_count) ia si lc uc in
  match found with
  | None => bad cp
  | Some ia =>
      if (nv_count <=? ia)%nat then bad cp
      else if negb (uc =? 0) then
        Ok (UNVIS_NOCHAR, Z.of_nat ia, SS (Z.of_nat (S si)) S_STRING)
      else let* v := nv_value ia in Ok (UNVIS_VALID, v, SS 0 S_GROUND)
  end.

Definition unvis_amp (uc : Z) : res result :=
  if uc =? ch "#" then Ok (UNVIS_NOCHAR, 0, SS 0 S_NUMBER)
  else unvis_string 0 uc (SS 0 S_STRING).

Definition unvis_number (cp uc astate : Z) : res result :=
  if uc =? ch ";" then Ok (UNVIS_VALID, cp, astate)
  else if negb (isdigit uc) then bad cp
  else Ok (UNVIS_NOCHAR, u8 (cp + (cp * 10 + uc - ch "0")), astate).

Definition unvis (cp c astate flag : Z) : res result :=
  let uc := u8 c in
  let st := GS astate in
  if has flag UNVIS_END then unvis_end cp astate
  else if st =? S_GROUND then unvis_ground c astate flag
  else if st =? S_START then unvis_start cp c
  else if st =? S_META then unvis_meta cp c
  else if st =? S_META1 then Ok (UNVIS_VALID, cp .| u8 c, SS 0 S_GROUND)
  else if st =? S_CTRL then unvis_ctrl cp c
  else if st =? S_OCTAL2 then unvis_octal2 cp c
  else if st =? S_OCTAL3 then unvis_octal3 cp c
  else if st =? S_HEX then unvis_hex cp uc
  else if st =? S_HEX1 then unvis_hex1 cp uc
  else if st =? S_HEX2 then unvis_hex2 cp uc
  else if st =? S_MIME1 then unvis_mime1 cp uc
  else if st =? S_MIME2 then unvis_mime2 cp uc
  else if st =? S_EATCRNL then unvis_eatcrnl cp uc astate
  else if st =? S_AMP then unvis_amp uc
  else if st =? S_STRING then unvis_string cp uc astate
  else if st =? S_NUMBER then unvis_number cp uc astate
  else bad cp.

(** ** The string decoders *)

(** The locals of [strnunvisx]: the characters stored through [dst], the space
    left, [t] and [state]. *)
Record dstate := mkD { d_out : list Z; d_len : Z; d_t : Z; d_state : Z }.

(** [CHECKSPACE(); *dst++ = t;] *)
Definition put_char (d : dstate) : res dstate :=
  if d_len d =? 0 then Err ENOSPC
  else Ok (mkD (d_out d ++ [d_t d]) (d_len d - 1) (d_t d) (d_state d)).

(** One character of the source, from the label [again]. *)
Fixpoint unvis_again (fuel : nat) (c flag : Z) (d : dstate) : res dstate :=
  match fuel with
  | O => Fault
  | S fuel =>
      let* (r, t, state) := unvis (d_t d) c (d_state d) flag in
      let d := mkD (d_out d) (d_len d) t state in
      match r with
      | UNVIS_VALID => put_char d
      | UNVIS_VALIDPUSH => let* d := put_char d in unvis_again fuel c flag d
      | UNVIS_NOCHAR => Ok d
      | UNVIS_SYNBAD => Err EINVAL
      end
  end.

(** The while loop; the source characters are [char]s, which are signed. *)
Fixpoint unvis_chars (src : list Z) (flag : Z) (d : dstate) : res dstate :=
  match src with
  | [] => Ok d
  | c :: src => let* d := unvis_again 2 (s8 c) flag d in unvis_chars src flag d
  end.

(** The characters stored before the final NUL; their number is returned. *)
Definition strnunvisx (dlen : Z) (src : list Z) (flag : Z) : res (list Z) :=
  let* d := unvis_chars src flag (mkD [] dlen 0 0) in
  let* (r, t, state) := unvis (d_t d) 0 (d_state d) UNVIS_END in
  let d := mkD (d_out d) (d_len d) t state in
  let* d := match r with UNVIS_VALID => put_char d | _ => Ok d end in
  if d_len d =? 0 then Err ENOSPC else Ok (d_out d).

Definition strunvisx (src : list Z) (flag : Z) : res (list Z) :=
  strnunvisx SIZE_MAX src flag.
Definition strunvis (src : list Z) : res (list Z) := strnunvisx SIZE_MAX src 0.
Definition strnunvis (dlen : Z) (src : list Z) : res (list Z) := strnunvisx dlen src 0.

(** ** Memory safety *)

(** The state between calls: in the middle of an entity name, [cp] indexes the
    table and the position is inside a 7 character field. *)
Definition unvis_inv (cp astate : Z) : Prop :=
  is_byte cp ∧ (GS astate = S_STRING → cp < 100 ∧ 0 <= GI astate <= 6).

Lemma nv_names_fit : Forall (λ '(name, v), (length name ≤ 6)%nat ∧ is_byte v) nv.
Proof. apply (bool_decide_unpack _). vm_compute. exact I. Qed.

Lemma nv_lookup ia : (ia < nv_count)%nat → ∃ name v,
  nv !! ia = Some (name, v) ∧ (length name ≤ 6)%nat ∧ is_byte v.
Proof.
  intros Hia. destruct (lookup_lt_is_Some_2 nv ia) as [[name v] Hl]; [exact Hia|].
  pose proof (Forall_lookup_1 _ _ _ _ nv_names_fit Hl). naive_solver.
Qed.

Lemma nv_name_ok ia si : (ia < nv_count)%nat → (si ≤ 6)%nat →
  ∃ c, nv_name ia si = Ok c ∧ (c ≠ 0 → (si < 6)%nat).
Proof.
  intros Hia Hsi. destruct (nv_lookup ia Hia) as (name & v & Hl & Hn & _).
  unfold nv_name. rewrite Hl. rewrite (proj2 (Nat.ltb_lt si 7)) by lia.
  eexists; split; [done|]. intros Hc.
  destruct (decide (si < length name)%nat); [lia|].
  destruct Hc. apply nth_overflow. lia.
Qed.

Lemma string_search_ok fuel ia si lc uc :
  (nv_count - ia < fuel)%nat → (si ≤ 6)%nat →
  match string_search fuel ia si lc uc with
  | Ok (Some ia') => (ia' < nv_count)%nat → nv_name ia' si = Ok uc
  | Ok None => True
  | _ => False
  end.
Proof.
  revert ia. induction fuel as [|fuel IH]; intros ia Hf Hsi; [lia|].
  cbn [string_search]. destruct (Nat.leb_spec nv_count ia); [lia|].
  assert (∃ p, match si with O => Ok lc | S si' => nv_name ia si' end = Ok p) as [p ->].
  { destruct si as [|si']; [eauto|]. edestruct (nv_name_ok ia si') as (? & ? & _); eauto; lia. }
  cbn [res_bind]. destruct (p =? lc); cbn [negb]; [|done].
  destruct (nv_name_ok ia si) as (c & Hc & _); [lia..|]. rewrite Hc. cbn [res_bind].
  destruct (Z.eqb_spec c uc) as [->|]; [by intros|]. apply IH; lia.
Qed.

Lemma GS_SS_0 b : 0 <= b < 256 → GS (SS 0 b) = b.
Proof.
  intros. unfold GS, SS. cbn. change 255 with (Z.ones 8).
  rewrite Z.land_ones by lia. apply Z.mod_small; lia.
Qed.

Lemma ground_inv cp s : is_byte cp → s <> S_STRING → 0 <= s < 256 → unvis_inv cp (SS 0 s).
Proof. intros ?? Hs. split; [done|]. rewrite GS_SS_0 by done. done. Qed.

Lemma u8_byte z : is_byte (u8 z).
Proof. apply u8_range. Qed.

Lemma lor_byte a b : is_byte a → is_byte b → is_byte (a .| b).
Proof.
  unfold is_byte. intros Ha Hb. split; [apply Z.lor_nonneg; lia|].
  destruct (Z.eq_dec (a .| b) 0); [lia|]. 
  apply (Z.log2_lt_cancel _ 256). rewrite Z.log2_lor by lia.
  change (Z.log2 256) with 8. apply Z.max_lub_lt.
  - destruct (Z.eq_dec a 0); [subst; cbn; lia|]. apply Z.log2_lt_pow2; lia.
  - destruct (Z.eq_dec b 0); [subst; cbn; lia|]. apply Z.log2_lt_pow2; lia.
Qed.

Lemma land_byte a b : 0 <= b < 256 → is_byte (a .& b).
Proof.
  intros Hb. assert (0 <= a .& b) by (apply Z.land_nonneg; lia).
  split; [done|]. replace (a .& b) with (a .& b .& 255).
  - change 255 with (Z.ones 8). rewrite Z.land_ones by lia.
    pose proof (Z.mod_pos_bound (a .& b) (2 ^ 8)). lia.
  - rewrite <- Z.land_assoc. f_equal. change 255 with (Z.ones 8).
    rewrite Z.land_ones by lia. apply Z.mod_small. lia.
Qed.

#[local] Hint Resolve u8_byte lor_byte : unvis.

Ltac ground := apply ground_inv; [auto with unvis|done|cbv; split; congruence].

Definition good_result (x : result) : Prop := unvis_inv x.1.2 x.2.

Lemma bad_good cp : is_byte cp → safe good_result (bad cp).
Proof. intros. ground. Qed.

Lemma GI_SS_string si : (si ≤ 6)%nat → GI (SS (Z.of_nat si) S_STRING) = Z.of_nat si.
Proof. intros. do 7 (destruct si as [|si]; [reflexivity|]). lia. Qed.

Lemma unvis_string_safe cp uc astate :
  0 <= cp < 100 → 0 <= GI astate <= 6 → safe good_result (unvis_string cp uc astate).
Proof.
  intros Hcp Hgi. unfold unvis_string. set (si := Z.to_nat (GI astate)).
  assert (Hsi : (si ≤ 6)%nat) by lia.
  assert (∃ p, match si with O => Ok 0 | S si' => nv_name (Z.to_nat cp) si' end = Ok p)
    as [lc ->].
  { destruct si as [|si']; [eauto|].
    destruct (nv_name_ok (Z.to_nat cp) si') as (? & ? & _); [unfold nv_count; lia..|]. eauto. }
  cbn [res_bind]. set (u := if uc =? _ then 0 else uc).
  pose proof (string_search_ok (S nv_count) (Z.to_nat cp) si lc u ltac:(lia) Hsi) as Hs.
  destruct string_search as [[ia|] | |]; [|apply bad_good; unfold is_byte; lia|done..].
  cbn [res_bind]. destruct (Nat.leb_spec nv_count ia); [apply bad_good; unfold is_byte; lia|].
  specialize (Hs ltac:(lia)). unfold nv_count in *.
  destruct (Z.eqb_spec u 0) as [E|E]; cbn [negb].
  - destruct (nv_lookup ia) as (name & v & Hl & _ & Hv); [unfold nv_count; lia|].
    unfold nv_value. rewrite Hl. cbn. ground.
  - destruct (nv_name_ok ia si) as (c & Hc & Hlt); [unfold nv_count; lia..|].
    rewrite Hs in Hc. injection Hc as ->. specialize (Hlt E). cbn [safe good_result fst snd].
    split; [unfold is_byte; cbn; lia|]. intros _. cbn [fst snd].
    split; [lia|]. rewrite GI_SS_string; lia.
Qed.

Lemma hexdigit_range uc : isxdigit uc = true → 0 <= xtod uc < 16.
Proof.
  unfold isxdigit, xtod, tolower, isupper, isdigit. Zcases; cbn; intros; try discriminate; lia.
Qed.

Lemma mime_digit_range uc : mime_digit uc = true → 0 <= XTOD uc < 16.
Proof.
  unfold mime_digit, isxdigit, XTOD, isupper, isdigit.
  Zcases; cbn; intros; try discriminate; lia.
Qed.

Lemma start_letter_byte c v : start_letter c = Some v → is_byte v.
Proof.
  unfold start_letter, is_byte. intros H.
  repeat (case_match; [injection H as <-; Zcases; try discriminate; lia|]). done.
Qed.

Lemma unvis_safe cp c astate flag :
  unvis_inv cp astate → safe good_result (unvis cp c astate flag).
Proof.
  intros [Hcp Hst]. unfold unvis.
  assert (Hg : ∀ v s, is_byte v → s <> S_STRING → 0 <= s < 256 → unvis_inv v (SS 0 s))
    by (intros; by apply ground_inv).
  assert (Hkeep : GS astate ≠ S_STRING → ∀ v, is_byte v → unvis_inv v astate)
    by (intros ? v ?; by split).
  assert (H0 : is_byte 0) by (unfold is_byte; lia).
  assert (Hlow : is_byte (c .& 31)) by (apply land_byte; lia).
  destruct (has flag UNVIS_END).
  { unfold unvis_end. repeat case_match; cbn; unfold good_result; cbn; [|by split..].
    ground. }
  case_match eqn:E0; [|repeat (case_match; [|])];
  unfold unvis_ground, unvis_start, unvis_meta, unvis_ctrl,
    unvis_octal2, unvis_octal3, unvis_hex, unvis_hex1, unvis_hex2, unvis_mime1,
    unvis_mime2, unvis_eatcrnl, unvis_amp, unvis_number; try (by apply bad_good);
  repeat match goal with
  | |- safe _ (unvis_string _ _ _) => fail 1
  | |- safe _ (bad _) => by apply bad_good
  | |- safe _ (Ok _) => fail 1
  | |- _ => case_match
  end; rewrite ?Z.eqb_eq in *;
  try (apply bad_good; done).
  all: try (unfold good_result; cbn [safe fst snd]; first
   [ apply Hkeep; [match goal with H : GS ?a = _ |- _ => rewrite H; done end|auto with unvis; fail]
   | ground ]).
  all: try match goal with
    | H : isxdigit _ = true |- is_byte (xtod _) =>
        apply hexdigit_range in H; unfold is_byte; lia
    | H : mime_digit _ = true |- is_byte (XTOD _) =>
        apply mime_digit_range in H; unfold is_byte; lia
    | H : start_letter _ = Some _ |- _ => exact (start_letter_byte _ _ H)
    | |- is_byte 128 => unfold is_byte; lia
    | |- is_byte (if _ then _ else _) =>
        case_match; apply lor_byte; auto; unfold is_byte; lia
    end.
  - rewrite andb_true_iff, !Z.leb_le in *. unfold is_byte; lia.
  - apply unvis_string_safe; [lia|cbv; split; congruence].
  - apply unvis_string_safe; [|naive_solver]. unfold is_byte in Hcp. naive_solver lia.
Qed.

(** The decoder's invariant over a string: it has stored at most the space it
    was given, and accounts for what is left. *)
Definition dstate_inv (dlen : Z) (d : dstate) : Prop :=
  unvis_inv (d_t d) (d_state d) ∧ 0 <= d_len d ∧
  Z.of_nat (length (d_out d)) + d_len d = dlen ∧ Forall is_byte (d_out d).

Lemma put_char_safe dlen d : dstate_inv dlen d → safe (dstate_inv dlen) (put_char d).
Proof.
  intros (Hi & Hl & Hs & Ho). unfold put_char. case_match eqn:E; [done|].
  rewrite Z.eqb_neq in E. split_and!; cbn; [done|lia|rewrite length_app; cbn; lia|].
  apply Forall_app; split; [done|]. constructor; [apply Hi|done].
Qed.

(** A pushed back character leaves the machine in its ground state, where
    nothing is pushed back again: two rounds are enough. *)
Definition push_free (r : res result) : Prop :=
  ∀ cp st, r = Ok (UNVIS_VALIDPUSH, cp, st) → st = S_GROUND.

Lemma push_free_ok ret cp st :
  (ret = UNVIS_VALIDPUSH → st = S_GROUND) → push_free (Ok (ret, cp, st)).
Proof. intros H ?? [= -> -> ->]. auto. Qed.

Lemma push_free_string cp uc astate : push_free (unvis_string cp uc astate).
Proof.
  unfold unvis_string. intros cp' st H. apply res_bind_Ok in H as (lc & _ & H).
  apply res_bind_Ok in H as ([ia|] & _ & H); [|discriminate].
  repeat (case_match; [discriminate|]). apply res_bind_Ok in H as (v & _ & H). discriminate.
Qed.

Lemma unvis_push_ground cp c astate flag : push_free (unvis cp c astate flag).
Proof.
  unfold unvis, unvis_end, unvis_ground, unvis_start, unvis_meta, unvis_ctrl,
    unvis_octal2, unvis_octal3, unvis_hex, unvis_hex1, unvis_hex2, unvis_mime1,
    unvis_mime2, unvis_eatcrnl, unvis_number, unvis_amp, bad.
  repeat match goal with
  | |- push_free (Ok _) => apply push_free_ok; done
  | |- push_free (unvis_string _ _ _) => apply push_free_string
  | |- _ => case_match
  end.
Qed.

Lemma unvis_ground_no_push cp c flag cp' st :
  unvis cp c S_GROUND flag ≠ Ok (UNVIS_VALIDPUSH, cp', st).
Proof.
  unfold unvis, unvis_end, unvis_ground.
  repeat (case_match; try discriminate).
Qed.

Lemma put_char_ground dlen d : dstate_inv dlen d → 
  safe (λ d', dstate_inv dlen d' ∧ d_state d' = d_state d) (put_char d).
Proof.
  intros Hd. pose proof (put_char_safe dlen d Hd) as H. unfold put_char in *.
  case_match; [done|]. by split.
Qed.

Lemma unvis_again_safe dlen c flag d :
  dstate_inv dlen d → safe (dstate_inv dlen) (unvis_again 2 c flag d).
Proof.
  intros Hd. cbn [unvis_again].
  assert (Hu : ∀ d, dstate_inv dlen d → ∀ r t st,
    unvis (d_t d) c (d_state d) flag = Ok (r, t, st) →
    dstate_inv dlen (mkD (d_out d) (d_len d) t st)).
  { intros d' (Hi & Hr) r t st E. pose proof (unvis_safe _ c _ flag Hi) as Hs.
    rewrite E in Hs. split; [exact Hs|exact Hr]. }
  pose proof (unvis_safe (d_t d) c (d_state d) flag (proj1 Hd)) as Hs.
  destruct unvis as [[[r t] st]| |] eqn:E; [|done..]. cbn [res_bind].
  apply Hu in E as Hd1; [|done]. destruct r; [by apply put_char_safe| |done..].
  apply unvis_push_ground in E as ->.
  eapply safe_bind; [by apply (put_char_ground dlen)|]. intros d2 [Hd2 Hst]. cbn [d_state] in Hst.
  pose proof (unvis_safe (d_t d2) c (d_state d2) flag (proj1 Hd2)) as Hs2.
  destruct (unvis (d_t d2)) as [[[r t2] st2]| |] eqn:E2; [|done..]. cbn [res_bind].
  rewrite Hst in E2. pose proof (unvis_ground_no_push (d_t d2) c flag t2 st2).
  rewrite <- Hst in E2. apply Hu in E2 as Hd3; [|done].
  destruct r; [by apply put_char_safe| |done..]; rewrite Hst in E2; by destruct (unvis_ground_no_push _ _ _ _ _ E2).
Qed.

Lemma unvis_chars_safe dlen src flag d :
  dstate_inv dlen d → safe (dstate_inv dlen) (unvis_chars src flag d).
Proof.
  revert d. induction src as [|c src IH]; intros d Hd; cbn [unvis_chars]; [done|].
  eapply safe_bind; [by apply unvis_again_safe|]. auto.
Qed.

(** C19.  strnunvisx is memory safe: whatever the source string, the flags and
    the size [dlen] of the destination, it reads inside the entity table, stores
    at most [dlen] characters, the terminating NUL included, pushes a character
    back at most once, and every character it stores is a byte. *)
Theorem strnunvisx_memory_safe dlen src flag :
  0 <= dlen →
  safe (λ out, Z.of_nat (length out) < dlen ∧ Forall is_byte out)
    (strnunvisx dlen src flag).
Proof.
  intros Hdlen. unfold strnunvisx.
  eapply safe_bind.
  { apply (unvis_chars_safe dlen). split_and!; cbn; [split; [unfold is_byte; lia|done]|lia..|].
    constructor. }
  intros d (Hi & Hr). pose proof (unvis_safe (d_t d) 0 (d_state d) UNVIS_END Hi) as Hs.
  destruct unvis as [[[r t] st]| |]; [|done..]. cbn [res_bind].
  assert (Hd : dstate_inv dlen (mkD (d_out d) (d_len d) t st)) by (split; done).
  eapply (safe_bind (dstate_inv dlen)).
  { destruct r; [by apply put_char_safe|done..]. }
  intros d' (_ & Hl & Hn & Ho). case_match eqn:E; [done|].
  rewrite Z.eqb_neq in E. cbn. split; [lia|done].
Qed.

Lemma strnunvisx_memory_safe_witness :
  safe (λ out, Z.of_nat (length out) < 4 ∧ Forall is_byte out)
    (strnunvisx 4 (str "a&reg;b") VIS_HTTP1866).
Proof. apply (strnunvisx_memory_safe 4). lia. Defined.

(** ** Entities *)

(** Every name of the entity table, written between [&] and [;], decodes to
    its character under VIS_HTTP1866, and nothing of it remains in the state. *)
Theorem strunvisx_entity name v :
  (name, v) ∈ nv →
  strunvisx (ch "&" :: name ++ [ch ";"]) VIS_HTTP1866 = Ok [v] ∧
  unvis_chars (ch "&" :: name ++ [ch ";"]) VIS_HTTP1866 (mkD [] SIZE_MAX 0 S_GROUND)
    = Ok (mkD [v] (SIZE_MAX - 1) v S_GROUND).
Proof.
  revert name v. cut (Forall (λ '(name, v),
    strunvisx (ch "&" :: name ++ [ch ";"]) VIS_HTTP1866 = Ok [v] ∧
    unvis_chars (ch "&" :: name ++ [ch ";"]) VIS_HTTP1866 (mkD [] SIZE_MAX 0 S_GROUND)
      = Ok (mkD [v] (SIZE_MAX - 1) v S_GROUND)) nv).
  { rewrite Forall_forall. intros H name v. apply (H (name, v)). }
  unfold nv. repeat (apply Forall_cons; split; [split; vm_compute; reflexivity|]). constructor.
Qed.

Lemma strunvisx_entity_witness :
  (str "yuml", 255) ∈ nv ∧ strunvisx (str "&yuml;") VIS_HTTP1866 = Ok [255].
Proof.
  assert (H : (str "yuml", 255) ∈ nv).
  { apply (bool_decide_unpack _). vm_compute. exact I. }
  split; [exact H|]. exact (proj1 (strunvisx_entity _ _ H)).
Defined.

Lemma unvis_number_digit acc c :
  isdigit c = true →
  unvis acc (s8 c) S_NUMBER VIS_HTTP1866
    = Ok (UNVIS_NOCHAR, u8 (11 * acc + (c - ch "0")), S_NUMBER).
Proof.
  intros Hc. assert (48 <= c <= 57)
    by (unfold isdigit in Hc; rewrite andb_true_iff, !Z.leb_le in Hc; exact Hc).
  rewrite s8_small by lia.
  change (unvis acc c S_NUMBER VIS_HTTP1866) with (unvis_number acc (u8 c) S_NUMBER).
  unfold unvis_number. rewrite u8_small, Hc by lia.
  rewrite (proj2 (Z.eqb_neq c 59)) by lia. cbn [negb]. do 4 f_equal. lia.
Qed.

(** A numeric entity is not read in decimal: with digits [ds], the value
    stored is their value in base eleven, because the code adds the old value
    once more; and the machine stays in the number state instead of returning
    to the ground state, so the next character is taken as a digit too. *)
Theorem unvis_numeric_entity ds out len t :
  Forall (λ c, isdigit c = true) ds → ds ≠ [] → 0 < len →
  let v := foldl (λ acc c, u8 (11 * acc + (c - ch "0"))) 0 ds in
  unvis_chars (str "&#" ++ ds ++ [ch ";"]) VIS_HTTP1866 (mkD out len t S_GROUND)
    = Ok (mkD (out ++ [v]) (len - 1) v S_NUMBER).
Proof.
  intros Hds _ Hlen v. cbn [app unvis_chars].
  change (unvis_again 2 (s8 38) VIS_HTTP1866 (mkD out len t S_GROUND))
    with (Ok (mkD out len 0 S_AMP)). cbn [res_bind].
  change (unvis_again 2 (s8 35) VIS_HTTP1866 (mkD out len 0 S_AMP))
    with (Ok (mkD out len 0 S_NUMBER)). cbn [res_bind].
  subst v. generalize 0. induction Hds as [|c ds Hc Hds IH]; intros acc.
  - cbn [foldl app unvis_chars].
    replace (unvis_again 2 (s8 59) VIS_HTTP1866 (mkD out len acc S_NUMBER))
      with (put_char (mkD out len acc S_NUMBER)) by reflexivity.
    unfold put_char. cbn. rewrite (proj2 (Z.eqb_neq len 0)) by lia. reflexivity.
  - cbn [foldl app unvis_chars].
    replace (unvis_again 2 (s8 c) VIS_HTTP1866 (mkD out len acc S_NUMBER))
      with (Ok (mkD out len (u8 (11 * acc + (c - 48))) S_NUMBER)).
    { cbn [res_bind]. apply IH. }
    cbn [unvis_again d_state d_t d_out d_len]. by rewrite unvis_number_digit.
Qed.

Lemma unvis_numeric_entity_witness :
  unvis_chars (str "&#65;") VIS_HTTP1866 (mkD [] 10 0 S_GROUND)
    = Ok (mkD [71] 9 71 S_NUMBER) ∧
  strunvisx (str "&#65;!") VIS_HTTP1866 = Err EINVAL.
Proof.
  split; [|reflexivity].
  apply (unvis_numeric_entity (str "65") [] 10 0); [|discriminate|lia].
  repeat constructor.
Defined.

(** The table search compares only the last character matched, so a
    misspelt entity can be accepted: [&rect;] decodes to the section sign. *)
Theorem unvis_accepts_misspelt :
  (∀ v, (str "rect", v) ∉ nv) ∧ strunvisx (str "&rect;") VIS_HTTP1866 = Ok [167] ∧
  (str "sect", 167) ∈ nv.
Proof.
  split_and!; [|reflexivity|apply (bool_decide_unpack _); vm_compute; exact I].
  intros v Hv. apply (list_elem_of_fmap_2 fst) in Hv. revert Hv. cbn [fst].
  apply (bool_decide_unpack _). vm_compute. exact I.
Qed.
