(* ===== verification/Vis.v ===== *)
(** * vis: lib/netbsd/vis.c

    The visual encoder.  The source string is converted to wide characters, each
    of them is encoded by one of three styles, and the encoding is converted back
    to bytes.  The locale is the C library's: class [Locale] has the functions
    vis.c calls, [LocaleOk] what ISO C says of their results, and [AsciiLocale]
    that the locale extends ASCII and [iscgraph] is [isgraph] of the C locale.  A wide character is a non-negative integer. *)

From S2P Require Import Prelude Libc Unvis.

(** ** Flags *)

Definition VIS_OCTAL : Z := 0x0001.
Definition VIS_CSTYLE : Z := 0x0002.
Definition VIS_SP : Z := 0x0004.
Definition VIS_TAB : Z := 0x0008.
Definition VIS_NL : Z := 0x0010.
Definition VIS_SAFE : Z := 0x0020.
Definition VIS_NOSLASH : Z := 0x0040.
Definition VIS_HTTPSTYLE : Z := 0x0080.
Definition VIS_GLOB : Z := 0x1000.
Definition VIS_SHELL : Z := 0x2000.
Definition VIS_NOLOCALE : Z := 0x4000.
Definition VIS_DQ : Z := 0x8000.

(** ** The locale *)

(** [mbrtowc] is given the bytes it may read and returns its result, negative
    for -1 and -2, the wide character and the new state; [wcrtomb] the bytes it
    stores, or [None] for -1; [mbsrtowcs s n] at most [n] wide characters, or the
    offset in [s] it stops at when the bytes there are not a character. *)
Class Locale := {
  mbstate : Type;
  mbstate0 : mbstate;
  MB_LEN_MAX : Z;
  MB_CUR_MAX : Z;
  mbrtowc : list Z → mbstate → Z * Z * mbstate;
  wcrtomb : Z → mbstate → option (list Z) * mbstate;
  mbsrtowcs : list Z → Z → list Z + nat;
  iswgraph : Z → bool;
  iswcntrl : Z → bool;
  iswalnum : Z → bool;
  iswspace : Z → bool;
  iscgraph : Z → bool }.

Class LocaleOk (L : Locale) : Prop := {
  mb_max : 1 <= MB_CUR_MAX <= MB_LEN_MAX;
  mb_len_max : 4 <= MB_LEN_MAX;
  mbrtowc_len : ∀ s st n wc st', mbrtowc s st = (n, wc, st') → n <= Z.of_nat (length s);
  mbrtowc_wc : ∀ s st n wc st', mbrtowc s st = (n, wc, st') → 0 <= wc < 2 ^ 31;
  wcrtomb_len : ∀ wc st bs st', wcrtomb wc st = (Some bs, st') →
    1 <= Z.of_nat (length bs) <= MB_CUR_MAX;
  mbsrtowcs_len : ∀ s n ws, 0 <= n → mbsrtowcs s n = inl ws → Z.of_nat (length ws) <= n }.

Class AsciiLocale (L : Locale) : Prop := {
  ascii_cntrl : ∀ c, 0 <= c < 128 → iswcntrl c = iscntrl c;
  ascii_alnum : ∀ c, 0 <= c < 128 → iswalnum c = isalnum c;
  ascii_space : ∀ c, 0 <= c < 128 → iswspace c = isspace c;
  c_graph : ∀ c, is_byte c → iscgraph c = isgraph c }.

Section vis.
Context {L : Locale}.

Definition ISGRAPH (flags c : Z) : bool :=
  if has flags VIS_NOLOCALE then iscgraph c else iswgraph c.

Definition iswoctal (c : Z) : bool := (ch "0" <=? u8 c) && (u8 c <=? ch "7").
Definition iswwhite (c : Z) : bool := (c =? 32) || (c =? 9) || (c =? 10).
Definition iswsafe (c : Z) : bool := (c =? 8) || (c =? 7) || (c =? 13).
Definition xtoa (n : Z) : Z := nth (Z.to_nat n) (str "0123456789abcdef") 0.
Definition XTOA (n : Z) : Z := nth (Z.to_nat n) (str "0123456789ABCDEF") 0.

Definition MAXEXTRAS : Z := 30.
Definition char_shell : list Z :=
  [ch "'"; ch "`"; 34; ch ";"; ch "&"; ch "<"; ch ">"; ch "("; ch ")"; ch "|";
   ch "{"; ch "}"; ch "]"; 92; ch "$"; ch "!"; ch "^"; ch "~"].
Definition char_glob : list Z := str "*?[#".

(** [wcschr(s, c) != NULL]: the terminating NUL is found too. *)
Definition wcschr (s : list Z) (c : Z) : bool := (c =? 0) || existsb (Z.eqb c) s.

(** ** Encoding one character *)

(** The C escape of a character that has one, with the digits that keep a NUL
    from absorbing an octal digit that follows. *)
Definition cstyle (c flags nextc : Z) : option (list Z) :=
  if c =? 10 then Some [92; ch "n"]
  else if c =? 13 then Some [92; ch "r"]
  else if c =? 8 then Some [92; ch "b"]
  else if c =? 7 then Some [92; ch "a"]
  else if c =? 11 then Some [92; ch "v"]
  else if c =? 9 then Some [92; ch "t"]
  else if c =? 12 then Some [92; ch "f"]
  else if c =? 32 then Some [92; ch "s"]
  else if c =? 0 then
    Some ([92; ch "0"] ++ if iswoctal nextc then [ch "0"; ch "0"] else [])
  else if existsb (Z.eqb c) (str "nrbavtfs0M^$") then None
  else if ISGRAPH flags c && negb (iswoctal c) then Some [92; c]
  else None.

Definition do_mbyte (c flags nextc : Z) (iswextra : bool) : list Z :=
  match (if has flags VIS_CSTYLE then cstyle c flags nextc else None) with
  | Some out => out
  | None =>
      if iswextra || (c .& 127 =? 32) || has flags VIS_OCTAL then
        [92; u8 (Z.shiftr (u8 c) 6 .& 3) + ch "0";
         u8 (Z.shiftr (u8 c) 3 .& 7) + ch "0"; (c .& 7) + ch "0"]
      else
        (if has flags VIS_NOSLASH then [] else [92]) ++
        let '(meta, c) := if has c 128 then ([ch "M"], c .& 127) else ([], c) in
        meta ++
        if iswcntrl c then [ch "^"; if c =? 127 then ch "?" else c + ch "@"]
        else [ch "-"; c]
  end.

(** The loop over the bytes of a wide character, from byte [n - 1] down. *)
Fixpoint svis_bytes (n : nat) (c wmsk flags nextc : Z) (iswextra : bool) : list Z :=
  match n with
  | O => []
  | S i =>
      let shft := Z.of_nat i * 8 in
      let bmsk := Z.shiftl 0xff shft in
      let wmsk := wmsk .| bmsk in
      (if has c wmsk || (i =? 0)%nat
       then do_mbyte (Z.shiftr (c .& bmsk) shft) flags nextc iswextra else [])
      ++ svis_bytes i c wmsk flags nextc iswextra
  end.

Definition do_svis (c flags nextc : Z) (extra : list Z) : list Z :=
  let iswextra := wcschr extra c in
  if negb iswextra && (ISGRAPH flags c || iswwhite c || (has flags VIS_SAFE && iswsafe c))
  then [c]
  else svis_bytes 8 c 0 flags nextc iswextra.

Definition do_hvis (c flags nextc : Z) (extra : list Z) : list Z :=
  if iswalnum c || existsb (Z.eqb c) (str "$-_.+!*'(),")
  then do_svis c flags nextc extra
  else [ch "%"; xtoa (Z.shiftr c 4 .& 0xf); xtoa (c .& 0xf)].

Definition do_mvis (c flags nextc : Z) (extra : list Z) : list Z :=
  if negb (c =? 10) &&
     ((iswspace c && ((nextc =? 13) || (nextc =? 10)))
      || (negb (iswspace c) && ((c <? 33) || ((60 <? c) && (c <? 62)) || (126 <? c)))
      || wcschr (str "#$@[\]^`{|}~") c)
  then [ch "="; XTOA (Z.shiftr c 4 .& 0xf); XTOA (c .& 0xf)]
  else do_svis c flags nextc extra.

Definition getvisfun (flags : Z) : Z → Z → Z → list Z → list Z :=
  if has flags VIS_HTTPSTYLE then do_hvis
  else if has flags VIS_MIMESTYLE then do_mvis
  else do_svis.

(** ** The extra characters *)

Context (alloc : Z → bool).

(** [src] is what can be read from the argument: its characters and the NUL. *)
Definition extra_chars (flags : Z) (s : list Z) : res (list Z) :=
  let len := length s in
  if has flags VIS_NOLOCALE then Ok s
  else match mbsrtowcs s (Z.of_nat len) with
       | inl ws => Ok ws
       | inr off =>
           (* [mbsrtowcs] has moved [src] to the invalid sequence *)
           let rest := drop off (s ++ [0]) in
           if (length rest <? len)%nat then Fault else Ok (take len rest)
       end.

Definition extra_flags (flags : Z) : list Z :=
  (if has flags VIS_GLOB then char_glob else []) ++
  (if has flags VIS_SHELL then char_shell else []) ++
  (if has flags VIS_SP then [32] else []) ++
  (if has flags VIS_TAB then [9] else []) ++
  (if has flags VIS_NL then [10] else []) ++
  (if has flags VIS_DQ then [34] else []) ++
  (if has flags VIS_NOSLASH then [] else [92]).

(** [None] when there is no memory. *)
Definition makeextralist (flags : Z) (s : list Z) : res (option (list Z)) :=
  let cap := Z.of_nat (length s) + MAXEXTRAS in
  if negb (alloc cap) then Ok None else
  let* d := extra_chars flags s in
  let dst := d ++ extra_flags flags in
  if Z.of_nat (length dst) <? cap then Ok (Some dst) else Fault.

(** ** Encoding a string *)

(** The input loop: [mbsrc] is what can be read of the source, [mbslength] what
    is left to convert, [src] the wide characters stored, [cap] of them at most. *)
Fixpoint input_loop (fuel : nat) (cap : Z) (mbsrc : list Z) (mbslength : Z)
    (cerr : bool) (st : mbstate) (src : list Z) : res (list Z * bool) :=
  match fuel with
  | O => Fault
  | S fuel =>
      if mbslength <=? 0 then Ok (src, cerr) else
      if cap <=? Z.of_nat (length src) then Fault else
      let n := if mbslength <? MB_LEN_MAX then mbslength else MB_LEN_MAX in
      let* (clen, wc, st) :=
        if cerr then Ok (0, 0, st)
        else if Z.of_nat (length mbsrc) <? n then Fault
        else Ok (mbrtowc (take (Z.to_nat n) mbsrc) st) in
      let* (clen, wc, cerr) :=
        if cerr || (clen <? 0)
        then match mbsrc with [] => Fault | b :: _ => Ok (1, u8 b, true) end
        else Ok (clen, wc, cerr) in
      let clen := if clen =? 0 then 1 else clen in
      if mbslength <? clen then Fault
      else input_loop fuel cap (drop (Z.to_nat clen) mbsrc) (mbslength - clen)
             cerr st (src ++ [wc])
  end.

(** The main loop: [src] starts at the character to encode and is followed by
    the zeros [calloc] left; [dst] holds at most [cap] wide characters. *)
Fixpoint vis_loop (len : nat) (cap : Z) (flags : Z) (extra src dst : list Z)
    : res (list Z) :=
  match len with
  | O => Ok dst
  | S len =>
      match src with
      | [] => Fault
      | c :: src =>
          let dst := dst ++ getvisfun flags c flags (peek src) extra in
          if cap <? Z.of_nat (length dst) then Fault
          else vis_loop len cap flags extra src dst
      end
  end.

(** The bytes of a wide character that has no multibyte encoding, the position
    [clen] counting them against [maxolen]. *)
Fixpoint wide_bytes (n : nat) (wc wmsk olen maxolen : Z) (bs : list Z) : res (list Z) :=
  match n with
  | O => Ok bs
  | S i =>
      let shft := Z.of_nat i * 8 in
      let bmsk := Z.shiftl 0xff shft in
      let wmsk := wmsk .| bmsk in
      if has wc wmsk || (i =? 0)%nat then
        if maxolen <=? olen + Z.of_nat (length bs) + 1 then Err ENOSPC
        else wide_bytes i wc wmsk olen maxolen (bs ++ [u8 (Z.shiftr (wc .& bmsk) shft)])
      else wide_bytes i wc wmsk olen maxolen bs
  end.

(** The output loop, into a destination with [room] bytes. *)
Fixpoint output_loop (dst : list Z) (maxolen room : Z) (cerr : bool) (st : mbstate)
    (out : list Z) : res (list Z * bool) :=
  match dst with
  | [] => Ok (out, cerr)
  | wc :: dst =>
      let olen := Z.of_nat (length out) in
      let* (conv, st) :=
        if cerr then Ok (None, st)
        else
          let '(bs, st) := wcrtomb wc st in
          match bs with
          | None => Ok (None, st)
          | Some bs =>
              let clen := Z.of_nat (length bs) in
              if (MB_CUR_MAX <? maxolen - olen) || (clen =? 0) then Ok (Some bs, st)
              else if maxolen <=? olen + clen then Err ENOSPC
              else Ok (Some bs, st)
          end in
      let* (bs, cerr) :=
        match conv with
        | Some bs => Ok (bs, cerr)
        | None => let* bs := wide_bytes 8 wc 0 olen maxolen [] in Ok (bs, true)
        end in
      let out := out ++ bs in
      if (maxolen <=? Z.of_nat (length out)) || (room <? Z.of_nat (length out)) then Fault
      else output_loop dst maxolen room cerr st out
  end.

(** [room] is the size of the caller's buffer, [None] when it asks for one to be
    allocated; the NUL that ends the result is not part of it. *)
Definition istrsenvisx (room : option Z) (dlen : option Z) (mbsrc : list Z)
    (mblength flags : Z) (mbextra : list Z) (cerr_ptr : option bool)
    : res (list Z * option bool) :=
  let mbslength := if mblength =? 1 then mblength + 1 else mblength in
  if (SIZE_MAX - 1) / 16 <? mbslength then Err ENOMEM else
  if negb (alloc (mbslength + 1)) then Err ENOMEM else
  if negb (alloc (16 * mbslength + 1)) then Err ENOMEM else
  let* room := match room with
               | Some r => Ok r
               | None => if alloc (16 * mbslength + 1) then Ok (16 * mbslength + 1)
                         else Err ENOMEM
               end in
  let cerr := if has flags VIS_NOLOCALE then true
              else match cerr_ptr with Some e => e | None => false end in
  let* (src, cerr) := input_loop (S (Z.to_nat mbslength)) (mbslength + 1) mbsrc
                        mbslength cerr mbstate0 [] in
  let len := Z.min (Z.of_nat (length src)) mblength in
  let* extra := makeextralist flags mbextra in
  match extra with
  | None =>
      match dlen with
      | Some 0 => Err ENOSPC
      | _ => if room <? 1 then Fault else Ok ([], cerr_ptr)
      end
  | Some extra =>
      let zeros := replicate (Z.to_nat (mbslength + 1) - length src) 0 in
      let* dst := vis_loop (Z.to_nat len) (16 * mbslength) flags extra (src ++ zeros) [] in
      let dst := cstr dst in
      let dlen' := Z.of_nat (length dst) in
      let* maxolen := match dlen with
                      | Some 0 => Err ENOSPC
                      | Some n => Ok n
                      | None => if (SIZE_MAX - 1) / MB_LEN_MAX <? dlen' then Err ENOSPC
                                else Ok (dlen' * MB_LEN_MAX + 1)
                      end in
      let* (out, cerr) := output_loop dst maxolen room cerr mbstate0 [] in
      if (maxolen <=? Z.of_nat (length out)) || (room <=? Z.of_nat (length out)) then Fault
      else Ok (out, if has flags VIS_NOLOCALE then option_map (λ _, cerr) cerr_ptr
                    else cerr_ptr)
  end.

(** ** The interface *)

Definition out_of (r : res (list Z * option bool)) : res (list Z) :=
  let* (out, _) := r in Ok out.

(** A string argument is read up to its NUL. *)
Definition istrsenvisxl (room dlen : option Z) (s : list Z) (flags : Z) (mbextra : list Z)
    (cerr_ptr : option bool) : res (list Z * option bool) :=
  istrsenvisx room dlen (s ++ [0]) (Z.of_nat (length s)) flags mbextra cerr_ptr.

Definition svis (room c flags nextc : Z) (mbextra : list Z) : res (list Z) :=
  out_of (istrsenvisx (Some room) None [u8 c; u8 nextc] 1 flags mbextra None).
Definition snvis (room dlen c flags nextc : Z) (mbextra : list Z) : res (list Z) :=
  out_of (istrsenvisx (Some room) (Some dlen) [u8 c; u8 nextc] 1 flags mbextra None).
Definition strsvis (room : Z) (s : list Z) (flags : Z) (mbextra : list Z) : res (list Z) :=
  out_of (istrsenvisxl (Some room) None s flags mbextra None).
Definition strsnvis (room dlen : Z) (s : list Z) (flags : Z) (mbextra : list Z)
    : res (list Z) :=
  out_of (istrsenvisxl (Some room) (Some dlen) s flags mbextra None).
Definition strsvisx (room : Z) (mbsrc : list Z) (len flags : Z) (mbextra : list Z)
    : res (list Z) :=
  out_of (istrsenvisx (Some room) None mbsrc len flags mbextra None).
Definition strsnvisx (room dlen : Z) (mbsrc : list Z) (len flags : Z) (mbextra : list Z)
    : res (list Z) :=
  out_of (istrsenvisx (Some room) (Some dlen) mbsrc len flags mbextra None).
Definition strsenvisx (room dlen : Z) (mbsrc : list Z) (len flags : Z) (mbextra : list Z)
    (cerr_ptr : option bool) : res (list Z * option bool) :=
  istrsenvisx (Some room) (Some dlen) mbsrc len flags mbextra cerr_ptr.

Definition vis (room c flags nextc : Z) : res (list Z) :=
  out_of (istrsenvisx (Some room) None [u8 c; u8 nextc] 1 flags [] None).
Definition nvis (room dlen c flags nextc : Z) : res (list Z) :=
  out_of (istrsenvisx (Some room) (Some dlen) [u8 c; u8 nextc] 1 flags [] None).
Definition strvis (room : Z) (s : list Z) (flags : Z) : res (list Z) :=
  out_of (istrsenvisxl (Some room) None s flags [] None).
Definition strnvis (room dlen : Z) (s : list Z) (flags : Z) : res (list Z) :=
  out_of (istrsenvisxl (Some room) (Some dlen) s flags [] None).
Definition stravis (s : list Z) (flags : Z) : res (list Z) :=
  out_of (istrsenvisxl None None s flags [] None).
Definition strvisx (room : Z) (mbsrc : list Z) (len flags : Z) : res (list Z) :=
  out_of (istrsenvisx (Some room) None mbsrc len flags [] None).
Definition strnvisx (room dlen : Z) (mbsrc : list Z) (len flags : Z) : res (list Z) :=
  out_of (istrsenvisx (Some room) (Some dlen) mbsrc len flags [] None).
Definition strenvisx (room dlen : Z) (mbsrc : list Z) (len flags : Z)
    (cerr_ptr : option bool) : res (list Z * option bool) :=
  istrsenvisx (Some room) (Some dlen) mbsrc len flags [] cerr_ptr.

End vis.

(** ** The size of an encoding *)

Lemma high_clear c k n : 0 <= n → 0 <= c < 2 ^ n → k .& Z.ones n = 0 → has c k = false.
Proof.
  intros Hn Hc Hk. unfold has.
  assert (c .& Z.ones n = c) as <- by (rewrite Z.land_ones by lia; apply Z.mod_small; lia).
  rewrite <- Z.land_assoc, (Z.land_comm (Z.ones n)), Hk, Z.land_0_r. done.
Qed.

Section sizes.
Context {L : Locale}.

Lemma cstyle_length c flags nextc out :
  cstyle c flags nextc = Some out → (length out ≤ 4)%nat.
Proof.
  unfold cstyle. intros H. repeat (case_match; try discriminate);
    injection H as <-; cbn; lia.
Qed.

Lemma do_mbyte_length c flags nextc e : (length (do_mbyte c flags nextc e) ≤ 4)%nat.
Proof.
  unfold do_mbyte. case_match eqn:E.
  { case_match; [by eapply cstyle_length|discriminate]. }
  repeat case_match; simplify_eq; cbn; lia.
Qed.

Lemma svis_bytes_low n c w flags nextc e :
  (length (svis_bytes n c w flags nextc e) ≤ 4 * n)%nat.
Proof.
  revert w. induction n as [|n IH]; intros w; cbn [svis_bytes]; [cbn; lia|].
  rewrite length_app. specialize (IH (w .| Z.shiftl 255 (Z.of_nat n * 8))).
  case_match; [pose proof (do_mbyte_length
    (Z.shiftr (c .& Z.shiftl 255 (Z.of_nat n * 8)) (Z.of_nat n * 8)) flags nextc e)|cbn];
    lia.
Qed.

Lemma svis_bytes_wide c flags nextc e :
  0 <= c < 2 ^ 32 →
  svis_bytes 8 c 0 flags nextc e = svis_bytes 4 c (Z.shiftl (Z.ones 32) 32) flags nextc e.
Proof.
  intros Hc. do 4 (cbn [svis_bytes]; rewrite (high_clear c _ 32) by (done || reflexivity);
    cbn [orb Nat.eqb app]). reflexivity.
Qed.

Lemma svis_bytes_byte c flags nextc e :
  is_byte c → svis_bytes 8 c 0 flags nextc e = do_mbyte c flags nextc e.
Proof.
  intros Hc. do 7 (cbn [svis_bytes]; rewrite (high_clear c _ 8) by (done || reflexivity);
    cbn [orb Nat.eqb app]). cbn [svis_bytes Nat.eqb]. rewrite orb_true_r, app_nil_r.
  f_equal. rewrite Z.shiftr_0_r. change (Z.shiftl 255 (Z.of_nat 0 * 8)) with (Z.ones 8).
  rewrite Z.land_ones by lia. apply Z.mod_small. exact Hc.
Qed.

Lemma visfun_length flags c nextc extra :
  0 <= c < 2 ^ 32 → (length (getvisfun flags c flags nextc extra) ≤ 16)%nat.
Proof.
  intros Hc.
  assert (Hs : (length (do_svis c flags nextc extra) ≤ 16)%nat).
  { unfold do_svis. case_match; [cbn; lia|]. rewrite svis_bytes_wide by done.
    apply svis_bytes_low. }
  unfold getvisfun, do_hvis, do_mvis. repeat case_match; cbn; lia.
Qed.

Lemma visfun_length_byte flags c nextc extra :
  is_byte c → (length (getvisfun flags c flags nextc extra) ≤ 4)%nat.
Proof.
  intros Hc.
  assert (Hs : (length (do_svis c flags nextc extra) ≤ 4)%nat).
  { unfold do_svis. case_match; [cbn; lia|]. rewrite svis_bytes_byte by done.
    apply do_mbyte_length. }
  unfold getvisfun, do_hvis, do_mvis. repeat case_match; cbn; lia.
Qed.

End sizes.

(** ** The C locale *)

#[export] Instance C_locale : Locale := {|
  mbstate := unit; mbstate0 := tt; MB_LEN_MAX := 16; MB_CUR_MAX := 1;
  mbrtowc := λ bs st, (if peek bs =? 0 then 0 else 1, u8 (peek bs), st);
  wcrtomb := λ wc st, (if wc <? 256 then Some [u8 wc] else None, st);
  mbsrtowcs := λ bs n, inl (take (Z.to_nat n) bs);
  iswgraph := isgraph; iswcntrl := iscntrl; iswalnum := isalnum; iswspace := isspace;
  iscgraph := isgraph |}.

#[export] Instance C_locale_ok : LocaleOk C_locale.
Proof.
  split; cbn.
  - lia.
  - lia.
  - intros bs ? ? ? ? [= <- _ _]. destruct bs as [|b bs]; cbn; [lia|]. case_match; lia.
  - intros bs ? ? ? ? [= _ <- _]. pose proof (u8_range (peek bs)). lia.
  - intros wc ? bs ? [= H _]. destruct (wc <? 256); [|discriminate]. injection H as <-. cbn. lia.
  - intros ? ? ? ? [= <-]. rewrite length_take. lia.
Qed.

#[export] Instance C_locale_ascii : AsciiLocale C_locale.
Proof. by split. Qed.

(** ** Checks over all bytes *)

Definition all_bytes : list Z := Z.of_nat <$> seq 0 256.

Lemma elem_of_all_bytes c : is_byte c → c ∈ all_bytes.
Proof.
  intros Hc. unfold all_bytes. apply list_elem_of_fmap. exists (Z.to_nat c).
  unfold is_byte in Hc. split; [lia|]. apply elem_of_seq. lia.
Qed.

Lemma byte_check (P : Z → bool) c : forallb P all_bytes = true → is_byte c → P c = true.
Proof.
  intros HP Hc%elem_of_all_bytes. apply (proj1 (forallb_forall _ _)) with (x := c) in HP;
    [done|]. by apply list_elem_of_In.
Qed.

Lemma meta_low c : is_byte c → has c 128 = false → c < 128.
Proof.
  intros Hc H. pose proof (byte_check (λ c, has c 128 || (c <? 128)) c eq_refl Hc) as E.
  cbn in E. rewrite H in E. by apply Z.ltb_lt.
Qed.

Lemma land127_low c : is_byte c → 0 <= c .& 127 < 128.
Proof.
  intros Hc. change 127 with (Z.ones 7). rewrite Z.land_ones by lia.
  apply Z.mod_pos_bound. lia.
Qed.

(** ** The forms an encoding can have

    Of the flags, the extra characters and the look-ahead, an encoding under
    VIS_NOLOCALE without VIS_NOSLASH only keeps which of these it is. *)

Definition octal_form (c : Z) : list Z :=
  [92; u8 (Z.shiftr (u8 c) 6 .& 3) + ch "0"; u8 (Z.shiftr (u8 c) 3 .& 7) + ch "0";
   (c .& 7) + ch "0"].
Definition meta_form (c : Z) : list Z :=
  92 :: let '(meta, c) := if has c 128 then ([ch "M"], c .& 127) else ([], c) in
        meta ++ if iscntrl c then [ch "^"; if c =? 127 then ch "?" else c + ch "@"]
                else [ch "-"; c].
Definition canon_next (noct : bool) : Z := if noct then ch "0" else ch "x".

(** The characters whose C escape means another character to the decoder. *)
Definition misread (c : Z) : bool := (c =? ch "E") || (c =? ch "x").

Definition mbyte_forms (c : Z) (noct : bool) : list (list Z) :=
  octal_form c ::
  (if (c =? 0) || isgraph c || (c .& 127 =? 32) then [] else [meta_form c]) ++
  (if misread c then [] else
   match cstyle c VIS_NOLOCALE (canon_next noct) with Some out => [out] | None => [] end).

(** The flags the encoding has to be decoded with. *)
Definition unvis_flag (flags : Z) : Z :=
  if has flags VIS_HTTPSTYLE then VIS_HTTP1808
  else if has flags VIS_MIMESTYLE then VIS_MIMESTYLE else 0.

Definition forms (dflag c : Z) (noct : bool) : list (list Z) :=
  (if (c =? 0) || (c =? 92) || ((dflag =? VIS_HTTP1808) && (c =? ch "%"))
      || ((dflag =? VIS_MIMESTYLE) && (c =? ch "=")) then [] else [[c]]) ++
  mbyte_forms c noct ++
  (if dflag =? VIS_HTTP1808
   then [[ch "%"; xtoa (Z.shiftr c 4 .& 0xf); xtoa (c .& 0xf)]]
   else if dflag =? VIS_MIMESTYLE
   then [[ch "="; XTOA (Z.shiftr c 4 .& 0xf); XTOA (c .& 0xf)]] else []).

Section forms.
Context {L : Locale} `{!AsciiLocale L}.
Variables (flags c nextc : Z) (extra : list Z).
Hypothesis (Hloc : has flags VIS_NOLOCALE = true) (Hslash : has flags VIS_NOSLASH = false).
Hypothesis (Hc : is_byte c) (H92 : wcschr extra 92 = true).
Hypothesis (Hmis : has flags VIS_CSTYLE = true → misread c = true → wcschr extra c = false).

Lemma cstyle_canon :
  cstyle c flags nextc = @cstyle C_locale c VIS_NOLOCALE (canon_next (iswoctal nextc)).
Proof using Hloc Hc AsciiLocale0.
  assert (HG : ISGRAPH flags c = @ISGRAPH C_locale VIS_NOLOCALE c).
  { unfold ISGRAPH. rewrite Hloc. by apply c_graph. }
  assert (HO : iswoctal nextc = iswoctal (canon_next (iswoctal nextc)))
    by (by destruct (iswoctal nextc)).
  unfold cstyle. by rewrite <- HG, <- HO.
Qed.

Lemma do_mbyte_forms e :
  do_mbyte c flags nextc e =
  match (if has flags VIS_CSTYLE
         then @cstyle C_locale c VIS_NOLOCALE (canon_next (iswoctal nextc)) else None) with
  | Some out => out
  | None => if e || (c .& 127 =? 32) || has flags VIS_OCTAL
            then octal_form c else meta_form c
  end.
Proof using Hloc Hslash Hc AsciiLocale0.
  unfold do_mbyte. rewrite cstyle_canon, Hslash.
  destruct (if has flags VIS_CSTYLE then _ else _); [done|].
  destruct (e || _ || _); [done|]. unfold meta_form. cbn [app]. f_equal.
  destruct (has c 128) eqn:E.
  - by rewrite ascii_cntrl by by apply land127_low.
  - apply meta_low in E; [|done]. rewrite ascii_cntrl; [done|]. unfold is_byte in Hc. lia.
Qed.

Lemma mbyte_cases e :
  (c = 0 → e = true) → (isgraph c = true → e = true) →
  (has flags VIS_CSTYLE = true → misread c = false) →
  do_mbyte c flags nextc e ∈ mbyte_forms c (iswoctal nextc).
Proof using Hloc Hslash Hc AsciiLocale0.
  clear Hmis H92. intros H0 Hgr Hm. rewrite do_mbyte_forms. unfold mbyte_forms.
  assert (Hrest : (if e || (c .& 127 =? 32) || has flags VIS_OCTAL
    then octal_form c else meta_form c) ∈
    octal_form c :: (if (c =? 0) || isgraph c || (c .& 127 =? 32) then [] else [meta_form c])).
  { destruct (e || _ || _) eqn:E; [apply list_elem_of_here|].
    apply orb_false_iff in E as [[-> E2]%orb_false_iff _]. rewrite E2, orb_false_r.
    destruct (isgraph c); [by specialize (Hgr eq_refl)|]. rewrite orb_false_r.
    destruct (Z.eqb_spec c 0); [by specialize (H0 ltac:(done))|].
    apply list_elem_of_further, list_elem_of_here. }
  rewrite app_comm_cons. apply elem_of_app.
  destruct (has flags VIS_CSTYLE); [|by left].
  rewrite Hm by done. destruct (@cstyle C_locale _ _ _) as [out|]; [right|by left].
  by apply list_elem_of_singleton.
Qed.

Lemma svis_cases :
  (do_svis c flags nextc extra = [c] ∧ c ≠ 0 ∧ c ≠ 92) ∨
  do_svis c flags nextc extra ∈ mbyte_forms c (iswoctal nextc).
Proof using All.
  unfold do_svis. rewrite svis_bytes_byte by done. set (e := wcschr extra c).
  assert (He : c = 0 → e = true) by (intros ->; done).
  destruct (negb e && _) eqn:E.
  - left. apply andb_true_iff in E as [E _]. split; [done|].
    split; intros Heq; subst e; rewrite Heq in E; [done|]. by rewrite H92 in E.
  - right. apply mbyte_cases; [done| |].
    { intros Hg. destruct e; [done|]. cbn in E. unfold ISGRAPH in E.
      by rewrite Hloc, c_graph, Hg in E by done. }
    intros Hcs. destruct (misread c) eqn:Em; [|done].
    specialize (Hmis Hcs eq_refl). fold e in Hmis. rewrite Hmis in E. cbn in E.
    assert (Hg : ISGRAPH flags c = true).
    { unfold ISGRAPH. rewrite Hloc, c_graph by done. unfold misread in Em.
      apply orb_true_iff in Em as [->%Z.eqb_eq | ->%Z.eqb_eq]; done. }
    by rewrite Hg in E.
Qed.

Lemma visfun_cases :
  getvisfun flags c flags nextc extra ∈ forms (unvis_flag flags) c (iswoctal nextc).
Proof using All.
  unfold getvisfun, unvis_flag, forms.
  assert (Hs : ∀ b l, b = false → do_svis c flags nextc extra ∈
    (if (c =? 0) || (c =? 92) || b then [] else [[c]]) ++ mbyte_forms c (iswoctal nextc) ++ l).
  { intros b l ->. destruct svis_cases as [(-> & H1 & H2)|H];
      [apply elem_of_app; left|apply elem_of_app; right; apply elem_of_app; by left].
    apply Z.eqb_neq in H1 as ->, H2 as ->. by apply list_elem_of_singleton. }
  revert Hs. generalize (mbyte_forms c (iswoctal nextc)). intros M Hs.
  destruct (has flags VIS_HTTPSTYLE); [|destruct (has flags VIS_MIMESTYLE)]; cbn.
  - unfold do_hvis. destruct (iswalnum c || _) eqn:E.
    + rewrite ?orb_false_r. apply Hs. destruct (Z.eqb_spec c 37) as [->|]; [|done].
      rewrite ascii_alnum in E by lia. done.
    + rewrite !elem_of_app. right; right. by apply list_elem_of_singleton.
  - unfold do_mvis. destruct (negb _ && _) eqn:E.
    + rewrite !elem_of_app. right; right. by apply list_elem_of_singleton.
    + rewrite ?orb_false_r. apply Hs. destruct (Z.eqb_spec c 61) as [->|]; [|done].
      rewrite ascii_space in E by lia. done.
  - rewrite orb_false_r. apply Hs. done.
Qed.

End forms.

(** ** Decoding an encoded string

    What the decoder emits, without the bookkeeping of the destination. *)

Fixpoint emit_again (fuel : nat) (c flag t st : Z) : res (list Z * Z * Z) :=
  match fuel with
  | O => Fault
  | S fuel =>
      let* (r, t, st) := unvis t c st flag in
      match r with
      | UNVIS_VALID => Ok ([t], t, st)
      | UNVIS_VALIDPUSH =>
          let* (o, t', st) := emit_again fuel c flag t st in Ok (t :: o, t', st)
      | UNVIS_NOCHAR => Ok ([], t, st)
      | UNVIS_SYNBAD => Err EINVAL
      end
  end.

Fixpoint emit_chars (src : list Z) (flag t st : Z) : res (list Z * Z * Z) :=
  match src with
  | [] => Ok ([], t, st)
  | c :: src =>
      let* (o, t, st) := emit_again 2 (s8 c) flag t st in
      let* (o', t, st) := emit_chars src flag t st in Ok (o ++ o', t, st)
  end.

Definition space (d : dstate) (o : list Z) (t st : Z) : dstate :=
  mkD (d_out d ++ o) (d_len d - Z.of_nat (length o)) t st.

Lemma put_char_space d : 0 < d_len d → put_char d = Ok (space d [d_t d] (d_t d) (d_state d)).
Proof. intros. unfold put_char. by rewrite (proj2 (Z.eqb_neq _ 0)) by lia. Qed.

Lemma space_app d o t st o' t' st' :
  space (space d o t st) o' t' st' = space d (o ++ o') t' st'.
Proof. unfold space. cbn. rewrite length_app, <- app_assoc. f_equal. lia. Qed.

Lemma space_nil d : space d [] (d_t d) (d_state d) = d.
Proof. destruct d. unfold space. cbn. by rewrite app_nil_r, Z.sub_0_r. Qed.

Lemma unvis_again_emit n c flag t st o t' st' out len :
  emit_again n c flag t st = Ok (o, t', st') → Z.of_nat (length o) <= len →
  unvis_again n c flag (mkD out len t st) = Ok (space (mkD out len t st) o t' st').
Proof.
  revert t st o t' st' out len.
  induction n as [|n IH]; intros t st o t' st' out len H Hl; [discriminate|].
  cbn [emit_again] in H. cbn [unvis_again d_t d_state d_out d_len].
  destruct (unvis t c st flag) as [[[r t1] st1]| |]; [|discriminate..]. cbn [res_bind] in *.
  destruct r; [| |by injection H as <- <- <-; unfold space; cbn; rewrite app_nil_r, Z.sub_0_r
               |discriminate].
  - injection H as <- <- <-. cbn in Hl. rewrite put_char_space by (cbn; lia). done.
  - apply res_bind_Ok in H as ([[o1 t2] st2] & H & [= <- <- <-]). cbn [length] in Hl.
    rewrite put_char_space by (cbn; lia). unfold space. cbn [res_bind d_out d_len d_t d_state].
    erewrite IH by (exact H || (cbn; lia)). unfold space. cbn [d_out d_len].
    rewrite <- app_assoc. do 2 f_equal. cbn [length]. lia.
Qed.

Lemma unvis_chars_emit src flag t st o t' st' out len :
  emit_chars src flag t st = Ok (o, t', st') → Z.of_nat (length o) <= len →
  unvis_chars src flag (mkD out len t st) = Ok (mkD (out ++ o) (len - Z.of_nat (length o)) t' st').
Proof.
  revert t st o t' st' out len.
  induction src as [|c src IH]; intros t st o t' st' out len H Hl;
    cbn [emit_chars unvis_chars] in H |- *.
  { injection H as <- <- <-. cbn [length]. by rewrite app_nil_r, Z.sub_0_r. }
  apply res_bind_Ok in H as ([[o1 t1] st1] & H1 & H).
  apply res_bind_Ok in H as ([[o2 t2] st2] & H2 & [= <- <- <-]).
  rewrite length_app in Hl.
  erewrite unvis_again_emit by (exact H1 || lia). cbn [res_bind].
  unfold space. cbn. erewrite IH by (exact H2 || lia).
  rewrite <- app_assoc, length_app. do 2 f_equal. lia.
Qed.

Lemma emit_chars_app a b flag t st :
  emit_chars (a ++ b) flag t st =
  let* (o, t, st) := emit_chars a flag t st in
  let* (o', t, st) := emit_chars b flag t st in Ok (o ++ o', t, st).
Proof.
  revert t st. induction a as [|c a IH]; intros t st; cbn [app emit_chars].
  { cbn [res_bind]. by destruct (emit_chars b flag t st) as [[[??]?]| |]. }
  destruct (emit_again 2 (s8 c) flag t st) as [[[o1 t1] st1]| |]; cbn [res_bind]; [|done..].
  rewrite IH. destruct (emit_chars a flag t1 st1) as [[[o2 t2] st2]| |]; cbn [res_bind]; [|done..].
  destruct (emit_chars b flag t2 st2) as [[[o3 t3] st3]| |]; cbn [res_bind]; [|done..].
  by rewrite app_assoc.
Qed.

(** What is checked of one encoding: its bytes are not NUL; it starts with the character
    itself or not with an octal digit; decoded from the ground state, or after an incomplete
    octal escape, it emits the character, or is itself the incomplete escape of
    a NUL that no octal digit follows. *)
Definition emits (r : res (list Z * Z * Z)) (pend : list Z) (c : Z) (noct : bool) : bool :=
  match r with
  | Ok (o, t, st) =>
      (bool_decide (o = pend ++ [c]) && (st =? S_GROUND)) ||
      (bool_decide (o = pend) && (c =? 0) && negb noct && (t =? 0) && (st =? S_OCTAL2))
  | _ => false
  end.

Definition chunk_ok (chunk : list Z) (flag c : Z) (noct : bool) : bool :=
  negb (bool_decide (chunk = [])) && forallb (λ x, (0 <? x) && (x <? 256)) chunk &&
  ((peek chunk =? c) || negb (iswoctal (peek chunk))) &&
  emits (emit_chars chunk flag 0 S_GROUND) [] c noct &&
  (iswoctal c || emits (emit_chars chunk flag 0 S_OCTAL2) [0] c noct).

Definition check_byte (c : Z) : bool :=
  forallb (λ flag, forallb (λ noct,
    forallb (λ chunk, chunk_ok chunk flag c noct) (forms flag c noct))
    [false; true]) [0; VIS_HTTP1808; VIS_MIMESTYLE].

Lemma check_bytes : forallb check_byte all_bytes = true.
Proof. vm_compute. reflexivity. Qed.

(** The encoding of [src], whose last character is followed by [tl]. *)
Fixpoint vis_text {L : Locale} (flags : Z) (extra src tl : list Z) : list Z :=
  match src with
  | [] => []
  | c :: src => getvisfun flags c flags (peek (src ++ tl)) extra ++ vis_text flags extra src tl
  end.

Section roundtrip.
Context {L : Locale} `{!AsciiLocale L}.
Variables (flags : Z) (extra : list Z).
Hypothesis (Hloc : has flags VIS_NOLOCALE = true) (Hslash : has flags VIS_NOSLASH = false).
Hypothesis (H92 : wcschr extra 92 = true).
Hypothesis (Hmis : has flags VIS_CSTYLE = true →
  wcschr extra (ch "E") = false ∧ wcschr extra (ch "x") = false).

Lemma visfun_chunk c nextc :
  is_byte c →
  chunk_ok (getvisfun flags c flags nextc extra) (unvis_flag flags) c (iswoctal nextc) = true.
Proof using All.
  intros Hc.
  assert (Hm : has flags VIS_CSTYLE = true → misread c = true → wcschr extra c = false).
  { intros Hcs Hm. destruct (Hmis Hcs). unfold misread in Hm.
    by apply orb_true_iff in Hm as [->%Z.eqb_eq | ->%Z.eqb_eq]. }
  pose proof (visfun_cases flags c nextc extra Hloc Hslash Hc H92 Hm) as Hin.
  pose proof (byte_check check_byte c check_bytes Hc) as Hch. unfold check_byte in Hch.
  rewrite forallb_forall in Hch. specialize (Hch (unvis_flag flags)).
  specialize (Hch ltac:(unfold unvis_flag; repeat case_match; cbn; auto)).
  rewrite forallb_forall in Hch. specialize (Hch (iswoctal nextc)).
  specialize (Hch ltac:(destruct (iswoctal nextc); cbn; auto)).
  rewrite forallb_forall in Hch.
  apply Hch. by apply list_elem_of_In.
Qed.

Lemma visfun_byte c nextc :
  is_byte c → Forall (λ x, is_byte x ∧ x ≠ 0) (getvisfun flags c flags nextc extra).
Proof using All.
  intros Hc. pose proof (visfun_chunk c nextc Hc) as H. unfold chunk_ok in H.
  rewrite !andb_true_iff in H. destruct H as ((((_ & H) & _) & _) & _).
  rewrite forallb_forall in H. apply Forall_forall. intros x Hx.
  apply list_elem_of_In, H in Hx. rewrite andb_true_iff, !Z.ltb_lt in Hx.
  unfold is_byte. lia.
Qed.

Lemma encode_bytes src tl :
  Forall is_byte src → Forall (λ x, is_byte x ∧ x ≠ 0) (vis_text flags extra src tl).
Proof using All.
  induction 1; cbn; [constructor|]. apply Forall_app; split; [by apply visfun_byte|done].
Qed.

(** Between two characters the decoder is in its ground state with all of them
    emitted, or has read the incomplete escape of a NUL no octal digit follows. *)
Definition between (st t : Z) (pend next : list Z) : Prop :=
  (st = S_GROUND ∧ pend = []) ∨
  (st = S_OCTAL2 ∧ t = 0 ∧ pend = [0] ∧ iswoctal (peek next) = false).

Lemma emit_again_ground flag c t t' :
  has flag UNVIS_END = false →
  emit_again 2 c flag t S_GROUND = emit_again 2 c flag t' S_GROUND.
Proof. intros H. cbn [emit_again]. unfold unvis. by rewrite H. Qed.

Lemma emits_between r pend c src tl :
  emits r pend c (iswoctal (peek (src ++ tl))) = true →
  ∃ o t st pend', r = Ok (o, t, st) ∧ o ++ pend' = pend ++ [c] ∧
    between st t pend' (src ++ tl).
Proof.
  unfold emits. destruct r as [[[o t] st]| |]; [|discriminate..].
  rewrite orb_true_iff, !andb_true_iff, !bool_decide_eq_true, negb_true_iff, !Z.eqb_eq.
  intros [[-> ->] | ((((-> & ->) & Hn) & ->) & ->)].
  - exists (pend ++ [c]), t, S_GROUND, []. split; [done|]. rewrite app_nil_r. split; [done|].
    by left.
  - exists pend, 0, S_OCTAL2, [0]. split; [done|]. split; [done|]. right. done.
Qed.

Lemma emit_encode src tl t st pend :
  Forall is_byte src → between st t pend (src ++ tl) →
  ∃ o t' st' pend', emit_chars (vis_text flags extra src tl) (unvis_flag flags) t st
    = Ok (o, t', st') ∧ o ++ pend' = pend ++ src ∧ between st' t' pend' tl.
Proof using All.
  intros Hsrc. revert t st pend.
  induction Hsrc as [|c src Hc Hsrc IH]; intros t st pend Hb; cbn [vis_text].
  { exists [], t, st, pend. by rewrite app_nil_r. }
  pose proof (visfun_chunk c (peek (src ++ tl)) Hc) as Hk.
  set (chunk := getvisfun _ _ _ _ _) in *. unfold chunk_ok in Hk.
  rewrite !andb_true_iff in Hk. destruct Hk as ((((Hne & _) & _) & Hg) & Ho).
  assert (Hchunk : ∃ o t1 st1 pend1, emit_chars chunk (unvis_flag flags) t st
    = Ok (o, t1, st1) ∧ o ++ pend1 = pend ++ [c] ∧ between st1 t1 pend1 (src ++ tl)).
  { destruct Hb as [[-> ->] | (-> & -> & -> & Hn)].
    - destruct chunk as [|x chunk]; [done|].
      replace (emit_chars (x :: chunk) (unvis_flag flags) t S_GROUND)
        with (emit_chars (x :: chunk) (unvis_flag flags) 0 S_GROUND)
        by (cbn [emit_chars]; rewrite (emit_again_ground _ _ 0 t); [done|];
            unfold unvis_flag; by repeat case_match).
      by apply emits_between.
    - cbn [app peek] in Hn. rewrite Hn in Ho. by apply emits_between. }
  destruct Hchunk as (o1 & t1 & st1 & pend1 & H1 & Hp1 & Hb1).
  destruct (IH t1 st1 pend1 Hb1) as (o2 & t2 & st2 & pend2 & H2 & Hp2 & Hb2).
  exists (o1 ++ o2), t2, st2, pend2. rewrite emit_chars_app, H1. cbn [res_bind].
  rewrite H2. cbn [res_bind]. split; [done|]. split; [|done].
  by rewrite <- app_assoc, Hp2, app_assoc, Hp1, <- app_assoc.
Qed.

Lemma strnunvisx_encode dlen src tl :
  Forall is_byte src → iswoctal (peek tl) = false → Z.of_nat (length src) < dlen →
  strnunvisx dlen (vis_text flags extra src tl) (unvis_flag flags) = Ok src.
Proof using All.
  intros Hsrc Htl Hlen.
  destruct (emit_encode src tl 0 0 [] Hsrc) as (o & t & st & pend & H & Hp & Hb);
    [by left|]. cbn [app] in Hp. subst src. rewrite length_app in Hlen.
  unfold strnunvisx. rewrite (unvis_chars_emit _ _ _ _ _ _ _ [] dlen H) by lia.
  cbn [res_bind d_t d_state d_out d_len app].
  destruct Hb as [[-> ->] | (-> & -> & -> & _)]; cbn [length] in Hlen.
  - change (unvis t 0 S_GROUND UNVIS_END) with (@Ok result (UNVIS_NOCHAR, t, S_GROUND)).
    cbn [res_bind d_out d_len].
    rewrite (proj2 (Z.eqb_neq _ 0)) by lia. by rewrite app_nil_r.
  - change (unvis 0 0 S_OCTAL2 UNVIS_END) with (@Ok result (UNVIS_VALID, 0, S_GROUND)).
    cbn [res_bind d_out d_len]. rewrite put_char_space by (cbn; lia).
    unfold space. cbn [res_bind d_out d_len length].
    rewrite (proj2 (Z.eqb_neq _ 0)) by lia. done.
Qed.

End roundtrip.

(** ** The loops of istrsenvisx *)

Definition is_wide (c : Z) : Prop := 0 <= c < 2 ^ 31.

Lemma encode_length {L : Locale} flags extra src tl :
  Forall is_wide src →
  (length (vis_text flags extra src tl) ≤ 16 * length src)%nat.
Proof.
  induction 1 as [|c src Hc _ IH]; cbn [vis_text length]; [lia|]. rewrite length_app.
  pose proof (visfun_length flags c (peek (src ++ tl)) extra ltac:(unfold is_wide in Hc; lia)).
  lia.
Qed.

Lemma encode_length_byte {L : Locale} flags extra src tl :
  Forall is_byte src → (length (vis_text flags extra src tl) ≤ 4 * length src)%nat.
Proof.
  induction 1 as [|c src Hc _ IH]; cbn [vis_text length]; [lia|]. rewrite length_app.
  pose proof (visfun_length_byte flags c (peek (src ++ tl)) extra Hc). lia.
Qed.

Section loops.
Context {L : Locale} `{!LocaleOk L}.

Lemma vis_loop_encode cap flags extra src tl dst :
  Forall is_wide src →
  Z.of_nat (length dst + 16 * length src) <= cap →
  vis_loop (length src) cap flags extra (src ++ tl) dst
    = Ok (dst ++ vis_text flags extra src tl).
Proof using.
  intros Hsrc. revert dst. induction Hsrc as [|c src Hc Hsrc IH]; intros dst Hcap;
    cbn [length vis_loop vis_text app]; [by rewrite app_nil_r|].
  cbn [length] in Hcap.
  pose proof (visfun_length flags c (peek (src ++ tl)) extra ltac:(unfold is_wide in Hc; lia)).
  rewrite length_app, (proj2 (Z.ltb_ge _ _)) by lia.
  rewrite IH by (rewrite length_app; lia). by rewrite <- app_assoc.
Qed.

Lemma vis_loop_take cap flags extra src tl n :
  Forall is_wide src → (n ≤ length src)%nat → 16 * Z.of_nat n <= cap →
  vis_loop n cap flags extra (src ++ tl) []
    = Ok (vis_text flags extra (take n src) (drop n src ++ tl)).
Proof using.
  intros Hsrc Hn Hcap. rewrite <- (take_drop n src) at 1. rewrite <- app_assoc.
  rewrite <- (length_take_le src n) at 1 by done.
  apply (vis_loop_encode _ _ _ _ _ []); [by apply Forall_take|].
  rewrite length_take_le by done. cbn [length]. lia.
Qed.

Lemma input_loop_safe fuel cap mbsrc m cerr st src :
  (Z.to_nat m < fuel)%nat → m <= Z.of_nat (length mbsrc) →
  Z.of_nat (length src) + Z.max 0 m <= cap → Forall is_wide src →
  safe (λ r, Z.of_nat (length r.1) <= Z.of_nat (length src) + Z.max 0 m ∧ Forall is_wide r.1)
    (input_loop fuel cap mbsrc m cerr st src).
Proof using LocaleOk0.
  revert mbsrc m cerr st src. induction fuel as [|fuel IH]; [lia|].
  intros mbsrc m cerr st src Hf Hm Hcap Hsrc. cbn [input_loop].
  destruct (Z.leb_spec m 0); [cbn; split; [lia|done]|].
  rewrite (proj2 (Z.leb_gt _ _)) by lia.
  set (n := if m <? MB_LEN_MAX then m else MB_LEN_MAX).
  assert (Hn : n <= m ∧ 0 <= n) by (destruct mb_max; unfold n; case_match; Zcases; lia).
  apply (safe_bind (λ '(clen, wc, st), clen <= m ∧ (cerr = false → is_wide wc))).
  { destruct cerr; [cbn; split; [lia|done]|]. rewrite (proj2 (Z.ltb_ge _ _)) by lia.
    destruct (mbrtowc _ _) as [[clen wc] st'] eqn:E. cbn.
    pose proof (mbrtowc_len _ _ _ _ _ E) as Hl. rewrite length_take in Hl.
    split; [lia|]. intros _. by eapply mbrtowc_wc. }
  intros [[clen wc] st'] [Hclen Hwc].
  apply (safe_bind (λ '(clen, wc, cerr), 0 <= clen <= m ∧ is_wide wc)).
  { destruct (cerr || (clen <? 0)) eqn:E.
    - destruct mbsrc as [|b mbsrc]; cbn in *; [lia|].
      pose proof (u8_range b). split; [lia|unfold is_wide; lia].
    - apply orb_false_iff in E as [-> E]. rewrite Z.ltb_ge in E. cbn. split; [lia|auto]. }
  intros [[clen' wc'] cerr'] [Hcl Hw]. set (k := if clen' =? 0 then 1 else clen').
  assert (Hk : 1 <= k <= m) by (unfold k; case_match; Zcases; lia).
  rewrite (proj2 (Z.ltb_ge _ _)) by lia.
  eapply safe_mono; [apply IH|].
  - lia.
  - rewrite length_drop. lia.
  - rewrite length_app. cbn. lia.
  - apply Forall_app; split; [done|by constructor].
  - intros [r e] [Hr Hf']. cbn in *. rewrite length_app in Hr. cbn in Hr. split; [lia|done].
Qed.

(** Byte by byte, the loop copies the source. *)
Lemma input_loop_bytes fuel cap mbsrc m st src :
  (Z.to_nat m < fuel)%nat → 0 <= m <= Z.of_nat (length mbsrc) →
  Z.of_nat (length src) + m <= cap →
  input_loop fuel cap mbsrc m true st src
    = Ok (src ++ (u8 <$> take (Z.to_nat m) mbsrc), true).
Proof using.
  revert mbsrc m src. induction fuel as [|fuel IH]; [lia|].
  intros mbsrc m src Hf Hm Hcap. cbn [input_loop].
  destruct (Z.leb_spec m 0).
  { replace m with 0 by lia. cbn. by rewrite app_nil_r. }
  rewrite (proj2 (Z.leb_gt _ _)) by lia. cbn [res_bind orb].
  destruct mbsrc as [|b mbsrc]; [cbn in Hm; lia|]. cbn [res_bind].
  change (1 =? 0) with false. cbn [res_bind].
  rewrite (proj2 (Z.ltb_ge _ _)) by lia.
  cbn [length] in Hm. change (drop (Z.to_nat 1) (b :: mbsrc)) with mbsrc.
  rewrite IH by (rewrite ?length_app; cbn; lia).
  replace (Z.to_nat m) with (S (Z.to_nat (m - 1))) by lia. cbn.
  by rewrite <- app_assoc.
Qed.

Lemma wide_bytes_safe n wc wmsk olen maxolen bs :
  olen + Z.of_nat (length bs) < maxolen →
  safe (λ bs', olen + Z.of_nat (length bs') < maxolen)
    (wide_bytes n wc wmsk olen maxolen bs).
Proof using.
  revert wmsk bs. induction n as [|n IH]; intros wmsk bs H; cbn [wide_bytes]; [done|].
  case_match; [|by apply IH]. case_match eqn:E; [done|]. rewrite Z.leb_gt in E.
  apply IH. rewrite length_app. cbn. lia.
Qed.

Lemma wide_bytes_byte wc olen maxolen :
  is_byte wc → olen + 1 < maxolen → wide_bytes 8 wc 0 olen maxolen [] = Ok [wc].
Proof using.
  intros Hc Ho. do 7 (cbn [wide_bytes]; rewrite (high_clear wc _ 8) by (done || reflexivity);
    cbn [orb Nat.eqb app]). cbn [wide_bytes Nat.eqb length]. rewrite orb_true_r.
  rewrite (proj2 (Z.leb_gt _ _)) by lia. cbn [app]. do 2 f_equal.
  rewrite Z.shiftr_0_r. change (Z.shiftl 255 (Z.of_nat 0 * 8)) with (Z.ones 8).
  rewrite Z.land_ones by lia. rewrite Z.mod_small by exact Hc. by apply u8_small.
Qed.

Lemma output_loop_safe dst maxolen room cerr st out :
  Z.of_nat (length out) < maxolen → maxolen <= room →
  safe (λ r, Z.of_nat (length r.1) < maxolen) (output_loop dst maxolen room cerr st out).
Proof using LocaleOk0.
  intros Hout Hroom. revert cerr st out Hout.
  induction dst as [|wc dst IH]; intros cerr st out Hout; cbn [output_loop]; [done|].
  set (olen := Z.of_nat (length out)).
  apply (safe_bind (λ '(conv, st), match conv with
    | Some bs => olen + Z.of_nat (length bs) < maxolen | None => True end)).
  { destruct cerr; [done|]. destruct (wcrtomb wc st) as [[bs|] st'] eqn:E; [|done].
    pose proof (wcrtomb_len _ _ _ _ E). destruct (_ || _) eqn:E'.
    - cbn. apply orb_true_iff in E' as [E'|E']; Zcases; lia || done.
    - case_match eqn:E''; [done|]. rewrite Z.leb_gt in E''. done. }
  intros [conv st'] Hconv. apply (safe_bind (λ '(bs, _), olen + Z.of_nat (length bs) < maxolen)).
  { destruct conv as [bs|]; [done|].
    eapply safe_bind; [apply (wide_bytes_safe 8 wc 0 olen); cbn; lia|]. by intros bs. }
  intros [bs cerr'] Hbs. unfold olen in Hbs.
  rewrite length_app, (proj2 (Z.leb_gt _ _)), (proj2 (Z.ltb_ge _ _)) by lia. cbn [orb].
  apply IH. rewrite length_app. lia.
Qed.

Lemma output_loop_bytes dst maxolen room st out :
  Forall is_byte dst → Z.of_nat (length out + length dst) < maxolen →
  Z.of_nat (length out + length dst) < room →
  output_loop dst maxolen room true st out = Ok (out ++ dst, true).
Proof using.
  intros Hd. revert out. induction Hd as [|wc dst Hwc Hd IH]; intros out H1 H2;
    cbn [output_loop res_bind]; [by rewrite app_nil_r|].
  cbn [length] in *. rewrite wide_bytes_byte by (done || lia). cbn [res_bind].
  rewrite length_app. cbn [length].
  rewrite (proj2 (Z.leb_gt _ _)), (proj2 (Z.ltb_ge _ _)) by lia. cbn [orb].
  rewrite IH by (rewrite length_app; cbn; lia). by rewrite <- app_assoc.
Qed.

Lemma extra_flags_length flags : (length (extra_flags flags) ≤ 27)%nat.
Proof using. unfold extra_flags. rewrite !length_app. repeat case_match; cbn; lia. Qed.

(** Whether the extra characters can be converted from where [mbsrtowcs] stops. *)
Definition extra_readable (flags : Z) (s : list Z) : Prop :=
  has flags VIS_NOLOCALE = true ∨
  match mbsrtowcs s (Z.of_nat (length s)) with inl _ => True | inr off => (off ≤ 1)%nat end.

Lemma makeextralist_safe alloc flags s :
  extra_readable flags s → safe (λ _, True) (makeextralist alloc flags s).
Proof using LocaleOk0.
  intros Hr. unfold makeextralist. case_match; [done|].
  apply (safe_bind (λ d, (length d ≤ length s)%nat)).
  - unfold extra_chars. destruct (has flags VIS_NOLOCALE) eqn:En; [cbn; lia|].
    destruct Hr as [Hr|Hr]; [congruence|].
    destruct (mbsrtowcs _ _) as [ws|off] eqn:E.
    + apply mbsrtowcs_len in E; cbn; lia.
    + rewrite length_drop, length_app. cbn [length].
      destruct (Nat.ltb_spec (length s + 1 - off) (length s)); [lia|]. cbn.
      rewrite length_take. lia.
  - intros d Hd. rewrite length_app. pose proof (extra_flags_length flags).
    rewrite (proj2 (Z.ltb_lt _ _)) by (unfold MAXEXTRAS; lia). done.
Qed.

End loops.

(** ** Theorems *)

(** C16.  Memory safety with a sized destination (strnvisx, strsnvis, nvis, ...):
    in any locale, istrsenvisx reads the source bytes it was told of, one more
    when that is one byte, never outgrows the arrays it allocates, none of its
    assertions fails, and it stores less than [dlen] bytes before the NUL.  The extra
    characters are valid in the locale, or the flag VIS_NOLOCALE is set, or the first
    invalid one is at most one byte in: from further on makeextralist reads past their end
    ([makeextralist_overread]). *)
Theorem istrsenvisx_memory_safe {L : Locale} `{!LocaleOk L} (alloc : Z → bool)
    room dlen mbsrc mblength flags mbextra cerr_ptr :
  0 <= mblength → (if mblength =? 1 then 2 else mblength) <= Z.of_nat (length mbsrc) →
  0 <= dlen <= room → (1 <= room) → extra_readable flags mbextra →
  safe (λ r, Z.of_nat (length r.1) < room ∧ (0 < dlen → Z.of_nat (length r.1) < dlen))
    (istrsenvisx alloc (Some room) (Some dlen) mbsrc mblength flags mbextra cerr_ptr).
Proof.
  intros Hm Hsrc Hroom Hroom1 Hextra. unfold istrsenvisx.
  set (m := if mblength =? 1 then mblength + 1 else mblength).
  assert (Hml : 0 <= m <= Z.of_nat (length mbsrc)) by (unfold m; Zcases; lia).
  destruct (_ <? m); [done|]. do 2 (destruct (negb _); [done|]). cbn [res_bind].
  eapply safe_bind.
  { apply (input_loop_safe _ (m + 1)); cbn [length]; [lia..|constructor]. }
  intros [src cerr] [Hlen Hwide]. cbn [fst length] in *.
  eapply safe_bind; [by apply makeextralist_safe|]. intros [extra|] _.
  2: { destruct (Z.eq_dec dlen 0) as [->|Hd]; [done|].
       destruct dlen; rewrite ?(proj2 (Z.ltb_ge _ _)) by lia; cbn; split; lia || done. }
  set (len := Z.to_nat (Z.min _ _)). set (zeros := replicate _ _).
  assert (Hl : (len ≤ length src)%nat) by (unfold len; lia).
  assert (Hv : vis_loop len (16 * m) flags extra (src ++ zeros) []
    = Ok (vis_text flags extra (take len src) (drop len src ++ zeros))).
  { apply vis_loop_take; [done|done|lia]. }
  rewrite Hv. cbn [res_bind]. set (dst := cstr (vis_text _ _ _ _)).
  destruct (Z.eq_dec dlen 0) as [->|Hd]; [done|].
  assert (Hmax : (match dlen with 0 => Err ENOSPC | _ => Ok dlen end) = Ok dlen)
    by (destruct dlen; done).
  rewrite Hmax. cbn [res_bind].
  eapply safe_bind; [apply output_loop_safe; cbn; lia|]. intros [out cerr'] Hout. cbn in Hout.
  rewrite !(proj2 (Z.leb_gt _ _)) by lia. cbn. lia.
Qed.

Lemma istrsenvisx_memory_safe_witness :
  safe (λ r, Z.of_nat (length r.1) < 3 ∧ (0 < 3 → Z.of_nat (length r.1) < 3))
    (istrsenvisx (L := C_locale) (λ _, true) (Some 3) (Some 3) [7; 0] 1 VIS_CSTYLE [] None)
  ∧ istrsenvisx (L := C_locale) (λ _, true) (Some 3) (Some 3) [7; 0] 1 VIS_CSTYLE [] None
    = Ok ([92; ch "a"], None).
Proof.
  split; [|reflexivity].
  apply (istrsenvisx_memory_safe (L := C_locale)); try (cbn; lia). right. exact I.
Defined.

(** The whole encoder, byte by byte and with memory: it stores [vis_text]. *)
Lemma strsvisx_bytes {L : Locale} `{!LocaleOk L, !AsciiLocale L} room s flags mbextra :
  has flags VIS_NOLOCALE = true → Forall is_byte s →
  4 * (Z.of_nat (length s) + 1) * MB_LEN_MAX < SIZE_MAX →
  4 * Z.of_nat (length s) + 1 <= room →
  has flags VIS_NOSLASH = false →
  (has flags VIS_CSTYLE = true → ch "E" ∉ mbextra ∧ ch "x" ∉ mbextra) →
  ∃ extra tl, iswoctal (peek tl) = false ∧ wcschr extra 92 = true ∧
    (has flags VIS_CSTYLE = true →
     wcschr extra (ch "E") = false ∧ wcschr extra (ch "x") = false) ∧
    strsvisx (λ _, true) room (s ++ [0]) (Z.of_nat (length s)) flags mbextra
      = Ok (vis_text flags extra s tl).
Proof.
  intros Hloc Hs Hsize Hroom Hslash Hmis. set (extra := mbextra ++ extra_flags flags).
  set (len := Z.of_nat (length s)) in *.
  set (m := if len =? 1 then len + 1 else len).
  set (src := take (Z.to_nat m) (s ++ [0])).
  set (tl := drop (length s) src ++ replicate (Z.to_nat (m + 1) - length src) 0).
  assert (Hm : len <= m <= len + 1) by (unfold m; case_match; lia).
  assert (Hsrc : take (length s) src = s).
  { unfold src. rewrite take_take, take_app_le, take_ge by lia. done. }
  assert (Hu : u8 <$> src = src).
  { unfold src. rewrite <- (list_fmap_id (take _ _)) at 2. apply Forall_fmap_ext.
    apply Forall_take, Forall_app. split; [|by repeat constructor].
    eapply Forall_impl; [exact Hs|]. intros x. apply u8_small. }
  assert (Hls : length src = Z.to_nat m).
  { unfold src. rewrite length_take, length_app. cbn. lia. }
  pose proof mb_len_max as HM.
  assert (Htl : iswoctal (peek tl) = false).
  { unfold tl, src. rewrite skipn_firstn_comm, drop_app_length.
    generalize (Z.to_nat m - length s)%nat.
    match goal with |- context [replicate ?n 0] => generalize n end.
    by intros [|n] [|[|k]]. }
  assert (H92 : wcschr extra 92 = true).
  { unfold extra, wcschr. apply existsb_exists. exists 92. split; [|done].
    apply in_or_app. right. unfold extra_flags. rewrite Hslash, !in_app_iff. cbn. auto 10. }
  assert (Hex : has flags VIS_CSTYLE = true →
    wcschr extra (ch "E") = false ∧ wcschr extra (ch "x") = false).
  { intros Hc. destruct (Hmis Hc) as [HE Hx].
    assert (Hno : ∀ c, c ≠ 0 → c ∉ mbextra → existsb (Z.eqb c) (extra_flags flags) = false →
      wcschr extra c = false).
    { intros c Hc0 Hc1 Hc2. unfold wcschr, extra. rewrite (proj2 (Z.eqb_neq c 0)) by done.
      rewrite existsb_app, Hc2, orb_false_r. cbn.
      destruct (existsb _ mbextra) eqn:E; [|done]. apply existsb_exists in E as (y & Hy & ->%Z.eqb_eq).
      by destruct Hc1; apply list_elem_of_In. }
    split; apply Hno; try done; unfold extra_flags; repeat case_match; done. }
  exists extra, tl. split; [done|]. split; [done|]. split; [done|].
  - unfold strsvisx, istrsenvisx. fold m.
    assert (m <= (SIZE_MAX - 1) / 16) by (apply Z.div_le_lower_bound; nia).
    rewrite (proj2 (Z.ltb_ge _ _)) by done.
    cbn [negb res_bind]. rewrite Hloc, input_loop_bytes by (rewrite ?length_app; cbn [length]; lia).
    cbn [res_bind app]. fold src. rewrite Hu. unfold makeextralist, extra_chars.
    cbn [negb]. rewrite Hloc. cbn [res_bind]. fold extra.
    pose proof (extra_flags_length flags).
    rewrite (proj2 (Z.ltb_lt _ _)) by (unfold extra, MAXEXTRAS; rewrite length_app; lia).
    cbn [res_bind]. replace (Z.to_nat (Z.min _ _)) with (length s) by lia.
    rewrite vis_loop_take, Hsrc; [|apply Forall_take, Forall_app; split;
      [eapply Forall_impl; [exact Hs|]; unfold is_byte, is_wide; lia|
       by repeat constructor]|lia|lia].
    fold tl. cbn [res_bind]. pose proof (encode_length_byte flags extra s tl Hs).
    assert (Forall (λ x, is_byte x ∧ x ≠ 0) (vis_text flags extra s tl)) as [Hb Hz]%Forall_and
      by by apply encode_bytes.
    rewrite cstr_whole by done.
    assert ((SIZE_MAX - 1) / MB_LEN_MAX >= Z.of_nat (length (vis_text flags extra s tl)))
      by (apply Z.le_ge, Z.div_le_lower_bound; unfold SIZE_MAX in *; nia).
    rewrite (proj2 (Z.ltb_ge _ _)) by lia.
    cbn [res_bind]. rewrite output_loop_bytes; [|done|cbn; nia|cbn; lia].
    cbn [res_bind app]. rewrite !(proj2 (Z.leb_gt _ _)) by nia. done.
Qed.

(** C10.  Round trip: with VIS_NOLOCALE and without VIS_NOSLASH, in the backslash,
    HTTP and MIME styles and whatever the other flags and the extra characters, but that
    with VIS_CSTYLE [E] and [x] are not among them, encoding a block of bytes succeeds in a
    buffer of four times its length and one, as documented, and decoding the result
    gives the block back, in any buffer one byte longer than it.  The allocations succeed,
    and the locale's classes are those of ASCII below 128. *)
Theorem strsvisx_roundtrip {L : Locale} `{!LocaleOk L, !AsciiLocale L}
    room dlen s flags mbextra :
  has flags VIS_NOLOCALE = true → has flags VIS_NOSLASH = false →
  (has flags VIS_CSTYLE = true → ch "E" ∉ mbextra ∧ ch "x" ∉ mbextra) →
  Forall is_byte s →
  4 * (Z.of_nat (length s) + 1) * MB_LEN_MAX < SIZE_MAX →
  4 * Z.of_nat (length s) + 1 <= room → Z.of_nat (length s) < dlen →
  ∃ out, strsvisx (λ _, true) room (s ++ [0]) (Z.of_nat (length s)) flags mbextra = Ok out ∧
    (length out ≤ 4 * length s)%nat ∧ strnunvisx dlen out (unvis_flag flags) = Ok s.
Proof.
  intros Hloc Hslash Hmis Hs Hsize Hroom Hdlen.
  destruct (strsvisx_bytes room s flags mbextra) as (extra & tl & Htl & H92 & Hex & H); [done..|].
  eexists; split; [exact H|]. split; [by apply encode_length_byte|].
  by apply strnunvisx_encode.
Qed.

Lemma strsvisx_roundtrip_witness :
  ∃ out, strsvisx (L := C_locale) (λ _, true) 17 ([0; ch "1"; 255; 92] ++ [0]) 4
      (VIS_NOLOCALE + VIS_CSTYLE) [ch "1"] = Ok out ∧
    (length out ≤ 16)%nat ∧ strnunvisx 5 out 0 = Ok [0; ch "1"; 255; 92].
Proof.
  apply (strsvisx_roundtrip (L := C_locale) 17 5 [0; ch "1"; 255; 92]
    (VIS_NOLOCALE + VIS_CSTYLE) [ch "1"]); [done|done| | |done|cbn; lia|cbn; lia].
  - intros _. split; apply (bool_decide_unpack _); exact I.
  - repeat constructor; done.
Defined.

(** An extra character [E] or [x] encoded with VIS_CSTYLE is not decoded back:
    its escape is the decoder's ESC, or the start of a hexadecimal escape. *)
Theorem svis_cstyle_misread :
  let strsvis c := strsvis (L := C_locale) (λ _, true) 5 [c] (VIS_NOLOCALE + VIS_CSTYLE) [c] in
  strsvis (ch "E") = Ok (92 :: str "E") ∧ strnunvisx 5 (92 :: str "E") 0 = Ok [27] ∧
  strsvis (ch "x") = Ok (92 :: str "x") ∧ strnunvisx 5 (92 :: str "x") 0 = Ok [].
Proof. vm_compute. auto. Qed.

(** vis reads two bytes when it is told to encode one: strvisx of a block of
    one byte reads past the end of the block. *)
Theorem strvisx_reads_past_block {L : Locale} (alloc : Z → bool) room c flags :
  (∀ n, alloc n = true) → has flags VIS_NOLOCALE = true →
  strvisx alloc room [c] 1 flags = Fault.
Proof.
  intros Ha Hl. unfold strvisx, istrsenvisx. cbn. rewrite !Ha, Hl. done.
Qed.

Lemma strvisx_reads_past_block_witness :
  strvisx (L := C_locale) (λ _, true) 9 [ch "a"] 1 VIS_NOLOCALE = Fault ∧
  strvisx (L := C_locale) (λ _, true) 9 (str "ab") 2 VIS_NOLOCALE = Ok (str "ab").
Proof.
  split; [|reflexivity]. by apply (strvisx_reads_past_block (L := C_locale)).
Defined.

(** When the extra characters are not valid in the locale, makeextralist
    copies them from where [mbsrtowcs] stopped instead of from their start, and
    reads past their end as soon as two bytes were converted. *)
Theorem makeextralist_overread {L : Locale} (alloc : Z → bool) flags s off :
  (∀ n, alloc n = true) → has flags VIS_NOLOCALE = false →
  mbsrtowcs s (Z.of_nat (length s)) = inr off → (2 ≤ off ≤ length s)%nat →
  makeextralist alloc flags s = Fault.
Proof.
  intros Ha Hl E Hoff. unfold makeextralist. rewrite Ha. cbn [negb].
  unfold extra_chars. rewrite Hl, E, length_drop, length_app. cbn [length].
  by rewrite (proj2 (Nat.ltb_lt _ _)) by lia.
Qed.

(** A locale that, like UTF-8, does not accept the byte 0xff. *)
Definition utf8_locale : Locale := {|
  mbstate := unit; mbstate0 := tt; MB_LEN_MAX := 16; MB_CUR_MAX := 1;
  mbrtowc := λ bs st, (if peek bs =? 0 then 0 else if peek bs =? 255 then -1 else 1,
                       u8 (peek bs), st);
  wcrtomb := λ wc st, (if wc <? 255 then Some [u8 wc] else None, st);
  mbsrtowcs := λ bs n,
    match list_find (λ b, b = 255) bs with
    | Some (i, _) => inr i | None => inl (take (Z.to_nat n) bs) end;
  iswgraph := isgraph; iswcntrl := iscntrl; iswalnum := isalnum; iswspace := isspace;
  iscgraph := isgraph |}.

Lemma makeextralist_overread_witness :
  mbsrtowcs (Locale := utf8_locale) [ch "a"; ch "b"; 255] 3 = inr 2%nat ∧
  makeextralist (L := utf8_locale) (λ _, true) 0 [ch "a"; ch "b"; 255] = Fault.
Proof.
  split; [reflexivity|].
  apply (makeextralist_overread (L := utf8_locale) _ _ _ 2); [done|done|done|cbn; lia].
Defined.
