(* ===== verification/Base64.v ===== *)
(** * base64: usr.bin/base64/base64.c

    The encoder with its line wrapping and the decoder, on streams that may fail;
    they are held against RFC 4648 and against each other. *)

From S2P Require Import Prelude Libc.

(** ** Streams

    An output stream: what has been written, and how many more bytes it takes
    before [fputc] fails with [ferr] ([None] when it never does).  An input stream
    is the bytes still to come. *)
Record FILE := mkFILE { fdata : list Z; froom : option nat; ferr : Z }.

(** [fputc(c, f) == -1] is an [Err] with [errno]; a failed call stores nothing. *)
Definition fputc (c : Z) (f : FILE) : FILE * bool :=
  match froom f with
  | None => (mkFILE (fdata f ++ [u8 c]) None (ferr f), true)
  | Some O => (f, false)
  | Some (S n) => (mkFILE (fdata f ++ [u8 c]) (Some n) (ferr f), true)
  end.

(** ** The encoder *)

Definition B64 : list Z :=
  str "ABCDEFGHIJKLMNOPQRSTUVWXYZabcdefghijklmnopqrstuvwxyz0123456789+/".

(** The number of bytes read, the three bytes of [in] and the rest of the input. *)
Definition getinput (fin : list Z) : nat * (Z * Z * Z) * list Z :=
  match fin with
  | a :: b :: c :: fin => (3%nat, (a, b, c), fin)
  | [a; b] => (2%nat, (a, b, 0), [])
  | [a] => (1%nat, (a, 0, 0), [])
  | [] => (0%nat, (0, 0, 0), [])
  end.

Definition encode (inp : Z * Z * Z) : list Z :=
  let '(in0, in1, in2) := inp in
  [ Z.shiftr in0 2;
    u8 (Z.shiftl (in0 .& 0x03) 4 .| Z.shiftr in1 4);
    u8 (Z.shiftl (in1 .& 0x0f) 2 .| Z.shiftr in2 6);
    in2 .& 0x3f ].

(** One character and, at the margin, a newline; [pos] is a [size_t].  The result
    is the error number, 0 for none. *)
Definition put_wrapped (c : Z) (wrap : Z) (fout : FILE) (pos : Z) : Z * FILE * Z :=
  let '(fout, ok) := fputc c fout in
  if negb ok then (ferr fout, fout, pos) else
  let pos := u64 (pos + 1) in
  if pos =? wrap then
    let '(fout, ok) := fputc 10 fout in
    if negb ok then (ferr fout, fout, pos) else (0, fout, 0)
  else (0, fout, pos).

(** [for (i = 0; i < len + 1; i++)]: the digits. *)
Fixpoint put_digits (out : list Z) (wrap : Z) (fout : FILE) (pos : Z) : Z * FILE * Z :=
  match out with
  | [] => (0, fout, pos)
  | o :: out =>
      if 64 <=? o then (EINVAL, fout, pos) else
      let '(e, fout, pos) := put_wrapped (nth (Z.to_nat o) B64 0) wrap fout pos in
      if negb (e =? 0) then (e, fout, pos) else put_digits out wrap fout pos
  end.

(** [for (; i < 4; i++)]: the padding. *)
Fixpoint put_padding (n : nat) (wrap : Z) (fout : FILE) (pos : Z) : Z * FILE * Z :=
  match n with
  | O => (0, fout, pos)
  | S n => let '(e, fout, pos) := put_wrapped (ch "=") wrap fout pos in
           if negb (e =? 0) then (e, fout, pos) else put_padding n wrap fout pos
  end.

Definition putoutput (fout : FILE) (out : list Z) (len : nat) (wrap pos : Z)
    : Z * FILE * Z :=
  let '(e, fout, pos) := put_digits (take (len + 1) out) wrap fout pos in
  if negb (e =? 0) then (e, fout, pos)
  else put_padding (4 - (len + 1)) wrap fout pos.

(** The loop over whole groups and the last group, if any. *)
Fixpoint encode_loop (fuel : nat) (fout : FILE) (fin : list Z) (wrap pos : Z)
    : res (Z * FILE * Z) :=
  match fuel with
  | O => Fault
  | S fuel =>
      let '(ilen, inp, fin) := getinput fin in
      if (2 <? ilen)%nat then
        let '(e, fout, pos) := putoutput fout (encode inp) ilen wrap pos in
        if negb (e =? 0) then Ok (e, fout, pos) else encode_loop fuel fout fin wrap pos
      else if negb (ilen =? 0)%nat then Ok (putoutput fout (encode inp) ilen wrap pos)
      else Ok (0, fout, pos)
  end.

Definition b64_encode (fout : FILE) (fin : list Z) (wrap : Z) : res (Z * FILE) :=
  let* (e, fout, pos) := encode_loop (S (length fin)) fout fin wrap 0 in
  if negb (e =? 0) then Ok (e, fout) else
  if negb (pos =? 0) && negb (wrap =? 0) then
    let '(fout, ok) := fputc 10 fout in
    Ok (if ok then 0 else ferr fout, fout)
  else Ok (0, fout).

(** ** The decoder *)

(** [strchr(B64, c)] as an offset: the terminating NUL is part of the string. *)
Fixpoint index_of (s : list Z) (c : Z) (i : Z) : option Z :=
  match s with
  | [] => if c =? 0 then Some i else None
  | x :: s => if x =? c then Some i else index_of s c (i + 1)
  end.

Definition skip (ignore : bool) (c : Z) : bool := ignore && isspace c.

(** The switch: the bits of [b] join those of [out]; the byte to write, if one is
    complete, and the bits left. *)
Definition decode_step (state : Z) (b out : Z) : option Z * Z :=
  if state =? 0 then (None, u8 (Z.shiftl b 2))
  else if state =? 1 then (Some (out .| Z.shiftr b 4), u8 (Z.shiftl (b .& 0xf) 4))
  else if state =? 2 then (Some (out .| Z.shiftr b 2), u8 (Z.shiftl (b .& 0x3) 6))
  else (Some (out .| b), 0).

(** [while ((c = getc(fin)) != -1) { if (ignore && isspace(c)) continue; break; }] *)
Fixpoint skip_to (ignore : bool) (fin : list Z) : option (Z * list Z) :=
  match fin with
  | [] => None
  | c :: fin => if skip ignore c then skip_to ignore fin else Some (c, fin)
  end.

(** After the first [=], in state 2 or 3 (case 2 falls through). *)
Definition decode_padding (ignore : bool) (state : Z) (fin : list Z) : Z :=
  let final fin := match skip_to ignore fin with Some _ => EFTYPE | None => 0 end in
  if (state =? 0) || (state =? 1) then EFTYPE
  else if state =? 2 then
    match skip_to ignore fin with
    | Some (c, fin) => if c =? ch "=" then final fin else EFTYPE
    | None => EFTYPE
    end
  else final fin.

Fixpoint decode_loop (ignore : bool) (fin : list Z) (state out : Z) (fout : FILE)
    : Z * FILE :=
  match fin with
  | [] => (if state =? 0 then 0 else EFTYPE, fout)
  | c :: fin =>
      if skip ignore c then decode_loop ignore fin state out fout
      else if c =? ch "=" then (decode_padding ignore state fin, fout)
      else
        match index_of B64 c 0 with
        | None => (EFTYPE, fout)
        | Some pos =>
            let '(byte, out) := decode_step state (u8 pos) out in
            match byte with
            | None => decode_loop ignore fin ((state + 1) .& 3) out fout
            | Some v =>
                let '(fout, ok) := fputc v fout in
                if negb ok then (ferr fout, fout)
                else decode_loop ignore fin ((state + 1) .& 3) out fout
            end
        end
  end.

Definition b64_decode (fout : FILE) (fin : list Z) (ignore : bool) : Z * FILE :=
  decode_loop ignore fin 0 0 fout.

(** [doit]: an [Err] when the program exits through [errc]. *)
Definition doit (fout : FILE) (fin : list Z) (decode ignore : bool) (wrap : Z) : res FILE :=
  let* (e, fout) := if decode then Ok (b64_decode fout fin ignore)
                    else b64_encode fout fin wrap in
  if e =? 0 then Ok fout else Err e.

(** ** Specifications *)

(** The [i]-th base 64 digit of a 24 bit group. *)
Definition sextet (n : Z) (i : nat) : Z :=
  nth (Z.to_nat (n / 2 ^ (18 - 6 * Z.of_nat i) mod 64)) B64 0.
Definition group (a b c : Z) : Z := a * 65536 + b * 256 + c.

(** RFC 4648, section 4: 24 bit groups of four digits, the last group zero
    extended and padded. *)
Fixpoint rfc4648 (s : list Z) : list Z :=
  match s with
  | a :: b :: c :: s => map (sextet (group a b c)) [0; 1; 2; 3]%nat ++ rfc4648 s
  | [a; b] => map (sextet (group a b 0)) [0; 1; 2]%nat ++ [ch "="]
  | [a] => map (sextet (group a 0 0)) [0; 1]%nat ++ [ch "="; ch "="]
  | [] => []
  end.

(** The lines of a text: [w] characters each, the last one possibly shorter. *)
Fixpoint chunks (fuel w : nat) (t : list Z) : list (list Z) :=
  match fuel, t with
  | S fuel, _ :: _ => take w t :: chunks fuel w (drop w t)
  | _, _ => []
  end.

(** The text as it is written: broken into lines unless [wrap] is 0. *)
Definition wrapped (wrap : Z) (t : list Z) : list Z :=
  if wrap =? 0 then t
  else concat (map (λ l, l ++ [10]) (chunks (length t) (Z.to_nat wrap) t)).

(** Writing a whole text to a stream, up to the first failure. *)
Fixpoint write_all (t : list Z) (f : FILE) : FILE * bool :=
  match t with
  | [] => (f, true)
  | c :: t => let '(f, ok) := fputc c f in if ok then write_all t f else (f, false)
  end.

(** *** Streams *)

Lemma fputc_ferr c f : ferr (fst (fputc c f)) = ferr f.
Proof. unfold fputc. by destruct (froom f) as [[|n]|]. Qed.

Lemma write_all_app t u f :
  write_all (t ++ u) f =
    let '(f1, ok) := write_all t f in if ok then write_all u f1 else (f1, false).
Proof.
  revert f. induction t as [|c t IH]; intros f; simpl; [done|].
  destruct (fputc c f) as [f1 []]; [apply IH|done].
Qed.

Lemma write_all_ferr t f : ferr (fst (write_all t f)) = ferr f.
Proof.
  revert f. induction t as [|c t IH]; intros f; simpl; [done|].
  pose proof (fputc_ferr c f) as H. destruct (fputc c f) as [f1 []]; simpl in *; [|done].
  by rewrite IH.
Qed.

(** A stream with room takes the whole text. *)
Lemma write_all_unbounded t d e :
  Forall is_byte t → write_all t (mkFILE d None e) = (mkFILE (d ++ t) None e, true).
Proof.
  intros Ht. revert d. induction Ht as [|c t Hc Ht IH]; intros d; simpl; [by rewrite app_nil_r|].
  rewrite IH, u8_small by apply Hc. by rewrite <- app_assoc.
Qed.

(** [wrote f t pos r]: the step that returned [r] wrote [t] to [f] and left the
    position [pos], or failed on the way. *)
Definition wrote (f : FILE) (t : list Z) (pos : Z) (r : Z * FILE * Z) : Prop :=
  let '(e, f', p) := r in
  f' = fst (write_all t f)
  ∧ if snd (write_all t f) then e = 0 ∧ p = pos else e = ferr f.

Lemma wrote_nil f pos : wrote f [] pos (0, f, pos).
Proof. done. Qed.

Lemma wrote_bind f t p r u q (k : FILE → Z → Z * FILE * Z) :
  ferr f ≠ 0 → wrote f t p r →
  (∀ f1, ferr f1 = ferr f → wrote f1 u q (k f1 p)) →
  wrote f (t ++ u) q (let '(e, f1, p1) := r in if negb (e =? 0) then (e, f1, p1) else k f1 p1).
Proof.
  destruct r as [[e f1] p1]. intros Hf [-> Hr] Hk. unfold wrote. rewrite write_all_app.
  pose proof (write_all_ferr t f) as Hferr.
  destruct (write_all t f) as [f1 []]; simpl in *.
  - destruct Hr as [-> ->]. simpl. specialize (Hk f1 Hferr). unfold wrote in Hk.
    destruct (k f1 p) as [[e f2] p2]. rewrite Hferr in Hk. done.
  - subst e. destruct (Z.eqb_spec (ferr f) 0); [done|]. simpl. done.
Qed.

(** *** Line breaking *)

(** The characters written for [t] from the column [pos], and the column after. *)
Fixpoint wrap_text (wrap pos : Z) (t : list Z) : list Z * Z :=
  match t with
  | [] => ([], pos)
  | c :: t =>
      let pos := u64 (pos + 1) in
      if pos =? wrap then let '(o, p) := wrap_text wrap 0 t in (c :: 10 :: o, p)
      else let '(o, p) := wrap_text wrap pos t in (c :: o, p)
  end.

Lemma wrap_text_cons wrap pos c t :
  wrap_text wrap pos (c :: t) =
    (fst (wrap_text wrap pos [c]) ++ fst (wrap_text wrap (snd (wrap_text wrap pos [c])) t),
     snd (wrap_text wrap (snd (wrap_text wrap pos [c])) t)).
Proof. cbn [wrap_text]. case_match; simpl; by destruct (wrap_text _ _ t). Qed.

Lemma wrap_text_app wrap pos t u :
  wrap_text wrap pos (t ++ u) =
    (fst (wrap_text wrap pos t) ++ fst (wrap_text wrap (snd (wrap_text wrap pos t)) u),
     snd (wrap_text wrap (snd (wrap_text wrap pos t)) u)).
Proof.
  revert pos. induction t as [|c t IH]; intros pos; [simpl; by destruct (wrap_text wrap pos u)|].
  cbn [app]. rewrite (wrap_text_cons wrap pos c (t ++ u)), (wrap_text_cons wrap pos c t), IH.
  cbn [fst snd]. by rewrite app_assoc.
Qed.

Lemma put_wrapped_wrote c wrap f pos :
  wrote f (fst (wrap_text wrap pos [c])) (snd (wrap_text wrap pos [c])) (put_wrapped c wrap f pos).
Proof.
  unfold put_wrapped. cbn [wrap_text]. pose proof (fputc_ferr c f) as Hf.
  destruct (u64 (pos + 1) =? wrap) eqn:E; unfold wrote; cbn [fst snd write_all];
    destruct (fputc c f) as [f1 []] eqn:E1; cbn [negb fst snd] in *; try done.
  pose proof (fputc_ferr 10 f1) as Hf1.
  destruct (fputc 10 f1) as [f2 []]; cbn [negb fst snd] in *; split; congruence || done.
Qed.

(** Within a line the column counts the characters, a full line ends. *)
Lemma wrap_text_line wrap p t :
  0 <= p → p + Z.of_nat (length t) < wrap < 2 ^ 64 →
  wrap_text wrap p t = (t, p + Z.of_nat (length t)).
Proof.
  revert p. induction t as [|c t IH]; intros p Hp Hw; simpl; [f_equal; lia|].
  cbn [length] in Hw. rewrite u64_small by lia.
  destruct (Z.eqb_spec (p + 1) wrap); [lia|]. rewrite IH by lia. f_equal. lia.
Qed.

Lemma wrap_text_full wrap t rest :
  0 < wrap < 2 ^ 64 → Z.of_nat (length t) = wrap →
  wrap_text wrap 0 (t ++ rest) =
    (t ++ 10 :: fst (wrap_text wrap 0 rest), snd (wrap_text wrap 0 rest)).
Proof.
  intros Hw Ht. destruct t as [|c t _] using rev_ind; [simpl in Ht; lia|].
  rewrite length_app in Ht. simpl in Ht.
  rewrite <- app_assoc, wrap_text_app, wrap_text_line by lia. cbn [fst snd app].
  rewrite wrap_text_cons. cbn [wrap_text]. rewrite u64_small by lia.
  destruct (Z.eqb_spec (0 + Z.of_nat (length t) + 1) wrap); [|lia]. simpl.
  by rewrite <- app_assoc.
Qed.

Lemma wrap_text_none p t :
  0 <= p → p + Z.of_nat (length t) < 2 ^ 64 →
  wrap_text 0 p t = (t, p + Z.of_nat (length t)).
Proof.
  revert p. induction t as [|c t IH]; intros p Hp Hw; simpl; [f_equal; lia|].
  cbn [length] in Hw. rewrite u64_small by lia.
  destruct (Z.eqb_spec (p + 1) 0); [lia|]. rewrite IH by lia. f_equal. lia.
Qed.

(** What the encoder writes, the final newline included, is the wrapped text. *)
Lemma wrap_text_wrapped wrap t :
  0 <= wrap < 2 ^ 64 → (wrap = 0 → Z.of_nat (length t) < 2 ^ 64) →
  fst (wrap_text wrap 0 t)
    ++ (if negb (snd (wrap_text wrap 0 t) =? 0) && negb (wrap =? 0) then [10] else [])
  = wrapped wrap t.
Proof.
  intros Hw Ht. unfold wrapped. destruct (Z.eqb_spec wrap 0) as [->|Hne].
  { rewrite wrap_text_none, andb_false_r by lia. apply app_nil_r. }
  clear Ht. rewrite andb_true_r. remember (length t) as fuel eqn:Hf.
  assert (length t <= fuel)%nat as Hle by lia. clear Hf. revert t Hle.
  induction fuel as [|fuel IH]; intros t Hle.
  { destruct t; [done|simpl in Hle; lia]. }
  destruct t as [|c t]; [done|]. cbn [chunks map concat].
  destruct (decide (Z.of_nat (length (c :: t)) < wrap)) as [Hlt|Hge].
  - rewrite wrap_text_line by lia. cbn [fst snd].
    destruct (Z.eqb_spec (0 + Z.of_nat (length (c :: t))) 0); [cbn [length] in *; lia|]. simpl negb.
    rewrite take_ge, drop_ge by lia. by destruct fuel; cbn; rewrite app_nil_r.
  - assert (length (take (Z.to_nat wrap) (c :: t)) = Z.to_nat wrap) as Hl
      by (rewrite length_take; lia).
    rewrite <- (take_drop (Z.to_nat wrap) (c :: t)) at 1 2.
    rewrite wrap_text_full by lia. cbn [fst snd].
    rewrite <- IH by (rewrite length_drop; simpl in *; lia).
    by rewrite <- !app_assoc.
Qed.

(** *** Groups *)

Lemma low_bits x k : 0 <= k → x .& (2 ^ k - 1) = x mod 2 ^ k.
Proof. intros. rewrite <- Z.land_ones, Z.ones_equiv by lia. done. Qed.

(** A disjoint [|] is a sum. *)
Lemma lor_shiftl_add x y k : 0 <= k → 0 <= y < 2 ^ k → Z.shiftl x k .| y = x * 2 ^ k + y.
Proof.
  intros Hk Hy. rewrite <- Z.shiftl_mul_pow2 by done.
  assert (Z.land (Z.shiftl x k) y = 0) as Hd.
  { apply Z.bits_inj'. intros i Hi. rewrite Z.land_spec, Z.bits_0.
    destruct (decide (i < k)) as [Hlt|Hge].
    - rewrite Z.shiftl_spec_low by done. done.
    - rewrite <- (Z.mod_small y (2 ^ k)) by done.
      rewrite Z.mod_pow2_bits_high by lia. apply andb_false_r. }
  pose proof (Z.add_lor_land (Z.shiftl x k) y). lia.
Qed.

Lemma encode_sextets a b c :
  is_byte a → is_byte b → is_byte c →
  encode (a, b, c) = map (λ i, group a b c / 2 ^ (18 - 6 * Z.of_nat i) mod 64) [0; 1; 2; 3]%nat.
Proof.
  unfold is_byte. intros Ha Hb Hc. unfold encode, group. cbn [map].
  assert (∀ x, x .& 0x03 = x mod 4) as E3 by (intros; apply (low_bits x 2); lia).
  assert (∀ x, x .& 0x0f = x mod 16) as E15 by (intros; apply (low_bits x 4); lia).
  assert (∀ x, x .& 0x3f = x mod 64) as E63 by (intros; apply (low_bits x 6); lia).
  rewrite E3, E15, E63, !Z.shiftr_div_pow2 by lia.
  change (2 ^ 2) with 4. change (2 ^ 4) with 16. change (2 ^ 6) with 64.
  change (2 ^ (18 - 6 * Z.of_nat 0)) with 262144. change (2 ^ (18 - 6 * Z.of_nat 1)) with 4096.
  change (2 ^ (18 - 6 * Z.of_nat 2)) with 64. change (2 ^ (18 - 6 * Z.of_nat 3)) with 1.
  rewrite (lor_shiftl_add _ (b / 16) 4) by (Z.to_euclidean_division_equations; lia).
  rewrite (lor_shiftl_add _ (c / 64) 2) by (Z.to_euclidean_division_equations; lia).
  change (2 ^ 2) with 4. change (2 ^ 4) with 16.
  rewrite !u8_small by (Z.to_euclidean_division_equations; lia).
  f_equal; [|f_equal; [|f_equal; [|f_equal]]]; Z.to_euclidean_division_equations; lia.
Qed.

Definition digit (o : Z) : Z := nth (Z.to_nat o) B64 0.

Lemma put_digits_wrote out wrap f pos :
  ferr f ≠ 0 → Forall (λ o, 0 <= o < 64) out →
  wrote f (fst (wrap_text wrap pos (map digit out))) (snd (wrap_text wrap pos (map digit out)))
    (put_digits out wrap f pos).
Proof.
  intros Hf Hout. revert f pos Hf. induction Hout as [|o out Ho Hout IH]; intros f pos Hf.
  { apply wrote_nil. }
  cbn [map put_digits]. destruct (Z.leb_spec 64 o); [lia|].
  rewrite (wrap_text_cons _ _ _ (map digit out)).
  eapply (wrote_bind f _ _ _ _ _ (put_digits out wrap)); [done|apply put_wrapped_wrote|].
  intros f1 Hf1. apply IH. congruence.
Qed.

Lemma put_padding_wrote n wrap f pos :
  ferr f ≠ 0 →
  wrote f (fst (wrap_text wrap pos (replicate n (ch "="))))
    (snd (wrap_text wrap pos (replicate n (ch "=")))) (put_padding n wrap f pos).
Proof.
  revert f pos. induction n as [|n IH]; intros f pos Hf; [apply wrote_nil|].
  cbn [replicate put_padding]. rewrite (wrap_text_cons _ _ _ (replicate n _)).
  eapply (wrote_bind f _ _ _ _ _ (put_padding n wrap)); [done|apply put_wrapped_wrote|].
  intros f1 Hf1. apply IH. congruence.
Qed.

(** The text of a group of which [len] bytes are data. *)
Definition group_text (inp : Z * Z * Z) (len : nat) : list Z :=
  map digit (take (len + 1) (encode inp)) ++ replicate (4 - (len + 1)) (ch "=").

Lemma encode_range a b c :
  is_byte a → is_byte b → is_byte c → Forall (λ o, 0 <= o < 64) (encode (a, b, c)).
Proof.
  intros. rewrite encode_sextets by done. apply Forall_forall. intros o Ho.
  apply list_elem_of_In, in_map_iff in Ho as (i & <- & _). apply Z.mod_pos_bound. lia.
Qed.

Lemma putoutput_wrote a b c len wrap f pos :
  ferr f ≠ 0 → is_byte a → is_byte b → is_byte c →
  wrote f (fst (wrap_text wrap pos (group_text (a, b, c) len)))
    (snd (wrap_text wrap pos (group_text (a, b, c) len)))
    (putoutput f (encode (a, b, c)) len wrap pos).
Proof.
  intros Hf Ha Hb Hc. unfold group_text, putoutput. rewrite wrap_text_app. cbn [fst snd].
  eapply (wrote_bind f _ _ _ _ _ (put_padding (4 - (len + 1)) wrap)); [done|..].
  - apply put_digits_wrote; [done|]. apply Forall_take, encode_range; done.
  - intros f1 Hf1. apply put_padding_wrote. congruence.
Qed.

(** What [getinput] takes from the stream is a group of the specification. *)
Lemma rfc4648_getinput fin len inp rest :
  Forall is_byte fin → getinput fin = (len, inp, rest) →
  (∃ a b c, inp = (a, b, c) ∧ is_byte a ∧ is_byte b ∧ is_byte c) ∧ Forall is_byte rest
  ∧ (length rest = length fin - len)%nat ∧ (len <= length fin)%nat
  ∧ rfc4648 fin = (if (len =? 0)%nat then [] else group_text inp len ++ rfc4648 rest)
  ∧ ((len < 3)%nat → rest = []).
Proof.
  assert (is_byte 0) as H0 by (unfold is_byte; lia).
  intros Hfin. destruct fin as [|a [|b [|c fin]]]; cbn [getinput]; intros [= <- <- <-];
    repeat match goal with H : Forall _ (_ :: _) |- _ => apply Forall_cons_1 in H as [? ?] end.
  - split; [by exists 0, 0, 0|]. split_and!; done.
  - split; [by exists a, 0, 0|]. split_and!; try done; try (simpl; lia).
    unfold group_text. rewrite encode_sextets by done. done.
  - split; [by exists a, b, 0|]. split_and!; try done; try (simpl; lia).
    unfold group_text. rewrite encode_sextets by done. done.
  - split; [by exists a, b, c|]. split_and!; try done; try (simpl; lia).
    unfold group_text. rewrite encode_sextets by done.
    rewrite app_nil_r. done.
Qed.

Lemma encode_loop_wrote fuel f fin wrap pos :
  (length fin < fuel)%nat → ferr f ≠ 0 → Forall is_byte fin →
  ∃ r, encode_loop fuel f fin wrap pos = Ok r
     ∧ wrote f (fst (wrap_text wrap pos (rfc4648 fin))) (snd (wrap_text wrap pos (rfc4648 fin))) r.
Proof.
  revert f fin pos. induction fuel as [|fuel IH]; intros f fin pos Hfuel Hf Hfin; [lia|].
  cbn [encode_loop]. destruct (getinput fin) as [[len inp] rest] eqn:Hin.
  apply rfc4648_getinput in Hin
    as ((a & b & c & -> & Ha & Hb & Hc) & Hrest & Hlen & Hle & -> & Hend); [|done].
  destruct (Nat.ltb_spec 2 len) as [Hfull|Hshort].
  - destruct (Nat.eqb_spec len 0) as [|_]; [lia|].
    assert (∀ f1 p, ferr f1 = ferr f → ∃ r, encode_loop fuel f1 rest wrap p = Ok r
      ∧ wrote f1 (fst (wrap_text wrap p (rfc4648 rest))) (snd (wrap_text wrap p (rfc4648 rest))) r)
      as IH' by (intros; apply IH; [lia|congruence|done]).
    rewrite wrap_text_app. cbn [fst snd].
    pose proof (putoutput_wrote a b c len wrap f pos Hf Ha Hb Hc) as Hput.
    destruct (putoutput _ _ _ _ _) as [[e f1] p1]. destruct Hput as [-> Hput].
    unfold wrote. rewrite write_all_app.
    pose proof (write_all_ferr (fst (wrap_text wrap pos (group_text (a, b, c) len))) f) as Hferr.
    destruct (write_all _ f) as [f1 []]; cbn [fst snd] in *.
    + destruct Hput as [-> ->]. cbn. edestruct (IH' f1) as ([[e f2] p2] & Hrun & Hr); [done|]. rewrite Hrun.
      eexists. split; [done|]. unfold wrote in Hr. by rewrite Hferr in Hr.
    + subst e. destruct (Z.eqb_spec (ferr f) 0); [done|]. cbn. by eexists.
  - destruct (Nat.eqb_spec len 0) as [->|_]; cbn [negb]; [eexists; split; [done|apply wrote_nil]|].
    rewrite Hend by lia. cbn [rfc4648]. rewrite app_nil_r.
    eexists. split; [done|]. by apply putoutput_wrote.
Qed.

Lemma b64_encode_ok f fin wrap :
  Forall is_byte fin → ferr f ≠ 0 → 0 <= wrap < 2 ^ 64 →
  (wrap = 0 → Z.of_nat (length (rfc4648 fin)) < 2 ^ 64) →
  b64_encode f fin wrap =
    Ok (let '(f', ok) := write_all (wrapped wrap (rfc4648 fin)) f in
        (if ok then 0 else ferr f, f')).
Proof.
  intros Hfin Hf Hwrap Hlen. unfold b64_encode.
  destruct (encode_loop_wrote (S (length fin)) f fin wrap 0) as ([[e f1] p] & -> & -> & Hr);
    [lia|done|done|]. cbn [res_bind].
  rewrite <- wrap_text_wrapped, write_all_app by done.
  pose proof (write_all_ferr (fst (wrap_text wrap 0 (rfc4648 fin))) f) as Hferr.
  destruct (write_all _ f) as [f1 []]; cbn [fst snd] in *.
  - destruct Hr as [-> ->]. cbn [Z.eqb negb].
    destruct (negb _ && negb _); cbn [write_all]; [|done].
    pose proof (fputc_ferr 10 f1) as Hferr1.
    destruct (fputc 10 f1) as [f2 []]; cbn [fst] in *; [done|]. by rewrite Hferr1, Hferr.
  - subst e. by destruct (Z.eqb_spec (ferr f) 0).
Qed.

(** C20.  The encoder writes the RFC 4648 encoding of its input, broken into lines
    of [wrap] characters (or not at all for 0), up to the first failing [fputc],
    whose [errno] it returns; it returns 0 when everything has been written. *)
Theorem b64_encode_rfc4648 f fin wrap :
  Forall is_byte fin → ferr f ≠ 0 → 0 <= wrap < 2 ^ 64 →
  (wrap = 0 → Z.of_nat (length (rfc4648 fin)) < 2 ^ 64) →
  b64_encode f fin wrap =
    Ok (let '(f', ok) := write_all (wrapped wrap (rfc4648 fin)) f in
        (if ok then 0 else ferr f, f')).
Proof. apply b64_encode_ok. Qed.

Lemma b64_encode_rfc4648_witness :
  b64_encode (mkFILE [] (Some 9%nat) 5) (str "hello world") 7
  = Ok (5, mkFILE (str "aGVsbG8" ++ [10] ++ str "g") (Some 0%nat) 5).
Proof.
  rewrite (b64_encode_rfc4648 (mkFILE [] (Some 9%nat) 5) (str "hello world") 7).
  - vm_compute. reflexivity.
  - unfold is_byte. repeat (apply Forall_cons; split; [lia|]). apply Forall_nil. exact I.
  - discriminate.
  - lia.
  - discriminate.
Defined.

(** ** Decoding *)

(** What the decoder sees of its input. *)
Definition visible (ignore : bool) (t : list Z) : list Z :=
  filter (λ c, skip ignore c = false) t.

Lemma visible_cons ignore c t :
  visible ignore (c :: t) = if skip ignore c then visible ignore t else c :: visible ignore t.
Proof.
  unfold visible. rewrite filter_cons. destruct (skip ignore c); case_decide; done.
Qed.

Lemma skip_to_visible ignore t :
  match skip_to ignore t with
  | Some (c, rest) => visible ignore t = c :: visible ignore rest
  | None => visible ignore t = []
  end.
Proof.
  induction t as [|c t IH]; [done|]. rewrite visible_cons. cbn [skip_to].
  destruct (skip ignore c); done.
Qed.

Lemma skip_to_nil ignore t : skip_to ignore t = None ↔ visible ignore t = [].
Proof.
  pose proof (skip_to_visible ignore t) as H.
  destruct (skip_to ignore t) as [[c rest]|]; [|done]. rewrite H. done.
Qed.

Lemma visible_false t : visible false t = t.
Proof. induction t as [|c t IH]; [done|]. rewrite visible_cons. simpl. by rewrite IH. Qed.

Lemma decode_padding_visible ignore st t :
  decode_padding ignore st t = decode_padding false st (visible ignore t).
Proof.
  unfold decode_padding. destruct (_ || _); [done|].
  pose proof (skip_to_visible ignore t) as H.
  destruct (skip_to ignore t) as [[c rest]|].
  - rewrite H. cbn [skip_to skip andb]. destruct (st =? 2); [|done]. destruct (c =? ch "="); [|done].
    pose proof (skip_to_visible ignore rest) as H2.
    destruct (skip_to ignore rest) as [[]|]; by rewrite H2.
  - by rewrite H.
Qed.

(** Ignored characters make no difference. *)
Lemma decode_loop_visible ignore t st out f :
  decode_loop ignore t st out f = decode_loop false (visible ignore t) st out f.
Proof.
  revert st out f. induction t as [|c t IH]; intros st out f; [done|].
  rewrite visible_cons. cbn [decode_loop].
  destruct (skip ignore c); [apply IH|]. cbn [decode_loop].
  change (skip false c) with false. cbn iota.
  destruct (c =? ch "="); [by rewrite decode_padding_visible|].
  destruct (index_of B64 c 0) as [p|]; [|done].
  destruct (decode_step st (u8 p) out) as [[v|] o]; [|apply IH].
  destruct (fputc v f) as [f' []]; [apply IH|done].
Qed.

Lemma index_of_digit o : 0 <= o < 64 → index_of B64 (digit o) 0 = Some o.
Proof.
  intros Ho.
  assert (forallb (λ n, bool_decide (index_of B64 (digit (Z.of_nat n)) 0 = Some (Z.of_nat n)))
            (seq 0 64) = true) as H by (vm_compute; reflexivity).
  rewrite forallb_forall in H. specialize (H (Z.to_nat o)).
  rewrite Z2Nat.id in H by lia. assert (In (Z.to_nat o) (seq 0 64)) as Hin by (apply in_seq; lia).
  apply H in Hin. by case_bool_decide.
Qed.

(** A digit is neither a space nor the padding character. *)
Lemma digit_plain o : 0 <= o < 64 → isspace (digit o) = false ∧ (digit o =? ch "=") = false.
Proof.
  intros Ho.
  assert (forallb (λ n, negb (isspace (digit (Z.of_nat n))) && negb (digit (Z.of_nat n) =? ch "="))
            (seq 0 64) = true) as H by (vm_compute; reflexivity).
  rewrite forallb_forall in H. specialize (H (Z.to_nat o)).
  rewrite Z2Nat.id in H by lia.
  assert (In (Z.to_nat o) (seq 0 64)) as Hin by (apply in_seq; lia).
  apply H in Hin. destruct (isspace _), (_ =? _); done.
Qed.

(** One digit read. *)
Lemma decode_loop_digit o t st out d e :
  0 <= o < 64 →
  decode_loop false (digit o :: t) st out (mkFILE d None e) =
    let '(byte, out) := decode_step st o out in
    decode_loop false t ((st + 1) .& 3) out
      (mkFILE (d ++ match byte with Some v => [u8 v] | None => [] end) None e).
Proof.
  intros Ho. cbn [decode_loop]. change (skip false (digit o)) with false. cbn iota.
  destruct (digit_plain o Ho) as [_ ->]. rewrite index_of_digit by done.
  rewrite u8_small by lia. destruct (decode_step st o out) as [[v|] out']; [done|].
  by rewrite app_nil_r.
Qed.

(** The digits of a group give back its bytes. *)
Lemma sextets_decode a b c (s := λ i : nat, group a b c / 2 ^ (18 - 6 * Z.of_nat i) mod 64) :
  is_byte a → is_byte b → is_byte c →
  let '(_, o1) := decode_step 0 (s 0%nat) 0 in
  let '(v1, o2) := decode_step 1 (s 1%nat) o1 in
  let '(v2, o3) := decode_step 2 (s 2%nat) o2 in
  let '(v3, _) := decode_step 3 (s 3%nat) o3 in
  v1 = Some a ∧ v2 = Some b ∧ v3 = Some c.
Proof.
  unfold is_byte. intros Ha Hb Hc. unfold decode_step. cbn [Z.eqb Pos.eqb].
  assert (∀ x, x .& 0xf = x mod 16) as E15 by (intros; apply (low_bits x 4); lia).
  assert (∀ x, x .& 0x3 = x mod 4) as E3 by (intros; apply (low_bits x 2); lia).
  rewrite E15, E3, !Z.shiftr_div_pow2 by lia. unfold s, group.
  change (2 ^ (18 - 6 * Z.of_nat 0)) with 262144. change (2 ^ (18 - 6 * Z.of_nat 1)) with 4096.
  change (2 ^ (18 - 6 * Z.of_nat 2)) with 64. change (2 ^ (18 - 6 * Z.of_nat 3)) with 1.
  assert (∀ x y k, 0 <= k → 0 <= x → 0 <= y < 2 ^ k → x * 2 ^ k < 256 →
    u8 (Z.shiftl x k) .| y = x * 2 ^ k + y) as E.
  { intros x y k Hk Hx Hy Hlt. rewrite <- lor_shiftl_add by done.
    rewrite Z.shiftl_mul_pow2 by done. rewrite u8_small by nia. done. }
  rewrite (E _ _ 2), (E _ _ 4), (E _ _ 6);
    change (2 ^ 2) with 4; change (2 ^ 4) with 16; change (2 ^ 6) with 64;
    try (Z.to_euclidean_division_equations; lia).
  split_and!; f_equal; Z.to_euclidean_division_equations; lia.
Qed.

Lemma sextet_digit n i : sextet n i = digit (n / 2 ^ (18 - 6 * Z.of_nat i) mod 64).
Proof. done. Qed.

Lemma group_digit_range n i : 0 <= n / 2 ^ (18 - 6 * Z.of_nat i) mod 64 < 64.
Proof. apply Z.mod_pos_bound. lia. Qed.

(** The four states, one digit each. *)
Lemma decode_digit0 o t out d e :
  0 <= o < 64 → decode_loop false (digit o :: t) 0 out (mkFILE d None e)
    = decode_loop false t 1 (u8 (Z.shiftl o 2)) (mkFILE d None e).
Proof. intros. rewrite decode_loop_digit by done. simpl. by rewrite app_nil_r. Qed.
Lemma decode_digit1 o t out d e v :
  0 <= o < 64 → is_byte v → out .| Z.shiftr o 4 = v →
  decode_loop false (digit o :: t) 1 out (mkFILE d None e)
    = decode_loop false t 2 (u8 (Z.shiftl (o .& 0xf) 4)) (mkFILE (d ++ [v]) None e).
Proof.
  intros Ho Hv <-. rewrite decode_loop_digit by done. cbn [decode_step Z.eqb Pos.eqb].
  by rewrite (u8_small (_ .| _)).
Qed.
Lemma decode_digit2 o t out d e v :
  0 <= o < 64 → is_byte v → out .| Z.shiftr o 2 = v →
  decode_loop false (digit o :: t) 2 out (mkFILE d None e)
    = decode_loop false t 3 (u8 (Z.shiftl (o .& 0x3) 6)) (mkFILE (d ++ [v]) None e).
Proof.
  intros Ho Hv <-. rewrite decode_loop_digit by done. cbn [decode_step Z.eqb Pos.eqb].
  by rewrite (u8_small (_ .| _)).
Qed.
Lemma decode_digit3 o t out d e v :
  0 <= o < 64 → is_byte v → out .| o = v →
  decode_loop false (digit o :: t) 3 out (mkFILE d None e)
    = decode_loop false t 0 0 (mkFILE (d ++ [v]) None e).
Proof.
  intros Ho Hv <-. rewrite decode_loop_digit by done. cbn [decode_step Z.eqb Pos.eqb].
  by rewrite (u8_small (_ .| _)).
Qed.

(** A group, whole or padded, decodes to its bytes. *)
Lemma decode_group a b c rest d e :
  is_byte a → is_byte b → is_byte c →
  decode_loop false (map (sextet (group a b c)) [0; 1; 2; 3]%nat ++ rest) 0 0 (mkFILE d None e)
    = decode_loop false rest 0 0 (mkFILE (d ++ [a; b; c]) None e)
  ∧ decode_loop false (map (sextet (group a b c)) [0; 1; 2]%nat ++ [ch "="]) 0 0 (mkFILE d None e)
    = (0, mkFILE (d ++ [a; b]) None e)
  ∧ decode_loop false (map (sextet (group a b c)) [0; 1]%nat ++ [ch "="; ch "="]) 0 0 (mkFILE d None e)
    = (0, mkFILE (d ++ [a]) None e).
Proof.
  intros Ha Hb Hc. pose proof (sextets_decode a b c Ha Hb Hc) as H. cbv zeta beta in H.
  unfold decode_step in H. cbn [Z.eqb Pos.eqb] in H. destruct H as ([= E1] & [= E2] & [= E3]).
  pose proof (group_digit_range (group a b c)) as R.
  cbn [map app]. rewrite !sextet_digit.
  rewrite !decode_digit0 by apply R. rewrite !(decode_digit1 _ _ _ _ _ a) by (apply R || done).
  rewrite !(decode_digit2 _ _ _ _ _ b) by (apply R || done).
  rewrite !(decode_digit3 _ _ _ _ _ c) by (apply R || done).
  split_and!; [by rewrite <- !app_assoc|by rewrite <- app_assoc|done].
Qed.

Lemma rfc4648_decode s d e :
  Forall is_byte s →
  decode_loop false (rfc4648 s) 0 0 (mkFILE d None e) = (0, mkFILE (d ++ s) None e).
Proof.
  assert (is_byte 0) as H0 by (unfold is_byte; lia).
  remember (length s) as n eqn:Hn. assert (length s <= n)%nat as Hle by lia. clear Hn.
  revert s d Hle. induction n as [|n IH]; intros s d Hle Hs.
  { destruct s; [by rewrite app_nil_r|simpl in Hle; lia]. }
  destruct s as [|a [|b [|c s]]]; cbn [rfc4648];
    repeat match goal with H : Forall _ (_ :: _) |- _ => apply Forall_cons_1 in H as [? ?] end.
  - by rewrite app_nil_r.
  - by apply (decode_group a 0 0 []).
  - by apply (decode_group a b 0 []).
  - rewrite (proj1 (decode_group a b c _ d e ltac:(done) ltac:(done) ltac:(done))).
    rewrite IH; [by rewrite <- app_assoc|cbn [length] in Hle; lia|done].
Qed.

(** The encoder's text holds no ignored character but the newlines. *)
Lemma rfc4648_plain s : visible true (rfc4648 s) = rfc4648 s.
Proof.
  assert (∀ n i, skip true (sextet n i) = false) as Hd.
  { intros n i. rewrite sextet_digit. unfold skip.
    by rewrite (proj1 (digit_plain _ (group_digit_range n i))). }
  remember (length s) as k eqn:Hk. assert (length s <= k)%nat as Hle by lia. clear Hk.
  revert s Hle. induction k as [|k IH]; intros s Hle.
  { destruct s; [done|simpl in Hle; lia]. }
  destruct s as [|a [|b [|c s]]]; cbn [rfc4648 map app]; rewrite ?visible_cons, ?Hd; try done.
  rewrite IH; [done|cbn [length] in Hle; lia].
Qed.

Lemma visible_app ignore t u : visible ignore (t ++ u) = visible ignore t ++ visible ignore u.
Proof. apply filter_app. Qed.

Lemma visible_all ignore t : visible ignore t = t ↔ Forall (λ c, skip ignore c = false) t.
Proof.
  split.
  - intros <-. unfold visible. apply Forall_forall. intros x Hx.
    by apply list_elem_of_filter in Hx as [? _].
  - induction 1 as [|c t Hc Ht IH]; [done|]. by rewrite visible_cons, Hc, IH.
Qed.

Lemma wrapped_visible wrap t :
  0 <= wrap → Forall (λ c, skip true c = false) t → visible true (wrapped wrap t) = t.
Proof.
  intros Hw Ht. unfold wrapped. destruct (Z.eqb_spec wrap 0) as [->|Hne].
  { by apply visible_all. }
  assert (length t <= length t)%nat as Hle by lia. revert Hle. generalize (length t) at 2 3 as fuel.
  intros fuel. revert t Ht. induction fuel as [|fuel IH]; intros t Ht Hle.
  { destruct t; [done|simpl in Hle; lia]. }
  destruct t as [|c t]; [done|]. cbn [chunks map concat].
  rewrite !visible_app, IH;
    [|by apply Forall_drop|rewrite length_drop; cbn [length] in *; lia].
  rewrite (proj2 (visible_all true (take _ _))) by by apply Forall_take.
  change (visible true [10]) with (@nil Z). by rewrite app_nil_r, take_drop.
Qed.

Lemma index_of_byte s c i k : Forall is_byte s → index_of s c i = Some k → c ≠ 0 → is_byte c.
Proof.
  intros Hs. revert i. induction Hs as [|x s Hx Hs IH]; intros i; cbn [index_of].
  - by destruct (Z.eqb_spec c 0).
  - destruct (Z.eqb_spec x c) as [->|]; [done|]. apply IH.
Qed.

Lemma B64_bytes : Forall is_byte B64.
Proof. unfold is_byte, B64. repeat (apply Forall_cons; split; [lia|]). done. Qed.

Lemma rfc4648_bytes s : Forall is_byte (rfc4648 s).
Proof.
  pose proof B64_bytes as HB.
  assert (∀ n i, is_byte (sextet n i)) as Hd.
  { intros n i. unfold sextet. pose proof (group_digit_range n i) as R.
    rewrite Forall_forall in HB. apply HB, list_elem_of_In, nth_In.
    change (length B64) with 64%nat. lia. }
  assert (is_byte (ch "=")) by (unfold is_byte; lia).
  remember (length s) as k eqn:Hk. assert (length s <= k)%nat as Hle by lia. clear Hk.
  revert s Hle. induction k as [|k IH]; intros s Hle.
  { destruct s; [done|simpl in Hle; lia]. }
  destruct s as [|a [|b [|c s]]]; cbn [rfc4648 map app]; repeat (apply Forall_cons; split); auto.
  apply IH. cbn [length] in Hle. lia.
Qed.

Lemma wrapped_bytes wrap t : Forall is_byte t → Forall is_byte (wrapped wrap t).
Proof.
  intros Ht. unfold wrapped. destruct (wrap =? 0); [done|].
  generalize (length t) as fuel. intros fuel. revert t Ht.
  induction fuel as [|fuel IH]; intros t Ht; [done|].
  destruct t as [|c t]; [done|]. cbn [chunks map concat].
  apply Forall_app. split; [|by apply IH, Forall_drop].
  apply Forall_app. split; [by apply Forall_take|]. apply Forall_singleton. unfold is_byte. lia.
Qed.

(** C17.  What [base64] encodes, with any line length, [base64 -d] decodes: the input comes
    back, and nothing else. *)
Theorem b64_roundtrip s wrap e d e' :
  Forall is_byte s → 0 <= wrap < 2 ^ 64 → e ≠ 0 →
  (wrap = 0 → Z.of_nat (length (rfc4648 s)) < 2 ^ 64) →
  ∃ t, b64_encode (mkFILE [] None e) s wrap = Ok (0, mkFILE t None e)
     ∧ b64_decode (mkFILE d None e') t true = (0, mkFILE (d ++ s) None e').
Proof.
  intros Hs Hwrap He Hlen. exists (wrapped wrap (rfc4648 s)).
  split.
  - rewrite b64_encode_ok by done.
    by rewrite write_all_unbounded by apply wrapped_bytes, rfc4648_bytes.
  - unfold b64_decode. rewrite decode_loop_visible, wrapped_visible;
      [by apply rfc4648_decode|lia|apply visible_all, rfc4648_plain].
Qed.

Lemma b64_roundtrip_witness :
  ∃ t, b64_encode (mkFILE [] None 5) [0; 255; 16; 32] 3 = Ok (0, mkFILE t None 5)
     ∧ b64_decode (mkFILE [7] None 5) t true = (0, mkFILE [7; 0; 255; 16; 32] None 5).
Proof.
  apply (b64_roundtrip [0; 255; 16; 32] 3 5 [7] 5); [|lia|lia|lia].
  unfold is_byte. repeat (apply Forall_cons; split; [lia|]). apply Forall_nil. exact I.
Defined.

(** ** What the decoder accepts *)

(** The alphabet of RFC 4648, as ranges of ASCII: A to Z, a to z, 0 to 9, + and /. *)
Definition b64_char (c : Z) : Prop :=
  65 <= c <= 90 ∨ 97 <= c <= 122 ∨ 48 <= c <= 57 ∨ c = 43 ∨ c = 47.

#[local] Instance b64_char_decision c : Decision (b64_char c).
Proof. unfold b64_char. apply _. Defined.

(** Digits that are [digit], and the padding that completes the last group of four,
    [st] digits of the first group being read. *)
Definition padded (digit : Z → Prop) (st : Z) (t : list Z) : Prop :=
  ∃ ds pad, t = ds ++ pad ∧ Forall digit ds
    ∧ ((pad = [] ∧ (st + Z.of_nat (length ds)) mod 4 = 0)
       ∨ (pad = [ch "="] ∧ (st + Z.of_nat (length ds)) mod 4 = 3)
       ∨ (pad = [ch "="; ch "="] ∧ (st + Z.of_nat (length ds)) mod 4 = 2)).

(** The characters [strchr] finds: those of the alphabet and, as the string ends in one,
    the NUL. *)
Definition found (c : Z) : Prop := index_of B64 c 0 ≠ None.

Lemma found_char c : c ≠ 0 → found c ↔ b64_char c.
Proof.
  intros Hc. unfold found. split.
  - intros H. destruct (index_of B64 c 0) as [k|] eqn:E; [|done].
    assert (0 <= c < 256) as Hb by (eapply (index_of_byte B64); [|exact E|done]; apply B64_bytes).
    assert (forallb (λ n, let c := Z.of_nat n in
      bool_decide (c = 0 ∨ index_of B64 c 0 = None ∨ b64_char c)) (seq 0 256) = true) as HF
      by (vm_compute; reflexivity).
    rewrite forallb_forall in HF. specialize (HF (Z.to_nat c)). rewrite in_seq, Z2Nat.id in HF by lia.
    cbn zeta in HF. apply bool_decide_eq_true in HF; [|lia]. rewrite E in HF. naive_solver.
  - intros H E. assert (forallb (λ n, let c := Z.of_nat n in
      bool_decide (b64_char c → index_of B64 c 0 ≠ None)) (seq 0 256) = true) as HF
      by (vm_compute; reflexivity).
    assert (0 <= c < 256) by (unfold b64_char in H; lia).
    rewrite forallb_forall in HF. specialize (HF (Z.to_nat c)). rewrite in_seq, Z2Nat.id in HF by lia.
    cbn zeta in HF. apply bool_decide_eq_true in HF; [|lia]. by apply HF.
Qed.

Lemma padded_digits (P Q : Z → Prop) st t :
  (∀ c, c ∈ t → P c ↔ Q c) → padded P st t ↔ padded Q st t.
Proof.
  assert (∀ P Q : Z → Prop, (∀ c, c ∈ t → P c → Q c) → padded P st t → padded Q st t) as H.
  { intros P1 Q1 H (ds & pad & -> & Hds & Hpad). exists ds, pad. split_and!; [done| |done].
    rewrite Forall_forall in *. intros c Hc. apply H; [|by apply Hds]. set_solver. }
  intros HPQ. split; apply H; intros c Hc; by apply HPQ.
Qed.

Lemma padded_cons st c t :
  found c → padded found st (c :: t) ↔ padded found ((st + 1) .& 3) t.
Proof.
  intros Hc. assert ((st + 1) .& 3 = (st + 1) mod 4) as -> by (apply (low_bits _ 2); lia).
  assert (∀ n : nat, ((st + 1) mod 4 + Z.of_nat n) mod 4 = (st + Z.of_nat (S n)) mod 4) as E.
  { intros n. rewrite Z.add_mod_idemp_l by lia. f_equal. lia. }
  unfold padded. split.
  - intros (ds & pad & Ht & Hds & Hpad). destruct ds as [|x ds].
    + simpl in Ht. subst pad. destruct Hpad as [[? _]|[[[= -> ->] _]|[[= -> ->] _]]];
        [done|by exfalso; apply Hc..].
    + injection Ht as <- ->. apply Forall_cons_1 in Hds as [_ Hds].
      exists ds, pad. rewrite E. auto.
  - intros (ds & pad & -> & Hds & Hpad). exists (c :: ds), pad. rewrite E in Hpad.
    split_and!; [done|by apply Forall_cons|done].
Qed.

Lemma padded_eq st t :
  0 <= st < 4 →
  padded found st (ch "=" :: t) ↔ (st = 3 ∧ t = []) ∨ (st = 2 ∧ t = [ch "="]).
Proof.
  intros Hst. unfold padded. split.
  - intros (ds & pad & Ht & Hds & Hpad). destruct ds as [|x ds].
    + simpl in Ht, Hpad. rewrite Z.add_0_r, Z.mod_small in Hpad by lia. subst pad.
      destruct Hpad as [[? _]|[[[= ->] ->]|[[= ->] ->]]]; [done|by left|by right].
    + injection Ht as <- ->. apply Forall_cons_1 in Hds as [Hx _]. by exfalso; apply Hx.
  - intros [[-> ->]|[-> ->]]; exists []; eexists; (split; [reflexivity|]); split; [done|auto|done|auto].
Qed.

Lemma decode_padding_ok st t :
  0 <= st < 4 →
  decode_padding false st t = 0 ↔ (st = 3 ∧ t = []) ∨ (st = 2 ∧ t = [ch "="]).
Proof.
  intros Hst. assert (EFTYPE ≠ 0) as HE by done. unfold decode_padding.
  assert (st = 0 ∨ st = 1 ∨ st = 2 ∨ st = 3) as [-> | [-> | [-> | ->]]] by lia;
    cbn [Z.eqb Pos.eqb orb].
  - naive_solver lia.
  - naive_solver lia.
  - destruct t as [|c t]; cbn [skip_to skip andb]; [naive_solver lia|].
    destruct (Z.eqb_spec c (ch "=")) as [->|].
    + destruct t; cbn [skip_to skip andb]; naive_solver lia.
    + naive_solver lia.
  - destruct t; cbn [skip_to skip andb]; naive_solver lia.
Qed.

Lemma decode_loop_ok t st out d e :
  0 <= st < 4 → fst (decode_loop false t st out (mkFILE d None e)) = 0 ↔ padded found st t.
Proof.
  revert st out d. induction t as [|c t IH]; intros st out d Hst; cbn [decode_loop].
  - split.
    + intros H. exists [], []. split_and!; [done|done|]. left. split; [done|].
      destruct (Z.eqb_spec st 0) as [->|]; done.
    + intros (ds & pad & Ht & _ & Hpad). symmetry in Ht. apply app_nil in Ht as [-> ->].
      destruct Hpad as [[_ H]|[[? _]|[? _]]]; [|done..]. simpl in H.
      rewrite Z.add_0_r, Z.mod_small in H by lia. by subst.
  - change (skip false c) with false. cbn iota.
    destruct (Z.eqb_spec c (ch "=")) as [->|Hc]; cbn [fst].
    { rewrite padded_eq, decode_padding_ok by done. done. }
    destruct (index_of B64 c 0) as [p|] eqn:Hp.
    + assert (found c) as Hb by (unfold found; by rewrite Hp).
      assert (0 <= (st + 1) .& 3 < 4) as Hst1.
      { assert ((st + 1) .& 3 = (st + 1) mod 4) as -> by (apply (low_bits _ 2); lia).
        apply Z.mod_pos_bound. lia. }
      rewrite padded_cons by done. unfold fputc. cbn [froom fdata ferr].
      destruct (decode_step st (u8 p) out) as [[v|] o]; by apply IH.
    + split; [done|]. intros (ds & pad & Ht & Hds & Hpad). exfalso. destruct ds as [|x ds].
      * simpl in Ht. subst pad. destruct Hpad as [[? _]|[[[= -> _] _]|[[= -> _] _]]]; done.
      * injection Ht as <- ->. apply Forall_cons_1 in Hds as [Hx _]. by apply Hx.
Qed.

(** Without a failing write the decoder returns 0 or EFTYPE. *)
Lemma decode_loop_result ignore t st out d e :
  fst (decode_loop ignore t st out (mkFILE d None e)) ∈ [0; EFTYPE].
Proof.
  assert (0 ∈ [0; EFTYPE] ∧ EFTYPE ∈ [0; EFTYPE]) as [H0 HE] by set_solver.
  revert st out d. induction t as [|c t IH]; intros st out d; cbn [decode_loop].
  - by destruct (st =? 0).
  - destruct (skip ignore c); [done|]. destruct (c =? ch "="); cbn [fst].
    + unfold decode_padding. repeat case_match; done.
    + destruct (index_of B64 c 0); [|done].
      destruct (decode_step st _ out) as [[v|] o]; unfold fputc; cbn [froom fdata ferr]; apply IH.
Qed.

(** C40.  On a text without a NUL, and with an output that never fails, the decoder
    returns 0 exactly when what is left of the text, the white space removed where
    [ignore] has it skipped, is digits of the alphabet of RFC 4648 and the padding
    that completes their last group, and returns EFTYPE otherwise.  (A NUL counts as a
    digit, [b64_decode_accepts_nul]; bits of the last digit that the padding cuts off
    need not be zero, [b64_decode_non_canonical].) *)
Theorem b64_decode_accepts t ignore d e :
  0 ∉ t →
  let r := fst (b64_decode (mkFILE d None e) t ignore) in
  (r = 0 ↔ padded b64_char 0 (filter (λ c, ignore && isspace c = false) t))
  ∧ (r ≠ 0 → r = EFTYPE).
Proof.
  intros Ht r. split.
  - unfold r, b64_decode. rewrite decode_loop_visible, decode_loop_ok by done.
    apply padded_digits. intros c Hc. apply found_char. intros ->.
    apply Ht. by apply list_elem_of_filter in Hc as [_ ?].
  - pose proof (decode_loop_result ignore t 0 0 d e) as H. fold (b64_decode (mkFILE d None e) t ignore) in H.
    fold r in H. intros ?. set_solver.
Qed.

Lemma b64_decode_accepts_witness :
  fst (b64_decode (mkFILE [7] None 5) (str "QUJD RA==") true) = 0
  ∧ fst (b64_decode (mkFILE [7] None 5) (str "QUJD RA==") false) = EFTYPE.
Proof.
  assert (0 ∉ str "QUJD RA==") as Hz by (apply (bool_decide_unpack _); vm_compute; exact I).
  destruct (b64_decode_accepts (str "QUJD RA==") true [7] 5 Hz) as [H1 _].
  destruct (b64_decode_accepts (str "QUJD RA==") false [7] 5 Hz) as [_ H2].
  split; [|apply H2; vm_compute; discriminate].
  apply H1. exists (str "QUJDRA"), (str "=="). split; [reflexivity|]. split.
  - repeat (apply Forall_cons; split; [unfold b64_char; vm_compute; intuition congruence|]).
    apply Forall_nil. exact I.
  - right; right. split; reflexivity.
Defined.

(** A NUL byte counts as a digit, of value 64: it is found at the end of the
    alphabet. *)
Lemma b64_decode_accepts_nul e :
  b64_decode (mkFILE [] None e) [0; ch "A"; ch "A"; ch "A"] true = (0, mkFILE [0; 0; 0] None e).
Proof. reflexivity. Qed.

(** The last digit before the padding may carry bits that are lost. *)
Lemma b64_decode_non_canonical d e :
  b64_decode (mkFILE d None e) (str "QR==") true = b64_decode (mkFILE d None e) (str "QQ==") true.
Proof. reflexivity. Qed.
