(* ===== verification/Cksum.v ===== *)
(** * cksum: usr.bin/cksum/crc.c, sum1.c, sum2.c

    The POSIX checksum with its sixteen slicing tables, the two historic sums, and
    the mathematical definition they are held against: the remainder of the
    message, as a polynomial over GF(2), by the generator. *)

From S2P Require Import Prelude.

(** ** Reading a file

    What successive calls of [read] return: the chunks, and whether the call after
    them fails or meets the end of the file. *)
Record file := mkFile { f_chunks : list (list Z); f_error : bool }.

(** All the bytes read; a chunk without bytes is the end of the file. *)
Fixpoint file_bytes (chunks : list (list Z)) : list Z :=
  match chunks with
  | [] | [] :: _ => []
  | buf :: chunks => buf ++ file_bytes chunks
  end.

(** ** crc.c *)

Definition crctab : list Z :=
  [ 0x0; 0x04c11db7; 0x09823b6e; 0x0d4326d9; 0x130476dc; 0x17c56b6b;
    0x1a864db2; 0x1e475005; 0x2608edb8; 0x22c9f00f; 0x2f8ad6d6; 0x2b4bcb61;
    0x350c9b64; 0x31cd86d3; 0x3c8ea00a; 0x384fbdbd; 0x4c11db70; 0x48d0c6c7;
    0x4593e01e; 0x4152fda9; 0x5f15adac; 0x5bd4b01b; 0x569796c2; 0x52568b75;
    0x6a1936c8; 0x6ed82b7f; 0x639b0da6; 0x675a1011; 0x791d4014; 0x7ddc5da3;
    0x709f7b7a; 0x745e66cd; 0x9823b6e0; 0x9ce2ab57; 0x91a18d8e; 0x95609039;
    0x8b27c03c; 0x8fe6dd8b; 0x82a5fb52; 0x8664e6e5; 0xbe2b5b58; 0xbaea46ef;
    0xb7a96036; 0xb3687d81; 0xad2f2d84; 0xa9ee3033; 0xa4ad16ea; 0xa06c0b5d;
    0xd4326d90; 0xd0f37027; 0xddb056fe; 0xd9714b49; 0xc7361b4c; 0xc3f706fb;
    0xceb42022; 0xca753d95; 0xf23a8028; 0xf6fb9d9f; 0xfbb8bb46; 0xff79a6f1;
    0xe13ef6f4; 0xe5ffeb43; 0xe8bccd9a; 0xec7dd02d; 0x34867077; 0x30476dc0;
    0x3d044b19; 0x39c556ae; 0x278206ab; 0x23431b1c; 0x2e003dc5; 0x2ac12072;
    0x128e9dcf; 0x164f8078; 0x1b0ca6a1; 0x1fcdbb16; 0x018aeb13; 0x054bf6a4;
    0x0808d07d; 0x0cc9cdca; 0x7897ab07; 0x7c56b6b0; 0x71159069; 0x75d48dde;
    0x6b93dddb; 0x6f52c06c; 0x6211e6b5; 0x66d0fb02; 0x5e9f46bf; 0x5a5e5b08;
    0x571d7dd1; 0x53dc6066; 0x4d9b3063; 0x495a2dd4; 0x44190b0d; 0x40d816ba;
    0xaca5c697; 0xa864db20; 0xa527fdf9; 0xa1e6e04e; 0xbfa1b04b; 0xbb60adfc;
    0xb6238b25; 0xb2e29692; 0x8aad2b2f; 0x8e6c3698; 0x832f1041; 0x87ee0df6;
    0x99a95df3; 0x9d684044; 0x902b669d; 0x94ea7b2a; 0xe0b41de7; 0xe4750050;
    0xe9362689; 0xedf73b3e; 0xf3b06b3b; 0xf771768c; 0xfa325055; 0xfef34de2;
    0xc6bcf05f; 0xc27dede8; 0xcf3ecb31; 0xcbffd686; 0xd5b88683; 0xd1799b34;
    0xdc3abded; 0xd8fba05a; 0x690ce0ee; 0x6dcdfd59; 0x608edb80; 0x644fc637;
    0x7a089632; 0x7ec98b85; 0x738aad5c; 0x774bb0eb; 0x4f040d56; 0x4bc510e1;
    0x46863638; 0x42472b8f; 0x5c007b8a; 0x58c1663d; 0x558240e4; 0x51435d53;
    0x251d3b9e; 0x21dc2629; 0x2c9f00f0; 0x285e1d47; 0x36194d42; 0x32d850f5;
    0x3f9b762c; 0x3b5a6b9b; 0x0315d626; 0x07d4cb91; 0x0a97ed48; 0x0e56f0ff;
    0x1011a0fa; 0x14d0bd4d; 0x19939b94; 0x1d528623; 0xf12f560e; 0xf5ee4bb9;
    0xf8ad6d60; 0xfc6c70d7; 0xe22b20d2; 0xe6ea3d65; 0xeba91bbc; 0xef68060b;
    0xd727bbb6; 0xd3e6a601; 0xdea580d8; 0xda649d6f; 0xc423cd6a; 0xc0e2d0dd;
    0xcda1f604; 0xc960ebb3; 0xbd3e8d7e; 0xb9ff90c9; 0xb4bcb610; 0xb07daba7;
    0xae3afba2; 0xaafbe615; 0xa7b8c0cc; 0xa379dd7b; 0x9b3660c6; 0x9ff77d71;
    0x92b45ba8; 0x9675461f; 0x8832161a; 0x8cf30bad; 0x81b02d74; 0x857130c3;
    0x5d8a9099; 0x594b8d2e; 0x5408abf7; 0x50c9b640; 0x4e8ee645; 0x4a4ffbf2;
    0x470cdd2b; 0x43cdc09c; 0x7b827d21; 0x7f436096; 0x7200464f; 0x76c15bf8;
    0x68860bfd; 0x6c47164a; 0x61043093; 0x65c52d24; 0x119b4be9; 0x155a565e;
    0x18197087; 0x1cd86d30; 0x029f3d35; 0x065e2082; 0x0b1d065b; 0x0fdc1bec;
    0x3793a651; 0x3352bbe6; 0x3e119d3f; 0x3ad08088; 0x2497d08d; 0x2056cd3a;
    0x2d15ebe3; 0x29d4f654; 0xc5a92679; 0xc1683bce; 0xcc2b1d17; 0xc8ea00a0;
    0xd6ad50a5; 0xd26c4d12; 0xdf2f6bcb; 0xdbee767c; 0xe3a1cbc1; 0xe760d676;
    0xea23f0af; 0xeee2ed18; 0xf0a5bd1d; 0xf464a0aa; 0xf9278673; 0xfde69bc4;
    0x89b8fd09; 0x8d79e0be; 0x803ac667; 0x84fbdbd0; 0x9abc8bd5; 0x9e7d9662;
    0x933eb0bb; 0x97ffad0c; 0xafb010b1; 0xab710d06; 0xa6322bdf; 0xa2f33668;
    0xbcb4666d; 0xb8757bda; 0xb5365d03; 0xb1f740b4 ].

Definition tab (t : list Z) (i : Z) : res Z :=
  match t !! Z.to_nat i with Some v => Ok v | None => Fault end.

Definition COMPUTE (var c : Z) : res Z :=
  let* t := tab crctab (Z.lxor (Z.shiftr var 24) c) in
  Ok (Z.lxor (u32 (Z.shiftl var 8)) t).

(** [crcslice]: 15 rows of 256 entries, all zero before [tables] fills them. *)
Definition crcslice_init : list (list Z) := replicate 15 (replicate 256 0).

(** The values [crc] takes in the inner loop of [tables]. *)
Fixpoint slice_column (n : nat) (crc : Z) : res (list Z) :=
  match n with
  | O => Ok []
  | S n => let* crc := COMPUTE crc 0 in let* rest := slice_column n crc in Ok (crc :: rest)
  end.

Fixpoint slice_columns (tabs : list Z) : res (list (list Z)) :=
  match tabs with
  | [] => Ok []
  | t :: tabs => let* c := slice_column 15 t in
                 let* cs := slice_columns tabs in Ok (c :: cs)
  end.

(** [crcslice[b][a]] is entry [b] of column [a]. *)
Definition tables : res (list (list Z)) :=
  let* cols := slice_columns crctab in
  Ok ((λ b, (λ col, nth b col 0) <$> cols) <$> seq 0 15).

Definition slice (crcslice : list (list Z)) (b : nat) (i : Z) : res Z :=
  match crcslice !! b with Some t => tab t i | None => Fault end.

Definition be32dec (p : list Z) : Z :=
  Z.shiftl (nth 0 p 0) 24 .| Z.shiftl (nth 1 p 0) 16 .| Z.shiftl (nth 2 p 0) 8 .| nth 3 p 0.

Definition crc_slice16 (crcslice : list (list Z)) (thecrc : Z) (p : list Z) : res Z :=
  let a := Z.lxor (be32dec p) thecrc in
  let b := be32dec (drop 4 p) in
  let c := be32dec (drop 8 p) in
  let d := be32dec (drop 12 p) in
  let byte x s := Z.shiftr x s .& 0xff in
  let* s14 := slice crcslice 14 (byte a 24) in
  let* s13 := slice crcslice 13 (byte a 16) in
  let* s12 := slice crcslice 12 (byte a 8) in
  let* s11 := slice crcslice 11 (byte a 0) in
  let* s10 := slice crcslice 10 (byte b 24) in
  let* s9 := slice crcslice 9 (byte b 16) in
  let* s8 := slice crcslice 8 (byte b 8) in
  let* s7 := slice crcslice 7 (byte b 0) in
  let* s6 := slice crcslice 6 (byte c 24) in
  let* s5 := slice crcslice 5 (byte c 16) in
  let* s4 := slice crcslice 4 (byte c 8) in
  let* s3 := slice crcslice 3 (byte c 0) in
  let* s2 := slice crcslice 2 (byte d 24) in
  let* s1 := slice crcslice 1 (byte d 16) in
  let* s0 := slice crcslice 0 (byte d 8) in
  let* t := tab crctab (byte d 0) in
  Ok (foldl Z.lxor s14 [s13; s12; s11; s10; s9; s8; s7; s6; s5; s4; s3; s2; s1; s0; t]).

(** The loop over blocks of 16 bytes, then the one over what is left. *)
Fixpoint crc_blocks (fuel : nat) (crcslice : list (list Z)) (thecrc : Z) (p : list Z)
    : res (Z * list Z) :=
  if (length p <? 16)%nat then Ok (thecrc, p) else
  match fuel with
  | O => Fault
  | S fuel =>
      let* thecrc := crc_slice16 crcslice thecrc p in
      crc_blocks fuel crcslice thecrc (drop 16 p)
  end.

Fixpoint crc_rest (thecrc : Z) (p : list Z) : res Z :=
  match p with
  | [] => Ok thecrc
  | c :: p => let* thecrc := COMPUTE thecrc c in crc_rest thecrc p
  end.

(** [crc_buf], with the static tables before and after the call. *)
Definition crc_buf (crcslice : list (list Z)) (thecrc : Z) (buf : list Z)
    : res (Z * list (list Z)) :=
  let* last := slice crcslice 14 255 in
  let* crcslice := if last =? 0 then tables else Ok crcslice in
  let* (thecrc, p) := crc_blocks (length buf) crcslice thecrc buf in
  let* thecrc := crc_rest thecrc p in
  Ok (thecrc, crcslice).

Definition crc_byte (thecrc byte_val : Z) : res Z := COMPUTE thecrc (byte_val .& 0xff).

(** The reading loop. *)
Fixpoint crc_read (crcslice : list (list Z)) (thecrc len : Z) (chunks : list (list Z))
    : res (Z * Z * list (list Z)) :=
  match chunks with
  | [] | [] :: _ => Ok (thecrc, len, crcslice)
  | buf :: chunks =>
      let* (thecrc, crcslice) := crc_buf crcslice thecrc buf in
      crc_read crcslice thecrc (len + Z.of_nat (length buf)) chunks
  end.

(** [for (; len != 0; len >>= 8)]: an [off_t] has eight bytes. *)
Fixpoint crc_length (fuel : nat) (thecrc len : Z) : res Z :=
  if len =? 0 then Ok thecrc else
  match fuel with
  | O => Fault
  | S fuel =>
      let* thecrc := crc_byte thecrc (len .& 0xff) in
      crc_length fuel thecrc (Z.shiftr len 8)
  end.

(** The checksum, the length and the tables; [None] when the read fails. *)
Definition crc (crcslice : list (list Z)) (f : file) : res (option (Z * Z * list (list Z))) :=
  let* (thecrc, len, crcslice) := crc_read crcslice 0 0 (f_chunks f) in
  if f_error f then Ok None else
  let* thecrc := crc_length 8 thecrc len in
  Ok (Some (u32 (Z.lnot thecrc), len, crcslice)).

(** ** sum1.c and sum2.c *)

Definition csum1_step (thecrc c : Z) : Z :=
  let thecrc := if has thecrc 1 then thecrc .| 0x10000 else thecrc in
  (u32 (Z.shiftr thecrc 1 + c)) .& 0xffff.

Definition csum1 (f : file) : option (Z * Z) :=
  let bytes := file_bytes (f_chunks f) in
  if f_error f then None
  else Some (foldl csum1_step 0 bytes, Z.of_nat (length bytes)).

Definition csum2_fold (thecrc : Z) : Z := u32 ((thecrc .& 0xffff) + Z.shiftr thecrc 16).

Definition csum2 (f : file) : option (Z * Z) :=
  let bytes := file_bytes (f_chunks f) in
  if f_error f then None
  else Some (csum2_fold (csum2_fold (foldl (λ s c, u32 (s + c)) 0 bytes)),
             Z.of_nat (length bytes)).

(** ** The mathematical definition

    A polynomial over GF(2) is the integer of its coefficients.  [poly_rem] is
    long division: bits are shifted in from the highest, and the generator is
    taken off whenever the degree reaches 32. *)

Definition CRC_POLY : Z := 0x104c11db7.

Definition poly_step (r : Z) (b : bool) : Z :=
  let r := 2 * r + Z.b2z b in
  if Z.testbit r 32 then Z.lxor r CRC_POLY else r.

Definition poly_rem (bits : list bool) : Z := foldl poly_step 0 bits.

(** The bits of a byte, the most significant first. *)
Definition byte_bits (c : Z) : list bool :=
  Z.testbit c <$> [7; 6; 5; 4; 3; 2; 1; 0].

(** The bytes of a length, the least significant first, none for zero. *)
Fixpoint length_bytes (fuel : nat) (len : Z) : list Z :=
  match fuel with
  | O => []
  | S fuel => if len =? 0 then [] else (len mod 256) :: length_bytes fuel (len / 256)
  end.

(** POSIX 1003.2: the message followed by its length, times [x^32], modulo the
    generator, complemented. *)
Definition posix_cksum (bytes : list Z) : Z :=
  let msg := bytes ++ length_bytes 8 (Z.of_nat (length bytes)) in
  2 ^ 32 - 1 - poly_rem (concat (byte_bits <$> msg) ++ replicate 32 false).

(** ** Division as a shift register *)

Definition bit_step (r : Z) : Z :=
  Z.lxor (u32 (2 * r)) (if Z.testbit r 31 then 0x04c11db7 else 0).

Fixpoint steps (n : nat) (r : Z) : Z :=
  match n with O => r | S n => bit_step (steps n r) end.

Definition is_u32 (x : Z) : Prop := 0 <= x < 2 ^ 32.

Lemma u32_ones x : u32 x = Z.land x (Z.ones 32).
Proof. unfold u32. by rewrite Z.land_ones by lia. Qed.

Lemma u32_lxor a b : u32 (Z.lxor a b) = Z.lxor (u32 a) (u32 b).
Proof.
  rewrite !u32_ones. generalize (Z.ones 32). intros m. Zbits.
Qed.

Lemma double_lxor a b : 2 * Z.lxor a b = Z.lxor (2 * a) (2 * b).
Proof.
  rewrite !(Z.mul_comm 2). change 2 with (2 ^ 1).
  rewrite <- !Z.shiftl_mul_pow2 by lia. apply Z.shiftl_lxor.
Qed.

Lemma lxor_swap a b c d : Z.lxor (Z.lxor a b) (Z.lxor c d) = Z.lxor (Z.lxor a c) (Z.lxor b d).
Proof. Zbits. Qed.

Lemma bit_step_lxor a b : bit_step (Z.lxor a b) = Z.lxor (bit_step a) (bit_step b).
Proof.
  unfold bit_step. rewrite double_lxor, u32_lxor, Z.lxor_spec, lxor_swap. f_equal.
  by destruct (Z.testbit a 31), (Z.testbit b 31).
Qed.

Lemma steps_lxor n a b : steps n (Z.lxor a b) = Z.lxor (steps n a) (steps n b).
Proof.
  induction n as [|n IH]; cbn [steps]; [done|]. by rewrite IH, bit_step_lxor.
Qed.

Lemma steps_add n k r : steps (n + k) r = steps n (steps k r).
Proof. induction n as [|n IH]; cbn [steps Nat.add]; congruence. Qed.

Lemma steps_S n r : steps (S n) r = bit_step (steps n r).
Proof. reflexivity. Qed.

Lemma steps_bit_step n r : steps n (bit_step r) = bit_step (steps n r).
Proof. induction n as [|n IH]; cbn [steps]; congruence. Qed.

Lemma lxor_u32 a b : is_u32 a → is_u32 b → is_u32 (Z.lxor a b).
Proof.
  unfold is_u32. intros Ha Hb.
  assert (Z.lxor a b = u32 (Z.lxor a b)) as ->; [|apply u32_range].
  by rewrite u32_lxor, !u32_small.
Qed.

Lemma bit_step_u32 r : is_u32 (bit_step r).
Proof.
  apply lxor_u32; [apply u32_range|]. unfold is_u32. case_match; lia.
Qed.

Lemma steps_u32 n r : is_u32 r → is_u32 (steps n r).
Proof. destruct n as [|n]; [done|]. intros _. apply bit_step_u32. Qed.

(** While the top bit is clear, a step is a shift. *)
Lemma steps_small n r : 0 <= r → r * 2 ^ Z.of_nat n < 2 ^ 32 → steps n r = r * 2 ^ Z.of_nat n.
Proof.
  intros Hr. induction n as [|n IH]; [intros; cbn; lia|].
  rewrite Nat2Z.inj_succ, Z.pow_succ_r by lia. intros Hb.
  assert (0 < 2 ^ Z.of_nat n) by (apply Z.pow_pos_nonneg; lia).
  cbn [steps]. rewrite IH by lia. unfold bit_step.
  rewrite Z.bits_above_log2; [|nia|].
  - rewrite Z.lxor_0_r, u32_small by nia. lia.
  - destruct (Z.eq_dec (r * 2 ^ Z.of_nat n) 0) as [->|]; [done|].
    apply Z.log2_lt_pow2; nia.
Qed.

Lemma shiftl_steps n r k :
  0 <= r → 0 <= k → r * 2 ^ (k + Z.of_nat n) < 2 ^ 32 →
  steps n (Z.shiftl r k) = Z.shiftl r (k + Z.of_nat n).
Proof.
  intros. rewrite !Z.shiftl_mul_pow2 by lia.
  rewrite Z.pow_add_r in * by lia. rewrite steps_small; nia.
Qed.

(** ** The table *)

Definition byte_list : list Z := Z.of_nat <$> seq 0 256.

Lemma crctab_steps : crctab = (λ i, steps 8 (Z.shiftl i 24)) <$> byte_list.
Proof. vm_compute. reflexivity. Qed.

Lemma tab_crctab i : is_byte i → tab crctab i = Ok (steps 8 (Z.shiftl i 24)).
Proof.
  intros Hi. unfold is_byte in Hi. unfold tab. rewrite crctab_steps.
  unfold byte_list. rewrite !list_lookup_fmap, lookup_seq_lt by lia. cbn [fmap option_fmap option_map].
  by rewrite Nat.add_0_l, Z2Nat.id by lia.
Qed.

Lemma u32_split x : is_u32 x → x = Z.lxor (Z.shiftl (Z.shiftr x 24) 24) (x .& Z.ones 24).
Proof.
  intros Hx. apply Z.bits_inj'. intros n Hn. rewrite Z.lxor_spec, Z.land_spec.
  rewrite Z.shiftl_spec, Z.testbit_ones by lia.
  destruct (Z.ltb_spec n 24).
  - rewrite (Z.testbit_neg_r _ (n - 24)) by lia.
    rewrite (proj2 (Z.leb_le 0 n)) by lia. by rewrite andb_true_r.
  - rewrite Z.shiftr_spec by lia. replace (n - 24 + 24) with n by lia.
    by rewrite andb_false_r, andb_false_r, xorb_false_r.
Qed.

Lemma COMPUTE_steps x c : is_u32 x → is_byte c →
  COMPUTE x c = Ok (steps 8 (Z.lxor x (Z.shiftl c 24))).
Proof.
  intros Hx Hc. unfold COMPUTE. set (y := Z.lxor x (Z.shiftl c 24)).
  assert (Hy : is_u32 y).
  { apply lxor_u32; [done|]. unfold is_byte in Hc. unfold is_u32.
    rewrite Z.shiftl_mul_pow2 by lia. lia. }
  assert (Ehi : Z.lxor (Z.shiftr x 24) c = Z.shiftr y 24).
  { unfold y. rewrite Z.shiftr_lxor, Z.shiftr_shiftl_l, Z.sub_diag, Z.shiftl_0_r by lia. done. }
  assert (Elo : u32 (Z.shiftl x 8) = Z.shiftl (y .& Z.ones 24) 8).
  { unfold y. apply Z.bits_inj'. intros n Hn. rewrite u32_ones, Z.land_spec, Z.testbit_ones by lia.
    rewrite !(Z.shiftl_spec _ 8) by lia. destruct (Z.ltb_spec n 8).
    { rewrite !(Z.testbit_neg_r _ (n - 8)) by lia. done. }
    rewrite Z.land_spec, Z.lxor_spec, Z.shiftl_spec, Z.testbit_ones by lia.
    destruct (Z.ltb_spec n 32).
    - rewrite (Z.testbit_neg_r c), xorb_false_r by lia. f_equal.
      rewrite !(proj2 (Z.leb_le 0 _)), (proj2 (Z.ltb_lt _ _)) by lia. done.
    - rewrite (proj2 (Z.ltb_ge (n - 8) 24)) by lia. by rewrite !andb_false_r. }
  assert (Hhi : is_byte (Z.shiftr y 24)).
  { unfold is_byte, is_u32 in *. rewrite Z.shiftr_div_pow2 by lia. split.
    - apply Z.div_pos; lia.
    - apply Z.div_lt_upper_bound; lia. }
  rewrite Ehi, Elo, tab_crctab by done. cbn [res_bind]. f_equal.
  rewrite (u32_split y Hy) at 3. rewrite steps_lxor, Z.lxor_comm. f_equal.
  assert (0 <= y .& Z.ones 24 < 2 ^ 24).
  { rewrite Z.land_ones by lia. apply Z.mod_pos_bound. lia. }
  rewrite steps_small by lia. rewrite Z.shiftl_mul_pow2 by lia. done.
Qed.

(** ** A buffer is consumed byte by byte *)

(** The reference: one byte at a time through the shift register. *)
Definition crc_ref (x : Z) (p : list Z) : Z :=
  foldl (λ x c, steps 8 (Z.lxor x (Z.shiftl c 24))) x p.

Lemma shiftl_byte_u32 c k : is_byte c → 0 <= k <= 24 → is_u32 (Z.shiftl c k).
Proof.
  unfold is_byte, is_u32. intros Hc Hk. rewrite Z.shiftl_mul_pow2 by lia.
  assert (0 < 2 ^ k) by (apply Z.pow_pos_nonneg; lia).
  assert (2 ^ k <= 2 ^ 24) by (apply Z.pow_le_mono_r; lia). nia.
Qed.

Lemma steps_S_u32 n x : is_u32 (steps (S n) x).
Proof. apply bit_step_u32. Qed.

Lemma steps8_u32 x : is_u32 (steps 8 x).
Proof. exact (steps_S_u32 7 x). Qed.

#[local] Opaque steps crctab.

Lemma crc_ref_u32 x p : is_u32 x → is_u32 (crc_ref x p).
Proof.
  revert x. induction p as [|c p IH]; intros x Hx; [done|]. cbn [crc_ref foldl]. apply IH, steps8_u32.
Qed.

Lemma crc_rest_ref x p : is_u32 x → Forall is_byte p → crc_rest x p = Ok (crc_ref x p).
Proof.
  intros Hx Hp. revert x Hx. induction Hp as [|c p Hc Hp IH]; intros x Hx; [done|].
  cbn [crc_rest]. rewrite (COMPUTE_steps _ _ Hx Hc). cbn [res_bind].
  by rewrite IH by apply steps8_u32.
Qed.

(** ** Slicing by sixteen *)

Definition slice_tables : list (list Z) :=
  (λ b, (λ i, steps (8 * (b + 2)) (Z.shiftl i 24)) <$> byte_list) <$> seq 0 15.

Lemma slice_column_steps n x :
  is_u32 x → slice_column n x = Ok ((λ k, steps (8 * (k + 1)) x) <$> seq 0 n).
Proof.
  revert x. induction n as [|n IH]; intros x Hx; cbn [slice_column]; [done|].
  rewrite (COMPUTE_steps x 0) by (assumption || (split; lia)). cbn [res_bind].
  rewrite Z.lxor_0_r, (IH _ (steps8_u32 _)). cbn [res_bind seq fmap list_fmap].
  do 2 f_equal. rewrite <- fmap_S_seq, <- list_fmap_compose. apply list_fmap_ext.
  intros i k _. cbn [compose]. rewrite <- steps_add. f_equal. lia.
Qed.

Lemma slice_columns_steps tabs :
  Forall is_u32 tabs →
  slice_columns tabs = Ok ((λ x, (λ k, steps (8 * (k + 1)) x) <$> seq 0 15) <$> tabs).
Proof.
  induction 1 as [|t tabs Ht Htabs IH]; [done|]. cbn [slice_columns].
  rewrite slice_column_steps by done. cbn [res_bind]. rewrite IH. done.
Qed.

Lemma elem_of_byte_list i : i ∈ byte_list ↔ is_byte i.
Proof.
  unfold byte_list, is_byte. rewrite list_elem_of_fmap. split.
  - intros (k & -> & Hk%elem_of_seq). lia.
  - intros Hi. exists (Z.to_nat i). rewrite elem_of_seq. lia.
Qed.

Lemma tables_steps : tables = Ok slice_tables.
Proof.
  unfold tables. rewrite slice_columns_steps.
  - cbn [res_bind]. apply (f_equal Ok). unfold slice_tables. apply list_fmap_ext. intros k b Hb.
    apply lookup_seq in Hb as [-> Hb]. cbn [Nat.add] in *.
    rewrite crctab_steps, <- !list_fmap_compose. apply list_fmap_ext. intros ? i _.
    cbn [compose]. rewrite (nth_lookup_Some _ k 0 (steps (8 * (k + 1)) (steps 8 (Z.shiftl i 24)))).
    + rewrite <- steps_add. by replace (8 * (k + 1) + 8)%nat with (8 * (k + 2))%nat by lia.
    + rewrite list_lookup_fmap, lookup_seq_lt by lia. done.
  - rewrite crctab_steps. apply Forall_forall. intros x (i & -> & Hi)%list_elem_of_fmap.
    apply steps_u32, shiftl_byte_u32; [by apply elem_of_byte_list|lia].
Qed.

Lemma slice_steps b i :
  (b < 15)%nat → is_byte i →
  slice slice_tables b i = Ok (steps (8 * (b + 2)) (Z.shiftl i 24)).
Proof.
  intros Hb Hi. unfold slice, slice_tables. rewrite list_lookup_fmap, lookup_seq_lt by done.
  cbn [fmap option_fmap option_map]. unfold tab, byte_list. unfold is_byte in Hi.
  rewrite !list_lookup_fmap, lookup_seq_lt by lia. cbn [fmap option_fmap option_map].
  by rewrite !Nat.add_0_l, Z2Nat.id by lia.
Qed.

Lemma byte_land w s : 0 <= s → is_byte (Z.shiftr w s .& 0xff).
Proof.
  intros. change 0xff with (Z.ones 8). rewrite Z.land_ones by lia. apply Z.mod_pos_bound. lia.
Qed.

Definition wbyte (w s : Z) : Z := Z.shiftr w s .& 0xff.

Lemma wbyte_testbit w s n : 0 <= s → 0 <= n →
  Z.testbit (Z.shiftl (wbyte w s) s) n = Z.testbit w n && (s <=? n) && (n <? s + 8).
Proof.
  intros Hs Hn. rewrite Z.shiftl_spec by lia. unfold wbyte.
  destruct (Z.leb_spec s n).
  - rewrite Z.land_spec. change 0xff with (Z.ones 8). rewrite Z.testbit_ones by lia.
    rewrite Z.shiftr_spec by lia. replace (n - s + s) with n by lia.
    rewrite (proj2 (Z.leb_le 0 (n - s))) by lia.
    replace (n - s <? 8) with (n <? s + 8) by (apply eq_true_iff_eq; rewrite !Z.ltb_lt; lia).
    by rewrite andb_true_r.
  - rewrite Z.testbit_neg_r by lia. by rewrite andb_false_r.
Qed.

Lemma word_bytes w :
  is_u32 w →
  w = Z.lxor (Z.lxor (Z.lxor (Z.shiftl (wbyte w 24) 24) (Z.shiftl (wbyte w 16) 16))
        (Z.shiftl (wbyte w 8) 8)) (Z.shiftl (wbyte w 0) 0).
Proof.
  intros Hw. apply Z.bits_inj'. intros n Hn. rewrite !Z.lxor_spec, !wbyte_testbit by lia.
  destruct (Z.lt_ge_cases n 32).
  - Zcases; try lia; cbn; by destruct (Z.testbit w n).
  - assert (Z.testbit w n = false) as ->; [|done].
    destruct (Z.eq_dec w 0) as [->|]; [apply Z.bits_0|].
    unfold is_u32 in Hw. apply Z.bits_above_log2; [lia|]. apply Z.log2_lt_pow2; [lia|].
    assert (2 ^ 32 <= 2 ^ n) by (apply Z.pow_le_mono_r; lia). lia.
Qed.

(** Four bytes through the register, as the tables have them. *)
Lemma word_steps w n :
  is_u32 w →
  steps (8 * (n + 4)) w =
  Z.lxor (Z.lxor (Z.lxor (steps (8 * (n + 4)) (Z.shiftl (wbyte w 24) 24))
                         (steps (8 * (n + 3)) (Z.shiftl (wbyte w 16) 24)))
                 (steps (8 * (n + 2)) (Z.shiftl (wbyte w 8) 24)))
         (steps (8 * (n + 1)) (Z.shiftl (wbyte w 0) 24)).
Proof.
  intros Hw. rewrite (word_bytes w Hw) at 1. rewrite !steps_lxor.
  assert (Hs : ∀ s k, 0 <= s → s + 8 * Z.of_nat k = 24 →
    steps (8 * (n + 4)) (Z.shiftl (wbyte w s) s) =
    steps (8 * (n + 4 - k)) (Z.shiftl (wbyte w s) 24)).
  { intros s k Hs Hk. pose proof (byte_land w s Hs) as Hb. unfold is_byte in Hb.
    fold (wbyte w s) in Hb.
    replace (8 * (n + 4))%nat with (8 * (n + 4 - k) + 8 * k)%nat by lia.
    rewrite steps_add. f_equal. rewrite shiftl_steps by
      (rewrite ?Nat2Z.inj_mul; change (Z.of_nat 8) with 8; rewrite ?Hk; lia).
    f_equal. lia. }
  rewrite (Hs 16 1%nat), (Hs 8 2%nat), (Hs 0 3%nat) by lia.
  repeat f_equal; lia.
Qed.

Lemma testbit_high x k n : 0 <= x < 2 ^ k → 0 <= k <= n → Z.testbit x n = false.
Proof.
  intros Hx Hk. destruct (Z.eq_dec x 0) as [->|]; [apply Z.bits_0|].
  apply Z.bits_above_log2; [lia|]. apply Z.log2_lt_pow2; [lia|].
  assert (2 ^ k <= 2 ^ n) by (apply Z.pow_le_mono_r; lia). lia.
Qed.

Lemma be32dec_u32 a b c d p :
  is_byte a → is_byte b → is_byte c → is_byte d →
  be32dec (a :: b :: c :: d :: p) =
  Z.lxor (Z.lxor (Z.lxor (Z.shiftl a 24) (Z.shiftl b 16)) (Z.shiftl c 8)) d.
Proof.
  intros Ha Hb Hc Hd. unfold be32dec. cbn [nth].
  assert (Hz : ∀ x k y, is_byte y → 0 <= k → Z.land (Z.shiftl x (k + 8)) (Z.shiftl y k) = 0).
  { intros x k y Hy Hk. apply Z.bits_inj'. intros n Hn.
    rewrite Z.land_spec, !Z.shiftl_spec, Z.bits_0 by lia.
    destruct (Z.lt_ge_cases n (k + 8)); [by rewrite Z.testbit_neg_r by lia|].
    rewrite (testbit_high y 8) by (exact Hy || lia). by rewrite andb_false_r. }
  assert (Hl : ∀ x y, Z.land x y = 0 → Z.lor x y = Z.lxor x y).
  { intros x y E. rewrite <- Z.lxor_lor by done. done. }
  pose proof (Hz a 16 b Hb ltac:(lia)) as E1. change (16 + 8) with 24 in E1.
  pose proof (Hz (Z.lxor (Z.shiftl a 8) b) 8 c Hc ltac:(lia)) as E2.
  pose proof (Hz (Z.lxor (Z.lxor (Z.shiftl a 16) (Z.shiftl b 8)) c) 0 d Hd ltac:(lia)) as E3.
  rewrite Z.shiftl_lxor, Z.shiftl_shiftl in E2 by lia.
  rewrite !Z.shiftl_lxor, !Z.shiftl_shiftl in E3 by lia.
  change (8 + (8 + 8)) with 24 in E2. change (8 + 8) with 16 in E2.
  change (16 + (0 + 8)) with 24 in E3. change (8 + (0 + 8)) with 16 in E3. change (0 + 8) with 8 in E3.
  rewrite Z.shiftl_0_r in E3.
  rewrite (Hl _ _ E1), (Hl _ _ E2). by apply Hl.
Qed.

Lemma crc_ref_nil x : crc_ref x [] = x.
Proof. reflexivity. Qed.

Lemma be32dec_prefix a b c d p : be32dec (a :: b :: c :: d :: p) = be32dec [a; b; c; d].
Proof. reflexivity. Qed.

(** Four bytes of a message enter the register as one word. *)
Lemma crc_ref_word x a b c d p :
  is_u32 x → is_byte a → is_byte b → is_byte c → is_byte d →
  crc_ref x (a :: b :: c :: d :: p) =
  crc_ref (steps 32 (Z.lxor (be32dec (a :: b :: c :: d :: p)) x)) p.
Proof.
  intros Hx Ha Hb Hc Hd. rewrite be32dec_u32 by assumption. cbn [crc_ref foldl].
  unfold crc_ref. f_equal.
  assert (Hs : ∀ y k, is_byte y → (k ≤ 3)%nat →
    steps (8 * k) (Z.shiftl y (24 - 8 * Z.of_nat k)) = Z.shiftl y 24).
  { intros y k Hy Hk. unfold is_byte in Hy.
    replace 24 with (24 - 8 * Z.of_nat k + Z.of_nat (8 * k)) at 2 by lia.
    apply shiftl_steps; [lia..|].
    replace (24 - 8 * Z.of_nat k + Z.of_nat (8 * k)) with 24 by lia. lia. }
  pose proof (Hs b 1%nat Hb ltac:(lia)) as E1. pose proof (Hs c 2%nat Hc ltac:(lia)) as E2.
  pose proof (Hs d 3%nat Hd ltac:(lia)) as E3.
  change (24 - 8 * Z.of_nat 1) with 16 in E1. change (24 - 8 * Z.of_nat 2) with 8 in E2.
  change (24 - 8 * Z.of_nat 3) with 0 in E3. rewrite Z.shiftl_0_r in E3.
  rewrite <- E1, <- E2, <- E3.
  change 32%nat with (8 + (8 + (8 + 8)))%nat. change (8 * 2)%nat with (8 + 8)%nat.
  change (8 * 3)%nat with (8 + (8 + 8))%nat. change (8 * 1)%nat with 8%nat.
  rewrite !steps_add, !steps_lxor. Zbits.
Qed.

Lemma be32dec_is_u32 a b c d p :
  is_byte a → is_byte b → is_byte c → is_byte d → is_u32 (be32dec (a :: b :: c :: d :: p)).
Proof.
  intros. rewrite be32dec_u32 by assumption.
  repeat apply lxor_u32; try (apply shiftl_byte_u32; [done|lia]).
  unfold is_byte, is_u32 in *. lia.
Qed.

(** The entry of table [b] for the byte of [w] at [s]. *)
Definition entry (b : nat) (w s : Z) : Z := steps (8 * (b + 2)) (Z.shiftl (wbyte w s) 24).

Lemma slice_entry b w s :
  (b < 15)%nat → 0 <= s → slice slice_tables b (Z.shiftr w s .& 0xff) = Ok (entry b w s).
Proof. intros Hb Hs. exact (slice_steps b (wbyte w s) Hb (byte_land w s Hs)). Qed.

Lemma tab_entry w s :
  0 <= s → tab crctab (Z.shiftr w s .& 0xff) = Ok (steps 8 (Z.shiftl (wbyte w s) 24)).
Proof. intros Hs. exact (tab_crctab (wbyte w s) (byte_land w s Hs)). Qed.

(** The sixteen table entries of four words, and the four words in sequence. *)
Lemma slice16_words A B C D :
  is_u32 A → is_u32 B → is_u32 C → is_u32 D →
  foldl Z.lxor (entry 14 A 24)
    [entry 13 A 16; entry 12 A 8; entry 11 A 0; entry 10 B 24; entry 9 B 16; entry 8 B 8;
     entry 7 B 0; entry 6 C 24; entry 5 C 16; entry 4 C 8; entry 3 C 0; entry 2 D 24;
     entry 1 D 16; entry 0 D 8; steps 8 (Z.shiftl (wbyte D 0) 24)] =
  steps 32 (Z.lxor D (steps 32 (Z.lxor C (steps 32 (Z.lxor B (steps 32 A)))))).
Proof.
  intros HA HB HC HD. rewrite !steps_lxor.
  assert (EA : steps 32 (steps 32 (steps 32 (steps 32 A))) = steps (8 * (12 + 4)) A)
    by (by rewrite <- !steps_add).
  assert (EB : steps 32 (steps 32 (steps 32 B)) = steps (8 * (8 + 4)) B)
    by (by rewrite <- !steps_add).
  assert (EC : steps 32 (steps 32 C) = steps (8 * (4 + 4)) C) by (by rewrite <- !steps_add).
  rewrite EA, EB, EC. change 32%nat with (8 * (0 + 4))%nat.
  rewrite (Z.lxor_comm (steps _ D)), (Z.lxor_comm (steps _ C)), (Z.lxor_comm (steps _ B)).
  rewrite (word_steps A 12 HA), (word_steps B 8 HB), (word_steps C 4 HC), (word_steps D 0 HD).
  cbn [foldl]. unfold entry. cbn [Nat.add Nat.mul]. by rewrite !Z.lxor_assoc.
Qed.

Lemma crc_slice16_ref x p :
  is_u32 x → Forall is_byte p → (16 ≤ length p)%nat →
  crc_slice16 slice_tables x p = Ok (crc_ref x (take 16 p)).
Proof.
  intros Hx Hp Hlen.
  do 16 (destruct p as [|? p]; [cbn in Hlen; lia|]). clear Hlen.
  repeat match goal with H : Forall _ (_ :: _) |- _ => apply Forall_cons in H as [? H] end.
  cbn [take]. unfold crc_slice16. cbn [drop]. rewrite !crc_ref_word by
    (first [assumption | apply (steps_S_u32 31)]).
  change (take 0 p) with (@nil Z). rewrite crc_ref_nil. rewrite !(be32dec_prefix _ _ _ _ (_ :: _)).
  rewrite (be32dec_prefix _ _ _ _ p).
  match goal with |- context [Z.lxor (be32dec ?l) x] =>
    assert (HA : is_u32 (Z.lxor (be32dec l) x))
      by (apply lxor_u32; [apply be32dec_is_u32; assumption|assumption]);
    generalize dependent (Z.lxor (be32dec l) x); intros A HA end.
  repeat match goal with |- context [be32dec ?l] =>
    assert (is_u32 (be32dec l)) by (apply be32dec_is_u32; assumption);
    generalize dependent (be32dec l); intros ? ? end.
  rewrite !slice_entry, tab_entry by lia. cbn [res_bind]. apply (f_equal Ok).
  by apply slice16_words.
Qed.

(** ** The whole of crc.c *)

Lemma crc_blocks_ref fuel x p :
  is_u32 x → Forall is_byte p → (length p ≤ fuel)%nat →
  ∃ x' p', crc_blocks fuel slice_tables x p = Ok (x', p') ∧ is_u32 x' ∧ Forall is_byte p' ∧
    crc_ref x' p' = crc_ref x p.
Proof.
  revert x p. induction fuel as [|fuel IH]; intros x p Hx Hp Hf; cbn [crc_blocks].
  - rewrite (proj2 (Nat.ltb_lt _ _)) by lia. by exists x, p.
  - destruct (Nat.ltb_spec (length p) 16); [by exists x, p|].
    rewrite crc_slice16_ref by (assumption || lia). cbn [res_bind].
    destruct (IH (crc_ref x (take 16 p)) (drop 16 p)) as (x' & p' & H1 & H2 & H3 & H4).
    + by apply crc_ref_u32.
    + by apply Forall_drop.
    + rewrite length_drop. lia.
    + exists x', p'. split_and!; [done..|]. rewrite H4. unfold crc_ref.
      by rewrite <- foldl_app, take_drop.
Qed.

(** The static tables are empty until the first call fills them. *)
Definition tables_state (t : list (list Z)) : Prop := t = crcslice_init ∨ t = slice_tables.

Lemma crc_buf_ref t x p :
  tables_state t → is_u32 x → Forall is_byte p →
  crc_buf t x p = Ok (crc_ref x p, slice_tables).
Proof.
  intros Ht Hx Hp. unfold crc_buf.
  assert (Hl : ∃ v, slice t 14 255 = Ok v ∧
    (if v =? 0 then tables else Ok t) = Ok slice_tables).
  { destruct Ht as [-> | ->].
    - exists 0. split; [reflexivity|]. apply tables_steps.
    - rewrite slice_steps by (lia || (split; lia)). eexists; split; [done|].
      case_match; [apply tables_steps|done]. }
  destruct Hl as (v & -> & Hv). cbn [res_bind]. rewrite Hv. cbn [res_bind].
  destruct (crc_blocks_ref (length p) x p) as (x' & p' & -> & Hx' & Hp' & E); [done..|].
  cbn [res_bind]. rewrite crc_rest_ref by done. cbn [res_bind]. by rewrite E.
Qed.

Lemma crc_read_ref t x n chunks :
  tables_state t → is_u32 x → Forall (Forall is_byte) chunks →
  ∃ t', crc_read t x n chunks =
    Ok (crc_ref x (file_bytes chunks), n + Z.of_nat (length (file_bytes chunks)), t') ∧
    tables_state t'.
Proof.
  intros Ht Hx Hc. revert t x n Ht Hx.
  induction Hc as [|buf chunks Hb Hc IH]; intros t x n Ht Hx; cbn [crc_read file_bytes].
  { exists t. by rewrite Z.add_0_r. }
  destruct buf as [|b buf]; [exists t; by rewrite Z.add_0_r|].
  rewrite crc_buf_ref by done. cbn [res_bind].
  destruct (IH slice_tables (crc_ref x (b :: buf)) (n + Z.of_nat (length (b :: buf))))
    as (t' & E & Ht'); [by right|by apply crc_ref_u32|].
  exists t'. split; [|done]. rewrite E. unfold crc_ref.
  rewrite foldl_app, length_app, Nat2Z.inj_add, Z.add_assoc. done.
Qed.

Lemma crc_length_ref fuel x n :
  is_u32 x → 0 <= n < 2 ^ (8 * Z.of_nat fuel) →
  crc_length fuel x n = Ok (crc_ref x (length_bytes fuel n)).
Proof.
  revert x n. induction fuel as [|fuel IH]; intros x n Hx Hn.
  { change (2 ^ (8 * Z.of_nat 0)) with 1 in Hn. replace n with 0 by lia. done. }
  cbn [crc_length length_bytes]. destruct (Z.eqb_spec n 0); [done|].
  unfold crc_byte. change 0xff with (Z.ones 8).
  rewrite <- Z.land_assoc, Z.land_diag, Z.land_ones by lia. change (2 ^ 8) with 256.
  assert (Hb : is_byte (n mod 256)) by (apply Z.mod_pos_bound; lia).
  rewrite COMPUTE_steps by assumption. cbn [res_bind].
  rewrite Z.shiftr_div_pow2 by lia. rewrite IH; [reflexivity|apply steps8_u32|].
  change (2 ^ 8) with 256. rewrite Nat2Z.inj_succ in Hn.
  replace (8 * Z.succ (Z.of_nat fuel)) with (8 + 8 * Z.of_nat fuel) in Hn by lia.
  rewrite Z.pow_add_r in Hn by lia. split; [apply Z.div_pos; lia|].
  apply Z.div_lt_upper_bound; lia.
Qed.

(** ** The register computes the remainder *)

Lemma top_clear m :
  0 <= m < 2 ^ 33 → Z.lxor m (if Z.testbit m 32 then 2 ^ 32 else 0) = u32 m.
Proof.
  intros Hm. apply Z.bits_inj'. intros n Hn.
  rewrite u32_ones, Z.lxor_spec, Z.land_spec, Z.testbit_ones by lia.
  rewrite (proj2 (Z.leb_le 0 n)) by lia. cbn [andb].
  assert (Hp : Z.testbit (if Z.testbit m 32 then 2 ^ 32 else 0) n = Z.testbit m 32 && (n =? 32)).
  { destruct (Z.testbit m 32); [|by rewrite Z.bits_0].
    rewrite Z.pow2_bits_eqb by lia. by rewrite Z.eqb_sym. }
  rewrite Hp. destruct (Z.lt_trichotomy n 32) as [H|[->|H]].
  - rewrite (proj2 (Z.eqb_neq n 32)), (proj2 (Z.ltb_lt _ _)) by lia.
    by rewrite andb_false_r, xorb_false_r, andb_true_r.
  - rewrite Z.eqb_refl, Z.ltb_irrefl. by destruct (Z.testbit m 32).
  - rewrite (testbit_high m 33 n) by lia.
    rewrite (proj2 (Z.eqb_neq n 32)) by lia. by rewrite andb_false_r.
Qed.

Lemma double_b2z r b : 2 * r + Z.b2z b = Z.lxor (2 * r) (Z.b2z b).
Proof.
  rewrite Z.add_nocarry_lxor; [done|]. apply Z.bits_inj'. intros n Hn.
  rewrite Z.land_spec, Z.bits_0. destruct (Z.eq_dec n 0) as [->|].
  - by rewrite Z.testbit_even_0.
  - destruct b; cbn [Z.b2z].
    + rewrite (testbit_high 1 1 n) by lia. apply andb_false_r.
    + rewrite Z.bits_0. apply andb_false_r.
Qed.

Lemma poly_step_steps r b : is_u32 r → poly_step r b = Z.lxor (bit_step r) (Z.b2z b).
Proof.
  intros Hr. unfold is_u32 in Hr. unfold poly_step, bit_step. set (m := 2 * r + Z.b2z b).
  assert (Hm : 0 <= m < 2 ^ 33) by (unfold m; destruct b; cbn [Z.b2z]; lia).
  assert (Etop : Z.testbit m 32 = Z.testbit r 31).
  { unfold m. change 32 with (Z.succ 31). destruct b; cbn [Z.b2z].
    - by rewrite Z.testbit_odd_succ by lia.
    - by rewrite Z.add_0_r, Z.testbit_even_succ by lia. }
  assert (Eu : u32 m = Z.lxor (u32 (2 * r)) (Z.b2z b)).
  { unfold m. rewrite double_b2z, u32_lxor. f_equal. apply u32_small. destruct b; cbn; lia. }
  rewrite <- top_clear, Etop in Eu by done. rewrite Etop.
  change CRC_POLY with (Z.lxor (2 ^ 32) 0x04c11db7).
  destruct (Z.testbit r 31); [rewrite <- Z.lxor_assoc, Eu; Zbits|].
  rewrite Z.lxor_0_r in Eu |- *. done.
Qed.

Lemma bit_step_b2z b k : (k < 32)%nat → steps k (Z.b2z b) = Z.shiftl (Z.b2z b) (Z.of_nat k).
Proof.
  intros Hk. rewrite steps_small.
  - by rewrite Z.shiftl_mul_pow2 by lia.
  - destruct b; cbn; lia.
  - assert (2 ^ Z.of_nat k < 2 ^ 32) by (apply Z.pow_lt_mono_r; lia). destruct b; cbn [Z.b2z]; lia.
Qed.

Lemma steps_b2z b : steps 32 (Z.b2z b) = bit_step (Z.shiftl (Z.b2z b) 31).
Proof. rewrite (steps_S 31). by rewrite bit_step_b2z by lia. Qed.

(** One bit read by the register: the remainder, times [x^32], moves on by it. *)
Lemma steps_poly_step r b :
  is_u32 r →
  steps 32 (poly_step r b) = bit_step (Z.lxor (steps 32 r) (Z.shiftl (Z.b2z b) 31)).
Proof.
  intros Hr. rewrite poly_step_steps, steps_lxor, bit_step_lxor by exact Hr.
  by rewrite steps_bit_step, steps_b2z.
Qed.

Lemma steps_poly bits r :
  is_u32 r →
  is_u32 (foldl poly_step r bits) ∧
  steps 32 (foldl poly_step r bits) =
  foldl (λ x b, bit_step (Z.lxor x (Z.shiftl (Z.b2z b) 31))) (steps 32 r) bits.
Proof.
  revert r. induction bits as [|b bits IH]; intros r Hr; cbn [foldl]; [done|].
  rewrite <- steps_poly_step by done. apply IH.
  rewrite poly_step_steps by done. apply lxor_u32; [apply bit_step_u32|].
  destruct b; split; cbn; lia.
Qed.

Lemma poly_rem_zeros bits n :
  poly_rem (bits ++ replicate n false) = steps n (poly_rem bits).
Proof.
  unfold poly_rem. rewrite foldl_app.
  destruct (steps_poly bits 0) as [Hr _]; [split; lia|]. revert Hr.
  generalize (foldl poly_step 0 bits). induction n as [|n IH]; intros r Hr; [done|].
  cbn [replicate foldl]. rewrite poly_step_steps by done.
  change (Z.b2z false) with 0. rewrite Z.lxor_0_r, IH by apply bit_step_u32.
  by rewrite steps_bit_step, steps_S.
Qed.

(** A byte enters the register at once or bit by bit. *)
Definition reg_bit (x : Z) (b : bool) : Z := bit_step (Z.lxor x (Z.shiftl (Z.b2z b) 31)).

Lemma reg_bits_linear bits x y :
  foldl reg_bit (Z.lxor x y) bits = Z.lxor (steps (length bits) x) (foldl reg_bit y bits).
Proof.
  revert x y. induction bits as [|b bits IH]; intros x y; cbn [foldl length]; [done|].
  unfold reg_bit at 2 4. rewrite Z.lxor_assoc, bit_step_lxor, IH.
  by rewrite steps_bit_step, steps_S.
Qed.

#[local] Transparent steps.
Lemma byte_bits_table :
  forallb (λ c, foldl reg_bit 0 (byte_bits c) =? steps 8 (Z.shiftl c 24)) byte_list = true.
Proof. vm_compute. reflexivity. Qed.
#[local] Opaque steps.

Lemma byte_bits_steps x c :
  is_byte c → foldl reg_bit x (byte_bits c) = steps 8 (Z.lxor x (Z.shiftl c 24)).
Proof.
  intros Hc%elem_of_byte_list. pose proof byte_bits_table as H.
  rewrite forallb_forall in H. apply list_elem_of_In, H, Z.eqb_eq in Hc.
  rewrite <- (Z.lxor_0_r x) at 1. rewrite reg_bits_linear, Hc, steps_lxor. done.
Qed.

Lemma crc_ref_poly p :
  Forall is_byte p → crc_ref 0 p = poly_rem (concat (byte_bits <$> p) ++ replicate 32 false).
Proof.
  intros Hp. rewrite poly_rem_zeros. unfold poly_rem.
  destruct (steps_poly (concat (byte_bits <$> p)) 0) as [_ ->]; [split; lia|].
  rewrite (steps_small 32 0) by lia. change (0 * 2 ^ Z.of_nat 32) with 0.
  change (crc_ref 0 p = foldl reg_bit 0 (concat (byte_bits <$> p))).
  generalize 0. induction Hp as [|c p Hc Hp IH]; intros x; [done|].
  change (concat (byte_bits <$> c :: p)) with (byte_bits c ++ concat (byte_bits <$> p)).
  rewrite foldl_app, byte_bits_steps, <- IH by done. done.
Qed.

Lemma length_bytes_bytes fuel n : Forall is_byte (length_bytes fuel n).
Proof.
  revert n. induction fuel as [|fuel IH]; intros n; cbn [length_bytes]; [constructor|].
  case_match; constructor; [apply Z.mod_pos_bound; lia|apply IH].
Qed.

Lemma file_bytes_bytes chunks : Forall (Forall is_byte) chunks → Forall is_byte (file_bytes chunks).
Proof.
  induction 1 as [|buf chunks Hb Hc IH]; cbn; [constructor|].
  destruct buf; [constructor|]. by apply Forall_app.
Qed.

(** ** The sums *)

Lemma csum2_sum x bytes :
  is_u32 x → foldl (λ s c, u32 (s + c)) x bytes = u32 (x + foldr Z.add 0 bytes).
Proof.
  revert x. induction bytes as [|c bytes IH]; intros x Hx; cbn [foldl foldr].
  - by rewrite Z.add_0_r, u32_small.
  - rewrite IH by apply u32_range. unfold u32. rewrite Z.add_mod_idemp_l by lia.
    f_equal. lia.
Qed.

Lemma csum2_fold_spec x :
  is_u32 x → csum2_fold x = x mod 2 ^ 16 + x / 2 ^ 16 ∧ is_u32 (csum2_fold x).
Proof.
  unfold is_u32. intros Hx. unfold csum2_fold. change 0xffff with (Z.ones 16).
  rewrite Z.land_ones, Z.shiftr_div_pow2 by lia.
  pose proof (Z.mod_pos_bound x (2 ^ 16) ltac:(lia)).
  assert (0 <= x / 2 ^ 16) by (apply Z.div_pos; lia).
  assert (x / 2 ^ 16 < 2 ^ 16) by (apply Z.div_lt_upper_bound; lia).
  rewrite u32_small by lia. lia.
Qed.

Lemma csum1_step_spec x c :
  0 <= x < 2 ^ 16 → is_byte c →
  csum1_step x c = ((x / 2 + 2 ^ 15 * (x mod 2)) + c) mod 2 ^ 16.
Proof.
  unfold is_byte. intros Hx Hc. unfold csum1_step, has. change 1 with (Z.ones 1) at 1.
  rewrite Z.land_ones by lia. change (2 ^ 1) with 2.
  pose proof (Z.mod_pos_bound x 2 ltac:(lia)). pose proof (Z.div_mod x 2 ltac:(lia)).
  change 0xffff with (Z.ones 16). rewrite Z.land_ones, Z.shiftr_div_pow2 by lia.
  change (2 ^ 1) with 2. destruct (Z.eqb_spec (x mod 2) 0) as [E|E]; cbn [negb].
  - rewrite E, u32_small by lia. f_equal. lia.
  - assert (Ex : x mod 2 = 1) by lia. rewrite Ex.
    assert (x .| 0x10000 = x + 2 ^ 16) as ->.
    { rewrite <- (Z.lxor_lor x 0x10000), <- Z.add_nocarry_lxor; [done|..];
        apply Z.bits_inj'; intros n Hn; rewrite Z.land_spec, Z.bits_0; change 0x10000 with (2 ^ 16);
        rewrite Z.pow2_bits_eqb by lia; destruct (Z.eqb_spec 16 n) as [<-|];
        rewrite ?andb_false_r, ?(testbit_high x 16 16) by lia; done. }
    replace (x + 2 ^ 16) with (x + 2 ^ 15 * 2) by lia. rewrite Z.div_add by lia.
    rewrite u32_small by lia. f_equal; lia.
Qed.

Lemma csum1_fold bytes x :
  Forall is_byte bytes → 0 <= x < 2 ^ 16 →
  foldl csum1_step x bytes
    = foldl (λ x c, ((x / 2 + 2 ^ 15 * (x mod 2)) + c) mod 2 ^ 16) x bytes.
Proof.
  intros Hb. revert x. induction Hb as [|c bytes Hc Hb IH]; intros x Hx; [done|].
  cbn [foldl]. rewrite csum1_step_spec by done. apply IH, Z.mod_pos_bound. lia.
Qed.

(** ** Theorems *)

(** C8.  cksum computes the checksum of POSIX 1003.2: with the tables empty or
    filled by an earlier call, and however the reads cut the file into chunks,
    [crc] returns the complement of the remainder of the file and its length,
    times [x^32], by the generator polynomial; the slicing tables and the table of
    256 entries are never indexed out of range, and the tables are left filled for
    the next call or untouched. *)
Theorem crc_is_posix_cksum t f :
  tables_state t → Forall (Forall is_byte) (f_chunks f) → f_error f = false →
  let bytes := file_bytes (f_chunks f) in
  Z.of_nat (length bytes) < 2 ^ 63 →
  ∃ t', crc t f = Ok (Some (posix_cksum bytes, Z.of_nat (length bytes), t')) ∧
    tables_state t'.
Proof.
  intros Ht Hf He bytes Hlen. unfold crc.
  destruct (crc_read_ref t 0 0 (f_chunks f)) as (t' & -> & Ht'); [done|split; lia|done|].
  exists t'. split; [|done]. fold bytes. rewrite Z.add_0_l. cbn [res_bind]. rewrite He.
  assert (H0 : is_u32 (crc_ref 0 bytes)) by (apply crc_ref_u32; split; lia).
  rewrite crc_length_ref by (assumption || (change (2 ^ (8 * Z.of_nat 8)) with (2 ^ 64); lia)).
  cbn [res_bind]. apply (f_equal (λ x, Ok (Some (x, _, t')))).
  set (n := length_bytes 8 _). unfold crc_ref. rewrite <- foldl_app.
  change (u32 (Z.lnot (crc_ref 0 (bytes ++ n))) = posix_cksum bytes).
  assert (Hall : Forall is_byte (bytes ++ n)).
  { apply Forall_app; split; [by apply file_bytes_bytes|apply length_bytes_bytes]. }
  unfold posix_cksum. fold n. rewrite <- crc_ref_poly by done.
  assert (Hr : is_u32 (crc_ref 0 (bytes ++ n))) by (apply crc_ref_u32; split; lia).
  unfold is_u32 in Hr. unfold Z.lnot, u32. 
  revert Hr. generalize (crc_ref 0 (bytes ++ n)). intros x Hr.
  symmetry. apply (Z.mod_unique_pos _ _ (-1)); lia.
Qed.

Lemma crc_is_posix_cksum_witness :
  ∃ t', crc crcslice_init (mkFile [str "The quick "; str "brown fox"] false)
    = Ok (Some (posix_cksum (str "The quick brown fox"), 19, t')) ∧ tables_state t'.
Proof.
  apply (crc_is_posix_cksum crcslice_init (mkFile [str "The quick "; str "brown fox"] false)).
  - by left.
  - repeat constructor; done.
  - done.
  - cbn. lia.
Defined.

(** csum2 is the checksum its comment describes, for a file of any length:
    with [s] the sum of the bytes and [r] = s mod 2^16 + (s mod 2^32) / 2^16, it
    is (r mod 2^16) + r / 2^16, a sixteen bit number; csum1 rotates its sixteen
    bits right by one and adds the byte modulo 2^16, from zero. *)
Theorem csum_documented f :
  Forall (Forall is_byte) (f_chunks f) → f_error f = false →
  let bytes := file_bytes (f_chunks f) in
  let s := foldr Z.add 0 bytes in
  let r := s mod 2 ^ 16 + (s mod 2 ^ 32) / 2 ^ 16 in
  csum2 f = Some (r mod 2 ^ 16 + r / 2 ^ 16, Z.of_nat (length bytes)) ∧
  0 <= r mod 2 ^ 16 + r / 2 ^ 16 < 2 ^ 16 ∧
  csum1 f = Some (foldl (λ x c, ((x / 2 + 2 ^ 15 * (x mod 2)) + c) mod 2 ^ 16) 0 bytes,
                  Z.of_nat (length bytes)).
Proof.
  intros Hf He bytes s r. pose proof (file_bytes_bytes _ Hf) as Hb. fold bytes in Hb.
  assert (E2 : csum2_fold (csum2_fold (foldl (λ s c, u32 (s + c)) 0 bytes))
    = r mod 2 ^ 16 + r / 2 ^ 16).
  { rewrite csum2_sum by (split; lia). rewrite Z.add_0_l. fold s.
    destruct (csum2_fold_spec (u32 s)) as [E1 E2]; [apply u32_range|].
    rewrite (proj1 (csum2_fold_spec _ E2)), E1. unfold r, u32.
    rewrite <- (Znumtheory.Zmod_div_mod (2 ^ 16) (2 ^ 32) s); [done|lia|lia|].
    exists (2 ^ 16). lia. }
  split; [|split].
  - unfold csum2. fold bytes. by rewrite He, E2.
  - pose proof (Z.mod_pos_bound r (2 ^ 16) ltac:(lia)).
    pose proof (Z.mod_pos_bound s (2 ^ 16) ltac:(lia)).
    pose proof (Z.mod_pos_bound s (2 ^ 32) ltac:(lia)).
    assert (0 <= (s mod 2 ^ 32) / 2 ^ 16 < 2 ^ 16)
      by (split; [apply Z.div_pos|apply Z.div_lt_upper_bound]; lia).
    assert (0 <= r <= 131070) by (unfold r; lia).
    pose proof (Z.div_mod r (2 ^ 16) ltac:(lia)). clearbody r. lia.
  - unfold csum1. fold bytes. rewrite He, csum1_fold by (done || lia). done.
Qed.

Lemma csum_documented_witness :
  csum2 (mkFile [str "abc"] false) = Some (294, 3) ∧
  csum1 (mkFile [str "abc"] false) = Some (16556, 3).
Proof.
  destruct (csum_documented (mkFile [str "abc"] false)) as (H2 & _ & H1);
    [repeat constructor; done|done|].
  split; [exact H2|exact H1].
Defined.
