(* ===== verification/Dd.v ===== *)
(** * dd: bin/dd

    The copying engine of dd: the shared or separate input and output buffers, the
    reading loop with its block accounting, the three conversions (none, block,
    unblock), the writing loop with short writes and sparse output, the end of the
    copy, and the conversion tables.  A buffer is a list of bytes in a store;
    a pointer into it is an index; every access is checked. *)

From S2P Require Import Prelude Libc.

(** ** Conversion tables: conv_tab.c *)

Definition e2a_32V : list Z :=
  [ 0; 1; 2; 3; 156; 9; 134; 127; 151; 141; 142; 11; 12; 13; 14; 15;
    16; 17; 18; 19; 157; 133; 8; 135; 24; 25; 146; 143; 28; 29; 30; 31;
    128; 129; 130; 131; 132; 10; 23; 27; 136; 137; 138; 139; 140; 5; 6; 7;
    144; 145; 22; 147; 148; 149; 150; 4; 152; 153; 154; 155; 20; 21; 158; 26;
    32; 160; 161; 162; 163; 164; 165; 166; 167; 168; 91; 46; 60; 40; 43; 33;
    38; 169; 170; 171; 172; 173; 174; 175; 176; 177; 93; 36; 42; 41; 59; 94;
    45; 47; 178; 179; 180; 181; 182; 183; 184; 185; 124; 44; 37; 95; 62; 63;
    186; 187; 188; 189; 190; 191; 192; 193; 194; 96; 58; 35; 64; 39; 61; 34;
    195; 97; 98; 99; 100; 101; 102; 103; 104; 105; 196; 197; 198; 199; 200; 201;
    202; 106; 107; 108; 109; 110; 111; 112; 113; 114; 203; 204; 205; 206; 207; 208;
    209; 126; 115; 116; 117; 118; 119; 120; 121; 122; 210; 211; 212; 213; 214; 215;
    216; 217; 218; 219; 220; 221; 222; 223; 224; 225; 226; 227; 228; 229; 230; 231;
    123; 65; 66; 67; 68; 69; 70; 71; 72; 73; 232; 233; 234; 235; 236; 237;
    125; 74; 75; 76; 77; 78; 79; 80; 81; 82; 238; 239; 240; 241; 242; 243;
    92; 159; 83; 84; 85; 86; 87; 88; 89; 90; 244; 245; 246; 247; 248; 249;
    48; 49; 50; 51; 52; 53; 54; 55; 56; 57; 250; 251; 252; 253; 254; 255 ].

Definition a2e_32V : list Z :=
  [ 0; 1; 2; 3; 55; 45; 46; 47; 22; 5; 37; 11; 12; 13; 14; 15;
    16; 17; 18; 19; 60; 61; 50; 38; 24; 25; 63; 39; 28; 29; 30; 31;
    64; 79; 127; 123; 91; 108; 80; 125; 77; 93; 92; 78; 107; 96; 75; 97;
    240; 241; 242; 243; 244; 245; 246; 247; 248; 249; 122; 94; 76; 126; 110; 111;
    124; 193; 194; 195; 196; 197; 198; 199; 200; 201; 209; 210; 211; 212; 213; 214;
    215; 216; 217; 226; 227; 228; 229; 230; 231; 232; 233; 74; 224; 90; 95; 109;
    121; 129; 130; 131; 132; 133; 134; 135; 136; 137; 145; 146; 147; 148; 149; 150;
    151; 152; 153; 162; 163; 164; 165; 166; 167; 168; 169; 192; 106; 208; 161; 7;
    32; 33; 34; 35; 36; 21; 6; 23; 40; 41; 42; 43; 44; 9; 10; 27;
    48; 49; 26; 51; 52; 53; 54; 8; 56; 57; 58; 59; 4; 20; 62; 225;
    65; 66; 67; 68; 69; 70; 71; 72; 73; 81; 82; 83; 84; 85; 86; 87;
    88; 89; 98; 99; 100; 101; 102; 103; 104; 105; 112; 113; 114; 115; 116; 117;
    118; 119; 120; 128; 138; 139; 140; 141; 142; 143; 144; 154; 155; 156; 157; 158;
    159; 160; 170; 171; 172; 173; 174; 175; 176; 177; 178; 179; 180; 181; 182; 183;
    184; 185; 186; 187; 188; 189; 190; 191; 202; 203; 204; 205; 206; 207; 218; 219;
    220; 221; 222; 223; 234; 235; 236; 237; 238; 239; 250; 251; 252; 253; 254; 255 ].

Definition e2a_POSIX : list Z :=
  [ 0; 1; 2; 3; 156; 9; 134; 127; 151; 141; 142; 11; 12; 13; 14; 15;
    16; 17; 18; 19; 157; 133; 8; 135; 24; 25; 146; 143; 28; 29; 30; 31;
    128; 129; 130; 131; 132; 10; 23; 27; 136; 137; 138; 139; 140; 5; 6; 7;
    144; 145; 22; 147; 148; 149; 150; 4; 152; 153; 154; 155; 20; 21; 158; 26;
    32; 160; 161; 162; 163; 164; 165; 166; 167; 168; 213; 46; 60; 40; 43; 124;
    38; 169; 170; 171; 172; 173; 174; 175; 176; 177; 33; 36; 42; 41; 59; 126;
    45; 47; 178; 179; 180; 181; 182; 183; 184; 185; 203; 44; 37; 95; 62; 63;
    186; 187; 188; 189; 190; 191; 192; 193; 194; 96; 58; 35; 64; 39; 61; 34;
    195; 97; 98; 99; 100; 101; 102; 103; 104; 105; 196; 197; 198; 199; 200; 201;
    202; 106; 107; 108; 109; 110; 111; 112; 113; 114; 94; 204; 205; 206; 207; 208;
    209; 229; 115; 116; 117; 118; 119; 120; 121; 122; 210; 211; 212; 91; 214; 215;
    216; 217; 218; 219; 220; 221; 222; 223; 224; 225; 226; 227; 228; 93; 230; 231;
    123; 65; 66; 67; 68; 69; 70; 71; 72; 73; 232; 233; 234; 235; 236; 237;
    125; 74; 75; 76; 77; 78; 79; 80; 81; 82; 238; 239; 240; 241; 242; 243;
    92; 159; 83; 84; 85; 86; 87; 88; 89; 90; 244; 245; 246; 247; 248; 249;
    48; 49; 50; 51; 52; 53; 54; 55; 56; 57; 250; 251; 252; 253; 254; 255 ].

Definition a2e_POSIX : list Z :=
  [ 0; 1; 2; 3; 55; 45; 46; 47; 22; 5; 37; 11; 12; 13; 14; 15;
    16; 17; 18; 19; 60; 61; 50; 38; 24; 25; 63; 39; 28; 29; 30; 31;
    64; 90; 127; 123; 91; 108; 80; 125; 77; 93; 92; 78; 107; 96; 75; 97;
    240; 241; 242; 243; 244; 245; 246; 247; 248; 249; 122; 94; 76; 126; 110; 111;
    124; 193; 194; 195; 196; 197; 198; 199; 200; 201; 209; 210; 211; 212; 213; 214;
    215; 216; 217; 226; 227; 228; 229; 230; 231; 232; 233; 173; 224; 189; 154; 109;
    121; 129; 130; 131; 132; 133; 134; 135; 136; 137; 145; 146; 147; 148; 149; 150;
    151; 152; 153; 162; 163; 164; 165; 166; 167; 168; 169; 192; 79; 208; 95; 7;
    32; 33; 34; 35; 36; 21; 6; 23; 40; 41; 42; 43; 44; 9; 10; 27;
    48; 49; 26; 51; 52; 53; 54; 8; 56; 57; 58; 59; 4; 20; 62; 225;
    65; 66; 67; 68; 69; 70; 71; 72; 73; 81; 82; 83; 84; 85; 86; 87;
    88; 89; 98; 99; 100; 101; 102; 103; 104; 105; 112; 113; 114; 115; 116; 117;
    118; 119; 120; 128; 138; 139; 140; 141; 142; 143; 144; 106; 155; 156; 157; 158;
    159; 160; 170; 171; 172; 74; 174; 175; 176; 177; 178; 179; 180; 181; 182; 183;
    184; 185; 186; 187; 188; 161; 190; 191; 202; 203; 204; 205; 206; 207; 218; 219;
    220; 221; 222; 223; 234; 235; 236; 237; 238; 239; 250; 251; 252; 253; 254; 255 ].

Definition a2ibm : list Z :=
  [ 0; 1; 2; 3; 55; 45; 46; 47; 22; 5; 37; 11; 12; 13; 14; 15;
    16; 17; 18; 19; 60; 61; 50; 38; 24; 25; 63; 39; 28; 29; 30; 31;
    64; 90; 127; 123; 91; 108; 80; 125; 77; 93; 92; 78; 107; 96; 75; 97;
    240; 241; 242; 243; 244; 245; 246; 247; 248; 249; 122; 94; 76; 126; 110; 111;
    124; 193; 194; 195; 196; 197; 198; 199; 200; 201; 209; 210; 211; 212; 213; 214;
    215; 216; 217; 226; 227; 228; 229; 230; 231; 232; 233; 173; 224; 189; 95; 109;
    121; 129; 130; 131; 132; 133; 134; 135; 136; 137; 145; 146; 147; 148; 149; 150;
    151; 152; 153; 162; 163; 164; 165; 166; 167; 168; 169; 192; 79; 208; 161; 7;
    32; 33; 34; 35; 36; 21; 6; 23; 40; 41; 42; 43; 44; 9; 10; 27;
    48; 49; 26; 51; 52; 53; 54; 8; 56; 57; 58; 59; 4; 20; 62; 225;
    65; 66; 67; 68; 69; 70; 71; 72; 73; 81; 82; 83; 84; 85; 86; 87;
    88; 89; 98; 99; 100; 101; 102; 103; 104; 105; 112; 113; 114; 115; 116; 117;
    118; 119; 120; 128; 138; 139; 140; 141; 142; 143; 144; 154; 155; 156; 157; 158;
    159; 160; 170; 171; 172; 173; 174; 175; 176; 177; 178; 179; 180; 181; 182; 183;
    184; 185; 186; 187; 188; 189; 190; 191; 202; 203; 204; 205; 206; 207; 218; 219;
    220; 221; 222; 223; 234; 235; 236; 237; 238; 239; 250; 251; 252; 253; 254; 255 ].

(** ** Flags *)

Definition C_ASCII : Z := 0x00001.
Definition C_BLOCK : Z := 0x00002.
Definition C_BS : Z := 0x00004.
Definition C_EBCDIC : Z := 0x00020.
Definition C_LCASE : Z := 0x00200.
Definition C_NOERROR : Z := 0x00400.
Definition C_SWAB : Z := 0x10000.
Definition C_SYNC : Z := 0x20000.
Definition C_UCASE : Z := 0x40000.
Definition C_UNBLOCK : Z := 0x80000.
Definition C_OSYNC : Z := 0x100000.
Definition C_SPARSE : Z := 0x200000.

(** [t[c]] of a table of 256 bytes. *)
Definition conv (t : list Z) (c : Z) : res Z :=
  match t !! Z.to_nat c with Some v => Ok v | None => Fault end.

(** The end of [setup]: the table in use when the case is converted too. *)
Definition setup_ctab (ddflags : Z) (ctab : option (list Z)) : option (list Z) :=
  if has ddflags (C_LCASE .| C_UCASE) then
    let case := if has ddflags C_LCASE then tolower else toupper in
    if has ddflags C_ASCII || has ddflags C_EBCDIC
    then option_map (map case) ctab
    else Some (map case (map Z.of_nat (seq 0 256)))
  else ctab.

(** ** Buffers *)

(** The store: the buffers [setup] allocates.  An [IO] names its buffer. *)
Notation mem := (list (list Z)).

Definition rdn (m : mem) (b i n : nat) : res (list Z) :=
  match m !! b with
  | Some buf => if (i + n <=? length buf)%nat then Ok (take n (drop i buf)) else Fault
  | None => Fault
  end.

Definition rd1 (m : mem) (b i : nat) : res Z :=
  match m !! b with
  | Some buf => match buf !! i with Some c => Ok c | None => Fault end
  | None => Fault
  end.

Definition wrn (m : mem) (b i : nat) (bs : list Z) : res mem :=
  match m !! b with
  | Some buf =>
      if (i + length bs <=? length buf)%nat
      then Ok (<[b := take i buf ++ bs ++ drop (i + length bs) buf]> m) else Fault
  | None => Fault
  end.

(** [p - n] on a pointer must not leave the buffer at its start. *)
Definition back (p n : nat) : res nat := if (n <=? p)%nat then Ok (p - n)%nat else Fault.

Record IO := mkIO {
  db : nat; dbp : nat; dbcnt : nat; dbrcnt : nat; dbsz : nat }.

Record STAT := mkSTAT {
  in_full : Z; in_part : Z; out_full : Z; out_part : Z;
  trunc : Z; st_swab : Z; st_sparse : Z; st_bytes : Z }.

Definition EXIT_FAILURE : Z := 1.

(** ** The files

    What the calls of [read] return, and how much of each [write] is accepted:
    a short count, an interruption, or an error.  When no more is said, a write is
    complete. *)
Inductive rresult := Read (bs : list Z) | ReadError.
Inductive wresult := Accept (n : nat) | Interrupted | WriteError.

(** The output file: its bytes and the offset of the next write; a write beyond
    the end fills the hole with zeros. *)
Record sink := mkSink { f_data : list Z; f_pos : nat }.

Definition sink_write (f : sink) (bs : list Z) : sink :=
  let d := f_data f ++ replicate (f_pos f - length (f_data f)) 0 in
  mkSink (take (f_pos f) d ++ bs ++ drop (f_pos f + length bs) d) (f_pos f + length bs).

(** [lseek(fd, n, SEEK_CUR)]: it fails before the start of the file. *)
Definition sink_seek (f : sink) (n : Z) : res sink :=
  let pos := Z.of_nat (f_pos f) + n in
  if pos <? 0 then Err EXIT_FAILURE else Ok (mkSink (f_data f) (Z.to_nat pos)).

(** The globals and the [static] variables. *)
Record dd := mkDD {
  dmem : mem; din : IO; dout : IO; intrunc : bool; st : STAT; pending : Z;
  ofile : sink; writes : list wresult }.

Definition set_mem (d : dd) (m : mem) : dd :=
  mkDD m (din d) (dout d) (intrunc d) (st d) (pending d) (ofile d) (writes d).
Definition set_in (d : dd) (i : IO) : dd :=
  mkDD (dmem d) i (dout d) (intrunc d) (st d) (pending d) (ofile d) (writes d).
Definition set_out (d : dd) (o : IO) : dd :=
  mkDD (dmem d) (din d) o (intrunc d) (st d) (pending d) (ofile d) (writes d).
Definition set_intrunc (d : dd) (b : bool) : dd :=
  mkDD (dmem d) (din d) (dout d) b (st d) (pending d) (ofile d) (writes d).
Definition set_st (d : dd) (s : STAT) : dd :=
  mkDD (dmem d) (din d) (dout d) (intrunc d) s (pending d) (ofile d) (writes d).
Definition set_pending (d : dd) (n : Z) : dd :=
  mkDD (dmem d) (din d) (dout d) (intrunc d) (st d) n (ofile d) (writes d).

Definition with_dbp (o : IO) (p : nat) : IO := mkIO (db o) p (dbcnt o) (dbrcnt o) (dbsz o).
Definition with_cnt (o : IO) (p c : nat) : IO := mkIO (db o) p c (dbrcnt o) (dbsz o).
Definition with_rcnt (o : IO) (c r : nat) : IO := mkIO (db o) (dbp o) c r (dbsz o).

Inductive cfunc_t := Def | Block | Unblock.

Section dd.
Variables (ddflags : Z) (cbsz : nat) (ctab : option (list Z)) (cpy_cnt : Z).
Variable istape : bool.

(** ** Writing: dd_out *)

(** [bwrite]: the count written, 0 after an interruption. *)
Definition bwrite (d : dd) (bs : list Z) : res (nat * dd) :=
  match writes d with
  | WriteError :: _ => Err EXIT_FAILURE
  | Interrupted :: ws =>
      Ok (O, mkDD (dmem d) (din d) (dout d) (intrunc d) (st d) (pending d) (ofile d) ws)
  | Accept n :: ws =>
      let n := Nat.min n (length bs) in
      if (n =? 0)%nat then Err EXIT_FAILURE
      else Ok (n, mkDD (dmem d) (din d) (dout d) (intrunc d) (st d) (pending d)
                    (sink_write (ofile d) (take n bs)) ws)
  | [] => if (length bs =? 0)%nat then Err EXIT_FAILURE
          else Ok (length bs, mkDD (dmem d) (din d) (dout d) (intrunc d) (st d) (pending d)
                    (sink_write (ofile d) bs) [])
  end.

(** [if (pending) { ... pending = 0; }] *)
Definition flush_pending (d : dd) : dd :=
  if pending d =? 0 then d else
  let p := pending d in
  let s := st d in
  let blocks := u64 p / Z.of_nat (dbsz (dout d)) in
  set_pending (set_st d (mkSTAT (in_full s) (in_part s) (u64 (out_full s + blocks))
    (out_part s) (trunc s) (st_swab s) (u64 (st_sparse s + blocks)) (u64 (st_bytes s + p)))) 0.

Definition count_write (d : dd) (nw : nat) : dd :=
  let s := st d in
  set_st d (mkSTAT (in_full s) (in_part s) (out_full s) (out_part s) (trunc s) (st_swab s)
    (st_sparse s) (u64 (st_bytes s + Z.of_nat nw))).
Definition count_out (d : dd) (full : bool) : dd :=
  let s := st d in
  set_st d (if full
    then mkSTAT (in_full s) (in_part s) (out_full s + 1) (out_part s) (trunc s) (st_swab s)
           (st_sparse s) (st_bytes s)
    else mkSTAT (in_full s) (in_part s) (out_full s) (out_part s + 1) (trunc s) (st_swab s)
           (st_sparse s) (st_bytes s)).

(** The inner loop: [cnt] of the [n] bytes of the block are left, from [outp]. *)
Fixpoint out_block (fuel : nat) (force : bool) (d : dd) (n cnt outp : nat) : res (dd * nat) :=
  match fuel with
  | O => Fault
  | S fuel =>
      let* bs := rdn (dmem d) (db (dout d)) outp cnt in
      if negb force && has ddflags C_SPARSE && forallb (Z.eqb 0) bs then
        Ok (set_pending d (pending d + Z.of_nat cnt), (outp + cnt)%nat)
      else
        let* d := if pending d =? 0 then Ok d
                  else let* f := sink_seek (ofile d) (pending d) in
                       Ok (mkDD (dmem d) (din d) (dout d) (intrunc d) (st d) (pending d) f
                             (writes d)) in
        let* (nw, d) := bwrite d bs in
        let d := flush_pending d in
        let outp := (outp + nw)%nat in
        let d := count_write d nw in
        if (nw =? n)%nat then Ok (count_out d (n =? dbsz (dout d))%nat, outp)
        else
          let d := count_out d false in
          if (nw =? cnt)%nat then Ok (d, outp)
          else if istape then Err EXIT_FAILURE
          else out_block fuel force d n (cnt - nw) outp
  end.

(** The outer loop. *)
Fixpoint out_blocks (fuel : nat) (force : bool) (d : dd) (n outp : nat) : res dd :=
  match fuel with
  | O => Fault
  | S fuel =>
      let* (d, outp) := out_block (S (n + length (writes d))) force d n n outp in
      let o := dout d in
      let cnt := (dbcnt o - n)%nat in
      if (dbcnt o <? n)%nat then Fault else
      let d := set_out d (with_cnt o (dbp o) cnt) in
      if (cnt <? dbsz o)%nat then Ok d
      else out_blocks fuel force d (dbsz o) outp
  end.

Definition dd_out (force : bool) (d : dd) : res dd :=
  let o := dout d in
  let* d := out_blocks (S (dbcnt o)) force d (if force then dbcnt o else dbsz o) 0 in
  let o := dout d in
  let* m := if (dbcnt o =? 0)%nat then Ok (dmem d)
            else let* p := back (dbp o) (dbcnt o) in
                 let* bs := rdn (dmem d) (db o) p (dbcnt o) in
                 wrn (dmem d) (db o) 0 bs in
  Ok (set_out (set_mem d m) (with_cnt o (dbcnt o) (dbcnt o))).

(** ** The conversions: conv.c *)

Fixpoint conv_all (t : list Z) (bs : list Z) : res (list Z) :=
  match bs with
  | [] => Ok []
  | c :: bs => let* v := conv t c in let* vs := conv_all t bs in Ok (v :: vs)
  end.

(** Translates the [n] bytes that end at [p] in place. *)
Definition translate (m : mem) (b p n : nat) : res mem :=
  match ctab with
  | None => Ok m
  | Some t =>
      let* q := back p n in
      let* bs := rdn m b q n in
      let* vs := conv_all t bs in
      wrn m b q vs
  end.

Definition def (d : dd) : res dd :=
  let i := din d in
  let* m := translate (dmem d) (db i) (dbp i) (dbrcnt i) in
  let o := with_cnt (dout d) (dbp i) (dbcnt i) in
  let d := set_out (set_mem d m) o in
  if (dbsz o <=? dbcnt i)%nat then
    let* d := dd_out false d in
    Ok (set_in d (with_cnt (din d) (dbp (dout d)) (dbcnt (dout d))))
  else Ok d.

Definition def_close (d : dd) : dd :=
  if (dbcnt (din d) =? 0)%nat then d
  else set_out d (with_cnt (dout d) (dbp (dout d)) (dbcnt (din d))).

Definition pad_char : res Z :=
  match ctab with None => Ok 32 | Some t => conv t 32 end.

(** [for (inp = in.db, cnt = in.dbrcnt; cnt && *inp++ != nl; --cnt)]: the final [cnt] and
    [inp]. *)
Fixpoint toss (m : mem) (b : nat) (inp cnt : nat) : res (nat * nat) :=
  match cnt with
  | O => Ok (inp, O)
  | S cnt' =>
      let* c := rd1 m b inp in
      if c =? 10 then Ok (S inp, cnt) else toss m b (S inp) cnt'
  end.

(** The copying loop of a record: [maxlen] characters at most, up to a newline;
    the count, the last character read and the advanced pointers. *)
Fixpoint copy_record (maxlen : nat) (m : mem) (bi bo inp outp cnt : nat) (chr : Z)
    : res (mem * nat * nat * nat * Z) :=
  match maxlen with
  | O => Ok (m, inp, outp, cnt, chr)
  | S maxlen =>
      let* chr := rd1 m bi inp in
      if chr =? 10 then Ok (m, S inp, outp, cnt, chr)
      else
        let* v := match ctab with None => Ok chr | Some t => conv t chr end in
        let* m := wrn m bo outp [v] in
        copy_record maxlen m bi bo (S inp) (S outp) (S cnt) chr
  end.

Definition count_trunc (d : dd) : dd :=
  let s := st d in
  set_st d (mkSTAT (in_full s) (in_part s) (out_full s) (out_part s) (trunc s + 1) (st_swab s)
    (st_sparse s) (st_bytes s)).

(** The record loop of [block], from [inp]; [chr] survives from one record to the
    next.  The result is the state when the loop ends, by exhaustion or [break]. *)
Fixpoint block_loop (fuel : nat) (d : dd) (inp : nat) (chr : Z) : res dd :=
  match fuel with
  | O => Fault
  | S fuel =>
      let i := din d in
      if (dbcnt i =? 0)%nat then Ok d else
      let maxlen := Nat.min cbsz (dbcnt i) in
      let* (m, inp, outp, cnt, chr) :=
        copy_record maxlen (dmem d) (db i) (db (dout d)) inp (dbp (dout d)) 0 chr in
      let d := set_mem d m in
      if negb (chr =? 10) && (dbcnt i <? cbsz)%nat then
        let* p := back (dbp i) (dbcnt i) in
        let* bs := rdn m (db i) p (dbcnt i) in
        let* m := wrn m (db i) 0 bs in Ok (set_mem d m)
      else
        let used := if chr =? 10 then S cnt else cnt in
        let icnt := (dbcnt i - used)%nat in
        if (dbcnt i <? used)%nat then Fault else
        let d := set_in d (with_cnt i (dbp i) icnt) in
        let* (d, inp) :=
          if (cnt <? cbsz)%nat then
            let* c := pad_char in
            let* m := wrn (dmem d) (db (dout d)) outp (replicate (cbsz - cnt) c) in
            Ok (set_mem d m, inp)
          else
            let* next := if (icnt =? 0)%nat then Ok 0 else rd1 (dmem d) (db i) inp in
            let d := if (icnt =? 0)%nat || negb (next =? 10) then count_trunc d else d in
            let* (inp, rest) := toss (dmem d) (db i) inp icnt in
            if (rest =? 0)%nat
            then Ok (set_intrunc (set_in d (with_cnt i (dbp i) 0)) true, inp)
            else Ok (set_in d (with_cnt i (dbp i) (rest - 1)%nat), inp) in
        let o := dout d in
        let d := set_out d (with_cnt o (dbp o + cbsz) (dbcnt o + cbsz)) in
        let* d := if (dbsz o <=? dbcnt (dout d))%nat then dd_out false d else Ok d in
        block_loop fuel d inp chr
  end.

Definition block (d : dd) : res dd :=
  let i := din d in
  let* (skip, d) :=
    if intrunc d then
      let* (inp, cnt) := toss (dmem d) (db i) 0 (dbrcnt i) in
      if (cnt =? 0)%nat then Ok (true, set_in d (with_cnt i 0 0))
      else Ok (false, set_intrunc (set_in d (with_cnt i (inp + cnt - 1) (cnt - 1))) false)
    else Ok (false, d) in
  if skip : bool then Ok d else
  let i := din d in
  let* inp := back (dbp i) (dbcnt i) in
  let* d := block_loop (S (dbcnt i)) d inp 0 in
  Ok (set_in d (with_cnt (din d) (dbcnt (din d)) (dbcnt (din d)))).

Definition block_close (d : dd) : res dd :=
  let i := din d in
  let o := dout d in
  if (dbcnt i =? 0)%nat then Ok d else
  let d := count_trunc d in
  let* p := back (dbp i) (dbcnt i) in
  let* bs := rdn (dmem d) (db i) p (dbcnt i) in
  let* m := wrn (dmem d) (db o) (dbp o) bs in
  let* c := pad_char in
  let* m := wrn m (db o) (dbp o + dbcnt i) (replicate (cbsz - dbcnt i) c) in
  Ok (set_out (set_mem d m) (with_cnt o (dbp o) (dbcnt o + cbsz))).

(** [for (t = p + n - 1; t >= p && *t == ' '; --t)]: how many bytes are kept. *)
Fixpoint strip (bs : list Z) (n : nat) : nat :=
  match n with
  | O => O
  | S n' => if nth n' bs 0 =? 32 then strip bs n' else n
  end.

(** A record without its trailing blanks and with a newline goes out. *)
Definition put_record (m : mem) (b inp n : nat) (o : IO) : res (mem * IO) :=
  let* bs := rdn m b inp n in
  let cnt := strip bs n in
  let* m := if (cnt =? 0)%nat then Ok m else wrn m (db o) (dbp o) (take cnt bs) in
  let* m := wrn m (db o) (dbp o + cnt) [10] in
  Ok (m, with_cnt o (dbp o + cnt + 1) (dbcnt o + cnt + 1)).

Fixpoint unblock_loop (fuel : nat) (d : dd) (inp : nat) : res dd :=
  match fuel with
  | O => Fault
  | S fuel =>
      let i := din d in
      if (dbcnt i <? cbsz)%nat then Ok d else
      let* (m, o) := put_record (dmem d) (db i) inp cbsz (dout d) in
      let d := set_out (set_mem d m) o in
      let* d := if (dbsz o <=? dbcnt o)%nat then dd_out false d else Ok d in
      unblock_loop fuel (set_in d (with_cnt i (dbp i) (dbcnt i - cbsz))) (inp + cbsz)
  end.

Definition unblock (d : dd) : res dd :=
  let i := din d in
  let* m := translate (dmem d) (db i) (dbp i) (dbrcnt i) in
  let* d := unblock_loop (S (dbcnt i)) (set_mem d m) 0 in
  let i := din d in
  let* m := if (dbcnt i =? 0)%nat then Ok (dmem d)
            else let* p := back (dbp i) (dbcnt i) in
                 let* bs := rdn (dmem d) (db i) p (dbcnt i) in
                 wrn (dmem d) (db i) 0 bs in
  Ok (set_in (set_mem d m) (with_cnt i (dbcnt i) (dbcnt i))).

Definition unblock_close (d : dd) : res dd :=
  let i := din d in
  if (dbcnt i =? 0)%nat then Ok d else
  let* (m, o) := put_record (dmem d) (db i) 0 (dbcnt i) (dout d) in
  Ok (set_out (set_mem d m) o).

(** ** dd_swab *)

Fixpoint swab_pairs (bs : list Z) : list Z :=
  match bs with a :: b :: bs => b :: a :: swab_pairs bs | _ => bs end.

(** The pairs of the first [len] bytes at [p] are swapped in place. *)
Definition dd_swab (m : mem) (b p len : nat) : res mem :=
  if (len <=? 1)%nat then Ok m else
  let* bs := rdn m b p (2 * (len / 2)) in wrn m b p (swab_pairs bs).

(** ** Reading: dd_in *)

Definition run_cfunc (cf : cfunc_t) (d : dd) : res dd :=
  match cf with Def => def d | Block => block d | Unblock => unblock d end.

Definition count_in (d : dd) (full : bool) : dd :=
  let s := st d in
  set_st d (if full
    then mkSTAT (in_full s + 1) (in_part s) (out_full s) (out_part s) (trunc s) (st_swab s)
           (st_sparse s) (st_bytes s)
    else mkSTAT (in_full s) (in_part s + 1) (out_full s) (out_part s) (trunc s) (st_swab s)
           (st_sparse s) (st_bytes s)).

Definition count_swab (d : dd) : dd :=
  let s := st d in
  set_st d (mkSTAT (in_full s) (in_part s) (out_full s) (out_part s) (trunc s) (st_swab s + 1)
    (st_sparse s) (st_bytes s)).

(** What follows a read: [rcnt] bytes count as read. *)
Definition in_block (cf : cfunc_t) (d : dd) (rcnt : nat) (full : bool) : res dd :=
  let i := din d in
  let d := count_in (set_in d (with_rcnt i (dbcnt i + rcnt) rcnt)) full in
  let i := din d in
  if has ddflags C_BS then
    let d := set_out d (with_cnt (dout d) (dbp (dout d)) (dbcnt i)) in
    let* d := dd_out true d in
    Ok (set_in d (with_cnt (din d) (dbp (din d)) 0))
  else
    let* d :=
      if has ddflags C_SWAB then
        let odd := Nat.odd rcnt in
        let d := if odd then count_swab d else d in
        let* m := dd_swab (dmem d) (db i) (dbp i) (if odd then rcnt - 1 else rcnt)%nat in
        Ok (set_mem d m)
      else Ok d in
    let i := din d in
    run_cfunc cf (set_in d (with_dbp i (dbp i + rcnt))).

Fixpoint dd_in (cf : cfunc_t) (reads : list rresult) (d : dd) : res dd :=
  if negb (cpy_cnt =? 0) && (cpy_cnt <=? in_full (st d) + in_part (st d))
  then Ok d else
  let i := din d in
  let* m :=
    if has ddflags C_SYNC then
      wrn (dmem d) (db i) (dbp i)
        (replicate (dbsz i) (if has ddflags (C_BLOCK .| C_UNBLOCK) then 32 else 0))
    else Ok (dmem d) in
  let d := set_mem d m in
  match reads with
  | [] | Read [] :: _ => Ok (set_in d (with_rcnt i (dbcnt i) 0))
  | Read bs :: reads =>
      let bs := take (dbsz i) bs in
      let n := length bs in
      let* m := wrn (dmem d) (db i) (dbp i) bs in
      let d := set_mem d m in
      let full := (n =? dbsz i)%nat in
      let* d := in_block cf d (if full then n else if has ddflags C_SYNC then dbsz i else n)
                  full in
      dd_in cf reads d
  | ReadError :: reads =>
      if negb (has ddflags C_NOERROR) then Err EXIT_FAILURE
      else if negb (has ddflags C_SYNC) then dd_in cf reads d
      else let* d := in_block cf d (dbsz i) true in dd_in cf reads d
  end.

(** ** The end of the copy: dd_close *)

Definition dd_close (cf : cfunc_t) (d : dd) : res dd :=
  let* d := match cf with
            | Def => Ok (def_close d)
            | Block => block_close d
            | Unblock => unblock_close d
            end in
  let o := dout d in
  let* d :=
    if has ddflags C_OSYNC && (dbcnt o <? dbsz o)%nat then
      let* m := wrn (dmem d) (db o) (dbp o) (replicate (dbsz o - dbcnt o) 0) in
      Ok (set_out (set_mem d m) (with_cnt o (dbp o) (dbsz o)))
    else Ok d in
  let o := dout d in
  let* d :=
    if (dbcnt o =? 0)%nat && negb (pending d =? 0) then
      let* m := wrn (dmem d) (db o) 0 (replicate (dbsz o) 0) in
      Ok (set_pending (set_out (set_mem d m) (with_cnt o (dbsz o) (dbsz o)))
            (pending d - Z.of_nat (dbsz o)))
    else Ok d in
  if (dbcnt (dout d) =? 0)%nat then Ok d else dd_out true d.

(** The buffers [setup] allocates, all with unspecified contents; with one buffer
    the input and the output share it. *)
Definition setup_mem (ibs obs : nat) : mem * nat :=
  if negb (has ddflags (C_BLOCK .| C_UNBLOCK))
  then ([replicate (if has ddflags C_BS then obs else obs + ibs - 1) 0], 0%nat)
  else ([replicate (Nat.max ibs cbsz + cbsz) 0; replicate (obs + cbsz) 0], 1%nat).

Definition dd_start (ibs obs : nat) (f : sink) (ws : list wresult) : dd :=
  let '(m, ob) := setup_mem ibs obs in
  mkDD m (mkIO 0 0 0 0 ibs) (mkIO ob 0 0 0 obs) false (mkSTAT 0 0 0 0 0 0 0 0) 0 f ws.

(** The whole copy of one input file. *)
Definition dd_run (cf : cfunc_t) (ibs obs : nat) (reads : list rresult) (f : sink)
    (ws : list wresult) : res dd :=
  let* d := dd_in cf reads (dd_start ibs obs f ws) in
  dd_close cf d.

End dd.

(** ** Buffers in the store *)

(** Buffer [b] holds [pre], [bs] at its end, then [post]. *)
Definition holds (m : mem) (b : nat) (pre bs post : list Z) : Prop :=
  m !! b = Some (pre ++ bs ++ post).

Lemma rdn_holds m b pre bs post :
  holds m b pre bs post → rdn m b (length pre) (length bs) = Ok bs.
Proof.
  unfold holds, rdn. intros ->. rewrite !length_app.
  rewrite (proj2 (Nat.leb_le _ _)) by lia. by rewrite drop_app_length, take_app_length.
Qed.

Lemma wrn_holds m b pre old new post :
  holds m b pre old post → length new = length old →
  ∃ m', wrn m b (length pre) new = Ok m' ∧ holds m' b pre new post ∧
    (∀ b', b' ≠ b → m' !! b' = m !! b').
Proof.
  unfold holds, wrn. intros Hm Hl. rewrite Hm, !length_app.
  rewrite (proj2 (Nat.leb_le _ _)) by lia. eexists; split; [done|]. split.
  - rewrite take_app_length, Hl, <- length_app, (app_assoc pre old post), drop_app_length.
    rewrite list_lookup_insert_eq; [done|]. by eapply lookup_lt_Some.
  - intros b' Hb. by rewrite list_lookup_insert_ne.
Qed.

(** The bytes after the first [k] move to the start of the buffer. *)
Lemma reassemble m b bs post k :
  holds m b [] bs post → (k ≤ length bs)%nat →
  ∃ m' post',
    (if (length bs - k =? 0)%nat then Ok m
     else let* p := back (length bs) (length bs - k) in
          let* r := rdn m b p (length bs - k) in wrn m b 0 r) = Ok m' ∧
    holds m' b [] (drop k bs) post' ∧
    length (drop k bs ++ post') = length (bs ++ post) ∧
    (∀ b', b' ≠ b → m' !! b' = m !! b').
Proof.
  intros Hm Hk. destruct (Nat.eqb_spec (length bs - k) 0).
  - exists m, (bs ++ post). rewrite (drop_ge bs k) by lia. by split_and!.
  - unfold back. rewrite (proj2 (Nat.leb_le _ _)) by lia. cbn [res_bind].
    replace (length bs - (length bs - k))%nat with (length (take k bs))
      by (rewrite length_take_le; lia).
    replace (length bs - k)%nat with (length (drop k bs)) by (rewrite length_drop; lia).
    rewrite (rdn_holds m b (take k bs) (drop k bs) post)
      by (unfold holds; by rewrite (app_assoc (take k bs)), take_drop).
    cbn [res_bind].
    set (rest := drop (length (drop k bs)) (bs ++ post)).
    destruct (wrn_holds m b [] (take (length (drop k bs)) (bs ++ post)) (drop k bs) rest)
      as (m' & E & H1 & H2).
    { unfold holds, rest. cbn [app]. by rewrite take_drop. }
    { rewrite length_take, length_app, length_drop. lia. }
    exists m', rest. split; [exact E|]. split; [done|]. split; [|done].
    unfold rest. rewrite !length_app, !length_drop, length_app. lia.
Qed.

(** ** What the output file means

    The bytes before the next write: those written, the hole the file offset has
    skipped, and the zeros that are still to be skipped. *)
Definition logical (d : dd) : list Z :=
  f_data (ofile d) ++
  replicate (f_pos (ofile d) - length (f_data (ofile d)) + Z.to_nat (pending d)) 0.

Definition sink_ok (d : dd) : Prop :=
  (length (f_data (ofile d)) ≤ f_pos (ofile d))%nat ∧ 0 <= pending d.

(** When no zeros are pending the file ends with what was written. *)
Definition closed (d : dd) : Prop := pending d = 0 → f_data (ofile d) = logical d.

Lemma sink_write_append f bs :
  (length (f_data f) ≤ f_pos f)%nat →
  sink_write f bs =
  mkSink (f_data f ++ replicate (f_pos f - length (f_data f)) 0 ++ bs)
    (f_pos f + length bs).
Proof.
  intros H. unfold sink_write.
  set (z := replicate (f_pos f - length (f_data f)) 0).
  assert (Hl : length (f_data f ++ z) = f_pos f)
    by (unfold z; rewrite length_app, length_replicate; lia).
  rewrite take_ge, drop_ge by lia. by rewrite app_nil_r, app_assoc.
Qed.

(** The write results that do not end dd: short counts and interruptions. *)
Definition goes_on (w : wresult) : Prop :=
  match w with Accept n => (0 < n)%nat | Interrupted => True | WriteError => False end.

Section copy.
Variables (ddflags : Z) (istape : bool).

(** With sparse output no write is short; on a tape none is interrupted either. *)
Definition writes_ok (ws : list wresult) : Prop :=
  Forall goes_on ws ∧
  (has ddflags C_SPARSE = true → Forall (λ w, w = Interrupted) ws) ∧
  (istape = true → ws = []).

(** What the writing loops keep. *)
Record kept (d d' : dd) (bs : list Z) : Prop := {
  k_mem : dmem d' = dmem d;
  k_in : din d' = din d;
  k_out : dout d' = dout d;
  k_trunc : intrunc d' = intrunc d;
  k_log : logical d' = logical d ++ bs;
  k_sink : sink_ok d';
  k_writes : writes_ok (writes d');
  k_fewer : (length (writes d') ≤ length (writes d))%nat;
  k_pend : ∀ q, (has ddflags C_SPARSE = true → (q | Z.of_nat (dbsz (dout d)))) →
    (q | pending d) → (q | pending d') }.

Lemma writes_ok_tail w ws : writes_ok (w :: ws) → writes_ok ws.
Proof.
  intros (H1 & H2 & H3). split; [by apply Forall_cons in H1 as [_ H1]|]. split.
  - intros H. specialize (H2 H). by apply Forall_cons in H2 as [_ H2].
  - intros H. by specialize (H3 H).
Qed.

(** One write from a buffer, after skipping the zeros that are pending: either it
    is interrupted, or some bytes of [bs] are now part of the file. *)
Lemma write_step d bs :
  sink_ok d → writes_ok (writes d) → bs ≠ [] →
  ∃ d1 nw d2,
    (if pending d =? 0 then Ok d
     else let* f := sink_seek (ofile d) (pending d) in
          Ok (mkDD (dmem d) (din d) (dout d) (intrunc d) (st d) (pending d) f (writes d)))
      = Ok d1 ∧
    bwrite d1 bs = Ok (nw, d2) ∧ (nw ≤ length bs)%nat ∧
    kept d (flush_pending d2) (take nw bs) ∧
    (nw = 0%nat → (length (writes d2) < length (writes d))%nat) ∧
    (has ddflags C_SPARSE = true → nw = 0%nat ∨ nw = length bs) ∧
    (istape = true → nw = length bs) ∧
    pending (flush_pending d2) = 0 ∧ (nw ≠ 0%nat → closed (flush_pending d2)).
Proof.
  intros [Hs Hp] Hw Hbs.
  set (f1 := if pending d =? 0 then ofile d
             else mkSink (f_data (ofile d)) (Z.to_nat (Z.of_nat (f_pos (ofile d)) + pending d))).
  set (d1 := mkDD (dmem d) (din d) (dout d) (intrunc d) (st d) (pending d) f1 (writes d)).
  exists d1.
  assert (Hf1 : f_data f1 = f_data (ofile d) ∧
    f_pos f1 = (f_pos (ofile d) + Z.to_nat (pending d))%nat).
  { unfold f1. destruct (Z.eqb_spec (pending d) 0) as [->|]; cbn; [split; [done|lia]|].
    split; [done|lia]. }
  destruct Hf1 as [Hd1 Hp1].
  assert (Hstep : ∀ nw f2 ws, writes_ok ws → (length ws ≤ length (writes d))%nat →
    f2 = (if (nw =? 0)%nat then f1 else sink_write f1 (take nw bs)) →
    let d2 := mkDD (dmem d) (din d) (dout d) (intrunc d) (st d) (pending d) f2 ws in
    kept d (flush_pending d2) (take nw bs) ∧ pending (flush_pending d2) = 0 ∧
    (nw ≠ 0%nat → closed (flush_pending d2))).
  { intros nw f2 ws Hws Hl ->.
    set (f2 := if (nw =? 0)%nat then f1 else sink_write f1 (take nw bs)).
    assert (Hf2 : f_data f2 ++ replicate (f_pos f2 - length (f_data f2)) 0
      = logical d ++ take nw bs ∧ (length (f_data f2) ≤ f_pos f2)%nat ∧
      (nw ≠ 0%nat → f_pos f2 = length (f_data f2))).
    { unfold f2, logical. destruct (Nat.eqb_spec nw 0) as [->|].
      - rewrite Hd1, Hp1, take_0, app_nil_r. split; [|split; [lia|done]]. do 2 f_equal. lia.
      - rewrite sink_write_append by (rewrite Hd1, Hp1; lia). cbn [f_data f_pos].
        rewrite Hd1, Hp1, !length_app, length_replicate. split; [|lia].
        match goal with |- _ ++ replicate ?n 0 = _ => replace n with 0%nat by lia end.
        rewrite app_nil_r, <- app_assoc. do 3 f_equal. lia. }
    destruct Hf2 as (Hlog & Hle & Hcl). clearbody f2. split; [|split].
    2: { unfold flush_pending. cbn [pending]. by destruct (Z.eqb_spec (pending d) 0). }
    2: { intros Hnz _. specialize (Hcl Hnz). unfold flush_pending. cbn [pending].
         destruct (Z.eqb_spec (pending d) 0) as [E|E]; unfold logical; cbn;
           by rewrite ?E, Hcl, Nat.sub_diag, app_nil_r. }
    unfold flush_pending. cbn [pending].
    destruct (Z.eqb_spec (pending d) 0) as [E|E]; split; try done; cbn;
      try (rewrite <- Hlog; unfold logical; cbn; by rewrite ?E, ?Nat.add_0_r);
      first [split; cbn; lia | intros ? _ _; by exists 0]. }
  assert (H1 : (if pending d =? 0 then Ok d
     else let* f := sink_seek (ofile d) (pending d) in
          Ok (mkDD (dmem d) (din d) (dout d) (intrunc d) (st d) (pending d) f (writes d)))
      = Ok d1).
  { unfold d1, f1, sink_seek. destruct (Z.eqb_spec (pending d) 0); [by destruct d|].
    rewrite (proj2 (Z.ltb_ge _ _)) by lia. done. }
  assert (Hne : length bs ≠ 0%nat) by (by destruct bs).
  unfold bwrite. cbn [writes d1 ofile dmem din dout intrunc st pending].
  destruct (writes d) as [|w ws] eqn:Ew.
  - rewrite (proj2 (Nat.eqb_neq _ _)) by done. exists (length bs). eexists.
    split; [exact H1|]. split; [done|]. split; [lia|].
    destruct (Hstep (length bs) (sink_write f1 bs) []) as (S1 & S2 & S3); [done|cbn; lia| |].
    { rewrite (proj2 (Nat.eqb_neq _ _)), take_ge by (done || lia). done. }
    split; [exact S1|]. split; [lia|]. auto.
  - pose proof (writes_ok_tail _ _ Hw) as Hws. destruct w as [n| |].
    + destruct Hw as (Hn & Hsp & Htp). apply Forall_cons in Hn as [Hn _]. cbn in Hn.
      rewrite (proj2 (Nat.eqb_neq _ _)) by lia. exists (Nat.min n (length bs)). eexists.
      split; [exact H1|]. split; [done|]. split; [lia|].
      destruct (Hstep (Nat.min n (length bs)) (sink_write f1 (take (Nat.min n (length bs)) bs)) ws)
        as (S1 & S2 & S3); [done|cbn; lia| |].
      { by rewrite (proj2 (Nat.eqb_neq _ _)) by lia. }
      split; [exact S1|]. split; [lia|]. split_and!; try done.
      * intros H. specialize (Hsp H). apply Forall_cons in Hsp as [? _]. done.
      * intros H. by specialize (Htp H).
    + exists 0%nat. eexists. split; [exact H1|]. split; [done|]. split; [lia|].
      destruct (Hstep 0%nat f1 ws) as (S1 & S2 & S3); [done|cbn; lia|done|].
      split; [exact S1|]. split; [cbn; lia|]. split_and!; try done; [auto|].
      intros H. destruct Hw as (_ & _ & Htp). by specialize (Htp H).
    + destruct Hw as [Hn _]. by apply Forall_cons in Hn as [? _].
Qed.

Lemma kept_refl d : sink_ok d → writes_ok (writes d) → kept d d [].
Proof. intros. split; try done. by rewrite app_nil_r. Qed.

Lemma kept_trans d d1 d2 a b : kept d d1 a → kept d1 d2 b → kept d d2 (a ++ b).
Proof.
  intros [A1 A2 A3 A4 A5 A6 A7 A8 A9] [B1 B2 B3 B4 B5 B6 B7 B8 B9].
  split; try congruence; [by rewrite B5, A5, app_assoc|lia|].
  rewrite A3 in B9. auto.
Qed.

Lemma kept_count_write d d' nw bs : kept d d' bs → kept d (count_write d' nw) bs.
Proof. intros []. by split. Qed.

Lemma kept_count_out d d' b bs : kept d d' bs → kept d (count_out d' b) bs.
Proof. intros []. destruct b; by split. Qed.

(** One block of [n] bytes, of which [cnt] are left, all part of the file now. *)
Lemma out_block_kept fuel force d n pre bs post :
  (length bs + length (writes d) < fuel)%nat → bs ≠ [] → (length bs ≤ n)%nat →
  sink_ok d → writes_ok (writes d) →
  (force = false → has ddflags C_SPARSE = true → length bs = dbsz (dout d)) →
  holds (dmem d) (db (dout d)) pre bs post →
  ∃ d', out_block ddflags istape fuel force d n (length bs) (length pre)
    = Ok (d', (length pre + length bs)%nat) ∧ kept d d' bs ∧ closed d' ∧
    (force = true → pending d' = 0).
Proof.
  revert d pre bs. induction fuel as [|fuel IH]; [lia|].
  intros d pre bs Hf Hne Hn Hs Hw Hfull Hm. cbn [out_block].
  rewrite (rdn_holds _ _ _ _ _ Hm). cbn [res_bind].
  destruct (negb force && has ddflags C_SPARSE && forallb (Z.eqb 0) bs) eqn:Esp.
  { eexists; split; [done|]. apply andb_true_iff in Esp as [[Ef Es]%andb_true_iff Hz].
    apply negb_true_iff in Ef. specialize (Hfull Ef Es).
    destruct Hs as [Hs Hp]. split; [|split; [|by rewrite Ef]].
    2: { intros H0. cbn in H0. destruct bs; [done|cbn in H0; lia]. }
    split; try done.
    - unfold logical. cbn. rewrite <- app_assoc. f_equal.
      assert (bs = replicate (length bs) 0) as Hb.
      { rewrite forallb_forall in Hz. clear -Hz. induction bs as [|c bs IH]; [done|].
        cbn. f_equal; [symmetry; apply Z.eqb_eq; rewrite Z.eqb_sym, Z.eqb_sym; apply Hz; by left|].
        apply IH. intros x Hx. apply Hz. by right. }
      rewrite Hb at 2. rewrite <- replicate_add. f_equal. lia.
    - split; cbn; [done|lia].
    - intros q Hq Hp'. cbn. rewrite Hfull. apply Z.divide_add_r; auto. }
  destruct (write_step d bs Hs Hw Hne) as (d1 & nw & d2 & -> & Hb & Hnw & Hk & Hz & Hsp & Htape & Hp0 & Hcl).
  cbn [res_bind]. rewrite Hb. cbn [res_bind].
  pose proof (kept_count_write _ _ nw _ Hk) as Hk2. set (d3 := count_write _ nw) in *.
  destruct (Nat.eqb_spec nw n) as [->|Hnn].
  { assert (length bs = n) by lia. rewrite <- H, take_ge in Hk2 by lia. rewrite H.
    eexists; split; [done|]. split; [by apply kept_count_out|]. split; [|done].
    assert (Hb0 : length bs ≠ 0%nat) by (by destruct bs). rewrite <- H in *. by apply Hcl. }
  destruct (Nat.eqb_spec nw (length bs)) as [->|Hnl].
  { rewrite take_ge in Hk2 by lia. eexists; split; [done|]. split; [by apply kept_count_out|].
    split; [|done]. apply Hcl. by destruct bs. }
  destruct istape; [by destruct Hnl; apply Htape|].
  pose proof (kept_count_out _ _ false _ Hk2) as Hk3.
  assert (Hwr : writes (count_out d3 false) = writes d2)
    by (unfold d3, count_out, count_write, flush_pending; cbn; by case_match).
  destruct (IH (count_out d3 false) (pre ++ take nw bs) (drop nw bs)) as (d' & Hd' & Hk' & Hc').
  - rewrite Hwr, length_drop. pose proof (k_fewer _ _ _ Hk3) as Hfw. rewrite Hwr in Hfw.
    destruct (decide (nw = 0%nat)) as [E|]; [specialize (Hz E)|]; lia.
  - intros E. apply (f_equal length) in E. rewrite length_drop in E. cbn in E. lia.
  - rewrite length_drop. lia.
  - apply (k_sink _ _ _ Hk3).
  - apply (k_writes _ _ _ Hk3).
  - intros Ef Es. rewrite (k_out _ _ _ Hk3), length_drop, <- (Hfull Ef Es).
    destruct (Hsp Es); lia.
  - rewrite (k_mem _ _ _ Hk3), (k_out _ _ _ Hk3). unfold holds.
    by rewrite <- app_assoc, (app_assoc (take nw bs)), take_drop.
  - rewrite length_app, length_drop, length_take_le in Hd' by lia. exists d'.
    split; [rewrite Hd'; do 2 f_equal; lia|].
    split; [|exact Hc']. rewrite <- (take_drop nw bs). by eapply kept_trans.
Qed.

(** The blocks that the outer loop writes: [n] bytes, then whole blocks while there
    is one, and less than a block is left. *)
Lemma out_blocks_kept fuel force d n pre bs post :
  (length bs < fuel)%nat → (0 < n ≤ length bs)%nat → (0 < dbsz (dout d))%nat →
  sink_ok d → writes_ok (writes d) → (force = false → n = dbsz (dout d)) →
  (force = true → (length bs - n < dbsz (dout d))%nat) →
  holds (dmem d) (db (dout d)) pre bs post → dbcnt (dout d) = length bs →
  ∃ d' k, out_blocks ddflags istape fuel force d n (length pre) = Ok d' ∧
    (k ≤ length bs)%nat ∧ (length bs - k < dbsz (dout d))%nat ∧ (n ≤ k)%nat ∧
    kept d (set_out d' (dout d)) (take k bs) ∧
    dout d' = with_cnt (dout d) (dbp (dout d)) (length bs - k) ∧
    closed d' ∧ (force = true → pending d' = 0).
Proof.
  revert d n pre bs. induction fuel as [|fuel IH]; [lia|].
  intros d n pre bs Hf Hn Hsz Hs Hw Hnf Hft Hm Hc. cbn [out_blocks].
  assert (Hlt : length (take n bs) = n) by (rewrite length_take_le; lia).
  destruct (out_block_kept (S (n + length (writes d))) force d n pre (take n bs)
    (drop n bs ++ post)) as (d1 & Hd1 & Hk1 & Hcl1).
  - rewrite Hlt. lia.
  - intros E. rewrite E in Hlt. cbn in Hlt. lia.
  - lia.
  - done.
  - done.
  - intros Ef _. rewrite Hlt. auto.
  - unfold holds. by rewrite (app_assoc (take n bs)), take_drop.
  - rewrite Hlt in Hd1. rewrite Hd1. cbn [res_bind].
    rewrite (k_out _ _ _ Hk1), Hc.
    rewrite (proj2 (Nat.ltb_ge _ _)) by lia.
    set (d2 := set_out d1 (with_cnt (dout d) (dbp (dout d)) (length bs - n))).
    assert (Hk2 : kept d (set_out d2 (dout d)) (take n bs)).
    { destruct Hk1. by split. }
    destruct (Nat.ltb_spec (length bs - n) (dbsz (dout d))).
    { exists d2, n. split; [done|]. split; [lia|]. split; [lia|]. split; [lia|].
      split; [done|]. split; [done|]. exact Hcl1. }
    destruct (IH d2 (dbsz (dout d)) (pre ++ take n bs) (drop n bs)) as (d' & k & E & H1 & H2 & H3 & H4 & H5 & H6).
    + rewrite length_drop. lia.
    + rewrite length_drop. lia.
    + done.
    + apply (k_sink _ _ _ Hk1).
    + apply (k_writes _ _ _ Hk1).
    + done.
    + intros Ef. specialize (Hft Ef). rewrite length_drop. cbn. lia.
    + unfold holds. cbn. rewrite (k_mem _ _ _ Hk1), <- app_assoc, (app_assoc (take n bs)), take_drop.
      exact Hm.
    + by rewrite length_drop.
    + rewrite length_app, Hlt in E. rewrite length_drop in H1, H2, H5. cbn [d2 dout] in H2, H3, H5.
      exists d', (n + k)%nat. split; [exact E|]. split; [lia|].
      split; [cbn in H2; lia|]. split; [lia|]. split.
      * rewrite <- take_take_drop. eapply kept_trans; [exact Hk2|].
        destruct H4. by split.
      * split; [|exact H6]. rewrite H5. cbn. f_equal. lia.
Qed.

(** dd_out writes whole blocks, or everything when it is forced, and moves what is
    left to the start of the buffer. *)
Lemma dd_out_kept force d bs post :
  (0 < length bs)%nat → (0 < dbsz (dout d))%nat → (force = false → (dbsz (dout d) ≤ length bs)%nat) →
  sink_ok d → writes_ok (writes d) →
  holds (dmem d) (db (dout d)) [] bs post →
  dbcnt (dout d) = length bs → (force = false → dbp (dout d) = length bs) →
  ∃ d' k post', dd_out ddflags istape force d = Ok d' ∧
    (k ≤ length bs)%nat ∧ (length bs - k < dbsz (dout d))%nat ∧
    (force = true → k = length bs) ∧
    dout d' = with_cnt (dout d) (length bs - k) (length bs - k) ∧
    din d' = din d ∧ intrunc d' = intrunc d ∧
    logical d' = logical d ++ take k bs ∧ sink_ok d' ∧ writes_ok (writes d') ∧
    (∀ q, (has ddflags C_SPARSE = true → (q | Z.of_nat (dbsz (dout d)))) →
      (q | pending d) → (q | pending d')) ∧
    holds (dmem d') (db (dout d)) [] (drop k bs) post' ∧
    length (drop k bs ++ post') = length (bs ++ post) ∧
    (∀ b, b ≠ db (dout d) → dmem d' !! b = dmem d !! b) ∧
    closed d' ∧ (force = true → pending d' = 0).
Proof.
  intros Hbs Hsz Hforce Hs Hw Hm Hc Hp. unfold dd_out.
  set (n := if force then _ else _).
  assert (Hn : (0 < n ≤ length bs)%nat) by (unfold n; destruct force; [lia|specialize (Hforce eq_refl); lia]).
  destruct (out_blocks_kept (S (dbcnt (dout d))) force d n [] bs post)
    as (d1 & k & E & Hk1 & Hk2 & Hk3 & Hk & Hout & Hcl & Hpf); try done; [lia|..].
  { intros ->. done. }
  { intros ->. unfold n. lia. }
  cbn [length] in E. rewrite E. cbn [res_bind].
  destruct Hk as [K1 K2 _ K4 K5 K6 K7 K8 K9]. cbn in K1, K2, K4, K6, K7, K9.
  rewrite Hout. cbn [dbcnt with_cnt dbp db].
  assert (Hfk : force = true → k = length bs).
  { intros ->. unfold n in Hk3. lia. }
  destruct (reassemble (dmem d1) (db (dout d)) bs post k) as (m & post' & Er & H1 & H2 & H3);
    [by rewrite K1|done|].
  assert ((if (length bs - k =? 0)%nat then Ok (dmem d1)
    else let* p := back (dbp (dout d)) (length bs - k) in
         let* bs' := rdn (dmem d1) (db (dout d)) p (length bs - k) in
         wrn (dmem d1) (db (dout d)) 0 bs') = Ok m) as ->.
  { destruct (Nat.eqb_spec (length bs - k) 0) as [|Hne]; [done|]. rewrite Hp; [exact Er|].
    destruct force; [specialize (Hfk eq_refl); lia|done]. }
  cbn [res_bind]. eexists _, k, post'. split; [done|]. split_and!; try done.
  intros b Hb. cbn. by rewrite H3, K1.
Qed.
End copy.

(** ** The copy without records *)

(** What a byte becomes. *)
Definition conv_fun (ctab : option (list Z)) (c : Z) : Z :=
  match ctab with None => c | Some t => nth (Z.to_nat c) t 0 end.

Definition ctab_ok (ctab : option (list Z)) : Prop :=
  match ctab with None => True | Some t => length t = 256%nat end.

Lemma conv_all_map t bs :
  length t = 256%nat → Forall is_byte bs → conv_all t bs = Ok (conv_fun (Some t) <$> bs).
Proof.
  intros Ht. induction 1 as [|c bs Hc _ IH]; [done|]. cbn [conv_all]. unfold conv.
  unfold is_byte in Hc. destruct (lookup_lt_is_Some_2 t (Z.to_nat c)) as [v Hv]; [lia|].
  rewrite Hv. cbn [res_bind]. rewrite IH. cbn. do 2 f_equal.
  symmetry. by apply nth_lookup_Some.
Qed.

Lemma translate_holds ctab m b pre bs post p n :
  ctab_ok ctab → Forall is_byte bs → holds m b pre bs post →
  p = (length pre + length bs)%nat → n = length bs →
  ∃ m', translate ctab m b p n = Ok m' ∧ holds m' b pre (conv_fun ctab <$> bs) post ∧
    (∀ b', b' ≠ b → m' !! b' = m !! b').
Proof.
  intros Ht Hbs Hm -> ->. unfold translate. destruct ctab as [t|].
  - unfold back. rewrite (proj2 (Nat.leb_le _ _)) by lia. cbn [res_bind].
    replace (length pre + length bs - length bs)%nat with (length pre) by lia.
    rewrite (rdn_holds _ _ _ _ _ Hm). cbn [res_bind].
    rewrite conv_all_map by done. cbn [res_bind].
    apply (wrn_holds m b pre bs); [done|]. by rewrite length_fmap.
  - exists m. split; [done|]. split; [|done]. by rewrite list_fmap_id.
Qed.

Section def_copy.
Variables (ddflags : Z) (istape : bool) (cbsz : nat) (ctab : option (list Z)).
Variables (ibs obs : nat).
Hypothesis (Hctab : ctab_ok ctab) (Hibs : (0 < ibs)%nat) (Hobs : (0 < obs)%nat).
Hypothesis (Hbs : has ddflags C_BS = false) (Hsync : has ddflags C_SYNC = false)
  (Hswab : has ddflags C_SWAB = false) (Hosync : has ddflags C_OSYNC = false)
  (Hrec : has ddflags (C_BLOCK .| C_UNBLOCK) = false).

Local Notation out_ok := (writes_ok ddflags istape).

(** Between two reads: [w] is converted and waits for a full block. *)
Record copying (done w : list Z) (d : dd) : Prop := {
  c_in : ∃ r, din d = mkIO 0 (length w) (length w) r ibs;
  c_out : ∃ r, dout d = mkIO 0 (length w) (length w) r obs;
  c_mem : ∃ post, holds (dmem d) 0 [] w post ∧ length (w ++ post) = (obs + ibs - 1)%nat;
  c_less : (length w < obs)%nat;
  c_sink : sink_ok d;
  c_writes : out_ok (writes d);
  c_pend : (Z.of_nat obs | pending d);
  c_closed : closed d;
  c_done : logical d ++ w = done }.

Lemma def_step copied w d bs :
  copying copied w d → bs ≠ [] → (length bs ≤ ibs)%nat → Forall is_byte bs →
  ∃ d' w', (let* m := wrn (dmem d) (db (din d)) (dbp (din d)) bs in
            in_block ddflags cbsz ctab istape Def (set_mem d m) (length bs)
              (length bs =? dbsz (din d))%nat) = Ok d' ∧
    copying (copied ++ (conv_fun ctab <$> bs)) w' d'.
Proof.
  intros [(ri & Ci) (ro & Co) (post & Hm & Hlen) Hless Hs Hw Hp Hc Hd] Hne Hb Hbytes.
  rewrite length_app in Hlen.
  assert (Hpost : post = take (length bs) post ++ drop (length bs) post) by (by rewrite take_drop).
  set (old := take (length bs) post) in *. set (post2 := drop (length bs) post) in *.
  assert (Hold : length old = length bs) by (unfold old; rewrite length_take; lia).
  destruct (wrn_holds (dmem d) 0 w old bs post2) as (m1 & E1 & Hm1 & _).
  { unfold holds in *. cbn [app] in Hm. by rewrite <- Hpost. }
  { lia. }
  rewrite Ci. cbn [db dbp dbsz]. rewrite E1. cbn [res_bind]. unfold in_block.
  rewrite Hbs, Hswab. cbn [din set_mem]. rewrite Ci. cbn.
  match goal with |- ∃ _ _, def _ _ _ ?x = _ ∧ _ => set (d1 := x) end.
  set (w2 := w ++ (conv_fun ctab <$> bs)).
  assert (Hw2 : length w2 = (length w + length bs)%nat)
    by (unfold w2; by rewrite length_app, length_fmap).
  assert (Hd1 : din d1 = mkIO 0 (length w2) (length w2) (length bs) ibs)
    by (rewrite Hw2; reflexivity).
  unfold def. rewrite Hd1. cbn [db dbp dbrcnt dbcnt].
  destruct (translate_holds ctab (dmem d1) 0 w bs post2 (length w2) (length bs))
    as (m2 & E2 & Hm2 & _); [done|done|exact Hm1|done|done|].
  rewrite E2. cbn [res_bind].
  change (dout d1) with (dout d). rewrite Co. cbn [with_cnt db dbrcnt dbsz].
  set (d2 := set_out (set_mem d1 m2) (mkIO 0 (length w2) (length w2) ro obs)).
  assert (Hm2' : holds (dmem d2) 0 [] w2 post2).
  { unfold holds in *. cbn. unfold w2. by rewrite <- app_assoc. }
  assert (Hl2 : length (w2 ++ post2) = (obs + ibs - 1)%nat).
  { rewrite Hpost, length_app in Hlen. rewrite length_app, Hw2. lia. }
  assert (Hlog : logical d2 = logical d) by done.
  assert (Hbn : (0 < length bs)%nat) by (destruct bs; [done|cbn; lia]).
  change (set_out (set_mem d1 m2) (with_cnt (mkIO 0 (length w) (length w) ro obs)
    (length w2) (length w2))) with d2.
  destruct (Nat.leb_spec obs (length w2)) as [Hfull|Hfull].
  - destruct (dd_out_kept ddflags istape false d2 w2 post2)
      as (d' & k & post' & E & K1 & K2 & _ & K4 & K5 & _ & K7 & K8 & K9 & K10 & K11 & K12 & _ & K14 & _);
      try done; [lia|].
    rewrite E. cbn [res_bind]. eexists _, (drop k w2). split; [done|].
    change (dout d2) with (mkIO 0 (length w2) (length w2) ro obs) in K2, K4, K10, K11.
    split; cbn; rewrite ?K4, ?K5; cbn; rewrite ?length_drop; try done.
    + by eexists.
    + by eexists.
    + exists post'. by rewrite K12.
    + by apply K10.
    + change (logical d' ++ drop k w2 = copied ++ (conv_fun ctab <$> bs)).
      rewrite K7, Hlog, <- app_assoc, take_drop, <- Hd. unfold w2. by rewrite app_assoc.
  - eexists d2, w2. split; [done|]. split; try done.
    + by eexists.
    + by eexists.
    + by exists post2.
    + rewrite Hlog, <- Hd. unfold w2. by rewrite app_assoc.
Qed.

(** The input of a copy: the bytes of its reads up to the end of the file. *)
Fixpoint input_bytes (reads : list rresult) : list Z :=
  match reads with
  | Read (b :: bs) :: reads => (b :: bs) ++ input_bytes reads
  | _ => []
  end.

Definition reads_ok (r : rresult) : Prop :=
  match r with Read bs => (length bs ≤ ibs)%nat ∧ Forall is_byte bs | ReadError => False end.

Lemma dd_in_copying reads copied w d :
  Forall reads_ok reads → copying copied w d →
  ∃ d' w', dd_in ddflags cbsz ctab 0 istape Def reads d = Ok d' ∧
    copying (copied ++ (conv_fun ctab <$> input_bytes reads)) w' d'.
Proof.
  intros Hr. revert copied w d. induction Hr as [|r reads Hr Hrs IH]; intros copied w d Hc.
  - cbn [dd_in]. rewrite Hsync. cbn [negb andb Z.eqb res_bind]. eexists _, w. split; [done|].
    cbn. rewrite app_nil_r. destruct Hc as [(ri & Ci) Co Cm C4 C5 C6 C7 C8 C9].
    split; try done. eexists. cbn. by rewrite Ci.
  - destruct r as [[|b bs]|]; [| |done].
    + cbn [dd_in]. rewrite Hsync. cbn [negb andb Z.eqb res_bind]. eexists _, w. split; [done|].
      cbn. rewrite app_nil_r. destruct Hc as [(ri & Ci) Co Cm C4 C5 C6 C7 C8 C9].
      split; try done. eexists. cbn. by rewrite Ci.
    + destruct Hr as [Hl Hb]. destruct (def_step copied w d (b :: bs) Hc) as (d1 & w1 & E & Hc1);
        [done..|].
      destruct (IH _ _ _ Hc1) as (d' & w' & E' & Hc').
      exists d', w'. split.
      * cbn [dd_in]. rewrite Hsync. cbn [negb andb Z.eqb res_bind].
        assert (Hsz : dbsz (din d) = ibs) by (destruct Hc as [(? & ->)]; done).
        change (set_mem d (dmem d)) with (set_mem d (dmem d)).
        assert (Hset : set_mem d (dmem d) = d) by (by destruct d).
        rewrite Hset, Hsz, take_ge by done. rewrite Hsz in E.
        replace (if (length (b :: bs) =? ibs)%nat then length (b :: bs) else length (b :: bs))
          with (length (b :: bs)) by (by destruct (_ =? _)%nat).
        apply res_bind_Ok in E as (m & Em & E). cbn [dd_in]. rewrite Em. cbn [res_bind].
        rewrite E. cbn [res_bind]. exact E'.
      * change (input_bytes (Read (b :: bs) :: reads)) with ((b :: bs) ++ input_bytes reads).
        rewrite fmap_app, app_assoc. exact Hc'.
Qed.

Lemma dd_close_copying copied w d :
  copying copied w d →
  ∃ d', dd_close ddflags cbsz ctab istape Def d = Ok d' ∧ f_data (ofile d') = copied.
Proof.
  intros [(ri & Ci) (ro & Co) (post & Hm & Hlen) Hless Hs Hw Hp Hc Hd].
  unfold dd_close. cbn [res_bind]. rewrite Hosync. cbn [andb res_bind].
  assert (Hdc : def_close d = d).
  { unfold def_close. destruct (dbcnt (din d) =? 0)%nat; [done|]. rewrite Ci, Co. cbn.
    destruct d; cbn in *. by rewrite Co. }
  rewrite Hdc, Co. cbn [dbcnt dbsz db].
  destruct (Nat.eqb_spec (length w) 0) as [E|E].
  - destruct w; [|done]. rewrite app_nil_r in Hd. cbn [andb].
    destruct (Z.eqb_spec (pending d) 0) as [Ep|Ep]; cbn [negb res_bind].
    + rewrite Co. cbn. eexists; split; [done|]. by rewrite Hc, Hd.
    + destruct Hs as [Hs Hp0]. destruct Hp as [q Hq]. assert (1 <= q) by nia.
      cbn [app length] in Hlen.
      destruct (wrn_holds (dmem d) 0 [] (take obs post) (replicate obs 0) (drop obs post))
        as (m & Em & Hm' & _).
      { unfold holds in *. cbn [app] in *. by rewrite take_drop. }
      { rewrite length_replicate, length_take. lia. }
      cbn [length] in Em. rewrite Em. cbn [res_bind with_cnt db dbrcnt dbsz].
      set (d2 := set_pending _ _).
      change (dbcnt (dout d2)) with obs. rewrite (proj2 (Nat.eqb_neq _ _)) by lia.
      assert (Hlog : logical d2 ++ replicate obs 0 = copied).
      { rewrite <- Hd. unfold logical. cbn. rewrite <- app_assoc, <- replicate_add.
        do 2 f_equal. nia. }
      destruct (dd_out_kept ddflags istape true d2 (replicate obs 0) (drop obs post))
        as (d' & k & post' & E' & K1 & K2 & Kf & K4 & K5 & _ & K7 & K8 & K9 & K10 & K11 & K12 & _ & K14 & K15);
        rewrite ?length_replicate; try done.
      { split; cbn; [done|nia]. }
      exists d'. split; [exact E'|].
      by rewrite K14, K7, Kf, firstn_all by auto.
  - cbn [andb res_bind]. rewrite Co. cbn [dbcnt].
    rewrite (proj2 (Nat.eqb_neq _ _)) by done.
    destruct (dd_out_kept ddflags istape true d w post)
      as (d' & k & post' & E' & K1 & K2 & Kf & K4 & K5 & _ & K7 & K8 & K9 & K10 & K11 & K12 & _ & K14 & K15);
      rewrite ?Co; try done; [lia|].
    exists d'. split; [exact E'|]. rewrite K14, K7, Kf, firstn_all by auto. exact Hd.
Qed.

Lemma run_copies reads ws :
  Forall reads_ok reads → out_ok ws →
  ∃ d, dd_run ddflags cbsz ctab 0 istape Def ibs obs reads (mkSink [] 0) ws = Ok d ∧
    f_data (ofile d) = conv_fun ctab <$> input_bytes reads.
Proof.
  intros Hr Hw. unfold dd_run, dd_start, setup_mem. rewrite Hrec, Hbs. cbn [negb].
  destruct (dd_in_copying reads [] [] (mkDD [replicate (obs + ibs - 1) 0] (mkIO 0 0 0 0 ibs)
    (mkIO 0 0 0 0 obs) false (mkSTAT 0 0 0 0 0 0 0 0) 0 (mkSink [] 0) ws))
    as (d1 & w1 & E1 & H1); [done| |].
  - split; try done.
    + by eexists.
    + by eexists.
    + exists (replicate (obs + ibs - 1) 0). split; [done|]. apply length_replicate.
    + by exists 0.
  - rewrite E1. cbn [res_bind]. exact (dd_close_copying _ _ _ H1).
Qed.

(** C3.  dd without record conversion, and without bs=, count= and the conversions sync,
    osync and swab, is a copy: whatever the input and output block sizes, and however the
    reads cut the input, none of them failing, the output file is the input translated by
    the conversion table; the single buffer is never overrun.  No write fails.  Writes may
    be cut short or interrupted; but with sparse output none is cut short, and on a tape
    neither happens. *)
Theorem dd_copies reads ws :
  Forall reads_ok reads → out_ok ws →
  ∃ d, dd_run ddflags cbsz ctab 0 istape Def ibs obs reads (mkSink [] 0) ws = Ok d ∧
    f_data (ofile d) = conv_fun ctab <$> input_bytes reads.
Proof. apply run_copies. Qed.

End def_copy.

(** With bs= every read is written at once. *)
Section bs_copy.
Variables (ddflags : Z) (istape : bool) (cbsz : nat) (ctab : option (list Z)).
Variables (bs : nat).
Hypothesis (Hbsz : (0 < bs)%nat).
Hypothesis (Hbs : has ddflags C_BS = true) (Hsync : has ddflags C_SYNC = false)
  (Hosync : has ddflags C_OSYNC = false) (Hrec : has ddflags (C_BLOCK .| C_UNBLOCK) = false).

Record bs_copying (done : list Z) (d : dd) : Prop := {
  bs_in : ∃ r, din d = mkIO 0 0 0 r bs;
  bs_out : ∃ p r, dout d = mkIO 0 p 0 r bs;
  bs_mem : ∃ post, holds (dmem d) 0 [] [] post ∧ length post = bs;
  bs_sink : sink_ok d;
  bs_writes : writes_ok ddflags istape (writes d);
  bs_pend : pending d = 0;
  bs_closed : closed d;
  bs_done : logical d = done }.

Lemma bs_step done d c t :
  bs_copying done d → (length (c :: t) ≤ bs)%nat →
  ∃ d', (let* m := wrn (dmem d) (db (din d)) (dbp (din d)) (c :: t) in
         in_block ddflags cbsz ctab istape Def (set_mem d m) (length (c :: t))
           (length (c :: t) =? dbsz (din d))%nat) = Ok d' ∧ bs_copying (done ++ c :: t) d'.
Proof.
  intros [(ri & Ci) (p & ro & Co) (post & Hm & Hlen) Hs Hw Hp Hc Hd] Hl.
  set (w := c :: t) in *. assert (Hw0 : (0 < length w)%nat) by (simpl; lia).
  assert (Hpost : post = take (length w) post ++ drop (length w) post) by (by rewrite take_drop).
  destruct (wrn_holds (dmem d) 0 [] (take (length w) post) w (drop (length w) post))
    as (m1 & E1 & Hm1 & _).
  { unfold holds in *. cbn [app] in *. by rewrite take_drop. }
  { rewrite length_take. lia. }
  rewrite Ci. cbn [db dbp dbsz]. cbn [length] in E1. rewrite E1. cbn [res_bind].
  unfold in_block. rewrite Hbs. cbn [din set_mem]. rewrite Ci. cbn -[length dd_out].
  match goal with |- ∃ _, (let* _ := dd_out _ _ _ ?x in _) = _ ∧ _ => set (d1 := x) end.
  destruct (dd_out_kept ddflags istape true d1 w (drop (length w) post))
    as (d' & k & post' & E & K1 & K2 & Kf & K4 & K5 & _ & K7 & K8 & K9 & K10 & K11 & K12 & _ & K14 & K15);
    try done; unfold d1; cbn; rewrite ?Co; cbn; try done; try lia.
  match goal with |- context [dd_out ddflags istape true ?x] =>
    replace x with d1 by (unfold d1; by rewrite Co) end.
  rewrite E. cbn [res_bind]. eexists. split; [done|].
  assert (Hdo : dout d1 = mkIO 0 p (length w) ro bs) by (unfold d1; cbn; by rewrite Co).
  assert (Hdi : din d1 = mkIO 0 0 (length w) (length w) bs) by reflexivity.
  specialize (Kf eq_refl). subst k. rewrite Hdo, Nat.sub_diag in K4.
  rewrite Hdo in K11. rewrite drop_ge in K11, K12 by lia.
  split; cbn; rewrite ?K4, ?K5, ?Hdi; cbn; try done; eauto.
  - exists post'. split; [done|]. change ([] ++ post') with post' in K12. rewrite (length_app w), length_drop in K12. lia.
  - change (logical d' = done ++ w). rewrite K7, take_ge by lia.
    change (logical d1) with (logical d). by rewrite Hd.
Qed.

(** The end of the file is reached. *)
Lemma bs_end done d : bs_copying done d →
  bs_copying done (set_in (set_mem d (dmem d)) (with_rcnt (din d) (dbcnt (din d)) 0)).
Proof.
  intros [(ri & Ci) Co Cm C4 C5 C6 C7 C8]. split; try done. cbn. rewrite Ci. by eexists.
Qed.

Lemma bs_dd_in reads done d : Forall (reads_ok bs) reads → bs_copying done d →
  ∃ d', dd_in ddflags cbsz ctab 0 istape Def reads d = Ok d' ∧
    bs_copying (done ++ input_bytes reads) d'.
Proof.
  intros Hr. revert done d. induction Hr as [|r reads Hr _ IH]; intros done d Hc.
  - cbn [dd_in]. rewrite Hsync. cbn [negb andb Z.eqb res_bind]. eexists. split; [done|].
    cbn [input_bytes]. rewrite app_nil_r. by apply bs_end.
  - destruct r as [[|c t]|]; [| |done]; cbn [dd_in]; rewrite Hsync;
      cbn [negb andb Z.eqb res_bind].
    + eexists. split; [done|]. cbn [input_bytes]. rewrite app_nil_r. by apply bs_end.
    + destruct Hr as [Hl _]. destruct (bs_step done d c t Hc Hl) as (d1 & E & Hc1).
      destruct (IH _ _ Hc1) as (d' & E' & Hc'). exists d'.
      change (input_bytes (Read (c :: t) :: reads)) with ((c :: t) ++ input_bytes reads).
      rewrite app_assoc. split; [|done].
      assert (Hsz : dbsz (din d) = bs) by (by destruct Hc as [(? & ->)]).
      assert (Hset : set_mem d (dmem d) = d) by (by destruct d).
      rewrite Hset, Hsz, take_ge by done. rewrite Hsz in E.
      replace (if (length (c :: t) =? bs)%nat then length (c :: t) else length (c :: t))
        with (length (c :: t)) by (by destruct (_ =? _)%nat).
      apply res_bind_Ok in E as (m & Em & E). rewrite Em. cbn [res_bind].
      rewrite E. cbn [res_bind]. exact E'.
Qed.

Lemma run_bs reads ws : Forall (reads_ok bs) reads → writes_ok ddflags istape ws →
  ∃ d, dd_run ddflags cbsz ctab 0 istape Def bs bs reads (mkSink [] 0) ws = Ok d ∧
    f_data (ofile d) = input_bytes reads.
Proof.
  intros Hr Hw. unfold dd_run, dd_start, setup_mem. rewrite Hrec, Hbs. cbn [negb].
  destruct (bs_dd_in reads [] (mkDD [replicate bs 0] (mkIO 0 0 0 0 bs) (mkIO 0 0 0 0 bs) false
    (mkSTAT 0 0 0 0 0 0 0 0) 0 (mkSink [] 0) ws) Hr) as (d & E & [(ri & Ci) (p & ro & Co) _ _ _ Hp Hc Hd]).
  { split; try done; eauto. exists (replicate bs 0). split; [done|]. apply length_replicate. }
  rewrite E. cbn [res_bind]. exists d. unfold dd_close, def_close. rewrite Ci. cbn.
  rewrite Hosync. cbn [andb res_bind]. rewrite Co. cbn. rewrite Hp. cbn. rewrite Co. cbn.
  split; [done|]. by rewrite Hc, Hd.
Qed.

End bs_copy.

Lemma dd_copies_witness :
  ∃ d, dd_run C_SPARSE 0 (Some a2e_POSIX) 0 false Def 3 2
      [Read (str "ab"); Read [0; 0; 0]; Read (str "c")] (mkSink [] 0) [Interrupted] = Ok d ∧
    f_data (ofile d) = [129; 130; 0; 0; 0; 131].
Proof.
  apply (dd_copies C_SPARSE false 0 (Some a2e_POSIX) 3 2); try done; try lia.
  - repeat constructor; cbn; try lia; done.
  - split; [by repeat constructor|]. split; [by repeat constructor|done].
Defined.

(** With sparse output a short write corrupts the file: the zeros after it are
    counted as pending, and the end of the copy takes a whole block off a count
    that is not a multiple of one, so it seeks back over the data. *)
Theorem dd_sparse_short_write :
  option_map (λ d, f_data (ofile d))
    (match dd_run C_SPARSE 0 None 0 false Def 8 8 [Read (str "abcd" ++ [0; 0; 0; 0])]
       (mkSink [] 0) [Accept 4] with Ok d => Some d | _ => None end)
  = Some (replicate 8 0).
Proof. reflexivity. Qed.

(** ** Conversion to records *)

(** With conv=block and a conversion table, an unterminated last record is
    padded in the target code but not translated. *)
Theorem block_close_untranslated :
  option_map (λ d, f_data (ofile d))
    (match dd_run C_BLOCK 4 (Some a2e_POSIX) 0 false Block 6 8 [Read (str "ab" ++ [10] ++ str "abc")]
       (mkSink [] 0) [] with Ok d => Some d | _ => None end)
  = Some (map (conv_fun (Some a2e_POSIX)) (str "ab  ") ++ str "abc" ++ [64]).
Proof. reflexivity. Qed.

(** With conv=block,osync the padding of the last output block overwrites the
    unterminated last record, because block_close does not advance the output
    pointer. *)
Theorem block_osync_loses_record :
  option_map (λ d, f_data (ofile d))
    (match dd_run (C_BLOCK .| C_OSYNC) 4 None 0 false Block 3 8 [Read (str "abc")]
       (mkSink [] 0) [] with Ok d => Some d | _ => None end)
  = Some (replicate 4 0 ++ replicate 4 0).
Proof. reflexivity. Qed.

(** ** The tables *)

(** The ASCII character an IBM code stands for. *)
Definition ibm_ascii : list Z :=
  (λ e, match list_find (λ a, nth a a2ibm 0 = Z.of_nat e) (seq 0 128) with
        | Some (_, a) => Z.of_nat a | None => 0 end) <$> seq 0 256.

Definition dd_byte_list : list Z := Z.of_nat <$> seq 0 256.

Lemma dd_byte_check (P : Z → bool) c : forallb P dd_byte_list = true → is_byte c → P c = true.
Proof.
  intros HP Hc. rewrite forallb_forall in HP. apply HP. apply list_elem_of_In.
  apply list_elem_of_fmap. exists (Z.to_nat c). unfold is_byte in Hc.
  split; [lia|]. apply elem_of_seq. lia.
Qed.

(** The 32V and the POSIX tables are inverse permutations of the bytes: text
    converted to EBCDIC and back is unchanged, and the other way round; and the
    table of the IBM variant tells all ASCII characters apart. *)
Theorem dd_tables_inverse c :
  is_byte c →
  conv_fun (Some e2a_32V) (conv_fun (Some a2e_32V) c) = c ∧
  conv_fun (Some a2e_32V) (conv_fun (Some e2a_32V) c) = c ∧
  conv_fun (Some e2a_POSIX) (conv_fun (Some a2e_POSIX) c) = c ∧
  conv_fun (Some a2e_POSIX) (conv_fun (Some e2a_POSIX) c) = c ∧
  (∀ c', c < 128 → 0 <= c' < 128 →
    conv_fun (Some a2ibm) c = conv_fun (Some a2ibm) c' → c = c').
Proof.
  intros Hc.
  pose proof (dd_byte_check (λ c,
    (conv_fun (Some e2a_32V) (conv_fun (Some a2e_32V) c) =? c) &&
    (conv_fun (Some a2e_32V) (conv_fun (Some e2a_32V) c) =? c) &&
    (conv_fun (Some e2a_POSIX) (conv_fun (Some a2e_POSIX) c) =? c) &&
    (conv_fun (Some a2e_POSIX) (conv_fun (Some e2a_POSIX) c) =? c)) c
    ltac:(vm_compute; reflexivity) Hc) as H.
  rewrite !andb_true_iff, !Z.eqb_eq in H. destruct H as (((H1 & H2) & H3) & H4).
  split_and!; try done. intros c' H128 Hc' E.
  (* the codes of two ASCII characters are read back to them *)
  pose proof (dd_byte_check (λ c, (128 <=? c) ||
    (nth (Z.to_nat (conv_fun (Some a2ibm) c)) ibm_ascii 0 =? c)) c
    ltac:(vm_compute; reflexivity) Hc) as H5.
  pose proof (dd_byte_check (λ c, (128 <=? c) ||
    (nth (Z.to_nat (conv_fun (Some a2ibm) c)) ibm_ascii 0 =? c)) c'
    ltac:(vm_compute; reflexivity) ltac:(unfold is_byte; lia)) as H6.
  rewrite orb_true_iff, Z.leb_le, Z.eqb_eq in H5, H6. cbn [negb] in *.
  destruct H5 as [|H5]; [lia|]. destruct H6 as [|H6]; [lia|]. congruence.
Qed.

Lemma dd_tables_inverse_witness :
  conv_fun (Some e2a_32V) (conv_fun (Some a2e_32V) (ch "a")) = ch "a" ∧
  conv_fun (Some e2a_POSIX) (conv_fun (Some a2e_POSIX) (ch "~")) = ch "~".
Proof.
  destruct (dd_tables_inverse (ch "a")) as (H1 & _); [unfold is_byte; lia|].
  destruct (dd_tables_inverse (ch "~")) as (_ & _ & H3 & _); [unfold is_byte; lia|].
  exact (conj H1 H3).
Defined.

(** conv=ebcdic,lcase converts the case of the EBCDIC codes as if they were
    ASCII: a period comes out as a comma, and a capital letter is not lowered. *)
Theorem dd_case_after_ebcdic :
  let t := setup_ctab (C_EBCDIC .| C_LCASE) (Some a2e_POSIX) in
  conv_fun t (ch ".") = conv_fun (Some a2e_POSIX) (ch ",") ∧
  conv_fun t (ch "A") = conv_fun (Some a2e_POSIX) (ch "A").
Proof. vm_compute. auto. Qed.

(** ** Fixed length records to lines *)

(** A record without its trailing blanks, as a line. *)
Definition record_line (r : list Z) : list Z := take (strip r (length r)) r ++ [10].

(** The lines of the whole records of [w], and the bytes after them. *)
Fixpoint whole_records (fuel cbsz : nat) (w : list Z) : list Z * list Z :=
  match fuel with
  | O => ([], w)
  | S fuel =>
      if (length w <? cbsz)%nat then ([], w) else
      let '(out, rest) := whole_records fuel cbsz (drop cbsz w) in
      (record_line (take cbsz w) ++ out, rest)
  end.

(** conv=unblock: the lines of the records, the last one possibly short. *)
Definition unblock_ref (cbsz : nat) (w : list Z) : list Z :=
  let '(out, rest) := whole_records (length w) cbsz w in
  out ++ (if (length rest =? 0)%nat then [] else record_line rest).

Lemma whole_records_fuel cbsz w n :
  (0 < cbsz)%nat → (length w ≤ n)%nat →
  whole_records n cbsz w = whole_records (length w) cbsz w.
Proof.
  intros Hc. revert w n.
  assert (H : ∀ k w n m, (length w ≤ k)%nat → (length w ≤ n)%nat → (length w ≤ m)%nat →
    whole_records n cbsz w = whole_records m cbsz w).
  { induction k as [|k IH]; intros w n m Hk Hn Hm.
    - assert (length w < cbsz)%nat by lia.
      by destruct n, m; cbn [whole_records]; rewrite ?(proj2 (Nat.ltb_lt (length w) cbsz)) by lia.
    - destruct n as [|n], m as [|m]; cbn [whole_records]; destruct (Nat.ltb_spec (length w) cbsz);
        try done; try lia. rewrite (IH (drop cbsz w) n m); [done|rewrite length_drop; lia..]. }
  intros w n Hn. by apply (H (length w)).
Qed.

(** What a further chunk adds. *)
Lemma whole_records_app cbsz w x :
  (0 < cbsz)%nat →
  let '(out, rest) := whole_records (length w) cbsz w in
  let '(out', rest') := whole_records (length (rest ++ x)) cbsz (rest ++ x) in
  whole_records (length (w ++ x)) cbsz (w ++ x) = (out ++ out', rest').
Proof.
  intros Hc. remember (length w) as n eqn:En.
  assert (Hn : (length w ≤ n)%nat) by lia. clear En. revert w Hn.
  induction n as [|n IH]; intros w Hn.
  { destruct w; [|cbn in Hn; lia]. cbn. by destruct (whole_records _ _ _). }
  cbn [whole_records]. destruct (Nat.ltb_spec (length w) cbsz).
  { cbn. by destruct (whole_records _ _ _). }
  specialize (IH (drop cbsz w)). rewrite length_drop in IH. specialize (IH ltac:(lia)).
  destruct (whole_records n cbsz (drop cbsz w)) as [out rest] eqn:E.
  destruct (whole_records (length (rest ++ x)) cbsz (rest ++ x)) as [out' rest'].
  rewrite length_app. destruct (length w + length x)%nat as [|m] eqn:Em; [lia|].
  cbn [whole_records]. rewrite length_app, (proj2 (Nat.ltb_ge _ _)) by lia.
  rewrite drop_app_le, take_app_le by lia.
  rewrite (whole_records_fuel _ _ m), IH; [by rewrite app_assoc|done|].
  rewrite length_app, length_drop. lia.
Qed.

Lemma whole_records_suffix n cbsz w :
  ∃ k, (whole_records n cbsz w).2 = drop k w ∧ (k ≤ length w)%nat.
Proof.
  revert w. induction n as [|n IH]; intros w; cbn [whole_records].
  { exists 0%nat. split; [done|lia]. }
  destruct (Nat.ltb_spec (length w) cbsz); [exists 0%nat; split; [done|lia]|].
  destruct (IH (drop cbsz w)) as (k & Hk & Hl). rewrite length_drop in Hl.
  destruct (whole_records n cbsz (drop cbsz w)) as [out rest].
  exists (cbsz + k)%nat. cbn in *. rewrite Hk, drop_drop. split; [done|lia].
Qed.

Lemma strip_le bs n : (strip bs n ≤ n)%nat.
Proof. induction n as [|n IH]; cbn; [done|]. case_match; lia. Qed.

Lemma whole_records_rest cbsz w :
  (0 < cbsz)%nat → (length (whole_records (length w) cbsz w).2 < cbsz)%nat.
Proof.
  intros Hc. assert (H : ∀ n w, (length w ≤ n)%nat →
    (length (whole_records n cbsz w).2 < cbsz)%nat).
  { induction n as [|n IH]; intros w' Hn; cbn [whole_records]; [cbn; lia|].
    destruct (Nat.ltb_spec (length w') cbsz); [done|].
    specialize (IH (drop cbsz w')). rewrite length_drop in IH. specialize (IH ltac:(lia)).
    by destruct (whole_records n cbsz (drop cbsz w')). }
  by apply H.
Qed.

(** The record at [inp] goes to the end of the output buffer. *)
Lemma put_record_holds m bi pre r post o ro obs w post1 :
  bi ≠ o → holds m bi pre r post → holds m o [] w post1 → (length r < length post1)%nat →
  ∃ m' post1', put_record m bi (length pre) (length r) (mkIO o (length w) (length w) ro obs)
    = Ok (m', mkIO o (length (w ++ record_line r)) (length (w ++ record_line r)) ro obs) ∧
    holds m' o [] (w ++ record_line r) post1' ∧
    length ((w ++ record_line r) ++ post1') = length (w ++ post1) ∧
    (∀ b, b ≠ o → m' !! b = m !! b).
Proof.
  intros Hne Hm Hw Hl. unfold put_record. rewrite (rdn_holds _ _ _ _ _ Hm).
  cbn [res_bind db dbp dbcnt with_cnt dbrcnt dbsz].
  set (k := strip r (length r)). assert (Hk : (k ≤ length r)%nat) by apply strip_le.
  set (post2 := drop k post1).
  assert (H1 : ∃ m1, (if (k =? 0)%nat then Ok m else wrn m o (length w) (take k r)) = Ok m1 ∧
    holds m1 o [] (w ++ take k r) post2 ∧ (∀ b, b ≠ o → m1 !! b = m !! b)).
  { destruct (Nat.eqb_spec k 0) as [E|E].
    - exists m. split; [done|]. unfold post2. rewrite E, take_0, drop_0, app_nil_r. done.
    - destruct (wrn_holds m o w (take k post1) (take k r) post2) as (m1 & E1 & H1 & H2).
      + unfold holds in *. cbn [app] in Hw. unfold post2. by rewrite take_drop.
      + rewrite !length_take. lia.
      + exists m1. split; [done|]. split; [|done]. unfold holds in *.
        by rewrite <- app_assoc. }
  destruct H1 as (m1 & -> & H1 & H2). cbn [res_bind].
  assert (Hlk : length (take k r) = k) by (rewrite length_take; lia).
  destruct (wrn_holds m1 o (w ++ take k r) (take 1 post2) [10] (drop 1 post2))
    as (m2 & E2 & H3 & H4).
  { unfold holds in *. cbn [app] in H1. by rewrite take_drop. }
  { unfold post2. rewrite length_take, length_drop. cbn [length]. lia. }
  rewrite length_app, Hlk in E2. rewrite E2. cbn [res_bind].
  exists m2, (drop 1 post2). unfold record_line. fold k. rewrite !length_app, Hlk. cbn [length].
  split; [by rewrite Nat.add_assoc|]. split.
  { unfold holds in *. cbn [app]. rewrite <- !app_assoc in *. exact H3. }
  split; [unfold post2; rewrite !length_drop; lia|].
  intros b Hb. by rewrite H4, H2.
Qed.

Section unblock_copy.
Variables (ddflags : Z) (istape : bool) (cbsz : nat) (ctab : option (list Z)).
Variables (ibs obs : nat).
Hypothesis (Hctab : ctab_ok ctab) (Hibs : (0 < ibs)%nat) (Hobs : (0 < obs)%nat)
  (Hcbsz : (0 < cbsz)%nat).
Hypothesis (Hbs : has ddflags C_BS = false) (Hsync : has ddflags C_SYNC = false)
  (Hswab : has ddflags C_SWAB = false) (Hosync : has ddflags C_OSYNC = false)
  (Hsparse : has ddflags C_SPARSE = false)
  (Hrec : has ddflags (C_BLOCK .| C_UNBLOCK) = true).

Local Notation out_ok := (writes_ok ddflags istape).

(** The output side: [o] waits in the output buffer, [out] is all that was output. *)
Record out_side (out o : list Z) (d : dd) : Prop := {
  u_out : ∃ r, dout d = mkIO 1 (length o) (length o) r obs;
  u_omem : ∃ post, holds (dmem d) 1 [] o post ∧ length (o ++ post) = (obs + cbsz)%nat;
  u_sink : sink_ok d;
  u_writes : out_ok (writes d);
  u_pend : pending d = 0;
  u_closed : closed d;
  u_done : logical d ++ o = out }.

(** The output side after [if (out.dbcnt >= out.dbsz) dd_out(0)]. *)
Lemma out_side_flush out o d :
  out_side out o d →
  ∃ d' o', (if (obs <=? length o)%nat then dd_out ddflags istape false d else Ok d) = Ok d' ∧
    out_side out o' d' ∧ (length o' < obs)%nat ∧ din d' = din d ∧ dmem d' !! 0%nat = dmem d !! 0%nat
    ∧ intrunc d' = intrunc d.
Proof.
  intros [(r & Ho) (post & Hm & Hl) Hs Hw Hp Hc Hd].
  destruct (Nat.leb_spec obs (length o)); [|by exists d, o; split_and!; try done; split; eauto].
  destruct (dd_out_kept ddflags istape false d o post)
    as (d' & k & post' & E & K1 & K2 & _ & K4 & K5 & Ki & K7 & K8 & K9 & K10 & K11 & K12 & K13 & K14 & _);
    rewrite ?Ho; try done; [lia|].
  rewrite Ho in K2, K4, K10, K11, K13. cbn in K2, K4, K10, K11, K13.
  exists d', (drop k o). split; [done|]. split; [|split; [rewrite length_drop; lia|split; [done|]]].
  - assert (Hp' : pending d' = 0).
    { assert (H0 : (0 | pending d')) by (apply K10; [by rewrite Hsparse|]; rewrite Hp; by exists 0).
      destruct H0 as [q ->]. lia. }
    split; try done.
    + exists r. by rewrite K4, length_drop.
    + exists post'. by rewrite K12.
    + by rewrite K7, <- app_assoc, take_drop.
  - split; [by apply K13|done].
Qed.

(** The record loop over the input [pre ++ x], from the start of [x]. *)
Lemma unblock_loop_ok fuel d out o pre x post r :
  (length x < fuel)%nat → out_side out o d → (length o < obs)%nat →
  holds (dmem d) 0 pre x post →
  din d = mkIO 0 (length pre + length x) (length x) r ibs →
  ∃ d' o', let '(lines, rest) := whole_records (length x) cbsz x in
    unblock_loop ddflags cbsz istape fuel d (length pre) = Ok d' ∧
    out_side (out ++ lines) o' d' ∧ (length o' < obs)%nat ∧
    dmem d' !! 0%nat = dmem d !! 0%nat ∧
    din d' = mkIO 0 (length pre + length x) (length rest) r ibs.
Proof.
  revert d out o pre x. induction fuel as [|fuel IH]; [lia|].
  intros d out o pre x Hf Hu Ho Hm Hi. cbn [unblock_loop]. rewrite Hi. cbn [dbcnt db dbp].
  destruct (Nat.ltb_spec (length x) cbsz) as [Hlt|Hge].
  { exists d, o. destruct (length x) as [|n] eqn:E; cbn [whole_records].
    - rewrite app_nil_r. split_and!; try done. by rewrite E.
    - rewrite E, (proj2 (Nat.ltb_lt _ _)) by done. rewrite app_nil_r.
      split_and!; try done. by rewrite E. }
  destruct Hu as [(ro & Hout) (opost & Hom & Hol) Hs Hw Hp Hc Hd].
  assert (Htk : length (take cbsz x) = cbsz) by (rewrite length_take; lia).
  rewrite length_app in Hol.
  destruct (put_record_holds (dmem d) 0 pre (take cbsz x) (drop cbsz x ++ post) 1 ro obs o opost)
    as (m1 & opost' & E & H1 & H2 & H3); [done| |done|lia|].
  { unfold holds in *. by rewrite (app_assoc (take cbsz x)), take_drop. }
  rewrite Htk in E. rewrite Hout, E. cbn [res_bind dbsz dbcnt].
  set (o1 := o ++ record_line (take cbsz x)) in *.
  set (d1 := set_out (set_mem d m1) (mkIO 1 (length o1) (length o1) ro obs)).
  destruct (out_side_flush (out ++ record_line (take cbsz x)) o1 d1) as (d2 & o2 & E2 & Hu2 & Ho2 & Hi2 & Hm2 & _).
  { split; try done.
    - by eexists.
    - exists opost'. split; [done|]. rewrite H2, length_app. lia.
    - change (logical d1) with (logical d). unfold o1. by rewrite app_assoc, Hd. }
  rewrite E2. cbn [res_bind].
  set (d3 := set_in d2 _).
  destruct (IH d3 (out ++ record_line (take cbsz x)) o2 (pre ++ take cbsz x) (drop cbsz x))
    as (d' & o' & H).
  - rewrite length_drop. lia.
  - destruct Hu2. by split.
  - done.
  - unfold holds. change (dmem d3) with (dmem d2). rewrite Hm2. change (dmem d1) with m1.
    rewrite (H3 0%nat) by done. unfold holds in Hm.
    by rewrite <- app_assoc, (app_assoc (take cbsz x)), take_drop.
  - rewrite length_app, Htk, length_drop. unfold d3. cbn.
    replace (length pre + cbsz + (length x - cbsz))%nat with (length pre + length x)%nat by lia. done.
  - exists d', o'. destruct (length x) as [|n] eqn:En; [lia|]. cbn [whole_records].
    rewrite En, (proj2 (Nat.ltb_ge _ _)) by lia. rewrite length_drop in H.
    assert (Hfu : whole_records n cbsz (drop cbsz x)
      = whole_records (length (drop cbsz x)) cbsz (drop cbsz x))
      by (apply whole_records_fuel; [done|rewrite length_drop; lia]).
    rewrite Hfu, length_drop, En. rewrite En in H.
    destruct (whole_records (S n - cbsz) cbsz (drop cbsz x)) as [lines rest].
    destruct H as (G1 & G2 & G3 & G4 & G5). rewrite length_app, Htk in G1, G5.
    split_and!; try done.
    + by rewrite app_assoc.
    + rewrite G4. change (dmem d3) with (dmem d2). rewrite Hm2. by apply H3.
    + rewrite G5. f_equal. lia.
Qed.

(** Between two reads: [w] is the beginning of a record. *)
Record unblocking (out w : list Z) (d : dd) : Prop := {
  b_in : ∃ r, din d = mkIO 0 (length w) (length w) r ibs;
  b_mem : ∃ post, holds (dmem d) 0 [] w post ∧
    length (w ++ post) = (Nat.max ibs cbsz + cbsz)%nat;
  b_less : (length w < cbsz)%nat;
  b_out : ∃ o, out_side out o d ∧ (length o < obs)%nat }.

Lemma unblock_step out w d bs :
  unblocking out w d → bs ≠ [] → (length bs ≤ ibs)%nat → Forall is_byte bs →
  let '(lines, rest) := whole_records (length (w ++ (conv_fun ctab <$> bs))) cbsz
                          (w ++ (conv_fun ctab <$> bs)) in
  ∃ d', (let* m := wrn (dmem d) (db (din d)) (dbp (din d)) bs in
         in_block ddflags cbsz ctab istape Unblock (set_mem d m) (length bs)
           (length bs =? dbsz (din d))%nat) = Ok d' ∧
    unblocking (out ++ lines) rest d'.
Proof.
  intros [(ri & Ci) (post & Hm & Hlen) Hless (o & Hu & Ho)] Hne Hb Hbytes.
  rewrite length_app in Hlen.
  set (old := take (length bs) post). set (post2 := drop (length bs) post).
  assert (Hpost : post = old ++ post2) by (unfold old, post2; by rewrite take_drop).
  assert (Hold : length old = length bs) by (unfold old; rewrite length_take; lia).
  destruct (wrn_holds (dmem d) 0 w old bs post2) as (m1 & E1 & Hm1 & Hm1').
  { unfold holds in *. cbn [app] in Hm. by rewrite <- Hpost. }
  { lia. }
  rewrite Ci. cbn [db dbp dbsz]. rewrite E1. cbn [res_bind]. unfold in_block.
  rewrite Hbs, Hswab. cbn [din set_mem]. rewrite Ci. cbn [res_bind run_cfunc].
  match goal with |- context [unblock _ _ _ _ ?x] => set (d1 := x) end.
  set (w2 := w ++ (conv_fun ctab <$> bs)).
  assert (Hw2 : length w2 = (length w + length bs)%nat)
    by (unfold w2; by rewrite length_app, length_fmap).
  assert (Hd1 : din d1 = mkIO 0 (length w2) (length w2) (length bs) ibs)
    by (rewrite Hw2; reflexivity).
  destruct (translate_holds ctab (dmem d1) 0 w bs post2 (length w2) (length bs))
    as (m2 & E2 & Hm2 & Hm2'); [done|done|exact Hm1|done|done|].
  assert (Hmo : m2 !! 1%nat = dmem d !! 1%nat).
  { rewrite Hm2' by done. change (dmem d1) with m1. by rewrite Hm1'. }
  set (d2 := set_mem d1 m2).
  assert (Hu2 : out_side out o d2).
  { destruct Hu as [Hu1 (opost & Hu2 & Hu3) Hu4 Hu5 Hu6 Hu7 Hu8]. split; try done.
    exists opost. split; [|done]. unfold holds in *. cbn. by rewrite Hmo. }
  assert (Hm2h : holds (dmem d2) 0 [] w2 post2).
  { unfold holds in *. cbn. unfold w2. by rewrite <- app_assoc. }
  destruct (unblock_loop_ok (S (length w2)) d2 out o [] w2 post2 (length bs)) as (d3 & o3 & H3);
    [lia|done|done|done|exact Hd1|].
  pose proof (whole_records_rest cbsz w2 Hcbsz) as Hrest.
  pose proof (whole_records_suffix (length w2) cbsz w2) as Hsuf.
  destruct (whole_records (length w2) cbsz w2) as [lines rest].
  destruct H3 as (G1 & G2 & G3 & G4 & G5). destruct Hsuf as (k & Hk & Hkl). cbn [snd] in Hk, Hrest.
  unfold unblock. rewrite Hd1. cbn [db dbp dbrcnt dbcnt]. rewrite E2. cbn [res_bind].
  change (set_mem d1 m2) with d2. cbn [length] in G1. rewrite G1. cbn [res_bind].
  rewrite G5. cbn [dbcnt dbp db length Nat.add].
  destruct (reassemble (dmem d3) 0 w2 post2 k) as (m4 & post4 & E4 & H4 & H5 & H6).
  { unfold holds. by rewrite G4. }
  { done. }
  rewrite Hk, length_drop. rewrite E4. cbn [res_bind]. eexists; split; [done|].
  split.
  - exists (length bs). cbn. by rewrite length_drop.
  - exists post4. split; [exact H4|]. rewrite H5, length_app, Hw2.
    rewrite Hpost, length_app in Hlen. lia.
  - by rewrite <- Hk.
  - exists o3. split; [|done]. destruct G2 as [U1 (op & U2 & U3) U4 U5 U6 U7 U8]. split; try done.
    exists op. split; [|done]. unfold holds in *. cbn. by rewrite H6.
Qed.

Lemma unblocking_stop out w d :
  unblocking out w d →
  let '(lines, rest) := whole_records (length w) cbsz w in
  ∃ d', Ok (set_in (set_mem d (dmem d)) (with_rcnt (din (set_mem d (dmem d)))
      (dbcnt (din (set_mem d (dmem d)))) 0)) = Ok d' ∧ unblocking (out ++ lines) rest d'.
Proof.
  intros [(r & Hi) Hm Hl Ho].
  assert (E : whole_records (length w) cbsz w = ([], w)).
  { destruct (length w) as [|n] eqn:E; cbn [whole_records]; [done|].
    by rewrite E, (proj2 (Nat.ltb_lt _ _)) by done. }
  rewrite E, app_nil_r. eexists; split; [done|]. split; try done.
  - exists 0%nat. cbn. by rewrite Hi.
  - destruct Ho as (o & [U1 U2 U3 U4 U5 U6 U7] & Ho). exists o. split; [by split|done].
Qed.

Lemma dd_in_unblocking reads out w d :
  Forall (reads_ok ibs) reads → unblocking out w d →
  let x := w ++ (conv_fun ctab <$> input_bytes reads) in
  let '(lines, rest) := whole_records (length x) cbsz x in
  ∃ d', dd_in ddflags cbsz ctab 0 istape Unblock reads d = Ok d' ∧
    unblocking (out ++ lines) rest d'.
Proof.
  intros Hr. revert out w d. induction Hr as [|r reads Hr Hrs IH]; intros out w d Hu.
  - cbn [input_bytes fmap list_fmap]. rewrite app_nil_r.
    pose proof (unblocking_stop out w d Hu) as Hs. cbv zeta.
    destruct (whole_records (length w) cbsz w) as [lines rest].
    destruct Hs as (d' & E & H). exists d'. split; [|done].
    cbn [dd_in]. rewrite Hsync. cbn [negb andb Z.eqb res_bind]. exact E.
  - destruct r as [[|b bs]|]; [| |done].
    + cbn [input_bytes fmap list_fmap]. rewrite app_nil_r.
      pose proof (unblocking_stop out w d Hu) as Hs. cbv zeta.
      destruct (whole_records (length w) cbsz w) as [lines rest].
      destruct Hs as (d' & E & H). exists d'. split; [|done].
      cbn [dd_in]. rewrite Hsync. cbn [negb andb Z.eqb res_bind]. exact E.
    + destruct Hr as [Hl Hb].
      pose proof (unblock_step out w d (b :: bs) Hu ltac:(done) Hl Hb) as Hstep.
      change (input_bytes (Read (b :: bs) :: reads)) with ((b :: bs) ++ input_bytes reads).
      rewrite fmap_app, app_assoc. cbv zeta.
      set (x := w ++ (conv_fun ctab <$> b :: bs)) in *.
      pose proof (whole_records_app cbsz x (conv_fun ctab <$> input_bytes reads) Hcbsz) as Happ.
      destruct (whole_records (length x) cbsz x) as [lines1 rest1].
      destruct Hstep as (d1 & E1 & Hu1).
      specialize (IH (out ++ lines1) rest1 d1 Hu1). cbv zeta in IH.
      destruct (whole_records (length (rest1 ++ _)) cbsz (rest1 ++ _)) as [lines2 rest2].
      rewrite Happ. destruct IH as (d' & E & Hu'). exists d'.
      split; [|by rewrite app_assoc]. rewrite <- E.
      assert (Hsz : dbsz (din d) = ibs) by (destruct Hu as [(? & ->)]; done).
      assert (Hset : set_mem d (dmem d) = d) by (by destruct d).
      cbn [dd_in] in E1 |- *. rewrite Hsync. cbn [negb andb Z.eqb res_bind].
      rewrite Hset, Hsz, take_ge by done. rewrite Hsz in E1.
      replace (if (length (b :: bs) =? ibs)%nat then length (b :: bs) else length (b :: bs))
        with (length (b :: bs)) by (by destruct (_ =? _)%nat).
      apply res_bind_Ok in E1 as (m & Em & E1). rewrite Em. cbn [res_bind].
      rewrite E1. done.
Qed.

(** The end of [dd_close]: what waits in the output buffer is written. *)
Lemma dd_close_out cf d d1 out o :
  match cf with
  | Def => Ok (def_close d)
  | Block => block_close cbsz ctab d
  | Unblock => unblock_close d
  end = Ok d1 → out_side out o (set_out d1 (with_dbp (dout d1) (length o))) →
  ∃ d', dd_close ddflags cbsz ctab istape cf d = Ok d' ∧ f_data (ofile d') = out.
Proof.
  intros E1 [(ro & Hout) (opost & Hom & Hol) Hs Hw Hp Hc Hd]. unfold dd_close. rewrite E1.
  cbn in Hp, Hs, Hw, Hom, Hout. change (logical d1 ++ o = out) in Hd. change (closed d1) in Hc.
  injection Hout as Ho1 Ho2 Ho3 Ho4.
  cbn [res_bind]. rewrite Hosync. cbn [andb res_bind]. rewrite Hp, andb_false_r. cbn [res_bind].
  rewrite Ho2. destruct (Nat.eqb_spec (length o) 0) as [E|E].
  - exists d1. split; [done|]. rewrite Hc by done.
    destruct o; [|done]. by rewrite app_nil_r in Hd.
  - destruct (dd_out_kept ddflags istape true d1 o opost)
      as (d' & k & post' & E' & K1 & K2 & Kf & K4 & K5 & _ & K7 & K8 & K9 & K10 & K11 & K12 & _ & K14 & K15);
      rewrite ?Ho1, ?Ho2, ?Ho4; try done; [lia|].
    exists d'. split; [exact E'|]. by rewrite K14, K7, Kf, firstn_all by auto.
Qed.

Lemma dd_close_unblocking out w d :
  unblocking out w d →
  ∃ d', dd_close ddflags cbsz ctab istape Unblock d = Ok d' ∧
    f_data (ofile d') = out ++ (if (length w =? 0)%nat then [] else record_line w).
Proof.
  intros [(r & Hi) (post & Hm & Hml) Hl (o & Hu & Ho)].
  set (x := if (length w =? 0)%nat then [] else record_line w).
  assert (H1 : ∃ d1, unblock_close d = Ok d1 ∧ out_side (out ++ x) (o ++ x) d1).
  { unfold unblock_close. rewrite Hi. cbn [dbcnt db].
    unfold x. destruct (length w =? 0)%nat; [exists d; by rewrite !app_nil_r|].
    destruct Hu as [(ro & Hout) (opost & Hom & Hol) Hs Hw Hp Hc Hd].
    rewrite length_app in Hol.
    destruct (put_record_holds (dmem d) 0 [] w post 1 ro obs o opost)
      as (m1 & opost' & E & H1 & H2 & H3); [done|done|done|lia|].
    cbn [length] in E. rewrite Hout, E. cbn [res_bind]. eexists; split; [done|]. split; try done.
    - by eexists.
    - exists opost'. split; [done|]. rewrite H2, length_app. lia.
    - change (logical d ++ o ++ record_line w = out ++ record_line w). by rewrite app_assoc, Hd. }
  destruct H1 as (d1 & E1 & Hu1). eapply dd_close_out; [exact E1|].
  by destruct Hu1 as [(ro & Hout) ? ? ? ? ? ?]; split; try done; exists ro; cbn; rewrite Hout.
Qed.

Lemma run_unblocks reads ws :
  Forall (reads_ok ibs) reads → out_ok ws →
  ∃ d, dd_run ddflags cbsz ctab 0 istape Unblock ibs obs reads (mkSink [] 0) ws = Ok d ∧
    f_data (ofile d) = unblock_ref cbsz (conv_fun ctab <$> input_bytes reads).
Proof.
  intros Hr Hw. unfold dd_run, dd_start, setup_mem. rewrite Hrec. cbn [negb].
  pose proof (dd_in_unblocking reads [] [] (mkDD [replicate (Nat.max ibs cbsz + cbsz) 0;
    replicate (obs + cbsz) 0] (mkIO 0 0 0 0 ibs) (mkIO 1 0 0 0 obs) false
    (mkSTAT 0 0 0 0 0 0 0 0) 0 (mkSink [] 0) ws) Hr) as H.
  cbv zeta in H. cbn [app] in H. unfold unblock_ref.
  destruct (whole_records _ cbsz (conv_fun ctab <$> input_bytes reads)) as [lines rest].
  destruct H as (d1 & E1 & H1).
  { split; try done.
    - by eexists.
    - exists (replicate (Nat.max ibs cbsz + cbsz) 0). split; [done|]. apply length_replicate.
    - exists []. split; [|done]. split; try done.
      + by eexists.
      + exists (replicate (obs + cbsz) 0). split; [done|]. apply length_replicate. }
  rewrite E1. cbn [res_bind]. exact (dd_close_unblocking _ _ _ H1).
Qed.

(** conv=unblock turns the records of its converted input into lines without
    trailing blanks, the last record possibly short, whatever the block sizes and
    however the reads and writes are cut; neither buffer is overrun, although the
    output buffer can be filled to its last byte. *)
Theorem dd_unblocks reads ws :
  Forall (reads_ok ibs) reads → out_ok ws →
  ∃ d, dd_run ddflags cbsz ctab 0 istape Unblock ibs obs reads (mkSink [] 0) ws = Ok d ∧
    f_data (ofile d) = unblock_ref cbsz (conv_fun ctab <$> input_bytes reads).
Proof. apply run_unblocks. Qed.

End unblock_copy.

Lemma dd_unblocks_witness :
  ∃ d, dd_run C_UNBLOCK 4 None 0 false Unblock 3 5
      [Read (str "ab "); Read (str " cd"); Read (str "ef ")] (mkSink [] 0) [Accept 2] = Ok d ∧
    f_data (ofile d) = str "ab" ++ [10] ++ str "cdef" ++ [10] ++ [10].
Proof.
  apply (dd_unblocks C_UNBLOCK false 4 None 3 5); try done; try lia.
  - repeat constructor; cbn; try lia; done.
  - split; [repeat constructor; cbn; lia|]. by split.
Defined.

