(* ===== verification/DdBlock.v ===== *)
(** * dd: conv=block

    [block] and [block_close] against the records of the input's lines. *)

From S2P Require Import Prelude Libc Dd.

(** ** The records *)

Section spec.
Context (cbsz : nat) (ctab : option (list Z)).

(** The record of a line. *)
Definition record (l : list Z) : list Z :=
  (conv_fun ctab <$> take cbsz l) ++ replicate (cbsz - length l) (conv_fun ctab 32).

(** What dd leaves of the text after the last newline: too short for a record it is not
    translated, which is a defect ([block_close_untranslated]). *)
Definition last_record (l : list Z) : list Z :=
  if (length l =? 0)%nat then []
  else if (length l <? cbsz)%nat then l ++ replicate (cbsz - length l) (conv_fun ctab 32)
  else record l.

(** The records of a text that comes after [acc], the beginning of a line; [t] tells that
    the rest of a line is skipped. *)
Fixpoint records (acc : list Z) (t : bool) (x : list Z) : list Z * list Z * bool :=
  match x with
  | [] => ([], acc, t)
  | c :: x =>
      if t then records [] (negb (c =? 10)) x
      else if c =? 10 then let '(o, a, t) := records [] false x in (record acc ++ o, a, t)
      else if (S (length acc) =? cbsz)%nat
      then let '(o, a, t) := records [] true x in (record (acc ++ [c]) ++ o, a, t)
      else records (acc ++ [c]) false x
  end.

Definition lines_free (l : list Z) : Prop := Forall (λ c, c ≠ 10) l.

Lemma records_app acc t x y :
  let '(o, a, t') := records acc t x in
  let '(o', a', t'') := records a t' y in records acc t (x ++ y) = (o ++ o', a', t'').
Proof.
  revert acc t. induction x as [|c x IH]; intros acc t; cbn [records app]; [by destruct (records acc t y) as [[o a] t']|].
  destruct t; [apply IH|]. destruct (c =? 10); [|destruct (_ =? cbsz)%nat; [|apply IH]].
  - specialize (IH [] false). destruct (records [] false x) as [[o a] t']. destruct (records a t' y) as [[o' a'] t''].
    rewrite IH. by rewrite app_assoc.
  - specialize (IH [] true). destruct (records [] true x) as [[o a] t']. destruct (records a t' y) as [[o' a'] t''].
    rewrite IH. by rewrite app_assoc.
Qed.

Lemma records_skip x : lines_free x → records [] true x = ([], [], true).
Proof. induction 1 as [|c x Hc Hx IH]; cbn [records]; [done|]. by rewrite (proj2 (Z.eqb_neq c 10)). Qed.

Lemma records_short acc x : lines_free x → (length acc + length x < cbsz)%nat → records acc false x = ([], acc ++ x, false).
Proof.
  intros Hx. revert acc. induction Hx as [|c x Hc Hx IH]; intros acc Hl; cbn [records]; [by rewrite app_nil_r|].
  rewrite (proj2 (Z.eqb_neq c 10)) by done. cbn [length] in Hl. rewrite (proj2 (Nat.eqb_neq _ _)) by lia.
  rewrite IH by (rewrite length_app; simpl; lia). by rewrite <- app_assoc.
Qed.

Lemma records_full acc x : lines_free x → (length acc < cbsz)%nat → (length acc + length x = cbsz)%nat →
  records acc false x = (record (acc ++ x), [], true).
Proof.
  intros Hx. revert acc. induction Hx as [|c x Hc Hx IH]; intros acc Ha Hl; cbn [records length] in *; [lia|].
  rewrite (proj2 (Z.eqb_neq c 10)) by done. destruct (Nat.eqb_spec (S (length acc)) cbsz) as [E|E].
  - assert (x = []) as -> by (destruct x; [done|simpl in Hl; lia]). cbn. by rewrite app_nil_r.
  - rewrite IH by (rewrite length_app; simpl; lia). by rewrite <- app_assoc.
Qed.

Lemma record_take l : record (take cbsz l) = record l.
Proof.
  unfold record. rewrite take_take, Nat.min_id, length_take. destruct (Nat.le_gt_cases cbsz (length l)).
  - by replace (cbsz - cbsz `min` length l)%nat with (cbsz - length l)%nat by lia.
  - by rewrite Nat.min_r by lia.
Qed.

(** A whole line. *)
Lemma records_line l x : (0 < cbsz)%nat → lines_free l →
  records [] false (l ++ 10 :: x) = (let '(o, a, t) := records [] false x in (record l ++ o, a, t)).
Proof.
  intros Hc Hl. destruct (Nat.lt_ge_cases (length l) cbsz) as [Hlt|Hge].
  - pose proof (records_app [] false l (10 :: x)) as H. rewrite records_short in H by done. cbn [records app] in H.
    change (10 =? 10) with true in H. cbn iota in H. destruct (records [] false x) as [[o a] t]. by rewrite H.
  - rewrite <- (take_drop cbsz l) at 1. rewrite <- app_assoc.
    pose proof (records_app [] false (take cbsz l) (drop cbsz l ++ 10 :: x)) as H.
    rewrite (records_full [] (take cbsz l)) in H; [|by apply Forall_take|simpl; lia|rewrite length_take; simpl; lia].
    cbn [app] in H. pose proof (records_app [] true (drop cbsz l) (10 :: x)) as H2.
    rewrite records_skip in H2 by by apply Forall_drop. cbn [records] in H2. change (10 =? 10) with true in H2. cbn [negb] in H2.
    rewrite record_take in H. destruct (records [] false x) as [[o a] t]. rewrite H2 in H. by rewrite H.
Qed.

Lemma records_lines ls x : (0 < cbsz)%nat → Forall lines_free ls →
  records [] false (concat (map (λ l, l ++ [10]) ls) ++ x)
  = (let '(o, a, t) := records [] false x in (concat (map record ls) ++ o, a, t)).
Proof.
  intros Hc. induction 1 as [|l ls Hl Hls IH]; cbn [map concat app]; [by destruct (records [] false x) as [[o a] t]|].
  rewrite <- !app_assoc. cbn [app]. rewrite records_line by done. rewrite IH.
  destruct (records [] false x) as [[o a] t]. by rewrite app_assoc.
Qed.

Lemma records_last l : (0 < cbsz)%nat → lines_free l →
  let '(o, a, _) := records [] false l in
  o ++ (if (length a =? 0)%nat then [] else a ++ replicate (cbsz - length a) (conv_fun ctab 32)) = last_record l.
Proof.
  intros Hc Hl. unfold last_record. destruct (Nat.lt_ge_cases (length l) cbsz) as [Hlt|Hge].
  - rewrite records_short by done. cbn [app]. by rewrite (proj2 (Nat.ltb_lt _ _)) by done.
  - assert (records [] false l = records [] false (take cbsz l ++ drop cbsz l)) as -> by by rewrite take_drop.
    pose proof (records_app [] false (take cbsz l) (drop cbsz l)) as H.
    rewrite (records_full [] (take cbsz l)) in H; [|by apply Forall_take|simpl; lia|rewrite length_take; simpl; lia].
    rewrite records_skip in H by by apply Forall_drop. rewrite H. cbn [app length Nat.eqb]. rewrite !app_nil_r, record_take.
    rewrite (proj2 (Nat.eqb_neq _ 0)), (proj2 (Nat.ltb_ge _ _)) by lia. done.
Qed.

End spec.

(** ** The loops of block *)

Lemma rd1_holds m b pre c x post : holds m b pre (c :: x) post → rd1 m b (length pre) = Ok c.
Proof. unfold holds, rd1. intros ->. cbn [app]. by rewrite list_lookup_middle. Qed.

Lemma wrn_at m b o post bs : holds m b [] o post → (length bs <= length post)%nat →
  ∃ m', wrn m b (length o) bs = Ok m' ∧ holds m' b [] (o ++ bs) (drop (length bs) post) ∧ (∀ b', b' ≠ b → m' !! b' = m !! b').
Proof.
  intros Hm Hl. destruct (wrn_holds m b o (take (length bs) post) bs (drop (length bs) post)) as (m' & E & H1 & H2).
  - unfold holds in *. cbn [app] in Hm. by rewrite take_drop.
  - rewrite length_take. lia.
  - exists m'. split; [done|]. split; [|done]. unfold holds in *. cbn [app]. by rewrite <- app_assoc.
Qed.

Lemma find_newline x : lines_free x ∨ ∃ l y, x = l ++ 10 :: y ∧ lines_free l.
Proof.
  induction x as [|c x IH]; [left; constructor|]. destruct (Z.eq_dec c 10) as [->|Hc].
  - right. exists [], x. split; [done|constructor].
  - destruct IH as [IH|(l & y & -> & Hl)]; [left; by constructor|]. right. exists (c :: l), y. split; [done|by constructor].
Qed.

Section loops.
Context (cbsz : nat) (ctab : option (list Z)) (Hctab : ctab_ok ctab).

Lemma conv_ok c : is_byte c → match ctab with None => Ok c | Some t => conv t c end = Ok (conv_fun ctab c).
Proof.
  intros [H1 H2]. unfold conv, conv_fun, ctab_ok in *. destruct ctab as [t|]; [|done].
  destruct (lookup_lt_is_Some_2 t (Z.to_nat c)) as [v Hv]; [lia|]. rewrite Hv. f_equal.
  symmetry. apply nth_lookup_Some with (d := 0) in Hv. done.
Qed.

Lemma pad_char_ok : pad_char ctab = Ok (conv_fun ctab 32).
Proof. rewrite <- conv_ok by (unfold is_byte; lia). unfold pad_char. by destruct ctab. Qed.

(** Up to a newline or as far as it gets. *)
Lemma copy_prefix l : ∀ m bi bo pre x post o opost maxlen cnt chr, lines_free l → Forall is_byte l → bi ≠ bo →
  holds m bi pre (l ++ x) post → holds m bo [] o opost → (length l <= maxlen)%nat → (length l <= length opost)%nat →
  ∃ m' chr', copy_record ctab maxlen m bi bo (length pre) (length o) cnt chr
      = copy_record ctab (maxlen - length l) m' bi bo (length (pre ++ l)) (length o + length l) (cnt + length l) chr'
    ∧ holds m' bo [] (o ++ (conv_fun ctab <$> l)) (drop (length l) opost) ∧ (∀ b, b ≠ bo → m' !! b = m !! b)
    ∧ (l = [] → chr' = chr) ∧ (l ≠ [] → chr' ≠ 10).
Proof.
  induction l as [|c l IH]; intros m bi bo pre x post o opost maxlen cnt chr Hl HB Hne Hi Ho Hm Hp.
  - exists m, chr. cbn. rewrite Nat.sub_0_r, !Nat.add_0_r, !app_nil_r. by split_and!.
  - destruct maxlen as [|maxlen]; [simpl in Hm; lia|]. cbn [length] in *. apply Forall_cons_1 in Hl as [Hc Hl]. apply Forall_cons_1 in HB as [HBc HB].
    cbn [copy_record]. rewrite (rd1_holds _ _ _ _ _ _ Hi). cbn [res_bind]. rewrite (proj2 (Z.eqb_neq c 10)) by done.
    rewrite conv_ok by done. cbn [res_bind].
    destruct (wrn_at m bo o opost [conv_fun ctab c] Ho) as (m1 & -> & H1 & H2); [simpl; lia|]. cbn [res_bind length] in *.
    destruct (IH m1 bi bo (pre ++ [c]) x post (o ++ [conv_fun ctab c]) (drop 1 opost) maxlen (S cnt) c) as (m2 & chr' & E & G1 & G2 & G3 & G4); try done.
    + unfold holds in *. rewrite H2 by done. by rewrite <- app_assoc.
    + lia.
    + rewrite length_drop. lia.
    + rewrite !length_app in *. cbn [length] in *. replace (S (length pre)) with (length pre + 1)%nat by lia.
      replace (S (length o)) with (length o + 1)%nat by lia. rewrite E.
      exists m2, chr'. split_and!.
      * f_equal; lia.
      * rewrite <- app_assoc in G1. rewrite drop_drop in G1. exact G1.
      * intros b Hb. by rewrite G2, H2.
      * done.
      * intros _. destruct l; [by rewrite G3|by apply G4].
Qed.

(** A short piece of a line, as much as there is. *)
Lemma copy_all m bi bo pre l post o opost chr : l ≠ [] → lines_free l → Forall is_byte l → bi ≠ bo →
  holds m bi pre l post → holds m bo [] o opost → (length l <= length opost)%nat →
  ∃ m' chr', copy_record ctab (length l) m bi bo (length pre) (length o) 0 chr
      = Ok (m', length (pre ++ l), (length o + length l)%nat, length l, chr')
    ∧ holds m' bo [] (o ++ (conv_fun ctab <$> l)) (drop (length l) opost) ∧ (∀ b, b ≠ bo → m' !! b = m !! b) ∧ chr' ≠ 10.
Proof.
  intros Hne Hl HB Hb Hi Ho Hp.
  destruct (copy_prefix l m bi bo pre [] post o opost (length l) 0 chr) as (m' & chr' & E & H1 & H2 & _ & H3); try done.
  { by rewrite app_nil_r. }
  rewrite E, Nat.sub_diag. cbn [copy_record Nat.add]. exists m', chr'. split_and!; [done|done|done|by apply H3].
Qed.

(** A line that ends in time. *)
Lemma copy_line m bi bo pre l y post o opost maxlen chr : lines_free l → Forall is_byte l → bi ≠ bo →
  holds m bi pre (l ++ 10 :: y) post → holds m bo [] o opost → (length l < maxlen)%nat → (length l <= length opost)%nat →
  ∃ m', copy_record ctab maxlen m bi bo (length pre) (length o) 0 chr
      = Ok (m', length (pre ++ l ++ [10]), (length o + length l)%nat, length l, 10)
    ∧ holds m' bo [] (o ++ (conv_fun ctab <$> l)) (drop (length l) opost) ∧ (∀ b, b ≠ bo → m' !! b = m !! b).
Proof.
  intros Hl HB Hb Hi Ho Hm Hp.
  destruct (copy_prefix l m bi bo pre (10 :: y) post o opost maxlen 0 chr) as (m' & chr' & E & H1 & H2 & _); try done; [lia|].
  rewrite E. destruct (maxlen - length l)%nat as [|k] eqn:Ek; [lia|]. cbn [copy_record Nat.add].
  rewrite (rd1_holds m' bi (pre ++ l) 10 y post) by (unfold holds in *; rewrite H2, Hi by done; by rewrite <- !app_assoc).
  cbn [res_bind]. change (10 =? 10) with true. cbn iota. exists m'. split_and!; [|done|done].
  rewrite !length_app. cbn [length]. do 4 f_equal. f_equal. lia.
Qed.

Lemma toss_ok m b pre x post : holds m b pre x post →
  (lines_free x ∧ toss m b (length pre) (length x) = Ok ((length pre + length x)%nat, 0%nat))
  ∨ ∃ l y, x = l ++ 10 :: y ∧ lines_free l ∧ toss m b (length pre) (length x) = Ok ((length pre + length l + 1)%nat, S (length y)).
Proof.
  revert pre. induction x as [|c x IH]; intros pre Hm; cbn [length toss].
  - left. rewrite Nat.add_0_r. split; [constructor|done].
  - rewrite (rd1_holds _ _ _ _ _ _ Hm). cbn [res_bind]. destruct (Z.eqb_spec c 10) as [->|Hc].
    + right. exists [], x. split; [done|]. split; [constructor|]. cbn. do 2 f_equal. lia.
    + specialize (IH (pre ++ [c])). rewrite length_app in IH. cbn [length] in IH.
      replace (S (length pre)) with (length pre + 1)%nat by lia.
      destruct IH as [[Hx ->]|(l & y & -> & Hl & ->)]; [unfold holds in *; by rewrite <- app_assoc| |].
      * left. split; [by constructor|]. do 2 f_equal. lia.
      * right. exists (c :: l), y. split; [done|]. split; [by constructor|]. cbn [length]. do 2 f_equal. lia.
Qed.

End loops.

Section block_copy.
Context (ddflags : Z) (istape : bool) (cbsz : nat) (ctab : option (list Z)) (ibs obs : nat).
Context (Hctab : ctab_ok ctab) (Hibs : (0 < ibs)%nat) (Hobs : (0 < obs)%nat) (Hcbsz : (0 < cbsz)%nat).
Context (Hbs : has ddflags C_BS = false) (Hsync : has ddflags C_SYNC = false) (Hswab : has ddflags C_SWAB = false)
  (Hosync : has ddflags C_OSYNC = false) (Hsparse : has ddflags C_SPARSE = false)
  (Hrec : has ddflags (C_BLOCK .| C_UNBLOCK) = true).

Notation outs := (out_side ddflags istape cbsz obs).

(** A record that has been put into the output buffer. *)
Lemma outs_record out o d d1 o1 ro rec post :
  outs out o d → dout d1 = mkIO 1 (length o1) (length o1) ro obs → o1 = o ++ rec →
  holds (dmem d1) 1 [] o1 post → length (o1 ++ post) = (obs + cbsz)%nat →
  ofile d1 = ofile d → pending d1 = pending d → writes d1 = writes d → outs (out ++ rec) o1 d1.
Proof.
  intros [_ _ Hs Hw Hp Hc Hd] Ho -> Hm Hl Ef Ep Ew.
  assert (logical d1 = logical d) as El by (unfold logical; by rewrite Ef, Ep).
  split; unfold sink_ok, closed in *; rewrite ?Ef, ?Ep, ?Ew, ?El; try done; [by eexists|by eexists|].
  by rewrite app_assoc, Hd.
Qed.

(** After the record loop: the beginning of a line, [a], at the start of the input buffer. *)
Record blocking (out a : list Z) (t : bool) (len r : nat) (d : dd) : Prop := {
  k_in : ∃ p, din d = mkIO 0 p (length a) r ibs;
  k_mem : ∃ post, holds (dmem d) 0 [] a post ∧ length (a ++ post) = len;
  k_trunc : intrunc d = t;
  k_out : ∃ o, outs out o d ∧ (length o < obs)%nat
}.

Lemma outs_mem out o d m post : outs out o d → holds m 1 [] o post → length (o ++ post) = (obs + cbsz)%nat → outs out o (set_mem d m).
Proof. intros [Ho _ Hs Hw Hp Hc Hd] Hm Hl. split; try done. by exists post. Qed.

(** The end of a turn of the record loop. *)
Lemma next_record out o d d1 rec post :
  outs out o d → dout d1 = dout d → length rec = cbsz →
  holds (dmem d1) 1 [] (o ++ rec) post → length ((o ++ rec) ++ post) = (obs + cbsz)%nat →
  ofile d1 = ofile d → pending d1 = pending d → writes d1 = writes d →
  ∃ d2 o2, (let o := dout d1 in let d := set_out d1 (with_cnt o (dbp o + cbsz) (dbcnt o + cbsz)) in
      if (dbsz o <=? dbcnt (dout d))%nat then dd_out ddflags istape false d else Ok d) = Ok d2
    ∧ outs (out ++ rec) o2 d2 ∧ (length o2 < obs)%nat ∧ din d2 = din d1 ∧ dmem d2 !! 0%nat = dmem d1 !! 0%nat
    ∧ intrunc d2 = intrunc d1.
Proof.
  intros Ho Ed Hr Hm Hl Ef Ep Ew. destruct (u_out _ _ _ _ _ _ _ Ho) as [ro Hout]. rewrite Ed, Hout. cbn.
  set (d3 := set_out d1 _).
  assert (outs (out ++ rec) (o ++ rec) d3) as Ho3.
  { eapply outs_record; try done. cbn. by rewrite length_app, Hr. }
  destruct (out_side_flush ddflags istape cbsz ibs obs Hibs Hobs Hcbsz Hsparse _ _ _ Ho3) as (d2 & o2 & E & H).
  rewrite length_app, Hr in E. rewrite E. by exists d2, o2.
Qed.

Lemma record_length l : length (record cbsz ctab l) = cbsz.
Proof. unfold record. rewrite length_app, length_fmap, length_take, length_replicate. lia. Qed.

(** The three ways a turn of the loop goes on after the copying. *)
Lemma short_turn d out o pre x post opost r m1 :
  outs out o d → (length o < obs)%nat → holds (dmem d) 0 pre x post → din d = mkIO 0 (length pre + length x) (length x) r ibs →
  intrunc d = false → x ≠ [] → lines_free x → (length x < cbsz)%nat →
  holds m1 1 [] (o ++ (conv_fun ctab <$> x)) (drop (length x) opost) → (length o + length opost = obs + cbsz)%nat →
  (∀ b, b ≠ 1%nat → m1 !! b = dmem d !! b) →
  let '(recs, a, t) := records cbsz ctab [] false x in
  ∃ d', (let* p := back (dbp (din d)) (dbcnt (din d)) in let* bs := rdn (dmem (set_mem d m1)) 0 p (dbcnt (din d)) in
         let* m := wrn (dmem (set_mem d m1)) 0 0 bs in Ok (set_mem (set_mem d m1) m)) = Ok d'
    ∧ blocking (out ++ recs) a t (length (pre ++ x ++ post)) r d'.
Proof.
  intros Ho Hlt Hm Hi Hit Hne Hf Hs H1 Hop H2. rewrite records_short by done. rewrite Hi. cbn [dbp dbcnt app dmem set_mem].
  assert (holds m1 0 [] (pre ++ x) post) as Hm1 by (unfold holds in *; rewrite H2, Hm by done; by rewrite <- app_assoc).
  destruct (reassemble m1 0 (pre ++ x) post (length pre) Hm1) as (m2 & post2 & E & G1 & G2 & G3); [rewrite length_app; lia|].
  rewrite length_app, drop_app_length in *. replace (length pre + length x - length pre)%nat with (length x) in E by lia.
  rewrite (proj2 (Nat.eqb_neq (length x) 0)) in E by (by destruct x).
  apply res_bind_Ok in E as (p & -> & E). cbn [res_bind]. apply res_bind_Ok in E as (bs & -> & E). cbn [res_bind].
  rewrite E. cbn [res_bind]. exists (set_mem d m2). split; [done|]. rewrite app_nil_r. split; [by eexists| |done|].
  - exists post2. split; [done|]. rewrite !length_app in *. lia.
  - exists o. split; [|done]. apply (outs_mem _ _ _ _ ((conv_fun ctab <$> x) ++ drop (length x) opost)); [done| |].
    + unfold holds in *. rewrite G3 by done. by rewrite H1, <- app_assoc.
    + rewrite !length_app, length_fmap, length_drop. lia.
Qed.

(** The parts of the state that a turn leaves alone. *)
Definition same_output (d d1 : dd) : Prop :=
  dout d1 = dout d ∧ ofile d1 = ofile d ∧ pending d1 = pending d ∧ writes d1 = writes d.

(** The rest of a line after a full record. *)
Lemma toss_turn d pre x post i : holds (dmem d) 0 pre x post → db i = 0%nat →
  ∃ d1 inp1 n, (let* next := if (length x =? 0)%nat then Ok 0 else rd1 (dmem d) (db i) (length pre) in
      let d := if (length x =? 0)%nat || negb (next =? 10) then count_trunc d else d in
      let* (inp, rest) := toss (dmem d) (db i) (length pre) (length x) in
      if (rest =? 0)%nat then Ok (set_intrunc (set_in d (with_cnt i (dbp i) 0)) true, inp)
      else Ok (set_in d (with_cnt i (dbp i) (rest - 1)%nat), inp)) = Ok (d1, inp1)
    ∧ same_output d d1 ∧ dmem d1 = dmem d ∧ din d1 = with_cnt i (dbp i) n
    ∧ (lines_free x ∧ n = 0%nat ∧ intrunc d1 = true
       ∨ ∃ l y, x = l ++ 10 :: y ∧ lines_free l ∧ n = length y ∧ inp1 = length (pre ++ l ++ [10]) ∧ intrunc d1 = intrunc d).
Proof.
  intros Hm Hi. rewrite Hi.
  assert (∃ next, (if (length x =? 0)%nat then Ok 0 else rd1 (dmem d) 0 (length pre)) = Ok next) as [next ->].
  { destruct x as [|c x]; [by eexists|]. exists c. by eapply rd1_holds. }
  cbn [res_bind]. set (d0 := if (length x =? 0)%nat || negb (next =? 10) then count_trunc d else d).
  assert (dmem d0 = dmem d ∧ same_output d d0 ∧ intrunc d0 = intrunc d) as (Em & Hs & Et) by (unfold d0, same_output; by case_match).
  rewrite Em. destruct (toss_ok _ _ _ _ _ Hm) as [[Hf ->]|(l & y & -> & Hl & ->)]; cbn [res_bind].
  - eexists _, _, _. split; [done|]. split_and!; try done; try apply Hs. by left.
  - cbn [Nat.eqb]. eexists _, _, _. split; [done|]. split_and!; try done; try apply Hs. right. exists l, y.
    split_and!; try done; [cbn; lia|rewrite !length_app; cbn; lia].
Qed.

Lemma record_full l : length l = cbsz → record cbsz ctab l = conv_fun ctab <$> l.
Proof. intros Hl. unfold record. rewrite take_ge by lia. by rewrite Hl, Nat.sub_diag, app_nil_r. Qed.

Lemma record_line l : (length l < cbsz)%nat → record cbsz ctab l = (conv_fun ctab <$> l) ++ replicate (cbsz - length l) (conv_fun ctab 32).
Proof. intros Hl. unfold record. by rewrite take_ge by lia. Qed.

Lemma block_loop_ok fuel : ∀ d out o pre x post r chr,
  (length x < fuel)%nat → outs out o d → (length o < obs)%nat → holds (dmem d) 0 pre x post →
  din d = mkIO 0 (length pre + length x) (length x) r ibs → intrunc d = false → Forall is_byte x →
  let '(recs, a, t) := records cbsz ctab [] false x in
  ∃ d', block_loop ddflags cbsz ctab istape fuel d (length pre) chr = Ok d'
    ∧ blocking (out ++ recs) a t (length (pre ++ x ++ post)) r d'.
Proof.
  induction fuel as [|fuel IH]; intros d out o pre x post r chr Hf Ho Hlt Hm Hi Hit HB; [lia|].
  cbn [block_loop]. rewrite Hi. cbn [dbcnt db dbp].
  destruct (Nat.eqb_spec (length x) 0) as [E0|E0].
  { assert (x = []) as -> by (by destruct x). cbn [records]. rewrite app_nil_r. exists d. split; [done|].
    split; [by eexists| |done|by exists o]. exists (pre ++ post). unfold holds in *. by split. }
  pose proof Ho as [(ro & Hout) (opost & Hom & Hol) _ _ _ _ _]. rewrite length_app in Hol. rewrite Hout. cbn [db dbp].
  set (maxlen := Nat.min cbsz (length x)). assert (length (take maxlen x) = maxlen) as Hlt' by (rewrite length_take; lia).
  destruct (find_newline (take maxlen x)) as [Hfree|(l & y0 & Ex & Hfree)].
  - destruct (copy_all ctab Hctab (dmem d) 0 1 pre (take maxlen x) (drop maxlen x ++ post) o opost chr) as (m1 & chr' & E & H1 & H2 & Hchr); try done.
    { intros E. rewrite E in Hlt'. simpl in Hlt'. lia. }
    { by apply Forall_take. }
    { unfold holds in *. by rewrite (app_assoc (take maxlen x)), take_drop. }
    { lia. }
    rewrite Hlt' in E. rewrite E. cbn [res_bind]. rewrite (proj2 (Z.eqb_neq chr' 10)) by done. cbn [negb andb].
    rewrite Hlt' in H1. destruct (Nat.ltb_spec (length x) cbsz) as [Hshort|Hlong].
    + assert (take maxlen x = x) as Et by (apply take_ge; lia). rewrite Et in *.
      assert (maxlen = length x) as Eml by lia. rewrite Eml in H1.
      pose proof (short_turn d out o pre x post opost r m1 Ho Hlt Hm Hi Hit ltac:(by intros ->) Hfree Hshort H1 Hol H2) as H.
      rewrite Hi in H. exact H.
    + assert (maxlen = cbsz) as Em by lia. rewrite Em in *. cbv zeta. rewrite (proj2 (Nat.ltb_ge (length x) cbsz)), Nat.ltb_irrefl by lia.
      set (d0 := set_in (set_mem d m1) _).
      destruct (toss_turn d0 (pre ++ take cbsz x) (drop cbsz x) post (din d)) as (d1 & inp1 & n & Et & (Eo & Ef & Ep & Ew) & Edm & Edi & Hcase).
      { unfold holds, d0 in *. cbn. rewrite H2, Hm by done. by rewrite <- app_assoc, (app_assoc (take cbsz x)), take_drop. }
      { by rewrite Hi. }
      rewrite length_drop, Hi in Et. cbn [db dbp] in Et. rewrite Et. cbn [res_bind]. clear Et.
      destruct (next_record out o d d1 (conv_fun ctab <$> take cbsz x) (drop cbsz opost)) as (d2 & o2 & E2 & Ho2 & Hlt2 & Ei2 & Em2 & Ei3); try done.
      { by rewrite length_fmap. }
      { by rewrite Edm. }
      { rewrite !length_app, length_fmap, length_drop. lia. }
      cbv zeta in E2. rewrite E2. cbn [res_bind]. clear E2.
      pose proof (records_app cbsz ctab [] false (take cbsz x) (drop cbsz x)) as Hr. rewrite take_drop in Hr.
      rewrite (records_full cbsz ctab []) in Hr by (done || (simpl; lia)). cbn [app] in Hr. rewrite record_full in Hr by done.
      destruct Hcase as [(Hf2 & -> & Hit2)|(l2 & y & Ex2 & Hl2 & -> & -> & Hit2)].
      * rewrite records_skip in Hr by done. rewrite Hr, app_nil_r. destruct fuel as [|fuel]; [lia|].
        exists d2. cbn [block_loop]. rewrite Ei2, Edi, Hi. cbn [dbcnt with_cnt Nat.eqb]. split; [done|].
        split; [rewrite Ei2, Edi, Hi; by eexists| |by rewrite Ei3|by exists o2].
        exists (pre ++ x ++ post). split; [|done]. unfold holds in *. rewrite Em2, Edm. cbn. by rewrite H2, Hm.
      * pose proof (f_equal length Ex2) as El. rewrite length_drop, !length_app in El. cbn [length] in El.
        specialize (IH d2 (out ++ (conv_fun ctab <$> take cbsz x)) o2 ((pre ++ take cbsz x) ++ l2 ++ [10]) y post r chr').
        assert (((pre ++ take cbsz x) ++ l2 ++ [10]) ++ y ++ post = pre ++ x ++ post) as Eall.
        { rewrite <- (take_drop cbsz x) at 2. rewrite Ex2, <- !app_assoc. done. }
        pose proof (records_line cbsz ctab l2 y Hcbsz Hl2) as Hr2. rewrite Ex2 in Hr.
        assert (records cbsz ctab [] true (l2 ++ 10 :: y) = records cbsz ctab [] false y) as Hr3.
        { pose proof (records_app cbsz ctab [] true l2 (10 :: y)) as H. rewrite records_skip in H by done. cbn [records] in H.
          change (10 =? 10) with true in H. cbn [negb] in H. destruct (records cbsz ctab [] false y) as [[? ?] ?]. by rewrite H. }
        rewrite Hr3 in Hr. destruct (records cbsz ctab [] false y) as [[recs a] t]. rewrite Hr, (app_assoc out), <- Eall.
        apply IH; [lia|done|done| | |by rewrite Ei3, Hit2|].
        -- unfold holds in *. rewrite Em2, Edm. cbn. by rewrite H2, Hm, <- Eall by done.
        -- rewrite Ei2, Edi, Hi. unfold with_cnt. cbn. f_equal. rewrite !length_app, Hlt'. cbn. lia.
        -- assert (Forall is_byte (drop cbsz x)) as HB2 by by apply Forall_drop.
           rewrite Ex2 in HB2. apply Forall_app in HB2 as [_ HB2]. by apply Forall_cons_1 in HB2 as [_ HB2].
  - assert (x = l ++ 10 :: (y0 ++ drop maxlen x)) as Ex1 by (rewrite <- (take_drop maxlen x) at 1; rewrite Ex, <- app_assoc; done).
    set (y := y0 ++ drop maxlen x) in *.
    pose proof (f_equal length Ex) as El. rewrite Hlt', length_app in El. cbn [length] in El.
    pose proof (f_equal length Ex1) as El1. rewrite length_app in El1. cbn [length] in El1.
    rewrite Ex1 in HB. apply Forall_app in HB as [HBl HBy]. apply Forall_cons_1 in HBy as [_ HBy].
    destruct (copy_line ctab Hctab (dmem d) 0 1 pre l y post o opost maxlen chr) as (m1 & E & H1 & H2); try done; [by rewrite <- Ex1|lia|lia|].
    rewrite E. cbn [res_bind]. clear E. change (10 =? 10) with true. cbn [negb andb]. cbv zeta.
    rewrite (proj2 (Nat.ltb_ge (length x) (S (length l)))), (proj2 (Nat.ltb_lt (length l) cbsz)) by lia.
    rewrite pad_char_ok by done. cbn [res_bind]. cbn [dmem set_in set_mem dout]. rewrite Hout. cbn [db].
    replace (length o + length l)%nat with (length (o ++ (conv_fun ctab <$> l))) by (by rewrite length_app, length_fmap).
    destruct (wrn_at m1 1 _ _ (replicate (cbsz - length l) (conv_fun ctab 32)) H1) as (m2 & -> & G1 & G2).
    { rewrite length_replicate, length_drop. lia. }
    cbn [res_bind]. rewrite length_replicate, drop_drop, <- app_assoc, <- record_line in G1 by lia.
    set (d1 := set_mem _ m2).
    destruct (next_record out o d d1 (record cbsz ctab l) _ Ho eq_refl (record_length l) G1) as (d2 & o2 & E2 & Ho2 & Hlt2 & Ei2 & Em2 & Ei3); try done.
    { rewrite !length_app, record_length, length_drop. lia. }
    cbv zeta in E2. rewrite E2. cbn [res_bind]. clear E2.
    specialize (IH d2 (out ++ record cbsz ctab l) o2 (pre ++ l ++ [10]) y post r 10).
    assert ((pre ++ l ++ [10]) ++ y ++ post = pre ++ x ++ post) as Eall by (rewrite Ex1, <- !app_assoc; done).
    assert (records cbsz ctab [] false x = records cbsz ctab [] false (l ++ 10 :: y)) as -> by by rewrite <- Ex1.
    rewrite records_line by done.
    destruct (records cbsz ctab [] false y) as [[recs a] t]. rewrite (app_assoc out), <- Eall. apply IH; [lia|done|done| | |by rewrite Ei3|done].
    + unfold holds in *. rewrite Em2. cbn. by rewrite G2, H2, Hm, <- Eall by done.
    + rewrite Ei2. cbn. unfold with_cnt. cbn. f_equal; [|lia]. rewrite !length_app. cbn. lia.
Qed.

(** Between two reads: [a] is the beginning of a line, all of it in the input buffer. *)
Record blocked (out a : list Z) (t : bool) (d : dd) : Prop := {
  bd_in : ∃ r, din d = mkIO 0 (length a) (length a) r ibs;
  bd_mem : ∃ post, holds (dmem d) 0 [] a post ∧ length (a ++ post) = (Nat.max ibs cbsz + cbsz)%nat;
  bd_trunc : intrunc d = t;
  bd_line : lines_free a ∧ Forall is_byte a ∧ (length a < cbsz)%nat ∧ (t = true → a = []);
  bd_out : ∃ o, outs out o d ∧ (length o < obs)%nat
}.

Lemma records_acc acc t x : lines_free acc ∧ Forall is_byte acc ∧ (length acc < cbsz)%nat ∧ (t = true → acc = []) → Forall is_byte x →
  let '(_, a, t') := records cbsz ctab acc t x in lines_free a ∧ Forall is_byte a ∧ (length a < cbsz)%nat ∧ (t' = true → a = []).
Proof.
  intros H Hx. revert acc t H. induction Hx as [|c x Hc Hx IH]; intros acc t (Hl & Hb & Ha & Ht); cbn [records]; [done|].
  assert (∀ b, lines_free [] ∧ Forall is_byte [] ∧ (length (@nil Z) < cbsz)%nat ∧ (b = true → @nil Z = [])) as Hnil.
  { intros b. split_and!; try done; constructor. }
  destruct t; [apply IH, Hnil|]. destruct (Z.eqb_spec c 10); [|destruct (Nat.eqb_spec (S (length acc)) cbsz)].
  - specialize (IH [] false (Hnil _)). by destruct (records cbsz ctab [] false x) as [[? ?] ?].
  - specialize (IH [] true (Hnil _)). by destruct (records cbsz ctab [] true x) as [[? ?] ?].
  - apply IH. split_and!; [apply Forall_app; split; [done|by constructor]|apply Forall_app; split; [done|by constructor]|rewrite length_app; simpl; lia|done].
Qed.

(** [block] on the bytes in the input buffer. *)
Lemma block_ok d out o a t bs post :
  outs out o d → (length o < obs)%nat → holds (dmem d) 0 [] (a ++ bs) post → length ((a ++ bs) ++ post) = (Nat.max ibs cbsz + cbsz)%nat →
  din d = mkIO 0 (length a + length bs) (length a + length bs) (length bs) ibs → intrunc d = t →
  lines_free a ∧ Forall is_byte a ∧ (length a < cbsz)%nat ∧ (t = true → a = []) → Forall is_byte bs →
  let '(recs, a', t') := records cbsz ctab a t bs in
  ∃ d', block ddflags cbsz ctab istape d = Ok d' ∧ blocked (out ++ recs) a' t' d'.
Proof.
  intros Ho Hlt Hm Hl Hi Hit Hline HB. pose proof (records_acc a t bs Hline HB) as Hacc. destruct Hline as (Hfree & HBa & Hla & Ht).
  unfold block. rewrite Hit, Hi. cbn [db dbrcnt dbp dbcnt].
  assert (∀ d1 pre x n, outs out o d1 → holds (dmem d1) 0 pre x post → pre ++ x = a ++ bs → intrunc d1 = false →
    din d1 = mkIO 0 (length pre + length x) (length x) n ibs → records cbsz ctab [] false x = records cbsz ctab a t bs →
    let '(recs, a', t') := records cbsz ctab a t bs in
    ∃ d', (let* inp := back (dbp (din d1)) (dbcnt (din d1)) in let* d := block_loop ddflags cbsz ctab istape (S (dbcnt (din d1))) d1 inp 0 in
           Ok (set_in d (with_cnt (din d) (dbcnt (din d)) (dbcnt (din d))))) = Ok d' ∧ blocked (out ++ recs) a' t' d') as Hloop.
  { intros d1 pre x n Ho1 Hm1 Ex Hit1 Hi1 Er. rewrite Hi1. cbn [dbp dbcnt]. unfold back. rewrite (proj2 (Nat.leb_le _ _)) by lia.
    replace (length pre + length x - length x)%nat with (length pre) by lia. cbn [res_bind].
    assert (Forall is_byte (pre ++ x)) as HBx by (rewrite Ex; by apply Forall_app). apply Forall_app in HBx as [_ HBx].
    pose proof (block_loop_ok (S (length x)) d1 out o pre x post n 0 ltac:(lia) Ho1 Hlt Hm1 Hi1 Hit1 HBx) as H.
    rewrite Er in H. destruct (records cbsz ctab a t bs) as [[recs a'] t']. destruct H as (d' & -> & [(p & Ki) (post' & Km & Kl) Kt (o' & Ko & Kol)]).
    cbn [res_bind]. eexists. split; [done|]. split; [by eexists; cbn; rewrite Ki| |done|done|].
    - exists post'. split; [done|]. rewrite Kl, app_assoc, Ex. exact Hl.
    - exists o'. split; [by destruct Ko; split|done]. }
  destruct t.
  - specialize (Ht eq_refl) as ->. cbn [length app Nat.add] in *.
    destruct (toss_ok (dmem d) 0 [] bs post Hm) as [[Hf E]|(l & y & -> & Hf & E)]; cbn [length] in E; rewrite E; cbn [res_bind Nat.eqb].
    + rewrite records_skip by done. rewrite app_nil_r. eexists. split; [done|]. split; [by eexists| |done| |exists o; split; [by destruct Ho; split|done]].
      * exists (bs ++ post). by split.
      * split_and!; try done; constructor.
    + apply (Hloop _ (l ++ [10]) y (length (l ++ 10 :: y))).
      * by destruct Ho; split.
      * unfold holds in *. cbn. rewrite Hm. by rewrite <- !app_assoc.
      * by rewrite <- app_assoc.
      * done.
      * cbn. unfold with_cnt. cbn. f_equal; rewrite ?length_app; cbn; lia.
      * pose proof (records_app cbsz ctab [] true l (10 :: y)) as H. rewrite records_skip in H by done. cbn [records] in H.
        change (10 =? 10) with true in H. cbn [negb] in H. destruct (records cbsz ctab [] false y) as [[? ?] ?]. by rewrite H.
  - cbn [res_bind]. apply (Hloop d [] (a ++ bs) (length bs)); try done.
    + by rewrite length_app.
    + pose proof (records_app cbsz ctab [] false a bs) as H. rewrite records_short in H by done. cbn [app] in H.
      destruct (records cbsz ctab a false bs) as [[? ?] ?]. by rewrite H.
Qed.

Lemma block_step out a t d bs :
  blocked out a t d → bs ≠ [] → (length bs <= ibs)%nat → Forall is_byte bs →
  let '(recs, a', t') := records cbsz ctab a t bs in
  ∃ d', (let* m := wrn (dmem d) (db (din d)) (dbp (din d)) bs in
         in_block ddflags cbsz ctab istape Block (set_mem d m) (length bs) (length bs =? dbsz (din d))%nat) = Ok d'
    ∧ blocked (out ++ recs) a' t' d'.
Proof.
  intros [(ri & Ci) (post & Hm & Hlen) Ht Hline (o & Hu & Ho)] Hne Hb Hbytes. rewrite length_app in Hlen.
  destruct (wrn_at (dmem d) 0 a post bs Hm) as (m1 & E1 & Hm1 & Hm1'); [lia|].
  rewrite Ci. cbn [db dbp dbsz]. rewrite E1. cbn [res_bind]. unfold in_block. rewrite Hbs, Hswab. cbn [din set_mem].
  rewrite Ci. cbn [res_bind run_cfunc].
  match goal with |- context [block _ _ _ _ ?x] => set (d1 := x) end.
  apply (block_ok d1 out o a t bs (drop (length bs) post)); try done.
  - destruct Hu as [Hu1 (opost & Hu2 & Hu3) Hu4 Hu5 Hu6 Hu7 Hu8]. split; try done.
    exists opost. split; [|done]. unfold holds in *. cbn. by rewrite Hm1'.
  - rewrite !length_app, length_drop. lia.
Qed.

Lemma dd_in_blocking reads out a t d :
  Forall (reads_ok ibs) reads → blocked out a t d →
  let '(recs, a', t') := records cbsz ctab a t (input_bytes reads) in
  ∃ d', dd_in ddflags cbsz ctab 0 istape Block reads d = Ok d' ∧ blocked (out ++ recs) a' t' d'.
Proof.
  intros Hr. revert out a t d. induction Hr as [|r reads Hr Hrs IH]; intros out a t d Hk.
  all: assert (Hset : set_mem d (dmem d) = d) by (by destruct d).
  all: assert (Hstop : blocked out a t (set_in d (with_rcnt (din d) (dbcnt (din d)) 0)))
    by (destruct Hk as [(? & Hi) Hm Ht Hl (o & [] & Ho)]; split; try done; [by eexists; cbn; rewrite Hi|exists o; by split]).
  all: cbn [dd_in]; rewrite Hsync; cbn [negb andb Z.eqb res_bind]; rewrite Hset.
  - cbn [input_bytes records]. rewrite app_nil_r. by eexists.
  - destruct r as [[|b bs]|]; [|destruct Hr as [Hl Hb]|done].
    + cbn [input_bytes records]. rewrite app_nil_r. by eexists.
    + pose proof (block_step out a t d (b :: bs) Hk ltac:(done) Hl Hb) as Hstep.
      assert (Hsz : dbsz (din d) = ibs) by (by destruct Hk as [(? & ->)]). rewrite Hsz in Hstep |- *.
      rewrite take_ge by done. change (input_bytes (Read (b :: bs) :: reads)) with ((b :: bs) ++ input_bytes reads).
      pose proof (records_app cbsz ctab a t (b :: bs) (input_bytes reads)) as Happ.
      destruct (records cbsz ctab a t (b :: bs)) as [[recs1 a1] t1]. destruct Hstep as (d1 & E1 & Hk1).
      specialize (IH (out ++ recs1) a1 t1 d1 Hk1).
      destruct (records cbsz ctab a1 t1 (input_bytes reads)) as [[recs2 a2] t2]. rewrite Happ, app_assoc.
      destruct IH as (d' & E & Hk'). exists d'. split; [|done].
      replace (if (length (b :: bs) =? ibs)%nat then length (b :: bs) else length (b :: bs)) with (length (b :: bs)) by by case_match.
      apply res_bind_Ok in E1 as (m & -> & E1). cbn [res_bind]. rewrite E1. exact E.
Qed.

Lemma dd_close_blocking out a t d : blocked out a t d →
  ∃ d', dd_close ddflags cbsz ctab istape Block d = Ok d'
    ∧ f_data (ofile d') = out ++ (if (length a =? 0)%nat then [] else a ++ replicate (cbsz - length a) (conv_fun ctab 32)).
Proof.
  intros [(r & Hi) (post & Hm & Hml) _ (_ & _ & Hla & _) (o & Hu & Ho)].
  set (x := if (length a =? 0)%nat then [] else _).
  assert (H1 : ∃ d1, block_close cbsz ctab d = Ok d1 ∧ outs (out ++ x) (o ++ x) (set_out d1 (with_dbp (dout d1) (length (o ++ x))))).
  { unfold block_close. rewrite Hi. cbn [dbcnt db dbp]. unfold x.
    destruct (Nat.eqb_spec (length a) 0) as [|Hne]; [exists d; rewrite !app_nil_r; split; [done|]; destruct Hu as [(ro & Hout) ? ? ? ? ? ?]; by split; try done; exists ro; cbn; rewrite Hout|].
    pose proof Hu as [(ro & Hout) (opost & Hom & Hol) _ _ _ _ _]. rewrite length_app in Hol.
    rewrite Hout. cbn [db dbp dbcnt]. unfold back. rewrite Nat.leb_refl, Nat.sub_diag. cbn [res_bind]. cbn [count_trunc set_st dmem].
    pose proof (rdn_holds (dmem d) 0 [] a post Hm) as Er. cbn [length] in Er. rewrite Er. cbn [res_bind]. clear Er.
    destruct (wrn_at (dmem d) 1 o opost a Hom) as (m1 & -> & G1 & G2); [lia|]. cbn [res_bind]. rewrite pad_char_ok by done. cbn [res_bind].
    rewrite <- length_app.
    destruct (wrn_at m1 1 (o ++ a) (drop (length a) opost) (replicate (cbsz - length a) (conv_fun ctab 32)) G1) as (m2 & -> & G3 & G4).
    { rewrite length_replicate, length_drop. lia. }
    cbn [res_bind]. eexists. split; [done|]. rewrite length_replicate, drop_drop in G3.
    replace (length a + (cbsz - length a))%nat with cbsz in G3 by lia.
    eapply (outs_record out o d _ _ ro _ (drop cbsz opost)); try done.
    - unfold with_dbp, with_cnt. cbn [db dbcnt dbrcnt dbsz dout set_out set_mem]. f_equal. rewrite !length_app, length_replicate. lia.
    - cbn. by rewrite <- app_assoc in G3.
    - rewrite !length_app, length_replicate, length_drop. lia. }
  destruct H1 as (d1 & E1 & Hu1). by apply (dd_close_out ddflags istape cbsz ctab ibs obs Hibs Hobs Hcbsz Hosync Block d d1 _ _ E1 Hu1).
Qed.

Lemma run_blocks reads ws ls l :
  Forall (reads_ok ibs) reads → writes_ok ddflags istape ws → Forall lines_free ls → lines_free l →
  input_bytes reads = concat (map (λ l, l ++ [10]) ls) ++ l →
  ∃ d, dd_run ddflags cbsz ctab 0 istape Block ibs obs reads (mkSink [] 0) ws = Ok d
    ∧ f_data (ofile d) = concat (map (record cbsz ctab) ls) ++ last_record cbsz ctab l.
Proof.
  intros Hr Hw Hls Hl Hin. unfold dd_run, dd_start, setup_mem. rewrite Hrec. cbn [negb].
  set (d0 := mkDD _ _ _ _ _ _ _ _).
  assert (blocked [] [] false d0) as H0.
  { split; try done; [by eexists| | |].
    - exists (replicate (Nat.max ibs cbsz + cbsz) 0). split; [done|]. apply length_replicate.
    - split_and!; try done; constructor.
    - exists []. split; [|done]. split; try done; [by eexists|].
      exists (replicate (obs + cbsz) 0). split; [done|]. apply length_replicate. }
  pose proof (dd_in_blocking reads [] [] false d0 Hr H0) as H. rewrite Hin, records_lines in H by done.
  pose proof (records_last cbsz ctab l Hcbsz Hl) as Hlast. destruct (records cbsz ctab [] false l) as [[recs a] t].
  destruct H as (d1 & -> & H1). cbn [res_bind]. destruct (dd_close_blocking _ _ _ _ H1) as (d & -> & Hd).
  exists d. split; [done|]. rewrite Hd, <- Hlast. cbn [app]. by rewrite <- app_assoc.
Qed.

(** conv=block turns each line of its input into a record: its converted characters up
    to the record size, padded with converted blanks; whatever the block sizes and however
    reads and writes are cut, and without overrunning a buffer.  What follows the last
    newline becomes a record too (not converted when it is short). *)
Theorem dd_blocks reads ws ls l :
  Forall (reads_ok ibs) reads → writes_ok ddflags istape ws → Forall lines_free ls → lines_free l →
  input_bytes reads = concat (map (λ l, l ++ [10]) ls) ++ l →
  ∃ d, dd_run ddflags cbsz ctab 0 istape Block ibs obs reads (mkSink [] 0) ws = Ok d
    ∧ f_data (ofile d) = concat (map (record cbsz ctab) ls) ++ last_record cbsz ctab l.
Proof. apply run_blocks. Qed.

End block_copy.

Lemma dd_blocks_witness :
  ∃ d, dd_run C_BLOCK 3 None 0 false Block 4 5
      [Read (str "ab" ++ [10]); Read (str "cdef"); Read ([10] ++ str "g")] (mkSink [] 0) [Accept 2] = Ok d ∧
    f_data (ofile d) = str "ab " ++ str "cde" ++ str "g  ".
Proof.
  apply (dd_blocks C_BLOCK false 3 None 4 5) with (ls := [str "ab"; str "cdef"]) (l := str "g"); try done; try lia.
  - repeat constructor; cbn; try lia; done.
  - split; [repeat constructor; cbn; lia|]. by split.
  - repeat constructor; lia.
  - repeat constructor; lia.
Defined.
