(* ===== verification/Mem.v ===== *)
(** * Memory objects

    An object is the list of its bytes.  Accesses outside of it are faults; the two
    operations are [memcpy] from an object and [memcpy] (or [memset]) into it. *)

From S2P Require Import Prelude.

Definition mget (m : list Z) (off n : nat) : res (list Z) :=
  if (off + n <=? length m)%nat then Ok (take n (drop off m)) else Fault.

Definition mput (m : list Z) (off : nat) (bs : list Z) : res (list Z) :=
  if (off + length bs <=? length m)%nat
  then Ok (take off m ++ bs ++ drop (off + length bs) m) else Fault.

Definition mset (m : list Z) (off : nat) (c : Z) (n : nat) : res (list Z) :=
  mput m off (replicate n c).

Lemma mget_ok m off n :
  (off + n <= length m)%nat → mget m off n = Ok (take n (drop off m)).
Proof. intros H. unfold mget. by destruct (Nat.leb_spec (off + n) (length m)); [|lia]. Qed.

Lemma mget_safe E (P : Z → Prop) m off n :
  (off + n <= length m)%nat → Forall P m →
  safe_or E (λ bs, length bs = n ∧ Forall P bs) (mget m off n).
Proof.
  intros H Hm. rewrite mget_ok by done. cbn. rewrite length_take, length_drop.
  split; [lia|]. by apply Forall_take, Forall_drop.
Qed.

Lemma mput_ok m off bs :
  (off + length bs <= length m)%nat →
  mput m off bs = Ok (take off m ++ bs ++ drop (off + length bs) m).
Proof. intros H. unfold mput. by destruct (Nat.leb_spec (off + length bs) (length m)); [|lia]. Qed.

Lemma mput_length (m : list Z) off bs :
  (off + length bs <= length m)%nat →
  length (take off m ++ bs ++ drop (off + length bs) m) = length m.
Proof. intros H. rewrite !length_app, length_take, length_drop. lia. Qed.

Lemma mput_safe E (P : Z → Prop) m off bs :
  (off + length bs <= length m)%nat → Forall P m → Forall P bs →
  safe_or E (λ m', length m' = length m ∧ Forall P m') (mput m off bs).
Proof.
  intros H Hm Hbs. rewrite mput_ok by done. cbn. rewrite mput_length by done. split; [done|].
  rewrite !Forall_app. split_and!; [by apply Forall_take|done|by apply Forall_drop].
Qed.

(** What is written is read back, and the rest of the object stays. *)
Lemma mput_inside (m : list Z) off bs :
  (off <= length m)%nat →
  take (length bs) (drop off (take off m ++ bs ++ drop (off + length bs) m)) = bs.
Proof.
  intros H. rewrite drop_app_length' by (rewrite length_take; lia). by rewrite take_app_length.
Qed.

Lemma mput_before (m : list Z) off bs i :
  (i <= off)%nat → (off <= length m)%nat →
  take i (take off m ++ bs ++ drop (off + length bs) m) = take i m.
Proof.
  intros Hi Ho. rewrite take_app_le by (rewrite length_take; lia). rewrite take_take. f_equal. lia.
Qed.

Lemma mput_after (m : list Z) off bs i :
  (off + length bs <= i)%nat → (off <= length m)%nat →
  drop i (take off m ++ bs ++ drop (off + length bs) m) = drop i m.
Proof.
  intros Hi Ho. rewrite app_assoc, drop_app_ge by (rewrite length_app, length_take; lia).
  rewrite length_app, length_take, drop_drop. f_equal. lia.
Qed.


Lemma mset_prefix m c n :
  (n <= length m)%nat → mset m 0 c n = Ok (replicate n c ++ drop n m).
Proof.
  intros H. unfold mset. rewrite mput_ok by (rewrite length_replicate; lia).
  by rewrite take_0, length_replicate.
Qed.

Lemma mset_whole m c n : n = length m → mset m 0 c n = Ok (replicate n c).
Proof. intros ->. rewrite mset_prefix by lia. by rewrite drop_all, app_nil_r. Qed.
