(* ===== verification/Chacha.v ===== *)
(** * ChaCha: include/netbsd/chacha_private.h

    The key and nonce setup and the keystream generator (the file is included with
    KEYSTREAM_ONLY).  Words are 32-bit values; a pointer is the bytes it can reach. *)

From S2P Require Import Prelude Mem.

Definition ROTL32 (v n : Z) : Z := u32 (Z.shiftl v n) .| Z.shiftr v (32 - n).
Definition PLUS (v w : Z) : Z := u32 (v + w).
Definition PLUSONE (v : Z) : Z := PLUS v 1.
Definition U8V (v : Z) : Z := u8 v .& 255.

Definition U8TO32_LITTLE (p : list Z) (off : nat) : res Z :=
  let* b := mget p off 4 in
  Ok (b !!! 0%nat .| Z.shiftl (b !!! 1%nat) 8 .| Z.shiftl (b !!! 2%nat) 16
      .| Z.shiftl (b !!! 3%nat) 24).

Definition U32TO8_LITTLE (v : Z) : list Z :=
  [U8V v; U8V (Z.shiftr v 8); U8V (Z.shiftr v 16); U8V (Z.shiftr v 24)].

(** The context is its sixteen words; so are the variables [x0 .. x15]. *)
Definition chacha_ctx : Type := list Z.

Definition QUARTERROUND (x : list Z) (a b c d : nat) : list Z :=
  let x := <[a := PLUS (x !!! a) (x !!! b)]> x in
  let x := <[d := ROTL32 (Z.lxor (x !!! d) (x !!! a)) 16]> x in
  let x := <[c := PLUS (x !!! c) (x !!! d)]> x in
  let x := <[b := ROTL32 (Z.lxor (x !!! b) (x !!! c)) 12]> x in
  let x := <[a := PLUS (x !!! a) (x !!! b)]> x in
  let x := <[d := ROTL32 (Z.lxor (x !!! d) (x !!! a)) 8]> x in
  let x := <[c := PLUS (x !!! c) (x !!! d)]> x in
  <[b := ROTL32 (Z.lxor (x !!! b) (x !!! c)) 7]> x.

Definition sigma : list Z := str "expand 32-byte k".
Definition tau : list Z := str "expand 16-byte k".

(** Four words from the bytes at [off] of [p] to the words from [i]. *)
Definition set4 (x : chacha_ctx) (i : nat) (p : list Z) (off : nat) : res chacha_ctx :=
  let* w0 := U8TO32_LITTLE p off in
  let* w1 := U8TO32_LITTLE p (off + 4) in
  let* w2 := U8TO32_LITTLE p (off + 8) in
  let* w3 := U8TO32_LITTLE p (off + 12) in
  Ok (<[(i + 3)%nat := w3]> (<[(i + 2)%nat := w2]> (<[(i + 1)%nat := w1]> (<[i := w0]> x)))).

Definition chacha_keysetup (x : chacha_ctx) (k : list Z) (kbits : Z) : res chacha_ctx :=
  let* x := set4 x 4 k 0 in
  let* x := set4 x 8 k (if kbits =? 256 then 16 else 0) in
  set4 x 0 (if kbits =? 256 then sigma else tau) 0.

Definition chacha_ivsetup (x : chacha_ctx) (iv : list Z) : res chacha_ctx :=
  let x := <[13%nat := 0]> (<[12%nat := 0]> x) in
  let* w14 := U8TO32_LITTLE iv 0 in
  let* w15 := U8TO32_LITTLE iv 4 in
  Ok (<[15%nat := w15]> (<[14%nat := w14]> x)).

Definition double_round (x : list Z) : list Z :=
  let x := QUARTERROUND x 0 4 8 12 in
  let x := QUARTERROUND x 1 5 9 13 in
  let x := QUARTERROUND x 2 6 10 14 in
  let x := QUARTERROUND x 3 7 11 15 in
  let x := QUARTERROUND x 0 5 10 15 in
  let x := QUARTERROUND x 1 6 11 12 in
  let x := QUARTERROUND x 2 7 8 13 in
  QUARTERROUND x 3 4 9 14.

(** [for (i = 20; i > 0; i -= 2)]. *)
Definition rounds (n : nat) (x : list Z) : list Z := Nat.iter n double_round x.

Definition chacha_block (j : list Z) : list Z :=
  concat (map U32TO8_LITTLE (zip_with PLUS (rounds 10 j) j)).

Definition count_block (j : list Z) : list Z :=
  let j := <[12%nat := PLUSONE (j !!! 12%nat)]> j in
  if j !!! 12%nat =? 0 then <[13%nat := PLUSONE (j !!! 13%nat)]> j else j.

(** The loop: [c] is the output object and [off] where the pointer is in it.  A last
    block that is not whole is made in [tmp] and copied. *)
Fixpoint encrypt_loop (fuel : nat) (j : list Z) (c : list Z) (off : nat) (bytes : Z)
    : res (list Z * list Z) :=
  match fuel with
  | O => Fault
  | S fuel =>
      let bs := chacha_block j in
      let j := count_block j in
      if bytes <=? 64 then
        let* c := mput c off (if bytes <? 64 then take (Z.to_nat bytes) bs else bs) in Ok (j, c)
      else
        let* c := mput c off bs in
        encrypt_loop fuel j c (off + 64) (bytes - 64)
  end.

(** The context after and the output object after; [off] is where [c] points to. *)
Definition chacha_encrypt_bytes (x : chacha_ctx) (c : list Z) (off : nat) (bytes : Z)
    : res (chacha_ctx * list Z) :=
  if bytes =? 0 then Ok (x, c)
  else
    let* (j, c) := encrypt_loop (S (Z.to_nat bytes / 64)) x c off bytes in
    Ok (<[13%nat := j !!! 13%nat]> (<[12%nat := j !!! 12%nat]> x), c).

(** ** Words and states *)

Definition is_word (w : Z) : Prop := 0 <= w < 2 ^ 32.
Definition words (x : list Z) : Prop := length x = 16%nat ∧ Forall is_word x.

Lemma word_testbit w i : is_word w → 32 <= i → Z.testbit w i = false.
Proof. intros Hw Hi. rewrite <- (Z.mod_small w (2 ^ 32)) by done. by apply Z.mod_pow2_bits_high. Qed.

Lemma u32_testbit v i : Z.testbit (u32 v) i = (i <? 32) && Z.testbit v i.
Proof.
  unfold u32. destruct (Z.ltb_spec i 32); simpl.
  - destruct (Z.neg_nonneg_cases i); [by rewrite !Z.testbit_neg_r|by apply Z.mod_pow2_bits_low; lia].
  - apply Z.mod_pow2_bits_high. lia.
Qed.

Lemma word_lor a b : is_word a → is_word b → is_word (a .| b).
Proof.
  unfold is_word. intros Ha Hb. assert (0 <= a .| b) by (apply Z.lor_nonneg; lia).
  split; [done|]. replace (a .| b) with (u32 (a .| b)); [apply u32_range|].
  apply Z.bits_inj'. intros i Hi. rewrite u32_testbit. destruct (Z.ltb_spec i 32); [done|].
  rewrite Z.lor_spec, !word_testbit by done. done.
Qed.

Lemma word_lxor a b : is_word a → is_word b → is_word (Z.lxor a b).
Proof.
  unfold is_word. intros Ha Hb. assert (0 <= Z.lxor a b) by (apply Z.lxor_nonneg; lia).
  split; [done|]. replace (Z.lxor a b) with (u32 (Z.lxor a b)); [apply u32_range|].
  apply Z.bits_inj'. intros i Hi. rewrite u32_testbit. destruct (Z.ltb_spec i 32); [done|].
  rewrite Z.lxor_spec, !word_testbit by done. done.
Qed.

Lemma word_PLUS v w : is_word (PLUS v w).
Proof. apply u32_range. Qed.

(** [ROTL32] is the rotation: bit [i] of the result is bit [i - n] modulo 32. *)
Lemma ROTL32_testbit v n i :
  is_word v → 0 < n < 32 → 0 <= i →
  Z.testbit (ROTL32 v n) i = (i <? 32) && Z.testbit v ((i - n) mod 32).
Proof.
  intros Hv Hn Hi. unfold ROTL32. rewrite Z.lor_spec, u32_testbit, Z.shiftl_spec, Z.shiftr_spec by lia.
  destruct (Z.ltb_spec i 32); simpl; [|by apply word_testbit; [|lia]].
  destruct (Z.le_gt_cases n i).
  - rewrite (word_testbit v (i + (32 - n))) by (done || lia).
    rewrite orb_false_r, Z.mod_small by lia. done.
  - rewrite Z.testbit_neg_r by lia. simpl. f_equal.
    rewrite <- (Z.mod_add (i - n) 1 32), Z.mod_small by lia. lia.
Qed.

Lemma word_ROTL32 v n : is_word v → 0 < n < 32 → is_word (ROTL32 v n).
Proof.
  intros Hv Hn. unfold ROTL32. apply word_lor; [apply u32_range|]. unfold is_word in *.
  rewrite Z.shiftr_div_pow2 by lia. split; [by apply Z.div_pos; lia|].
  apply Z.div_lt_upper_bound; [lia|]. assert (0 < 2 ^ (32 - n)) by (apply Z.pow_pos_nonneg; lia). nia.
Qed.

Lemma ROTL32_inverse v n : is_word v → 0 < n < 32 → ROTL32 (ROTL32 v n) (32 - n) = v.
Proof.
  intros Hv Hn. apply Z.bits_inj'. intros i Hi.
  rewrite ROTL32_testbit by (try apply word_ROTL32; done || lia).
  destruct (Z.ltb_spec i 32); simpl; [|by rewrite word_testbit].
  pose proof (Z.mod_pos_bound (i - (32 - n)) 32). rewrite ROTL32_testbit by (done || lia).
  destruct (Z.ltb_spec ((i - (32 - n)) mod 32) 32); [|lia]. simpl. f_equal.
  rewrite Zminus_mod_idemp_l. replace (i - (32 - n) - n) with (i + -1 * 32) by lia.
  rewrite Z.mod_add, Z.mod_small; lia.
Qed.

(** ** The rounds can be undone

    Each line of QUARTERROUND is two of these steps. *)
Definition add_step (a b : nat) (x : list Z) : list Z := <[a := PLUS (x !!! a) (x !!! b)]> x.
Definition rot_step (d a : nat) (n : Z) (x : list Z) : list Z :=
  <[d := ROTL32 (Z.lxor (x !!! d) (x !!! a)) n]> x.
Definition sub_step (a b : nat) (x : list Z) : list Z := <[a := u32 (x !!! a - x !!! b)]> x.
Definition unrot_step (d a : nat) (n : Z) (x : list Z) : list Z :=
  <[d := Z.lxor (ROTL32 (x !!! d) (32 - n)) (x !!! a)]> x.

Lemma words_lookup x i : words x → (i < 16)%nat → is_word (x !!! i).
Proof.
  intros [Hl Hx] Hi. eapply Forall_lookup_1; [exact Hx|]. apply list_lookup_lookup_total_lt. lia.
Qed.

Lemma words_insert x i w : words x → is_word w → words (<[i := w]> x).
Proof. intros [Hl Hx] Hw. split; [by rewrite length_insert|by apply Forall_insert]. Qed.

Lemma add_step_words a b x : words x → words (add_step a b x).
Proof. intros H. apply words_insert; [done|apply word_PLUS]. Qed.

Lemma rot_step_words d a n x :
  words x → (d < 16)%nat → (a < 16)%nat → 0 < n < 32 → words (rot_step d a n x).
Proof.
  intros H Hd Ha Hn. apply words_insert; [done|].
  apply word_ROTL32; [|done]. apply word_lxor; by apply words_lookup.
Qed.

Lemma sub_add_step a b x :
  words x → (a < 16)%nat → a ≠ b → sub_step a b (add_step a b x) = x.
Proof.
  intros Hx Ha Hab. pose proof Hx as [Hl _]. unfold sub_step, add_step.
  rewrite list_lookup_total_insert_eq by lia. rewrite list_lookup_total_insert_ne by done.
  rewrite list_insert_insert_eq. apply list_insert_id.
  rewrite list_lookup_lookup_total_lt by lia. f_equal. unfold PLUS, u32.
  pose proof (words_lookup x a Hx Ha) as Hw. unfold is_word in Hw.
  rewrite Zminus_mod_idemp_l. replace (x !!! a + x !!! b - x !!! b) with (x !!! a) by lia.
  by rewrite Z.mod_small.
Qed.

Lemma unrot_rot_step d a n x :
  words x → (d < 16)%nat → (a < 16)%nat → a ≠ d → 0 < n < 32 →
  unrot_step d a n (rot_step d a n x) = x.
Proof.
  intros Hx Hd Ha Hne Hn. pose proof Hx as [Hl _]. unfold unrot_step, rot_step.
  rewrite list_lookup_total_insert_eq by lia. rewrite list_lookup_total_insert_ne by done.
  rewrite list_insert_insert_eq. apply list_insert_id.
  rewrite list_lookup_lookup_total_lt by lia. f_equal.
  rewrite ROTL32_inverse by (try apply word_lxor; try apply words_lookup; done).
  by rewrite Z.lxor_assoc, Z.lxor_nilpotent, Z.lxor_0_r.
Qed.

Definition UNQUARTERROUND (x : list Z) (a b c d : nat) : list Z :=
  sub_step a b (unrot_step d a 16 (sub_step c d (unrot_step b c 12
    (sub_step a b (unrot_step d a 8 (sub_step c d (unrot_step b c 7 x))))))).

(** The indices of a quarter round. *)
Definition quarter (a b c d : nat) : bool :=
  bool_decide (NoDup [a; b; c; d] ∧ Forall (λ i, i < 16)%nat [a; b; c; d]).

Lemma quarter_indices a b c d :
  quarter a b c d = true →
  (a < 16 ∧ b < 16 ∧ c < 16 ∧ d < 16 ∧ a ≠ b ∧ a ≠ d ∧ b ≠ c ∧ c ≠ d)%nat.
Proof.
  intros [Hn Hf]%bool_decide_eq_true. rewrite !Forall_cons in Hf.
  rewrite !NoDup_cons in Hn. set_solver.
Qed.

Lemma QUARTERROUND_words x a b c d :
  words x → quarter a b c d = true → words (QUARTERROUND x a b c d).
Proof.
  intros Hx (Ha & Hb & Hc & Hd & _)%quarter_indices.
  change (QUARTERROUND x a b c d) with
    (rot_step b c 7 (add_step c d (rot_step d a 8 (add_step a b
      (rot_step b c 12 (add_step c d (rot_step d a 16 (add_step a b x)))))))).
  repeat first [apply rot_step_words; [|done|done|lia] | apply add_step_words]. done.
Qed.

Lemma UNQUARTERROUND_inverse x a b c d :
  words x → quarter a b c d = true → UNQUARTERROUND (QUARTERROUND x a b c d) a b c d = x.
Proof.
  intros Hx (Ha & Hb & Hc & Hd & Hab & Had & Hbc & Hcd)%quarter_indices.
  change (QUARTERROUND x a b c d) with
    (rot_step b c 7 (add_step c d (rot_step d a 8 (add_step a b
      (rot_step b c 12 (add_step c d (rot_step d a 16 (add_step a b x)))))))).
  unfold UNQUARTERROUND.
  repeat first
    [ rewrite unrot_rot_step by
        (repeat first [apply rot_step_words; [|done|done|lia] | apply add_step_words | done | lia])
    | rewrite sub_add_step by
        (repeat first [apply rot_step_words; [|done|done|lia] | apply add_step_words | done | lia]) ].
  done.
Qed.

Definition undouble_round (x : list Z) : list Z :=
  let x := UNQUARTERROUND x 3 4 9 14 in
  let x := UNQUARTERROUND x 2 7 8 13 in
  let x := UNQUARTERROUND x 1 6 11 12 in
  let x := UNQUARTERROUND x 0 5 10 15 in
  let x := UNQUARTERROUND x 3 7 11 15 in
  let x := UNQUARTERROUND x 2 6 10 14 in
  let x := UNQUARTERROUND x 1 5 9 13 in
  UNQUARTERROUND x 0 4 8 12.

#[local] Opaque QUARTERROUND UNQUARTERROUND.

(** The quarter rounds as a list. *)
Notation indices := (nat * nat * nat * nat)%type (only parsing).
Definition schedule : list indices :=
  [(0, 4, 8, 12); (1, 5, 9, 13); (2, 6, 10, 14); (3, 7, 11, 15);
   (0, 5, 10, 15); (1, 6, 11, 12); (2, 7, 8, 13); (3, 4, 9, 14)]%nat.
Definition run (q : indices) (x : list Z) : list Z :=
  let '(a, b, c, d) := q in QUARTERROUND x a b c d.
Definition unrun (q : indices) (x : list Z) : list Z :=
  let '(a, b, c, d) := q in UNQUARTERROUND x a b c d.
Definition good (q : indices) : Prop := let '(a, b, c, d) := q in quarter a b c d = true.

Lemma double_round_schedule x : double_round x = foldl (λ x q, run q x) x schedule.
Proof. unfold double_round, schedule. cbn [foldl run]. reflexivity. Qed.
Lemma undouble_round_schedule x : undouble_round x = foldr unrun x schedule.
Proof. unfold undouble_round, schedule. cbn [foldr unrun]. reflexivity. Qed.
Lemma schedule_good : Forall good schedule.
Proof. repeat (apply Forall_cons; split; [reflexivity|]). apply Forall_nil_2. Qed.

Lemma foldl_run_words qs x : Forall good qs → words x → words (foldl (λ x q, run q x) x qs).
Proof.
  intros Hqs. revert x. induction Hqs as [|[[[a b] c] d] qs Hq Hqs IH]; intros x Hx; [exact Hx|].
  apply IH. by apply QUARTERROUND_words.
Qed.

Lemma foldr_unrun qs x :
  Forall good qs → words x → foldr unrun (foldl (λ x q, run q x) x qs) qs = x.
Proof.
  intros Hqs. revert x. induction Hqs as [|[[[a b] c] d] qs Hq Hqs IH]; intros x Hx; [reflexivity|].
  cbn [foldl foldr]. rewrite IH by by apply QUARTERROUND_words. by apply UNQUARTERROUND_inverse.
Qed.

Definition unrounds (n : nat) (x : list Z) : list Z := Nat.iter n undouble_round x.

Lemma double_round_words x : words x → words (double_round x).
Proof. rewrite double_round_schedule. apply foldl_run_words, schedule_good. Qed.

Lemma undouble_double_round x : words x → undouble_round (double_round x) = x.
Proof.
  rewrite double_round_schedule, undouble_round_schedule. apply foldr_unrun, schedule_good.
Qed.

(** Iterating a function and its inverse. *)
Lemma iter_keeps {A} (P : A → Prop) f n x :
  (∀ x, P x → P (f x)) → P x → P (Nat.iter n f x).
Proof. intros Hf Hx. induction n; simpl; auto. Qed.

Lemma iter_inverse {A} (P : A → Prop) f g n x :
  (∀ x, P x → P (f x)) → (∀ x, P x → g (f x) = x) → P x →
  Nat.iter n g (Nat.iter n f x) = x.
Proof.
  intros Hf Hg. revert x. induction n as [|n IH]; intros x Hx; [done|].
  rewrite Nat.iter_succ_r. simpl. rewrite Hg by by apply iter_keeps. by apply IH.
Qed.

Lemma rounds_words n x : words x → words (rounds n x).
Proof. apply (iter_keeps words), double_round_words. Qed.

(** The rounds are a permutation of the states: they can be undone, so that different
    counters, nonces or keys never meet in the same block of words before the final
    addition. *)
Theorem rounds_inverse n x : words x → unrounds n (rounds n x) = x.
Proof. apply (iter_inverse words), undouble_double_round. exact double_round_words. Qed.

(** ** The cipher

    ChaCha20 as its author and RFC 8439 describe it: the words in a square of four rows, a
    round on the columns, a round on the diagonals, which are the columns when the rows
    are turned by 0, 1, 2 and 3 places; after twenty rounds the words that were there are
    added, and the sums are written with their low byte first. *)

Definition add32 (v w : Z) : Z := (v + w) mod 2 ^ 32.
Definition rotate_left (v n : Z) : Z := v * 2 ^ n mod 2 ^ 32 + v / 2 ^ (32 - n).

Definition quarter_round (a b c d : Z) : Z * Z * Z * Z :=
  let a := add32 a b in let d := rotate_left (Z.lxor d a) 16 in
  let c := add32 c d in let b := rotate_left (Z.lxor b c) 12 in
  let a := add32 a b in let d := rotate_left (Z.lxor d a) 8 in
  let c := add32 c d in let b := rotate_left (Z.lxor b c) 7 in
  (a, b, c, d).

Notation row := (Z * Z * Z * Z)%type.
Notation square := (row * row * row * row)%type.

Definition columns (qr : Z → Z → Z → Z → row) (s : square) : square :=
  let '((a0, a1, a2, a3), (b0, b1, b2, b3), (c0, c1, c2, c3), (d0, d1, d2, d3)) := s in
  let '(a0, b0, c0, d0) := qr a0 b0 c0 d0 in
  let '(a1, b1, c1, d1) := qr a1 b1 c1 d1 in
  let '(a2, b2, c2, d2) := qr a2 b2 c2 d2 in
  let '(a3, b3, c3, d3) := qr a3 b3 c3 d3 in
  ((a0, a1, a2, a3), (b0, b1, b2, b3), (c0, c1, c2, c3), (d0, d1, d2, d3)).

Definition turn (r : row) : row := let '(x0, x1, x2, x3) := r in (x1, x2, x3, x0).
Definition turn_rows (s : square) : square :=
  let '(a, b, c, d) := s in (a, turn b, turn (turn c), turn (turn (turn d))).
Definition turn_rows_back (s : square) : square :=
  let '(a, b, c, d) := s in (a, turn (turn (turn b)), turn (turn c), turn d).

Definition two_rounds (qr : Z → Z → Z → Z → row) (s : square) : square :=
  turn_rows_back (columns qr (turn_rows (columns qr s))).

Definition row_words (r : row) : list Z := let '(x0, x1, x2, x3) := r in [x0; x1; x2; x3].
Definition square_words (s : square) : list Z :=
  let '(a, b, c, d) := s in row_words a ++ row_words b ++ row_words c ++ row_words d.
Definition square_of (j : list Z) : square :=
  let r i := (j !!! i, j !!! (i + 1)%nat, j !!! (i + 2)%nat, j !!! (i + 3)%nat) in
  (r 0%nat, r 4%nat, r 8%nat, r 12%nat).

Definition low_byte_first (w : Z) : list Z :=
  [w mod 2 ^ 8; w / 2 ^ 8 mod 2 ^ 8; w / 2 ^ 16 mod 2 ^ 8; w / 2 ^ 24 mod 2 ^ 8].

Definition cipher_block (j : list Z) : list Z :=
  concat (map low_byte_first
    (zip_with add32 j (square_words (Nat.iter 10 (two_rounds quarter_round) (square_of j))))).

(** The code's round on four words. *)
Definition code_quarter (a b c d : Z) : row :=
  let a := PLUS a b in let d := ROTL32 (Z.lxor d a) 16 in
  let c := PLUS c d in let b := ROTL32 (Z.lxor b c) 12 in
  let a := PLUS a b in let d := ROTL32 (Z.lxor d a) 8 in
  let c := PLUS c d in let b := ROTL32 (Z.lxor b c) 7 in
  (a, b, c, d).

Lemma ROTL32_rotate v n : is_word v → 0 < n < 32 → ROTL32 v n = rotate_left v n.
Proof.
  intros Hv Hn. unfold ROTL32, rotate_left, u32. rewrite Z.shiftl_mul_pow2, Z.shiftr_div_pow2 by lia.
  assert (0 < 2 ^ n) by (apply Z.pow_pos_nonneg; lia).
  assert (2 ^ 32 = 2 ^ n * 2 ^ (32 - n)) as E by (rewrite <- Z.pow_add_r by lia; f_equal; lia).
  assert (0 < 2 ^ (32 - n)) by (apply Z.pow_pos_nonneg; lia).
  assert (0 <= v / 2 ^ (32 - n) < 2 ^ n).
  { unfold is_word in Hv. split; [apply Z.div_pos; lia|]. apply Z.div_lt_upper_bound; lia. }
  rewrite <- Z.add_lor_land.
  assert ((v * 2 ^ n mod 2 ^ 32) .& (v / 2 ^ (32 - n)) = 0) as ->; [|lia].
  rewrite E, (Z.mul_comm v), Z.mul_mod_distr_l by lia. apply Z.bits_inj'. intros i Hi.
  rewrite Z.land_spec, Z.bits_0, (Z.mul_comm (2 ^ n)).
  destruct (Z.ltb_spec i n); [by rewrite Z.mul_pow2_bits_low|].
  rewrite <- (Z.mod_small (v / 2 ^ (32 - n)) (2 ^ n)), Z.mod_pow2_bits_high by lia. apply andb_false_r.
Qed.

Lemma code_quarter_ok a b c d : is_word a → is_word b → is_word c → is_word d →
  code_quarter a b c d = quarter_round a b c d ∧
  (let '(a, b, c, d) := code_quarter a b c d in is_word a ∧ is_word b ∧ is_word c ∧ is_word d).
Proof.
  intros Ha Hb Hc Hd. unfold code_quarter, quarter_round. change add32 with PLUS.
  assert (∀ v x y n, is_word v → 0 < n < 32 →
    ROTL32 (Z.lxor v (PLUS x y)) n = rotate_left (Z.lxor v (PLUS x y)) n
    ∧ is_word (rotate_left (Z.lxor v (PLUS x y)) n)) as H.
  { intros v x y n Hv Hn. assert (is_word (Z.lxor v (PLUS x y))) by (apply word_lxor; [done|apply word_PLUS]).
    rewrite <- ROTL32_rotate by done. split; [done|by apply word_ROTL32]. }
  destruct (H d a b 16) as [-> H1]; [done|lia|]. set (d1 := rotate_left _ 16) in *.
  destruct (H b c d1 12) as [-> H2]; [done|lia|]. set (b1 := rotate_left _ 12) in *.
  destruct (H d1 (PLUS a b) b1 8) as [-> H3]; [done|lia|]. set (d2 := rotate_left _ 8) in *.
  destruct (H b1 (PLUS c d1) d2 7) as [-> H4]; [done|lia|].
  split; [done|]. split_and!; try done; apply word_PLUS.
Qed.

Definition words_square (s : square) : Prop := Forall is_word (square_words s).

Lemma columns_ok s : words_square s →
  columns code_quarter s = columns quarter_round s ∧ words_square (columns quarter_round s).
Proof.
  destruct s as [[[[[[a0 a1] a2] a3] [[[b0 b1] b2] b3]] [[[c0 c1] c2] c3]] [[[d0 d1] d2] d3]].
  unfold words_square. cbn [square_words row_words app columns].
  rewrite !Forall_cons. intros Hs. decompose [and] Hs. clear Hs.
  destruct (code_quarter_ok a0 b0 c0 d0) as [<- K0]; [done..|].
  destruct (code_quarter_ok a1 b1 c1 d1) as [<- K1]; [done..|].
  destruct (code_quarter_ok a2 b2 c2 d2) as [<- K2]; [done..|].
  destruct (code_quarter_ok a3 b3 c3 d3) as [<- K3]; [done..|].
  split; [done|].
  destruct (code_quarter a0 _ _ _) as [[[? ?] ?] ?], (code_quarter a1 _ _ _) as [[[? ?] ?] ?],
    (code_quarter a2 _ _ _) as [[[? ?] ?] ?], (code_quarter a3 _ _ _) as [[[? ?] ?] ?].
  cbn [square_words row_words app]. rewrite !Forall_cons. intuition.
Qed.

Lemma words_turn_rows s : words_square s → words_square (turn_rows s) ∧ words_square (turn_rows_back s).
Proof.
  destruct s as [[[[[[a0 a1] a2] a3] [[[b0 b1] b2] b3]] [[[c0 c1] c2] c3]] [[[d0 d1] d2] d3]].
  unfold words_square. cbn [turn_rows turn_rows_back turn square_words row_words app].
  rewrite !Forall_cons. intuition.
Qed.

Lemma two_rounds_ok s : words_square s →
  two_rounds code_quarter s = two_rounds quarter_round s ∧ words_square (two_rounds quarter_round s).
Proof.
  intros H. unfold two_rounds. destruct (columns_ok s H) as [-> H1].
  destruct (words_turn_rows _ H1) as [H2 _]. destruct (columns_ok _ H2) as [-> H3].
  split; [done|]. apply (words_turn_rows _ H3).
Qed.

(** The code works on the same square, word by word. *)
Lemma double_round_square s : double_round (square_words s) = square_words (two_rounds code_quarter s).
Proof.
  destruct s as [[[[[[a0 a1] a2] a3] [[[b0 b1] b2] b3]] [[[c0 c1] c2] c3]] [[[d0 d1] d2] d3]].
  reflexivity.
Qed.

Lemma square_of_words j : words j → square_words (square_of j) = j.
Proof.
  intros [Hl _]. do 16 (destruct j as [|? j]; [done|]). by destruct j.
Qed.

Lemma rounds_square n s : words_square s →
  rounds n (square_words s) = square_words (Nat.iter n (two_rounds quarter_round) s)
  ∧ words_square (Nat.iter n (two_rounds quarter_round) s).
Proof.
  intros Hs. induction n as [|n [IH Hn]]; [done|].
  change (rounds (S n) ?x) with (double_round (rounds n x)).
  change (Nat.iter (S n) ?f ?x) with (f (Nat.iter n f x)).
  rewrite IH, double_round_square. by destruct (two_rounds_ok _ Hn) as [-> ?].
Qed.

Lemma U32TO8_low_byte_first v : is_word v → U32TO8_LITTLE v = low_byte_first v.
Proof.
  intros Hv. assert (∀ w, U8V w = w mod 2 ^ 8) as H.
  { intros w. unfold U8V, u8. change 255 with (Z.ones 8). rewrite Z.land_ones by lia.
    by rewrite Z.mod_mod. }
  unfold U32TO8_LITTLE, low_byte_first. by rewrite !H, !Z.shiftr_div_pow2 by lia.
Qed.

(** The block of the code is the block of the cipher. *)
Lemma chacha_block_cipher j : words j → chacha_block j = cipher_block j.
Proof.
  intros Hj. unfold chacha_block, cipher_block.
  assert (words_square (square_of j)) as Hs.
  { unfold words_square. rewrite square_of_words by done. apply Hj. }
  destruct (rounds_square 10 _ Hs) as [E _]. rewrite square_of_words in E by done. rewrite E.
  change add32 with PLUS. generalize (square_words (Nat.iter 10 (two_rounds quarter_round) (square_of j))).
  intros x. f_equal. clear. revert x. induction j as [|w j IH]; intros [|v x]; [done..|].
  cbn [zip_with map]. f_equal; [|apply IH]. unfold PLUS at 1. rewrite Z.add_comm.
  apply U32TO8_low_byte_first, word_PLUS.
Qed.

(** ** The keystream *)

(** The 64-bit counter is in the words 12 and 13. *)
Definition counter (j : list Z) : Z := j !!! 12%nat + 2 ^ 32 * (j !!! 13%nat).
Definition with_counter (j : list Z) (n : Z) : list Z :=
  <[13%nat := u32 (n / 2 ^ 32)]> (<[12%nat := u32 n]> j).

(** [n] blocks from the counter [k] on. *)
Fixpoint blocks (j : list Z) (k : Z) (n : nat) : list Z :=
  match n with
  | O => []
  | S n => cipher_block (with_counter j k) ++ blocks j (k + 1) n
  end.

Definition keystream (j : list Z) (bytes : Z) : list Z :=
  take (Z.to_nat bytes) (blocks j (counter j) (S (Z.to_nat bytes / 64))).

Lemma with_counter_words j n : words j → words (with_counter j n).
Proof. intros H. apply words_insert; [apply words_insert; [done|]|]; apply u32_range. Qed.

Lemma with_counter_self j : words j → with_counter j (counter j) = j.
Proof.
  intros Hj. pose proof (words_lookup j 12 Hj ltac:(lia)) as H12.
  pose proof (words_lookup j 13 Hj ltac:(lia)) as H13. destruct Hj as [Hl _].
  unfold is_word in *. unfold with_counter, counter, u32.
  rewrite (Z.mul_comm (2 ^ 32)), Z.mod_add, Z.div_add by lia.
  rewrite (Z.div_small (j !!! 12%nat)), Z.add_0_l, !Z.mod_small by lia.
  rewrite (list_insert_id j 12), (list_insert_id j 13); [done|..];
    by rewrite list_lookup_lookup_total_lt by lia.
Qed.

Lemma with_counter_twice j n n' : with_counter (with_counter j n) n' = with_counter j n'.
Proof.
  unfold with_counter. rewrite (list_insert_insert_ne _ 12 13) by done.
  by rewrite !list_insert_insert_eq.
Qed.

Lemma counter_with_counter j n : words j → counter (with_counter j n) = n mod 2 ^ 64.
Proof.
  intros [Hl _]. unfold counter, with_counter.
  rewrite (list_lookup_total_insert_ne _ 13 12) by done.
  rewrite !list_lookup_total_insert_eq by (rewrite ?length_insert; lia). unfold u32.
  change (2 ^ 64) with (2 ^ 32 * 2 ^ 32). rewrite (Z.rem_mul_r n) by lia. lia.
Qed.

Lemma count_block_counter j :
  words j → count_block j = with_counter j (counter j + 1).
Proof.
  intros Hj. pose proof (words_lookup j 12 Hj ltac:(lia)) as H12.
  pose proof (words_lookup j 13 Hj ltac:(lia)) as H13. destruct Hj as [Hl _].
  unfold is_word in *. unfold count_block, with_counter, counter, PLUSONE, PLUS.
  rewrite list_lookup_total_insert_eq by lia. rewrite list_lookup_total_insert_ne by done.
  set (a := j !!! 12%nat) in *. set (b := j !!! 13%nat) in *.
  assert (u32 (a + 2 ^ 32 * b + 1) = u32 (a + 1)) as ->.
  { unfold u32. replace (a + 2 ^ 32 * b + 1) with (a + 1 + b * 2 ^ 32) by lia. by rewrite Z.mod_add. }
  replace ((a + 2 ^ 32 * b + 1) / 2 ^ 32) with ((a + 1) / 2 ^ 32 + b)
    by (replace (a + 2 ^ 32 * b + 1) with (a + 1 + b * 2 ^ 32) by lia; by rewrite Z.div_add).
  destruct (decide (a + 1 < 2 ^ 32)) as [Hs|Hs].
  - rewrite (u32_small (a + 1)), Z.div_small by lia. destruct (Z.eqb_spec (a + 1) 0); [lia|].
    rewrite Z.add_0_l, (u32_small b) by done. symmetry. apply list_insert_id.
    rewrite list_lookup_insert_ne by done. by rewrite list_lookup_lookup_total_lt by lia.
  - replace (a + 1) with (2 ^ 32) by lia. change (u32 (2 ^ 32)) with 0.
    change (2 ^ 32 / 2 ^ 32) with 1. cbn [Z.eqb]. by rewrite (Z.add_comm 1 b).
Qed.

Lemma concat_words_length l : length (concat (map U32TO8_LITTLE l)) = (4 * length l)%nat.
Proof. induction l as [|w l IH]; [done|]. cbn [map concat]. rewrite length_app, IH. simpl. lia. Qed.

Lemma chacha_block_length j : words j → length (chacha_block j) = 64%nat.
Proof.
  intros Hj. unfold chacha_block. rewrite concat_words_length, length_zip_with.
  pose proof (rounds_words 10 j Hj) as [H1 _]. destruct Hj as [H2 _]. rewrite H1, H2. reflexivity.
Qed.

Lemma cipher_block_bytes j : Forall is_byte (cipher_block j).
Proof.
  unfold cipher_block. induction (zip_with add32 j _) as [|w l IH]; [constructor|].
  cbn [map concat]. apply Forall_app. split; [|done].
  unfold low_byte_first, is_byte. rewrite !Forall_cons. 
  split_and!; try (apply (Z.mod_pos_bound _ (2 ^ 8)); lia). constructor.
Qed.

Lemma blocks_length j k n : words j → length (blocks j k n) = (64 * n)%nat.
Proof.
  intros Hj. revert k. induction n as [|n IH]; intros k; [done|]. cbn [blocks].
  rewrite length_app, IH, <- chacha_block_cipher, chacha_block_length by by apply with_counter_words. lia.
Qed.

Lemma blocks_bytes j k n : Forall is_byte (blocks j k n).
Proof.
  revert k. induction n as [|n IH]; intros k; [constructor|]. cbn [blocks].
  apply Forall_app. split; [apply cipher_block_bytes|apply IH].
Qed.

Lemma keystream_length j bytes : words j → 0 <= bytes → length (keystream j bytes) = Z.to_nat bytes.
Proof.
  intros Hj Hb. unfold keystream. rewrite length_take, blocks_length by done.
  pose proof (Nat.div_mod_eq (Z.to_nat bytes) 64).
  pose proof (Nat.mod_upper_bound (Z.to_nat bytes) 64). lia.
Qed.

Lemma keystream_bytes j bytes : Forall is_byte (keystream j bytes).
Proof. apply Forall_take, blocks_bytes. Qed.

(** The counter counts modulo 2^64. *)
Lemma with_counter_mod j n : with_counter j (n mod 2 ^ 64) = with_counter j n.
Proof.
  unfold with_counter, u32. f_equal.
  - change (2 ^ 64) with (2 ^ 32 * 2 ^ 32). rewrite Z.rem_mul_r by lia.
    rewrite Z.add_comm, (Z.mul_comm (2 ^ 32)), Z.div_add_l by lia.
    rewrite (Z.div_small (n mod 2 ^ 32)), Z.add_0_r by (apply Z.mod_pos_bound; lia).
    apply Z.mod_mod. lia.
  - f_equal. change (2 ^ 64) with (2 ^ 32 * 2 ^ 32). rewrite Z.rem_mul_r by lia.
    rewrite (Z.mul_comm (2 ^ 32)), Z.mod_add, Z.mod_mod by lia. done.
Qed.

Lemma count_with_counter j k :
  words j → count_block (with_counter j k) = with_counter j (k + 1).
Proof.
  intros Hj. rewrite count_block_counter, counter_with_counter by auto using with_counter_words.
  rewrite with_counter_twice, <- with_counter_mod, Zplus_mod_idemp_l. apply with_counter_mod.
Qed.

(** What has been written so far stays when the next block is written after it. *)
Lemma mput_twice (c : list Z) off bs1 bs2 :
  (off + length bs1 + length bs2 <= length c)%nat →
  mput (take off c ++ bs1 ++ drop (off + length bs1) c) (off + length bs1) bs2
  = Ok (take off c ++ (bs1 ++ bs2) ++ drop (off + length (bs1 ++ bs2)) c).
Proof.
  intros H. rewrite mput_ok by (rewrite mput_length by lia; lia). f_equal.
  rewrite (mput_after c off bs1) by lia. rewrite (app_assoc (take off c) bs1).
  rewrite take_app_length' by (rewrite length_app, length_take; lia).
  rewrite <- !app_assoc, length_app. do 4 f_equal. lia.
Qed.

Definition nblocks (bytes : Z) : Z := (bytes + 63) / 64.

Lemma encrypt_loop_spec fuel j k (pre c : list Z) off bytes :
  words j → 0 < bytes → (Z.to_nat bytes / 64 < fuel)%nat →
  (off + length pre + Z.to_nat bytes <= length c)%nat →
  encrypt_loop fuel (with_counter j k) (take off c ++ pre ++ drop (off + length pre) c)
    (off + length pre) bytes
  = Ok (with_counter j (k + nblocks bytes),
        let ks := pre ++ take (Z.to_nat bytes) (blocks j k fuel) in
        take off c ++ ks ++ drop (off + length ks) c).
Proof.
  intros Hj. revert k pre bytes. induction fuel as [|fuel IH]; intros k pre bytes Hb Hf Hc; [simpl in Hf; lia|].
  cbn [encrypt_loop blocks]. rewrite <- (chacha_block_cipher _ (with_counter_words j k Hj)).
  pose proof (chacha_block_length _ (with_counter_words j k Hj)) as Hl.
  rewrite count_with_counter by done. destruct (Z.leb_spec bytes 64).
  - assert ((if bytes <? 64 then take (Z.to_nat bytes) (chacha_block (with_counter j k))
             else chacha_block (with_counter j k))
            = take (Z.to_nat bytes) (chacha_block (with_counter j k))) as ->.
    { destruct (Z.ltb_spec bytes 64); [done|]. by rewrite take_ge by lia. }
    rewrite mput_twice by (rewrite length_take; lia). cbn [res_bind].
    rewrite take_app_le by lia. unfold nblocks.
    replace ((bytes + 63) / 64) with 1 by (Z.to_euclidean_division_equations; lia). done.
  - rewrite mput_twice by lia. cbn [res_bind].
    replace (off + length pre + 64)%nat with (off + length (pre ++ chacha_block (with_counter j k)))%nat
      by (rewrite length_app; lia).
    rewrite IH; [|lia| |rewrite length_app; lia].
    + f_equal. f_equal.
      * f_equal. unfold nblocks. replace (bytes + 63) with (bytes - 64 + 63 + 1 * 64) by lia.
        rewrite Z.div_add; lia.
      * cbv zeta. rewrite take_app_ge by lia. rewrite Hl.
        replace (Z.to_nat bytes - 64)%nat with (Z.to_nat (bytes - 64)) by lia. by rewrite <- !app_assoc.
    + replace (Z.to_nat bytes) with (Z.to_nat (bytes - 64) + 1 * 64)%nat in Hf by lia.
      rewrite Nat.div_add in Hf by done. lia.
Qed.

(** The output object receives the next [bytes] bytes of the keystream and nothing
    else changes in it; the counter advances by the number of blocks. *)
Lemma encrypt_keystream x c off bytes :
  words x → 0 <= bytes → (off + Z.to_nat bytes <= length c)%nat →
  chacha_encrypt_bytes x c off bytes
  = Ok (with_counter x (counter x + nblocks bytes),
        take off c ++ keystream x bytes ++ drop (off + Z.to_nat bytes) c).
Proof.
  intros Hx Hb Hc. unfold chacha_encrypt_bytes. destruct (Z.eqb_spec bytes 0) as [->|Hne].
  { unfold keystream, nblocks. rewrite take_0. cbn [app]. change ((0 + 63) / 64) with 0.
    rewrite !Z.add_0_r, with_counter_self by done.
    change (Z.to_nat 0) with 0%nat. by rewrite Nat.add_0_r, take_drop. }
  pose proof (encrypt_loop_spec (S (Z.to_nat bytes / 64)) x (counter x) [] c off bytes Hx) as H.
  cbn [app length] in H. rewrite with_counter_self, Nat.add_0_r, take_drop in H by done.
  rewrite H by lia. cbn [res_bind]. clear H. fold (keystream x bytes).
  rewrite keystream_length by done. f_equal. f_equal. unfold with_counter at 2. 
  set (n := counter x + nblocks bytes). unfold with_counter.
  destruct Hx as [Hl _].
  rewrite (list_lookup_total_insert_ne _ 13 12) by done.
  by rewrite !list_lookup_total_insert_eq by (rewrite ?length_insert; lia).
Qed.

(** *** Setting up *)

Lemma U8TO32_LITTLE_safe E p off :
  Forall is_byte p → (off + 4 <= length p)%nat → safe_or E is_word (U8TO32_LITTLE p off).
Proof.
  intros Hp Ho. unfold U8TO32_LITTLE. eapply safe_or_bind; [by apply (mget_safe E is_byte)|].
  intros b [Hl Hb]. cbn.
  assert (∀ i s, (i < 4)%nat → 0 <= s <= 24 → is_word (Z.shiftl (b !!! i) s)) as H.
  { intros i s Hi Hs. assert (is_byte (b !!! i)) as Hi'.
    { eapply Forall_lookup_1; [exact Hb|]. apply list_lookup_lookup_total_lt. lia. }
    unfold is_byte, is_word in *. rewrite Z.shiftl_mul_pow2 by lia.
    assert (1 <= 2 ^ s <= 2 ^ 24); [|nia]. split.
    - change 1 with (2 ^ 0). apply Z.pow_le_mono_r; lia.
    - apply Z.pow_le_mono_r; lia. }
  pose proof (H 0%nat 0 ltac:(lia) ltac:(lia)) as H0. rewrite Z.shiftl_0_r in H0.
  repeat apply word_lor; try apply H; lia || done.
Qed.

Lemma set4_safe E x i p off :
  words x → Forall is_byte p → (off + 16 <= length p)%nat → safe_or E words (set4 x i p off).
Proof.
  intros Hx Hp Ho. unfold set4.
  do 4 (eapply safe_or_bind; [apply U8TO32_LITTLE_safe; [done|lia]|intros ? ?]).
  by repeat apply words_insert.
Qed.

Lemma sigma_bytes : Forall is_byte sigma.
Proof. repeat (apply Forall_cons; split; [unfold is_byte; lia|]). apply Forall_nil_2. Qed.

Lemma chacha_keysetup_safe E x k :
  words x → Forall is_byte k → (32 <= length k)%nat → safe_or E words (chacha_keysetup x k 256).
Proof.
  intros Hx Hk Hl. unfold chacha_keysetup. cbn [Z.eqb Pos.eqb].
  eapply safe_or_bind; [apply set4_safe; [done|done|lia]|]. intros x1 Hx1.
  eapply safe_or_bind; [apply set4_safe; [done|done|lia]|]. intros x2 Hx2.
  apply set4_safe; [done| |done].
  apply sigma_bytes.
Qed.

Lemma chacha_ivsetup_safe E x iv :
  words x → Forall is_byte iv → (8 <= length iv)%nat → safe_or E words (chacha_ivsetup x iv).
Proof.
  intros Hx Hiv Hl. unfold chacha_ivsetup.
  do 2 (eapply safe_or_bind; [apply U8TO32_LITTLE_safe; [done|lia]|intros ? ?]).
  assert (is_word 0) by (unfold is_word; lia). by repeat apply words_insert.
Qed.

(** The whole of an object. *)
Lemma encrypt_object x c bytes :
  words x → 0 <= bytes → Z.to_nat bytes = length c →
  chacha_encrypt_bytes x c 0 bytes
  = Ok (with_counter x (counter x + nblocks bytes), keystream x bytes).
Proof.
  intros Hx Hb Hl. rewrite encrypt_keystream by (done || lia).
  by rewrite take_0, app_nil_l, drop_ge, app_nil_r by lia.
Qed.

(** *** The context that is set up *)

(** The word at [off] of a text, least significant byte first. *)
Definition le_word (p : list Z) (off : nat) : Z :=
  p !!! off + 2 ^ 8 * (p !!! (off + 1)%nat) + 2 ^ 16 * (p !!! (off + 2)%nat)
  + 2 ^ 24 * (p !!! (off + 3)%nat).
Definition le_words (p : list Z) (n : nat) : list Z :=
  map (λ i, le_word p (4 * i)) (seq 0 n).

(** The constant, the key, a counter of zero and the nonce. *)
Definition ctx_of (key iv : list Z) : chacha_ctx :=
  le_words sigma 4 ++ le_words key 8 ++ [0; 0] ++ le_words iv 2.

Lemma lor_shift a b s : 0 <= s → 0 <= a < 2 ^ s → a .| Z.shiftl b s = a + 2 ^ s * b.
Proof.
  intros Hs Ha. rewrite (Z.mul_comm (2 ^ s)), <- Z.shiftl_mul_pow2 by done. symmetry.
  apply Z.add_nocarry_lor, Z.bits_inj'. intros i Hi.
  rewrite Z.land_spec, Z.bits_0, Z.shiftl_spec by done. destruct (Z.ltb_spec i s).
  - by rewrite (Z.testbit_neg_r b), andb_false_r by lia.
  - by rewrite <- (Z.mod_small a (2 ^ s)), Z.mod_pow2_bits_high by lia.
Qed.

Lemma U8TO32_LITTLE_value p off :
  (off + 4 <= length p)%nat → Forall is_byte p → U8TO32_LITTLE p off = Ok (le_word p off).
Proof.
  intros Hl Hp. unfold U8TO32_LITTLE. rewrite mget_ok by done. cbn [res_bind].
  assert (∀ i, (i < 4)%nat → take 4 (drop off p) !!! i = p !!! (off + i)%nat ∧ is_byte (p !!! (off + i)%nat)) as H.
  { intros i Hi. split.
    - by rewrite !list_lookup_total_alt, lookup_take_lt, lookup_drop by done.
    - eapply Forall_lookup_1; [exact Hp|]. apply list_lookup_lookup_total_lt. lia. }
  destruct (H 0%nat) as [E0 H0], (H 1%nat) as [E1 H1], (H 2%nat) as [E2 H2], (H 3%nat) as [E3 H3]; try lia.
  rewrite E0, E1, E2, E3. unfold is_byte in *. rewrite Nat.add_0_r in *.
  rewrite (lor_shift _ _ 8), (lor_shift _ _ 16), (lor_shift _ _ 24) by lia. done.
Qed.

Lemma set4_value x i p off :
  (off + 16 <= length p)%nat → Forall is_byte p →
  set4 x i p off
  = Ok (<[(i + 3)%nat := le_word p (off + 12)]> (<[(i + 2)%nat := le_word p (off + 8)]>
       (<[(i + 1)%nat := le_word p (off + 4)]> (<[i := le_word p off]> x)))).
Proof. intros Hl Hp. unfold set4. rewrite !U8TO32_LITTLE_value by (done || lia). done. Qed.

Lemma le_words_words p n :
  (4 * n <= length p)%nat → Forall is_byte p → Forall is_word (le_words p n).
Proof.
  intros Hl Hp. apply Forall_forall. intros w Hw. unfold le_words in Hw.
  apply list_elem_of_fmap in Hw as (k & -> & Hk). apply list_elem_of_In, in_seq in Hk.
  assert (4 * k + 4 <= length p)%nat as Ho by lia.
  pose proof (U8TO32_LITTLE_safe (λ _, False) p (4 * k) Hp Ho) as H.
  by rewrite U8TO32_LITTLE_value in H by done.
Qed.

Lemma ctx_of_words key iv :
  (32 <= length key)%nat → Forall is_byte key → (8 <= length iv)%nat → Forall is_byte iv →
  words (ctx_of key iv).
Proof.
  intros Hk Hkb Hiv Hivb. split; [reflexivity|]. unfold ctx_of. rewrite !Forall_app. split_and!.
  - by apply le_words_words, sigma_bytes.
  - apply le_words_words; [lia|done].
  - repeat (apply Forall_cons; split; [unfold is_word; lia|]). apply Forall_nil_2.
  - apply le_words_words; [lia|done].
Qed.

Lemma chacha_setup x0 key iv :
  length x0 = 16%nat → (32 <= length key)%nat → Forall is_byte key →
  (8 <= length iv)%nat → Forall is_byte iv →
  (let* x := chacha_keysetup x0 key 256 in chacha_ivsetup x iv) = Ok (ctx_of key iv).
Proof.
  intros Hx Hk Hkb Hiv Hivb. unfold chacha_keysetup, chacha_ivsetup. cbn [Z.eqb Pos.eqb].
  rewrite !U8TO32_LITTLE_value by (done || lia).
  rewrite (set4_value _ 4) by (done || lia). cbn [res_bind].
  rewrite (set4_value _ 8) by (done || lia). cbn [res_bind].
  rewrite (set4_value _ 0) by (done || apply sigma_bytes). cbn [res_bind]. f_equal.
  do 16 (destruct x0 as [|? x0]; [done|]). destruct x0; [|done]. reflexivity.
Qed.

(** C31.  Setting up with a 256-bit key and a nonce gives the context of these, whatever was
    there, and the output object then receives the next [bytes] bytes of its
    keystream, the blocks of the cipher ([cipher_block], ChaCha20 with a 64-bit counter) from
    counter 0 on, and nothing else changes in it; the counter advances by the number of
    blocks. *)
Theorem chacha_encrypts x0 key iv c off bytes :
  length x0 = 16%nat → (32 <= length key)%nat → Forall is_byte key →
  (8 <= length iv)%nat → Forall is_byte iv → 0 <= bytes →
  (off + Z.to_nat bytes <= length c)%nat →
  (let* x := chacha_keysetup x0 key 256 in
   let* x := chacha_ivsetup x iv in
   chacha_encrypt_bytes x c off bytes)
  = Ok (with_counter (ctx_of key iv) (nblocks bytes),
        take off c ++ keystream (ctx_of key iv) bytes ++ drop (off + Z.to_nat bytes) c).
Proof.
  intros Hx Hk Hkb Hiv Hivb Hb Hc.
  pose proof (ctx_of_words key iv Hk Hkb Hiv Hivb) as Hw.
  rewrite <- res_bind_assoc, chacha_setup by done. cbn [res_bind].
  rewrite encrypt_keystream by done. change (counter (ctx_of key iv)) with 0. by rewrite Z.add_0_l.
Qed.

(** ** Witnesses *)

(** The context set up with a key and a nonce of zeros. *)
Definition zero_ctx : list Z := ctx_of (replicate 32 0) (replicate 8 0).

Lemma zeros_bytes n : Forall is_byte (replicate n 0).
Proof. apply Forall_replicate. unfold is_byte. lia. Defined.

Lemma rounds_inverse_witness : unrounds 10 (rounds 10 zero_ctx) = zero_ctx.
Proof.
  apply (rounds_inverse 10 zero_ctx), ctx_of_words; apply zeros_bytes || (vm_compute; lia).
Defined.

(** The published keystream of the zero key, of which the first ten bytes go between
    the others. *)
Lemma chacha_encrypts_witness :
  (let* x := chacha_keysetup (replicate 16 0) (replicate 32 0) 256 in
   let* x := chacha_ivsetup x (replicate 8 0) in
   chacha_encrypt_bytes x (replicate 12 1) 1 10)
  = Ok (<[12%nat := 1]> zero_ctx, [1; 118; 184; 224; 173; 160; 241; 61; 144; 64; 93; 1]).
Proof.
  rewrite (chacha_encrypts (replicate 16 0) (replicate 32 0) (replicate 8 0) (replicate 12 1) 1 10);
    [vm_compute; reflexivity|done|vm_compute; lia|apply zeros_bytes|vm_compute; lia|apply zeros_bytes|lia|vm_compute; lia].
Defined.
