(* ===== verification/Arc4random.v ===== *)
(** * arc4random: lib/netbsd/arc4random.c and arc4random_linux.h

    The random number generator of libc: a buffer of ChaCha keystream, its key
    replaced each time the buffer is used up and reseeded from the kernel after a
    fork or a number of bytes.  [getpid] at the time of a call is an argument of the
    operations; the mutex is not modelled, calls follow one another.  The host is
    little-endian. *)

From S2P Require Import Prelude Mem Chacha.

Definition KEYSZ : nat := 32.
Definition IVSZ : nat := 8.
Definition BLOCKSZ : nat := 64.
Definition RSBUFSZ : nat := 16 * BLOCKSZ.
Definition REKEY_BASE : Z := 1024 * 1024.

Record _rs := mk_rs { rs_have : nat; rs_count : Z }.
Record _rsx := mk_rsx { rs_chacha : chacha_ctx; rs_buf : list Z }.

(** The static variables ([None] is a null pointer) and how often [getentropy] was
    called. *)
Record world := mk_world {
  rs : option _rs; rsx : option _rsx; _rs_pid : Z; _rs_forked : bool; calls : nat }.

Definition start : world := mk_world None None 0 false 0.

Definition set_rs (w : world) (r : _rs) : world :=
  mk_world (Some r) (rsx w) (_rs_pid w) (_rs_forked w) (calls w).
Definition set_rsx (w : world) (x : _rsx) : world :=
  mk_world (rs w) (Some x) (_rs_pid w) (_rs_forked w) (calls w).

Definition deref {A} (p : option A) : res A :=
  match p with Some a => Ok a | None => Fault end.

(** How the process ends when memory or entropy cannot be had. *)
Definition EXITED : Z := 1.
Definition KILLED : Z := 9.

Section arc4random.
(** The results of [getentropy] by number of call, and whether [mmap] succeeds. *)
Context (getentropy : nat → option (list Z)) (mmap_ok : bool).

Definition _rs_allocate (w : world) : res world :=
  if mmap_ok
  then Ok (mk_world (Some (mk_rs 0 0)) (Some (mk_rsx (replicate 16 0) (replicate RSBUFSZ 0)))
             (_rs_pid w) (_rs_forked w) (calls w))
  else Err EXITED.

Definition _rs_init (w : world) (buf : list Z) (n : nat) : res world :=
  if (n <? KEYSZ + IVSZ)%nat then Ok w else
  let* w := match rs w with None => _rs_allocate w | Some _ => Ok w end in
  let* x := deref (rsx w) in
  let* c := chacha_keysetup (rs_chacha x) buf (Z.of_nat KEYSZ * 8) in
  let* iv := mget buf KEYSZ IVSZ in
  let* c := chacha_ivsetup c iv in
  Ok (set_rsx w (mk_rsx c (rs_buf x))).

(** [for (i = 0; i < m; i++) rs_buf[i] ^= dat[i];] *)
Definition xor_into (buf dat : list Z) (m : nat) : res (list Z) :=
  let* old := mget buf 0 m in
  let* new := mget dat 0 m in
  mput buf 0 (zip_with Z.lxor old new).

Definition _rs_rekey (w : world) (dat : option (list Z)) (datlen : Z) : res world :=
  let* x := deref (rsx w) in
  let* (c, buf) := chacha_encrypt_bytes (rs_chacha x) (rs_buf x) 0 (Z.of_nat RSBUFSZ) in
  let* buf := match dat with
              | Some d => xor_into buf d (Z.to_nat (datlen `min` Z.of_nat (KEYSZ + IVSZ)))
              | None => Ok buf
              end in
  let* w := _rs_init (set_rsx w (mk_rsx c buf)) buf (KEYSZ + IVSZ) in
  let* x := deref (rsx w) in
  let* buf := mset (rs_buf x) 0 0 (KEYSZ + IVSZ) in
  let* r := deref (rs w) in
  Ok (set_rs (set_rsx w (mk_rsx (rs_chacha x) buf)) (mk_rs (RSBUFSZ - KEYSZ - IVSZ) (rs_count r))).

Definition _rs_stir (w : world) : res world :=
  match getentropy (calls w) with
  | None => Err KILLED
  | Some rnd =>
      let w := mk_world (rs w) (rsx w) (_rs_pid w) (_rs_forked w) (S (calls w)) in
      let* w := match rs w with
                | None => _rs_init w rnd (KEYSZ + IVSZ)
                | Some _ => _rs_rekey w (Some rnd) (Z.of_nat (KEYSZ + IVSZ))
                end in
      let* x := deref (rsx w) in
      let* buf := mset (rs_buf x) 0 0 RSBUFSZ in
      let* (c, fuzz) := chacha_encrypt_bytes (rs_chacha x) (replicate 4 0) 0 4 in
      let* rekey_fuzz := U8TO32_LITTLE fuzz 0 in
      Ok (set_rs (set_rsx w (mk_rsx c buf)) (mk_rs 0 (REKEY_BASE + rekey_fuzz mod REKEY_BASE)))
  end.

Definition _rs_forkdetect (pid : Z) (w : world) : world :=
  if (_rs_pid w =? 0) || (_rs_pid w =? 1) || negb (_rs_pid w =? pid) || _rs_forked w
  then mk_world (match rs w with Some _ => Some (mk_rs 0 0) | None => None end) (rsx w)
         pid false (calls w)
  else w.

(** Runs in the child of a fork. *)
Definition _rs_forkhandler (w : world) : world :=
  mk_world (rs w) (rsx w) (_rs_pid w) true (calls w).

(** [_rs_stir] is due. *)
Definition stir_needed (w : world) (len : Z) : bool :=
  match rs w with None => true | Some r => rs_count r <=? len end.

Definition _rs_stir_if_needed (pid : Z) (w : world) (len : Z) : res world :=
  let w := _rs_forkdetect pid w in
  let* w := if stir_needed w len then _rs_stir w else Ok w in
  let* r := deref (rs w) in
  Ok (set_rs w (mk_rs (rs_have r) (if rs_count r <=? len then 0 else rs_count r - len))).

(** Takes [m] bytes from the buffer, which are erased. *)
Definition take_keystream (w : world) (m : nat) : res (list Z * world) :=
  let* r := deref (rs w) in
  let* x := deref (rsx w) in
  let* keystream := mget (rs_buf x) (RSBUFSZ - rs_have r) m in
  let* buf := mset (rs_buf x) (RSBUFSZ - rs_have r) 0 m in
  Ok (keystream, set_rs (set_rsx w (mk_rsx (rs_chacha x) buf)) (mk_rs (rs_have r - m) (rs_count r))).

Definition have_of (w : world) : res nat := let* r := deref (rs w) in Ok (rs_have r).

(** The body of the loop of [_rs_random_buf]: the bytes copied. *)
Definition random_step (w : world) (n : nat) : res (list Z * world) :=
  let* have := have_of w in
  let* (out, w) := if (0 <? have)%nat then take_keystream w (Nat.min n have) else Ok ([], w) in
  let* have := have_of w in
  let* w := if (have =? 0)%nat then _rs_rekey w None 0 else Ok w in
  Ok (out, w).

Fixpoint random_loop (fuel : nat) (w : world) (n : nat) : res (list Z * world) :=
  match fuel with
  | O => Fault
  | S fuel =>
      if (n =? 0)%nat then Ok ([], w) else
      let* (out, w) := random_step w n in
      let* (rest, w) := random_loop fuel w (n - length out) in
      Ok (out ++ rest, w)
  end.

(** A turn copies a byte or refills the buffer, and the turn after a refill copies. *)
Definition _rs_random_buf (pid : Z) (w : world) (n : nat) : res (list Z * world) :=
  let* w := _rs_stir_if_needed pid w (Z.of_nat n) in
  random_loop (S (S n)) w n.

Definition _rs_random_u32 (pid : Z) (w : world) : res (Z * world) :=
  let* w := _rs_stir_if_needed pid w 4 in
  let* have := have_of w in
  let* w := if (have <? 4)%nat then _rs_rekey w None 0 else Ok w in
  let* (b, w) := take_keystream w 4 in
  let* val := U8TO32_LITTLE b 0 in
  Ok (val, w).

Definition arc4random_stir (w : world) : res world := _rs_stir w.

(** [datlen] becomes a [size_t]. *)
Definition arc4random_addrandom (pid : Z) (w : world) (dat : list Z) (datlen : Z) : res world :=
  let* w := _rs_stir_if_needed pid w (u64 datlen) in
  _rs_rekey w (Some dat) (u64 datlen).

Definition arc4random (pid : Z) (w : world) : res (Z * world) := _rs_random_u32 pid w.

Definition arc4random_buf (pid : Z) (w : world) (n : nat) : res (list Z * world) :=
  _rs_random_buf pid w n.

Lemma RSBUFSZ_val : Z.of_nat RSBUFSZ = 1024.
Proof. reflexivity. Qed.

#[local] Opaque chacha_encrypt_bytes chacha_keysetup chacha_ivsetup keystream blocks cipher_block with_counter
  mget mput U8TO32_LITTLE RSBUFSZ.

(** ** The state of the generator *)

Definition size : nat := RSBUFSZ.

(** The variables of an initialised generator; the bytes of the buffer that were
    handed out, or served as a key, are zero. *)
Record live (w : world) (r : _rs) (x : _rsx) : Prop := mk_live {
  live_rs : rs w = Some r;
  live_rsx : rsx w = Some x;
  live_words : words (rs_chacha x);
  live_length : length (rs_buf x) = RSBUFSZ;
  live_bytes : Forall is_byte (rs_buf x);
  live_have : (rs_have r <= RSBUFSZ)%nat;
  live_count : 0 <= rs_count r < 2 * REKEY_BASE;
  live_erased : take (RSBUFSZ - rs_have r) (rs_buf x) = replicate (RSBUFSZ - rs_have r) 0 }.

Definition inv (w : world) : Prop :=
  (rs w = None ∧ rsx w = None) ∨ ∃ r x, live w r x.

(** The failures: memory or entropy is not to be had. *)
Definition failure (e : Z) : Prop :=
  (e = EXITED ∧ mmap_ok = false) ∨ (e = KILLED ∧ ∃ n, getentropy n = None).

Context (Hent : ∀ n b, getentropy n = Some b → length b = 40%nat ∧ Forall is_byte b).

Definition buffer_ok (x : _rsx) : Prop :=
  words (rs_chacha x) ∧ length (rs_buf x) = RSBUFSZ ∧ Forall is_byte (rs_buf x).

(** The context that is made from the start of a text. *)
Definition seeded (buf : list Z) : chacha_ctx := ctx_of buf (take IVSZ (drop KEYSZ buf)).

Lemma seeded_words buf : Forall is_byte buf → (40 <= length buf)%nat → words (seeded buf).
Proof.
  intros Hb Hl. apply ctx_of_words; [lia|done| |by apply Forall_take, Forall_drop].
  unfold KEYSZ, IVSZ. rewrite length_take, length_drop. lia.
Qed.

Lemma rs_init_live w r x buf :
  rs w = Some r → rsx w = Some x → buffer_ok x → Forall is_byte buf → (40 <= length buf)%nat →
  _rs_init w buf 40 = Ok (set_rsx w (mk_rsx (seeded buf) (rs_buf x))).
Proof.
  intros Hr Hx ([Hw _] & _ & _) Hb Hl. unfold _rs_init. cbn [Nat.ltb Nat.leb KEYSZ IVSZ Nat.add].
  rewrite Hr. cbn [res_bind]. rewrite Hx. cbn [deref res_bind].
  rewrite mget_ok by (unfold KEYSZ, IVSZ; lia). cbn [res_bind].
  change (Z.of_nat KEYSZ * 8) with 256. rewrite <- res_bind_assoc, chacha_setup; [done|done|lia|done| |].
  - unfold KEYSZ, IVSZ. rewrite length_take, length_drop. lia.
  - by apply Forall_take, Forall_drop.
Qed.

Lemma replicate_bytes n : Forall is_byte (replicate n 0).
Proof. apply Forall_replicate. unfold is_byte. lia. Qed.

Lemma rs_init_start w buf :
  rs w = None → Forall is_byte buf → (40 <= length buf)%nat →
  safe_or failure (λ w', ∃ x, buffer_ok x ∧ w' = set_rs (set_rsx w x) (mk_rs 0 0))
    (_rs_init w buf 40).
Proof.
  intros Hr Hb Hl. destruct mmap_ok eqn:Em.
  - set (x0 := mk_rsx (replicate 16 0) (replicate RSBUFSZ 0)).
    assert (buffer_ok x0) as Hx0.
    { split_and!; [|reflexivity|apply replicate_bytes]. split; [reflexivity|].
      apply Forall_replicate. unfold is_word. lia. }
    assert (_rs_init w buf 40 = _rs_init (set_rs (set_rsx w x0) (mk_rs 0 0)) buf 40) as ->.
    { unfold _rs_init. rewrite Hr. unfold _rs_allocate. by rewrite Em. }
    rewrite (rs_init_live _ (mk_rs 0 0) x0) by done. cbn [safe_or].
    destruct Hx0 as (H1 & H2 & H3). eexists. split; [|reflexivity].
    split_and!; [by apply seeded_words|done|done].
  - unfold _rs_init. rewrite Hr. unfold _rs_allocate. rewrite Em. by left.
Qed.

(** User data is mixed in at the start of the buffer only. *)
Lemma lxor_byte a b : is_byte a → is_byte b → is_byte (Z.lxor a b).
Proof.
  intros Ha Hb. unfold is_byte in *. assert (0 <= Z.lxor a b) by (apply Z.lxor_nonneg; lia).
  split; [done|]. destruct (decide (Z.lxor a b = 0)); [lia|].
  change 256 with (2 ^ 8). apply Z.log2_lt_pow2; [lia|].
  pose proof (Z.log2_lxor a b). pose proof (Z.log2_le_mono a 255). pose proof (Z.log2_le_mono b 255).
  change (Z.log2 255) with 7 in *. lia.
Qed.

Definition mixed (ks dat : list Z) (m : nat) : list Z :=
  zip_with Z.lxor (take m ks) (take m dat) ++ drop m ks.

Lemma mixed_length ks dat m : (m <= length dat)%nat → length (mixed ks dat m) = length ks.
Proof.
  intros H. unfold mixed. rewrite length_app, length_zip_with, !length_take, length_drop. lia.
Qed.

Lemma mixed_bytes ks dat m :
  Forall is_byte ks → Forall is_byte dat → Forall is_byte (mixed ks dat m).
Proof.
  intros Hk Hd. apply Forall_app. split; [|by apply Forall_drop].
  apply (Forall_take _ m) in Hk, Hd. revert Hk Hd. generalize (take m ks) (take m dat).
  intros l1 l2 H1. revert l2. induction H1 as [|a l1 Ha H1 IH]; intros l2 H2; [constructor|].
  destruct H2 as [|b l2 Hb H2]; [constructor|]. constructor; [by apply lxor_byte|by apply IH].
Qed.

Lemma xor_into_value buf dat m :
  (m <= length buf)%nat → (m <= length dat)%nat → xor_into buf dat m = Ok (mixed buf dat m).
Proof.
  intros H1 H2. unfold xor_into. rewrite !mget_ok by lia. cbn [res_bind].
  rewrite !drop_0, mput_ok by (rewrite length_zip_with, !length_take; lia).
  rewrite take_0, app_nil_l. unfold mixed. rewrite length_zip_with, !length_take.
  do 3 f_equal. lia.
Qed.

(** What is mixed in, and how much of it. *)
Definition data_ok (dat : option (list Z)) (datlen : Z) : Prop :=
  match dat with
  | None => True
  | Some d => Forall is_byte d ∧ (Z.to_nat (datlen `min` 40) <= length d)%nat
  end.
Definition mix (ks : list Z) (dat : option (list Z)) (datlen : Z) : list Z :=
  match dat with None => ks | Some d => mixed ks d (Z.to_nat (datlen `min` 40)) end.

(** The buffer that is made of a new keystream: its start is the next key. *)
Definition rekeyed (b : list Z) : _rsx :=
  mk_rsx (seeded b) (replicate (KEYSZ + IVSZ) 0 ++ drop (KEYSZ + IVSZ) b).

Definition fresh (x : _rsx) : list Z := keystream (rs_chacha x) (Z.of_nat RSBUFSZ).

Lemma fresh_ok x dat datlen :
  words (rs_chacha x) → data_ok dat datlen →
  length (mix (fresh x) dat datlen) = RSBUFSZ ∧ Forall is_byte (mix (fresh x) dat datlen).
Proof.
  intros Hw Hd. assert (length (fresh x) = RSBUFSZ) as Hl.
  { unfold fresh. rewrite keystream_length, Nat2Z.id by (done || lia). done. }
  pose proof (keystream_bytes (rs_chacha x) (Z.of_nat RSBUFSZ)) as Hb. fold (fresh x) in Hb.
  destruct dat as [d|]; [|split; [exact Hl|exact Hb]]. destruct Hd as [Hd Hdl]. cbn [mix].
  rewrite mixed_length by exact Hdl. split; [exact Hl|by apply mixed_bytes].
Qed.

Lemma rs_rekey_value w r x dat datlen :
  rs w = Some r → rsx w = Some x → buffer_ok x → data_ok dat datlen →
  _rs_rekey w dat datlen
  = Ok (set_rs (set_rsx w (rekeyed (mix (fresh x) dat datlen)))
          (mk_rs (RSBUFSZ - KEYSZ - IVSZ) (rs_count r))).
Proof.
  intros Hr Hx (Hw & Hl & Hb) Hd. pose proof RSBUFSZ_val as Hsize.
  unfold _rs_rekey. rewrite Hx. cbn [deref res_bind].
  rewrite encrypt_object by (done || lia). cbn [res_bind]. fold (fresh x).
  set (x1 := with_counter _ _). assert (words x1) as Hx1 by by apply with_counter_words.
  destruct (fresh_ok x None datlen Hw I) as [Hfl _]. cbn [mix] in Hfl.
  destruct (fresh_ok x dat datlen Hw Hd) as [Hml Hmb].
  assert (match dat with
          | Some d => xor_into (fresh x) d (Z.to_nat (datlen `min` Z.of_nat (KEYSZ + IVSZ)))
          | None => Ok (fresh x) end = Ok (mix (fresh x) dat datlen)) as ->.
  { destruct dat as [d|]; [|cbn [mix]; reflexivity]. destruct Hd as [_ Hdl]. cbn [mix].
    change (Z.of_nat (KEYSZ + IVSZ)) with 40. by rewrite xor_into_value by lia. }
  cbn [res_bind]. clear Hfl. set (b := mix _ _ _) in *. clearbody b x1.
  rewrite (rs_init_live _ r (mk_rsx x1 b)) by (done || lia). cbn [res_bind].
  cbn [rsx set_rsx deref res_bind rs_buf rs_chacha rs]. rewrite Hr.
  rewrite mset_prefix by (unfold KEYSZ, IVSZ; lia). reflexivity.
Qed.

Lemma rekeyed_ok b : length b = RSBUFSZ → Forall is_byte b → buffer_ok (rekeyed b).
Proof.
  intros Hl Hb. pose proof RSBUFSZ_val. split_and!; cbn [rs_chacha rs_buf rekeyed].
  - apply seeded_words; [done|lia].
  - rewrite length_app, length_replicate, length_drop. unfold KEYSZ, IVSZ. lia.
  - apply Forall_app. split; [apply replicate_bytes|by apply Forall_drop].
Qed.

(** *** Reseeding *)

(** What [_rs_stir] needs: after a fork the state is not [live]. *)
Definition settled (w : world) : Prop :=
  (rs w = None ∧ rsx w = None) ∨ ∃ r x, rs w = Some r ∧ rsx w = Some x ∧ buffer_ok x.

Lemma live_settled w : inv w → settled w.
Proof. intros [|(r & x & [])]; [by left|]. right. exists r, x. done. Qed.

Lemma rs_stir_spec w :
  settled w →
  safe_or failure (λ w', ∃ r x, live w' r x ∧ calls w' = S (calls w)
                                ∧ _rs_pid w' = _rs_pid w ∧ _rs_forked w' = _rs_forked w)
    (_rs_stir w).
Proof.
  intros Hinv. unfold _rs_stir. destruct (getentropy (calls w)) as [rnd|] eqn:Eg; [|right; eauto].
  destruct (Hent _ _ Eg) as [Hl Hb].
  set (w1 := mk_world (rs w) (rsx w) (_rs_pid w) (_rs_forked w) (S (calls w))).
  eapply (safe_or_bind failure (λ w', ∃ r x, buffer_ok x ∧ w' = set_rs (set_rsx w1 x) r)).
  { destruct Hinv as [[Hr Hx]|(r & x & Hr & Hx & Hok)]; cbn [rs w1]; rewrite Hr.
    - eapply safe_or_mono; [apply rs_init_start; [done|done|lia]|].
      intros w' (x & Hx' & ->). exists (mk_rs 0 0), x. by split.
    - assert (data_ok (Some rnd) 40) as Hd by (split; [done|by rewrite Hl]).
      change (Z.of_nat (KEYSZ + IVSZ)) with 40.
      rewrite (rs_rekey_value w1 r x (Some rnd) 40) by done. eexists _, _. split; [|reflexivity].
      destruct Hok as (Hw & _). by apply rekeyed_ok; apply fresh_ok. }
  intros w2 (r & x & (Hw & Hxl & Hxb) & ->). cbn [rsx set_rs set_rsx deref res_bind].
  rewrite mset_whole by by rewrite Hxl. cbn [res_bind].
  rewrite encrypt_object by done. cbn [res_bind].
  eapply safe_or_bind; [apply (U8TO32_LITTLE_safe failure)|].
  { apply keystream_bytes. }
  { by rewrite keystream_length by (done || lia). }
  intros fuzz Hf. cbn [safe_or]. pose proof (Z.mod_pos_bound fuzz REKEY_BASE ltac:(done)).
  eexists _, _. split; [|done].
  split; [reflexivity|reflexivity|..]; cbn [rs_chacha rs_buf rs_have rs_count].
  - by apply with_counter_words.
  - by rewrite length_replicate.
  - apply replicate_bytes.
  - lia.
  - unfold REKEY_BASE in *. lia.
  - rewrite Nat.sub_0_r. by rewrite take_ge by by rewrite length_replicate.
Qed.

(** A fork was detected, or a first call. *)
Definition forked (pid : Z) (w : world) : bool :=
  (_rs_pid w =? 0) || (_rs_pid w =? 1) || negb (_rs_pid w =? pid) || _rs_forked w.

(** The generator is reseeded: it is not initialised, its process changed or the
    number of bytes is used up. *)
Definition reseeds (pid : Z) (w : world) (len : Z) : bool :=
  forked pid w || match rs w with None => true | Some r => rs_count r <=? len end.

Lemma stir_needed_reseeds pid w len :
  0 <= len → stir_needed (_rs_forkdetect pid w) len = reseeds pid w len.
Proof.
  intros Hlen. unfold stir_needed, reseeds, _rs_forkdetect. fold (forked pid w).
  destruct (forked pid w); cbn [orb]; [|done]. destruct (rs w); [|done]. cbn. by apply Z.leb_le.
Qed.

Lemma stir_if_needed_quiet pid w r x len :
  live w r x → 0 <= len → reseeds pid w len = false →
  let r' := mk_rs (rs_have r) (rs_count r - len) in
  _rs_stir_if_needed pid w len = Ok (set_rs w r') ∧ live (set_rs w r') r' x.
Proof.
  intros [] Hlen E. unfold _rs_stir_if_needed. rewrite stir_needed_reseeds, E by done.
  unfold reseeds in E. apply orb_false_iff in E as [Ef Ec]. rewrite live_rs0 in Ec.
  assert (_rs_forkdetect pid w = w) as -> by (unfold _rs_forkdetect; by rewrite (Ef : _ || _ = false)).
  cbn [res_bind]. rewrite live_rs0. cbn [deref res_bind]. rewrite Ec. apply Z.leb_gt in Ec.
  split; [done|]. split; [reflexivity|done..| |done]. cbn [rs_count]. lia.
Qed.

Lemma stir_if_needed_spec pid w len :
  inv w → 0 <= len →
  safe_or failure
    (λ w', ∃ r x, live w' r x ∧ calls w' = (calls w + if reseeds pid w len then 1 else 0)%nat)
    (_rs_stir_if_needed pid w len).
Proof.
  intros Hinv Hlen. destruct (reseeds pid w len) eqn:E.
  - unfold _rs_stir_if_needed. rewrite stir_needed_reseeds, E by done.
    set (w1 := _rs_forkdetect pid w).
    eapply (safe_or_bind failure); [apply rs_stir_spec|].
    { unfold w1, _rs_forkdetect. destruct (_ || _); [|by apply live_settled].
      destruct Hinv as [[Hr Hx]|(r & x & [])]; [left; by rewrite Hr|].
      right. rewrite live_rs0. by exists (mk_rs 0 0), x. }
    intros w2 (r & x & [] & Hcalls & _). rewrite live_rs0. cbn [deref res_bind safe_or].
    eexists _, x. split.
    + split; [reflexivity|done..| |done]. cbn [rs_count]. destruct (Z.leb_spec (rs_count r) len); lia.
    + rewrite Nat.add_1_r. cbn [calls set_rs]. rewrite Hcalls. unfold w1, _rs_forkdetect.
      by destruct (_ || _).
  - destruct Hinv as [[Hr Hx]|(r & x & Hlive)].
    { unfold reseeds in E. rewrite Hr, orb_true_r in E. done. }
    destruct (stir_if_needed_quiet pid w r x len Hlive Hlen E) as [-> Hl].
    eexists _, x. split; [exact Hl|]. by rewrite Nat.add_0_r.
Qed.

(** *** Handing out bytes *)

(** The keystream that is left in the buffer. *)
Definition unread (r : _rs) (x : _rsx) : list Z := drop (RSBUFSZ - rs_have r) (rs_buf x).

Definition erase (w : world) (r : _rs) (x : _rsx) (m : nat) : world :=
  set_rs (set_rsx w (mk_rsx (rs_chacha x)
    (replicate (RSBUFSZ - rs_have r + m) 0 ++ drop m (unread r x))))
    (mk_rs (rs_have r - m) (rs_count r)).

Lemma live_buffer w r x :
  live w r x → rs_buf x = replicate (RSBUFSZ - rs_have r) 0 ++ unread r x.
Proof. intros []. unfold unread. by rewrite <- live_erased0, take_drop. Qed.

Lemma unread_length w r x : live w r x → length (unread r x) = rs_have r.
Proof. intros []. unfold unread. rewrite length_drop, live_length0. lia. Qed.

Lemma unread_bytes w r x : live w r x → Forall is_byte (unread r x).
Proof. intros []. by apply Forall_drop. Qed.

Lemma take_keystream_spec w r x m :
  live w r x → (m <= rs_have r)%nat →
  take_keystream w m = Ok (take m (unread r x), erase w r x m)
  ∧ live (erase w r x m) (mk_rs (rs_have r - m) (rs_count r))
      (mk_rsx (rs_chacha x) (replicate (RSBUFSZ - rs_have r + m) 0 ++ drop m (unread r x))).
Proof.
  intros Hlive Hm. pose proof (live_buffer _ _ _ Hlive) as Hbuf.
  pose proof (unread_length _ _ _ Hlive) as Hul. pose proof (unread_bytes _ _ _ Hlive) as Hub.
  destruct Hlive. split.
  - unfold take_keystream. rewrite live_rs0, live_rsx0. cbn [deref res_bind].
    rewrite mget_ok by lia. cbn [res_bind]. unfold mset.
    rewrite mput_ok by (rewrite length_replicate; lia). cbn [res_bind].
    unfold erase. do 5 f_equal. rewrite length_replicate, live_erased0, app_assoc, <- replicate_add.
    f_equal. unfold unread. by rewrite drop_drop.
  - split; [reflexivity|reflexivity|done|..]; cbn [rs_buf rs_have rs_count].
    + rewrite length_app, length_replicate, length_drop. lia.
    + apply Forall_app. split; [apply replicate_bytes|by apply Forall_drop].
    + lia.
    + done.
    + replace (RSBUFSZ - (rs_have r - m))%nat with (RSBUFSZ - rs_have r + m)%nat by lia.
      by rewrite take_app_length' by by rewrite length_replicate.
Qed.

Lemma rekey_live w r x dat datlen :
  live w r x → data_ok dat datlen →
  let r' := mk_rs (RSBUFSZ - KEYSZ - IVSZ) (rs_count r) in
  let x' := rekeyed (mix (fresh x) dat datlen) in
  _rs_rekey w dat datlen = Ok (set_rs (set_rsx w x') r') ∧ live (set_rs (set_rsx w x') r') r' x'.
Proof.
  intros [] Hd. split; [by apply rs_rekey_value|]. pose proof RSBUFSZ_val.
  destruct (fresh_ok x dat datlen live_words0 Hd) as [Hl Hb].
  destruct (rekeyed_ok _ Hl Hb) as (? & ? & ?).
  split; cbn [rs_have rs_count]; [done..| |done|].
  - unfold KEYSZ, IVSZ. lia.
  - replace (RSBUFSZ - (RSBUFSZ - KEYSZ - IVSZ))%nat with 40%nat by (unfold KEYSZ, IVSZ; lia).
    cbn [rs_buf rekeyed]. by rewrite take_app_length' by by rewrite length_replicate.
Qed.

(** ** The generator as a stream

    What is left of the components when one looks only at the bytes: the context and
    the unread keystream.  When that is used up it is refilled, its first 40 bytes
    making the next context. *)
Definition gen : Type := chacha_ctx * list Z.

Definition refill (c : chacha_ctx) : gen :=
  let ks := keystream c (Z.of_nat RSBUFSZ) in (seeded ks, drop (KEYSZ + IVSZ) ks).

Definition refilled (g : gen) : gen := match g with (c, []) => refill c | g => g end.

(** The next byte. *)
Definition pull (g : gen) : Z * gen :=
  match refilled g with
  | (c, b :: rest) => (b, refilled (c, rest))
  | (c, []) => (0, g)
  end.

Fixpoint pulls (n : nat) (g : gen) : list Z * gen :=
  match n with
  | O => ([], g)
  | S n => let '(b, g) := pull g in let '(bs, g) := pulls n g in (b :: bs, g)
  end.

Definition abs (r : _rs) (x : _rsx) : gen := (rs_chacha x, unread r x).

Lemma pulls_app n m g :
  pulls (n + m) g
  = let '(bs1, g1) := pulls n g in let '(bs2, g2) := pulls m g1 in (bs1 ++ bs2, g2).
Proof.
  revert g. induction n as [|n IH]; intros g; [simpl; by destruct (pulls m g)|].
  simpl. destruct (pull g) as [b g1]. rewrite IH. destruct (pulls n g1) as [bs1 g2].
  by destruct (pulls m g2).
Qed.

Lemma pulls_take c b u m :
  (0 < m <= S (length u))%nat →
  pulls m (c, b :: u) = (take m (b :: u), refilled (c, drop m (b :: u))).
Proof.
  revert b u. induction m as [|m IH]; intros b u Hm; [lia|].
  cbn [pulls pull refilled]. destruct u as [|b' u].
  - destruct m; [|simpl in Hm; lia]. reflexivity.
  - cbn [refilled]. destruct m as [|m]; [reflexivity|].
    rewrite IH by (simpl in Hm; lia). reflexivity.
Qed.

Lemma pulls_refilled n g : (0 < n)%nat → snd (refilled g) ≠ [] → pulls n g = pulls n (refilled g).
Proof.
  intros Hn Hne. destruct n as [|n]; [lia|]. cbn [pulls].
  assert (pull g = pull (refilled g)) as ->; [|done]. unfold pull.
  destruct g as [c [|b u]]; [|done]. cbn [refilled] in *.
  destruct (refill c) as [c' u'] eqn:E. by destruct u'.
Qed.

(** The abstract state after a rekeying. *)
Lemma abs_rekeyed r b :
  abs (mk_rs (RSBUFSZ - KEYSZ - IVSZ) (rs_count r)) (rekeyed b)
  = (seeded b, drop (KEYSZ + IVSZ) b).
Proof.
  pose proof RSBUFSZ_val. unfold abs. apply (f_equal2 pair); [reflexivity|].
  unfold unread. cbn [rs_have rekeyed rs_buf].
  replace (RSBUFSZ - (RSBUFSZ - KEYSZ - IVSZ))%nat with (KEYSZ + IVSZ)%nat by (unfold KEYSZ, IVSZ; lia).
  by rewrite drop_app_length' by by rewrite length_replicate.
Qed.

Lemma refill_fresh x : refill (rs_chacha x) = (seeded (fresh x), drop (KEYSZ + IVSZ) (fresh x)).
Proof. reflexivity. Qed.

#[local] Opaque refill fresh.

Lemma abs_erase w r x m :
  live w r x → (m <= rs_have r)%nat →
  abs (mk_rs (rs_have r - m) (rs_count r))
    (mk_rsx (rs_chacha x) (replicate (RSBUFSZ - rs_have r + m) 0 ++ drop m (unread r x)))
  = (rs_chacha x, drop m (unread r x)).
Proof.
  intros [] Hm. unfold abs. f_equal. unfold unread at 1. cbn [rs_have rs_buf].
  apply drop_app_length'. rewrite length_replicate. lia.
Qed.

(** A turn that empties the buffer. *)
Lemma pulls_turn n m c u :
  (m <= n)%nat → (0 < n)%nat → m = length u → snd (refill c) ≠ [] →
  pulls n (c, u) = let '(rest, g) := pulls (n - m) (refill c) in (take m u ++ rest, g).
Proof.
  intros Hmn Hn -> Hne. destruct u as [|b u].
  - rewrite pulls_refilled by done. cbn [refilled length]. rewrite Nat.sub_0_r, take_nil.
    by destruct (pulls n (refill c)).
  - replace n with (length (b :: u) + (n - length (b :: u)))%nat at 1 by lia.
    rewrite pulls_app, pulls_take by (simpl; lia). rewrite drop_all. cbn [refilled].
    by destruct (pulls _ (refill c)).
Qed.

(** What stays as it was. *)
Definition frame (w w' : world) : Prop :=
  calls w' = calls w ∧ _rs_pid w' = _rs_pid w ∧ _rs_forked w' = _rs_forked w.

(** A turn pulls what it can, and leaves a buffer that is not empty. *)
Lemma random_step_spec w r x n :
  live w r x → (0 < n)%nat →
  ∃ out w' r' x', random_step w n = Ok (out, w') ∧ live w' r' x' ∧ (0 < rs_have r')%nat
    ∧ rs_count r' = rs_count r ∧ frame w w' ∧ length out = Nat.min n (rs_have r)
    ∧ pulls n (abs r x) = let '(rest, g) := pulls (n - length out) (abs r' x') in (out ++ rest, g).
Proof.
  intros Hlive Hn. pose proof (unread_length _ _ _ Hlive) as Hul. pose proof Hlive as [].
  unfold random_step, have_of. rewrite live_rs0. cbn [deref res_bind].
  set (m := Nat.min n (rs_have r)).
  set (r1 := mk_rs (rs_have r - m) (rs_count r)).
  assert (∃ w1 x1, (if (0 <? rs_have r)%nat then take_keystream w m else Ok ([], w))
    = Ok (take m (unread r x), w1) ∧ live w1 r1 x1 ∧ frame w w1
      ∧ abs r1 x1 = (rs_chacha x, drop m (unread r x)))
    as (w1 & x1 & -> & Hlive1 & Hframe & Habs).
  { destruct (Nat.ltb_spec 0 (rs_have r)).
    - destruct (take_keystream_spec w r x m Hlive) as [-> ?]; [lia|].
      eexists _, _. split; [reflexivity|]. split; [done|]. split; [done|]. apply (abs_erase w); [done|lia].
    - exists w, x. assert (rs_have r = 0)%nat as E0 by lia.
      assert (m = 0%nat) as -> by lia. unfold r1. rewrite Nat.sub_0_r.
      destruct r. split; [done|]. split; [done|]. by split. }
  cbn [res_bind]. pose proof Hlive1 as [Hr1 _ Hw1 _ _ _ _ _]. rewrite Hr1. cbn [deref res_bind].
  assert (length (take m (unread r x)) = m) as Hlen by (rewrite length_take; lia).
  destruct (Nat.eqb_spec (rs_have r1) 0) as [E|E].
  - destruct (rekey_live w1 r1 x1 None 0 Hlive1 I) as [-> Hlive2]. cbn [res_bind mix] in *.
    eexists _, _, _, _. split; [reflexivity|]. split; [exact Hlive2|]. pose proof RSBUFSZ_val.
    split; [cbn [rs_have]; unfold KEYSZ, IVSZ; lia|]. split; [reflexivity|].
    split; [exact Hframe|]. split; [exact Hlen|].
    rewrite abs_rekeyed, <- refill_fresh, Hlen.
    assert (refilled (rs_chacha x1, []) = refill (rs_chacha x1)) as Er by reflexivity.
    assert (rs_have r = m) as Ehm by (cbn in E; lia).
    injection Habs as Ec Eu. rewrite drop_ge in Eu by lia. rewrite Ec in Er |- *.
    apply pulls_turn; [lia|done|lia|].
    rewrite refill_fresh. cbn [snd]. intros Hnil%(f_equal length).
    rewrite length_drop in Hnil. destruct (fresh_ok x None 0 live_words0 I) as [Hl _].
    cbn [mix] in Hl. rewrite Hl in Hnil. unfold KEYSZ, IVSZ in Hnil. cbn [length] in Hnil. lia.
  - cbn [res_bind]. eexists _, w1, r1, x1. split; [reflexivity|]. split; [done|]. split; [lia|].
    split; [done|]. split; [done|]. split; [done|]. rewrite Hlen, Habs.
    assert (m = n) as Em by (cbn in E; lia). rewrite Em, Nat.sub_diag. cbn [pulls].
    unfold abs. destruct (unread r x) as [|b u] eqn:Eu; [simpl in Hul; lia|].
    rewrite pulls_take by (simpl in Hul; lia). rewrite app_nil_r.
    destruct (drop n (b :: u)) eqn:Ed; [|done].
    apply (f_equal length) in Ed. rewrite length_drop in Ed. cbn in E. simpl in *. lia.
Qed.

Lemma frame_trans w1 w2 w3 : frame w1 w2 → frame w2 w3 → frame w1 w3.
Proof. intros (? & ? & ?) (? & ? & ?). split_and!; congruence. Qed.

Lemma random_loop_spec fuel w r x n :
  live w r x → (n + (if (rs_have r =? 0)%nat then 1 else 0) < fuel)%nat →
  ∃ out w' r' x', random_loop fuel w n = Ok (out, w') ∧ live w' r' x' ∧ length out = n
    ∧ rs_count r' = rs_count r ∧ frame w w' ∧ pulls n (abs r x) = (out, abs r' x').
Proof.
  revert w r x n. induction fuel as [|fuel IH]; intros w r x n Hlive Hf; [lia|].
  cbn [random_loop]. destruct (Nat.eqb_spec n 0) as [->|Hn].
  { exists [], w, r, x. split_and!; done. }
  destruct (random_step_spec w r x n Hlive) as (out & w1 & r1 & x1 & -> & Hlive1 & Hhave & Hc
    & Hfr & Hlen & Hp); [lia|]. cbn [res_bind].
  destruct (IH w1 r1 x1 (n - length out)%nat Hlive1) as (rest & w2 & r2 & x2 & -> & Hlive2 & Hrl
    & Hc2 & Hfr2 & Hp2).
  { destruct (Nat.eqb_spec (rs_have r) 0), (Nat.eqb_spec (rs_have r1) 0); lia. }
  cbn [res_bind]. exists (out ++ rest), w2, r2, x2. split; [done|]. split; [done|].
  split; [rewrite length_app; lia|]. split; [congruence|]. split; [by eapply frame_trans|].
  by rewrite Hp, Hp2.
Qed.

(** The pulled bytes are bytes. *)
Lemma refill_ok c : words c → words (fst (refill c)) ∧ Forall is_byte (snd (refill c)).
Proof.
  intros Hc. set (x := mk_rsx c []). change c with (rs_chacha x). rewrite refill_fresh.
  destruct (fresh_ok x None 0 Hc I) as [Hl Hb]. cbn [mix] in *. pose proof RSBUFSZ_val. split.
  - apply seeded_words; [done|lia].
  - by apply Forall_drop.
Qed.

Definition gen_ok (g : gen) : Prop := words (fst g) ∧ Forall is_byte (snd g).

Lemma refilled_ok g : gen_ok g → gen_ok (refilled g).
Proof. destruct g as [c [|b u]]; [|done]. intros [Hc _]. by apply refill_ok. Qed.

Lemma pulls_bytes n g : gen_ok g → Forall is_byte (fst (pulls n g)).
Proof.
  revert g. induction n as [|n IH]; intros g Hg; [constructor|]. cbn [pulls].
  assert (is_byte (fst (pull g)) ∧ gen_ok (snd (pull g))) as [Hb Hg'].
  { unfold pull. pose proof (refilled_ok g Hg) as H. destruct (refilled g) as [c [|b u]].
    - split; [unfold is_byte; simpl; lia|done].
    - destruct H as [Hc Hu]. apply Forall_cons_1 in Hu as [Hb Hu]. split; [done|].
      by apply refilled_ok. }
  destruct (pull g) as [b g']. pose proof (IH g' Hg') as H. destruct (pulls n g').
  by constructor.
Qed.

Lemma abs_ok w r x : live w r x → gen_ok (abs r x).
Proof. intros H. split; [by destruct H|by apply (unread_bytes w)]. Qed.

(** ** The operations *)

(** C29.  Between reseedings the generator is the stream: [arc4random_buf] hands out the next
    bytes of it, so that it does not matter how a request is cut into calls, and
    takes them from the number of bytes left to the next reseeding. *)
Theorem arc4random_buf_pulls pid w r x n :
  live w r x → reseeds pid w (Z.of_nat n) = false →
  ∃ out w' r' x', arc4random_buf pid w n = Ok (out, w') ∧ live w' r' x'
    ∧ pulls n (abs r x) = (out, abs r' x')
    ∧ rs_count r' = rs_count r - Z.of_nat n ∧ frame w w'.
Proof.
  intros Hlive Hre. unfold arc4random_buf, _rs_random_buf.
  destruct (stir_if_needed_quiet pid w r x (Z.of_nat n) Hlive ltac:(lia) Hre) as [-> Hlive1].
  cbn [res_bind].
  destruct (random_loop_spec (S (S n)) _ _ x n Hlive1)
    as (out & w' & r' & x' & -> & Hl' & _ & Hc & Hf & Hp); [destruct (_ =? _)%nat; lia|].
  by exists out, w', r', x'.
Qed.

(** The calls of the interface, and the child's side of a fork. *)
Inductive op :=
  | Stir
  | AddRandom (dat : list Z) (datlen : Z)
  | Word
  | Buf (n : nat)
  | Fork.

(** A caller of [arc4random_addrandom] passes what it owns. *)
Definition op_ok (o : op) : Prop :=
  match o with AddRandom dat datlen => data_ok (Some dat) (u64 datlen) | _ => True end.

Definition run (pid : Z) (o : op) (w : world) : res (list Z * world) :=
  match o with
  | Stir => let* w := arc4random_stir w in Ok ([], w)
  | AddRandom dat datlen => let* w := arc4random_addrandom pid w dat datlen in Ok ([], w)
  | Word => let* (val, w) := arc4random pid w in Ok ([val], w)
  | Buf n => arc4random_buf pid w n
  | Fork => Ok ([], _rs_forkhandler w)
  end.

Fixpoint run_all (l : list (Z * op)) (w : world) : res (list (list Z) * world) :=
  match l with
  | [] => Ok ([], w)
  | (pid, o) :: l =>
      let* (out, w) := run pid o w in
      let* (outs, w) := run_all l w in
      Ok (out :: outs, w)
  end.

Definition out_ok (o : op) (out : list Z) : Prop :=
  match o with
  | Word => ∃ v, out = [v] ∧ is_word v
  | Buf n => length out = n ∧ Forall is_byte out
  | _ => out = []
  end.

(** How often the kernel is asked for entropy. *)
Definition asks (pid : Z) (o : op) (w : world) : nat :=
  let due len := if reseeds pid w len then 1%nat else 0%nat in
  match o with
  | Stir => 1
  | AddRandom _ datlen => due (u64 datlen)
  | Word => due 4
  | Buf n => due (Z.of_nat n)
  | Fork => 0
  end.

Lemma random_u32_spec pid w :
  inv w →
  safe_or failure (λ '(v, w'), is_word v ∧ inv w' ∧ calls w' = (calls w + asks pid Word w)%nat)
    (_rs_random_u32 pid w).
Proof.
  intros Hinv. unfold _rs_random_u32.
  eapply safe_or_bind; [by apply (stir_if_needed_spec pid w 4)|].
  intros w1 (r1 & x1 & Hlive1 & Hc). pose proof Hlive1 as []. unfold have_of. rewrite live_rs0.
  cbn [deref res_bind].
  eapply (safe_or_bind failure (λ w2, ∃ r2 x2, live w2 r2 x2 ∧ (4 <= rs_have r2)%nat ∧ calls w2 = calls w1)).
  { destruct (Nat.ltb_spec (rs_have r1) 4).
    - destruct (rekey_live w1 r1 x1 None 0 Hlive1 I) as [-> Hl]. cbn [safe_or].
      eexists _, _. split; [exact Hl|]. pose proof RSBUFSZ_val. cbn [rs_have]. unfold KEYSZ, IVSZ.
      split; [lia|done].
    - cbn. by exists r1, x1. }
  intros w2 (r2 & x2 & Hlive2 & Hhave & Hc2).
  destruct (take_keystream_spec w2 r2 x2 4 Hlive2 Hhave) as [-> Hlive3]. cbn [res_bind].
  pose proof (unread_bytes w2 r2 x2 Hlive2) as Hb. pose proof (unread_length w2 r2 x2 Hlive2).
  eapply safe_or_bind; [apply U8TO32_LITTLE_safe; [by apply Forall_take|rewrite length_take; lia]|].
  intros v Hv. cbn [safe_or]. split; [done|]. split; [right; eauto|]. cbn [asks calls erase set_rs set_rsx].
  by rewrite Hc2, Hc.
Qed.

Lemma run_spec pid o w :
  inv w → op_ok o →
  safe_or failure (λ '(out, w'), inv w' ∧ out_ok o out ∧ calls w' = (calls w + asks pid o w)%nat)
    (run pid o w).
Proof.
  intros Hinv Hok. destruct o as [|dat datlen| |n|]; cbn [run].
  - eapply safe_or_bind; [by apply rs_stir_spec, live_settled|].
    intros w' (r & x & Hlive & Hc & _). cbn. split; [right; eauto|]. split; [done|lia].
  - unfold arc4random_addrandom. rewrite res_bind_assoc.
    eapply safe_or_bind; [apply (stir_if_needed_spec pid w (u64 datlen) Hinv); apply u64_range|].
    intros w1 (r1 & x1 & Hlive1 & Hc).
    destruct (rekey_live w1 r1 x1 (Some dat) (u64 datlen) Hlive1 Hok) as [-> Hl].
    cbn [res_bind safe_or]. split; [right; eauto|]. split; [done|]. exact Hc.
  - eapply safe_or_bind; [by apply (random_u32_spec pid w)|]. intros [v w'] (Hv & Hi & Hc).
    cbn. split; [done|]. split; [eauto|done].
  - unfold arc4random_buf, _rs_random_buf.
    eapply safe_or_bind; [apply (stir_if_needed_spec pid w (Z.of_nat n) Hinv); lia|].
    intros w1 (r1 & x1 & Hlive1 & Hc).
    destruct (random_loop_spec (S (S n)) w1 r1 x1 n Hlive1)
      as (out & w' & r' & x' & -> & Hl' & Hlen & _ & (Hc' & _) & Hp); [destruct (_ =? _)%nat; lia|].
    cbn [safe_or]. split; [right; eauto|]. split; [|cbn [asks]; congruence].
    split; [done|]. pose proof (pulls_bytes n _ (abs_ok _ _ _ Hlive1)) as Hb. by rewrite Hp in Hb.
  - cbn. split; [|by rewrite Nat.add_0_r].
    destruct Hinv as [|(r & x & [])]; [by left|]. right. by exists r, x.
Qed.

(** C25.  Whatever the program asks for, in whatever order and across forks: no access is out
    of bounds, the only failures are those of the kernel, and at every point the bytes of
    the buffer that were handed out or used as a key have been erased. *)
Theorem arc4random_keeps_erased l :
  Forall (λ '(_, o), op_ok o) l →
  safe_or failure (λ '(outs, w), inv w ∧ Forall2 (λ '(_, o) out, out_ok o out) l outs)
    (run_all l start).
Proof.
  intros Hl. assert (inv start) as Hinv by by left. revert Hinv. generalize start.
  induction Hl as [|[pid o] l Ho Hl IH]; intros w Hinv; [by split|]. cbn [run_all].
  eapply safe_or_bind; [by apply run_spec|]. intros [out w1] (Hinv1 & Hout & _).
  eapply safe_or_bind; [by apply IH|]. intros [outs w2] (Hinv2 & Houts). cbn.
  split; [done|]. by constructor.
Qed.

(** C38.  An operation asks the kernel exactly when it must, and the child of a fork always
    reseeds before it hands out anything, so that it shares no byte with its parent. *)
Theorem arc4random_reseeds pid o w :
  inv w → op_ok o →
  safe_or failure (λ '(_, w'), calls w' = (calls w + asks pid o w)%nat) (run pid o w)
  ∧ (o ≠ Fork → asks pid o (_rs_forkhandler w) = 1%nat)
  ∧ (o ≠ Fork → pid ≠ _rs_pid w → asks pid o w = 1%nat).
Proof.
  intros Hinv Hok. split; [|split].
  - eapply safe_or_mono; [by apply run_spec|]. intros [out w'] (_ & _ & ?). done.
  - intros Ho. assert (∀ len, reseeds pid (_rs_forkhandler w) len = true) as H.
    { intros len. unfold reseeds, forked. cbn. by rewrite orb_true_r. }
    destruct o; cbn [asks]; rewrite ?H; done.
  - intros Ho Hp. assert (∀ len, reseeds pid w len = true) as H.
    { intros len. unfold reseeds, forked. destruct (Z.eqb_spec (_rs_pid w) pid); [by subst|].
      cbn. by rewrite orb_true_r. }
    destruct o; cbn [asks]; rewrite ?H; done.
Qed.

End arc4random.

(** ** Witnesses *)

Definition entropy : nat → option (list Z) := λ _, Some (replicate 40 7).

Lemma entropy_ok n b : entropy n = Some b → length b = 40%nat ∧ Forall is_byte b.
Proof. intros [= <-]. split; [reflexivity|]. apply (Forall_replicate is_byte 40 7). unfold is_byte. lia. Defined.

Definition a_world : world :=
  mk_world (Some (mk_rs 0 2000000)) (Some (mk_rsx zero_ctx (replicate RSBUFSZ 0))) 5 false 1.

Lemma a_world_live :
  live a_world (mk_rs 0 2000000) (mk_rsx zero_ctx (replicate RSBUFSZ 0)).
Proof.
  split; [reflexivity|reflexivity|..]; cbn [rs_chacha rs_buf rs_have rs_count].
  - apply ctx_of_words; apply zeros_bytes || (vm_compute; lia).
  - by rewrite length_replicate.
  - apply zeros_bytes.
  - lia.
  - vm_compute. split; congruence.
  - rewrite Nat.sub_0_r. by rewrite take_ge by by rewrite length_replicate.
Defined.

Lemma arc4random_buf_pulls_witness :
  ∃ out w' r' x', arc4random_buf entropy true 5 a_world 3 = Ok (out, w') ∧ live w' r' x'
    ∧ pulls 3 (zero_ctx, []) = (out, abs r' x')
    ∧ rs_count r' = 1999997 ∧ frame a_world w'.
Proof.
  exact (arc4random_buf_pulls entropy true 5 a_world _ _ 3 a_world_live eq_refl).
Defined.

Lemma arc4random_keeps_erased_witness :
  let l := [(5, Buf 3); (5, Word); (6, Fork); (6, AddRandom [1; 2] 2); (6, Stir)] in
  safe_or (failure entropy true)
    (λ '(outs, w), inv w ∧ Forall2 (λ '(_, o) out, out_ok o out) l outs)
    (run_all entropy true l start).
Proof.
  intros l. apply (arc4random_keeps_erased entropy true entropy_ok l).
  repeat (apply Forall_cons; split); try done. split; [|vm_compute; lia].
  repeat (apply Forall_cons; split); try (unfold is_byte; lia). done.
Defined.

Lemma arc4random_reseeds_witness :
  safe_or (failure entropy true) (λ '(_, w'), calls w' = 1%nat) (run entropy true 5 Word start)
  ∧ (Word ≠ Fork → asks 5 Word (_rs_forkhandler start) = 1%nat)
  ∧ (Word ≠ Fork → 5 ≠ 0 → asks 5 Word start = 1%nat).
Proof. exact (arc4random_reseeds entropy true entropy_ok 5 Word start (or_introl (conj eq_refl eq_refl)) I). Defined.
