(* ===== verification/Tr.v ===== *)
(** * tr: usr.bin/tr/str.c and tr.c

    The scanner of character specifications, a state machine that yields one
    character per call, and the four modes of the program, which fill two tables
    from it and filter their input through them.  The program stays in the C
    locale.  A C string is the memory its pointer can read: the characters, the
    NUL, and nothing after it.  The file ends with the invariant of the scanner;
    what the program does is in TrSpec. *)

From S2P Require Import Prelude Libc.

Definition NCHARS : Z := 256.
Definition OOBCH : Z := 256.

(** [errx(1, ...)], [usage()]. *)
Definition EXIT : Z := 1.

(** ** The scanner *)

Inductive scan_state := EOS | INFINITE | NORMAL | RANGE | SEQUENCE | SET.

#[global] Instance scan_state_eq_dec : EqDecision scan_state.
Proof. solve_decision. Defined.

(** [second] tells STRING2 from STRING1; [set] is what [s->set] points to. *)
Record STR := mkSTR {
  second : bool; state : scan_state; cnt : Z; lastch : Z; set : list Z; text : list Z }.

Definition str_create (second : bool) (txt : list Z) : STR :=
  mkSTR second NORMAL 0 OOBCH [] txt.

Definition set_text (s : STR) (m : list Z) : STR :=
  mkSTR (second s) (state s) (cnt s) (lastch s) (set s) m.
Definition set_state (s : STR) (st : scan_state) : STR :=
  mkSTR (second s) st (cnt s) (lastch s) (set s) (text s).
Definition set_lastch (s : STR) (c : Z) : STR :=
  mkSTR (second s) (state s) (cnt s) c (set s) (text s).
Definition set_cnt (s : STR) (n : Z) : STR :=
  mkSTR (second s) (state s) n (lastch s) (set s) (text s).

(** [p[i]] and [p + i]. *)
Definition at_ (m : list Z) (i : nat) : res Z :=
  match m !! i with Some c => Ok c | None => Fault end.
Definition plus (m : list Z) (i : nat) : res (list Z) :=
  if (i <=? length m)%nat then Ok (drop i m) else Fault.

(** [strstr(m, "ab")], [strpbrk(m, "ab")] and [strchr(m, a)]: the suffix found. *)
Fixpoint strstr2 (m : list Z) (a b : Z) : res (option (list Z)) :=
  match m with
  | [] => Fault
  | c :: m' => if c =? 0 then Ok None else
               let* d := at_ m' 0 in
               if (c =? a) && (d =? b) then Ok (Some m) else strstr2 m' a b
  end.
Fixpoint strpbrk2 (m : list Z) (a b : Z) : res (option (list Z)) :=
  match m with
  | [] => Fault
  | c :: m' => if c =? 0 then Ok None
               else if (c =? a) || (c =? b) then Ok (Some m) else strpbrk2 m' a b
  end.
Definition strchr (m : list Z) (a : Z) : res (option (list Z)) := strpbrk2 m a a.

(** The loop of [backslash]: the digits after the backslash.  The result is the
    number of digits, their value, the character that ended the loop and the
    text there. *)
Fixpoint octal_digits (fuel : nat) (n val : Z) (m : list Z) : res (Z * Z * Z * list Z) :=
  match fuel with
  | O => Fault
  | S fuel =>
      let* m := plus m 1 in
      let* c := at_ m 0 in
      if negb (isdigit c) then Ok (n, val, c, m) else
      let val := val * 8 + c - ch "0" in
      let n := n + 1 in
      if n =? 3 then let* m := plus m 1 in Ok (n, val, c, m)
      else octal_digits fuel n val m
  end.

Definition escape (c : Z) : Z :=
  if c =? ch "a" then 7
  else if c =? ch "b" then 8
  else if c =? ch "e" then 27
  else if c =? ch "f" then 12
  else if c =? ch "n" then 10
  else if c =? ch "r" then 13
  else if c =? ch "t" then 9
  else if c =? ch "v" then 11
  else c.

Definition backslash (s : STR) : res (Z * STR) :=
  let* (n, val, c, m) := octal_digits 3 0 0 (text s) in
  if negb (n =? 0) then
    if OOBCH <=? val then Err EXIT else Ok (val, set_text s m)
  else if c =? 0 then Ok (92, set_state (set_text s m) EOS)
  else let* m := plus m 1 in Ok (escape c, set_text s m).

Definition classes : list (list Z * (Z → bool)) :=
  [ (str "alnum", isalnum); (str "alpha", isalpha); (str "blank", isblank);
    (str "cntrl", iscntrl); (str "digit", isdigit); (str "graph", isgraph);
    (str "lower", islower); (str "print", isprint); (str "punct", ispunct);
    (str "space", isspace); (str "upper", isupper); (str "xdigit", isxdigit) ].

(** [bsearch] finds the class of that name: [c_class] is 0 for that one only. *)
Definition find_class (name : list Z) : option (Z → bool) :=
  snd <$> find (λ c, bool_decide (fst c = name)) classes.

(** The characters [0 .. NCHARS - 1]. *)
Definition all_chars : list Z := map Z.of_nat (seq 0 256).

(** The array of the class: its members, the end mark and zeros. *)
Definition genclass (name : list Z) : res (list Z) :=
  match find_class name with
  | None => Err EXIT
  | Some func => let p := filter (λ c, func c = true) all_chars ++ [OOBCH] in
                 Ok (p ++ replicate (257 - length p) 0)
  end.

Definition genequiv (s : STR) : res STR :=
  let* c := at_ (text s) 0 in
  let* (e, s) := if c =? 92 then backslash s
                 else let* m := plus (text s) 1 in Ok (c, set_text s m) in
  let* c := at_ (text s) 0 in
  if negb (c =? ch "=") then Err EXIT else
  let* m := plus (text s) 1 in
  let* c := at_ m 0 in
  if negb (c =? ch "]") then Err EXIT else
  let* m := plus m 1 in
  Ok (mkSTR (second s) SET 0 (lastch s) [e; OOBCH] m).

(** The text points at the hyphen. *)
Definition genrange (s : STR) : res (bool * STR) :=
  let savestart := text s in
  let* m := plus (text s) 1 in
  let s := set_text s m in
  let* c := at_ m 0 in
  let* (stopval, s) := if c =? 92 then backslash s
                       else let* m := plus m 1 in Ok (c, set_text s m) in
  if stopval <? u8 (lastch s) then Ok (false, set_text s savestart)
  else Ok (true, mkSTR (second s) RANGE (stopval - lastch s + 1) (lastch s - 1) (set s) (text s)).

(** The count of a sequence, the text being after the asterisk. *)
Definition genseq_count (s : STR) : res (Z * STR) :=
  let* c := at_ (text s) 0 in
  if c =? 92 then backslash s
  else if c =? ch "]" then let* m := plus (text s) 1 in Ok (0, set_text s m)
  else if isdigit c then
    let line := cstr (text s) in
    let '(n, rest, _) := strtol line 0 in
    let* ep := plus (text s) (length line - length rest) in
    let* e := at_ ep 0 in
    if e =? ch "]" then let* m := plus ep 1 in Ok (s32 n, set_text s m) else Err EXIT
  else Err EXIT.

Definition genseq (s : STR) : res STR :=
  if negb (second s) then Err EXIT else
  let* c := at_ (text s) 0 in
  let* (l, s) := if c =? 92 then backslash s
                 else let* m := plus (text s) 1 in Ok (c, set_text s m) in
  let s := set_lastch s l in
  let* c := at_ (text s) 0 in
  if negb (c =? ch "*") then Err EXIT else
  let* m := plus (text s) 1 in
  let* (n, s) := genseq_count (set_text s m) in
  Ok (set_state (set_cnt s n) (if n =? 0 then INFINITE else SEQUENCE)).

(** The text points at the bracket; [true] when a bracket expression was read. *)
Definition bracket (s : STR) : res (bool * STR) :=
  let* c := at_ (text s) 1 in
  let* rest := plus (text s) 2 in
  if c =? ch ":" then
    let* p := strstr2 rest (ch ":") (ch "]") in
    match p with
    | None => Ok (false, s)
    | Some p =>
        let* q := genclass (take (length rest - length p) rest) in
        let* m := plus p 2 in
        Ok (true, mkSTR (second s) SET 0 (lastch s) q m)
    end
  else if c =? ch "=" then
    let* p := strstr2 rest (ch "=") (ch "]") in
    match p with
    | None => Ok (false, s)
    | Some p =>
        let* s := genequiv (set_text s rest) in
        let* m := plus p 2 in
        Ok (true, set_text s m)
    end
  else
    let* p := strpbrk2 rest (ch "*") (ch "]") in
    match p with
    | None => Ok (false, s)
    | Some p =>
        let* c := at_ p 0 in
        if negb (c =? ch "*") then Ok (false, s) else
        let* close := strchr p (ch "]") in
        match close with
        | None => Ok (false, s)
        | Some _ => let* m := plus (text s) 1 in
                    let* s := genseq (set_text s m) in Ok (true, s)
        end
    end.

(** [next]: whether there is a character, the character, and the scanner after. *)
Fixpoint next (fuel : nat) (s : STR) : res (bool * Z * STR) :=
  match fuel with
  | O => Fault
  | S fuel =>
      match state s with
      | EOS => Ok (false, lastch s, s)
      | INFINITE => Ok (true, lastch s, s)
      | NORMAL =>
          let* c := at_ (text s) 0 in
          if c =? 0 then Ok (false, lastch s, set_state s EOS) else
          let plain (s : STR) : res (bool * Z * STR) :=
            let* c := at_ (text s) 0 in
            let* (range, s) := if c =? ch "-" then genrange s else Ok (false, s) in
            if (range : bool) then next fuel s else Ok (true, lastch s, s) in
          if c =? 92 then let* (l, s) := backslash s in plain (set_lastch s l)
          else
            let* (b, s) := if c =? ch "[" then bracket s else Ok (false, s) in
            if (b : bool) then next fuel s
            else let* m := plus (text s) 1 in plain (set_lastch (set_text s m) c)
      | RANGE =>
          if cnt s =? 0 then next fuel (set_state s NORMAL)
          else let s := set_lastch (set_cnt s (cnt s - 1)) (lastch s + 1) in
               Ok (true, lastch s, s)
      | SEQUENCE =>
          if cnt s =? 0 then next fuel (set_state s NORMAL)
          else Ok (true, lastch s, set_cnt s (cnt s - 1))
      | SET =>
          let* c := at_ (set s) (Z.to_nat (cnt s)) in
          let s := set_lastch (set_cnt s (cnt s + 1)) c in
          if c =? OOBCH then
            next fuel (mkSTR (second s) NORMAL (cnt s) (lastch s) [] (text s))
          else Ok (true, c, s)
      end
  end.

(** A call may pass through the end of a set or range to the start of another: three
    levels. *)
Definition next_char (s : STR) : res (bool * Z * STR) := next 3 s.

(** ** The program *)

Definition zeros : list Z := replicate 256 0.

Definition tab_get (t : list Z) (i : Z) : res Z :=
  if i <? 0 then Fault else at_ t (Z.to_nat i).
Definition tab_set (t : list Z) (i v : Z) : res (list Z) :=
  if (0 <=? i) && (i <? NCHARS) then Ok (<[Z.to_nat i := v]> t) else Fault.

(** [while (next(str, &ch)) string[ch] = 1;]: [None] when the loop has not ended
    after [fuel] turns. *)
Fixpoint mark_loop (fuel : nat) (s : STR) (t : list Z) : option (res (list Z)) :=
  match fuel with
  | O => None
  | S fuel =>
      match next_char s with
      | Ok (true, c, s) => match tab_set t c 1 with
                           | Ok t => mark_loop fuel s t
                           | _ => Some Fault
                           end
      | Ok (false, _, _) => Some (Ok t)
      | Err e => Some (Err e)
      | Fault => Some Fault
      end
  end.

Definition setup (fuel : nat) (arg : list Z) (second cflag : bool) : option (res (list Z)) :=
  match mark_loop fuel (str_create second arg) zeros with
  | Some (Ok t) => Some (Ok (if cflag then map (λ v, if v =? 0 then 1 else 0) t else t))
  | r => r
  end.

(** The body of the matching loop: [ch] is translated to [ch2], which is noted for
    squeezing, and the second string advances. *)
Definition match_step (sflag : bool) (c ch2 : Z) (s2 : STR) (string1 string2 : list Z)
    : res (Z * STR * list Z * list Z) :=
  let* string1 := tab_set string1 c ch2 in
  let* string2 := if sflag then tab_set string2 ch2 1 else Ok string2 in
  let* (_, ch2, s2) := next_char s2 in
  Ok (ch2, s2, string1, string2).

Fixpoint match_loop (fuel : nat) (sflag : bool) (s1 : STR) (ch2 : Z) (s2 : STR)
    (string1 string2 : list Z) : option (res (list Z * list Z)) :=
  match fuel with
  | O => None
  | S fuel =>
      match next_char s1 with
      | Ok (true, c, s1) =>
          match match_step sflag c ch2 s2 string1 string2 with
          | Ok (ch2, s2, string1, string2) => match_loop fuel sflag s1 ch2 s2 string1 string2
          | Err e => Some (Err e)
          | Fault => Some Fault
          end
      | Ok (false, _, _) => Some (Ok (string1, string2))
      | Err e => Some (Err e)
      | Fault => Some Fault
      end
  end.

(** With -c: the characters from [c] on, [n] of them, those marked in [string1]
    being matched. *)
Fixpoint complement_loop (n : nat) (sflag : bool) (c ch2 : Z) (s2 : STR)
    (string1 string2 : list Z) : res (list Z * list Z) :=
  match n with
  | O => Ok (string1, string2)
  | S n =>
      let* v := tab_get string1 c in
      if v =? 0 then
        let* string1 := tab_set string1 c c in
        complement_loop n sflag (c + 1) ch2 s2 string1 string2
      else
        let* (ch2, s2, string1, string2) := match_step sflag c ch2 s2 string1 string2 in
        complement_loop n sflag (c + 1) ch2 s2 string1 string2
  end.

(** The filtering loops: [drop] removes characters, [squeeze] is the second table. *)
Fixpoint delete_loop (input : list Z) (string1 : list Z) : res (list Z) :=
  match input with
  | [] => Ok []
  | c :: input =>
      let* v := tab_get string1 c in
      let* out := delete_loop input string1 in
      Ok (if v =? 0 then c :: out else out)
  end.

(** [if (!deleted && (!string[ch] || lastch != ch))]. *)
Fixpoint squeeze_loop (input : list Z) (string1 string2 : list Z) (last : Z) : res (list Z) :=
  match input with
  | [] => Ok []
  | c :: input =>
      let* v1 := tab_get string1 c in
      let* v2 := tab_get string2 c in
      if (v1 =? 0) && ((v2 =? 0) || negb (last =? c))
      then let* out := squeeze_loop input string1 string2 c in Ok (c :: out)
      else squeeze_loop input string1 string2 last
  end.

(** [putchar] stores the [unsigned char] of its argument. *)
Fixpoint translate_loop (input : list Z) (string1 : list Z) : res (list Z) :=
  match input with
  | [] => Ok []
  | c :: input =>
      let* v := tab_get string1 c in
      let* out := translate_loop input string1 in
      Ok (u8 v :: out)
  end.

Fixpoint translate_squeeze_loop (input : list Z) (string1 string2 : list Z) (last : Z)
    : res (list Z) :=
  match input with
  | [] => Ok []
  | c :: input =>
      let* c := tab_get string1 c in
      let* v := tab_get string2 c in
      if (v =? 0) || negb (last =? c)
      then let* out := translate_squeeze_loop input string1 string2 c in Ok (u8 c :: out)
      else translate_squeeze_loop input string1 string2 last
  end.

Definition obind {A B} (m : option (res A)) (k : A → option (res B)) : option (res B) :=
  match m with
  | None => None
  | Some (Ok a) => k a
  | Some (Err e) => Some (Err e)
  | Some Fault => Some Fault
  end.

(** The tables of a translation. *)
Definition tr_tables (fuel : nat) (cflag sflag : bool) (arg1 arg2 : list Z)
    : option (res (list Z * list Z)) :=
  obind (if cflag then setup fuel arg1 false true else Some (Ok all_chars)) (λ string1,
  match next_char (str_create true arg2) with
  | Ok (true, ch2, s2) =>
      if cflag then Some (complement_loop 256 sflag 0 ch2 s2 string1 zeros)
      else match_loop fuel sflag (str_create false arg1) ch2 s2 string1 zeros
  | Ok (false, _, _) => Some (Err EXIT)
  | Err e => Some (Err e)
  | Fault => Some Fault
  end).

(** The program, its options read: what it writes for [input]. *)
Definition tr (fuel : nat) (cflag dflag sflag : bool) (arg1 : list Z)
    (arg2 : option (list Z)) (input : list Z) : option (res (list Z)) :=
  match dflag, sflag, arg2 with
  | true, true, None => Some (Err EXIT)
  | true, true, Some arg2 =>
      obind (setup fuel arg1 false cflag) (λ string1,
      obind (setup fuel arg2 true false) (λ string2,
      Some (squeeze_loop input string1 string2 OOBCH)))
  | true, false, Some _ => Some (Err EXIT)
  | true, false, None =>
      obind (setup fuel arg1 false cflag) (λ string1, Some (delete_loop input string1))
  | false, true, None =>
      obind (setup fuel arg1 false cflag) (λ string1,
      Some (squeeze_loop input zeros string1 OOBCH))
  | false, false, None => Some (Err EXIT)
  | false, sflag, Some arg2 =>
      obind (tr_tables fuel cflag sflag arg1 arg2) (λ '(string1, string2),
      Some (if sflag then translate_squeeze_loop input string1 string2 OOBCH
            else translate_loop input string1))
  end.

(** ** The invariant of the scanner *)

Definition scan_inv (s : STR) : Prop :=
  Forall is_byte (text s) ∧
  match state s with
  | EOS | NORMAL => True
  | INFINITE | SEQUENCE => is_byte (lastch s)
  | RANGE => 0 <= cnt s ∧ -1 <= lastch s ∧ lastch s + cnt s <= 255
  | SET => Forall (λ c, is_byte c ∨ c = OOBCH) (set s)
  end.

Lemma at_yields (P : Z → Prop) m i : Forall P m → yields P (at_ m i).
Proof. intros H. unfold at_, yields. destruct (m !! i) eqn:E; [by eapply Forall_lookup_1|done]. Qed.

Lemma plus_yields (P : Z → Prop) m i : Forall P m → yields (Forall P) (plus m i).
Proof. intros H. unfold plus. destruct (_ <=? _)%nat; [by apply Forall_drop|done]. Qed.

Lemma octal_digits_yields fuel n val m :
  Forall is_byte m → 0 <= val →
  yields (λ '(_, val, c, m), 0 <= val ∧ is_byte c ∧ Forall is_byte m) (octal_digits fuel n val m).
Proof.
  revert n val m. induction fuel as [|fuel IH]; intros n val m Hm Hval; [done|]. cbn [octal_digits].
  eapply yields_bind; [by apply plus_yields|]. intros m1 Hm1.
  eapply yields_bind; [by apply at_yields|]. intros c Hc.
  destruct (isdigit c) eqn:Ed; cbn [negb]; [|done]. apply isdigit_range in Ed.
  destruct (_ =? 3).
  - eapply yields_bind; [by apply plus_yields|]. intros m2 Hm2. split; [lia|done].
  - apply IH; [done|lia].
Qed.

Lemma escape_byte c : is_byte c → is_byte (escape c).
Proof. unfold is_byte, escape. intros ?. Zcases; lia. Qed.

(** [backslash] yields a byte; it may only end the text. *)
Lemma backslash_yields s :
  Forall is_byte (text s) →
  yields (λ '(c, s'), is_byte c ∧ Forall is_byte (text s') ∧ lastch s' = lastch s
                      ∧ cnt s' = cnt s ∧ set s' = set s ∧ (state s' = state s ∨ state s' = EOS))
    (backslash s).
Proof.
  intros Ht. unfold backslash.
  eapply yields_bind; [by apply octal_digits_yields|]. intros [[[n val] c] m] (Hval & Hc & Hm).
  destruct (n =? 0); cbn [negb].
  - destruct (c =? 0); [cbn; split_and!; try done; by right|].
    eapply yields_bind; [by apply plus_yields|]. intros m1 Hm1. cbn.
    split_and!; try done; [by apply escape_byte|by left].
  - destruct (Z.leb_spec OOBCH val); [done|]. cbn. unfold is_byte, OOBCH in *.
    split_and!; try done; by left.
Qed.

Lemma element_yields s c :
  Forall is_byte (text s) → is_byte c →
  yields (λ '(e, s'), is_byte e ∧ Forall is_byte (text s') ∧ lastch s' = lastch s
                      ∧ (state s' = state s ∨ state s' = EOS))
    (if c =? 92 then backslash s else let* m := plus (text s) 1 in Ok (c, set_text s m)).
Proof.
  intros Ht Hc. destruct (c =? 92).
  - eapply yields_mono; [by apply backslash_yields|]. intros [e s'] (? & ? & ? & _ & _ & ?). done.
  - eapply yields_bind; [by apply plus_yields|]. intros m Hm. split_and!; try done. by left.
Qed.

Lemma genequiv_yields s : Forall is_byte (text s) → yields scan_inv (genequiv s).
Proof.
  intros Ht. unfold genequiv.
  eapply yields_bind; [by apply at_yields|]. intros c Hc.
  eapply yields_bind; [by apply element_yields|]. intros [e s'] (He & Ht' & _).
  eapply yields_bind; [by apply at_yields|]. intros c1 _. destruct (negb _); [done|].
  eapply yields_bind; [by apply plus_yields|]. intros m Hm.
  eapply yields_bind; [by apply at_yields|]. intros c2 _. destruct (negb _); [done|].
  eapply yields_bind; [by apply plus_yields|]. intros m1 Hm1. split; [done|]. cbn.
  apply Forall_cons; split; [by left|]. apply Forall_cons; split; [by right|done].
Qed.

Lemma genrange_yields s :
  Forall is_byte (text s) → is_byte (lastch s) →
  yields (λ '(b, s'), Forall is_byte (text s') ∧ lastch s' = (if (b : bool) then lastch s - 1 else lastch s)
                      ∧ if b then scan_inv s' else state s' = state s ∨ state s' = EOS)
    (genrange s).
Proof.
  intros Ht Hl. unfold genrange.
  eapply yields_bind; [by apply plus_yields|]. intros m Hm.
  eapply yields_bind; [by apply at_yields|]. intros c Hc.
  eapply yields_bind; [by apply element_yields|]. intros [stop s'] (Hs & Ht' & Hl' & Hst).
  cbn [lastch set_text] in Hl'. unfold is_byte in Hl, Hs. rewrite Hl', u8_small by lia.
  destruct (Z.ltb_spec stop (lastch s)); cbn [yields].
  - done.
  - split_and!; [done|done|]. split; [done|]. cbn. lia.
Qed.

Lemma genseq_count_yields s :
  Forall is_byte (text s) → is_byte (lastch s) →
  yields (λ '(_, s'), Forall is_byte (text s') ∧ is_byte (lastch s')) (genseq_count s).
Proof.
  intros Ht Hl. unfold genseq_count.
  eapply yields_bind; [by apply at_yields|]. intros c Hc.
  destruct (c =? 92).
  { eapply yields_mono; [by apply backslash_yields|]. intros [e s'] (? & ? & -> & _). done. }
  destruct (c =? ch "]").
  { eapply yields_bind; [by apply plus_yields|]. done. }
  destruct (isdigit c); [|done]. destruct (strtol _ 0) as [[n rest] e].
  eapply yields_bind; [by apply plus_yields|]. intros ep Hep.
  eapply yields_bind; [by apply at_yields|]. intros c1 _. destruct (c1 =? _); [|done].
  eapply yields_bind; [by apply plus_yields|]. done.
Qed.

Lemma genseq_yields s : Forall is_byte (text s) → yields scan_inv (genseq s).
Proof.
  intros Ht. unfold genseq. destruct (negb _); [done|].
  eapply yields_bind; [by apply at_yields|]. intros c Hc.
  eapply yields_bind; [by apply element_yields|]. intros [l s'] (Hl & Ht' & _).
  eapply yields_bind; [by apply at_yields|]. intros c1 _. destruct (negb _); [done|].
  eapply yields_bind; [by apply plus_yields|]. intros m Hm.
  eapply yields_bind; [by apply genseq_count_yields|]. intros [n s1] [Ht1 Hl1].
  split; [done|]. cbn. by destruct (n =? 0).
Qed.

Lemma all_chars_bytes : Forall is_byte all_chars.
Proof.
  apply Forall_forall. intros c Hc. unfold all_chars in Hc.
  apply list_elem_of_fmap in Hc as (k & -> & Hk). apply list_elem_of_In, in_seq in Hk.
  unfold is_byte. lia.
Qed.

Lemma genclass_yields name :
  yields (Forall (λ c, is_byte c ∨ c = OOBCH)) (genclass name).
Proof.
  unfold genclass. destruct (find_class name) as [func|]; [|done]. cbn [yields].
  rewrite !Forall_app. split_and!.
  - apply Forall_forall. intros c [_ Hc]%list_elem_of_filter. left.
    exact (proj1 (Forall_forall _ _) all_chars_bytes c Hc).
  - apply Forall_cons; split; [by right|done].
  - apply Forall_replicate. left. unfold is_byte. lia.
Qed.

Lemma strpbrk2_yields (P : Z → Prop) m a b :
  Forall P m → yields (λ p, ∀ m', p = Some m' → Forall P m') (strpbrk2 m a b).
Proof.
  induction 1 as [|c m Hc Hm IH]; cbn [strpbrk2]; [done|]. destruct (c =? 0); [done|].
  destruct (_ || _); [|done]. intros m' [= <-]. by constructor.
Qed.

Lemma strstr2_yields (P : Z → Prop) m a b :
  Forall P m → yields (λ p, ∀ m', p = Some m' → Forall P m') (strstr2 m a b).
Proof.
  induction 1 as [|c m Hc Hm IH]; cbn [strstr2]; [done|]. destruct (c =? 0); [done|].
  destruct (at_ m 0); try done. cbn [res_bind].
  destruct (_ && _); [|done]. intros m' [= <-]. by constructor.
Qed.

Lemma bracket_yields s :
  Forall is_byte (text s) →
  yields (λ '(b, s'), Forall is_byte (text s') ∧ if (b : bool) then scan_inv s' else s' = s) (bracket s).
Proof.
  intros Ht. unfold bracket.
  eapply yields_bind; [by apply at_yields|]. intros c Hc.
  eapply yields_bind; [by apply plus_yields|]. intros rest Hrest.
  destruct (c =? ch ":"); [|destruct (c =? ch "=")].
  - eapply yields_bind; [by apply strstr2_yields|]. intros [p|] Hp; [|done].
    eapply yields_bind; [apply genclass_yields|]. intros q Hq.
    eapply yields_bind; [apply plus_yields; by apply Hp|]. done.
  - eapply yields_bind; [by apply strstr2_yields|]. intros [p|] Hp; [|done].
    eapply yields_bind; [by apply genequiv_yields|]. intros s1 [Ht1 H1].
    eapply yields_bind; [apply plus_yields; by apply Hp|]. intros m Hm. done.
  - eapply yields_bind; [by apply strpbrk2_yields|]. intros [p|] Hp; [|done].
    eapply yields_bind; [apply at_yields; by apply Hp|]. intros c1 _. destruct (negb _); [done|].
    eapply yields_bind; [apply strpbrk2_yields; by apply Hp|]. intros [close|] _; [|done].
    eapply yields_bind; [by apply plus_yields|]. intros m Hm.
    eapply yields_bind; [by apply genseq_yields|]. intros s1 [? ?]. done.
Qed.

(** Every call of [next] keeps the invariant, and what it yields is an index of the
    tables, whatever the text. *)
Theorem next_keeps_invariant fuel s :
  scan_inv s →
  yields (λ '(b, c, s'), scan_inv s' ∧ (b = true → is_byte c)) (next fuel s).
Proof.
  revert s. induction fuel as [|fuel IH]; intros s Hinv; [done|]. cbn [next].
  destruct Hinv as [Ht Hs]. destruct (state s) eqn:Es.
  - split; [|done]. by split; [|rewrite Es].
  - split; [|done]. by split; [|rewrite Es].
  - eapply yields_bind; [by apply at_yields|]. intros c Hc. destruct (c =? 0).
    { split; [by split|done]. }
    assert (∀ s', Forall is_byte (text s') → is_byte (lastch s') →
      (state s' = NORMAL ∨ state s' = EOS) →
      yields (λ '(b, c, s'), scan_inv s' ∧ (b = true → is_byte c))
       (let* c := at_ (text s') 0 in
        let* (range, s') := if c =? ch "-" then genrange s' else Ok (false, s') in
        if (range : bool) then next fuel s' else Ok (true, lastch s', s'))) as Hplain.
    { intros s' Ht' Hl' Hst. eapply yields_bind; [by apply at_yields|]. intros c1 _.
      destruct (c1 =? ch "-").
      - eapply yields_bind; [by apply genrange_yields|].
        intros [[] s1] (Ht1 & Hl1 & H1); [by apply IH|]. cbn. rewrite Hl1. split; [|done].
        split; [done|]. destruct Hst as [E | E]; rewrite E in H1; by destruct H1 as [-> | ->].
      - cbn. split; [|done]. split; [done|]. by destruct Hst as [-> | ->]. }
    destruct (c =? 92).
    { eapply yields_bind; [by apply backslash_yields|]. intros [l s1] (Hl & Ht1 & _ & _ & _ & Hst).
      apply Hplain; [done|done|]. cbn. rewrite Es in Hst. done. }
    eapply yields_bind with (P := λ '(b, s'), Forall is_byte (text s') ∧ if (b : bool) then scan_inv s' else s' = s).
    { destruct (c =? ch "["); [by apply bracket_yields|done]. }
    intros [[] s1] [Ht1 H1]; [by apply IH|]. subst s1.
    eapply yields_bind; [by apply plus_yields|]. intros m Hm. apply Hplain; auto.
  - destruct (Z.eqb_spec (cnt s) 0); [apply IH; by split|]. cbn.
    unfold is_byte. split; [|lia]. split; [done|]. cbn. rewrite Es. lia.
  - destruct (Z.eqb_spec (cnt s) 0); [apply IH; by split|]. cbn.
    split; [|done]. split; [done|]. cbn. by rewrite Es.
  - eapply yields_bind; [by apply at_yields|]. intros c Hc.
    destruct (Z.eqb_spec c OOBCH); [apply IH; by split|]. cbn. split; [|by intros _; destruct Hc].
    split; [done|]. cbn. by rewrite Es.
Qed.

(** ** Witness *)

Lemma next_keeps_invariant_witness :
  yields (λ '(b, c, s'), scan_inv s' ∧ (b = true → is_byte c))
    (next_char (str_create false (str "a-z[:digit:]" ++ [0]))).
Proof.
  apply next_keeps_invariant. split; [|done].
  repeat (apply Forall_cons; split); try (unfold is_byte; lia). done.
Defined.
