(* ===== verification/TrSpec.v ===== *)
(** * tr: what the program does

    The specifications of characters as users write them, the characters they stand
    for, and the theorems that the scanner of Tr yields these and that the modes of
    the program delete, squeeze and translate accordingly. *)

From S2P Require Import Prelude Libc Tr.

(** ** Specifications as users write them

    A character, an octal escape, a letter escape; a range, a class, an
    equivalence class; in the second string a repetition and a fill. *)
Inductive elem :=
  | Chr (c : Z)
  | Oct (c : Z)
  | Esc (c : Z).

Inductive item :=
  | One (e : elem)
  | Rng (lo hi : elem)
  | Cls (name : list Z)
  | Equ (e : elem)
  | Rep (e : elem) (n : Z)
  | Fill (e : elem).

(** The letters that stand for control characters after a backslash; any other character
    stands for itself. *)
Definition escapes : list (Z * Z) :=
  [(ch "a", 7); (ch "b", 8); (ch "e", 27); (ch "f", 12); (ch "n", 10); (ch "r", 13);
   (ch "t", 9); (ch "v", 11)].
Definition escaped (c : Z) : Z :=
  match find (λ p, c =? fst p) escapes with Some p => snd p | None => c end.

Lemma escape_escaped c : escape c = escaped c.
Proof.
  unfold escape, escaped, escapes. simpl.
  by repeat match goal with |- context [c =? ?k] => destruct (c =? k); [done|] end.
Qed.

(** The classes of tr(1). *)
Definition class_of (name : list Z) : option (Z → bool) :=
  if decide (name = str "alnum") then Some isalnum
  else if decide (name = str "alpha") then Some isalpha
  else if decide (name = str "blank") then Some isblank
  else if decide (name = str "cntrl") then Some iscntrl
  else if decide (name = str "digit") then Some isdigit
  else if decide (name = str "graph") then Some isgraph
  else if decide (name = str "lower") then Some islower
  else if decide (name = str "print") then Some isprint
  else if decide (name = str "punct") then Some ispunct
  else if decide (name = str "space") then Some isspace
  else if decide (name = str "upper") then Some isupper
  else if decide (name = str "xdigit") then Some isxdigit
  else None.

Lemma find_class_of name : find_class name = class_of name.
Proof.
  unfold find_class, classes, class_of. cbn [find fst].
  repeat (case_bool_decide; [subst name; reflexivity|rewrite decide_False by congruence]). done.
Qed.

Definition elem_val (e : elem) : Z :=
  match e with Chr c => c | Oct c => c | Esc c => escaped c end.

Definition elem_text (e : elem) : list Z :=
  match e with
  | Chr c => [c]
  | Oct c => [92; ch "0" + c / 64; ch "0" + c / 8 mod 8; ch "0" + c mod 8]
  | Esc c => [92; c]
  end.

Definition item_text (i : item) : list Z :=
  match i with
  | One e => elem_text e
  | Rng lo hi => elem_text lo ++ ch "-" :: elem_text hi
  | Cls name => ch "[" :: ch ":" :: name ++ [ch ":"; ch "]"]
  | Equ e => ch "[" :: ch "=" :: elem_text e ++ [ch "="; ch "]"]
  | Rep e n => ch "[" :: elem_text e ++ ch "*" :: print_uint n ++ [ch "]"]
  | Fill e => ch "[" :: elem_text e ++ [ch "*"; ch "]"]
  end.

Definition spec_text (its : list item) : list Z := concat (map item_text its).

(** The characters an item stands for; a fill never ends, and what follows it is
    never reached. *)
Definition class_chars (name : list Z) : list Z :=
  match class_of name with
  | Some func => filter (λ c, func c = true) all_chars
  | None => []
  end.

Definition item_chars (i : item) : list Z :=
  match i with
  | One e => [elem_val e]
  | Rng lo hi =>
      map (λ k, elem_val lo + Z.of_nat k) (seq 0 (Z.to_nat (elem_val hi - elem_val lo + 1)))
  | Cls name => class_chars name
  | Equ e => [elem_val e]
  | Rep e n => replicate (Z.to_nat n) (elem_val e)
  | Fill _ => []
  end.

Fixpoint spec_chars (its : list item) : list Z * option Z :=
  match its with
  | [] => ([], None)
  | Fill e :: _ => ([], Some (elem_val e))
  | i :: its => let '(l, fill) := spec_chars its in (item_chars i ++ l, fill)
  end.

(** Plain characters are those without a meaning of their own. *)
Definition elem_ok (e : elem) : Prop :=
  match e with
  | Chr c => 0 < c < 256 ∧ c ≠ 92 ∧ c ≠ ch "["
  | Oct c => 0 <= c < 256
  | Esc c => 0 < c < 256 ∧ isdigit c = false
  end.

(** [seqs] allows the items of the second string. *)
Definition item_ok (seqs : bool) (i : item) : Prop :=
  match i with
  | One e => elem_ok e
  | Rng lo hi => elem_ok lo ∧ elem_ok hi ∧ elem_val lo <= elem_val hi
  | Cls name => is_Some (class_of name)
  | Equ e => elem_ok e
  | Rep e n => seqs = true ∧ elem_ok e ∧ e ≠ Chr (ch ":") ∧ e ≠ Chr (ch "=")
               ∧ e ≠ Esc (ch "]") ∧ 0 < n <= INT_MAX
  | Fill e => seqs = true ∧ elem_ok e ∧ e ≠ Chr (ch ":") ∧ e ≠ Chr (ch "=")
              ∧ e ≠ Esc (ch "]")
  end.

(** A single character may not be followed by a hyphen, which would start a range. *)
Fixpoint spec_ok (seqs : bool) (its : list item) : Prop :=
  match its with
  | [] => True
  | i :: its => item_ok seqs i ∧ spec_ok seqs its
               ∧ match i with One _ => peek (spec_text its) ≠ ch "-" | _ => True end
  end.

(** ** The scanner yields the characters of the specification *)

(** Successive calls of [next]. *)
Inductive scans : STR → list Z → STR → Prop :=
  | scans_nil s : scans s [] s
  | scans_cons s c s1 l s2 :
      next_char s = Ok (true, c, s1) → scans s1 l s2 → scans s (c :: l) s2.

Lemma scans_app s l s1 l' s2 : scans s l s1 → scans s1 l' s2 → scans s (l ++ l') s2.
Proof. induction 1; simpl; eauto using scans. Qed.

(** Where an item has been used up: the scanner is about to read [m]. *)
Definition ready (s : STR) (m : list Z) : Prop :=
  text s = m ∧
  match state s with
  | NORMAL => True
  | RANGE | SEQUENCE => cnt s = 0
  | SET => at_ (set s) (Z.to_nat (cnt s)) = Ok OOBCH
  | _ => False
  end.

(** The scanner that reads on from there. *)
Definition resume (s : STR) : STR :=
  match state s with
  | SET => mkSTR (second s) NORMAL (cnt s + 1) OOBCH [] (text s)
  | _ => set_state s NORMAL
  end.

Lemma next_ready f s m :
  ready s m → state s ≠ NORMAL → next (S f) s = next f (resume s).
Proof.
  intros [Ht Hs] Hn. cbn [next]. unfold resume.
  destruct (state s) eqn:E; try done.
  - by rewrite Hs.
  - by rewrite Hs.
  - rewrite Hs. reflexivity.
Qed.

Lemma resume_normal s m : ready s m → state (resume s) = NORMAL ∧ text (resume s) = m
  ∧ second (resume s) = second s.
Proof. intros [<- Hs]. unfold resume. destruct (state s); done. Qed.

(** It is enough to know what two levels of [next] do from a NORMAL state. *)
Lemma next_from_ready s m r :
  ready s m →
  (∀ f s', state s' = NORMAL → text s' = m → second s' = second s → next (S (S f)) s' = r s') →
  ∃ s', (s' = s ∨ s' = resume s) ∧ state s' = NORMAL ∧ text s' = m ∧ second s' = second s
      ∧ next_char s = r s'.
Proof.
  intros Hr H. unfold next_char. destruct (decide (state s = NORMAL)) as [E|E].
  - exists s. split_and!; [by left|done|by destruct Hr|done|]. apply H; [done|by destruct Hr|done].
  - exists (resume s). pose proof (resume_normal s m Hr) as (? & ? & ?).
    split_and!; [by right|done|done|done|]. rewrite (next_ready 2 s m Hr E). by apply (H 0%nat).
Qed.

(** *** Elements *)

Lemma backslash_oct s c m :
  0 <= c < 256 → text s = elem_text (Oct c) ++ m → backslash s = Ok (c, set_text s m).
Proof.
  intros Hc Ht. unfold backslash. rewrite Ht. cbn [elem_text app].
  assert (0 <= c / 64 < 4 ∧ 0 <= c / 8 mod 8 < 8 ∧ 0 <= c mod 8 < 8) as (H1 & H2 & H3)
    by (Z.to_euclidean_division_equations; lia).
  assert (∀ d, 0 <= d < 8 → isdigit (ch "0" + d) = true) as Hd
    by (intros; apply isdigit_range; lia).
  cbn [octal_digits plus length Nat.leb drop at_ lookup list_lookup res_bind].
  rewrite !Hd by lia. cbn [negb].
  change (0 + 1 =? 3) with false. change (0 + 1 + 1 =? 3) with false.
  change (0 + 1 + 1 + 1 =? 3) with true. cbn iota. cbn [res_bind drop].
  change (0 + 1 + 1 + 1 =? 0) with false. cbn [negb].
  replace (((0 * 8 + (48 + c / 64) - 48) * 8 + (48 + c / 8 mod 8) - 48) * 8 + (48 + c mod 8) - 48)
    with c by (Z.to_euclidean_division_equations; lia).
  unfold OOBCH. destruct (Z.leb_spec 256 c); [lia|done].
Qed.

Lemma backslash_esc s c m :
  0 < c < 256 → isdigit c = false → text s = elem_text (Esc c) ++ m →
  backslash s = Ok (escaped c, set_text s m).
Proof.
  intros Hc Hd Ht. unfold backslash. rewrite Ht. cbn [elem_text app octal_digits].
  cbn [plus length Nat.leb drop at_ lookup list_lookup res_bind]. rewrite Hd.
  cbn [negb Z.eqb res_bind]. destruct (Z.eqb_spec c 0); [lia|].
  cbn [plus length Nat.leb drop res_bind]. by rewrite escape_escaped.
Qed.

Lemma elem_val_range e : elem_ok e → 0 <= elem_val e < 256.
Proof.
  destruct e as [c|c|c]; simpl; [lia|lia|]. intros [? _].
  rewrite <- escape_escaped. unfold escape. Zcases; lia.
Qed.

(** The two ways an element starts. *)
Lemma elem_head e m :
  elem_ok e → ∃ c, at_ (elem_text e ++ m) 0 = Ok c ∧ 0 < c < 256 ∧ c ≠ ch "["
    ∧ if c =? 92 then ∀ s, text s = elem_text e ++ m → backslash s = Ok (elem_val e, set_text s m)
      else e = Chr c ∧ plus (elem_text e ++ m) 1 = Ok m ∧ elem_val e = c.
Proof.
  destruct e as [c|c|c]; simpl.
  - intros (Hc & H92 & Hb). exists c. split_and!; try done || lia.
    by destruct (Z.eqb_spec c 92).
  - intros Hc. exists 92. split_and!; try done || lia. intros s Hs. by apply backslash_oct.
  - intros [Hc Hd]. exists 92. split_and!; try done || lia. intros s Hs. by apply backslash_esc.
Qed.

(** Reading an element, in the form the functions of the scanner share. *)
Lemma read_elem {A} e m s (k : Z * STR → res A) :
  elem_ok e → text s = elem_text e ++ m →
  (let* c := at_ (text s) 0 in
   res_bind (if c =? 92 then backslash s else let* m := plus (text s) 1 in Ok (c, set_text s m)) k)
  = k (elem_val e, set_text s m).
Proof.
  intros He Ht. destruct (elem_head e m He) as (c & Hat & _ & _ & H).
  rewrite Ht, Hat. cbn [res_bind]. destruct (c =? 92).
  - by rewrite (H s Ht).
  - destruct H as (_ & Hp & <-). rewrite Hp. done.
Qed.

(** A single character. *)
Lemma next_one f s e m :
  state s = NORMAL → elem_ok e → text s = elem_text e ++ m → (0 < length m)%nat →
  peek m ≠ ch "-" →
  next (S f) s = Ok (true, elem_val e, set_lastch (set_text s m) (elem_val e)).
Proof.
  intros Hn He Ht Hm Hpeek. destruct (elem_head e m He) as (c & Hat & Hc & Hb & H).
  destruct m as [|x m]; [simpl in Hm; lia|].
  cbn [next]. rewrite Hn, Ht, Hat. cbn [res_bind]. destruct (Z.eqb_spec c 0); [lia|].
  apply Z.eqb_neq in Hpeek. simpl in Hpeek.
  destruct (c =? 92).
  - rewrite (H s Ht). cbn [res_bind text set_lastch set_text at_ lookup list_lookup].
    by rewrite Hpeek.
  - apply Z.eqb_neq in Hb. rewrite Hb. cbn [res_bind]. destruct H as (_ & Hp & Hv).
    rewrite Ht, Hp, Hv. cbn [res_bind text set_lastch set_text at_ lookup list_lookup].
    by rewrite Hpeek.
Qed.

(** A character before a hyphen: a range is tried. *)
Lemma next_range f s lo hi m :
  state s = NORMAL → elem_ok lo → elem_ok hi → elem_val lo <= elem_val hi →
  text s = elem_text lo ++ ch "-" :: elem_text hi ++ m →
  next (S (S f)) s =
    Ok (true, elem_val lo, mkSTR (second s) RANGE (elem_val hi - elem_val lo) (elem_val lo) (set s) m).
Proof.
  intros Hn Hlo Hhi Hle Ht. destruct (elem_head lo (ch "-" :: elem_text hi ++ m) Hlo)
    as (c & Hat & Hc & Hb & H).
  pose proof (elem_val_range lo Hlo) as Rlo.
  assert (∀ s', text s' = ch "-" :: elem_text hi ++ m → lastch s' = elem_val lo →
    (let* c := at_ (text s') 0 in
     let* (range, s') := if c =? ch "-" then genrange s' else Ok (false, s') in
     if (range : bool) then next (S f) s' else Ok (true, lastch s', s'))
    = Ok (true, elem_val lo,
          mkSTR (second s') RANGE (elem_val hi - elem_val lo) (elem_val lo) (set s') m)) as Hplain.
  { intros s' Ht' Hl. rewrite Ht'. cbn [at_ lookup list_lookup res_bind Z.eqb Pos.eqb].
    unfold genrange. rewrite Ht'. cbn [plus length Nat.leb drop res_bind].
    rewrite (read_elem hi m (set_text s' (elem_text hi ++ m)) ) by done.
    cbn [text set_text lastch second set]. rewrite Hl, u8_small by lia.
    destruct (Z.ltb_spec (elem_val hi) (elem_val lo)); [lia|].
    cbn [res_bind next state cnt lastch set_cnt set_lastch second text set].
    destruct (Z.eqb_spec (elem_val hi - elem_val lo + 1) 0); [lia|].
    unfold set_lastch, set_cnt. cbn [second state cnt lastch set text].
    replace (elem_val lo - 1 + 1) with (elem_val lo) by lia.
    by replace (elem_val hi - elem_val lo + 1 - 1) with (elem_val hi - elem_val lo) by lia. }
  cbn [next]. rewrite Hn, Ht, Hat. cbn [res_bind]. destruct (Z.eqb_spec c 0); [lia|].
  destruct (c =? 92).
  - rewrite (H s Ht). cbn [res_bind]. by rewrite Hplain.
  - apply Z.eqb_neq in Hb. rewrite Hb. cbn [res_bind]. destruct H as (_ & Hp & Hv).
    rewrite Ht, Hp, <- Hv. cbn [res_bind]. by rewrite Hplain.
Qed.

(** *** Ranges, repetitions and sets *)

Lemma scan_range n s :
  state s = RANGE → cnt s = Z.of_nat n →
  ∃ s', scans s (map (λ k, lastch s + 1 + Z.of_nat k) (seq 0 n)) s' ∧ ready s' (text s)
      ∧ state s' = RANGE ∧ second s' = second s ∧ lastch s' = lastch s + Z.of_nat n.
Proof.
  revert s. induction n as [|n IH]; intros s Hs Hc.
  { exists s. split; [constructor|]. unfold ready. rewrite Hs. auto with lia. }
  destruct (IH (set_lastch (set_cnt s (cnt s - 1)) (lastch s + 1)))
    as (s' & Hscan & Hready & Hst & Hsec & Hl); [done|simpl; lia|].
  exists s'. split_and!; [|done|done|done|simpl in Hl; lia].
  cbn [seq map]. apply scans_cons with (set_lastch (set_cnt s (cnt s - 1)) (lastch s + 1)).
  - unfold next_char. cbn [next]. rewrite Hs. destruct (Z.eqb_spec (cnt s) 0); [lia|].
    cbn [lastch set_lastch]. by replace (lastch s + 1 + Z.of_nat 0) with (lastch s + 1) by lia.
  - rewrite <- seq_shift, map_map. erewrite map_ext; [exact Hscan|].
    intros k. cbn [lastch set_lastch]. lia.
Qed.

Lemma scan_seq n s :
  state s = SEQUENCE → cnt s = Z.of_nat n →
  ∃ s', scans s (replicate n (lastch s)) s' ∧ ready s' (text s)
      ∧ state s' = SEQUENCE ∧ second s' = second s ∧ lastch s' = lastch s.
Proof.
  revert s. induction n as [|n IH]; intros s Hs Hc.
  { exists s. split; [constructor|]. unfold ready. rewrite Hs. auto with lia. }
  destruct (IH (set_cnt s (cnt s - 1))) as (s' & Hscan & Hready & Hst & Hsec & Hl);
    [done|simpl; lia|].
  exists s'. split_and!; try done. apply scans_cons with (set_cnt s (cnt s - 1)); [|done].
  unfold next_char. cbn [next]. rewrite Hs. destruct (Z.eqb_spec (cnt s) 0); [lia|done].
Qed.

Lemma scan_set pre l junk s :
  state s = SET → set s = pre ++ l ++ OOBCH :: junk → cnt s = Z.of_nat (length pre) →
  Forall (λ c, c ≠ OOBCH) l →
  ∃ s', scans s l s' ∧ ready s' (text s) ∧ state s' = SET ∧ second s' = second s
      ∧ (l ≠ [] → Some (lastch s') = last l) ∧ (l = [] → s' = s).
Proof.
  revert pre s. induction l as [|c l IH]; intros pre s Hs Hset Hc Hl.
  { exists s. split; [constructor|]. unfold ready. rewrite Hs, Hset, Hc, Nat2Z.id.
    unfold at_. cbn [app]. rewrite list_lookup_middle by done. by split_and!. }
  apply Forall_cons_1 in Hl as [Hne Hl].
  destruct (IH (pre ++ [c]) (set_lastch (set_cnt s (cnt s + 1)) c))
    as (s' & Hscan & Hready & Hst & Hsec & Hlast & Hnil);
    [done|simpl; rewrite Hset, <- !app_assoc; done|simpl; rewrite length_app; simpl; lia|done|].
  exists s'. split_and!; try done.
  - apply scans_cons with (set_lastch (set_cnt s (cnt s + 1)) c); [|done].
    unfold next_char. cbn [next]. rewrite Hs, Hset, Hc, Nat2Z.id.
    unfold at_. cbn [app]. rewrite list_lookup_middle by done. cbn [res_bind].
    destruct (Z.eqb_spec c OOBCH); [done|]. done.
  - intros _. destruct l as [|x l]; [by rewrite Hnil|]. by rewrite Hlast.
Qed.

(** *** Brackets *)

Lemma strstr2_found pre a b m :
  Forall (λ c, c ≠ 0 ∧ c ≠ a) pre → a ≠ 0 →
  strstr2 (pre ++ a :: b :: m) a b = Ok (Some (a :: b :: m)).
Proof.
  intros Hpre Ha. induction Hpre as [|c pre [Hc Hca] Hpre IH]; simpl.
  - destruct (Z.eqb_spec a 0); [done|]. by rewrite !Z.eqb_refl.
  - destruct (Z.eqb_spec c 0); [done|]. apply Z.eqb_neq in Hca.
    destruct (pre ++ a :: b :: m) as [|d l] eqn:E; [by destruct pre|].
    simpl. rewrite Hca. exact IH.
Qed.

Lemma strchr_found pre a m :
  Forall (λ c, c ≠ 0) pre → a ≠ 0 → ∃ p, strchr (pre ++ a :: m) a = Ok (Some p).
Proof.
  intros Hpre Ha. unfold strchr. induction Hpre as [|c pre Hc Hpre [p IH]]; simpl.
  - destruct (Z.eqb_spec a 0); [done|]. rewrite Z.eqb_refl. by eexists.
  - destruct (Z.eqb_spec c 0); [done|]. destruct (_ || _); eauto.
Qed.

Lemma classes_ok :
  Forall (λ c, Forall (λ x, x ≠ 0 ∧ x ≠ ch ":") (fst c)
               ∧ filter (λ x, snd c x = true) all_chars ≠ []) classes.
Proof.
  unfold classes. repeat (apply Forall_cons; split); [..|by apply Forall_nil];
    (split; [simpl; repeat (apply Forall_cons; split); [..|by apply Forall_nil]; lia|]);
    vm_compute; discriminate.
Qed.

Lemma find_class_ok name func :
  class_of name = Some func →
  Forall (λ x, x ≠ 0 ∧ x ≠ ch ":") name ∧ class_chars name ≠ []
  ∧ genclass name = Ok (class_chars name ++ [OOBCH]
                        ++ replicate (257 - length (class_chars name ++ [OOBCH])) 0).
Proof.
  intros H. unfold class_chars, genclass. rewrite find_class_of, H. rewrite <- find_class_of in H.
  unfold find_class in H. destruct (find _ classes) as [[n f]|] eqn:E; [|done].
  injection H as <-. apply find_some in E as [Hin Hn].
  case_bool_decide as En; [|done]. simpl in En. subst n.
  pose proof classes_ok as Hok. rewrite Forall_forall in Hok.
  destruct (Hok _ (proj2 (list_elem_of_In _ _) Hin)) as [? ?].
  split_and!; [done|done|]. by rewrite app_assoc.
Qed.

Lemma next_bracket f s s1 m :
  state s = NORMAL → text s = ch "[" :: m → bracket s = Ok (true, s1) →
  next (S f) s = next f s1.
Proof.
  intros Hn Ht Hb. cbn [next]. rewrite Hn, Ht. cbn [at_ lookup list_lookup res_bind Z.eqb Pos.eqb].
  by rewrite Hb.
Qed.

Lemma bracket_class s name m :
  is_Some (class_of name) → text s = item_text (Cls name) ++ m →
  ∃ junk, bracket s = Ok (true, mkSTR (second s) SET 0 (lastch s)
                                  (class_chars name ++ OOBCH :: junk) m).
Proof.
  intros [func Hf] Ht. apply find_class_ok in Hf as (Hname & Hne & Hgen).
  unfold bracket. rewrite Ht. cbn [item_text app at_ lookup list_lookup res_bind plus length Nat.leb
    drop Z.eqb Pos.eqb].
  rewrite !drop_0, <- !app_assoc. cbn [app]. rewrite (strstr2_found name) by (done || lia). cbn [res_bind].
  replace (length (name ++ ch ":" :: ch "]" :: m) - length (ch ":" :: ch "]" :: m))%nat
    with (length name) by (rewrite length_app; lia).
  rewrite take_app_length, Hgen. cbn [res_bind plus length Nat.leb drop app]. rewrite drop_0. by eexists.
Qed.

Lemma bracket_equiv s e m :
  elem_ok e → text s = item_text (Equ e) ++ m →
  bracket s = Ok (true, mkSTR (second s) SET 0 (lastch s) [elem_val e; OOBCH] m).
Proof.
  intros He Ht. unfold bracket. rewrite Ht. cbn [item_text app at_ lookup list_lookup res_bind plus
    length Nat.leb drop Z.eqb Pos.eqb].
  rewrite !drop_0, <- !app_assoc. cbn [app].
  assert (strstr2 (elem_text e ++ ch "=" :: ch "]" :: m) (ch "=") (ch "]")
          = Ok (Some (ch "=" :: ch "]" :: m))) as ->.
  { destruct e as [c|c|c]; simpl in He; cbn [elem_text app].
    - cbn [strstr2 at_ lookup list_lookup res_bind Z.eqb Pos.eqb].
      destruct (Z.eqb_spec c 0); [lia|]. rewrite andb_false_r. done.
    - assert (0 <= c / 64 < 4 ∧ 0 <= c / 8 mod 8 < 8 ∧ 0 <= c mod 8 < 8) as (H1 & H2 & H3)
        by (Z.to_euclidean_division_equations; lia).
      apply (strstr2_found [92; 48 + c / 64; 48 + c / 8 mod 8; 48 + c mod 8]); [|lia].
      repeat (apply Forall_cons; split); [lia..|by apply Forall_nil].
    - cbn [strstr2 at_ lookup list_lookup res_bind Z.eqb Pos.eqb].
      destruct (Z.eqb_spec c 0); [lia|]. rewrite andb_false_r. done. }
  cbn [res_bind]. unfold genequiv.
  rewrite (read_elem e (ch "=" :: ch "]" :: m)) by done.
  cbn [text set_text at_ lookup list_lookup res_bind plus length Nat.leb drop Z.eqb Pos.eqb negb].
  reflexivity.
Qed.

(** What follows the bracket of a repetition: its star comes before any closing
    bracket. *)
Lemma bracket_seq s e rest m s1 :
  elem_ok e → e ≠ Chr (ch ":") → e ≠ Chr (ch "=") → e ≠ Esc (ch "]") →
  Forall (λ c, c ≠ 0) rest →
  text s = ch "[" :: elem_text e ++ ch "*" :: rest ++ ch "]" :: m →
  genseq (set_text s (elem_text e ++ ch "*" :: rest ++ ch "]" :: m)) = Ok s1 →
  bracket s = Ok (true, s1).
Proof.
  intros He H58 H61 H93 Hrest Ht Hseq. unfold bracket. rewrite Ht.
  cbn [at_ lookup list_lookup plus length Nat.leb drop].
  assert (∃ c tl p pre, elem_text e ++ ch "*" :: rest ++ ch "]" :: m = c :: tl
    ∧ c ≠ ch ":" ∧ c ≠ ch "=" ∧ strpbrk2 tl (ch "*") (ch "]") = Ok (Some (ch "*" :: p))
    ∧ ch "*" :: p = pre ++ ch "]" :: m ∧ Forall (λ c, c ≠ 0) pre)
    as (c & tl & p & pre & Etl & Hc1 & Hc2 & Hp & Epre & Hpre).
  { assert (Forall (λ c, c ≠ 0) (ch "*" :: rest)) as Hr1 by (apply Forall_cons; split; [lia|done]).
    destruct e as [c|c|c]; simpl in He; cbn [elem_text app].
    - eexists c, _, _, (ch "*" :: rest). split; [reflexivity|]. split_and!; [congruence|congruence|..];
        [reflexivity|reflexivity|done].
    - assert (0 <= c / 64 < 4 ∧ 0 <= c / 8 mod 8 < 8 ∧ 0 <= c mod 8 < 8) as (H1 & H2 & H3)
        by (Z.to_euclidean_division_equations; lia).
      eexists 92, _, _, (ch "*" :: rest). split; [reflexivity|]. split_and!; [lia|lia|..];
        [|reflexivity|done].
      cbn [strpbrk2].
      repeat match goal with |- context [?a =? ?b] =>
        first [replace (a =? b) with false by (symmetry; apply Z.eqb_neq; lia)
              |replace (a =? b) with true by (symmetry; apply Z.eqb_eq; lia)] end.
      reflexivity.
    - destruct (Z.eqb_spec c (ch "*")) as [->|Hstar].
      + eexists 92, _, _, (ch "*" :: ch "*" :: rest). split; [reflexivity|].
        split_and!; [lia|lia|reflexivity|reflexivity|]. apply Forall_cons. split; [lia|done].
      + eexists 92, _, _, (ch "*" :: rest). split; [reflexivity|]. split_and!; [lia|lia|..];
          [|reflexivity|done].
        cbn [strpbrk2]. destruct (Z.eqb_spec c 0); [lia|]. apply Z.eqb_neq in Hstar. rewrite Hstar.
        destruct (Z.eqb_spec c (ch "]")) as [->|]; [done|]. reflexivity. }
  rewrite Etl in Hseq |- *. cbn [at_ lookup list_lookup res_bind drop length Nat.leb]. change (plus (ch "[" :: c :: tl) 2) with (Ok tl).
  cbn [res_bind]. apply Z.eqb_neq in Hc1, Hc2. rewrite Hc1, Hc2, Hp. cbn [res_bind at_ lookup list_lookup Z.eqb Pos.eqb negb].
  rewrite Epre. destruct (strchr_found pre (ch "]") m Hpre ltac:(lia)) as [q ->].
  cbn [res_bind]. by rewrite Hseq.
Qed.

Lemma genseq_ok s e rest m n s1 :
  second s = true → elem_ok e → text s = elem_text e ++ ch "*" :: rest ++ m →
  genseq_count (set_text (set_lastch (set_text s (ch "*" :: rest ++ m)) (elem_val e)) (rest ++ m))
    = Ok (n, s1) →
  genseq s = Ok (set_state (set_cnt s1 n) (if n =? 0 then INFINITE else SEQUENCE)).
Proof.
  intros Hsec He Ht Hcount. unfold genseq. rewrite Hsec. cbn [negb].
  rewrite (read_elem e (ch "*" :: rest ++ m)) by done.
  cbn [text set_text set_lastch at_ lookup list_lookup res_bind Z.eqb Pos.eqb negb].
  change (plus (ch "*" :: rest ++ m) 1) with (Ok (rest ++ m)). cbn [res_bind].
  unfold set_text, set_lastch in Hcount |- *. cbn [second state cnt lastch set text] in Hcount |- *.
  by rewrite Hcount.
Qed.

Lemma cstr_app p m : Forall (λ c, c ≠ 0) p → cstr (p ++ m) = p ++ cstr m.
Proof.
  induction 1 as [|c p Hc Hp IH]; simpl; [done|]. destruct (Z.eqb_spec c 0); [done|]. by rewrite IH.
Qed.

Lemma genseq_count_number s n m :
  0 < n <= INT_MAX → text s = print_uint n ++ ch "]" :: m →
  genseq_count s = Ok (n, set_text s m).
Proof.
  intros Hn Ht. unfold genseq_count. rewrite Ht.
  pose proof (print_uint_digits n) as Hds. pose proof (print_uint_nonempty n) as Hne.
  assert (Forall (λ c, c ≠ 0) (print_uint n)) as Hnz.
  { eapply Forall_impl; [exact Hds|]. intros c Hc%isdigit_range. lia. }
  assert (strtol (cstr (print_uint n ++ ch "]" :: m)) 0 = (n, ch "]" :: cstr m, 0)) as E.
  { rewrite cstr_app by done. cbn [cstr Z.eqb]. apply strtol_print; [unfold INT_MAX, INTMAX_MAX in *; lia|].
    right. cbn. lia. }
  destruct (print_uint n) as [|c ds] eqn:Ed; [simpl in Hne; lia|].
  cbn [app at_ lookup list_lookup res_bind]. apply Forall_cons_1 in Hds as [Hc _].
  pose proof (proj1 (isdigit_range c) Hc) as Rc.
  destruct (Z.eqb_spec c 92); [lia|]. destruct (Z.eqb_spec c (ch "]")); [lia|]. rewrite Hc.
  change (c :: ds ++ ch "]" :: m) with ((c :: ds) ++ ch "]" :: m). rewrite E.
  rewrite cstr_app by done.
  assert (length ((c :: ds) ++ cstr (ch "]" :: m)) - length (ch "]" :: cstr m) = length (c :: ds))%nat
    as -> by (rewrite length_app; cbn; lia).
  unfold plus. rewrite length_app.
  destruct (Nat.leb_spec (length (c :: ds)) (length (c :: ds) + length (ch "]" :: m))); [|lia].
  rewrite drop_app_length. cbn [res_bind at_ lookup list_lookup Z.eqb Pos.eqb length Nat.leb drop].
  rewrite s32_small by (unfold INT_MAX in Hn; lia). done.
Qed.

(** *** Items and whole specifications *)

Definition is_set (i : item) : bool :=
  match i with Cls _ | Equ _ => true | _ => false end.
Definition is_fill (i : item) : bool := match i with Fill _ => true | _ => false end.

Lemma next_set f s c :
  state s = SET → at_ (set s) (Z.to_nat (cnt s)) = Ok c → c ≠ OOBCH →
  next (S f) s = Ok (true, c, set_lastch (set_cnt s (cnt s + 1)) c).
Proof.
  intros Hs Hc Hne. cbn [next]. rewrite Hs, Hc. cbn [res_bind].
  by destruct (Z.eqb_spec c OOBCH).
Qed.

(** The first character of an item and the rest of them. *)
Lemma next_item s i m :
  state s = NORMAL → item_ok (second s) i → is_fill i = false →
  text s = item_text i ++ m → (0 < length m)%nat →
  match i with One _ => peek m ≠ ch "-" | _ => True end →
  ∃ c l s1 s2, item_chars i = c :: l ∧ (∀ f, next (S (S f)) s = Ok (true, c, s1))
    ∧ scans s1 l s2 ∧ ready s2 m ∧ second s2 = second s
    ∧ (is_set i = false → state s2 ≠ SET ∧ Some (lastch s2) = last (c :: l)).
Proof.
  intros Hn Hok Hfill Ht Hm Hpeek. destruct i as [e|lo hi|name|e|e n|e]; [..|done];
    cbn [item_ok item_chars is_set] in *.
  - eexists _, [], _, _. split; [reflexivity|].
    split; [intros f; exact (next_one _ s e m Hn Hok Ht Hm Hpeek)|].
    split; [constructor|]. unfold ready. cbn. rewrite Hn. auto.
  - destruct Hok as (Hlo & Hhi & Hle). cbn [item_text] in Ht. rewrite <- app_assoc in Ht.
    set (s1 := mkSTR (second s) RANGE (elem_val hi - elem_val lo) (elem_val lo) (set s) m).
    destruct (scan_range (Z.to_nat (elem_val hi - elem_val lo)) s1)
      as (s2 & Hscan & Hready & Hst & Hsec & Hl); [done|simpl; lia|].
    eexists _, _, s1, s2. rewrite Z2Nat.inj_add, Nat.add_1_r by lia. cbn [seq map].
    split; [reflexivity|]. split_and!.
    + intros f. rewrite (next_range f s lo hi m) by done. unfold s1. do 3 f_equal. lia.
    + rewrite <- seq_shift, map_map. erewrite map_ext; [exact Hscan|]. intros k. simpl. lia.
    + done.
    + done.
    + intros _. split; [by rewrite Hst|]. rewrite Hl. simpl lastch.
      change (map ?f (seq 1 ?n)) with (f <$> seq 1 n).
      rewrite last_cons, fmap_last.
      destruct (Z.to_nat (elem_val hi - elem_val lo)) as [|k]; [simpl; f_equal; lia|].
      rewrite seq_S, last_snoc. simpl. f_equal; lia.
  - destruct (bracket_class s name m Hok Ht) as [junk Hb].
    destruct Hok as [func Hf]. pose proof (find_class_ok name func Hf) as (_ & Hne & _).
    set (s0 := mkSTR (second s) SET 0 (lastch s) (class_chars name ++ OOBCH :: junk) m) in *.
    assert (Forall (λ c, c ≠ OOBCH) (class_chars name)) as Hall.
    { unfold class_chars. rewrite Hf. apply Forall_forall. intros c Hc.
      apply list_elem_of_filter in Hc as [_ Hc]. unfold all_chars in Hc.
      apply list_elem_of_fmap in Hc as (k & -> & Hk). apply list_elem_of_In, in_seq in Hk.
      unfold OOBCH. lia. }
    destruct (scan_set [] (class_chars name) junk s0) as (s2 & Hscan & Hready & _ & Hsec & _);
      [done|done|done|done|].
    destruct (class_chars name) as [|c l] eqn:Ec; [done|].
    inversion Hscan as [|? ? s1 ? ? Hnext Hrest]; subst.
    eexists _, _, s1, s2. split; [reflexivity|]. split_and!; [|done|done|done|done].
    intros f. cbn [item_text app] in Ht. rewrite (next_bracket _ s _ _ Hn Ht Hb).
    apply Forall_cons_1 in Hall as [Hc _]. unfold next_char in Hnext.
    rewrite (next_set 2 s0 c) in Hnext by done. rewrite (next_set f s0 c) by done. exact Hnext.
  - pose proof (bracket_equiv s e m Hok Ht) as Hb. pose proof (elem_val_range e Hok).
    eexists _, [], _, _. split; [reflexivity|]. split; [|split; [constructor|]].
    + intros f. cbn [item_text app] in Ht. rewrite (next_bracket _ s _ _ Hn Ht Hb).
      rewrite (next_set _ _ (elem_val e)) by (done || (unfold OOBCH; lia)). reflexivity.
    + done.
  - destruct Hok as (Hsec & He & H1 & H2 & H3 & Hrange).
    cbn [item_text app] in Ht. rewrite <- !app_assoc in Ht. cbn [app] in Ht.
    rewrite <- app_assoc in Ht. cbn [app] in Ht.
    assert (Forall (λ c, c ≠ 0) (print_uint n)) as Hnz.
    { eapply Forall_impl; [exact (print_uint_digits n)|]. intros c Hc%isdigit_range. lia. }
    set (s0 := set_text s (elem_text e ++ ch "*" :: print_uint n ++ ch "]" :: m)).
    pose proof (genseq_ok s0 e (print_uint n) (ch "]" :: m) n
      (set_text (set_lastch s (elem_val e)) m) Hsec He eq_refl) as Hseq.
    rewrite (genseq_count_number _ n m) in Hseq by done. specialize (Hseq eq_refl).
    pose proof (bracket_seq s e (print_uint n) m _ He H1 H2 H3 Hnz Ht Hseq) as Hb.
    destruct (Z.eqb_spec n 0) as [|_]; [lia|].
    set (s1 := set_state (set_cnt (set_text (set_lastch s (elem_val e)) m) n) SEQUENCE) in *.
    destruct (scan_seq (Z.to_nat (n - 1)) (set_cnt s1 (n - 1)))
      as (s2 & Hscan & Hready & Hst & Hsec2 & Hl); [done|simpl; lia|].
    exists (elem_val e), (replicate (Z.to_nat (n - 1)) (elem_val e)), (set_cnt s1 (n - 1)), s2.
    split_and!; [|..|done|done|done|].
    + change (elem_val e :: replicate (Z.to_nat (n - 1)) (elem_val e))
        with (replicate (S (Z.to_nat (n - 1))) (elem_val e)). f_equal. lia.
    + intros f. rewrite (next_bracket _ s _ _ Hn Ht Hb).
      cbn [next state s1 set_state cnt set_cnt lastch set_text set_lastch].
      destruct (Z.eqb_spec n 0); [lia|]. reflexivity.
    + intros _. split; [by rewrite Hst|]. rewrite Hl. simpl lastch.
      rewrite last_cons. destruct (Z.to_nat (n - 1)) as [|k]; [done|].
      rewrite replicate_S_end, last_snoc. done.
Qed.

(** An element to fill with. *)
Lemma next_fill s e m :
  state s = NORMAL → item_ok (second s) (Fill e) → text s = item_text (Fill e) ++ m →
  ∃ s1, (∀ f, next (S (S f)) s = Ok (true, elem_val e, s1))
      ∧ ∀ f, next (S f) s1 = Ok (true, elem_val e, s1).
Proof.
  intros Hn (Hsec & He & H1 & H2 & H3) Ht. cbn [item_text app] in Ht.
  rewrite <- !app_assoc in Ht. cbn [app] in Ht.
  set (s0 := set_text s (elem_text e ++ ch "*" :: [] ++ ch "]" :: m)).
  pose proof (genseq_ok s0 e [] (ch "]" :: m) 0
      (set_text (set_lastch s (elem_val e)) m) Hsec He eq_refl) as Hseq.
  specialize (Hseq eq_refl).
  pose proof (bracket_seq s e [] m _ He H1 H2 H3 ltac:(constructor) Ht Hseq) as Hb.
  eexists. split.
  - intros f. rewrite (next_bracket _ s _ _ Hn Ht Hb). reflexivity.
  - intros f. reflexivity.
Qed.

Lemma spec_chars_cons i its :
  is_fill i = false →
  spec_chars (i :: its) = (item_chars i ++ fst (spec_chars its), snd (spec_chars its)).
Proof. destruct i; try done; intros _; cbn [spec_chars]; by destruct (spec_chars its). Qed.

(** The last item leaves its last character in [lastch], unless it is a set. *)
Definition ends_plain (its : list item) : Prop :=
  match last its with Some i => is_set i = false | None => True end.

Lemma scan_spec its s :
  ready s (spec_text its ++ [0]) → spec_ok (second s) its →
  ∃ s', scans s (fst (spec_chars its)) s' ∧ second s' = second s ∧
    match snd (spec_chars its) with
    | None => ready s' [0]
              ∧ (its ≠ [] → ends_plain its →
                 state s' ≠ SET ∧ Some (lastch s') = last (fst (spec_chars its)))
    | Some v => ∃ s'', next_char s' = Ok (true, v, s'') ∧ next_char s'' = Ok (true, v, s'')
    end.
Proof.
  revert s. induction its as [|i its IH]; intros s Hr Hok.
  { exists s. split; [constructor|]. done. }
  destruct Hok as (Hi & Hrest & Hhyph).
  change (spec_text (i :: its)) with (item_text i ++ spec_text its) in Hr.
  rewrite <- app_assoc in Hr.
  assert (∃ s0, state s0 = NORMAL ∧ text s0 = item_text i ++ spec_text its ++ [0]
    ∧ second s0 = second s
    ∧ ∀ r, (∀ f, next (S (S f)) s0 = r) → next_char s = r) as (s0 & Hn & Ht & Hsec & Hs0).
  { destruct (decide (state s = NORMAL)) as [E|E].
    - exists s. split_and!; [done|by destruct Hr|done|]. intros r Hr0. apply (Hr0 1%nat).
    - destruct (resume_normal s _ Hr) as (? & ? & ?). exists (resume s). split_and!; try done.
      intros r Hr0. unfold next_char. rewrite (next_ready 2 s _ Hr E). apply (Hr0 0%nat). }
  destruct (is_fill i) eqn:Ef.
  { destruct i as [| | | | |e]; try done. rewrite <- Hsec in Hi.
    destruct (next_fill s0 e _ Hn Hi Ht) as (s1 & H1 & H2).
    exists s. split; [constructor|]. split; [done|]. exists s1. split; [by apply Hs0|apply H2]. }
  rewrite <- Hsec in Hi.
  destruct (next_item s0 i (spec_text its ++ [0])) as (c & l & s1 & s2 & Hl & Hnext & Hscan
    & Hready & Hsec2 & Hlast); [done|done|done|done|rewrite length_app; simpl; lia| |].
  { destruct i; try done. destruct its as [|j its]; [simpl; lia|].
    destruct (spec_text (j :: its)) eqn:E; [|done]. simpl. lia. }
  rewrite Hsec in Hsec2.
  destruct (IH s2 Hready ltac:(by rewrite Hsec2)) as (s' & Hscan' & Hsec' & Hend).
  exists s'. rewrite spec_chars_cons by done. cbn [fst snd]. split_and!; [|congruence|].
  { rewrite Hl. cbn [app]. apply scans_cons with s1; [by apply Hs0|].
    by apply scans_app with s2. }
  destruct (snd (spec_chars its)); [done|]. destruct Hend as [Hr' Hend].
  split; [done|]. intros _ Hplain. destruct its as [|j its].
  - cbn [fst spec_chars]. rewrite app_nil_r, Hl. inversion Hscan'; subst. by apply Hlast.
  - assert (ends_plain (j :: its)) as Hp by done.
    destruct (Hend ltac:(done) Hp) as [? Hlst]. split; [done|].
    rewrite last_app, <- Hlst. done.
Qed.

(** At the end of the text the scanner repeats what it last yielded. *)
Lemma next_end s : ready s [0] →
  ∃ s', next_char s = Ok (false, if decide (state s = SET) then OOBCH else lastch s, s')
      ∧ state s' = EOS
      ∧ lastch s' = (if decide (state s = SET) then OOBCH else lastch s).
Proof.
  intros Hr. unfold next_char. destruct (decide (state s = NORMAL)) as [E|E].
  - destruct Hr as [Ht _]. rewrite decide_False by (by rewrite E). eexists. split.
    + cbn [next]. rewrite E, Ht. reflexivity.
    + done.
  - rewrite (next_ready 2 s _ Hr E). destruct (resume_normal s _ Hr) as (Hn & Ht & _).
    eexists. split; [|split].
    + cbn [next]. rewrite Hn, Ht. cbn [at_ lookup list_lookup res_bind Z.eqb].
      do 3 f_equal. unfold resume. destruct (state s) eqn:Es; try done.
    + done.
    + unfold resume. destruct (state s) eqn:Es; done.
Qed.

(** ** Tables *)

Definition table (f : Z → Z) : list Z := map f all_chars.

Lemma table_length f : length (table f) = 256%nat.
Proof. unfold table, all_chars. by rewrite !length_map, length_seq. Qed.

Lemma table_lookup f c : is_byte c → table f !! Z.to_nat c = Some (f c).
Proof.
  unfold is_byte. intros Hc. unfold table, all_chars. rewrite map_map.
  change (map ?g ?l) with (g <$> l). rewrite list_lookup_fmap, lookup_seq_lt by lia.
  simpl. f_equal. f_equal. lia.
Qed.

Lemma table_ext f g : (∀ c, is_byte c → f c = g c) → table f = table g.
Proof.
  intros H. unfold table. apply map_ext_in. intros c Hc. apply H.
  unfold all_chars in Hc. apply in_map_iff in Hc as (k & <- & Hk%in_seq).
  unfold is_byte. lia.
Qed.

Lemma zeros_table : zeros = table (λ _, 0).
Proof. reflexivity. Qed.

Lemma tab_get_table f c : is_byte c → tab_get (table f) c = Ok (f c).
Proof.
  intros Hc. unfold tab_get, at_. destruct (Z.ltb_spec c 0); [unfold is_byte in Hc; lia|].
  by rewrite table_lookup.
Qed.

Lemma tab_set_table f c v :
  is_byte c → tab_set (table f) c v = Ok (table (λ x, if x =? c then v else f x)).
Proof.
  intros Hc. unfold tab_set, NCHARS. unfold is_byte in Hc.
  destruct (Z.leb_spec 0 c); [|lia]. destruct (Z.ltb_spec c 256); [|lia]. cbn [andb]. f_equal.
  apply list_eq. intros i. destruct (decide (i < 256)%nat) as [Hi|Hi].
  - rewrite <- (Nat2Z.id i). rewrite (table_lookup _ (Z.of_nat i)) by (unfold is_byte; lia).
    destruct (Z.eqb_spec (Z.of_nat i) c) as [<-|Hne].
    + rewrite list_lookup_insert_eq; [done|]. rewrite table_length. lia.
    + rewrite list_lookup_insert_ne by lia. apply table_lookup. unfold is_byte. lia.
  - rewrite !lookup_ge_None_2; [done|..]; rewrite ?length_insert, table_length; lia.
Qed.

(** Marking the characters of a list. *)
Definition member (l : list Z) (c : Z) : bool := existsb (Z.eqb c) l.

Lemma mark_loop_scans fuel s l s' f e s'' :
  scans s l s' → next_char s' = Ok (false, e, s'') → (length l < fuel)%nat →
  Forall is_byte l →
  mark_loop fuel s (table f) = Some (Ok (table (λ c, if member l c then 1 else f c))).
Proof.
  intros Hs Hend. revert fuel f. induction Hs as [s|s c s1 l s2 Hn Hs IH];
    intros fuel f Hfuel Hl; (destruct fuel as [|fuel]; [simpl in Hfuel; lia|]); cbn [mark_loop].
  - by rewrite Hend.
  - apply Forall_cons_1 in Hl as [Hc Hl]. rewrite Hn, tab_set_table by done.
    rewrite IH; [|done|simpl in Hfuel; lia|done]. do 2 f_equal. apply table_ext. intros x _.
    simpl. destruct (member l x); [by rewrite orb_true_r|]. by rewrite orb_false_r.
Qed.

(** The characters of a valid specification are bytes. *)
Lemma item_chars_bytes b i : item_ok b i → Forall is_byte (item_chars i).
Proof.
  unfold is_byte. destruct i as [e|lo hi|name|e|e n|e]; simpl.
  - intros He%elem_val_range. by apply Forall_singleton.
  - intros (Hlo%elem_val_range & Hhi%elem_val_range & Hle). apply Forall_forall. intros c Hc.
    apply list_elem_of_fmap in Hc as (k & -> & Hk). apply list_elem_of_In, in_seq in Hk. lia.
  - intros [func Hf]. unfold class_chars. rewrite Hf. apply Forall_forall. intros c Hc.
    apply list_elem_of_filter in Hc as [_ Hc]. unfold all_chars in Hc.
    apply list_elem_of_fmap in Hc as (k & -> & Hk). apply list_elem_of_In, in_seq in Hk. lia.
  - intros He%elem_val_range. by apply Forall_singleton.
  - intros (_ & He%elem_val_range & _). by apply Forall_replicate.
  - done.
Qed.

Lemma spec_chars_bytes b its :
  spec_ok b its → Forall is_byte (fst (spec_chars its))
  ∧ ∀ v, snd (spec_chars its) = Some v → is_byte v.
Proof.
  induction its as [|i its IH]; [done|]. intros (Hi & Hits & _).
  destruct (IH Hits) as [H1 H2]. pose proof (item_chars_bytes b i Hi) as H3.
  destruct (is_fill i) eqn:E.
  - destruct i; try done. simpl. split; [constructor|]. intros v [= <-].
    destruct Hi as (_ & He & _). by apply elem_val_range in He.
  - rewrite spec_chars_cons by done. split; [by apply Forall_app|done].
Qed.

Lemma ready_create b txt : ready (str_create b txt) txt.
Proof. done. Qed.

(** [setup] marks the characters of the specification, or the others. *)
Lemma setup_spec fuel its b cflag :
  spec_ok b its → snd (spec_chars its) = None → (length (fst (spec_chars its)) < fuel)%nat →
  setup fuel (spec_text its ++ [0]) b cflag
  = Some (Ok (table (λ c, if xorb cflag (member (fst (spec_chars its)) c) then 1 else 0))).
Proof.
  intros Hok Hnone Hfuel. unfold setup.
  destruct (scan_spec its (str_create b (spec_text its ++ [0])) (ready_create _ _) Hok)
    as (s' & Hscan & _ & Hend). rewrite Hnone in Hend. destruct Hend as [Hr _].
  destruct (next_end s' Hr) as (s'' & Hnext & _).
  rewrite zeros_table, (mark_loop_scans fuel _ _ _ _ _ _ Hscan Hnext Hfuel)
    by (by apply (spec_chars_bytes b)).
  destruct cflag; [|done]. do 2 f_equal. unfold table. rewrite map_map. apply map_ext.
  intros c. by destruct (member _ c).
Qed.

(** ** tr -d and tr -s *)

Lemma delete_loop_spec input (p : Z → bool) :
  Forall is_byte input →
  delete_loop input (table (λ c, if p c then 1 else 0)) = Ok (filter (λ c, p c = false) input).
Proof.
  induction 1 as [|c input Hc Hin IH]; cbn [delete_loop]; [done|].
  rewrite tab_get_table, IH by done. cbn [res_bind]. rewrite filter_cons.
  destruct (p c); case_decide; done.
Qed.

(** Each run of one character of [p] is reduced to one. *)
Fixpoint squeezed (p : Z → bool) (l : list Z) : list Z :=
  match l with
  | c :: (d :: _) as l' => if (c =? d) && p c then squeezed p l' else c :: squeezed p l'
  | l => l
  end.

Lemma squeeze_loop_spec input (p : Z → bool) last :
  Forall is_byte input →
  squeeze_loop input zeros (table (λ c, if p c then 1 else 0)) last
  = Ok (match squeezed p input with
        | c :: out => if p c && (last =? c) then out else c :: out
        | [] => []
        end).
Proof.
  intros Hin. revert last. induction Hin as [|c input Hc Hin IH]; intros last; [done|].
  cbn [squeeze_loop]. rewrite zeros_table, !tab_get_table, <- zeros_table by done.
  cbn [res_bind Z.eqb andb]. rewrite !IH. clear IH.
  destruct input as [|d input].
  { simpl. destruct (p c), (last =? c); done. }
  change (squeezed p (c :: d :: input))
    with (if (c =? d) && p c then squeezed p (d :: input) else c :: squeezed p (d :: input)).
  assert (∃ out, squeezed p (d :: input) = d :: out) as [out ->].
  { clear. revert d. induction input as [|e input IH]; intros d; [by eexists|].
    change (squeezed p (d :: e :: input))
      with (if (d =? e) && p d then squeezed p (e :: input) else d :: squeezed p (e :: input)).
    destruct (Z.eqb_spec d e) as [->|]; cbn [andb]; [|by eexists].
    destruct (p e); [apply IH|by eexists]. }
  destruct (Z.eqb_spec c d) as [->|Hne]; cbn [andb].
  - destruct (p d) eqn:Ep; cbn [andb orb negb Z.eqb res_bind];
      destruct (Z.eqb_spec last d) as [->|]; cbn [negb andb orb res_bind];
      rewrite ?Ep, ?Z.eqb_refl; cbn [andb]; done.
  - destruct (p c) eqn:Ep; cbn [andb orb negb Z.eqb res_bind];
      destruct (Z.eqb_spec last c) as [->|]; cbn [negb andb orb res_bind];
      destruct (Z.eqb_spec c d); try done; rewrite ?andb_false_r; try done.
Qed.

(** ** Translation *)

(** The value the table ends up with: the last pair for the character counts. *)
Definition trans (ps : list (Z * Z)) (d c : Z) : Z :=
  foldl (λ d p, if fst p =? c then snd p else d) d ps.

(** [feeds v s l]: [l] are the characters successive steps of the matching loop take from
    the second string, [v] being the current one. *)
Inductive feeds : Z → STR → list Z → Prop :=
  | feeds_nil v s : feeds v s []
  | feeds_cons v s b v' s' l :
      next_char s = Ok (b, v', s') → feeds v' s' l → feeds v s (v :: l).






Lemma trans_app ps qs d c : trans (ps ++ qs) d c = trans qs (trans ps d c) c.
Proof. apply foldl_app. Qed.



(** *** The second string *)



Lemma feeds_take v s l k : feeds v s l → feeds v s (take k l).
Proof.
  intros H. revert k. induction H as [v s|v s b v' s' l Hn Hf IH]; intros k;
    [rewrite take_nil; constructor|].
  destruct k as [|k]; [constructor|]. simpl. by apply feeds_cons with b v' s'.
Qed.






(** ** The filters *)

(** Deleting first and squeezing then. *)
Lemma squeeze_loop_deletes input (p : Z → bool) g last :
  Forall is_byte input →
  squeeze_loop input (table (λ c, if p c then 1 else 0)) (table g) last
  = squeeze_loop (filter (λ c, p c = false) input) zeros (table g) last.
Proof.
  intros H. revert last. induction H as [|c input Hc Hin IH]; intros last; [done|].
  rewrite filter_cons. cbn [squeeze_loop]. rewrite !tab_get_table by done. cbn [res_bind].
  destruct (p c); case_decide; try done; cbn [Z.eqb andb squeeze_loop]; [apply IH|].
  rewrite zeros_table, !tab_get_table, <- zeros_table by done. cbn [res_bind Z.eqb andb].
  by rewrite !IH.
Qed.



(** No character of the input is the mark [lastch] starts with. *)
Lemma squeeze_all input (p : Z → bool) :
  Forall is_byte input →
  squeeze_loop input zeros (table (λ c, if p c then 1 else 0)) OOBCH = Ok (squeezed p input).
Proof.
  intros H. rewrite squeeze_loop_spec by done. f_equal.
  destruct (squeezed p input) as [|c out] eqn:E; [done|].
  assert (OOBCH =? c = false) as ->; [|by rewrite andb_false_r].
  assert (∀ l, Forall is_byte l → Forall is_byte (squeezed p l)) as Hb.
  { clear. intros l Hl. induction Hl as [|c l Hc Hl IH]; [constructor|].
    destruct l as [|d l]; [by constructor|]. cbn [squeezed] in *.
    destruct (_ && _); [done|by constructor]. }
  pose proof (Hb input H) as Hs. rewrite E in Hs. apply Forall_cons_1 in Hs as [Hc _].
  unfold is_byte, OOBCH in *. lia.
Qed.

Lemma spec_chars_first its : spec_ok false its → snd (spec_chars its) = None.
Proof.
  induction its as [|i its IH]; [done|]. intros (Hi & Hits & _).
  destruct (is_fill i) eqn:E; [by destruct i; try done; destruct Hi|].
  rewrite spec_chars_cons by done. by apply IH.
Qed.






(** ** The program *)

Lemma filter_bytes (p : Z → bool) l :
  Forall is_byte l → Forall is_byte (filter (λ c, p c = false) l).
Proof. intros H. apply Forall_forall. intros c [_ Hc]%list_elem_of_filter. by eapply Forall_forall in H. Qed.

(** tr -d [-c]: the characters of the specification, or the others, are removed. *)
Theorem tr_deletes fuel cflag its input :
  spec_ok false its → (length (fst (spec_chars its)) < fuel)%nat → Forall is_byte input →
  tr fuel cflag true false (spec_text its ++ [0]) None input
  = Some (Ok (filter (λ c, xorb cflag (member (fst (spec_chars its)) c) = false) input)).
Proof.
  intros Hok Hfuel Hin. unfold tr. rewrite setup_spec by (done || by apply spec_chars_first).
  cbn [obind]. by rewrite delete_loop_spec.
Qed.

(** tr -d -s and tr -s with one string: runs of the characters of the last string are
    reduced to one, after the deletion. *)
Theorem tr_squeezes fuel (cflag : bool) its its2 input :
  spec_ok false its → spec_ok true its2 → snd (spec_chars its2) = None →
  (length (fst (spec_chars its)) < fuel)%nat → (length (fst (spec_chars its2)) < fuel)%nat →
  Forall is_byte input →
  tr fuel cflag true true (spec_text its ++ [0]) (Some (spec_text its2 ++ [0])) input
  = Some (Ok (squeezed (member (fst (spec_chars its2)))
                (filter (λ c, xorb cflag (member (fst (spec_chars its)) c) = false) input)))
  ∧ tr fuel cflag false true (spec_text its ++ [0]) None input
  = Some (Ok (squeezed (λ c, xorb cflag (member (fst (spec_chars its)) c)) input)).
Proof.
  intros Hok Hok2 Hnone Hf1 Hf2 Hin. pose proof (spec_chars_first its Hok) as Hnone1.
  unfold tr. rewrite (setup_spec fuel its false) by done. cbn [obind].
  rewrite (setup_spec fuel its2 true) by done. cbn [obind]. split.
  - rewrite squeeze_loop_deletes, squeeze_all; [done|by apply filter_bytes|done].
  - by rewrite squeeze_all.
Qed.


(** ** Limits *)

(** A second string that ends in a class or an equivalence class is padded with the
    end mark of its set, which [putchar] turns into a NUL: in [tr abc '\[=x=\]'] the
    characters b and c become NULs.  With -s the mark is an index past the end of the
    second table. *)
Lemma tr_pads_with_the_mark :
  tr 10 false false false (str "abc" ++ [0]) (Some (str "[=x=]" ++ [0])) (str "abcd")
    = Some (Ok [ch "x"; 0; 0; ch "d"])
  ∧ tr 10 false false true (str "abc" ++ [0]) (Some (str "[=x=]" ++ [0])) (str "abcd")
    = Some Fault.
Proof. split; vm_compute; reflexivity. Qed.

(** A text that ends in a bracket is read past its end, and so is one that ends in
    the escape of a NUL and a hyphen. *)
Lemma tr_reads_past_the_end :
  tr 10 false true false (str "[" ++ [0]) None [] = Some Fault
  ∧ tr 10 false true false (92 :: str "0-" ++ [0]) None [] = Some Fault.
Proof. split; vm_compute; reflexivity. Qed.

(** The hyphen and the backslash of an unfinished range are lost: nothing but b is
    deleted. *)
Lemma tr_loses_the_hyphen :
  tr 10 false true false (str "b-" ++ [92; 0]) None (str "ab-") = Some (Ok (str "a-")).
Proof. vm_compute. reflexivity. Qed.

(** With -d and -s a second string that fills up is scanned for ever. *)
Lemma tr_fill_diverges fuel its e its2 input :
  spec_ok false its → spec_ok true (Fill e :: its2) → Forall is_byte input →
  (length (fst (spec_chars its)) < fuel)%nat →
  tr fuel false true true (spec_text its ++ [0]) (Some (spec_text (Fill e :: its2) ++ [0])) input
  = None.
Proof.
  intros Hok Hok2 Hin Hfuel. unfold tr.
  rewrite (setup_spec fuel its false) by (done || by apply spec_chars_first). cbn [obind].
  unfold setup.
  destruct (scan_spec _ (str_create true (spec_text (Fill e :: its2) ++ [0])) (ready_create _ _) Hok2)
    as (s' & Hscan & _ & s'' & Hn1 & Hn2). inversion Hscan; subst. rewrite zeros_table.
  assert (∀ fuel s f, next_char s = Ok (true, elem_val e, s'') →
            mark_loop fuel s (table f) = None) as H; [|by rewrite H].
  destruct Hok2 as [(_ & He & _) _]. apply elem_val_range in He.
  clear -He Hn2. induction fuel as [|fuel IH]; intros s f Hn; [done|]. cbn [mark_loop].
  rewrite Hn, tab_set_table by (unfold is_byte; lia). by apply IH.
Qed.

(** ** Witnesses *)

Definition eg1 : list item := [Rng (Chr (ch "a")) (Chr (ch "c")); Cls (str "digit")].
Definition eg2 : list item := [Cls (str "upper")].

Lemma tr_deletes_witness :
  tr 20 false true false (spec_text eg1 ++ [0]) None (str "ax1y") = Some (Ok (str "xy")).
Proof.
  rewrite (tr_deletes 20 false eg1 (str "ax1y")); [reflexivity|..].
  - cbn. repeat split; try (cbn; lia). by eexists.
  - vm_compute. lia.
  - repeat (apply Forall_cons; split); try (unfold is_byte; lia). done.
Defined.

Lemma tr_squeezes_witness :
  tr 30 false true true (spec_text eg1 ++ [0]) (Some (spec_text eg2 ++ [0])) (str "XaXyy")
  = Some (Ok (str "Xyy")).
Proof.
  refine (proj1 (tr_squeezes 30 false eg1 eg2 (str "XaXyy") _ _ _ _ _ _)).
  - cbn. repeat split; try (cbn; lia). by eexists.
  - cbn. repeat split. by eexists.
  - reflexivity.
  - vm_compute. lia.
  - vm_compute. lia.
  - repeat (apply Forall_cons; split); try (unfold is_byte; lia). done.
Defined.

