(* ===== verification/Ssprintf.v ===== *)
(** * snprintf_ss: lib/netbsd/vsnprintf_ss.c and snprintf_ss.c

    The formatter that is safe in signal handlers: the directives of [printf] without
    floating point.  A format is the list of its characters before the NUL; a
    [va_list] is the list of the arguments left, each with its type, and taking one as
    another type is a fault, as is an [int] that overflows.  [char]s are bytes. *)

From S2P Require Import Prelude Libc.

(** ** Data *)

Definition ALT : Z := 1.
Definition HEXPREFIX : Z := 2.
Definition LADJUST : Z := 4.
Definition LONGINT : Z := 16.
Definition QUADINT : Z := 32.
Definition SHORTINT : Z := 64.
Definition MAXINT : Z := 128.
Definition PTRINT : Z := 256.
Definition SIZEINT : Z := 512.
Definition ZEROPAD : Z := 1024.

(** The types an argument is taken as.  The signed and the unsigned type of a size
    share their arguments. *)
Inductive ctype := T_int | T_long | T_quad | T_intmax | T_ptrdiff | T_size | T_ptr.

#[global] Instance ctype_eq_dec : EqDecision ctype.
Proof. solve_decision. Defined.

(** A string is the memory that can be read there, its NUL included. *)
Inductive arg :=
  | Num (t : ctype) (v : Z)
  | Text (p : option (list Z)).

Definition va_arg (t : ctype) (ap : list arg) : res (Z * list arg) :=
  match ap with
  | Num t' v :: ap => if decide (t = t') then Ok (v, ap) else Fault
  | _ => Fault
  end.
Definition va_string (ap : list arg) : res (option (list Z) * list arg) :=
  match ap with Text p :: ap => Ok (p, ap) | _ => Fault end.

Definition s16 (z : Z) : Z := (z + 2 ^ 15) mod 2 ^ 16 - 2 ^ 15.

Definition int_type (flags : Z) : ctype :=
  if has flags MAXINT then T_intmax
  else if has flags PTRINT then T_ptrdiff
  else if has flags SIZEINT then T_size
  else if has flags QUADINT then T_quad
  else if has flags LONGINT then T_long
  else T_int.

(** [SARG()] and [UARG()], stored in the 64 bits of [_uquad]. *)
Definition SARG (flags : Z) (ap : list arg) : res (Z * list arg) :=
  let* (v, ap) := va_arg (int_type flags) ap in
  Ok (u64 (if decide (int_type flags = T_int)
           then if has flags SHORTINT then s16 v else s32 v else v), ap).
Definition UARG (flags : Z) (ap : list arg) : res (Z * list arg) :=
  let* (v, ap) := va_arg (int_type flags) ap in
  Ok (if decide (int_type flags = T_int)
      then if has flags SHORTINT then v mod 2 ^ 16 else u32 v else u64 v, ap).

Definition int_ok (z : Z) : res Z := if (INT_MIN <=? z) && (z <=? INT_MAX) then Ok z else Fault.

(** The variables of the scan of one directive. *)
Record scan := mkScan {
  fmt : list Z; ap : list arg; flags : Z; width : Z; prec : Z; sign : Z }.

Definition add_flag (s : scan) (f : Z) : scan :=
  mkScan (fmt s) (ap s) (flags s .| f) (width s) (prec s) (sign s).
Definition set_fmt (s : scan) (m : list Z) : scan :=
  mkScan m (ap s) (flags s) (width s) (prec s) (sign s).
Definition set_ap (s : scan) (a : list arg) : scan :=
  mkScan (fmt s) a (flags s) (width s) (prec s) (sign s).
Definition set_width (s : scan) (w : Z) : scan :=
  mkScan (fmt s) (ap s) (flags s) w (prec s) (sign s).
Definition set_prec (s : scan) (p : Z) : scan :=
  mkScan (fmt s) (ap s) (flags s) (width s) p (sign s).
Definition set_sign (s : scan) (c : Z) : scan :=
  mkScan (fmt s) (ap s) (flags s) (width s) (prec s) c.

(** ** The flags, the width and the precision *)

(** [while (is_digit(ch)) { n = 10 * n + to_digit(ch); ch = *fmt++; }]. *)
Fixpoint number_loop (m : list Z) (n c : Z) : res (Z * Z * list Z) :=
  if isdigit c then
    let* n := int_ok (10 * n + (c - ch "0")) in
    match m with
    | [] => Ok (n, 0, [])
    | c :: m => number_loop m n c
    end
  else Ok (n, c, m).

(** From [reswitch] with the character [c]: the conversion character, and the state. *)
Fixpoint reswitch (fuel : nat) (c : Z) (s : scan) : res (Z * scan) :=
  match fuel with
  | O => Fault
  | S fuel =>
      let rflag s := reswitch fuel (peek (fmt s)) (set_fmt s (tail (fmt s))) in
      if c =? ch " " then rflag (if sign s =? 0 then set_sign s (ch " ") else s)
      else if c =? ch "#" then rflag (add_flag s ALT)
      else if c =? ch "*" then
        let* (w, a) := va_arg T_int (ap s) in
        let s := set_ap s a in
        if 0 <=? w then rflag (set_width s w)
        else let* w := int_ok (- w) in rflag (add_flag (set_width s w) LADJUST)
      else if c =? ch "-" then rflag (add_flag s LADJUST)
      else if c =? ch "+" then rflag (set_sign s (ch "+"))
      else if c =? ch "." then
        let c := peek (fmt s) in
        let s := set_fmt s (tail (fmt s)) in
        if c =? ch "*" then
          let* (n, a) := va_arg T_int (ap s) in
          rflag (set_prec (set_ap s a) (if n <? 0 then -1 else n))
        else
          let* (n, c, m) := number_loop (fmt s) 0 c in
          reswitch fuel c (set_prec (set_fmt s m) (if n <? 0 then -1 else n))
      else if c =? ch "0" then rflag (add_flag s ZEROPAD)
      else if isdigit c then
        let* (n, c, m) := number_loop (fmt s) 0 c in
        reswitch fuel c (set_width (set_fmt s m) n)
      else if c =? ch "h" then rflag (add_flag s SHORTINT)
      else if c =? ch "j" then rflag (add_flag s MAXINT)
      else if c =? ch "l" then
        if peek (fmt s) =? ch "l" then rflag (add_flag (set_fmt s (tail (fmt s))) QUADINT)
        else rflag (add_flag s LONGINT)
      else if c =? ch "q" then rflag (add_flag s QUADINT)
      else if c =? ch "t" then rflag (add_flag s PTRINT)
      else if c =? ch "z" then rflag (add_flag s SIZEINT)
      else Ok (c, s)
  end.

(** ** Conversions *)

Inductive base := OCT | DEC | HEX.

Definition xdigs_lower : list Z := str "0123456789abcdef".
Definition xdigs_upper : list Z := str "0123456789ABCDEF".

Definition to_char (n : Z) : Z := n + ch "0".

(** One digit, and the value without it. *)
Definition digit_step (b : base) (xdigs : list Z) (v : Z) : Z * Z :=
  match b with
  | OCT => (to_char (v .& 7), Z.shiftr v 3)
  | DEC => (to_char (v mod 10), v / 10)
  | HEX => (nth (Z.to_nat (v .& 15)) xdigs 0, Z.shiftr v 4)
  end.

(** The digits, written backwards from the end of [bf]; 22 are enough for 64 bits. *)
Fixpoint digit_loop (fuel : nat) (b : base) (xdigs : list Z) (v : Z) (cp : list Z) : list Z :=
  match fuel with
  | O => cp
  | S fuel =>
      let '(c, v) := digit_step b xdigs v in
      if v =? 0 then c :: cp else digit_loop fuel b xdigs v (c :: cp)
  end.

(** What a conversion leaves: the [size] characters at [cp], [dprec] and [ch]. *)
Record field := mkField { f_text : list Z; f_dprec : Z; f_ch : Z }.

(** From the label [number]. *)
Definition number (b : base) (xdigs : list Z) (v c : Z) (s : scan) : field * scan :=
  let s := if 0 <=? prec s
           then mkScan (fmt s) (ap s) (flags s .&~ ZEROPAD) (width s) (prec s) (sign s) else s in
  let cp := if negb (v =? 0) || negb (prec s =? 0) then
              let cp := digit_loop 22 b xdigs v [] in
              match b with
              | OCT => if has (flags s) ALT && negb (peek cp =? ch "0") then ch "0" :: cp else cp
              | _ => cp
              end
            else [] in
  (mkField cp (prec s) c, s).

(** From [nosign]. *)
Definition nosign (b : base) (xdigs : list Z) (v c : Z) (s : scan) : field * scan :=
  number b xdigs v c (set_sign s 0).

(** From [hex]. *)
Definition hex (xdigs : list Z) (c : Z) (s : scan) : res (field * scan) :=
  let* (v, a) := UARG (flags s) (ap s) in
  let s := set_ap s a in
  Ok (nosign HEX xdigs v c (if has (flags s) ALT && negb (v =? 0) then add_flag s HEXPREFIX else s)).

(** [memchr(cp, 0, prec)] and [strlen(cp)]: the characters found. *)
Fixpoint until_nul (n : nat) (p : list Z) : res (list Z) :=
  match n with
  | O => Ok []
  | S n => match p with
           | [] => Fault
           | c :: p => if c =? 0 then Ok [] else let* t := until_nul n p in Ok (c :: t)
           end
  end.
Definition string_text (s : scan) (p : option (list Z)) : res (list Z) :=
  let m := match p with Some m => m | None => str "(null)" ++ [0] end in
  if 0 <=? prec s then until_nul (Z.to_nat (prec s)) m else until_nul (S (length m)) m.

Inductive outcome :=
  | Field (f : field) (s : scan)
  | NoOutput (s : scan)
  | Done.

(** The conversion character [c]; [%n] stores through its pointer, and prints nothing. *)
Definition convert (c : Z) (s : scan) : res outcome :=
  let print r := let* (f, s) := r in Ok (Field f s) in
  if c =? ch "c" then
    let* (v, a) := va_arg T_int (ap s) in
    Ok (Field (mkField [u8 v] 0 c) (set_sign (set_ap s a) 0))
  else if (c =? ch "D") || (c =? ch "d") || (c =? ch "i") then
    let s := if c =? ch "D" then add_flag s LONGINT else s in
    let* (v, a) := SARG (flags s) (ap s) in
    let s := set_ap s a in
    print (Ok (if s64 v <? 0 then number DEC [] (u64 (- v)) c (set_sign s (ch "-"))
               else number DEC [] v c s))
  else if c =? ch "n" then let* (_, a) := va_arg T_ptr (ap s) in Ok (NoOutput (set_ap s a))
  else if (c =? ch "O") || (c =? ch "o") then
    let s := if c =? ch "O" then add_flag s LONGINT else s in
    let* (v, a) := UARG (flags s) (ap s) in
    print (Ok (nosign OCT [] v c (set_ap s a)))
  else if c =? ch "p" then
    let* (v, a) := va_arg T_ptr (ap s) in
    print (Ok (nosign HEX xdigs_lower (u64 v) (ch "x") (add_flag (set_ap s a) HEXPREFIX)))
  else if c =? ch "s" then
    let* (p, a) := va_string (ap s) in
    let* t := string_text s p in
    Ok (Field (mkField t 0 c) (set_sign (set_ap s a) 0))
  else if (c =? ch "U") || (c =? ch "u") then
    let s := if c =? ch "U" then add_flag s LONGINT else s in
    let* (v, a) := UARG (flags s) (ap s) in
    print (Ok (nosign DEC [] v c (set_ap s a)))
  else if c =? ch "X" then print (hex xdigs_upper c s)
  else if c =? ch "x" then print (hex xdigs_lower c s)
  else if c =? 0 then Ok Done
  else Ok (Field (mkField [c] 0 c) (set_sign s 0)).

(** ** Output *)

Definition PUTCHAR (slen : nat) (sbuf : list Z) (c : Z) : list Z :=
  if (length sbuf <? slen)%nat then sbuf ++ [c] else sbuf.
Definition put_all (slen : nat) (sbuf : list Z) (l : list Z) : list Z := foldl (PUTCHAR slen) sbuf l.

(** [n = m; while (n-- > 0) PUTCHAR(c);]. *)
Definition put_pad (slen : nat) (sbuf : list Z) (c n : Z) : list Z :=
  put_all slen sbuf (replicate (Z.to_nat n) c).

Definition put_field (slen : nat) (sbuf : list Z) (ret : Z) (f : field) (s : scan)
    : res (list Z * Z) :=
  let size := Z.of_nat (length (f_text f)) in
  let realsz := if size <? f_dprec f then f_dprec f else size in
  let* realsz := int_ok (if negb (sign s =? 0) then realsz + 1
                         else if has (flags s) HEXPREFIX then realsz + 2 else realsz) in
  let* ret := int_ok (ret + if realsz <? width s then width s else realsz) in
  let sbuf := if flags s .& (LADJUST .| ZEROPAD) =? 0
              then put_pad slen sbuf (ch " ") (width s - realsz) else sbuf in
  let sbuf := if negb (sign s =? 0) then PUTCHAR slen sbuf (sign s)
              else if has (flags s) HEXPREFIX
              then PUTCHAR slen (PUTCHAR slen sbuf (ch "0")) (f_ch f) else sbuf in
  let sbuf := if flags s .& (LADJUST .| ZEROPAD) =? ZEROPAD
              then put_pad slen sbuf (ch "0") (width s - realsz) else sbuf in
  let sbuf := put_pad slen sbuf (ch "0") (f_dprec f - size) in
  let sbuf := put_all slen sbuf (f_text f) in
  let sbuf := if has (flags s) LADJUST
              then put_pad slen sbuf (ch " ") (width s - realsz) else sbuf in
  Ok (sbuf, ret).

(** [while ( *fmt != '%' && *fmt)]. *)
Fixpoint literals (slen : nat) (m : list Z) (sbuf : list Z) (ret : Z) : res (list Z * list Z * Z) :=
  match m with
  | [] => Ok ([], sbuf, ret)
  | c :: m' => if c =? ch "%" then Ok (m, sbuf, ret)
               else let* ret := int_ok (ret + 1) in literals slen m' (PUTCHAR slen sbuf c) ret
  end.

(** The loop; at [done] a buffer that is full loses its last character to the NUL. *)
Fixpoint format_loop (fuel : nat) (slen : nat) (m : list Z) (a : list arg) (sbuf : list Z) (ret : Z)
    : res (list Z * Z) :=
  match fuel with
  | O => Fault
  | S fuel =>
      let* (m, sbuf, ret) := literals slen m sbuf ret in
      match m with
      | [] => Ok (sbuf, ret)
      | _ :: m =>
          let s := mkScan (tail m) a 0 0 (-1) 0 in
          let* (c, s) := reswitch (4 + length m) (peek m) s in
          let* o := convert c s in
          match o with
          | Done => Ok (sbuf, ret)
          | NoOutput s => format_loop fuel slen (fmt s) (ap s) sbuf ret
          | Field f s =>
              let* (sbuf, ret) := put_field slen sbuf ret f s in
              format_loop fuel slen (fmt s) (ap s) sbuf ret
          end
      end
  end.

(** The bytes stored at [sbuf], and the result.  With [slen] 0 the NUL is stored
    before the buffer. *)
Definition vsnprintf_ss (slen : Z) (fmt0 : list Z) (a : list arg) : res (list Z * Z) :=
  if INT_MAX <? slen then Err EOVERFLOW else
  let* (sbuf, ret) := format_loop (S (length fmt0)) (Z.to_nat slen) fmt0 a [] 0 in
  if (length sbuf =? Z.to_nat slen)%nat then
    if slen =? 0 then Fault else Ok (take (length sbuf - 1) sbuf ++ [0], ret)
  else Ok (sbuf ++ [0], ret).

Definition snprintf_ss (n : Z) (fmt : list Z) (a : list arg) : res (list Z * Z) :=
  vsnprintf_ss n fmt a.
