(* ===== verification/SsprintfSpec.v ===== *)
(** * snprintf_ss: what a format prints

    The directives as the C standard describes them, and the theorem that [vsnprintf_ss]
    prints a format made of them as the standard says, cut to the buffer. *)

From S2P Require Import Prelude Libc Ssprintf.

(** ** Directives as the C standard describes them *)

Inductive lenmod := L_none | L_h | L_l | L_ll | L_q | L_j | L_t | L_z.
Inductive conv := C_d | C_i | C_u | C_o | C_x | C_X | C_c | C_s.

#[global] Instance conv_eq_dec : EqDecision conv.
Proof. solve_decision. Defined.

#[global] Instance lenmod_eq_dec : EqDecision lenmod.
Proof. solve_decision. Defined.

Record directive := mkDir {
  d_flags : list Z; d_width : option Z; d_prec : option Z; d_len : lenmod; d_conv : conv }.

Definition len_text (l : lenmod) : list Z :=
  match l with
  | L_none => [] | L_h => [ch "h"] | L_l => [ch "l"] | L_ll => [ch "l"; ch "l"]
  | L_q => [ch "q"] | L_j => [ch "j"] | L_t => [ch "t"] | L_z => [ch "z"]
  end.
Definition conv_char (c : conv) : Z :=
  match c with
  | C_d => ch "d" | C_i => ch "i" | C_u => ch "u" | C_o => ch "o" | C_x => ch "x"
  | C_X => ch "X" | C_c => ch "c" | C_s => ch "s"
  end.
Definition width_text (w : option Z) : list Z := match w with Some w => print_uint w | None => [] end.
Definition prec_text (p : option Z) : list Z :=
  match p with Some p => ch "." :: print_uint p | None => [] end.

(** The text after the percent sign. *)
Definition dir_text (d : directive) : list Z :=
  d_flags d ++ width_text (d_width d) ++ prec_text (d_prec d) ++ len_text (d_len d)
  ++ [conv_char (d_conv d)].

Definition has_flag (d : directive) (c : Z) : bool := existsb (Z.eqb c) (d_flags d).
Definition is_flag (c : Z) : bool :=
  (c =? ch " ") || (c =? ch "#") || (c =? ch "-") || (c =? ch "+") || (c =? ch "0").

(** The value of the argument: its type is that of the length modifier. *)
Definition len_type (l : lenmod) : ctype :=
  match l with
  | L_none | L_h => T_int | L_l => T_long | L_ll | L_q => T_quad
  | L_j => T_intmax | L_t => T_ptrdiff | L_z => T_size
  end.
Definition signed_value (l : lenmod) (v : Z) : Z :=
  match l with L_none => s32 v | L_h => s16 v | _ => s64 v end.
Definition unsigned_value (l : lenmod) (v : Z) : Z :=
  match l with L_none => u32 v | L_h => v mod 2 ^ 16 | _ => u64 v end.

(** The digits of a number in a base. *)
Fixpoint radix (fuel : nat) (b : Z) (digit : Z → Z) (v : Z) (acc : list Z) : list Z :=
  match fuel with
  | O => acc
  | S fuel => let acc := digit (v mod b) :: acc in
              if v / b =? 0 then acc else radix fuel b digit (v / b) acc
  end.
Definition dec_digit (n : Z) : Z := ch "0" + n.
Definition hex_digit (a n : Z) : Z := if n <? 10 then ch "0" + n else a + n - 10.

Definition pad_to (n : Z) (l : list Z) : list Z := replicate (Z.to_nat n - length l) (ch "0") ++ l.

(** With a precision the digits are extended by zeros; zero with precision zero has
    none. *)
Definition with_prec (p : option Z) (v : Z) (digits : list Z) : list Z :=
  match p with
  | Some p => if (p =? 0) && (v =? 0) then [] else pad_to p digits
  | None => digits
  end.

(** The prefix and the digits. *)
Definition std_number (d : directive) (v : Z) : list Z * list Z :=
  let u := unsigned_value (d_len d) v in
  match d_conv d with
  | C_d | C_i =>
      let n := signed_value (d_len d) v in
      ((if n <? 0 then [ch "-"] else if has_flag d (ch "+") then [ch "+"]
        else if has_flag d (ch " ") then [ch " "] else []),
       with_prec (d_prec d) n (radix 22 10 dec_digit (Z.abs n) []))
  | C_u => ([], with_prec (d_prec d) u (radix 22 10 dec_digit u []))
  | C_o => ([], let t := with_prec (d_prec d) u (radix 22 8 dec_digit u []) in
                if has_flag d (ch "#") && negb (peek t =? ch "0") then ch "0" :: t else t)
  | C_x => ((if has_flag d (ch "#") && negb (u =? 0) then str "0x" else []),
            with_prec (d_prec d) u (radix 22 16 (hex_digit (ch "a")) u []))
  | _ => ((if has_flag d (ch "#") && negb (u =? 0) then str "0X" else []),
          with_prec (d_prec d) u (radix 22 16 (hex_digit (ch "A")) u []))
  end.

(** Padding to the width: blanks after it with the flag -, zeros after the prefix with the
    flag 0 unless there is a precision, blanks before it otherwise. *)
Definition std_pad (d : directive) (zeros : bool) (prefix body : list Z) : list Z :=
  let n := (Z.to_nat (default 0%Z (d_width d)) - (length prefix + length body))%nat in
  if has_flag d (ch "-") then prefix ++ body ++ replicate n (ch " ")
  else if zeros then prefix ++ replicate n (ch "0") ++ body
  else replicate n (ch " ") ++ prefix ++ body.

Definition std_dir (d : directive) (a : arg) : list Z :=
  match a with
  | Num _ v =>
      if decide (d_conv d = C_c) then std_pad d false [] [u8 v]
      else let '(prefix, body) := std_number d v in
           std_pad d (has_flag d (ch "0") && bool_decide (d_prec d = None)) prefix body
  | Text p =>
      let t := cstr (default (str "(null)") p) in
      std_pad d false [] (match d_prec d with Some p => take (Z.to_nat p) t | None => t end)
  end.

(** What the standard defines: a flag 0 only for numbers, modifiers only for numbers, and
    arguments of the right type; a string ends in a NUL. *)
Definition dir_ok (d : directive) (a : arg) : Prop :=
  Forall (λ c, is_flag c = true) (d_flags d)
  ∧ (∀ w, d_width d = Some w → 0 < w <= INT_MAX)
  ∧ (∀ p, d_prec d = Some p → 0 <= p <= INT_MAX)
  ∧ match d_conv d with
    | C_c => d_len d = L_none ∧ has_flag d (ch "0") = false ∧ ∃ v, a = Num T_int v
    | C_s => d_len d = L_none ∧ has_flag d (ch "0") = false
             ∧ ∃ p, a = Text p ∧ ∀ m, p = Some m → (length (cstr m) < length m)%nat
    | _ => ∃ v, a = Num (len_type (d_len d)) v
    end.

(** The one case in which the code departs from the standard, which asks for a 0. *)
Definition octal_zero (d : directive) (a : arg) : Prop :=
  d_conv d = C_o ∧ has_flag d (ch "#") = true ∧ d_prec d = Some 0
  ∧ match a with Num _ v => unsigned_value (d_len d) v = 0 | _ => False end.

Inductive piece :=
  | Lit (c : Z)
  | Percent
  | Dir (d : directive) (a : arg).

Definition piece_text (p : piece) : list Z :=
  match p with
  | Lit c => [c] | Percent => [ch "%"; ch "%"] | Dir d _ => ch "%" :: dir_text d
  end.
Definition piece_args (p : piece) : list arg := match p with Dir _ a => [a] | _ => [] end.
Definition piece_out (p : piece) : list Z :=
  match p with Lit c => [c] | Percent => [ch "%"] | Dir d a => std_dir d a end.
Definition piece_ok (p : piece) : Prop :=
  match p with
  | Lit c => 0 < c < 256 ∧ c ≠ ch "%"
  | Percent => True
  | Dir d a => dir_ok d a ∧ ¬ octal_zero d a
  end.

(** ** Output *)

Lemma PUTCHAR_take slen full c : PUTCHAR slen (take slen full) c = take slen (full ++ [c]).
Proof.
  unfold PUTCHAR. rewrite length_take. destruct (Nat.ltb_spec (Nat.min slen (length full)) slen).
  - rewrite !take_ge by (rewrite ?length_app; simpl; lia). done.
  - by rewrite take_app_le by lia.
Qed.

Lemma put_all_take slen full l : put_all slen (take slen full) l = take slen (full ++ l).
Proof.
  revert full. induction l as [|c l IH]; intros full; [by rewrite app_nil_r|].
  unfold put_all. cbn [foldl]. rewrite PUTCHAR_take. fold (put_all slen (take slen (full ++ [c])) l).
  by rewrite IH, <- app_assoc.
Qed.

Lemma put_pad_take slen full c n :
  put_pad slen (take slen full) c n = take slen (full ++ replicate (Z.to_nat n) c).
Proof. apply put_all_take. Qed.

(** The tests on the two adjustment flags. *)
Lemma adjust_flags f :
  (f .& (LADJUST .| ZEROPAD) =? 0) = negb (has f LADJUST) && negb (has f ZEROPAD)
  ∧ (f .& (LADJUST .| ZEROPAD) =? ZEROPAD) = negb (has f LADJUST) && has f ZEROPAD.
Proof.
  rewrite Z.land_lor_distr_r. change LADJUST with (2 ^ 2). change ZEROPAD with (2 ^ 10).
  rewrite !has_bit, !land_pow2_bit by lia. by destruct (Z.testbit f 2), (Z.testbit f 10).
Qed.

Lemma int_ok_in z : INT_MIN <= z <= INT_MAX → int_ok z = Ok z.
Proof.
  intros H. unfold int_ok. by rewrite (proj2 (Z.leb_le INT_MIN z)), (proj2 (Z.leb_le z INT_MAX)) by lia.
Qed.

(** The prefix of a field, and all of it. *)
Definition field_prefix (f : field) (s : scan) : list Z :=
  if negb (sign s =? 0) then [sign s]
  else if has (flags s) HEXPREFIX then [ch "0"; f_ch f] else [].
Definition field_body (f : field) : list Z :=
  replicate (Z.to_nat (f_dprec f - Z.of_nat (length (f_text f)))) (ch "0") ++ f_text f.
Definition field_out (f : field) (s : scan) : list Z :=
  let n := (Z.to_nat (width s) - (length (field_prefix f s) + length (field_body f)))%nat in
  if has (flags s) LADJUST then field_prefix f s ++ field_body f ++ replicate n (ch " ")
  else if has (flags s) ZEROPAD then field_prefix f s ++ replicate n (ch "0") ++ field_body f
  else replicate n (ch " ") ++ field_prefix f s ++ field_body f.

Lemma field_out_length f s :
  Z.of_nat (length (field_out f s))
  = Z.max (width s) (Z.of_nat (length (field_prefix f s) + length (field_body f))).
Proof. unfold field_out. repeat case_match; rewrite !length_app, length_replicate; lia. Qed.

Lemma put_field_take slen full f s :
  Z.of_nat (length (full ++ field_out f s)) <= INT_MAX →
  put_field slen (take slen full) (Z.of_nat (length full)) f s
  = Ok (take slen (full ++ field_out f s), Z.of_nat (length (full ++ field_out f s))).
Proof.
  rewrite length_app, Nat2Z.inj_add, field_out_length. intros Hmax. unfold put_field.
  set (size := Z.of_nat (length (f_text f))).
  set (body := field_body f) in *. set (pre := field_prefix f s) in *.
  assert ((if size <? f_dprec f then f_dprec f else size) = Z.of_nat (length body)) as ->.
  { unfold body, field_body, size. rewrite length_app, length_replicate. Zcases; lia. }
  assert ((if negb (sign s =? 0) then Z.of_nat (length body) + 1
           else if has (flags s) HEXPREFIX then Z.of_nat (length body) + 2 else Z.of_nat (length body))
          = Z.of_nat (length pre + length body)) as ->.
  { unfold pre, field_prefix. repeat case_match; simpl; lia. }
  rewrite int_ok_in by (unfold INT_MIN; lia). cbn [res_bind].
  set (realsz := Z.of_nat (length pre + length body)) in *.
  assert ((if realsz <? width s then width s else realsz) = Z.max (width s) realsz) as ->
    by (Zcases; lia).
  rewrite int_ok_in by (unfold INT_MIN; lia). cbn [res_bind]. f_equal. f_equal.
  destruct (adjust_flags (flags s)) as [-> ->].
  assert (Z.to_nat (width s - realsz) = (Z.to_nat (width s) - (length pre + length body))%nat) as Hn
    by (unfold realsz; lia).
  assert (∀ full, (if negb (sign s =? 0) then PUTCHAR slen (take slen full) (sign s)
     else if has (flags s) HEXPREFIX
          then PUTCHAR slen (PUTCHAR slen (take slen full) (ch "0")) (f_ch f) else take slen full)
     = take slen (full ++ pre)) as Hpre.
  { intros l. unfold pre, field_prefix. repeat case_match; rewrite ?PUTCHAR_take, ?app_nil_r, <- ?app_assoc; done. }
  assert (∀ full, put_all slen (put_pad slen (take slen full) (ch "0") (f_dprec f - size)) (f_text f)
     = take slen (full ++ body)) as Hbody.
  { intros l. rewrite put_pad_take, put_all_take, <- app_assoc. done. }
  unfold field_out. fold pre body. rewrite <- Hn.
  destruct (has (flags s) LADJUST); cbn [negb andb].
  - by rewrite Hpre, Hbody, put_pad_take, <- !app_assoc.
  - destruct (has (flags s) ZEROPAD); cbn [negb].
    + by rewrite Hpre, (put_pad_take slen _ _ (width s - realsz)), Hbody, <- !app_assoc.
    + by rewrite put_pad_take, Hpre, Hbody, <- !app_assoc.
Qed.

(** ** Scanning a directive *)

(** [rflag]: the next character. *)
Definition rflag (fuel : nat) (s : scan) : res (Z * scan) :=
  reswitch fuel (peek (fmt s)) (set_fmt s (tail (fmt s))).

Definition apply_flag (s : scan) (c : Z) : scan :=
  if c =? ch " " then (if sign s =? 0 then set_sign s (ch " ") else s)
  else if c =? ch "#" then add_flag s ALT
  else if c =? ch "-" then add_flag s LADJUST
  else if c =? ch "+" then set_sign s (ch "+")
  else add_flag s ZEROPAD.

Lemma set_fmt_twice s m m' : set_fmt (set_fmt s m) m' = set_fmt s m'.
Proof. done. Qed.

Lemma rflag_flag fuel s c m :
  is_flag c = true → fmt s = c :: m →
  rflag (S fuel) s = rflag fuel (set_fmt (apply_flag s c) m).
Proof.
  intros Hc Hm. unfold rflag at 1. rewrite Hm. cbn [peek tail reswitch].
  unfold is_flag in Hc. unfold apply_flag, rflag.
  destruct (Z.eqb_spec c (ch " ")) as [->|]; [by destruct (sign s =? 0) eqn:E; cbn; rewrite ?E|].
  destruct (Z.eqb_spec c (ch "#")) as [->|]; [done|].
  destruct (Z.eqb_spec c (ch "-")) as [->|]; [done|].
  destruct (Z.eqb_spec c (ch "+")) as [->|]; [done|].
  destruct (Z.eqb_spec c (ch "0")) as [->|]; [done|]. done.
Qed.

Lemma fmt_set s m : fmt (set_fmt s m) = m.
Proof. done. Qed.

Lemma apply_flag_fmt s c m : apply_flag (set_fmt s m) c = set_fmt (apply_flag s c) m.
Proof. unfold apply_flag. cbn [sign set_fmt]. by repeat case_match. Qed.

Lemma rflag_flags fl fuel s m :
  Forall (λ c, is_flag c = true) fl → fmt s = fl ++ m →
  rflag (length fl + fuel) s = rflag fuel (set_fmt (foldl apply_flag s fl) m).
Proof.
  intros Hfl. revert s. induction Hfl as [|c fl Hc Hfl IH]; intros s Hm.
  - cbn [foldl length Nat.add]. unfold set_fmt. destruct s; cbn in *. by subst.
  - cbn [length Nat.add app foldl] in *. rewrite (rflag_flag _ s c (fl ++ m)) by done.
    rewrite IH by done. f_equal. clear. generalize (apply_flag s c). clear s c.
    assert (∀ s, set_fmt (foldl apply_flag (set_fmt s (fl ++ m)) fl) m = set_fmt (foldl apply_flag s fl) m)
      as H; [|intros s; apply H]. generalize (fl ++ m).
    induction fl as [|d fl IH]; intros l s; [done|]. cbn [foldl]. by rewrite apply_flag_fmt, IH.
Qed.

(** A number in the format. *)
Lemma number_loop_digits ds n c m :
  Forall (λ c, isdigit c = true) ds → isdigit c = false → 0 <= n →
  foldl (λ a c, a * 10 + digit_val c) n ds <= INT_MAX →
  match ds ++ c :: m with
  | [] => True
  | d :: l => number_loop l n d = Ok (foldl (λ a c, a * 10 + digit_val c) n ds, c, m)
  end.
Proof.
  intros Hds Hc. revert n. induction Hds as [|d ds Hd Hds IH]; intros n Hn Hmax; cbn [app].
  - destruct m as [|x m]; cbn [number_loop foldl]; by rewrite Hc.
  - assert (∀ ds n, 0 <= n → n <= foldl (λ a c, a * 10 + digit_val c) n ds) as Hmono.
    { clear. induction ds as [|d ds IH]; intros n Hn; cbn [foldl]; [lia|].
      pose proof (digit_val_nonneg d). etransitivity; [|apply IH]; lia. }
    pose proof (digit_val_digit d Hd) as Hv. pose proof (proj1 (isdigit_range d) Hd).
    cbn [foldl] in Hmax. pose proof (Hmono ds (n * 10 + digit_val d) ltac:(lia)).
    specialize (IH (n * 10 + digit_val d) ltac:(lia) Hmax).
    assert (int_ok (10 * n + (d - 48)) = Ok (n * 10 + digit_val d)) as E.
    { rewrite int_ok_in by (unfold INT_MIN; lia). f_equal. lia. }
    destruct (ds ++ c :: m) as [|x l] eqn:El; [by destruct ds|].
    cbn [number_loop]. rewrite Hd, E. cbn [res_bind foldl]. exact IH.
Qed.

Lemma number_loop_print v c m :
  0 <= v <= INT_MAX → isdigit c = false →
  ∃ d l, print_uint v ++ c :: m = d :: l ∧ isdigit d = true ∧ number_loop l 0 d = Ok (v, c, m).
Proof.
  intros Hv Hc. pose proof (print_uint_digits v) as Hds. pose proof (print_uint_nonempty v) as Hne.
  pose proof (decimal_digits_value 20 v [] 0 ltac:(unfold INT_MAX in Hv; lia) eq_refl) as Hval.
  fold (print_uint v) in Hval. cbn [foldl] in Hval.
  pose proof (number_loop_digits (print_uint v) 0 c m Hds Hc ltac:(lia)) as H.
  rewrite Hval in H. destruct (print_uint v) as [|d ds]; [simpl in Hne; lia|].
  apply Forall_cons_1 in Hds as [Hd _]. exists d, (ds ++ c :: m). split; [done|]. split; [done|].
  apply H. lia.
Qed.

Ltac not_equal c :=
  repeat match goal with
         | |- context [if c =? ?k then _ else _] => destruct (Z.eqb_spec c k); [exfalso; lia|]
         end.

Lemma rflag_width fuel s w m :
  0 < w <= INT_MAX → fmt s = print_uint w ++ m → m ≠ [] → isdigit (peek m) = false →
  rflag (S fuel) s = rflag fuel (set_fmt (set_width s w) m).
Proof.
  intros Hw Hm Hne Hd. destruct m as [|c m]; [done|]. cbn [peek] in Hd.
  destruct (number_loop_print w c m ltac:(lia) Hd) as (d & l & El & Hdd & Hloop).
  pose proof (decimal_digits_first 20 w [] ltac:(unfold INT_MAX in Hw; lia)) as Hf.
  fold (print_uint w) in Hf. rewrite El in Hm. assert (peek (print_uint w) = d) as Hp.
  { pose proof (print_uint_nonempty w). destruct (print_uint w); [simpl in *; lia|]. by injection El. }
  rewrite Hp in Hf. unfold rflag at 1. rewrite Hm. cbn [peek tail reswitch].
  not_equal d. rewrite Hdd. cbn [fmt set_fmt]. rewrite Hloop. done.
Qed.

Lemma rflag_prec fuel s p m :
  0 <= p <= INT_MAX → fmt s = ch "." :: print_uint p ++ m → m ≠ [] → isdigit (peek m) = false →
  rflag (S fuel) s = rflag fuel (set_fmt (set_prec s p) m).
Proof.
  intros Hp Hm Hne Hd. destruct m as [|c m]; [done|]. cbn [peek] in Hd.
  destruct (number_loop_print p c m Hp Hd) as (d & l & El & Hdd & Hloop).
  rewrite El in Hm. unfold rflag at 1. rewrite Hm. cbn [peek tail reswitch fmt set_fmt].
  apply isdigit_range in Hdd. cbn [Z.eqb Pos.eqb]. destruct (Z.eqb_spec d (ch "*")); [lia|].
  rewrite Hloop. cbn [res_bind]. by destruct (Z.ltb_spec p 0); [lia|].
Qed.

Definition len_flag (l : lenmod) : Z :=
  match l with
  | L_none => 0 | L_h => SHORTINT | L_l => LONGINT | L_ll | L_q => QUADINT
  | L_j => MAXINT | L_t => PTRINT | L_z => SIZEINT
  end.

Lemma rflag_len fuel s l c m :
  l ≠ L_none → fmt s = len_text l ++ c :: m → c ≠ ch "l" →
  rflag (S fuel) s = rflag fuel (set_fmt (add_flag s (len_flag l)) (c :: m)).
Proof.
  intros Hl Hm Hc. destruct l; try done; unfold rflag at 1; rewrite Hm;
    cbn [len_text app peek tail reswitch fmt set_fmt Z.eqb Pos.eqb]; try done.
  by destruct (Z.eqb_spec c (ch "l")).
Qed.

Lemma rflag_conv fuel s c m :
  fmt s = conv_char c :: m → rflag (S fuel) s = Ok (conv_char c, set_fmt s m).
Proof. intros Hm. unfold rflag. rewrite Hm. by destruct c. Qed.

Lemma has_lor a b k : has (a .| b) k = has a k || has b k.
Proof.
  unfold has. rewrite Z.land_lor_distr_l. 
  destruct (Z.eqb_spec (a .& k) 0) as [->|Ha]; cbn [negb orb].
  - by rewrite Z.lor_0_l.
  - apply negb_true_iff, Z.eqb_neq. intros [? _]%Z.lor_eq_0_iff. done.
Qed.

(** The state after the flags. *)
Definition flag_value (c : Z) : Z :=
  if c =? ch "#" then ALT else if c =? ch "-" then LADJUST
  else if c =? ch "0" then ZEROPAD else 0.
Definition flags_of (fl : list Z) (f : Z) : Z := foldl (λ f c, f .| flag_value c) f fl.
Definition sign_of (fl : list Z) (g : Z) : Z :=
  if existsb (Z.eqb (ch "+")) fl then ch "+"
  else if negb (g =? 0) then g
  else if existsb (Z.eqb (ch " ")) fl then ch " " else 0.

Lemma apply_flags fl s :
  Forall (λ c, is_flag c = true) fl → (sign s = 0 ∨ sign s = ch " " ∨ sign s = ch "+") →
  foldl apply_flag s fl
  = mkScan (fmt s) (ap s) (flags_of fl (flags s)) (width s) (prec s)
      (if sign s =? ch "+" then ch "+" else sign_of fl (sign s)).
Proof.
  intros Hfl. revert s. induction Hfl as [|c fl Hc Hfl IH]; intros s Hs; cbn [foldl].
  - unfold flags_of, sign_of. cbn [foldl existsb]. destruct s as [m a f w p g]; cbn in *.
    by destruct Hs as [-> | [-> | ->]].
  - unfold is_flag in Hc. rewrite IH; clear IH.
    + destruct s as [m a f w p g]; cbn [fmt ap flags width prec sign] in *.
      change (flags_of (c :: fl) f) with (flags_of fl (f .| flag_value c)).
      assert (c = ch " " ∨ c = ch "#" ∨ c = ch "-" ∨ c = ch "+" ∨ c = ch "0") as Hc' by lia.
      unfold sign_of. cbn [existsb]. clear Hc.
      destruct Hc' as [-> | [-> | [-> | [-> | ->]]]]; unfold apply_flag;
        cbn [Z.eqb Pos.eqb sign fmt ap flags width prec set_sign add_flag orb];
        [change (flag_value 32) with 0|done|done|change (flag_value 43) with 0|done];
        rewrite Z.lor_0_r; destruct Hs as [-> | [-> | ->]];
        cbn [Z.eqb Pos.eqb sign fmt ap flags width prec set_sign negb]; by repeat case_match.
    + unfold apply_flag. repeat case_match; cbn; auto.
Qed.

Lemma flags_of_has fl f k :
  has (flags_of fl f) k
  = has f k || existsb (λ c, has (flag_value c) k) fl.
Proof.
  revert f. induction fl as [|c fl IH]; intros f; [by rewrite orb_false_r|].
  unfold flags_of. cbn [foldl existsb]. fold (flags_of fl (f .| flag_value c)).
  by rewrite IH, has_lor, orb_assoc.
Qed.

(** The state when the conversion character has been read. *)
Definition scanned (d : directive) (m : list Z) (a : list arg) : scan :=
  mkScan m a (flags_of (d_flags d) 0 .| len_flag (d_len d)) (default 0 (d_width d))
    (default (-1) (d_prec d)) (sign_of (d_flags d) 0).

Lemma reswitch_directive d a m fuel :
  Forall (λ c, is_flag c = true) (d_flags d) →
  (∀ w, d_width d = Some w → 0 < w <= INT_MAX) →
  (∀ p, d_prec d = Some p → 0 <= p <= INT_MAX) →
  (length (d_flags d) + 4 <= fuel)%nat →
  rflag fuel (mkScan (dir_text d ++ m) a 0 0 (-1) 0) = Ok (conv_char (d_conv d), scanned d m a).
Proof.
  intros Hfl Hw Hp Hfuel. replace fuel with (length (d_flags d) + (4 + (fuel - length (d_flags d) - 4)))%nat by lia.
  generalize (fuel - length (d_flags d) - 4)%nat. intros f. clear Hfuel.
  unfold dir_text. rewrite <- !app_assoc. 
  erewrite rflag_flags; [|done|reflexivity]. rewrite apply_flags by (done || by left).
  unfold set_fmt. cbn [ap flags width prec sign Z.eqb].
  set (rest := width_text _ ++ _).
  set (tl := prec_text _ ++ _) in rest. set (tl' := len_text _ ++ _) in tl.
  assert (Ht' : tl' ≠ [] ∧ isdigit (peek tl') = false)
    by (unfold tl'; by destruct (d_len d), (d_conv d)).
  assert (Ht : tl ≠ [] ∧ isdigit (peek tl) = false).
  { unfold tl. destruct (d_prec d); [done|exact Ht']. }
  assert (∃ f', (3 <= f')%nat ∧ ∀ g sg, rflag (4 + f) (mkScan rest a g 0 (-1) sg)
    = rflag f' (mkScan tl a g (default 0 (d_width d)) (-1) sg)) as (f1 & Hf1 & H1).
  { unfold rest. destruct (d_width d) as [w|]; [|exists (4 + f)%nat; split; [lia|done]].
    exists (3 + f)%nat. split; [lia|]. intros g sg.
    by apply (rflag_width (3 + f) (mkScan _ a g 0 (-1) sg) w tl); [auto|..]; destruct Ht. }
  rewrite H1. clear H1. clearbody rest.
  assert (∃ f', (2 <= f')%nat ∧ ∀ g sg, rflag f1 (mkScan tl a g (default 0 (d_width d)) (-1) sg)
    = rflag f' (mkScan tl' a g (default 0 (d_width d)) (default (-1) (d_prec d)) sg)) as (f2 & Hf2 & H2).
  { unfold tl. destruct (d_prec d) as [p|]; [|exists f1; split; [lia|done]].
    destruct f1 as [|f1]; [lia|]. exists f1. split; [lia|]. intros g sg.
    by apply (rflag_prec f1 (mkScan _ a g _ (-1) sg) p tl'); [auto|..]; destruct Ht'. }
  rewrite H2. clear H2 Ht. clearbody tl. unfold scanned.
  assert (conv_char (d_conv d) ≠ ch "l") as Hl by (by destruct (d_conv d)).
  destruct f2 as [|[|f2]]; [lia|lia|]. cbn [app] in tl'.
  destruct (decide (d_len d = L_none)) as [E|E].
  - unfold tl'. rewrite E. cbn [len_text app len_flag]. rewrite Z.lor_0_r.
    by rewrite (rflag_conv _ _ (d_conv d) m).
  - rewrite (rflag_len _ _ (d_len d) (conv_char (d_conv d)) m) by done.
    by rewrite (rflag_conv _ _ (d_conv d) m).
Qed.

(** ** Conversions *)

Lemma field_out_pad d f s zeros prefix body :
  field_prefix f s = prefix → field_body f = body →
  has (flags s) LADJUST = has_flag d (ch "-") → has (flags s) ZEROPAD = zeros →
  width s = default 0 (d_width d) →
  field_out f s = std_pad d zeros prefix body.
Proof. unfold field_out, std_pad. by intros -> -> -> -> ->. Qed.

Lemma has_0 k : has 0 k = false.
Proof. done. Qed.

(** The flags of a scanned directive. *)
Lemma scanned_flag d m a k c :
  has (len_flag (d_len d)) k = false →
  Forall (λ c, is_flag c = true) (d_flags d) →
  (∀ c', is_flag c' = true → has (flag_value c') k = (c =? c')) →
  has (flags (scanned d m a)) k = has_flag d c.
Proof.
  intros Hl Hfl Hk. cbn [flags scanned]. rewrite has_lor, Hl, orb_false_r, flags_of_has, has_0. cbn [orb].
  unfold has_flag. induction Hfl as [|x fl Hx Hfl IH]; [done|]. cbn [existsb]. by rewrite Hk, IH.
Qed.

Lemma is_flag_cases c :
  is_flag c = true → c = ch " " ∨ c = ch "#" ∨ c = ch "-" ∨ c = ch "+" ∨ c = ch "0".
Proof. unfold is_flag. lia. Qed.

Lemma scanned_flags d m a :
  Forall (λ c, is_flag c = true) (d_flags d) →
  has (flags (scanned d m a)) ALT = has_flag d (ch "#")
  ∧ has (flags (scanned d m a)) LADJUST = has_flag d (ch "-")
  ∧ has (flags (scanned d m a)) ZEROPAD = has_flag d (ch "0")
  ∧ has (flags (scanned d m a)) HEXPREFIX = false.
Proof.
  intros Hfl. split_and!.
  1-3: apply scanned_flag; [by destruct (d_len d)|done|];
    intros c Hc%is_flag_cases; by destruct Hc as [-> | [-> | [-> | [-> | ->]]]].
  cbn [flags scanned]. rewrite has_lor, flags_of_has, has_0.
  assert (has (len_flag (d_len d)) HEXPREFIX = false) as -> by by destruct (d_len d).
  rewrite orb_false_r. cbn [orb]. induction Hfl as [|x fl Hx Hfl IH]; [done|]. cbn [existsb].
  rewrite IH, orb_false_r. apply is_flag_cases in Hx. by destruct Hx as [-> | [-> | [-> | [-> | ->]]]].
Qed.

Lemma scanned_int_type d m a :
  Forall (λ c, is_flag c = true) (d_flags d) →
  int_type (flags (scanned d m a)) = len_type (d_len d)
  ∧ has (flags (scanned d m a)) SHORTINT = bool_decide (d_len d = L_h).
Proof.
  intros Hfl.
  assert (∀ k, k ∈ [MAXINT; PTRINT; SIZEINT; QUADINT; LONGINT; SHORTINT] →
    has (flags (scanned d m a)) k = has (len_flag (d_len d)) k) as H.
  { intros k Hk. cbn [flags scanned]. rewrite has_lor, flags_of_has, has_0. cbn [orb].
    replace (existsb _ _) with false; [done|]. symmetry.
    induction Hfl as [|x fl Hx Hfl IH]; [done|]. cbn [existsb]. rewrite IH, orb_false_r.
    apply is_flag_cases in Hx. rewrite !elem_of_cons, elem_of_nil in Hk.
    destruct Hk as [-> | [-> | [-> | [-> | [-> | [-> | []]]]]]];
      by destruct Hx as [-> | [-> | [-> | [-> | ->]]]]. }
  unfold int_type. rewrite !H by set_solver. by destruct (d_len d).
Qed.

Lemma digit_loop_radix fuel b xdigs bs digit v acc :
  (∀ v, 0 <= v → digit_step b xdigs v = (digit (v mod bs), v / bs)) → 0 < bs → 0 <= v →
  digit_loop fuel b xdigs v acc = radix fuel bs digit v acc.
Proof.
  intros Hstep Hbs. revert v acc. induction fuel as [|fuel IH]; intros v acc Hv; [done|].
  cbn [digit_loop radix]. rewrite Hstep by done. destruct (v / bs =? 0); [done|].
  apply IH. by apply Z.div_pos.
Qed.

Lemma digit_step_DEC xdigs v : digit_step DEC xdigs v = (dec_digit (v mod 10), v / 10).
Proof. cbn. unfold to_char, dec_digit. f_equal. lia. Qed.

Lemma digit_step_OCT xdigs v : digit_step OCT xdigs v = (dec_digit (v mod 8), v / 8).
Proof.
  cbn [digit_step]. unfold to_char, dec_digit. change 7 with (Z.ones 3).
  rewrite Z.land_ones, Z.shiftr_div_pow2 by lia. change (2 ^ 3) with 8. f_equal. lia.
Qed.

Lemma digit_step_HEX xdigs a v :
  (∀ k, (k < 16)%nat → nth k xdigs 0 = hex_digit a (Z.of_nat k)) →
  digit_step HEX xdigs v = (hex_digit a (v mod 16), v / 16).
Proof.
  intros H. cbn [digit_step]. change 15 with (Z.ones 4).
  rewrite Z.land_ones, Z.shiftr_div_pow2 by lia. change (2 ^ 4) with 16.
  pose proof (Z.mod_pos_bound v 16 ltac:(lia)). rewrite H by lia. by rewrite Z2Nat.id by lia.
Qed.

Lemma xdigs_lower_digit k : (k < 16)%nat → nth k xdigs_lower 0 = hex_digit (ch "a") (Z.of_nat k).
Proof. intros Hk. do 16 (destruct k as [|k]; [reflexivity|]). lia. Qed.
Lemma xdigs_upper_digit k : (k < 16)%nat → nth k xdigs_upper 0 = hex_digit (ch "A") (Z.of_nat k).
Proof. intros Hk. do 16 (destruct k as [|k]; [reflexivity|]). lia. Qed.

(** [number] renders the digits as the standard does. *)
Lemma number_body b xdigs bs digit v c s d :
  (∀ v, 0 <= v → digit_step b xdigs v = (digit (v mod bs), v / bs)) → 0 < bs → 0 <= v →
  prec s = default (-1) (d_prec d) → (∀ p, d_prec d = Some p → 0 <= p) →
  (b = OCT → has (flags s) ALT = false) →
  let '(f, s') := number b xdigs v c s in
  field_body f = with_prec (d_prec d) v (radix 22 bs digit v [])
  ∧ f_ch f = c ∧ s' = (if bool_decide (d_prec d = None) then s
       else mkScan (fmt s) (ap s) (flags s .&~ ZEROPAD) (width s) (prec s) (sign s)).
Proof.
  intros Hstep Hbs Hv Hprec Hp Halt. unfold number.
  rewrite (digit_loop_radix 22 b xdigs bs digit v [] Hstep Hbs Hv).
  set (ds := radix _ _ _ _ _).
  set (s1 := if 0 <=? _ then _ else _).
  assert (prec s1 = prec s) as Hps by (unfold s1; by case_match).
  assert (s1 = (if bool_decide (d_prec d = None) then s
       else mkScan (fmt s) (ap s) (flags s .&~ ZEROPAD) (width s) (prec s) (sign s))) as Es.
  { unfold s1. destruct (d_prec d) as [p|]; simpl in Hprec |- *; [|by rewrite Hprec].
    specialize (Hp p eq_refl). by rewrite Hprec, (proj2 (Z.leb_le 0 p)) by done. }
  assert (∀ x, match b with OCT => if has (flags s1) ALT && x then ch "0" :: ds else ds | _ => ds end = ds) as Hocts.
  { intros x. destruct b; try done. assert (has (flags s1) ALT = false) as ->; [|done].
    rewrite Es. case_match; [by apply Halt|]. cbn [flags].
    pose proof (Halt eq_refl) as Ha. revert Ha. change ALT with (2 ^ 0). rewrite !has_bit by lia.
    intros Ha. by rewrite Z.ldiff_spec, Ha. }
  rewrite Hocts. split; [|split; [done|exact Es]]. rewrite Hps, Hprec.
  unfold field_body, with_prec, pad_to. cbn [f_text f_dprec].
  destruct (d_prec d) as [p|]; simpl default.
  - specialize (Hp p eq_refl). destruct (Z.eqb_spec p 0) as [->|], (Z.eqb_spec v 0) as [->|]; cbn [negb orb andb];
      try done; f_equal; f_equal; lia.
  - rewrite orb_true_r. cbn [negb Z.eqb orb]. 
    replace (Z.to_nat (-1 - _)) with 0%nat by lia. done.
Qed.

(** With the flag # an octal number starts with a zero. *)
Lemma number_body_octal xdigs v c s d :
  0 <= v → prec s = default (-1) (d_prec d) → (∀ p, d_prec d = Some p → 0 <= p) →
  has (flags s) ALT = true → ¬ (v = 0 ∧ d_prec d = Some 0) →
  field_body (fst (number OCT xdigs v c s))
  = (let t := with_prec (d_prec d) v (radix 22 8 dec_digit v []) in
     if negb (peek t =? ch "0") then ch "0" :: t else t).
Proof.
  intros Hv Hprec Hp Halt Hnz. unfold number.
  rewrite (digit_loop_radix 22 OCT xdigs 8 dec_digit v []) by (done || intros; apply digit_step_OCT).
  assert (1 <= length (radix 22 8 dec_digit v []))%nat as Hlen.
  { generalize 21%nat. intros n. cbn [radix]. case_match; [simpl; lia|].
    assert (∀ n v acc, (length acc <= length (radix n 8 dec_digit v acc))%nat) as Hmono.
    { clear. induction n as [|n IH]; intros v acc; [done|]. cbn [radix]. case_match; [simpl; lia|].
      etransitivity; [|apply IH]. simpl. lia. }
    etransitivity; [|apply Hmono]. done. }
  set (ds := radix _ _ _ _ _) in *. clearbody ds.
  set (s1 := if 0 <=? prec s then _ else _).
  assert (prec s1 = prec s ∧ has (flags s1) ALT = true) as [-> ->].
  { unfold s1. case_match; [|done]. split; [done|]. cbn [flags]. revert Halt.
    change ALT with (2 ^ 0). rewrite !has_bit by lia. intros Ha. by rewrite Z.ldiff_spec, Ha. }
  cbn [fst andb]. unfold field_body. cbn [f_text f_dprec]. rewrite Hprec. cbv zeta.
  destruct (d_prec d) as [p|]; simpl default.
  - specialize (Hp p eq_refl). unfold with_prec, pad_to.
    assert (negb (v =? 0) || negb (p =? 0) = true) as -> by (destruct (Z.eqb_spec v 0), (Z.eqb_spec p 0); subst; try done; by destruct Hnz).
    assert ((p =? 0) && (v =? 0) = false) as -> by (destruct (Z.eqb_spec v 0), (Z.eqb_spec p 0); subst; try done; by destruct Hnz).
    destruct ds as [|x ds]; [simpl in Hlen; lia|]. cbn [peek].
    destruct (Z.to_nat p - length (x :: ds))%nat as [|k] eqn:Ek.
    + cbn [replicate app peek]. destruct (Z.eqb_spec x (ch "0")) as [->|]; cbn [negb].
      * by replace (Z.to_nat (p - _)) with 0%nat by lia.
      * by replace (Z.to_nat (p - Z.of_nat (length (ch "0" :: x :: ds)))) with 0%nat by (cbn [length] in *; lia).
    + cbn [replicate app peek]. destruct (Z.eqb_spec x (ch "0")) as [->|]; cbn [negb Z.eqb Pos.eqb].
      * by replace (Z.to_nat (p - _)) with (S k) by lia.
      * replace (Z.to_nat (p - Z.of_nat (length (ch "0" :: x :: ds)))) with k by (cbn [length] in *; lia).
        change (ch "0" :: replicate k (ch "0") ++ x :: ds) with (replicate (S k) (ch "0") ++ x :: ds).
        by rewrite replicate_S_end, <- app_assoc.
  - rewrite orb_true_r. cbn [with_prec].
    replace (Z.to_nat (-1 - _)) with 0%nat by (destruct (negb (peek ds =? 48)); simpl; lia). done.
Qed.

(** The field of a number, its body being known. *)
Lemma number_field b xdigs v c s d body :
  prec s = default (-1) (d_prec d) → (∀ p, d_prec d = Some p → 0 <= p) →
  has (flags s) LADJUST = has_flag d (ch "-") → has (flags s) ZEROPAD = has_flag d (ch "0") →
  width s = default 0 (d_width d) → field_body (fst (number b xdigs v c s)) = body →
  let '(f, s') := number b xdigs v c s in
  field_out f s'
  = std_pad d (has_flag d (ch "0") && bool_decide (d_prec d = None))
      (if negb (sign s =? 0) then [sign s] else if has (flags s) HEXPREFIX then [ch "0"; c] else [])
      body
  ∧ fmt s' = fmt s ∧ ap s' = ap s.
Proof.
  intros Hprec Hp HL HZ Hw Hbody. destruct (number b xdigs v c s) as [f s'] eqn:E. cbn [fst] in Hbody.
  assert (f_ch f = c ∧ s' = if 0 <=? prec s
           then mkScan (fmt s) (ap s) (flags s .&~ ZEROPAD) (width s) (prec s) (sign s) else s)
    as [Hch Hs'] by (unfold number in E; injection E as <- <-; done).
  assert ((0 <=? prec s) = negb (bool_decide (d_prec d = None))) as Hb.
  { rewrite Hprec. destruct (d_prec d) as [p|]; [|done]. specialize (Hp p eq_refl). simpl.
    by rewrite (proj2 (Z.leb_le 0 p)). }
  rewrite Hb in Hs'. clear Hb E.
  assert (∀ k, 0 <= k → k ≠ 10 → has (flags s') (2 ^ k) = has (flags s) (2 ^ k)) as Hkeep.
  { intros k Hk Hne. rewrite Hs'. case_match; [|done]. cbn [flags]. rewrite !has_bit, Z.ldiff_spec by done.
    change ZEROPAD with (2 ^ 10). rewrite Z.pow2_bits_false by lia. by rewrite andb_true_r. }
  split; [|by rewrite Hs'; case_match]. apply field_out_pad; [|done|..].
  - unfold field_prefix. rewrite Hch. change HEXPREFIX with (2 ^ 1). rewrite Hkeep by lia.
    rewrite Hs'. by case_match.
  - rewrite <- HL. change LADJUST with (2 ^ 2). apply Hkeep; lia.
  - rewrite Hs'. destruct (bool_decide _); cbn [negb].
    + by rewrite andb_true_r.
    + rewrite andb_false_r. cbn [flags]. change ZEROPAD with (2 ^ 10).
      rewrite has_bit, Z.ldiff_spec, Z.pow2_bits_true by lia. by rewrite andb_false_r.
  - rewrite Hs'. by case_match.
Qed.

(** Signed and unsigned values in 64 bits. *)
Lemma s64_u64 z : s64 (u64 z) = s64 z.
Proof. unfold s64, u64. by rewrite Zplus_mod_idemp_l. Qed.

Lemma u64_s64 z : u64 (s64 z) = u64 z.
Proof.
  unfold s64, u64. rewrite Zminus_mod_idemp_l. f_equal. lia.
Qed.

Lemma signed_value_range l v : - 2 ^ 63 <= signed_value l v < 2 ^ 63.
Proof.
  destruct l; cbn [signed_value]; try apply s64_range.
  - unfold s32. pose proof (Z.mod_pos_bound (v + 2 ^ 31) (2 ^ 32)). lia.
  - unfold s16. pose proof (Z.mod_pos_bound (v + 2 ^ 15) (2 ^ 16)). lia.
Qed.

Lemma unsigned_value_range l v : 0 <= unsigned_value l v < 2 ^ 64.
Proof.
  destruct l; cbn [unsigned_value]; try apply u64_range.
  - pose proof (u32_range v). lia.
  - pose proof (Z.mod_pos_bound v (2 ^ 16)). lia.
Qed.

Lemma SARG_scanned d m a v r :
  Forall (λ c, is_flag c = true) (d_flags d) →
  SARG (flags (scanned d m a)) (Num (len_type (d_len d)) v :: r)
  = Ok (u64 (signed_value (d_len d) v), r).
Proof.
  intros Hfl. unfold SARG. destruct (scanned_int_type d m a Hfl) as [-> ->].
  cbn [va_arg]. rewrite decide_True by done. cbn [res_bind].
  destruct (d_len d); cbn; rewrite ?u64_s64; done.
Qed.

Lemma UARG_scanned d m a v r :
  Forall (λ c, is_flag c = true) (d_flags d) →
  UARG (flags (scanned d m a)) (Num (len_type (d_len d)) v :: r)
  = Ok (unsigned_value (d_len d) v, r).
Proof.
  intros Hfl. unfold UARG. destruct (scanned_int_type d m a Hfl) as [-> ->].
  cbn [va_arg]. rewrite decide_True by done. cbn [res_bind]. by destruct (d_len d).
Qed.

Lemma until_nul_take n p :
  (length (cstr p) < length p)%nat → until_nul n p = Ok (take n (cstr p)).
Proof.
  revert p. induction n as [|n IH]; intros p Hp; [done|].
  destruct p as [|c p]; [simpl in Hp; lia|]. cbn [until_nul cstr] in *.
  destruct (Z.eqb_spec c 0); [done|]. cbn [length take] in *. by rewrite IH by lia.
Qed.

(** Setting the arguments left and the sign keeps what the field needs. *)
Definition with_args (s : scan) (a : list arg) (g f : Z) : scan :=
  mkScan (fmt s) a f (width s) (prec s) g.

Section conversions.
Context (d : directive) (m : list Z) (a : arg) (rest : list arg).
Context (Hfl : Forall (λ c, is_flag c = true) (d_flags d))
  (Hp0 : ∀ p, d_prec d = Some p → 0 <= p).

Let s : scan := scanned d m (a :: rest).
Let zeros : bool := has_flag d (ch "0") && bool_decide (d_prec d = None).

(** The state [number] starts from. *)
Definition started (g : Z) (hexp : bool) : scan :=
  with_args s rest g (if hexp then flags s .| HEXPREFIX else flags s).

Definition renders (r : field * scan) (prefix body : list Z) : Prop :=
  field_out (fst r) (snd r) = std_pad d zeros prefix body ∧ fmt (snd r) = m ∧ ap (snd r) = rest.

Lemma number_renders b xd v c g (hexp : bool) body :
  field_body (fst (number b xd v c (started g hexp))) = body →
  renders (number b xd v c (started g hexp))
    (if negb (g =? 0) then [g] else if hexp then [ch "0"; c] else []) body.
Proof.
  intros Hbody. destruct (scanned_flags d m (a :: rest) Hfl) as (HA & HL & HZ & HX). fold s in HA, HL, HZ, HX.
  assert (has (if hexp then flags s .| HEXPREFIX else flags s) HEXPREFIX = hexp) as Hx
    by (destruct hexp; [rewrite has_lor, orb_true_r; done|done]).
  pose proof (number_field b xd v c (started g hexp) d body eq_refl Hp0) as H.
  cbn [flags with_args width sign fmt ap started] in H. rewrite Hx in H.
  unfold renders. destruct (number b xd v c (started g hexp)) as [f s'].
  apply H; [destruct hexp; rewrite ?has_lor, ?HL, ?orb_false_r; done
           |destruct hexp; rewrite ?has_lor, ?HZ, ?orb_false_r; done|done|exact Hbody].
Qed.

Lemma number_renders_digits b xd bs digit v c g (hexp : bool) :
  (∀ v, digit_step b xd v = (digit (v mod bs), v / bs)) → 0 < bs → 0 <= v →
  (b = OCT → has_flag d (ch "#") = false) →
  renders (number b xd v c (started g hexp))
    (if negb (g =? 0) then [g] else if hexp then [ch "0"; c] else [])
    (with_prec (d_prec d) v (radix 22 bs digit v [])).
Proof.
  intros Hstep Hbs Hv Halt. apply number_renders.
  destruct (scanned_flags d m (a :: rest) Hfl) as (HA & _). fold s in HA.
  pose proof (number_body b xd bs digit v c (started g hexp) d (λ v _, Hstep v) Hbs Hv eq_refl Hp0) as H.
  destruct (number b xd v c _) as [f s']. apply H. intros E. cbn [flags with_args started].
  specialize (Halt E). destruct hexp; rewrite ?has_lor, HA, Halt; done.
Qed.

Lemma number_renders_octal v c :
  0 <= v → ¬ (has_flag d (ch "#") = true ∧ d_prec d = Some 0 ∧ v = 0) →
  renders (number OCT [] v c (started 0 false)) []
    (let t := with_prec (d_prec d) v (radix 22 8 dec_digit v []) in
     if has_flag d (ch "#") && negb (peek t =? ch "0") then ch "0" :: t else t).
Proof.
  intros Hv Hnz. destruct (has_flag d (ch "#")) eqn:Ef.
  - apply (number_renders OCT [] v c 0 false).
    destruct (scanned_flags d m (a :: rest) Hfl) as (HA & _). fold s in HA.
    apply (number_body_octal [] v c (started 0 false) d Hv eq_refl Hp0).
    + cbn [flags started with_args]. by rewrite HA.
    + intros [-> E]. by apply Hnz.
  - by apply (number_renders_digits OCT [] 8 dec_digit v c 0 false); [apply digit_step_OCT|..].
Qed.

(** A character or a string. *)
Lemma text_renders t c :
  has_flag d (ch "0") = false →
  renders (mkField t 0 c, set_sign (set_ap s rest) 0) [] t.
Proof.
  intros Hz. destruct (scanned_flags d m (a :: rest) Hfl) as (HA & HL & HZ & HX). fold s in HA, HL, HZ, HX.
  split; [|done]. cbn [fst snd]. unfold zeros. rewrite Hz. cbn [andb].
  apply field_out_pad.
  - unfold field_prefix. cbn [sign set_sign set_ap flags Z.eqb negb]. by rewrite HX.
  - unfold field_body. cbn [f_text f_dprec]. by replace (Z.to_nat (0 - _)) with 0%nat by lia.
  - exact HL.
  - cbn [flags set_sign set_ap]. by rewrite HZ, Hz.
  - done.
Qed.

End conversions.

Lemma abs_u64 n : - 2 ^ 63 <= n < 2 ^ 63 →
  (if n <? 0 then u64 (- u64 n) else u64 n) = Z.abs n.
Proof.
  intros Hn. destruct (Z.ltb_spec n 0).
  - unfold u64. rewrite <- (Z.sub_0_l (n mod 2 ^ 64)), Zminus_mod_idemp_r, Z.mod_small; lia.
  - rewrite u64_small; lia.
Qed.

Lemma with_prec_abs p n ds : with_prec p (Z.abs n) ds = with_prec p n ds.
Proof.
  unfold with_prec. destruct p as [p|]; [|done].
  by destruct (Z.eqb_spec n 0), (Z.eqb_spec (Z.abs n) 0); [|lia|lia|].
Qed.

Lemma convert_directive d a m rest :
  dir_ok d a → ¬ octal_zero d a →
  ∃ f s, convert (conv_char (d_conv d)) (scanned d m (a :: rest)) = Ok (Field f s)
       ∧ field_out f s = std_dir d a ∧ fmt s = m ∧ ap s = rest.
Proof.
  intros (Hfl & Hw & Hp & Harg) Hoz.
  assert (∀ p, d_prec d = Some p → 0 <= p) as Hp0 by (intros p Ep; apply (Hp p Ep)).
  assert (∀ r prefix body, renders d m rest r prefix body →
    std_dir d a = std_pad d (has_flag d (ch "0") && bool_decide (d_prec d = None)) prefix body →
    convert (conv_char (d_conv d)) (scanned d m (a :: rest)) = Ok (Field (fst r) (snd r)) →
    ∃ f s, convert (conv_char (d_conv d)) (scanned d m (a :: rest)) = Ok (Field f s)
       ∧ field_out f s = std_dir d a ∧ fmt s = m ∧ ap s = rest) as Hfinish.
  { intros r prefix body (H1 & H2 & H3) H4 H5. exists (fst r), (snd r). by rewrite H4. }
  assert (Hsigned : d_conv d = C_d ∨ d_conv d = C_i → ∀ v, a = Num (len_type (d_len d)) v →
    ∃ f s, convert (conv_char (d_conv d)) (scanned d m (a :: rest)) = Ok (Field f s)
       ∧ field_out f s = std_dir d a ∧ fmt s = m ∧ ap s = rest).
  { intros Hc v Ea. set (n := signed_value (d_len d) v).
    pose proof (signed_value_range (d_len d) v) as Hr. fold n in Hr.
    eapply Hfinish; [apply (number_renders_digits d m a rest Hfl Hp0 DEC [] 10 dec_digit (Z.abs n)
      (conv_char (d_conv d)) (if n <? 0 then ch "-" else sign_of (d_flags d) 0) false (digit_step_DEC []));
      [lia|lia|done]|..].
    - rewrite Ea. unfold std_dir. rewrite decide_False by (destruct Hc; congruence).
      unfold std_number. fold n. rewrite with_prec_abs. unfold sign_of. fold (has_flag d (ch "+")) (has_flag d (ch " ")).
      destruct Hc as [-> | ->]; destruct (n <? 0), (has_flag d (ch "+")), (has_flag d (ch " ")); done.
    - rewrite Ea. unfold convert.
      assert ((conv_char (d_conv d) =? ch "c") = false
        ∧ (conv_char (d_conv d) =? ch "D") = false
        ∧ (conv_char (d_conv d) =? ch "d") || (conv_char (d_conv d) =? ch "i") = true) as (-> & -> & Hdi)
        by (by destruct Hc as [-> | ->]).
      cbn [orb]. rewrite Hdi. change (ap (scanned d m ?x)) with x. rewrite SARG_scanned by done.
      cbn [res_bind]. fold n. rewrite s64_u64, (s64_small n), <- (abs_u64 n) by lia.
      subst a. by destruct (n <? 0). }
  assert (Hunsigned : ∀ v, a = Num (len_type (d_len d)) v →
    UARG (flags (scanned d m (a :: rest))) (ap (scanned d m (a :: rest)))
    = Ok (unsigned_value (d_len d) v, rest)).
  { intros v ->. by apply UARG_scanned. }
  destruct (scanned_flags d m (a :: rest) Hfl) as (HA & _ & _ & _).
  destruct (d_conv d) eqn:Ec; try (destruct Harg as [v Ea]); try (by apply (Hsigned ltac:(auto) v)).
  - specialize (Hunsigned v Ea). pose proof (unsigned_value_range (d_len d) v) as Hr.
    eapply Hfinish; [apply (number_renders_digits d m a rest Hfl Hp0 DEC [] 10 dec_digit
      (unsigned_value (d_len d) v) (ch "u") 0 false (digit_step_DEC [])); [lia|lia|done]|..].
    + unfold std_dir, std_number. by rewrite Ea, Ec.
    + unfold convert. cbn [conv_char Z.eqb Pos.eqb orb]. by rewrite Hunsigned.
  - specialize (Hunsigned v Ea). pose proof (unsigned_value_range (d_len d) v) as Hr.
    eapply Hfinish; [apply (number_renders_octal d m a rest Hfl Hp0 (unsigned_value (d_len d) v) (ch "o"));
      [lia|]|..].
    + intros (? & ? & ?). apply Hoz. unfold octal_zero. by rewrite Ea.
    + unfold std_dir, std_number. by rewrite Ea, Ec.
    + unfold convert. cbn [conv_char Z.eqb Pos.eqb orb]. by rewrite Hunsigned.
  - specialize (Hunsigned v Ea). pose proof (unsigned_value_range (d_len d) v) as Hr.
    set (u := unsigned_value (d_len d) v) in *.
    eapply Hfinish; [apply (number_renders_digits d m a rest Hfl Hp0 HEX xdigs_lower 16 (hex_digit (ch "a"))
      u (ch "x") 0 (has_flag d (ch "#") && negb (u =? 0)) (λ v, digit_step_HEX _ _ v xdigs_lower_digit));
      [lia|lia|done]|..].
    + unfold std_dir, std_number. by rewrite Ea, Ec.
    + unfold convert. cbn [conv_char Z.eqb Pos.eqb orb]. unfold hex. rewrite Hunsigned. cbn [res_bind].
      cbn [flags set_ap]. rewrite HA. by destruct (has_flag d (ch "#") && negb (u =? 0)).
  - specialize (Hunsigned v Ea). pose proof (unsigned_value_range (d_len d) v) as Hr.
    set (u := unsigned_value (d_len d) v) in *.
    eapply Hfinish; [apply (number_renders_digits d m a rest Hfl Hp0 HEX xdigs_upper 16 (hex_digit (ch "A"))
      u (ch "X") 0 (has_flag d (ch "#") && negb (u =? 0)) (λ v, digit_step_HEX _ _ v xdigs_upper_digit));
      [lia|lia|done]|..].
    + unfold std_dir, std_number. by rewrite Ea, Ec.
    + unfold convert. cbn [conv_char Z.eqb Pos.eqb orb]. unfold hex. rewrite Hunsigned. cbn [res_bind].
      cbn [flags set_ap]. rewrite HA. by destruct (has_flag d (ch "#") && negb (u =? 0)).
  - destruct Ea as (Hz & x & Ea).
    eapply Hfinish; [apply (text_renders d m a rest Hfl [u8 x] (ch "c") Hz)|..].
    + unfold std_dir. by rewrite Ea, decide_True, Hz.
    + by rewrite Ea.
  - destruct Ea as (Hz & p & Ea & Hnul).
    eapply Hfinish; [apply (text_renders d m a rest Hfl _ (ch "s") Hz)|..].
    + unfold std_dir. by rewrite Ea, Hz.
    + rewrite Ea. unfold convert. cbn [conv_char Z.eqb Pos.eqb orb va_string ap scanned res_bind].
      assert (string_text (scanned d m (Text p :: rest)) p
        = Ok (match d_prec d with Some q => take (Z.to_nat q) (cstr (default (str "(null)") p))
              | None => cstr (default (str "(null)") p) end)) as E.
      { unfold string_text. cbn [prec scanned].
        assert (∃ m', match p with Some m => m | None => str "(null)" ++ [0] end = m'
          ∧ cstr m' = cstr (default (str "(null)") p) ∧ (length (cstr m') < length m')%nat)
          as (m' & -> & <- & Hl).
        { destruct p as [m'|]; [exists m'|exists (str "(null)" ++ [0])]; split_and!; try done; auto. }
        destruct (d_prec d) as [q|]; simpl default.
        - rewrite (proj2 (Z.leb_le 0 q)) by auto. by rewrite until_nul_take.
        - change (0 <=? -1) with false. cbn iota. rewrite until_nul_take by done. by rewrite take_ge by lia. }
      unfold scanned in E |- *. by rewrite E.
Qed.

(** ** Whole formats *)

Definition texts (ps : list piece) : list Z := concat (map piece_text ps).
Definition args (ps : list piece) : list arg := concat (map piece_args ps).
Definition outs (ps : list piece) : list Z := concat (map piece_out ps).

Lemma outs_cons p ps : outs (p :: ps) = piece_out p ++ outs ps.
Proof. done. Qed.

(** The literal characters go to the next percent sign. *)
Lemma literals_pieces slen ps full :
  Forall piece_ok ps → Z.of_nat (length (full ++ outs ps)) <= INT_MAX →
  ∃ ps' full', literals slen (texts ps) (take slen full) (Z.of_nat (length full))
    = Ok (texts ps', take slen full', Z.of_nat (length full'))
  ∧ full' ++ outs ps' = full ++ outs ps ∧ args ps' = args ps
  ∧ Forall piece_ok ps' ∧ (length ps' <= length ps)%nat
  ∧ match ps' with Lit _ :: _ => False | _ => True end.
Proof.
  intros Hok. revert full. induction Hok as [|p ps Hp Hok IH]; intros full Hmax.
  { by exists [], full. }
  destruct p as [c| |d a].
  - destruct Hp as [Hc Hne]. rewrite outs_cons in Hmax |- *. cbn [piece_out] in Hmax |- *.
    rewrite app_assoc in Hmax.
    destruct (IH _ Hmax) as (ps' & full' & H1 & H2 & H3 & H4 & H5 & H6). exists ps', full'.
    split_and!; [|by rewrite H2, <- app_assoc|done|done|simpl; lia|done].
    change (texts (Lit c :: ps)) with (c :: texts ps). cbn [literals].
    destruct (Z.eqb_spec c (ch "%")); [done|].
    rewrite !length_app in Hmax. simpl in Hmax.
    rewrite int_ok_in by (unfold INT_MIN; lia). cbn [res_bind]. rewrite PUTCHAR_take.
    rewrite length_app in H1. simpl in H1. rewrite <- H1. f_equal. lia.
  - exists (Percent :: ps), full. split_and!; try done. by constructor.
  - exists (Dir d a :: ps), full. split_and!; try done. by constructor.
Qed.

Lemma texts_cons p ps : texts (p :: ps) = piece_text p ++ texts ps.
Proof. done. Qed.
Lemma args_cons p ps : args (p :: ps) = piece_args p ++ args ps.
Proof. done. Qed.

Lemma Dir_text d a : tail (piece_text (Dir d a)) = dir_text d.
Proof. done. Qed.
Lemma Dir_args d a l : piece_args (Dir d a) ++ l = a :: l.
Proof. done. Qed.

Lemma dir_fuel d l : (length (d_flags d) + 4 <= 4 + length (dir_text d ++ l))%nat.
Proof. unfold dir_text. rewrite !length_app. lia. Qed.

Lemma rflag_eq fuel m a :
  rflag fuel (mkScan m a 0 0 (-1) 0) = reswitch fuel (peek m) (mkScan (tail m) a 0 0 (-1) 0).
Proof. reflexivity. Qed.

Lemma reswitch_text d a m :
  Forall (λ c, is_flag c = true) (d_flags d) →
  (∀ w, d_width d = Some w → 0 < w <= INT_MAX) →
  (∀ p, d_prec d = Some p → 0 <= p <= INT_MAX) →
  reswitch (4 + length (dir_text d ++ m)) (peek (dir_text d ++ m))
    (mkScan (tail (dir_text d ++ m)) a 0 0 (-1) 0)
  = Ok (conv_char (d_conv d), scanned d m a).
Proof.
  intros Hfl Hw Hp. rewrite <- rflag_eq. exact (reswitch_directive d a m _ Hfl Hw Hp (dir_fuel d m)).
Qed.

(** One step of the loop at a percent sign. *)
Lemma format_loop_percent fuel slen m a sbuf ret c s f s' :
  reswitch (4 + length m) (peek m) (mkScan (tail m) a 0 0 (-1) 0) = Ok (c, s) →
  convert c s = Ok (Field f s') →
  format_loop (S fuel) slen (ch "%" :: m) a sbuf ret
  = let* (sbuf, ret) := put_field slen sbuf ret f s' in
    format_loop fuel slen (fmt s') (ap s') sbuf ret.
Proof.
  intros Hr Hc. cbn [format_loop literals]. change (ch "%" =? ch "%") with true. cbn iota. cbn [res_bind].
  cbv zeta. rewrite Hr. cbn [res_bind]. rewrite Hc. done.
Qed.

Lemma reswitch_percent fuel s : reswitch (S fuel) (ch "%") s = Ok (ch "%", s).
Proof. done. Qed.
Lemma convert_percent s :
  convert (ch "%") s = Ok (Field (mkField [ch "%"] 0 (ch "%")) (set_sign s 0)).
Proof. done. Qed.

Lemma format_loop_literals fuel slen m a sbuf ret m' sbuf' ret' :
  literals slen m sbuf ret = Ok (m', sbuf', ret') → literals slen m' sbuf' ret' = Ok (m', sbuf', ret') →
  format_loop (S fuel) slen m a sbuf ret = format_loop (S fuel) slen m' a sbuf' ret'.
Proof. intros H1 H2. cbn [format_loop]. by rewrite H1, H2. Qed.

Lemma literals_stop slen ps sbuf ret :
  match ps with Lit _ :: _ => False | _ => True end →
  literals slen (texts ps) sbuf ret = Ok (texts ps, sbuf, ret).
Proof. by destruct ps as [|[c| |d a] ps]. Qed.

Lemma format_loop_pieces fuel slen ps full :
  Forall piece_ok ps → Z.of_nat (length (full ++ outs ps)) <= INT_MAX → (length ps < fuel)%nat →
  format_loop fuel slen (texts ps) (args ps) (take slen full) (Z.of_nat (length full))
  = Ok (take slen (full ++ outs ps), Z.of_nat (length (full ++ outs ps))).
Proof.
  revert ps full. induction fuel as [|fuel IH]; intros ps full Hok Hmax Hfuel; [lia|].
  destruct (literals_pieces slen ps full Hok Hmax) as (ps' & full' & Hl & Hout & <- & Hok' & Hlen & Hhd).
  rewrite (format_loop_literals _ _ _ _ _ _ _ _ _ Hl) by by apply literals_stop.
  rewrite <- Hout in Hmax |- *. clear Hout Hok full Hl.
  destruct Hok' as [|p ps' Hp Hok']; [by rewrite app_nil_r|]. simpl in Hlen.
  rewrite outs_cons, app_assoc in Hmax |- *. rewrite texts_cons, args_cons.
  assert (Z.of_nat (length (full' ++ piece_out p)) <= INT_MAX) as Hmax1
    by (rewrite length_app in Hmax; lia).
  assert (∃ c s f s', reswitch (4 + length (tail (piece_text p) ++ texts ps'))
      (peek (tail (piece_text p) ++ texts ps'))
      (mkScan (tail (tail (piece_text p) ++ texts ps')) (piece_args p ++ args ps') 0 0 (-1) 0) = Ok (c, s)
    ∧ convert c s = Ok (Field f s') ∧ field_out f s' = piece_out p ∧ fmt s' = texts ps' ∧ ap s' = args ps')
    as (c & s & f & s' & Hr & Hc & Hf & Hm & Ha).
  { destruct p as [c| |d a]; [done|..].
    - eexists _, _, _, _. split; [apply reswitch_percent|]. split; [apply convert_percent|]. done.
    - destruct Hp as [Hd Hoz]. pose proof Hd as (Hfl & Hw & Hp & _).
      destruct (convert_directive d a (texts ps') (args ps') Hd Hoz) as (f & s & Hc & Hf & Hm & Ha).
      eexists _, _, f, s. split_and!; [|exact Hc|done..].
      rewrite Dir_text, Dir_args. by apply reswitch_text. }
  assert (piece_text p = ch "%" :: tail (piece_text p)) as -> by by destruct p.
  cbn [app]. rewrite (format_loop_percent _ _ _ _ _ _ _ _ _ _ Hr Hc). rewrite <- Hf in Hmax, Hmax1 |- *.
  rewrite (put_field_take slen full' f s' Hmax1). cbn [res_bind]. rewrite Hm, Ha.
  apply IH; [done|done|lia].
Qed.

Lemma texts_length ps : (length ps <= length (texts ps))%nat.
Proof.
  induction ps as [|p ps IH]; [done|]. change (texts (p :: ps)) with (piece_text p ++ texts ps).
  rewrite length_app. destruct p; simpl; lia.
Qed.

(** C21.  A format made of plain characters, [%%] and directives prints what the C standard
    says it prints (and [(null)] for a null string), for every buffer that is not empty: the
    buffer gets the first [slen - 1] characters and a NUL, and the result is the length of
    all of it, which is to be an int.  A directive has flags, a width and a precision
    written in decimal, one of the modifiers h l ll q j t z or none, and one of the
    conversions d i u o x X c s; with c and s it has no modifier and no flag 0, and a string
    ends in a NUL whatever the precision.  Widths and precisions given by [*], the modifiers hh and L,
    and the conversions D O U p n are left out, and so is [%#.0o] of 0, where the code
    prints nothing and the standard asks for a 0. *)
Theorem snprintf_ss_formats (ps : list piece) (slen : Z) :
  Forall piece_ok ps → 0 < slen <= INT_MAX → Z.of_nat (length (outs ps)) <= INT_MAX →
  snprintf_ss slen (texts ps) (args ps)
  = Ok (take (Z.to_nat slen - 1) (outs ps) ++ [0], Z.of_nat (length (outs ps))).
Proof.
  intros Hok Hslen Hmax. unfold snprintf_ss, vsnprintf_ss. destruct (Z.ltb_spec INT_MAX slen); [lia|].
  set (n := Z.to_nat slen).
  pose proof (format_loop_pieces (S (length (texts ps))) n ps [] Hok) as Hloop.
  rewrite take_nil, app_nil_l in Hloop. cbn [length] in Hloop. change (Z.of_nat 0) with 0 in Hloop.
  pose proof (texts_length ps). rewrite Hloop by (done || lia). cbn [res_bind].
  rewrite length_take. destruct (Nat.eqb_spec (Nat.min n (length (outs ps))) n) as [E|E].
  - destruct (Z.eqb_spec slen 0); [lia|]. rewrite E, take_take. do 4 f_equal. lia.
  - by rewrite !take_ge by lia.
Qed.

Example snprintf_ss_formats_witness :
  snprintf_ss 12 (str "%5d|%#x%%|%s") [Num T_int (-42); Num T_int 255; Text (Some (str "ab" ++ [0]))]
  = Ok (str "  -42|0xff%" ++ [0], 14).
Proof.
  apply (snprintf_ss_formats
    [Dir (mkDir [] (Some 5) None L_none C_d) (Num T_int (-42)); Lit (ch "|");
     Dir (mkDir [ch "#"] None None L_none C_x) (Num T_int 255); Percent; Lit (ch "|");
     Dir (mkDir [] None None L_none C_s) (Text (Some (str "ab" ++ [0])))] 12).
  - repeat apply Forall_cons_2; try apply Forall_nil_2; try done; unfold piece_ok, dir_ok; cbn [d_flags d_width d_prec d_len d_conv].
    + split; [split_and!; [cbn [d_flags]; by repeat constructor|by intros ? [= <-]|done|by eauto]|by intros (? & _)].
    + split; [split_and!; [cbn [d_flags]; by repeat constructor|done|done|by eauto]|by intros (? & _)].
    + split; [split_and!; [cbn [d_flags]; by repeat constructor|done|done|done|done|]|by intros (? & _)].
      exists (Some (str "ab" ++ [0])). split; [done|]. intros m [= <-]. cbn. lia.
  - by vm_compute.
  - by vm_compute.
Defined.

Lemma put_all_empty l : put_all 0 [] l = [].
Proof. unfold put_all. by induction l. Qed.

Lemma literals_empty m ret m' sbuf' ret' : literals 0 m [] ret = Ok (m', sbuf', ret') → sbuf' = [].
Proof.
  revert ret. induction m as [|c m IH]; intros ret; cbn [literals]; [by intros [= _ <- _]|].
  destruct (c =? ch "%"); [by intros [= _ <- _]|].
  destruct (int_ok (ret + 1)); [|done..]. apply IH.
Qed.

Lemma put_field_empty ret f s sbuf' ret' : put_field 0 [] ret f s = Ok (sbuf', ret') → sbuf' = [].
Proof.
  unfold put_field. destruct (int_ok _) as [r|?|]; [|done..]. cbn [res_bind].
  destruct (int_ok _) as [r'|?|]; [|done..]. cbn [res_bind]. intros [= <- _]. unfold put_pad.
  assert (∀ c, PUTCHAR 0 [] c = []) as HP by done.
  repeat match goal with |- context [if ?b then _ else _] => destruct b end;
    repeat (rewrite put_all_empty || rewrite HP); done.
Qed.

(** With an empty buffer the final NUL is stored before it: the length of the output cannot
    be asked for. *)
Lemma vsnprintf_ss_empty_buffer m a r : vsnprintf_ss 0 m a ≠ Ok r.
Proof.
  unfold vsnprintf_ss. change (INT_MAX <? 0) with false. cbn iota.
  assert (∀ fuel m a ret sbuf' ret',
    format_loop fuel 0 m a [] ret = Ok (sbuf', ret') → sbuf' = []) as H.
  2: { destruct (format_loop _ _ _ _ _ _) as [[sbuf ret]|?|] eqn:E; [|done|done].
       apply H in E. by subst. }
  clear. induction fuel as [|fuel IH]; intros m a ret sbuf' ret' H; [done|]. cbn [format_loop] in H.
  destruct (literals 0 m [] ret) as [[[m1 sbuf1] ret1]|?|] eqn:El; [|done|done]. cbn [res_bind] in H.
  apply literals_empty in El. subst sbuf1. destruct m1 as [|x m1]; [by injection H|]. cbv zeta in H.
  destruct (reswitch _ _ _) as [[c s]|?|]; [|done|done]. cbn [res_bind] in H.
  destruct (convert c s) as [[f s'|s'|]|?|]; try done; cbn [res_bind] in H; [|by eapply IH|by injection H].
  destruct (put_field 0 [] ret1 f s') as [[sbuf2 ret2]|?|] eqn:Ep; [|done|done]. cbn [res_bind] in H.
  apply put_field_empty in Ep. subst sbuf2. by eapply IH.
Qed.

(** With a precision of 0 and the flag #, the octal zero should be printed as 0. *)
Lemma octal_zero_prints_nothing :
  vsnprintf_ss 10 (str "%#.0o") [Num T_int 0] = Ok ([0], 0).
Proof. reflexivity. Qed.

(** The length modifier hh is taken as h. *)
Lemma hh_is_short : vsnprintf_ss 10 (str "%hhd") [Num T_int 300] = Ok (str "300" ++ [0], 3).
Proof. reflexivity. Qed.
