(* ===== verification/Find.v ===== *)
(** * find: the expression compiler

    usr.bin/find: option.c (the table of primaries and operators), the creation
    functions of function.c, find_formplan of find.c and the rewriting passes of
    operator.c, and the evaluation of the resulting plan.  A word of the command line is
    the list of its characters, an argument vector the list of the words left.  What the
    primaries do when they are evaluated, and whether they accept their arguments, are
    parameters; [err(1, ...)] is [Err 1]. *)

From S2P Require Import Prelude Libc.

(** ** Plans (find.h) *)

Notation word := (list Z).

Inductive ntype :=
  | N_AND | N_AMIN | N_ANEWER | N_ASINCE | N_ATIME | N_CLOSEPAREN | N_CMIN | N_CNEWER
  | N_CSINCE | N_CTIME | N_DEPTH | N_EMPTY | N_EXEC | N_EXECDIR | N_EXIT | N_EXPR | N_FALSE
  | N_FLAGS | N_FOLLOW | N_FPRINT | N_FSTYPE | N_GROUP | N_INAME | N_INUM | N_IREGEX | N_LINKS
  | N_LS | N_MINDEPTH | N_MAXDEPTH | N_MMIN | N_MTIME | N_NAME | N_NEWER | N_NOGROUP | N_NOT
  | N_NOUSER | N_OK | N_OPENPAREN | N_OR | N_PATH | N_PERM | N_PRINT | N_PRINT0 | N_PRINTX
  | N_PRUNE | N_REGEX | N_SINCE | N_SIZE | N_TYPE | N_USER | N_XDEV | N_DELETE.

#[global] Instance ntype_eq_dec : EqDecision ntype.
Proof. solve_decision. Defined.

(** The function stored in [eval]: that of the primary written [opt], one of the functions
    on plans, or the invalid pointer of the parentheses. *)
Inductive eval_fn :=
  | f_primary (opt : word)
  | f_always_true | f_false | f_expr | f_not | f_or | no_eval.

#[global] Instance eval_fn_eq_dec : EqDecision eval_fn.
Proof. solve_decision. Defined.

Definition F_NEEDOK : Z := 1.
Definition F_PLUSSET : Z := 2.

(** A plan is the list of its nodes in [next] order.  [args] are the words the primary
    took, the source of the other fields of the union. *)
Inductive PLAN := mkPlan (type : ntype) (eval : eval_fn) (flags : Z) (args : list word)
                         (exit_val : Z) (p_data0 p_data1 : list PLAN).

Definition type (p : PLAN) : ntype := let 'mkPlan t _ _ _ _ _ _ := p in t.
Definition eval (p : PLAN) : eval_fn := let 'mkPlan _ e _ _ _ _ _ := p in e.
Definition args (p : PLAN) : list word := let 'mkPlan _ _ _ a _ _ _ := p in a.
Definition exit_val (p : PLAN) : Z := let 'mkPlan _ _ _ _ v _ _ := p in v.
Definition p_data0 (p : PLAN) : list PLAN := let 'mkPlan _ _ _ _ _ l _ := p in l.
Definition p_data1 (p : PLAN) : list PLAN := let 'mkPlan _ _ _ _ _ _ l := p in l.

Definition set_data0 (p : PLAN) (l : list PLAN) : PLAN :=
  let 'mkPlan t e f a v _ l1 := p in mkPlan t e f a v l l1.
Definition set_data1 (p : PLAN) (l : list PLAN) : PLAN :=
  let 'mkPlan t e f a v l0 _ := p in mkPlan t e f a v l0 l.

Definition palloc (t : ntype) (f : eval_fn) : PLAN := mkPlan t f 0 [] 0 [] [].

(** ** Creation functions (function.c) *)

Record globals := mkGlobals { isoutput : bool; isdepth : bool }.

Section creation.

(** [c_check opt args]: the creation function of [opt] accepts its arguments. *)
Context (c_check : word → list word → bool).

(** [p->create(&argv, isok, opt)]: the node, the words left and the globals. *)
Definition creator : Type :=
  globals → bool → word → list word → res (option PLAN * list word * globals).

(** The primaries with one argument. *)
Definition c_word (t : ntype) : creator := λ g _ opt argv,
  match argv with
  | [] => Fault
  | w :: argv => if c_check opt [w] then Ok (Some (mkPlan t (f_primary opt) 0 [w] 0 [] []), argv, g)
                 else Err 1
  end.
(** Those with none, and those of them that count as output. *)
Definition c_plain (t : ntype) : creator := λ g _ opt argv,
  Ok (Some (palloc t (f_primary opt)), argv, g).
Definition c_output (t : ntype) : creator := λ g _ opt argv,
  Ok (Some (palloc t (f_primary opt)), argv, mkGlobals true (isdepth g)).
Definition c_true (t : ntype) : creator := λ g _ opt argv, Ok (Some (palloc t f_always_true), argv, g).

Definition c_amin : creator := c_word N_AMIN.
Definition c_anewer : creator := c_word N_ANEWER.
Definition c_asince : creator := c_word N_ASINCE.
Definition c_atime : creator := c_word N_ATIME.
Definition c_cmin : creator := c_word N_CMIN.
Definition c_cnewer : creator := c_word N_CNEWER.
Definition c_csince : creator := c_word N_CSINCE.
Definition c_ctime : creator := c_word N_CTIME.
Definition c_flags : creator := c_word N_FLAGS.
Definition c_fstype : creator := c_word N_FSTYPE.
Definition c_group : creator := c_word N_GROUP.
Definition c_iname : creator := c_word N_INAME.
Definition c_inum : creator := c_word N_INUM.
Definition c_iregex : creator := c_word N_IREGEX.
Definition c_links : creator := c_word N_LINKS.
Definition c_maxdepth : creator := c_word N_MAXDEPTH.
Definition c_mindepth : creator := c_word N_MINDEPTH.
Definition c_mmin : creator := c_word N_MMIN.
Definition c_mtime : creator := c_word N_MTIME.
Definition c_name : creator := c_word N_NAME.
Definition c_newer : creator := c_word N_NEWER.
Definition c_path : creator := c_word N_NAME.
Definition c_perm : creator := c_word N_PERM.
Definition c_regex : creator := c_word N_REGEX.
Definition c_since : creator := c_word N_SINCE.
Definition c_size : creator := c_word N_SIZE.
Definition c_type : creator := c_word N_TYPE.
Definition c_user : creator := c_word N_USER.
Definition c_empty : creator := c_plain N_EMPTY.
Definition c_false : creator := λ g _ _ argv, Ok (Some (palloc N_FALSE f_false), argv, g).
Definition c_follow : creator := c_true N_FOLLOW.
Definition c_nogroup : creator := c_plain N_NOGROUP.
Definition c_nouser : creator := c_plain N_NOUSER.
Definition c_prune : creator := c_plain N_PRUNE.
Definition c_xdev : creator := c_true N_XDEV.
Definition c_ls : creator := c_output N_LS.
Definition c_print : creator := c_output N_PRINT.
Definition c_print0 : creator := c_output N_PRINT0.
Definition c_printx : creator := c_output N_PRINTX.

Definition c_depth : creator := λ g _ _ argv,
  Ok (Some (palloc N_DEPTH f_always_true), argv, mkGlobals (isoutput g) true).
Definition c_delete : creator := λ g _ opt argv,
  Ok (Some (palloc N_DELETE (f_primary opt)), argv, mkGlobals true true).
Definition c_fprint : creator := λ g isok opt argv,
  c_word N_FPRINT (mkGlobals true (isdepth g)) isok opt argv.

(** The words up to a [;], or a [+] that follows [{}]. *)
Fixpoint exec_words (ap : list word) (lastbrace : bool) : res (list word * bool * list word) :=
  match ap with
  | [] => Err 1
  | w :: ap =>
      if decide (w = str ";") then Ok ([], false, ap)
      else if decide (w = str "+") then
        if lastbrace then Ok ([], true, ap)
        else let* (a, plus, ap) := exec_words ap false in Ok (w :: a, plus, ap)
      else let* (a, plus, ap) := exec_words ap (bool_decide (w = str "{}")) in Ok (w :: a, plus, ap)
  end.
Definition c_exec : creator := λ g isok opt argv,
  let* (a, plus, argv) := exec_words argv false in
  if isok && plus then Err 1
  else if c_check opt a then
    Ok (Some (mkPlan N_EXEC (f_primary opt)
          ((if isok then F_NEEDOK else 0) .| (if plus then F_PLUSSET else 0)) a 0 [] []),
        argv, mkGlobals true (isdepth g))
  else Err 1.

(** The words up to one that starts with a [;]. *)
Fixpoint execdir_words (ap : list word) : res (list word * list word) :=
  match ap with
  | [] => Err 1
  | w :: ap => if peek w =? ch ";" then Ok ([], ap)
               else let* (a, ap) := execdir_words ap in Ok (w :: a, ap)
  end.
Definition c_execdir : creator := λ g _ opt argv,
  let* (a, argv) := execdir_words argv in
  Ok (Some (mkPlan N_EXECDIR (f_primary opt) 0 a 0 [] []), argv, mkGlobals true (isdepth g)).

(** [find_parsenum] without an end character; the comparison it stores is not used here. *)
Definition find_parsenum (vp : word) : res Z :=
  let s := if (peek vp =? ch "+") || (peek vp =? ch "-") then tail vp else vp in
  let '(value, endchar, _) := strtoimax s 10 in
  if (value =? 0) && (length endchar =? length s)%nat then Err 1
  else if negb (peek endchar =? 0) then Err 1 else Ok value.
Definition c_exit : creator := λ g _ opt argv,
  let g := mkGlobals true (isdepth g) in
  match argv with
  | [] => Ok (Some (mkPlan N_EXIT f_always_true 0 [] 0 [] []), [], g)
  | w :: argv => let* v := find_parsenum w in
                 Ok (Some (mkPlan N_EXIT f_always_true 0 [w] (s32 v) [] []), argv, g)
  end.

Definition c_openparen : creator := λ g _ _ argv, Ok (Some (palloc N_OPENPAREN no_eval), argv, g).
Definition c_closeparen : creator := λ g _ _ argv, Ok (Some (palloc N_CLOSEPAREN no_eval), argv, g).
Definition c_not : creator := λ g _ _ argv, Ok (Some (palloc N_NOT f_not), argv, g).
Definition c_or : creator := λ g _ _ argv, Ok (Some (palloc N_OR f_or), argv, g).
Definition c_null : creator := λ g _ _ argv, Ok (None, argv, g).

(** ** The table (option.c) *)

Record OPTION := mkOption { name : word; token : ntype; create : creator; arg : bool }.

Definition options : list OPTION := [
  mkOption (str "!") N_NOT c_not false;
  mkOption (str "(") N_OPENPAREN c_openparen false;
  mkOption (str ")") N_CLOSEPAREN c_closeparen false;
  mkOption (str "-a") N_AND c_null false;
  mkOption (str "-amin") N_AMIN c_amin true;
  mkOption (str "-and") N_AND c_null false;
  mkOption (str "-anewer") N_ANEWER c_anewer true;
  mkOption (str "-asince") N_ASINCE c_asince true;
  mkOption (str "-atime") N_ATIME c_atime true;
  mkOption (str "-cmin") N_CMIN c_cmin true;
  mkOption (str "-cnewer") N_CNEWER c_cnewer true;
  mkOption (str "-csince") N_CSINCE c_csince true;
  mkOption (str "-ctime") N_CTIME c_ctime true;
  mkOption (str "-delete") N_DELETE c_delete false;
  mkOption (str "-depth") N_DEPTH c_depth false;
  mkOption (str "-empty") N_EMPTY c_empty false;
  mkOption (str "-exec") N_EXEC c_exec true;
  mkOption (str "-execdir") N_EXECDIR c_execdir true;
  mkOption (str "-exit") N_EXIT c_exit false;
  mkOption (str "-false") N_FALSE c_false false;
  mkOption (str "-flags") N_FLAGS c_flags true;
  mkOption (str "-follow") N_FOLLOW c_follow false;
  mkOption (str "-fprint") N_FPRINT c_fprint true;
  mkOption (str "-fstype") N_FSTYPE c_fstype true;
  mkOption (str "-group") N_GROUP c_group true;
  mkOption (str "-iname") N_INAME c_iname true;
  mkOption (str "-inum") N_INUM c_inum true;
  mkOption (str "-iregex") N_IREGEX c_iregex true;
  mkOption (str "-links") N_LINKS c_links true;
  mkOption (str "-ls") N_LS c_ls false;
  mkOption (str "-maxdepth") N_MAXDEPTH c_maxdepth true;
  mkOption (str "-mindepth") N_MINDEPTH c_mindepth true;
  mkOption (str "-mmin") N_MMIN c_mmin true;
  mkOption (str "-mtime") N_MTIME c_mtime true;
  mkOption (str "-name") N_NAME c_name true;
  mkOption (str "-newer") N_NEWER c_newer true;
  mkOption (str "-neweraa") N_ANEWER c_anewer true;
  mkOption (str "-newerat") N_ASINCE c_asince true;
  mkOption (str "-newercc") N_CNEWER c_cnewer true;
  mkOption (str "-newerct") N_CSINCE c_csince true;
  mkOption (str "-newermm") N_NEWER c_newer true;
  mkOption (str "-newermt") N_SINCE c_since true;
  mkOption (str "-nogroup") N_NOGROUP c_nogroup false;
  mkOption (str "-not") N_NOT c_not false;
  mkOption (str "-nouser") N_NOUSER c_nouser false;
  mkOption (str "-o") N_OR c_or false;
  mkOption (str "-ok") N_OK c_exec true;
  mkOption (str "-or") N_OR c_or false;
  mkOption (str "-path") N_PATH c_path true;
  mkOption (str "-perm") N_PERM c_perm true;
  mkOption (str "-print") N_PRINT c_print false;
  mkOption (str "-print0") N_PRINT0 c_print0 false;
  mkOption (str "-printx") N_PRINTX c_printx false;
  mkOption (str "-prune") N_PRUNE c_prune false;
  mkOption (str "-regex") N_REGEX c_regex true;
  mkOption (str "-rm") N_DELETE c_delete false;
  mkOption (str "-since") N_SINCE c_since true;
  mkOption (str "-size") N_SIZE c_size true;
  mkOption (str "-type") N_TYPE c_type true;
  mkOption (str "-user") N_USER c_user true;
  mkOption (str "-xdev") N_XDEV c_xdev false].

(** [option]: the names of the table are different, so the binary search finds the one. *)
Definition find_option (opt : word) : option OPTION :=
  find (λ o, bool_decide (name o = opt)) options.

Definition find_create (g : globals) (argv : list word) : res (option PLAN * list word * globals) :=
  match argv with
  | [] => Fault
  | opt :: argv =>
      match find_option opt with
      | None => Err 1
      | Some p =>
          if arg p && bool_decide (argv = []) then Err 1
          else create p g (bool_decide (token p = N_OK)) opt argv
      end
  end.

(** The first loop of [find_formplan]; every turn takes a word. *)
Fixpoint create_loop (fuel : nat) (g : globals) (argv : list word) : res (list PLAN * globals) :=
  match fuel with
  | O => Fault
  | S fuel =>
      match argv with
      | [] => Ok ([], g)
      | _ =>
          let* (new, argv, g) := find_create g argv in
          let* (plan, g) := create_loop fuel g argv in
          Ok (match new with Some p => p :: plan | None => plan end, g)
      end
  end.

End creation.

(** ** The passes of operator.c *)

(** [yankexpr]: the first expression of the plan, and the rest; [sub_loop] is its loop. *)
Fixpoint yankexpr (fuel : nat) (plan : list PLAN) : res (option (PLAN * list PLAN)) :=
  match fuel with
  | O => Fault
  | S fuel =>
      match plan with
      | [] => Ok None
      | node :: plan =>
          if decide (type node = N_OPENPAREN) then
            let* (subplan, plan) := sub_loop fuel plan [] in
            let 'mkPlan _ _ f a v _ l1 := node in
            Ok (Some (mkPlan N_EXPR f_expr f a v subplan l1, plan))
          else Ok (Some (node, plan))
      end
  end
with sub_loop (fuel : nat) (plan subplan : list PLAN) : res (list PLAN * list PLAN) :=
  match fuel with
  | O => Fault
  | S fuel =>
      let* r := yankexpr fuel plan in
      match r with
      | None => Err 1
      | Some (next, plan) =>
          if decide (type next = N_CLOSEPAREN) then
            match subplan with [] => Err 1 | _ => Ok (subplan, plan) end
          else sub_loop fuel plan (subplan ++ [next])
      end
  end.

Fixpoint squish_loop (fuel : nat) (plan result : list PLAN) : res (list PLAN) :=
  match fuel with
  | O => Fault
  | S fuel =>
      let* r := yankexpr fuel plan in
      match r with
      | None => Ok result
      | Some (expr, plan) =>
          if decide (type expr = N_CLOSEPAREN) then Err 1
          else squish_loop fuel plan (result ++ [expr])
      end
  end.
Definition paren_squish (plan : list PLAN) : res (list PLAN) :=
  squish_loop (2 * length plan + 2) plan [].

(** The nots at the head of the plan, and the rest. *)
Fixpoint count_nots (plan : list PLAN) : nat * list PLAN :=
  match plan with
  | node :: rest => if decide (type node = N_NOT) then let '(n, rest) := count_nots rest in (S n, rest)
                    else (0%nat, plan)
  | [] => (0%nat, [])
  end.

(** The result is built in order: [let*] after the node is the rest of the loop. *)
Fixpoint not_squish (fuel : nat) (plan : list PLAN) : res (list PLAN) :=
  match fuel with
  | O => Fault
  | S fuel =>
      match plan with
      | [] => Ok []
      | next :: plan =>
          let* next := if decide (type next = N_EXPR)
                       then let* l := not_squish fuel (p_data0 next) in Ok (set_data0 next l)
                       else Ok next in
          if decide (type next = N_NOT) then
            let '(n, plan) := count_nots plan in
            match plan with
            | [] => Err 1
            | node :: plan =>
                if decide (type node = N_OR) then Err 1
                else
                  let* nodes := if decide (type node = N_EXPR) then not_squish fuel [node]
                                else Ok [node] in
                  let next := if Nat.even n then [set_data0 next nodes] else nodes in
                  let* result := not_squish fuel plan in
                  Ok (next ++ result)
            end
          else
            let* result := not_squish fuel plan in
            Ok (next :: result)
      end
  end.

Fixpoint or_squish (fuel : nat) (plan result : list PLAN) : res (list PLAN) :=
  match fuel with
  | O => Fault
  | S fuel =>
      match plan with
      | [] => Ok result
      | next :: plan =>
          let* next := if bool_decide (type next = N_EXPR) || bool_decide (type next = N_NOT)
                       then let* l := or_squish fuel (p_data0 next) [] in Ok (set_data0 next l)
                       else Ok next in
          if decide (type next = N_OR) then
            match result with
            | [] => Err 1
            | _ =>
                let* l := or_squish fuel plan [] in
                match l with
                | [] => Err 1
                | _ => Ok [set_data1 (set_data0 next result) l]
                end
            end
          else or_squish fuel plan (result ++ [next])
      end
  end.

(** The number of nodes, a bound on the recursion of the passes. *)
Fixpoint plan_size (p : PLAN) : nat :=
  let 'mkPlan _ _ _ _ _ l0 l1 := p in
  S (list_sum (plan_size <$> l0) + list_sum (plan_size <$> l1)).
Definition size (l : list PLAN) : nat := list_sum (plan_size <$> l).

Definition squish (plan : list PLAN) : res (list PLAN) :=
  let* plan := paren_squish plan in
  let* plan := not_squish (S (2 * size plan)) plan in
  or_squish (S (2 * size plan)) plan [].

(** [find_formplan] (find.c). *)
Definition find_formplan (c_check : word → list word → bool) (argv : list word) : res (list PLAN) :=
  let* (plan, g) := create_loop c_check (S (length argv)) (mkGlobals false false) argv in
  squish (if isoutput g then plan
          else match plan with
               | [] => [palloc N_PRINT (f_primary (str "-print"))]
               | _ => palloc N_OPENPAREN no_eval :: plan ++
                      [palloc N_CLOSEPAREN no_eval; palloc N_PRINT (f_primary (str "-print"))]
               end).

(** ** Evaluation

    [W] is everything the primaries read and change: the entry, the files, the output. *)
Section evaluation.

Context {W : Type} (primary : word → list word → W → bool * W).

(** The loop of [f_expr], [f_not] and [f_or] over a subplan, from [state]. *)
Definition list_eval (eval_node : PLAN → W → res (bool * W)) : list PLAN → bool → W → res (bool * W) :=
  fix go l state w :=
    match l with
    | [] => Ok (state, w)
    | p :: l => let* (state, w) := eval_node p w in
                if state : bool then go l state w else Ok (state, w)
    end.

Fixpoint eval_node (p : PLAN) (w : W) : res (bool * W) :=
  let 'mkPlan _ f _ a _ l0 l1 := p in
  match f with
  | f_primary opt => Ok (primary opt a w)
  | f_always_true => Ok (true, w)
  | f_false => Ok (false, w)
  | f_expr => list_eval eval_node l0 false w
  | f_not => let* (state, w) := list_eval eval_node l0 false w in Ok (negb state, w)
  | f_or => let* (state, w) := list_eval eval_node l0 false w in
            if state then Ok (true, w) else list_eval eval_node l1 state w
  | no_eval => Fault
  end.

(** The loop of [find_execute] for one entry: the last [-exit] passed, if any. *)
Fixpoint visit (plan : list PLAN) (w : W) (rval : option Z) : res (option Z * W) :=
  match plan with
  | [] => Ok (rval, w)
  | p :: plan =>
      let* (state, w) := eval_node p w in
      if state : bool then
        visit plan w (if decide (type p = N_EXIT) then Some (exit_val p) else rval)
      else Ok (rval, w)
  end.

End evaluation.

(** [find_traverse]: the nodes it calls its function on, in order. *)
Fixpoint find_traverse (fuel : nat) (plan : list PLAN) : list PLAN :=
  match fuel, plan with
  | S fuel, p :: plan =>
      p :: (if bool_decide (type p = N_EXPR) || bool_decide (type p = N_OR)
            then find_traverse fuel (p_data0 p) ++ find_traverse fuel (p_data1 p) else [])
        ++ find_traverse fuel plan
  | _, _ => []
  end.
