(* ===== verification/FindSpec.v ===== *)
(** * find: what an expression means

    Expressions as find(1) describes them, and the theorems that [find_formplan] accepts
    them, that the plan it makes evaluates them from left to right with short
    circuits, and what else it accepts: an [-a] out of place, and parentheses that match
    only with those put around the whole. *)

From S2P Require Import Prelude Libc Find.

(** ** Expressions

    A primary: the words it is written with, the node that [find_create] makes of them,
    and whether it counts as output; a conjunction, with or without its [-a]. *)
Inductive expr :=
  | Prim (ws : list word) (p : PLAN) (out : bool)
  | Paren (e : expr)
  | Not (e : expr)
  | And (explicit : bool) (e1 e2 : expr)
  | Or (e1 e2 : expr).

Definition is_prim (p : PLAN) : bool :=
  match type p with
  | N_OPENPAREN | N_CLOSEPAREN | N_NOT | N_OR | N_EXPR => false
  | _ => true
  end.

(** Precedence: level 0 is a primary or parentheses, 1 a negation, 2 a conjunction, 3 a
    disjunction. *)
Fixpoint wf (n : nat) (e : expr) : Prop :=
  match e with
  | Prim _ p _ => is_prim p = true
  | Paren e => wf 3 e
  | Not e => (1 <= n)%nat ∧ wf 1 e
  | And _ e1 e2 => (2 <= n)%nat ∧ wf 1 e1 ∧ wf 2 e2
  | Or e1 e2 => (3 <= n)%nat ∧ wf 2 e1 ∧ wf 3 e2
  end.

Fixpoint words (e : expr) : list word :=
  match e with
  | Prim ws _ _ => ws
  | Paren e => str "(" :: words e ++ [str ")"]
  | Not e => str "!" :: words e
  | And explicit e1 e2 => words e1 ++ (if explicit then [str "-a"] else []) ++ words e2
  | Or e1 e2 => words e1 ++ str "-o" :: words e2
  end.

Fixpoint outputs (e : expr) : bool :=
  match e with
  | Prim _ _ out => out
  | Paren e | Not e => outputs e
  | And _ e1 e2 | Or e1 e2 => outputs e1 || outputs e2
  end.

Definition openparen : PLAN := palloc N_OPENPAREN no_eval.
Definition closeparen : PLAN := palloc N_CLOSEPAREN no_eval.
Definition not_node (l : list PLAN) : PLAN := mkPlan N_NOT f_not 0 [] 0 l [].
Definition or_node (l0 l1 : list PLAN) : PLAN := mkPlan N_OR f_or 0 [] 0 l0 l1.
Definition expr_node (l : list PLAN) : PLAN := mkPlan N_EXPR f_expr 0 [] 0 l [].

(** The nodes of the first loop of [find_formplan]. *)
Fixpoint tokens (e : expr) : list PLAN :=
  match e with
  | Prim _ p _ => [p]
  | Paren e => openparen :: tokens e ++ [closeparen]
  | Not e => not_node [] :: tokens e
  | And _ e1 e2 => tokens e1 ++ tokens e2
  | Or e1 e2 => tokens e1 ++ or_node [] [] :: tokens e2
  end.

(** The meaning: evaluation from left to right; a conjunction stops at what is false, a
    disjunction at what is true.  A primary on its own is evaluated by its function. *)
Section meaning.
Context {W : Type} (primary : word → list word → W → bool * W).

Definition prim_meaning (p : PLAN) (w : W) : bool * W :=
  match eval p with
  | f_primary opt => primary opt (args p) w
  | f_false => (false, w)
  | _ => (true, w)
  end.
Fixpoint meaning (e : expr) (w : W) : bool * W :=
  match e with
  | Prim _ p _ => prim_meaning p w
  | Paren e => meaning e w
  | Not e => let '(b, w) := meaning e w in (negb b, w)
  | And _ e1 e2 => let '(b, w) := meaning e1 w in if b : bool then meaning e2 w else (false, w)
  | Or e1 e2 => let '(b, w) := meaning e1 w in if b : bool then (true, w) else meaning e2 w
  end.
End meaning.

(** The nodes primaries have: their own function or a constant. *)
Definition prim_eval (p : PLAN) : bool :=
  match eval p with f_primary _ | f_always_true | f_false => true | _ => false end.
Fixpoint prims (P : list word → PLAN → bool → Prop) (e : expr) : Prop :=
  match e with
  | Prim ws p out => P ws p out
  | Paren e | Not e => prims P e
  | And _ e1 e2 | Or e1 e2 => prims P e1 ∧ prims P e2
  end.

(** ** The passes on the nodes of an expression *)

(** After [paren_squish]. *)
Fixpoint squished (e : expr) : list PLAN :=
  match e with
  | Prim _ p _ => [p]
  | Paren e => [expr_node (squished e)]
  | Not e => not_node [] :: squished e
  | And _ e1 e2 => squished e1 ++ squished e2
  | Or e1 e2 => squished e1 ++ or_node [] [] :: squished e2
  end.

Lemma squished_nonempty e : squished e ≠ [].
Proof. induction e; simpl; try done; by destruct (squished e1). Qed.

Lemma wf_mono n m e : (n <= m)%nat → wf n e → wf m e.
Proof. destruct e; simpl; intuition lia. Qed.


Section collect.
Context {A : Type} (L : nat → list PLAN → list PLAN → res A).
Context (HL : ∀ fuel plan acc x rest,
  yankexpr fuel plan = Ok (Some (x, rest)) → type x ≠ N_CLOSEPAREN →
  L (S fuel) plan acc = L fuel rest (acc ++ [x])).

Lemma collect_one fuel p rest acc :
  type p ≠ N_OPENPAREN → type p ≠ N_CLOSEPAREN → (2 * length (p :: rest) + 1 < fuel)%nat →
  ∃ fuel', (2 * length rest + 1 < fuel')%nat ∧ L fuel (p :: rest) acc = L fuel' rest (acc ++ [p]).
Proof.
  intros Ho Hc Hf. destruct fuel as [|[|fuel]]; [lia|lia|]. exists (S fuel). simpl in Hf. split; [lia|].
  apply HL; [|done]. cbn [yankexpr]. by rewrite decide_False.
Qed.
End collect.

Lemma sub_loop_step fuel plan acc x rest :
  yankexpr fuel plan = Ok (Some (x, rest)) → type x ≠ N_CLOSEPAREN →
  sub_loop (S fuel) plan acc = sub_loop fuel rest (acc ++ [x]).
Proof. intros H Hx. cbn [sub_loop]. rewrite H. cbn [res_bind]. by rewrite decide_False. Qed.

Lemma squish_loop_step fuel plan acc x rest :
  yankexpr fuel plan = Ok (Some (x, rest)) → type x ≠ N_CLOSEPAREN →
  squish_loop (S fuel) plan acc = squish_loop fuel rest (acc ++ [x]).
Proof. intros H Hx. cbn [squish_loop]. rewrite H. cbn [res_bind]. by rewrite decide_False. Qed.

Lemma is_prim_type p : is_prim p = true →
  type p ≠ N_OPENPAREN ∧ type p ≠ N_CLOSEPAREN ∧ type p ≠ N_NOT ∧ type p ≠ N_OR ∧ type p ≠ N_EXPR.
Proof. unfold is_prim. by destruct (type p). Qed.

(** The loops collect the nodes of an expression. *)
Lemma collect_expr e : ∀ {A} (L : nat → list PLAN → list PLAN → res A),
  (∀ fuel plan acc x rest,
     yankexpr fuel plan = Ok (Some (x, rest)) → type x ≠ N_CLOSEPAREN →
     L (S fuel) plan acc = L fuel rest (acc ++ [x])) →
  ∀ n fuel rest acc, wf n e → (2 * length (tokens e ++ rest) + 1 < fuel)%nat →
  ∃ fuel', (2 * length rest + 1 < fuel')%nat
    ∧ L fuel (tokens e ++ rest) acc = L fuel' rest (acc ++ squished e).
Proof.
  induction e as [ws p out|e IH|e IH|ex e1 IH1 e2 IH2|e1 IH1 e2 IH2];
    intros A L HL n fuel rest acc Hwf Hf; cbn [tokens squished wf] in *.
  - apply is_prim_type in Hwf as (? & ? & _). by apply collect_one.
  - cbn [app] in *. rewrite <- app_assoc in *. cbn [app length] in *.
    destruct fuel as [|[|fuel]]; [lia|lia|].
    destruct (IH _ sub_loop sub_loop_step 3%nat fuel (closeparen :: rest) [] Hwf ltac:(lia))
      as (f' & Hf' & Hsub).
    exists (S fuel). split; [rewrite length_app in Hf; simpl in Hf; lia|]. apply HL; [|done].
    cbn [yankexpr]. change (type openparen) with N_OPENPAREN. rewrite decide_True by done.
    rewrite Hsub. cbn [app]. simpl in Hf'. destruct f' as [|[|f']]; [lia|lia|].
    cbn [sub_loop yankexpr]. change (type closeparen) with N_CLOSEPAREN.
    rewrite decide_False by done. cbn [res_bind]. change (type closeparen) with N_CLOSEPAREN.
    rewrite decide_True by done. pose proof (squished_nonempty e) as Hne.
    destruct (squished e) eqn:E; [done|]. rewrite <- E. done.
  - cbn [app] in *. destruct Hwf as [_ Hwf].
    destruct (collect_one L HL fuel (not_node []) (tokens e ++ rest) acc) as (f1 & Hf1 & ->); try done.
    destruct (IH _ L HL 1%nat f1 rest (acc ++ [not_node []]) Hwf Hf1) as (f2 & Hf2 & ->).
    exists f2. by rewrite <- app_assoc.
  - destruct Hwf as (_ & Hwf1 & Hwf2). rewrite <- app_assoc in *.
    destruct (IH1 _ L HL 1%nat fuel (tokens e2 ++ rest) acc Hwf1 Hf) as (f1 & Hf1 & ->).
    destruct (IH2 _ L HL 2%nat f1 rest (acc ++ squished e1) Hwf2 Hf1) as (f2 & Hf2 & ->).
    exists f2. by rewrite <- app_assoc.
  - destruct Hwf as (_ & Hwf1 & Hwf2). rewrite <- app_assoc in *. cbn [app] in *.
    destruct (IH1 _ L HL 2%nat fuel (or_node [] [] :: tokens e2 ++ rest) acc Hwf1 Hf) as (f1 & Hf1 & ->).
    destruct (collect_one L HL f1 (or_node [] []) (tokens e2 ++ rest) (acc ++ squished e1))
      as (f2 & Hf2 & ->); try done.
    destruct (IH2 _ L HL 3%nat f2 rest ((acc ++ squished e1) ++ [or_node [] []]) Hwf2 Hf2) as (f3 & Hf3 & ->).
    exists f3. by rewrite <- !app_assoc.
Qed.

Lemma squish_loop_nil fuel acc : (1 < fuel)%nat → squish_loop fuel [] acc = Ok acc.
Proof. by destruct fuel as [|[|fuel]]; [lia|lia|]. Qed.

Lemma paren_squish_expr e n : wf n e → paren_squish (tokens e) = Ok (squished e).
Proof.
  intros Hwf. unfold paren_squish.
  destruct (collect_expr e squish_loop squish_loop_step n (2 * length (tokens e) + 2) [] [] Hwf)
    as (f & Hf & H); [rewrite app_nil_r; lia|].
  rewrite app_nil_r in H. rewrite H. apply squish_loop_nil. simpl in Hf. lia.
Qed.

(** After [not_squish]: [neg] tells whether an odd number of nots stands before. *)
Fixpoint negated (neg : bool) (e : expr) : list PLAN :=
  match e with
  | Prim _ p _ => if neg then [not_node [p]] else [p]
  | Paren e => if neg then [not_node [expr_node (negated false e)]] else [expr_node (negated false e)]
  | Not e => negated (negb neg) e
  | And _ e1 e2 => negated false e1 ++ negated false e2
  | Or e1 e2 => negated false e1 ++ or_node [] [] :: negated false e2
  end.

Lemma size_app l1 l2 : size (l1 ++ l2) = (size l1 + size l2)%nat.
Proof. unfold size. by rewrite fmap_app, list_sum_app. Qed.

Lemma size_cons p l : size (p :: l) = (plan_size p + size l)%nat.
Proof. done. Qed.

Lemma plan_size_pos p : (1 <= plan_size p)%nat.
Proof. destruct p; simpl; lia. Qed.

Lemma size_expr_node l : plan_size (expr_node l) = S (size l).
Proof. unfold size. simpl. lia. Qed.

Lemma count_nots_replicate k l :
  match l with p :: _ => type p ≠ N_NOT | [] => False end →
  count_nots (replicate k (not_node []) ++ l) = (k, l).
Proof.
  intros Hl. induction k as [|k IH]; simpl.
  - destruct l as [|p l]; [done|]. simpl. by rewrite decide_False.
  - by rewrite IH.
Qed.

(** One turn of the loop at a node that is no operator, at an expression in parentheses,
    and at nots before either. *)
Lemma not_squish_prim fuel p rest :
  type p ≠ N_NOT → type p ≠ N_EXPR →
  not_squish (S fuel) (p :: rest) = let* r := not_squish fuel rest in Ok (p :: r).
Proof. intros Hn He. cbn [not_squish]. rewrite decide_False by done. cbn [res_bind]. by rewrite decide_False. Qed.

Lemma not_squish_expr fuel l l' rest :
  not_squish fuel l = Ok l' →
  not_squish (S fuel) (expr_node l :: rest) = let* r := not_squish fuel rest in Ok (expr_node l' :: r).
Proof. intros H. cbn [not_squish]. rewrite decide_True by done. cbn [p_data0 expr_node]. by rewrite H. Qed.

Lemma not_squish_nots fuel k p nodes rest :
  type p ≠ N_NOT → type p ≠ N_OR →
  (if decide (type p = N_EXPR) then not_squish fuel [p] else Ok [p]) = Ok nodes →
  not_squish (S fuel) (replicate (S k) (not_node []) ++ p :: rest)
  = let* r := not_squish fuel rest in Ok ((if Nat.even k then [not_node nodes] else nodes) ++ r).
Proof.
  intros Hn Ho Hp. cbn [replicate app not_squish]. rewrite decide_False by done. cbn [res_bind].
  rewrite decide_True by done. rewrite count_nots_replicate by done. cbn iota.
  rewrite decide_False by done. rewrite Hp. done.
Qed.

Lemma even_S k : Nat.even (S k) = negb (Nat.even k).
Proof. by rewrite Nat.even_succ, Nat.negb_even. Qed.

Lemma not_squish_correct e :
  (∀ n fuel rest, wf n e → (2 * size (squished e ++ rest) < fuel)%nat →
   ∃ fuel', (2 * size rest < fuel')%nat ∧
     not_squish fuel (squished e ++ rest) = let* r := not_squish fuel' rest in Ok (negated false e ++ r))
  ∧ (wf 1 e → ∀ k fuel rest, (2 * size (replicate (S k) (not_node []) ++ squished e ++ rest) < fuel)%nat →
   ∃ fuel', (2 * size rest < fuel')%nat ∧
     not_squish fuel (replicate (S k) (not_node []) ++ squished e ++ rest)
     = let* r := not_squish fuel' rest in Ok (negated (Nat.even k) e ++ r)).
Proof.
  induction e as [ws p out|e [IH _]|e [_ IH]|ex e1 [IH1 _] e2 [IH2 _]|e1 [IH1 _] e2 [IH2 _]];
    (split; [intros n fuel rest Hwf Hf|intros Hwf k fuel rest Hf]); cbn [squished negated wf] in *.
  - apply is_prim_type in Hwf as (_ & _ & Hn & _ & He). cbn [app] in *. rewrite size_cons in Hf.
    destruct fuel as [|fuel]; [lia|]. exists fuel. pose proof (plan_size_pos p) as Hpos. split; [lia|].
    by rewrite not_squish_prim.
  - apply is_prim_type in Hwf as (_ & _ & Hn & Ho & He). cbn [app] in *.
    rewrite size_app, size_cons in Hf. destruct fuel as [|fuel]; [lia|]. exists fuel.
    pose proof (plan_size_pos p) as Hpos. split; [lia|].
    rewrite (not_squish_nots fuel k p [p]) by (done || by rewrite decide_False). by destruct (Nat.even k).
  - cbn [app] in *. rewrite size_cons, size_expr_node in Hf.
    destruct fuel as [|fuel]; [lia|]. exists fuel. split; [lia|].
    destruct (IH 3%nat fuel [] Hwf) as (f' & Hf' & H); [rewrite app_nil_r; lia|].
    destruct f' as [|f']; [lia|]. rewrite !app_nil_r in H. cbn [not_squish res_bind] in H. rewrite app_nil_r in H.
    by rewrite (not_squish_expr _ _ _ _ H).
  - cbn [app] in *. rewrite size_app, size_cons, size_expr_node in Hf.
    cbn [replicate] in Hf. rewrite size_cons in Hf. pose proof (plan_size_pos (not_node [])) as Hpos.
    destruct fuel as [|[|fuel]]; [lia|lia|]. exists (S fuel). split; [lia|].
    destruct (IH 3%nat fuel [] Hwf) as (f' & Hf' & H); [rewrite app_nil_r; lia|].
    destruct f' as [|f']; [lia|]. rewrite !app_nil_r in H. cbn [not_squish res_bind] in H. rewrite app_nil_r in H.
    rewrite (not_squish_nots (S fuel) k (expr_node (squished e)) [expr_node (negated false e)]); try done.
    rewrite decide_True by done. rewrite (not_squish_expr _ _ _ _ H). destruct fuel; [lia|done].
  - destruct Hwf as [_ Hwf]. apply (IH Hwf 0%nat fuel rest). exact Hf.
  - destruct Hwf as [_ Hwf]. rewrite <- even_S.
    assert (replicate (S k) (not_node []) ++ (not_node [] :: squished e) ++ rest
      = replicate (S (S k)) (not_node []) ++ squished e ++ rest) as E.
    { cbn [app]. rewrite (replicate_S_end (S k)). by rewrite <- app_assoc. }
    rewrite E in Hf |- *. by apply IH.
  - destruct Hwf as (_ & Hwf1 & Hwf2). rewrite <- app_assoc in *.
    destruct (IH1 1%nat fuel (squished e2 ++ rest) Hwf1 Hf) as (f1 & Hf1 & ->).
    destruct (IH2 2%nat f1 rest Hwf2 Hf1) as (f2 & Hf2 & ->). exists f2. split; [done|].
    rewrite res_bind_assoc. destruct (not_squish f2 rest); [|done..]. cbn [res_bind]. by rewrite <- app_assoc.
  - lia.
  - destruct Hwf as (_ & Hwf1 & Hwf2). rewrite <- app_assoc in *. cbn [app] in *.
    destruct (IH1 2%nat fuel _ Hwf1 Hf) as (f1 & Hf1 & ->).
    rewrite size_cons in Hf1. destruct f1 as [|f1]; [lia|].
    rewrite not_squish_prim by done.
    pose proof (plan_size_pos (or_node [] [])) as Hpos.
    destruct (IH2 3%nat f1 rest Hwf2 ltac:(lia)) as (f2 & Hf2 & ->). exists f2. split; [done|].
    destruct (not_squish f2 rest); [|done..]. cbn [res_bind]. by rewrite <- app_assoc.
  - lia.
Qed.

Lemma not_squish_expr_all e n : wf n e → not_squish (S (2 * size (squished e))) (squished e) = Ok (negated false e).
Proof.
  intros Hwf. destruct (proj1 (not_squish_correct e) n (S (2 * size (squished e))) [] Hwf)
    as (f & Hf & H); [rewrite app_nil_r; lia|].
  rewrite app_nil_r in H. rewrite H. destruct f as [|f]; [lia|]. cbn [not_squish res_bind]. by rewrite app_nil_r.
Qed.

(** After [or_squish]. *)
Fixpoint compiled (neg : bool) (e : expr) : list PLAN :=
  match e with
  | Prim _ p _ => if neg then [not_node [p]] else [p]
  | Paren e => if neg then [not_node [expr_node (compiled false e)]] else [expr_node (compiled false e)]
  | Not e => compiled (negb neg) e
  | And _ e1 e2 => compiled false e1 ++ compiled false e2
  | Or e1 e2 => [or_node (compiled false e1) (compiled false e2)]
  end.

Lemma compiled_nonempty neg e : compiled neg e ≠ [].
Proof.
  revert neg. induction e; intros neg; simpl; try by destruct neg.
  by destruct (compiled false e1) eqn:E; [apply IHe1 in E|].
Qed.

(** One turn at a primary, and at a node with a subplan. *)
Lemma or_squish_prim fuel p rest acc :
  is_prim p = true → or_squish (S fuel) (p :: rest) acc = or_squish fuel rest (acc ++ [p]).
Proof.
  intros (_ & _ & Hn & Ho & He)%is_prim_type. cbn [or_squish].
  rewrite !bool_decide_false by done. cbn [orb res_bind]. by rewrite decide_False.
Qed.

Lemma or_squish_sub fuel p rest acc l :
  type p = N_EXPR ∨ type p = N_NOT → or_squish fuel (p_data0 p) [] = Ok l →
  or_squish (S fuel) (p :: rest) acc = or_squish fuel rest (acc ++ [set_data0 p l]).
Proof.
  intros Hp Hl. cbn [or_squish].
  assert (bool_decide (type p = N_EXPR) || bool_decide (type p = N_NOT) = true) as ->
    by (destruct Hp as [-> | ->]; done).
  rewrite Hl. cbn [res_bind]. rewrite decide_False; [done|].
  destruct p as [t ? ? ? ? ? ?]; simpl in *. by destruct Hp as [-> | ->].
Qed.

(** Expressions below a disjunction are appended to the result. *)
Definition appended (e : expr) : Prop := ∀ neg,
  wf 2 e → (neg = true → wf 1 e) → ∀ fuel rest acc, (2 * size (negated neg e ++ rest) < fuel)%nat →
  ∃ fuel', (2 * size rest < fuel')%nat ∧
    or_squish fuel (negated neg e ++ rest) acc = or_squish fuel' rest (acc ++ compiled neg e).
Definition or_squished (e : expr) : Prop :=
  wf 3 e → ∀ fuel, (2 * size (negated false e) < fuel)%nat →
  or_squish fuel (negated false e) [] = Ok (compiled false e).

Lemma appended_whole e : appended e → wf 2 e → or_squished e.
Proof.
  intros H Hwf _ fuel Hf. destruct (H false Hwf ltac:(done) fuel [] []) as (f' & Hf' & E); [by rewrite app_nil_r|].
  rewrite app_nil_r in E. rewrite E. by destruct f'; [lia|].
Qed.

Lemma plan_size_not_node p : plan_size (not_node [p]) = S (plan_size p).
Proof. simpl. lia. Qed.

(** A node on its own, or below a not. *)
Lemma appended_node neg p q fuel rest acc :
  (2 * size ((if neg : bool then [not_node [p]] else [p]) ++ rest) < fuel)%nat →
  (∀ f rest acc, (2 * plan_size p < f)%nat → or_squish f (p :: rest) acc = or_squish (pred f) rest (acc ++ [q])) →
  ∃ fuel', (2 * size rest < fuel')%nat ∧
    or_squish fuel ((if neg then [not_node [p]] else [p]) ++ rest) acc
    = or_squish fuel' rest (acc ++ (if neg then [not_node [q]] else [q])).
Proof.
  intros Hf Hstep. pose proof (plan_size_pos p) as Hpos.
  destruct neg; cbn [app] in *; rewrite size_cons in Hf; rewrite ?plan_size_not_node in Hf.
  - destruct fuel as [|[|fuel]]; [lia|lia|]. exists (S fuel). split; [lia|].
    apply (or_squish_sub _ (not_node [p]) _ _ [q]); [by right|]. cbn [p_data0 not_node].
    rewrite Hstep by lia. destruct fuel; [lia|done].
  - exists (pred fuel). split; [lia|]. apply Hstep. lia.
Qed.

Lemma or_squish_correct e : appended e ∧ or_squished e.
Proof.
  induction e as [ws p out|e [_ IH]|e [IH _]|ex e1 [IH1 _] e2 [IH2 _]|e1 [IH1 _] e2 [_ IH2]].
  - assert (appended (Prim ws p out)) as H; [|split; [done|]; intros Hwf; by apply appended_whole].
    intros neg Hwf _ fuel rest acc Hf. cbn [wf negated compiled] in *. apply appended_node; [done|].
    intros [|f] rest' acc' Hf'; [lia|]. by apply or_squish_prim.
  - assert (appended (Paren e)) as H; [|split; [done|]; intros Hwf; by apply appended_whole].
    intros neg Hwf _ fuel rest acc Hf. cbn [wf negated compiled] in *. apply appended_node; [done|].
    intros [|f] rest' acc' Hf'; [lia|]. rewrite size_expr_node in Hf'.
    apply (or_squish_sub _ (expr_node (negated false e)) _ _ (compiled false e)); [by left|].
    apply IH; [done|lia].
  - assert (appended (Not e)) as H.
    { intros neg [_ Hwf] _ fuel rest acc Hf. cbn [negated compiled] in *.
      apply IH; [by apply (wf_mono 1); [lia|]|done|done]. }
    split; [done|]. intros [? Hwf]. apply appended_whole; [done|by split; [lia|]|by split].
  - assert (appended (And ex e1 e2)) as H.
    { intros neg (_ & Hwf1 & Hwf2) Hneg fuel rest acc Hf. cbn [negated compiled] in *.
      rewrite <- app_assoc in *.
      destruct (IH1 false (wf_mono 1 2 e1 ltac:(lia) Hwf1) ltac:(done) fuel (negated false e2 ++ rest) acc Hf)
        as (f1 & Hf1 & ->).
      destruct (IH2 false Hwf2 ltac:(done) f1 rest (acc ++ compiled false e1) Hf1) as (f2 & Hf2 & ->).
      exists f2. by rewrite <- app_assoc. }
    split; [done|]. intros (? & Hwf1 & Hwf2). apply appended_whole; [done|by split; [lia|]|by split].
  - split; [intros neg (? & _); lia|]. intros (_ & Hwf1 & Hwf2) fuel Hf. cbn [negated compiled] in *.
    destruct (IH1 false Hwf1 ltac:(done) fuel (or_node [] [] :: negated false e2) [] Hf) as (f1 & Hf1 & ->).
    rewrite size_cons in Hf1. pose proof (plan_size_pos (or_node [] [])) as Hpos.
    destruct f1 as [|f1]; [lia|]. cbn [or_squish type or_node app].
    rewrite !bool_decide_false by done. cbn [orb res_bind].
    change (type (mkPlan N_OR f_or 0 [] 0 [] [])) with N_OR. rewrite decide_True by done.
    rewrite (IH2 Hwf2 f1) by lia. pose proof (compiled_nonempty false e1) as Hne1.
    pose proof (compiled_nonempty false e2) as Hne2. cbn [res_bind].
    destruct (compiled false e1) eqn:E1; [done|]. by destruct (compiled false e2) eqn:E2.
Qed.

Lemma squish_expr e : wf 3 e → squish (tokens e) = Ok (compiled false e).
Proof.
  intros Hwf. unfold squish. rewrite (paren_squish_expr e 3) by done. cbn [res_bind].
  rewrite (not_squish_expr_all e 3) by done. cbn [res_bind]. apply or_squish_correct; [done|lia].
Qed.

(** ** Evaluation *)

Section evaluation.
Context {W : Type} (primary : word → list word → W → bool * W).

Notation run := (list_eval (eval_node primary)).
Notation means := (meaning primary).

Lemma list_eval_app l1 l2 state w :
  l2 ≠ [] →
  run (l1 ++ l2) state w
  = let* (b, w) := run l1 true w in if b : bool then run l2 state w else Ok (false, w).
Proof.
  intros Hne. revert state w. induction l1 as [|p l1 IH]; intros state w.
  - by destruct l2.
  - cbn [app list_eval]. destruct (eval_node primary p w) as [[b w']|?|]; cbn [res_bind]; [|done..].
    destruct b; [|done]. fold (run (l1 ++ l2) true w') (run l1 true w').
    rewrite IH. destruct (run l1 true w') as [[b' w'']|?|]; cbn [res_bind]; [|done..]. 
    destruct b'; [|done]. destruct l2; done.
Qed.

Lemma run_state l state w : l ≠ [] → run l state w = run l true w.
Proof. by destruct l. Qed.

Lemma run_one p state w : run [p] state w = eval_node primary p w.
Proof. cbn [list_eval]. by destruct (eval_node primary p w) as [[[] w']|?|]. Qed.

Lemma eval_prim p w : prim_eval p = true → eval_node primary p w = Ok (prim_meaning primary p w).
Proof. destruct p as [t f fl a v l0 l1]. unfold prim_eval, prim_meaning. cbn. by destruct f. Qed.

(** A compiled expression evaluates to its meaning. *)
Lemma run_compiled e : prims (λ _ p _, prim_eval p = true) e → wf 3 e → ∀ neg w state,
  (neg = true → wf 1 e) →
  run (compiled neg e) state w = Ok (let '(b, w) := means e w in (xorb neg b, w)).
Proof.
  induction e as [ws p out|e IH|e IH|ex e1 IH1 e2 IH2|e1 IH1 e2 IH2]; intros Hp Hwf neg w state Hneg;
    cbn [prims compiled meaning wf] in *.
  - destruct neg; rewrite run_one.
    + cbn [eval_node not_node]. rewrite run_one, eval_prim by done. cbn [res_bind].
      by destruct (prim_meaning primary p w) as [[] w'].
    + rewrite eval_prim by done. by destruct (prim_meaning primary p w) as [[] w'].
  - destruct neg; rewrite run_one.
    + cbn [eval_node not_node]. rewrite run_one. cbn [eval_node expr_node].
      rewrite IH by done. cbn [res_bind]. by destruct (means e w) as [[] w'].
    + cbn [eval_node expr_node]. by rewrite IH by done.
  - destruct Hwf as [_ Hwf]. rewrite IH; [|done|by apply (wf_mono 1); [lia|]|done].
    by destruct neg, (means e w) as [[] w'].
  - destruct neg; [destruct (Hneg eq_refl); lia|]. destruct Hwf as (_ & Hwf1 & Hwf2), Hp as [Hp1 Hp2].
    apply (wf_mono 1 3) in Hwf1; [|lia]. apply (wf_mono 2 3) in Hwf2; [|lia].
    rewrite list_eval_app by apply compiled_nonempty. rewrite IH1 by done. destruct (means e1 w) as [[] w']; [|done].
    cbn [xorb res_bind]. by rewrite IH2 by done.
  - destruct neg; [destruct (Hneg eq_refl); lia|]. destruct Hwf as (_ & Hwf1 & Hwf2), Hp as [Hp1 Hp2].
    apply (wf_mono 2 3) in Hwf1; [|lia]. rewrite run_one. cbn [eval_node or_node].
    rewrite IH1 by done. destruct (means e1 w) as [[] w']; [done|]. cbn [xorb res_bind].
    by rewrite IH2 by done.
Qed.

(** The loop of [find_execute] runs a plan as [f_expr] does. *)
Lemma visit_run l w rval :
  (let* (_, w) := visit primary l w rval in Ok w) = (let* (_, w) := run l true w in Ok w).
Proof.
  revert w rval. induction l as [|p l IH]; intros w rval; [done|].
  cbn [visit list_eval]. destruct (eval_node primary p w) as [[[] w']|?|]; cbn [res_bind]; [|done..].
  apply IH.
Qed.

Lemma visit_spec l w rval b w' : run l true w = Ok (b, w') → ∃ v, visit primary l w rval = Ok (v, w').
Proof.
  intros H. pose proof (visit_run l w rval) as E. rewrite H in E.
  destruct (visit primary l w rval) as [[v w'']|?|]; [|done..]. simpl in E. injection E as ->. by exists v.
Qed.
End evaluation.

(** ** The command line *)

Section command_line.
Context (c_check : word → list word → bool).

(** The words of a primary are read as one node. *)
Definition reads (ws : list word) (p : PLAN) (out : bool) : Prop :=
  ws ≠ [] ∧ ∀ g rest, ∃ g',
    find_create c_check g (ws ++ rest) = Ok (Some p, rest, g') ∧ isoutput g' = out || isoutput g.

Lemma create_loop_step fuel g argv new rest g' :
  argv ≠ [] → find_create c_check g argv = Ok (new, rest, g') →
  create_loop c_check (S fuel) g argv
  = let* (plan, g) := create_loop c_check fuel g' rest in
    Ok (match new with Some p => p :: plan | None => plan end, g).
Proof. intros Hne H. cbn [create_loop]. rewrite H. by destruct argv. Qed.

Lemma create_operator fuel g opt rest p :
  (∀ g rest, find_create c_check g (opt :: rest) = Ok (p, rest, g)) →
  create_loop c_check (S fuel) g (opt :: rest)
  = let* (plan, g) := create_loop c_check fuel g rest in
    Ok (match p with Some p => p :: plan | None => plan end, g).
Proof. intros H. by apply create_loop_step. Qed.

Lemma reads_operators g rest :
  find_create c_check g (str "(" :: rest) = Ok (Some openparen, rest, g)
  ∧ find_create c_check g (str ")" :: rest) = Ok (Some closeparen, rest, g)
  ∧ find_create c_check g (str "!" :: rest) = Ok (Some (not_node []), rest, g)
  ∧ find_create c_check g (str "-a" :: rest) = Ok (None, rest, g)
  ∧ find_create c_check g (str "-o" :: rest) = Ok (Some (or_node [] []), rest, g).
Proof. split_and!; reflexivity. Qed.

Lemma create_words e : prims reads e → ∀ fuel g rest, (length (words e ++ rest) < fuel)%nat →
  ∃ fuel' g', (length rest < fuel')%nat ∧ isoutput g' = outputs e || isoutput g
  ∧ create_loop c_check fuel g (words e ++ rest)
    = let* (l, g) := create_loop c_check fuel' g' rest in Ok (tokens e ++ l, g).
Proof.
  induction e as [ws p out|e IH|e IH|ex e1 IH1 e2 IH2|e1 IH1 e2 IH2]; intros Hp fuel g rest Hf;
    cbn [prims words tokens outputs] in *; try destruct Hp as [Hp1 Hp2].
  - destruct (Hp2 g rest) as (g' & Hc & Hg). destruct fuel as [|fuel]; [lia|]. exists fuel, g'.
    rewrite length_app in Hf. assert (length ws ≠ 0)%nat by (by destruct ws). split_and!; [lia|done|].
    rewrite (create_loop_step _ _ (ws ++ rest) _ _ _ ltac:(by destruct ws) Hc). done.
  - cbn [app] in *. rewrite <- app_assoc in *. cbn [app length] in *. destruct fuel as [|fuel]; [lia|].
    rewrite (create_operator _ _ _ _ (Some openparen)) by apply reads_operators.
    apply Nat.succ_lt_mono in Hf. destruct (IH Hp fuel g _ Hf) as (f & g' & Hf' & Hg & ->).
    destruct f as [|f]; [simpl in Hf'; lia|]. exists f, g'. simpl in Hf'. split_and!; [lia|done|].
    rewrite (create_operator _ _ _ _ (Some closeparen)) by apply reads_operators.
    destruct (create_loop c_check f g' rest) as [[l g'']|?|]; [|done..]. cbn [res_bind].
    by rewrite <- app_assoc.
  - cbn [app length] in *. destruct fuel as [|fuel]; [lia|].
    rewrite (create_operator _ _ _ _ (Some (not_node []))) by apply reads_operators.
    destruct (IH Hp fuel g rest ltac:(lia)) as (f & g' & Hf' & Hg & ->). exists f, g'. split_and!; [done..|].
    by destruct (create_loop c_check f g' rest) as [[l g'']|?|].
  - rewrite <- !app_assoc in *.
    destruct (IH1 Hp1 fuel g _ Hf) as (f1 & g1 & Hf1 & Hg1 & ->).
    match goal with |- context [create_loop c_check f1 g1 ?a] => assert (∃ f2,
      (length (words e2 ++ rest) < f2)%nat ∧
      create_loop c_check f1 g1 a = create_loop c_check f2 g1 (words e2 ++ rest)) as (f2 & Hf2 & ->) end.
    { destruct ex; [|by exists f1]. cbn [app length] in *. destruct f1 as [|f1]; [lia|]. exists f1.
      split; [lia|]. rewrite (create_operator _ _ _ _ None) by apply reads_operators.
      by destruct (create_loop c_check f1 g1 _) as [[l g'']|?|]. }
    destruct (IH2 Hp2 f2 g1 rest Hf2) as (f3 & g3 & Hf3 & Hg3 & ->). exists f3, g3.
    split_and!; [done|rewrite Hg3, Hg1; by destruct (outputs e1), (outputs e2)|].
    destruct (create_loop c_check f3 g3 rest) as [[l g'']|?|]; [|done..]. cbn [res_bind].
    by rewrite <- app_assoc.
  - rewrite <- !app_assoc in *. cbn [app] in *.
    destruct (IH1 Hp1 fuel g _ Hf) as (f1 & g1 & Hf1 & Hg1 & ->). cbn [length] in Hf1.
    destruct f1 as [|f1]; [lia|].
    rewrite (create_operator _ _ _ _ (Some (or_node [] []))) by apply reads_operators.
    destruct (IH2 Hp2 f1 g1 rest ltac:(lia)) as (f3 & g3 & Hf3 & Hg3 & ->). exists f3, g3.
    split_and!; [done|rewrite Hg3, Hg1; by destruct (outputs e1), (outputs e2)|].
    destruct (create_loop c_check f3 g3 rest) as [[l g'']|?|]; [|done..]. cbn [res_bind].
    by rewrite <- app_assoc.
Qed.

Definition print_node : PLAN := palloc N_PRINT (f_primary (str "-print")).

(** The nodes as [find_formplan] brackets them. *)
Definition with_print (g : globals) (l : list PLAN) : list PLAN :=
  if isoutput g then l
  else match l with
       | [] => [print_node]
       | _ => openparen :: l ++ [closeparen; print_node]
       end.

Lemma find_formplan_nodes argv l g :
  create_loop c_check (S (length argv)) (mkGlobals false false) argv = Ok (l, g) →
  find_formplan c_check argv = squish (with_print g l).
Proof. intros H. unfold find_formplan. rewrite H. done. Qed.

Lemma tokens_nonempty e : tokens e ≠ [].
Proof. induction e; simpl; try done; by destruct (tokens e1). Qed.

(** An expression and the print node that is implied. *)
Definition printed (e : expr) : expr :=
  if outputs e then e else And false (Paren e) (Prim [] print_node true).

Lemma prims_mono (P Q : list word → PLAN → bool → Prop) e :
  (∀ ws p out, P ws p out → Q ws p out) → prims P e → prims Q e.
Proof. intros H. induction e; simpl; naive_solver. Qed.

End command_line.

(** C5.  [find_formplan] accepts every expression of find(1) - primaries, parentheses,
    negation, conjunction with or without [-a], disjunction, with their precedences - and
    its plan, run by [find_execute] on an entry, does what the expression means: primaries
    are evaluated from left to right with short circuits, and when no primary of it
    outputs, the entry is printed if the expression is true. *)
Theorem find_formplan_means (c_check : word → list word → bool) (e : expr) :
  wf 3 e → prims (λ ws p out, reads c_check ws p out ∧ prim_eval p = true) e →
  ∃ plan, find_formplan c_check (words e) = Ok plan ∧
  ∀ (W : Type) (primary : word → list word → W → bool * W) (w : W), ∃ rval,
    visit primary plan w None
    = Ok (rval, let '(b, w) := meaning primary e w in
                if outputs e || negb b then w else (primary (str "-print") [] w).2).
Proof.
  intros Hwf Hp. exists (compiled false (printed e)).
  assert (prims (reads c_check) e) as Hr by (eapply prims_mono; [|exact Hp]; by intros ? ? ? []).
  destruct (create_words c_check e Hr (S (length (words e)))
    (mkGlobals false false) []) as (f & g & Hf & Hg & H); [rewrite app_nil_r; lia|].
  rewrite app_nil_r in H. destruct f as [|f]; [simpl in Hf; lia|]. cbn [create_loop res_bind] in H.
  rewrite app_nil_r in H. rewrite orb_false_r in Hg.
  assert (prims (λ _ p _, prim_eval p = true) (printed e)) as Hpe.
  { unfold printed. eapply prims_mono in Hp as Hp'; [|intros ws p out [_ Hx]; exact Hx].
    destruct (outputs e); [exact Hp'|by split]. }
  assert (wf 3 (printed e)) as Hwf' by (unfold printed; destruct (outputs e); [done|cbn; auto]).
  split.
  - rewrite (find_formplan_nodes _ _ _ _ H). rewrite <- squish_expr by done. f_equal.
    unfold with_print, printed. rewrite Hg. destruct (outputs e); [done|].
    pose proof (tokens_nonempty e). destruct (tokens e) eqn:E; [done|]. cbn [tokens]. rewrite E.
    cbn [app]. by rewrite <- app_assoc.
  - intros W primary w.
    assert ((let '(b, w) := meaning primary e w in
             if outputs e || negb b then w else (primary (str "-print") [] w).2)
            = (meaning primary (printed e) w).2) as ->.
    { unfold printed. destruct (outputs e); cbn [orb meaning]; [by destruct (meaning primary e w)|].
      destruct (meaning primary e w) as [[] w1].
      all: reflexivity. }
    apply (visit_spec primary _ w None (meaning primary (printed e) w).1).
    rewrite run_compiled by done. by destruct (meaning primary (printed e) w) as [b w1].
Qed.

(** [find . ! -name x -o -newer y -a -exit 3], in a world that counts what is printed, where
    every other primary is false. *)
Example find_formplan_means_witness :
  ∃ plan, find_formplan (λ _ _, true)
      [str "!"; str "-name"; str "x"; str "-o"; str "-newer"; str "y"; str "-a"; str "-ls"] = Ok plan ∧
    ∀ w : nat, ∃ rval, visit (λ opt _ w, if decide (opt = str "-print") then (true, S w) else (false, w)) plan w None
      = Ok (rval, w).
Proof.
  destruct (find_formplan_means (λ _ _, true)
    (Or (Not (Prim [str "-name"; str "x"] (mkPlan N_NAME (f_primary (str "-name")) 0 [str "x"] 0 [] []) false))
        (And true (Prim [str "-newer"; str "y"] (mkPlan N_NEWER (f_primary (str "-newer")) 0 [str "y"] 0 [] []) false)
                  (Prim [str "-ls"] (palloc N_LS (f_primary (str "-ls"))) true)))) as (plan & H & Hv).
  - by repeat split; simpl; auto.
  - split; [|split]; (split; [|done]); split; try done; intros g rest; by eexists.
  - exists plan. split; [exact H|]. intros w.
    exact (Hv nat (λ opt _ w, if decide (opt = str "-print") then (true, S w) else (false, w)) w).
Defined.

(** ** Everything that is accepted is an expression *)

Definition token_node (p : PLAN) : Prop :=
  (is_prim p = true ∧ prim_eval p = true)
  ∨ p = openparen ∨ p = closeparen ∨ p = not_node [] ∨ p = or_node [] [].

Definition bare : expr → Prop := prims (λ _ p _, prim_eval p = true).

(** What [paren_squish] makes of balanced nodes. *)
Inductive parsed : list PLAN → list PLAN → Prop :=
  | parsed_nil : parsed [] []
  | parsed_prim p t l : is_prim p = true → prim_eval p = true → parsed t l → parsed (p :: t) (p :: l)
  | parsed_not t l : parsed t l → parsed (not_node [] :: t) (not_node [] :: l)
  | parsed_or t l : parsed t l → parsed (or_node [] [] :: t) (or_node [] [] :: l)
  | parsed_paren t1 l1 t l :
      l1 ≠ [] → parsed t1 l1 → parsed t l →
      parsed (openparen :: t1 ++ closeparen :: t) (expr_node l1 :: l).

Lemma parsed_app t1 l1 t2 l2 : parsed t1 l1 → parsed t2 l2 → parsed (t1 ++ t2) (l1 ++ l2).
Proof.
  intros H1 H2. induction H1; simpl; [done|..]; try by constructor.
  rewrite <- app_assoc. by constructor.
Qed.

Lemma yank_parsed fuel :
  (∀ plan x rest, Forall token_node plan → yankexpr fuel plan = Ok (Some (x, rest)) →
     Forall token_node rest ∧
     ((x = closeparen ∧ plan = closeparen :: rest) ∨ (type x ≠ N_CLOSEPAREN ∧ ∃ t, plan = t ++ rest ∧ parsed t [x])))
  ∧ (∀ plan acc l rest, Forall token_node plan → sub_loop fuel plan acc = Ok (l, rest) →
     Forall token_node rest ∧ l ≠ [] ∧ ∃ t l', plan = t ++ closeparen :: rest ∧ l = acc ++ l' ∧ parsed t l').
Proof.
  induction fuel as [|fuel [IHy IHs]]; [done|]. split.
  - intros plan x rest Hp H. cbn [yankexpr] in H. destruct Hp as [|p plan Hp Hplan]; [done|].
    destruct (decide (type p = N_OPENPAREN)) as [E|E].
    + destruct (sub_loop fuel plan []) as [[l rest']|?|] eqn:Es; [|done..]. cbn [res_bind] in H.
      destruct (IHs _ _ _ _ Hplan Es) as (Hr & Hne & t & l' & -> & -> & Ht).
      destruct Hp as [[Hp _]|[-> |[-> |[-> | ->]]]]; [by unfold is_prim in Hp; rewrite E in Hp| |done..].
      injection H as <- <-. split; [done|]. right. split; [done|].
      exists (openparen :: t ++ [closeparen]). split; [by rewrite <- app_comm_cons, <- app_assoc|].
      apply (parsed_paren t l' [] []); [done..|constructor].
    + injection H as <- <-. split; [done|].
      destruct Hp as [[Hp Hv]|[-> |[-> |[-> | ->]]]]; [| done | by left | |].
      * right. split; [by destruct (is_prim_type p Hp) as (_ & ? & _)|]. exists [p]. by repeat constructor.
      * right. split; [done|]. exists [not_node []]. by repeat constructor.
      * right. split; [done|]. exists [or_node [] []]. by repeat constructor.
  - intros plan acc l rest Hp H. cbn [sub_loop] in H.
    destruct (yankexpr fuel plan) as [[[x plan']|]|?|] eqn:Ey; [|done..]. cbn [res_bind] in H.
    destruct (IHy _ _ _ Hp Ey) as (Hr & [[-> ->]|(Hx & t & -> & Ht)]).
    + rewrite decide_True in H by done. destruct acc as [|y acc]; [done|]. injection H as <- <-.
      split_and!; [done|done|]. exists [], []. rewrite app_nil_r. split_and!; [done..|constructor].
    + rewrite decide_False in H by done.
      destruct (IHs _ _ _ _ Hr H) as (Hr' & Hne & t' & l' & -> & -> & Ht'). split_and!; [done..|].
      exists (t ++ t'), (x :: l'). rewrite <- !app_assoc. split_and!; [done..|by apply (parsed_app t [x])].
Qed.

Lemma squish_loop_parsed fuel plan acc r :
  Forall token_node plan → squish_loop fuel plan acc = Ok r → ∃ l, r = acc ++ l ∧ parsed plan l.
Proof.
  revert plan acc. induction fuel as [|fuel IH]; intros plan acc Hp H; [done|]. cbn [squish_loop] in H.
  destruct (yankexpr fuel plan) as [[[x plan']|]|?|] eqn:Ey; [|..]; cbn [res_bind] in H; [| |done..].
  - destruct (proj1 (yank_parsed fuel) _ _ _ Hp Ey) as (Hr & [[-> ->]|(Hx & t & -> & Ht)]);
      [by rewrite decide_True in H|].
    rewrite decide_False in H by done. destruct (IH _ _ Hr H) as (l & -> & Hl).
    exists (x :: l). rewrite <- app_assoc. split; [done|]. by apply (parsed_app t [x]).
  - injection H as <-. exists []. rewrite app_nil_r. split; [done|].
    destruct fuel as [|fuel]; [done|]. cbn [yankexpr] in Ey. destruct plan as [|p plan]; [constructor|].
    destruct (decide (type p = N_OPENPAREN)); [|done].
    destruct (sub_loop fuel plan []) as [[? ?]|?|]; [|done..]. by destruct p.
Qed.

(** Leading nots. *)
Definition nots (n : nat) (e : expr) : expr := Nat.iter n Not e.

Lemma nots_spec n e : wf 0 e → bare e →
  wf 1 (nots n e) ∧ bare (nots n e) ∧ tokens (nots n e) = replicate n (not_node []) ++ tokens e.
Proof.
  intros Hwf Hb. induction n as [|n (IH1 & IH2 & IH3)]; simpl.
  - split_and!; [by apply (wf_mono 0); [lia|]|done|done].
  - split_and!; [lia|done|done|by rewrite <- IH3].
Qed.

Lemma count_nots_parsed t l : parsed t l → ∀ n l2, count_nots l = (n, l2) →
  ∃ t2, t = replicate n (not_node []) ++ t2 ∧ parsed t2 l2 ∧ l = replicate n (not_node []) ++ l2
  ∧ match l2 with p :: _ => type p ≠ N_NOT | [] => True end.
Proof.
  induction 1 as [|p t l Hp Hv Ht IH|t l Ht IH|t l Ht IH|t1 l1 t l Hne Ht1 IH1 Ht IH]; intros n l2 H;
    cbn [count_nots] in H.
  - injection H as <- <-. exists []. split_and!; [done|constructor|done|done].
  - pose proof (is_prim_type p Hp) as (_ & _ & Hn & _). rewrite decide_False in H by done.
    injection H as <- <-. exists (p :: t). split_and!; [done|by constructor|done|done].
  - rewrite decide_True in H by done. destruct (count_nots l) as [n' l'] eqn:E. injection H as <- <-.
    destruct (IH _ _ eq_refl) as (t2 & -> & Ht2 & -> & Hl). by exists t2.
  - rewrite decide_False in H by done. injection H as <- <-. eexists. split_and!; [reflexivity|by constructor|done|done].
  - rewrite decide_False in H by done. injection H as <- <-. eexists. split_and!; [reflexivity|by constructor|done|done].
Qed.

Lemma not_squish_nil fuel r : not_squish fuel [] = Ok r → r = [].
Proof. destruct fuel; [done|]. by intros [= <-]. Qed.
Lemma or_squish_nil fuel acc r : or_squish fuel [] acc = Ok r → r = acc.
Proof. destruct fuel; [done|]. by intros [= <-]. Qed.

(** What the passes accept after the result [acc]. *)
Definition continues (acc t : list PLAN) : Prop :=
  t = [] ∨ (∃ e, wf 3 e ∧ bare e ∧ tokens e = t)
  ∨ (acc ≠ [] ∧ ∃ e, wf 3 e ∧ bare e ∧ t = or_node [] [] :: tokens e).

(** An expression before what continues it. *)
Lemma continues_after acc u t :
  acc ≠ [] → wf 1 u → bare u → continues acc t → ∃ e, wf 3 e ∧ bare e ∧ tokens e = tokens u ++ t.
Proof.
  intros Ha Hu Hb [->|[(e & Hwf & He & <-)|(_ & e & Hwf & He & ->)]].
  - exists u. rewrite app_nil_r. split_and!; [by apply (wf_mono 1); [lia|]|done|done].
  - destruct e as [ws p out|e|e|ex e1 e2|e1 e2].
    5: { destruct Hwf as (_ & Hw1 & Hw2), He as [He1 He2]. exists (Or (And false u e1) e2). simpl.
         rewrite <- app_assoc. split_and!; [lia|lia|done|done|done|by repeat split|done]. }
    all: eexists (And false u _); split_and!; [split_and!; [lia|done|eauto]|by split|reflexivity].
    all: simpl in *; intuition lia.
  - exists (Or u e). simpl. split_and!; [lia|by apply (wf_mono 1); [lia|]|done|by split|done].
Qed.

Lemma count_nots_replicate_nil k : count_nots (replicate k (not_node [])) = (k, []).
Proof. induction k as [|k IH]; simpl; [done|by rewrite IH]. Qed.

(** What a turn of the passes needs, read backwards. *)
Lemma or_squish_inv fuel p rest acc r :
  type p ≠ N_OR → or_squish fuel (p :: rest) acc = Ok r →
  ∃ f q, or_squish f rest (acc ++ [q]) = Ok r
  ∧ (type p = N_EXPR ∨ type p = N_NOT → ∃ s, or_squish f (p_data0 p) [] = Ok s).
Proof.
  intros Ho H. destruct fuel as [|f]; [done|]. cbn [or_squish] in H.
  destruct (bool_decide (type p = N_EXPR) || bool_decide (type p = N_NOT)) eqn:E.
  - destruct (or_squish f (p_data0 p) []) as [s|?|] eqn:Es; [|done..]. cbn [res_bind] in H.
    rewrite decide_False in H by (by destruct p). exists f, (set_data0 p s). split; [done|]. by exists s.
  - cbn [res_bind] in H. rewrite decide_False in H by done. exists f, p. split; [done|].
    apply orb_false_iff in E as [E1%bool_decide_eq_false E2%bool_decide_eq_false]. intuition.
Qed.

Lemma or_squish_inv_node (b : bool) fuel p rest acc r :
  type p ≠ N_OR → or_squish fuel ((if b then [not_node [p]] else [p]) ++ rest) acc = Ok r →
  ∃ f acc', acc' ≠ [] ∧ or_squish f rest acc' = Ok r
  ∧ (type p = N_EXPR → ∃ f s, or_squish f (p_data0 p) [] = Ok s).
Proof.
  intros Ho H. destruct b; cbn [app] in H; apply or_squish_inv in H as (f & q & H & Hs); try done.
  - exists f, (acc ++ [q]). split; [by destruct acc|]. split; [done|]. intros Hp.
    destruct Hs as [s Hs]; [by right|]. cbn [p_data0 not_node] in Hs.
    apply or_squish_inv in Hs as (f' & q' & _ & Hs); [|done]. destruct Hs as [s' Hs]; [by left|]. by exists f', s'.
  - exists f, (acc ++ [q]). split; [by destruct acc|]. split; [done|]. intros Hp.
    destruct Hs as [s Hs]; [by left|]. by exists f, s.
Qed.

Lemma not_squish_one fuel p nodes :
  type p = N_EXPR → not_squish fuel [p] = Ok nodes →
  ∃ f s, not_squish f (p_data0 p) = Ok s ∧ nodes = [set_data0 p s].
Proof.
  intros Hp H. destruct fuel as [|f]; [done|]. cbn [not_squish] in H. rewrite decide_True in H by done.
  destruct (not_squish f (p_data0 p)) as [s|?|] eqn:Es; [|done..]. cbn [res_bind] in H.
  rewrite decide_False in H by (by destruct p; simpl in *; subst).
  destruct f as [|f]; [done|]. cbn [not_squish res_bind] in H. injection H as <-. by exists (S f), s.
Qed.

Lemma not_squish_inv fuel k p rest l' :
  type p ≠ N_NOT → (k = 0%nat → type p ≠ N_OR) →
  not_squish fuel (replicate k (not_node []) ++ p :: rest) = Ok l' →
  ∃ f (b : bool) q rest', l' = (if b then [not_node [q]] else [q]) ++ rest' ∧ type q = type p ∧ type p ≠ N_OR
  ∧ not_squish f rest = Ok rest'
  ∧ (type p = N_EXPR → ∃ f s, not_squish f (p_data0 p) = Ok s ∧ q = set_data0 p s).
Proof.
  intros Hn Ho H. destruct fuel as [|f]; [by destruct k|]. destruct k as [|k].
  - cbn [replicate app not_squish] in H. destruct (decide (type p = N_EXPR)) as [He|He].
    + destruct (not_squish f (p_data0 p)) as [s|?|] eqn:Es; [|done..]. cbn [res_bind] in H.
      rewrite decide_False in H by (by destruct p).
      destruct (not_squish f rest) as [rest'|?|] eqn:Er; [|done..]. injection H as <-.
      exists f, false, (set_data0 p s), rest'. split_and!; [done|by destruct p|auto|done|by exists f, s].
    + cbn [res_bind] in H. rewrite decide_False in H by done.
      destruct (not_squish f rest) as [rest'|?|] eqn:Er; [|done..]. injection H as <-.
      exists f, false, p, rest'. split_and!; auto. done.
  - cbn [replicate app not_squish] in H. rewrite decide_False in H by done. cbn [res_bind] in H.
    rewrite decide_True in H by done. rewrite count_nots_replicate in H by done. cbn iota in H.
    destruct (decide (type p = N_OR)) as [?|Ho']; [done|].
    destruct (if decide (type p = N_EXPR) then not_squish f [p] else Ok [p]) as [nodes|?|] eqn:En; [|done..].
    cbn [res_bind] in H. destruct (not_squish f rest) as [rest'|?|] eqn:Er; [|done..]. injection H as <-.
    destruct (decide (type p = N_EXPR)) as [He|He].
    + apply not_squish_one in En as (f' & s & Hs & ->); [|done].
      exists f, (Nat.even k), (set_data0 p s), rest'.
      split_and!; [by destruct (Nat.even k)|by destruct p|done|done|by exists f', s].
    + injection En as <-. exists f, (Nat.even k), p, rest'. split_and!; auto; done.
Qed.

(** The two passes accept only what continues the result so far. *)
Lemma accepted n : ∀ t l, (size l <= n)%nat → parsed t l → ∀ f1 f2 l' acc r,
  not_squish f1 l = Ok l' → or_squish f2 l' acc = Ok r → continues acc t.
Proof.
  induction n as [|n IH]; intros t l Hn Ht f1 f2 l' acc r H1 H2.
  { destruct Ht; rewrite ?size_cons in Hn; [by left|..];
      match type of Hn with context [plan_size ?p] => pose proof (plan_size_pos p) end; lia. }
  destruct (count_nots l) as [k l2] eqn:E.
  destruct (count_nots_parsed t l Ht k l2 E) as (t2 & -> & Ht2 & -> & Hl2). clear E Ht.
  rewrite size_app in Hn.
  destruct Ht2 as [|p t3 l3 Hp Hv Ht3|t3 l3 Ht3|t3 l3 Ht3|t1 l1 t3 l3 Hne Ht1 Ht3]; rewrite ?size_cons in Hn.
  - destruct k as [|k]; [by left|]. destruct f1 as [|f1]; [done|]. rewrite app_nil_r in H1.
    cbn [replicate not_squish] in H1. rewrite decide_False in H1 by done. cbn [res_bind] in H1.
    rewrite decide_True in H1 by done. pose proof (count_nots_replicate_nil k) as Hc. by rewrite Hc in H1.
  - pose proof (is_prim_type p Hp) as (_ & _ & Hnn & Hno & _). pose proof (plan_size_pos p) as Hpos.
    apply not_squish_inv in H1 as (f & b & q & rest' & -> & Hq & _ & Hr & _); [|done..].
    apply or_squish_inv_node in H2 as (f' & acc' & Ha & Hr' & _); [|by rewrite Hq].
    destruct (nots_spec k (Prim [] p false)) as (Hw & Hb & Htok); [done|done|].
    assert (continues acc' t3) as Hc by (eapply (IH t3 l3); [lia|done..]).
    destruct (continues_after _ _ _ Ha Hw Hb Hc) as (e & He1 & He2 & He3). right; left. exists e.
    split_and!; [done|done|]. rewrite He3, Htok. by rewrite <- app_assoc.
  - done.
  - destruct k as [|k].
    + destruct f1 as [|f1]; [done|]. cbn [replicate app] in *. rewrite not_squish_prim in H1 by done.
      destruct (not_squish f1 l3) as [l3'|?|] eqn:E3; [|done..]. injection H1 as <-.
      destruct f2 as [|f2]; [done|]. cbn [or_squish] in H2. rewrite !bool_decide_false in H2 by done.
      cbn [orb res_bind] in H2. rewrite decide_True in H2 by done.
      destruct acc as [|a acc]; [done|].
      destruct (or_squish f2 l3' []) as [r2|?|] eqn:Er; [|done..]. cbn [res_bind] in H2.
      pose proof (plan_size_pos (or_node [] [])) as Hpos.
      assert (continues [] t3) as [->|[(e & He)|(? & _)]]; [eapply (IH t3 l3); [lia|done..]|..|done].
      * inversion Ht3; subst. apply not_squish_nil in E3. subst. apply or_squish_nil in Er. by subst.
      * right; right. split; [done|]. exists e. naive_solver.
    + apply not_squish_inv in H1 as (f & b & q & rest' & _ & _ & Ho & _); done.
  - rewrite size_expr_node in Hn.
    apply not_squish_inv in H1 as (f & b & q & rest' & -> & Hq & _ & Hr & Hs); [|done..].
    apply or_squish_inv_node in H2 as (f' & acc' & Ha & Hr' & Hs'); [|by rewrite Hq].
    destruct (Hs eq_refl) as (f3 & s & Es & ->). destruct (Hs' eq_refl) as (f4 & s' & Es').
    cbn [p_data0 expr_node set_data0] in Es, Es'.
    assert (continues [] t1) as [->|[(e1 & Hw1 & Hb1 & <-)|(? & _)]]; [eapply (IH t1 l1); [lia|done..]|..|done].
    { by inversion Ht1; subst. }
    destruct (nots_spec k (Paren e1)) as (Hw & Hb & Htok); [done|done|].
    assert (continues acc' t3) as Hc by (eapply (IH t3 l3); [lia|done..]).
    destruct (continues_after _ _ _ Ha Hw Hb Hc) as (e & He1 & He2 & He3). right; left. exists e.
    split_and!; [done|done|]. rewrite He3, Htok. cbn [tokens app]. rewrite <- !app_assoc. cbn [app]. by rewrite <- app_assoc.
Qed.

Lemma squish_accepts t plan : Forall token_node t → t ≠ [] → squish t = Ok plan → ∃ e, wf 3 e ∧ bare e ∧ tokens e = t.
Proof.
  intros Ht Hne H. unfold squish in H. destruct (paren_squish t) as [l|?|] eqn:E1; [|done..]. cbn [res_bind] in H.
  destruct (not_squish _ l) as [l'|?|] eqn:E2; [|done..]. cbn [res_bind] in H.
  apply squish_loop_parsed in E1 as (l0 & -> & Hl); [|done].
  destruct (accepted _ t l0 (Nat.le_refl _) Hl _ _ _ _ _ E2 H) as [->|[?|(? & _)]]; done.
Qed.

(** ** The nodes of a command line *)

(** What a creation function returns: a node of the plan and fewer words; a primary that
    outputs makes a node. *)
Definition creates (cr : creator) : Prop := ∀ g isok opt argv r rest g',
  cr g isok opt argv = Ok (r, rest, g') →
  (length rest <= length argv)%nat
  ∧ match r with Some p => token_node p | None => g' = g end.

Section creators.
Context (c_check : word → list word → bool).

Lemma creates_word t : is_prim (palloc t no_eval) = true → creates (c_word c_check t).
Proof.
  intros Ht g isok opt [|w argv] r rest g' H; [done|]. unfold c_word in H.
  destruct (c_check opt [w]); [|done]. injection H as <- <- <-. split; [simpl; lia|]. by left.
Qed.

(** A node made in one step. *)
Lemma creates_node (cr : creator) (p : word → PLAN) (h : globals → globals) :
  (∀ g isok opt argv, cr g isok opt argv = Ok (Some (p opt), argv, h g)) →
  (∀ opt, token_node (p opt)) → creates cr.
Proof. intros Hcr Hp g isok opt argv r rest g' H. rewrite Hcr in H. by injection H as <- <- <-. Qed.

Lemma exec_words_length ap b a plus rest :
  exec_words ap b = Ok (a, plus, rest) → (length rest <= length ap)%nat.
Proof.
  revert b a plus. induction ap as [|w ap IH]; intros b a plus H; [done|]. cbn [exec_words] in H.
  destruct (decide (w = str ";")); [|destruct (decide (w = str "+"))].
  - injection H as _ _ <-. simpl. lia.
  - destruct b; [injection H as _ _ <-; simpl; lia|].
    destruct (exec_words ap false) as [[[? ?] ?]|?|] eqn:E; [|done..]. injection H as _ _ <-. apply IH in E. simpl. lia.
  - destruct (exec_words ap _) as [[[? ?] ?]|?|] eqn:E; [|done..]. injection H as _ _ <-. apply IH in E. simpl. lia.
Qed.

Lemma execdir_words_length ap a rest : execdir_words ap = Ok (a, rest) → (length rest <= length ap)%nat.
Proof.
  revert a. induction ap as [|w ap IH]; intros a H; [done|]. cbn [execdir_words] in H.
  destruct (peek w =? ch ";"); [injection H as _ <-; simpl; lia|].
  destruct (execdir_words ap) as [[? ?]|?|]; [|done..]. injection H as _ <-. specialize (IH _ eq_refl). simpl. lia.
Qed.

Lemma creates_exec : creates (c_exec c_check).
Proof.
  intros g isok opt argv r rest g' H. unfold c_exec in H.
  destruct (exec_words argv false) as [[[a plus] rest']|?|] eqn:E; [|done..]. cbn [res_bind] in H.
  destruct (isok && plus); [done|]. destruct (c_check opt a); [|done]. injection H as <- <- <-.
  split; [by eapply exec_words_length|by left].
Qed.

Lemma creates_execdir : creates c_execdir.
Proof.
  intros g isok opt argv r rest g' H. unfold c_execdir in H.
  destruct (execdir_words argv) as [[a rest']|?|] eqn:E; [|done..]. injection H as <- <- <-.
  split; [by eapply execdir_words_length|by left].
Qed.

Lemma creates_exit : creates c_exit.
Proof.
  intros g isok opt [|w argv] r rest g' H; unfold c_exit in H.
  - injection H as <- <- <-. split; [done|by left].
  - destruct (find_parsenum w); [|done..]. injection H as <- <- <-. split; [simpl; lia|by left].
Qed.

Lemma creates_fprint : creates (c_fprint c_check).
Proof.
  intros g isok opt argv r rest g' H. unfold c_fprint in H.
  pose proof (creates_word N_FPRINT eq_refl _ _ _ _ _ _ _ H) as [? Hr]. split; [done|].
  destruct r; [done|]. unfold c_word in H. destruct argv as [|w argv]; [done|]. by destruct (c_check opt [w]).
Qed.

Lemma creates_null : creates c_null.
Proof. by intros g isok opt argv r rest g' [= <- <- <-]. Qed.

Lemma options_create : Forall (λ o, creates (create o)) (options c_check).
Proof.
  repeat apply Forall_cons_2; try apply Forall_nil_2; cbn [create];
    first [ apply creates_null | apply creates_exec | apply creates_execdir | apply creates_exit
          | apply creates_fprint | by apply creates_word
          | eapply creates_node; [intros; reflexivity|]; intros opt; first [by left | right; by auto 6] ].
Qed.

Lemma find_create_creates g argv r rest g' :
  find_create c_check g argv = Ok (r, rest, g') →
  (length rest < length argv)%nat ∧ match r with Some p => token_node p | None => g' = g end.
Proof.
  intros H. unfold find_create in H. destruct argv as [|opt argv]; [done|].
  destruct (find_option c_check opt) as [o|] eqn:E; [|done].
  destruct (arg o && bool_decide (argv = [])); [done|].
  apply find_some in E as [Ho%list_elem_of_In _].
  pose proof (proj1 (Forall_forall _ _) options_create o Ho _ _ _ _ _ _ _ H) as [? ?].
  split; [simpl; lia|done].
Qed.

(** The loop ends, with nodes of these forms; if it has seen output there is one. *)
Lemma create_loop_nodes fuel g argv l g' :
  create_loop c_check fuel g argv = Ok (l, g') →
  Forall token_node l ∧ (l = [] → g' = g).
Proof.
  revert g argv l g'. induction fuel as [|fuel IH]; intros g argv l g' H; [done|]. cbn [create_loop] in H.
  destruct argv as [|w argv]; [by injection H as <- <-|].
  destruct (find_create c_check g (w :: argv)) as [[[r rest] g1]|?|] eqn:E; [|done..]. cbn [res_bind] in H.
  apply find_create_creates in E as [_ Hr].
  destruct (create_loop c_check fuel g1 rest) as [[l' g2]|?|] eqn:E2; [|done..]. cbn [res_bind] in H.
  apply IH in E2 as [Hl Hg]. injection H as <- <-. destruct r as [p|].
  - split; [by constructor|done].
  - subst g1. done.
Qed.

(** No creation function faults on the words [find_create] gives it. *)
Lemma exec_words_no_fault ap b : exec_words ap b ≠ Fault.
Proof.
  revert b. induction ap as [|w ap IH]; intros b; [done|]. cbn [exec_words].
  destruct (decide (w = str ";")); [done|]. destruct (decide (w = str "+")); [destruct b; [done|]|];
    (apply res_bind_no_fault; [apply IH|by intros [[? ?] ?] _]).
Qed.

Lemma execdir_words_no_fault ap : execdir_words ap ≠ Fault.
Proof.
  induction ap as [|w ap IH]; [done|]. cbn [execdir_words]. destruct (peek w =? ch ";"); [done|].
  apply res_bind_no_fault; [done|]. by intros [? ?] _.
Qed.

Lemma find_parsenum_no_fault w : find_parsenum w ≠ Fault.
Proof. unfold find_parsenum. destruct (strtoimax _ 10) as [[v e] r]. by repeat case_match. Qed.

Lemma options_no_fault : Forall (λ o, ∀ g isok opt argv,
  (arg o = true → argv ≠ []) → create o g isok opt argv ≠ Fault) (options c_check).
Proof.
  assert (∀ t g isok opt argv, (true = true → argv ≠ []) → c_word c_check t g isok opt argv ≠ Fault) as Hword.
  { intros t g isok opt [|w argv] Hne; [by destruct (Hne eq_refl)|]. cbn. by destruct (c_check opt [w]). }
  assert (∀ g isok opt argv, c_exec c_check g isok opt argv ≠ Fault) as Hexec.
  { intros g isok opt argv. unfold c_exec. apply res_bind_no_fault; [apply exec_words_no_fault|].
    intros [[a plus] rest] _. destruct (isok && plus); [done|]. by destruct (c_check opt a). }
  assert (∀ g isok opt argv, c_execdir g isok opt argv ≠ Fault) as Hdir.
  { intros g isok opt argv. unfold c_execdir. apply res_bind_no_fault; [apply execdir_words_no_fault|].
    by intros [a rest] _. }
  assert (∀ g isok opt argv, c_exit g isok opt argv ≠ Fault) as Hexit.
  { intros g isok opt [|w argv]; [done|]. cbn [c_exit].
    apply res_bind_no_fault; [apply find_parsenum_no_fault|done]. }
  repeat apply Forall_cons_2; try apply Forall_nil_2; cbn [create arg]; intros g isok opt argv Hne;
    first [ done | by apply Hword | by apply Hexec | by apply Hdir | by apply Hexit ].
Qed.

Lemma create_loop_no_fault fuel g argv :
  (length argv < fuel)%nat → create_loop c_check fuel g argv ≠ Fault.
Proof.
  revert g argv. induction fuel as [|fuel IH]; intros g argv Hf; [lia|]. cbn [create_loop].
  destruct argv as [|w argv]; [done|].
  apply res_bind_no_fault.
  - unfold find_create. destruct (find_option c_check w) as [o|] eqn:Eo; [|done].
    destruct (arg o && bool_decide (argv = [])) eqn:Ea; [done|].
    apply find_some in Eo as [Ho%list_elem_of_In _].
    apply (proj1 (Forall_forall _ _) options_no_fault o Ho). intros Harg ->. by rewrite Harg in Ea.
  - intros [[r rest] g1] E. apply find_create_creates in E as [Hl _].
    apply res_bind_no_fault; [apply IH; simpl in *; lia|]. by intros [l g2] _.
Qed.
End creators.

Lemma with_print_nodes g l : Forall token_node l → (l = [] → isoutput g = false) →
  Forall token_node (with_print g l) ∧ with_print g l ≠ [].
Proof.
  intros Hl Hg. unfold with_print. destruct (isoutput g).
  - split; [done|]. intros ->. by specialize (Hg eq_refl).
  - assert (token_node print_node ∧ token_node openparen ∧ token_node closeparen) as (? & ? & ?).
    { split_and!; [by left|right; by left|right; right; by left]. }
    destruct l as [|p l]; [by repeat constructor|]. split; [|done]. constructor; [done|].
    apply Forall_app. split; [done|by repeat constructor].
Qed.

(** Parentheses that match; [d] are open. *)
Fixpoint matched (d : nat) (l : list PLAN) : bool :=
  match l with
  | [] => (d =? 0)%nat
  | p :: l => match type p with
              | N_OPENPAREN => matched (S d) l
              | N_CLOSEPAREN => match d with O => false | S d => matched d l end
              | _ => matched d l
              end
  end.

Lemma parsed_matched t l : parsed t l → ∀ d r, matched d (t ++ r) = matched d r.
Proof.
  induction 1 as [|p t l Hp Hv Ht IH|t l Ht IH|t l Ht IH|t1 l1 t l Hne Ht1 IH1 Ht IH]; intros d r;
    cbn [app matched]; [done|..]; try (simpl; by rewrite IH).
  - unfold is_prim in Hp. rewrite IH. by destruct (type p).
  - rewrite <- app_assoc. cbn [type openparen palloc]. rewrite IH1. cbn [app matched type closeparen palloc]. apply IH.
Qed.

(** What matches ends at the first parenthesis that closes too much. *)
Lemma matched_unique l1 : ∀ d l2 r1 r2, matched d l1 = true → matched d l2 = true →
  l1 ++ closeparen :: r1 = l2 ++ closeparen :: r2 → l1 = l2.
Proof.
  induction l1 as [|p l1 IH]; intros d [|q l2] r1 r2 H1 H2 E; cbn [app] in E; [done|..].
  - injection E as <- _. simpl in *. apply Nat.eqb_eq in H1 as ->. done.
  - injection E as -> _. simpl in *. apply Nat.eqb_eq in H2 as ->. done.
  - injection E as <- E. cbn [matched] in *. f_equal.
    destruct (type p); try by eapply IH. destruct d; [done|by eapply IH].
Qed.

Lemma squish_bracketed l plan : Forall token_node l → matched 0 l = true →
  squish (openparen :: l ++ [closeparen; print_node]) = Ok plan →
  ∃ e, wf 3 e ∧ bare e ∧ tokens e = l.
Proof.
  intros Hl Hm H. unfold squish in H.
  assert (token_node print_node ∧ token_node openparen ∧ token_node closeparen) as (? & ? & ?).
  { split_and!; [by left|right; by left|right; right; by left]. }
  destruct (paren_squish _) as [l0|?|] eqn:E1; [|done..]. cbn [res_bind] in H.
  destruct (not_squish _ l0) as [l'|?|] eqn:E2; [|done..]. cbn [res_bind] in H.
  apply squish_loop_parsed in E1 as (l1 & -> & Hp);
    [|constructor; [done|]; apply Forall_app; split; [done|by repeat constructor]].
  cbn [app] in E2. inversion Hp as [|? ? ? Hop| | |t1 s t r Hne Ht1 Ht E]; subst; [done|].
  assert (t1 = l) as ->.
  { eapply (matched_unique t1 0 l); [|done|done].
    pose proof (parsed_matched t1 s Ht1 0 []) as HM. by rewrite app_nil_r in HM. }
  apply (not_squish_inv _ 0) in E2 as (f & b & q & rest' & -> & Hq & _ & Hr & Hs); [|done..].
  apply or_squish_inv_node in H as (f' & acc' & _ & _ & Hs'); [|by rewrite Hq].
  destruct (Hs eq_refl) as (f3 & s3 & Es & ->). destruct (Hs' eq_refl) as (f4 & s4 & Es').
  destruct (accepted _ l s (Nat.le_refl _) Ht1 _ _ _ _ _ Es Es') as [->|[?|(? & _)]]; [|done..].
  by inversion Ht1; subst.
Qed.

(** C33.  When [find_formplan] returns a plan, the nodes it has made of the words (an
    [-a], wherever it stands, makes none), bracketed for the implied -print, are those
    of an expression with the precedences of the manual; when the parentheses of the
    nodes match, the nodes themselves are those of an expression [e0], and the
    whole is [e0], or [( e0 ) -print] when no primary outputs.  Running the plan on
    an entry evaluates that expression from left to right with short circuits and
    never reaches the invalid function pointer of a parenthesis.  Unmatched
    parentheses are accepted when the brackets complete them
    ([unbalanced_parens_accepted]). *)
Theorem find_formplan_accepts (c_check : word → list word → bool) (argv : list word) (plan : list PLAN) :
  find_formplan c_check argv = Ok plan →
  ∃ l g e, create_loop c_check (S (length argv)) (mkGlobals false false) argv = Ok (l, g)
  ∧ wf 3 e ∧ tokens e = with_print g l
  ∧ (l ≠ [] → matched 0 l = true → ∃ e0, wf 3 e0 ∧ tokens e0 = l
       ∧ e = if isoutput g then e0 else And false (Paren e0) (Prim [] print_node true))
  ∧ ∀ (W : Type) (primary : word → list word → W → bool * W) (w : W), ∃ rval,
      visit primary plan w None = Ok (rval, (meaning primary e w).2).
Proof.
  intros H. destruct (create_loop c_check (S (length argv)) (mkGlobals false false) argv) as [[l g]|?|] eqn:E.
  2-3: unfold find_formplan in H; by rewrite E in H.
  rewrite (find_formplan_nodes _ _ _ _ E) in H. exists l, g.
  apply create_loop_nodes in E as [Hl Hg].
  destruct (with_print_nodes g l Hl) as [Ht Hne]; [intros ->; by rewrite (Hg eq_refl)|].
  assert (∃ e, wf 3 e ∧ bare e ∧ tokens e = with_print g l
    ∧ (l ≠ [] → matched 0 l = true → ∃ e0, wf 3 e0 ∧ tokens e0 = l
       ∧ e = if isoutput g then e0 else And false (Paren e0) (Prim [] print_node true)))
    as (e & Hwf & Hb & He & Hm).
  { destruct (squish_accepts _ _ Ht Hne H) as (e & Hwf & Hb & He).
    destruct (decide (isoutput g = false ∧ l ≠ [] ∧ matched 0 l = true)) as [(Hg' & Hl0 & Hm)|Hn].
    - unfold with_print in *. rewrite Hg' in *. destruct l as [|p l]; [done|].
      destruct (squish_bracketed (p :: l) plan Hl Hm H) as (e0 & Hw0 & Hb0 & He0).
      exists (And false (Paren e0) (Prim [] print_node true)).
      split_and!; [by repeat split; simpl; auto|by repeat split|simpl; rewrite He0; by rewrite <- app_assoc|].
      intros _ _. by exists e0.
    - exists e. split_and!; [done..|]. intros Hl0 Hm. unfold with_print in He.
      destruct (isoutput g) eqn:Eg; [by exists e|]. destruct Hn. by auto. }
  exists e. split_and!; [done..|].
  intros W primary w. rewrite <- He, squish_expr in H by done. injection H as <-.
  apply (visit_spec primary _ w None (meaning primary e w).1). rewrite run_compiled by done.
  by destruct (meaning primary e w).
Qed.

Example find_formplan_accepts_witness :
  ∃ e, wf 3 e ∧ length (tokens e) = 6%nat
  ∧ ∀ w : nat, ∃ rval, visit (λ opt _ w, if decide (opt = str "-print") then (true, S w) else (true, w))
      [expr_node [mkPlan N_NAME (f_primary (str "-name")) 0 [str "x"] 0 [] []; not_node [palloc N_EMPTY (f_primary (str "-empty"))]]; print_node] w None
      = Ok (rval, (meaning (λ opt _ w, if decide (opt = str "-print") then (true, S w) else (true, w)) e w).2).
Proof.
  destruct (find_formplan_accepts (λ _ _, true) [str "-name"; str "x"; str "!"; str "-empty"]
    [expr_node [mkPlan N_NAME (f_primary (str "-name")) 0 [str "x"] 0 [] []; not_node [palloc N_EMPTY (f_primary (str "-empty"))]]; print_node]
    eq_refl) as (l & g & e & Hl & Hwf & Ht & _ & Hv).
  exists e. split; [done|]. split.
  - rewrite Ht. vm_compute in Hl. injection Hl as <- <-. reflexivity.
  - intros w. apply Hv.
Defined.

(** Parentheses that do not match are accepted when those around the whole expression
    complete them. *)
Lemma unbalanced_parens_accepted :
  ∃ plan, find_formplan (λ _ _, true) [str "-empty"; str ")"; str "("; str "-nouser"] = Ok plan.
Proof. by eexists. Qed.

(** An [-a] makes no node, so it is accepted where no conjunction is. *)
Lemma misplaced_and_accepted :
  find_formplan (λ _ _, true) [str "-a"; str "-empty"; str "-o"; str "-a"; str "-nouser"; str "-a"]
  = find_formplan (λ _ _, true) [str "-empty"; str "-o"; str "-nouser"].
Proof. reflexivity. Qed.

(** [-exit] ends the traversal only at the top level of the plan. *)
Lemma exit_in_parens_ignored :
  ∃ plan, find_formplan (λ _ _, true) [str "("; str "-exit"; str "3"; str ")"] = Ok plan
  ∧ visit (λ _ _ w, (true, w)) plan tt None = Ok (None, tt).
Proof. eexists. split; vm_compute; reflexivity. Qed.
Lemma exit_at_top :
  ∃ plan, find_formplan (λ _ _, true) [str "-exit"; str "3"] = Ok plan
  ∧ visit (λ _ _ w, (true, w)) plan tt None = Ok (Some 3, tt).
Proof. eexists. split; vm_compute; reflexivity. Qed.

(** The clean-up that runs the last batch of [-exec ... +] does not go below a not. *)
Lemma find_traverse_skips_not :
  find_formplan (λ _ _, true) [str "!"; str "-exec"; str "ls"; str "{}"; str "+"]
  = Ok [not_node [mkPlan N_EXEC (f_primary (str "-exec")) F_PLUSSET [str "ls"; str "{}"] 0 [] []]]
  ∧ ∀ fuel p, p ∈ find_traverse fuel [not_node [p]] → type p = N_NOT.
Proof.
  split; [reflexivity|]. intros [|fuel] p Hp; [by apply elem_of_nil in Hp|]. cbn [find_traverse] in Hp.
  assert (find_traverse fuel [] = []) as E by (by destruct fuel). rewrite E in Hp.
  rewrite bool_decide_false in Hp by done. rewrite bool_decide_false in Hp by done. cbn in Hp.
  by apply list_elem_of_singleton in Hp as ->.
Qed.

(** ** Termination *)

Lemma yank_length fuel :
  (∀ plan x rest, yankexpr fuel plan = Ok (Some (x, rest)) → (length rest < length plan)%nat)
  ∧ (∀ plan acc l rest, sub_loop fuel plan acc = Ok (l, rest) → (length rest < length plan)%nat).
Proof.
  induction fuel as [|fuel [IHy IHs]]; [done|]. split.
  - intros [|p plan] x rest H; [done|]. cbn [yankexpr] in H. destruct (decide (type p = N_OPENPAREN)).
    + destruct (sub_loop fuel plan []) as [[l r]|?|] eqn:E; [|done..]. apply IHs in E. cbn [res_bind] in H.
      destruct p. injection H as _ <-. simpl. lia.
    + injection H as _ <-. simpl. lia.
  - intros plan acc l rest H. cbn [sub_loop] in H.
    destruct (yankexpr fuel plan) as [[[x r]|]|?|] eqn:E; [|done..]. apply IHy in E. cbn [res_bind] in H.
    destruct (decide (type x = N_CLOSEPAREN)).
    + destruct acc; [done|]. by injection H as _ <-.
    + apply IHs in H. lia.
Qed.

Lemma yank_no_fault fuel :
  (∀ plan, (2 * length plan < fuel)%nat → yankexpr fuel plan ≠ Fault)
  ∧ (∀ plan acc, (2 * length plan + 1 < fuel)%nat → sub_loop fuel plan acc ≠ Fault).
Proof.
  induction fuel as [|fuel [IHy IHs]]; [split; intros; lia|]. split.
  - intros [|p plan] Hf; [done|]. cbn [yankexpr length] in *. destruct (decide (type p = N_OPENPAREN)); [|done].
    apply res_bind_no_fault; [apply IHs; lia|]. intros [l r] _. by destruct p.
  - intros plan acc Hf. cbn [sub_loop]. apply res_bind_no_fault; [apply IHy; lia|].
    intros [[x r]|] E; [|done]. apply yank_length in E. destruct (decide (type x = N_CLOSEPAREN)).
    + by destruct acc.
    + apply IHs. lia.
Qed.

Lemma squish_loop_no_fault fuel plan acc : (2 * length plan + 1 < fuel)%nat → squish_loop fuel plan acc ≠ Fault.
Proof.
  revert plan acc. induction fuel as [|fuel IH]; intros plan acc Hf; [lia|]. cbn [squish_loop].
  apply res_bind_no_fault; [apply yank_no_fault; lia|].
  intros [[x r]|] E; [|done]. apply yank_length in E. destruct (decide (type x = N_CLOSEPAREN)); [done|].
  apply IH. lia.
Qed.

Lemma size_data0 p : (size (p_data0 p) < plan_size p)%nat.
Proof. destruct p. unfold size. simpl. lia. Qed.

Lemma count_nots_size l : (size (count_nots l).2 <= size l)%nat.
Proof.
  induction l as [|p l IH]; [done|]. cbn [count_nots]. destruct (decide (type p = N_NOT)); [|done].
  destruct (count_nots l) as [n l']. rewrite size_cons. simpl in *. lia.
Qed.

Lemma not_squish_no_fault fuel l : (2 * size l < fuel)%nat → not_squish fuel l ≠ Fault.
Proof.
  revert l. induction fuel as [|fuel IH]; intros l Hf; [lia|]. destruct l as [|p l]; [done|].
  cbn [not_squish]. rewrite size_cons in Hf. pose proof (size_data0 p) as Hp.
  apply res_bind_no_fault.
  { destruct (decide (type p = N_EXPR)); [|done]. apply res_bind_no_fault; [apply IH; lia|done]. }
  intros next _. destruct (decide (type next = N_NOT)).
  - pose proof (count_nots_size l) as Hc. destruct (count_nots l) as [n l']. cbn [snd] in Hc.
    destruct l' as [|node l']; [done|]. rewrite size_cons in Hc. pose proof (plan_size_pos node) as Hn.
    destruct (decide (type node = N_OR)); [done|]. apply res_bind_no_fault.
    + destruct (decide (type node = N_EXPR)); [|done]. apply IH. unfold size in *. simpl in *. lia.
    + intros nodes _. apply res_bind_no_fault; [apply IH; lia|done].
  - apply res_bind_no_fault; [apply IH; lia|done].
Qed.

Lemma or_squish_no_fault fuel l acc : (2 * size l < fuel)%nat → or_squish fuel l acc ≠ Fault.
Proof.
  revert l acc. induction fuel as [|fuel IH]; intros l acc Hf; [lia|]. destruct l as [|p l]; [done|].
  cbn [or_squish]. rewrite size_cons in Hf. pose proof (size_data0 p) as Hp.
  apply res_bind_no_fault.
  { destruct (bool_decide _ || _); [|done]. apply res_bind_no_fault; [apply IH; lia|done]. }
  intros next _. destruct (decide (type next = N_OR)); [|apply IH; lia].
  destruct acc; [done|]. apply res_bind_no_fault; [apply IH; lia|]. intros [|? ?] _; done.
Qed.

(** A result or an error, as opposed to a fault or fuel that runs out. *)
Definition ends {A} (r : res A) : Prop := (∃ a, r = Ok a) ∨ (∃ e, r = Err e).

Lemma no_fault_ends {A} (r : res A) : r ≠ Fault → ends r.
Proof. destruct r; [left|right|]; eauto. done. Qed.

(** [find_formplan] ends for every command line, with a plan or with the exit of an
    error, and never reads a word past the end. *)
Theorem find_formplan_terminates (c_check : word → list word → bool) (argv : list word) :
  ends (find_formplan c_check argv).
Proof.
  apply no_fault_ends. unfold find_formplan.
  apply res_bind_no_fault; [apply create_loop_no_fault; lia|].
  intros [l g] _. unfold squish. apply res_bind_no_fault; [apply squish_loop_no_fault; lia|].
  intros l1 _. apply res_bind_no_fault; [apply not_squish_no_fault; lia|].
  intros l2 _. apply or_squish_no_fault. lia.
Qed.
