(* ===== verification/Tsort.v ===== *)
(** * tsort: usr.bin/tsort/tsort.c

    The graph that the program builds from pairs of words, the removal of the nodes nothing
    points to, and the search for a cycle when there is none.  A node is known by its name:
    the hash table holds one node of each.  [n_flags] keeps its bits.  What is printed is
    the list of the lines of standard output and of the cycles reported to standard error.
    The options are -l, -q and -r; the debugging output of -d is not modelled. *)

From stdpp Require Import gmap.
From S2P Require Import Prelude Libc.

(** ** Data *)

Notation name := (list Z).

Definition NF_MARK : Z := 1.
Definition NF_ACYCLIC : Z := 2.
Definition NF_NODEST : Z := 4.

(** [n_next] and [n_prevp] are the order of the list [graph]. *)
Record NODE := mkNode { n_arcs : list name; n_refcnt : Z; n_flags : Z }.

Inductive event := Line (n : name) | Cycle (names : list name).

(** The global variables; [cycle_buf] and [longest_cycle] are [None] before they are
    allocated, their entries NULL before they are set. *)
Record tsort_world := mkWorld {
  graph : list name;
  nodes : gmap name NODE;
  cycle_buf : option (list (option name));
  longest_cycle : list (option name);
  output : list event }.

Definition set_graph (w : tsort_world) (g : list name) : tsort_world :=
  mkWorld g (nodes w) (cycle_buf w) (longest_cycle w) (output w).
Definition set_nodes (w : tsort_world) (m : gmap name NODE) : tsort_world :=
  mkWorld (graph w) m (cycle_buf w) (longest_cycle w) (output w).
Definition put (w : tsort_world) (e : event) : tsort_world :=
  mkWorld (graph w) (nodes w) (cycle_buf w) (longest_cycle w) (output w ++ [e]).

Definition node (w : tsort_world) (n : name) : res NODE :=
  match nodes w !! n with Some x => Ok x | None => Fault end.

(** [n->n_flags = f(n->n_flags)]. *)
Definition set_flags (w : tsort_world) (n : name) (f : Z → Z) : res tsort_world :=
  let* x := node w n in
  Ok (set_nodes w (<[n := mkNode (n_arcs x) (n_refcnt x) (f (n_flags x))]> (nodes w))).

(** ** Building the graph *)

Definition get_node (w : tsort_world) (n : name) : tsort_world :=
  match nodes w !! n with
  | Some _ => w
  | None => mkWorld (n :: graph w) (<[n := mkNode [] 0 0]> (nodes w)) (cycle_buf w) (longest_cycle w) (output w)
  end.

Definition add_arc (w : tsort_world) (s1 s2 : name) : res tsort_world :=
  let w := get_node w s1 in
  if decide (s1 = s2) then Ok w
  else
    let w := get_node w s2 in
    let* n1 := node w s1 in
    let* n2 := node w s2 in
    if decide (s2 ∈ n_arcs n1) then Ok w
    else Ok (set_nodes w
      (<[s2 := mkNode (n_arcs n2) (n_refcnt n2 + 1) (n_flags n2)]>
        (<[s1 := mkNode (n_arcs n1 ++ [s2]) (n_refcnt n1) (n_flags n1)]> (nodes w)))).

(** The words of the input; a NUL ends the name a word gives. *)
Fixpoint get_words (cs w : list Z) : list name :=
  match cs with
  | [] => match w with [] => [] | _ => [cstr w] end
  | c :: cs =>
      if isspace c then match w with [] => get_words cs [] | _ => cstr w :: get_words cs [] end
      else get_words cs (w ++ [c])
  end.

Fixpoint read_pairs (reverse : bool) (ws : list name) (w : tsort_world) : res tsort_world :=
  match ws with
  | [] => Ok w
  | [_] => Err 1
  | a :: b :: ws => let* w := if reverse then add_arc w b a else add_arc w a b in read_pairs reverse ws w
  end.

(** ** Removing nodes *)

(** [--( *np)->n_refcnt], which wraps at 0. *)
Definition drop_ref (w : tsort_world) (n : name) : res tsort_world :=
  let* x := node w n in
  if n_refcnt x =? 0 then Fault
  else Ok (set_nodes w (<[n := mkNode (n_arcs x) (n_refcnt x - 1) (n_flags x)]> (nodes w))).

Fixpoint drop_refs (w : tsort_world) (l : list name) : res tsort_world :=
  match l with [] => Ok w | n :: l => let* w := drop_ref w n in drop_refs w l end.

Definition remove_node (w : tsort_world) (n : name) : res tsort_world :=
  let w := put w (Line n) in
  let* x := node w n in
  let* w := drop_refs w (n_arcs x) in
  let* x := node w n in
  let w := set_nodes w (<[n := mkNode [] (n_refcnt x) (n_flags x)]> (nodes w)) in
  Ok (set_graph w (filter (λ m, m ≠ n) (graph w))).

(** The [for] loop over the nodes that remain, from [l] on: the removal of a node leaves
    the nodes after it in place. *)
Fixpoint remove_pass (l : list name) (cnt : nat) (w : tsort_world) : res (nat * tsort_world) :=
  match l with
  | [] => Ok (cnt, w)
  | n :: l =>
      let* x := node w n in
      if n_refcnt x =? 0 then let* w := remove_node w n in remove_pass l (S cnt) w
      else remove_pass l cnt w
  end.

(** [do ... while (graph != NULL && cnt)]. *)
Fixpoint remove_loop (fuel : nat) (w : tsort_world) : res tsort_world :=
  match fuel with
  | O => Fault
  | S fuel =>
      let* (cnt, w) := remove_pass (graph w) 0 w in
      match graph w, cnt with
      | _ :: _, S _ => remove_loop fuel w
      | _, _ => Ok w
      end
  end.

(** ** Finding a cycle *)

Definition clear_cycle (w : tsort_world) : res tsort_world :=
  foldl (λ r n, let* w := r in set_flags w n (λ f, f .&~ NF_NODEST)) (Ok w) (graph w).

(** [cycle_buf[depth] = n]. *)
Definition set_cycle (w : tsort_world) (depth : nat) (n : name) : res tsort_world :=
  match cycle_buf w with
  | Some b => if (depth <? length b)%nat
              then Ok (mkWorld (graph w) (nodes w) (Some (<[depth := Some n]> b)) (longest_cycle w) (output w))
              else Fault
  | None => Fault
  end.

(** [memcpy(longest_cycle, cycle_buf, len * sizeof(NODE * ))]. *)
Definition save_cycle (w : tsort_world) (len : nat) : res tsort_world :=
  match cycle_buf w with
  | Some b => if (len <=? length b)%nat && (len <=? length (longest_cycle w))%nat
              then Ok (mkWorld (graph w) (nodes w) (cycle_buf w) (take len b ++ drop len (longest_cycle w)) (output w))
              else Fault
  | None => Fault
  end.

(** The loop of [find_cycle] over the arcs [np] that are left; [rec n len w] is its call for
    the next node, at the next depth. *)
Fixpoint arc_loop (rec : name → nat → tsort_world → res (nat * tsort_world)) (longest : bool) (to : name)
    (depth : nat) (np : list name) (longest_len : nat) (w : tsort_world) : res (nat * tsort_world) :=
  match np with
  | [] => Ok (longest_len, w)
  | n :: np =>
      let* w := set_cycle w depth n in
      if decide (n = to) then
        if (longest_len <? depth + 1)%nat then
          let* w := save_cycle w (depth + 1) in arc_loop rec longest to depth np (depth + 1)%nat w
        else arc_loop rec longest to depth np longest_len w
      else
        let* x := node w n in
        if has (n_flags x) (NF_MARK .| NF_ACYCLIC .| NF_NODEST)
        then arc_loop rec longest to depth np longest_len w
        else
          let* (len, w) := rec n longest_len w in
          let* w := if (len =? 0)%nat then set_flags w n (λ f, f .| NF_NODEST) else Ok w in
          let longest_len := if (longest_len <? len)%nat then len else longest_len in
          if (0 <? len)%nat && negb longest then Ok (longest_len, w)
          else arc_loop rec longest to depth np longest_len w
  end.

(** [find_cycle(from, to, longest_len, depth)]: the result and the world.  [debug] is 0: -d,
    which makes it print every step, is not among the options modelled. *)
Fixpoint find_cycle (fuel : nat) (longest : bool) (to : name) (depth : nat) (from : name)
    (longest_len : nat) (w : tsort_world) : res (nat * tsort_world) :=
  match fuel with
  | O => Fault
  | S fuel =>
      let* x := node w from in
      if has (n_flags x) (NF_NODEST .| NF_MARK .| NF_ACYCLIC) then Ok (0%nat, w)
      else
        let* w := set_flags w from (λ f, f .| NF_MARK) in
        let* (longest_len, w) :=
          arc_loop (find_cycle fuel longest to (depth + 1)) longest to depth (n_arcs x) longest_len w in
        let* w := set_flags w from (λ f, f .&~ NF_MARK) in
        Ok (longest_len, w)
  end.

(** The names [longest_cycle[0 .. cnt)]. *)
Fixpoint cycle_names (l : list (option name)) (cnt : nat) : res (list name) :=
  match cnt, l with
  | O, _ => Ok []
  | S cnt, Some n :: l => let* r := cycle_names l cnt in Ok (n :: r)
  | _, _ => Fault
  end.

(** The second loop of [tsort], from the node [l] begins with: whether it left with a
    [break]. *)
Fixpoint cycle_loop (longest quiet : bool) (l : list name) (w : tsort_world) : res (bool * tsort_world) :=
  match l with
  | [] => Ok (false, w)
  | n :: l =>
      let* x := node w n in
      if has (n_flags x) NF_ACYCLIC then cycle_loop longest quiet l w
      else
        let* (cnt, w) := find_cycle (S (length (graph w))) longest n 0 n 0 w in
        if negb (cnt =? 0)%nat then
          let* w := if quiet then Ok w
                    else let* c := cycle_names (longest_cycle w) cnt in Ok (put w (Cycle c)) in
          let* w := remove_node w n in
          let* w := clear_cycle w in
          Ok (true, w)
        else
          let* w := set_flags w n (λ f, f .| NF_ACYCLIC) in
          let* w := clear_cycle w in
          cycle_loop longest quiet l w
  end.

Definition alloc_cycle (w : tsort_world) : tsort_world :=
  match cycle_buf w with
  | Some _ => w
  | None => let cnt := length (graph w) in
            mkWorld (graph w) (nodes w) (Some (replicate cnt None)) (replicate cnt None) (output w)
  end.

Definition INTERNAL_ERROR : Z := 1.

(** [while (graph != NULL)]. *)
Fixpoint tsort_loop (fuel : nat) (longest quiet : bool) (w : tsort_world) : res tsort_world :=
  match fuel with
  | O => Fault
  | S fuel =>
      match graph w with
      | [] => Ok w
      | _ =>
          let* w := remove_loop (S (length (graph w))) w in
          match graph w with
          | [] => Ok w
          | _ =>
              let w := alloc_cycle w in
              let* (found, w) := cycle_loop longest quiet (graph w) w in
              if found : bool then tsort_loop fuel longest quiet w else Err INTERNAL_ERROR
          end
      end
  end.

Definition tsort (longest quiet : bool) (w : tsort_world) : res tsort_world :=
  tsort_loop (S (length (graph w))) longest quiet w.

(** [main], after the options. *)
Definition main (longest quiet reverse : bool) (input : list Z) : res (list event) :=
  let* w := read_pairs reverse (get_words input []) (mkWorld [] ∅ None [] []) in
  let* w := tsort longest quiet w in
  Ok (output w).
