(* ===== verification/TsortSpec.v ===== *)
(** * tsort: the order of the output and the end of the program

    The graph as a set of nodes that remain, and the theorems that the program of Tsort
    prints every name once, after the names that must precede it unless it breaks a cycle
    there, and that it never fails to find the cycle it needs. *)

From stdpp Require Import gmap.
From S2P Require Import Prelude Libc Tsort.

(** ** Flags *)

(** The three flags of a node as tests. *)
Definition marked (f : Z) : bool := Z.testbit f 0.
Definition acyclic (f : Z) : bool := Z.testbit f 1.
Definition nodest (f : Z) : bool := Z.testbit f 2.

Lemma has_MARK f : has f NF_MARK = marked f.
Proof. by apply (has_bit f 0). Qed.
Lemma has_ACYCLIC f : has f NF_ACYCLIC = acyclic f.
Proof. by apply (has_bit f 1). Qed.
Lemma has_NODEST f : has f NF_NODEST = nodest f.
Proof. by apply (has_bit f 2). Qed.

Lemma set_bit_spec f k j : 0 <= k → 0 <= j → Z.testbit (f .| 2 ^ k) j = Z.testbit f j || (k =? j).
Proof. intros. by rewrite Z.lor_spec, Z.pow2_bits_eqb. Qed.
Lemma clear_bit_spec f k j : 0 <= k → 0 <= j → Z.testbit (f .&~ 2 ^ k) j = Z.testbit f j && negb (k =? j).
Proof. intros. by rewrite Z.ldiff_spec, Z.pow2_bits_eqb. Qed.

Lemma set_MARK f : marked (f .| NF_MARK) = true ∧ acyclic (f .| NF_MARK) = acyclic f ∧ nodest (f .| NF_MARK) = nodest f.
Proof. unfold marked, acyclic, nodest. change NF_MARK with (2 ^ 0). rewrite !set_bit_spec by lia. by rewrite orb_true_r, !orb_false_r. Qed.
Lemma clear_MARK f : marked (f .&~ NF_MARK) = false ∧ acyclic (f .&~ NF_MARK) = acyclic f ∧ nodest (f .&~ NF_MARK) = nodest f.
Proof. unfold marked, acyclic, nodest. change NF_MARK with (2 ^ 0). rewrite !clear_bit_spec by lia. by rewrite andb_false_r, !andb_true_r. Qed.
Lemma set_NODEST f : marked (f .| NF_NODEST) = marked f ∧ acyclic (f .| NF_NODEST) = acyclic f ∧ nodest (f .| NF_NODEST) = true.
Proof. unfold marked, acyclic, nodest. change NF_NODEST with (2 ^ 2). rewrite !set_bit_spec by lia. by rewrite orb_true_r, !orb_false_r. Qed.
Lemma clear_NODEST f : marked (f .&~ NF_NODEST) = marked f ∧ acyclic (f .&~ NF_NODEST) = acyclic f ∧ nodest (f .&~ NF_NODEST) = false.
Proof. unfold marked, acyclic, nodest. change NF_NODEST with (2 ^ 2). rewrite !clear_bit_spec by lia. by rewrite andb_false_r, !andb_true_r. Qed.
Lemma set_ACYCLIC f : marked (f .| NF_ACYCLIC) = marked f ∧ acyclic (f .| NF_ACYCLIC) = true ∧ nodest (f .| NF_ACYCLIC) = nodest f.
Proof. unfold marked, acyclic, nodest. change NF_ACYCLIC with (2 ^ 1). rewrite !set_bit_spec by lia. by rewrite orb_true_r, !orb_false_r. Qed.

(** ** The graph

    [G] gives the arcs of each node of [D]; the nodes in [g] remain.  [fl] are the flags. *)

Section graph.
Context (G : name → list name) (D : list name).
Context (HG : ∀ n, n ∈ D → NoDup (G n) ∧ n ∉ G n ∧ ∀ m, m ∈ G n → m ∈ D).

Definition refs (g : list name) (n : name) : Z := Z.of_nat (length (filter (λ a, n ∈ G a) g)).
Definition node_of (g : list name) (fl : name → Z) (n : name) : NODE :=
  mkNode (if decide (n ∈ g) then G n else []) (refs g n) (fl n).
Definition shape (g : list name) (fl : name → Z) (w : tsort_world) : Prop :=
  graph w = g ∧ NoDup g ∧ (∀ n, n ∈ g → n ∈ D)
  ∧ ∀ n, nodes w !! n = if decide (n ∈ D) then Some (node_of g fl n) else None.

(** The arcs among what remains. *)
Definition succ (g : list name) (x y : name) : Prop := x ∈ g ∧ y ∈ G x.

(** Everything but the flags. *)
Definition same_rest (w w' : tsort_world) : Prop :=
  cycle_buf w' = cycle_buf w ∧ longest_cycle w' = longest_cycle w ∧ output w' = output w.

Lemma node_ok g fl w n : shape g fl w → n ∈ D → node w n = Ok (node_of g fl n).
Proof. intros (_ & _ & _ & H) Hn. unfold node. by rewrite H, decide_True. Qed.

Definition upd (fl : name → Z) (n : name) (v : Z) : name → Z := λ m, if decide (m = n) then v else fl m.

Lemma set_flags_ok g fl w n f :
  shape g fl w → n ∈ D → ∃ w', set_flags w n f = Ok w' ∧ shape g (upd fl n (f (fl n))) w' ∧ same_rest w w'.
Proof.
  intros Hs Hn. unfold set_flags. rewrite (node_ok g fl) by done. cbn [res_bind].
  eexists. split; [done|]. destruct Hs as (H1 & H2 & H3 & H4). split; [|done]. split_and!; [done..|].
  intros m. cbn. destruct (decide (m = n)) as [->|Hne].
  - rewrite lookup_insert_eq, (decide_True (P := n ∈ D)) by done. unfold node_of, upd. by rewrite (decide_True (P := n = n)) by done.
  - rewrite lookup_insert_ne, H4 by done. destruct (decide (m ∈ D)); [|done].
    unfold node_of, upd. by rewrite (decide_False (P := m = n)) by done.
Qed.

Lemma refs_without g n m :
  NoDup g → n ∈ g → refs (filter (λ x, x ≠ n) g) m = refs g m - (if decide (m ∈ G n) then 1 else 0).
Proof.
  intros Hnd Hn. unfold refs. induction Hnd as [|a g Ha Hnd IH]; [by apply elem_of_nil in Hn|].
  rewrite (filter_cons (λ x, x ≠ n)). destruct (decide (a ≠ n)) as [Hne|He].
  - apply elem_of_cons in Hn as [->|Hn]; [done|]. specialize (IH Hn).
    rewrite !(filter_cons (λ a, m ∈ G a)). destruct (decide (m ∈ G a)); simpl length; lia.
  - apply dec_stable in He. subst a. rewrite (filter_cons (λ a, m ∈ G a)).
    assert (filter (λ x, x ≠ n) g = g) as ->.
    { clear -Ha. induction g as [|b g IH]; [done|]. rewrite filter_cons.
      apply not_elem_of_cons in Ha as [? Ha]. rewrite decide_True by done. by rewrite IH. }
    destruct (decide (m ∈ G n)); simpl length; lia.
Qed.

(** [drop_refs] lowers the count of each node of the list by one. *)
Lemma drop_refs_ok g fl l : ∀ w k,
  graph w = g → NoDup l → (∀ m, m ∈ l → m ∈ D ∧ 1 <= k m) →
  (∀ n, nodes w !! n = if decide (n ∈ D) then Some (mkNode (if decide (n ∈ g) then G n else []) (k n) (fl n)) else None) →
  ∃ w', drop_refs w l = Ok w' ∧ graph w' = g ∧ same_rest w w'
  ∧ ∀ n, nodes w' !! n = if decide (n ∈ D) then
      Some (mkNode (if decide (n ∈ g) then G n else []) (k n - if decide (n ∈ l) then 1 else 0) (fl n)) else None.
Proof.
  induction l as [|m l IH]; intros w k Hg Hnd Hl Hw.
  - exists w. split_and!; [done..|]. intros n. rewrite Hw. destruct (decide (n ∈ D)); [|done].
    rewrite (decide_False (P := n ∈ [])) by apply not_elem_of_nil. by rewrite Z.sub_0_r.
  - apply NoDup_cons in Hnd as [Hm Hnd]. destruct (Hl m) as [HmD Hk]; [left|].
    cbn [drop_refs]. unfold drop_ref, node. rewrite Hw, decide_True by done. cbn [res_bind n_refcnt].
    destruct (Z.eqb_spec (k m) 0) as [?|_]; [lia|]. cbn [res_bind n_arcs n_flags].
    destruct (IH (set_nodes w (<[m:=mkNode (if decide (m ∈ g) then G m else []) (k m - 1) (fl m)]> (nodes w)))
      (λ n, if decide (n = m) then k m - 1 else k n)) as (w' & E & Hg' & Hr & Hw'); [done|done|..].
    + intros x Hx. destruct (Hl x) as [? ?]; [by right|]. split; [done|]. rewrite decide_False; [done|].
      by intros ->.
    + intros n. cbn. destruct (decide (n = m)) as [->|Hne].
      * by rewrite lookup_insert_eq, (decide_True (P := m ∈ D)) by done.
      * rewrite lookup_insert_ne by done. apply Hw.
    + exists w'. split_and!; [done|done|done|]. intros n. rewrite Hw'. destruct (decide (n ∈ D)); [|done].
      f_equal. f_equal. destruct (decide (n = m)) as [->|Hne].
      * rewrite (decide_False (P := m ∈ l)), decide_True by (done || left). lia.
      * destruct (decide (n ∈ l)) as [?|Hn]; [by rewrite decide_True by by right|].
        rewrite decide_False; [done|]. intros [?|?]%elem_of_cons; done.
Qed.

Lemma refs_pos g n m : n ∈ g → m ∈ G n → 1 <= refs g m.
Proof.
  intros Hn Hm. unfold refs. assert (n ∈ filter (λ a, m ∈ G a) g) as H by (apply list_elem_of_filter; done).
  destruct (filter _ g); [by apply elem_of_nil in H|]. simpl. lia.
Qed.

Lemma remove_node_ok g fl w n :
  shape g fl w → n ∈ g →
  ∃ w', remove_node w n = Ok w' ∧ shape (filter (λ x, x ≠ n) g) fl w'
  ∧ output w' = output w ++ [Line n] ∧ cycle_buf w' = cycle_buf w ∧ longest_cycle w' = longest_cycle w.
Proof.
  intros Hs Hn. pose proof Hs as (Hg & Hnd & HD & Hw). pose proof (HD n Hn) as HnD.
  destruct (HG n HnD) as (HGd & Hself & HGD).
  unfold remove_node. rewrite (node_ok g fl (put w (Line n))) by done. cbn [res_bind].
  unfold node_of at 1. cbn [n_arcs]. rewrite decide_True by done.
  destruct (drop_refs_ok g fl (G n) (put w (Line n)) (refs g)) as (w1 & E & Hg1 & (Hb & Hl & Ho) & Hw1);
    [done|done| |exact Hw|].
  { intros m Hm. split; [by apply HGD|by apply (refs_pos g n)]. }
  rewrite E. cbn [res_bind]. unfold node. rewrite Hw1, decide_True by done. cbn [res_bind].
  eexists. split; [done|]. cbn. split; [|by rewrite Ho].
  split_and!; [by rewrite Hg1|by apply NoDup_filter|by intros m [_ Hm]%list_elem_of_filter; apply HD|].
  intros m. cbn. destruct (decide (m = n)) as [->|Hne].
  - rewrite lookup_insert_eq, (decide_True (P := n ∈ D)) by done. f_equal. unfold node_of.
    rewrite refs_without by done. rewrite (decide_False (P := n ∈ filter _ g)); [done|].
    by intros [? _]%list_elem_of_filter.
  - rewrite lookup_insert_ne, Hw1 by done. destruct (decide (m ∈ D)); [|done]. f_equal. unfold node_of.
    rewrite refs_without by done. f_equal.
    destruct (decide (m ∈ g)) as [Hm|Hm].
    + rewrite decide_True; [done|]. by apply list_elem_of_filter.
    + rewrite decide_False; [done|]. by intros [_ ?]%list_elem_of_filter.
Qed.

(** ** What the program does to the graph, as steps

    A node that nothing points to is printed; or, when there is a cycle among the nodes
    that remain, a node of it is printed, after the cycle unless [quiet]. *)

Fixpoint walk (g : list name) (x : name) (l : list name) : Prop :=
  match l with [] => True | y :: l => succ g x y ∧ walk g y l end.
Definition is_cycle (g : list name) (n : name) (c : list name) : Prop :=
  c ≠ [] ∧ walk g n c ∧ last c = Some n.

Definition without (n : name) (g : list name) : list name := filter (λ x, x ≠ n) g.

Inductive trace (quiet : bool) : list name → list event → list name → Prop :=
  | trace_refl g : trace quiet g [] g
  | trace_source g n evs g' :
      n ∈ g → (∀ a, ¬ succ g a n) → trace quiet (without n g) evs g' → trace quiet g (Line n :: evs) g'
  | trace_cycle g n c evs g' :
      n ∈ g → is_cycle g n c → trace quiet (without n g) evs g' →
      trace quiet g ((if quiet then [] else [Cycle c]) ++ Line n :: evs) g'.

Lemma trace_trans quiet g1 e1 g2 e2 g3 :
  trace quiet g1 e1 g2 → trace quiet g2 e2 g3 → trace quiet g1 (e1 ++ e2) g3.
Proof.
  intros H1 H2. induction H1 as [| |g n c evs g' Hn Hc _ IH]; [done|by apply trace_source; auto|].
  rewrite <- app_assoc. simpl. apply trace_cycle; auto.
Qed.

Lemma without_length n g : n ∈ g → (length (without n g) < length g)%nat.
Proof. intros Hn. apply (length_filter_lt _ g n Hn). by intros H. Qed.

Lemma elem_of_without n m g : m ∈ without n g ↔ m ≠ n ∧ m ∈ g.
Proof. unfold without. by rewrite list_elem_of_filter. Qed.

Lemma refs_zero g n : refs g n = 0 ↔ ∀ a, ¬ succ g a n.
Proof.
  split.
  - intros H a [Ha Hn]. pose proof (refs_pos g a n Ha Hn). lia.
  - intros H. unfold refs. destruct (filter _ g) as [|a l] eqn:E; [done|].
    assert (a ∈ filter (λ a, n ∈ G a) g) as Ha by (rewrite E; left).
    apply list_elem_of_filter in Ha as [? ?]. by destruct (H a).
Qed.

(** The effect of a part of the program: the graph loses nodes as a trace says; the flags
    are [fl'] afterwards and the buffers unchanged. *)
Definition moves (quiet : bool) (w w' : tsort_world) (g g' : list name) : Prop :=
  cycle_buf w' = cycle_buf w ∧ longest_cycle w' = longest_cycle w
  ∧ ∃ evs, output w' = output w ++ evs ∧ trace quiet g evs g'.

Lemma moves_refl quiet w g : moves quiet w w g g.
Proof. split_and!; [done..|]. exists []. rewrite app_nil_r. split; [done|constructor]. Qed.

Lemma moves_trans quiet w1 w2 w3 g1 g2 g3 :
  moves quiet w1 w2 g1 g2 → moves quiet w2 w3 g2 g3 → moves quiet w1 w3 g1 g3.
Proof.
  intros (H1 & H2 & e1 & H3 & H4) (H5 & H6 & e2 & H7 & H8). split_and!; [congruence..|].
  exists (e1 ++ e2). split; [by rewrite H7, H3, app_assoc|by eapply trace_trans].
Qed.

Lemma trace_subset quiet g evs g' : trace quiet g evs g' → ∀ n, n ∈ g' → n ∈ g.
Proof. induction 1 as [|g n evs g' _ _ _ IH|g n c evs g' _ _ _ IH]; [done|..]; by intros m [_ ?]%IH%elem_of_without. Qed.

Lemma trace_length quiet g evs g' : trace quiet g evs g' → (length g' <= length g)%nat.
Proof.
  induction 1 as [|g n evs g' Hn _ _ IH|g n c evs g' Hn _ _ IH]; [done|..]; apply without_length in Hn; lia.
Qed.

(** Only nodes nothing points to are lost. *)
Definition keeps_targets (g g' : list name) : Prop := ∀ a b, succ g' a b → b ∈ g → b ∈ g'.

Lemma remove_pass_ok quiet fl l : ∀ g w cnt,
  shape g fl w → NoDup l → (∀ n, n ∈ l → n ∈ g) →
  ∃ cnt' w' g', remove_pass l cnt w = Ok (cnt', w') ∧ shape g' fl w' ∧ moves quiet w w' g g'
  ∧ (cnt <= cnt')%nat ∧ (cnt' = cnt → w' = w ∧ g' = g ∧ ∀ n, n ∈ l → ∃ a, succ g a n)
  ∧ ((cnt < cnt')%nat → (length g' < length g)%nat) ∧ keeps_targets g g'.
Proof.
  induction l as [|n l IH]; intros g w cnt Hs Hnd Hl.
  - exists cnt, w, g. split_and!; [done|done|apply moves_refl|lia| |lia|by intros a b].
    intros _. split_and!; [done..|]. by intros n ?%elem_of_nil.
  - apply NoDup_cons in Hnd as [Hn Hnd]. assert (n ∈ g) as Hng by (apply Hl; left).
    pose proof Hs as (_ & _ & HD & _).
    cbn [remove_pass]. rewrite (node_ok g fl) by auto. cbn [res_bind n_refcnt node_of].
    destruct (Z.eqb_spec (refs g n) 0) as [E|E].
    + destruct (remove_node_ok g fl w n Hs Hng) as (w1 & -> & Hs1 & Ho & Hb & Hc). cbn [res_bind].
      fold (without n g) in Hs1.
      destruct (IH (without n g) w1 (S cnt) Hs1 Hnd) as (cnt' & w' & g' & -> & Hs' & Hm & Hle & _ & Hlt & Hkt).
      { intros m Hm. apply elem_of_without. split; [by intros ->|apply Hl; by right]. }
      exists cnt', w', g'. split_and!; [done|done| |lia|lia| |].
      * eapply moves_trans; [|exact Hm]. split_and!; [done..|]. exists [Line n]. split; [done|].
        apply trace_source; [done|by apply refs_zero|constructor].
      * intros _. pose proof (without_length n g Hng). destruct Hm as (_ & _ & evs & _ & Ht).
        apply trace_length in Ht. lia.
      * intros a b Hab Hbg. apply (Hkt a b Hab). apply elem_of_without. split; [|done].
        intros ->. pose proof (proj1 (refs_zero g n) E a) as Hno. apply Hno.
        destruct Hm as (_ & _ & evs & _ & Ht). destruct Hab as [Ha Hab]. split; [|done].
        by apply (trace_subset _ _ _ _ Ht), elem_of_without in Ha as [_ ?].
    + destruct (IH g w cnt Hs Hnd) as (cnt' & w' & g' & -> & Hs' & Hm & Hle & Heq & Hlt & Hkt); [intros m ?; apply Hl; by right|].
      exists cnt', w', g'. split_and!; [done|done|done|done| |done|done].
      intros Hc. destruct (Heq Hc) as (-> & -> & Hp). split_and!; [done..|].
      intros m [->|Hm']%elem_of_cons; [|by apply Hp].
      destruct (decide (Exists (λ a, n ∈ G a) g)) as [Hex|Hex].
      * apply Exists_exists in Hex as (a & Ha & Hna). by exists a.
      * destruct E. apply refs_zero. intros a [Ha Hna]. apply Hex, Exists_exists. by exists a.
Qed.

Lemma remove_loop_ok quiet fl fuel : ∀ g w,
  shape g fl w → (length g < fuel)%nat →
  ∃ w' g', remove_loop fuel w = Ok w' ∧ shape g' fl w' ∧ moves quiet w w' g g'
  ∧ keeps_targets g g' ∧ ∀ n, n ∈ g' → ∃ a, succ g' a n.
Proof.
  induction fuel as [|fuel IH]; intros g w Hs Hf; [lia|]. cbn [remove_loop].
  pose proof Hs as (Hg & Hnd & _).
  destruct (remove_pass_ok quiet fl (graph w) g w 0 Hs) as (cnt & w1 & g1 & -> & Hs1 & Hm & _ & Heq & Hlt & Hkt);
    [by rewrite Hg|by rewrite Hg|]. cbn [res_bind].
  pose proof Hs1 as (Hg1 & _). rewrite Hg1. destruct g1 as [|n g1].
  - exists w1, []. split_and!; [done..|]. by intros n ?%elem_of_nil.
  - destruct cnt as [|cnt].
    + destruct (Heq eq_refl) as (-> & <- & Hp). exists w, (n :: g1). rewrite Hg in Hp. done.
    + destruct (IH (n :: g1) w1 Hs1) as (w' & g' & -> & Hs' & Hm' & Hkt' & Hp); [simpl in *; lia|].
      exists w', g'. split_and!; [done|done|by eapply moves_trans| |done].
      intros a b Hab Hb. apply (Hkt' a b Hab). apply (Hkt a b); [|done].
      destruct Hm' as (_ & _ & evs & _ & Ht). destruct Hab as [Ha Hab]. split; [|done]. by apply (trace_subset _ _ _ _ Ht).
Qed.

(** ** The search for a cycle *)

Section search.
Context (g K0 : list name) (longest : bool) (to : name).
Context (HgK : ∀ a, a ∈ g → a ∈ K0) (HK : ∀ a b, succ g a b → b ∈ K0) (HKD : ∀ a, a ∈ K0 → a ∈ D)
  (Hto : to ∈ g).

(** The buffers have an entry for each node of [K0], the first ones hold the path [p]. *)
Definition buffers (p : list name) (w : tsort_world) : Prop :=
  ∃ b, cycle_buf w = Some b ∧ length b = length K0 ∧ length (longest_cycle w) = length K0
  ∧ take (length p) b = Some <$> p.

Definition saved (len : nat) (w : tsort_world) : Prop :=
  ∃ c, length c = len ∧ take len (longest_cycle w) = Some <$> c ∧ is_cycle g to c.

(** The path from [to] to [from] on which the search is. *)
Definition on_path (p : list name) (from : name) : Prop :=
  walk g to p ∧ last (to :: p) = Some from ∧ NoDup (to :: p).

(** What a call keeps, and what it has found out when it returns 0: no arc from the nodes
    given up leads to [to], or out of the nodes given up, on the path or acyclic. *)
Definition keeps (p : list name) (w w' : tsort_world) (fl fl' : name → Z) (len r : nat) : Prop :=
  shape g fl' w' ∧ buffers p w' ∧ output w' = output w
  ∧ (∀ x, marked (fl' x) = marked (fl x)) ∧ (∀ x, acyclic (fl' x) = acyclic (fl x))
  ∧ (∀ x, nodest (fl x) = true → nodest (fl' x) = true)
  ∧ (len <= r)%nat ∧ ((0 < r)%nat → saved r w').

Definition explored (p : list name) (fl fl' : name → Z) (y : name) : Prop :=
  y ≠ to ∧ (acyclic (fl y) = true ∨ nodest (fl' y) = true ∨ y ∈ to :: p).
Definition gives_up (p : list name) (fl fl' : name → Z) : Prop :=
  ∀ x, nodest (fl' x) = true → nodest (fl x) = false → ∀ y, succ g x y → explored p fl fl' y.

Definition marks (p : list name) (fl : name → Z) (except : name → Prop) : Prop :=
  ∀ x, marked (fl x) = true ↔ x ∈ to :: p ∧ ¬ except x.

(** The contract of [find_cycle] for a node that is not blocked. *)
Definition finds (rec : name → nat → tsort_world → res (nat * tsort_world)) (p : list name) (from : name) : Prop :=
  ∀ len w fl, shape g fl w → buffers p w → ((0 < len)%nat → saved len w) →
  marks p fl (λ x, x = from) → acyclic (fl from) = false → nodest (fl from) = false →
  ∃ r w' fl', rec from len w = Ok (r, w') ∧ keeps p w w' fl fl' len r
  ∧ (r = 0%nat → gives_up p fl fl' ∧ ∀ y, succ g from y → explored p fl fl' y).

Lemma on_path_length p from : on_path p from → (length p < length K0)%nat ∧ (length p <= length g)%nat.
Proof.
  intros (Hw & Hl & Hnd).
  assert (∀ x l, walk g x l → ∀ y, y ∈ l → y ∈ K0) as Hin.
  { intros x l. revert x. induction l as [|z l IH]; intros x Hwk y Hy; [by apply elem_of_nil in Hy|].
    destruct Hwk as [Hs Hwk]. apply elem_of_cons in Hy as [->|Hy]; [by apply (HK x)|by apply (IH z)]. }
  assert (∀ x l, walk g x l → x ∈ g → ∃ l' z, x :: l = l' ++ [z] ∧ (∀ y, y ∈ l' → y ∈ g)) as Hg'.
  { intros x l. revert x. induction l as [|z l IH]; intros x Hwk Hx.
    - exists [], x. split; [done|]. by intros y ?%elem_of_nil.
    - destruct Hwk as [Hs Hwk]. destruct l as [|z' l].
      + exists [x], z. split; [done|]. by intros y ->%list_elem_of_singleton.
      + destruct (IH z Hwk) as (l' & u & E & Hl'); [by destruct Hwk as [[? _] _]|].
        exists (x :: l'), u. split; [by rewrite E|]. intros y [->|Hy]%elem_of_cons; auto. }
  split.
  - assert (to :: p ⊆+ K0) as Hsub.
    { apply NoDup_submseteq; [done|]. intros y [->|Hy]%elem_of_cons; [by apply HgK|by eapply Hin]. }
    apply submseteq_length in Hsub. simpl in Hsub. lia.
  - destruct (Hg' to p Hw Hto) as (l' & u & E & Hl').
    rewrite E in Hnd. apply NoDup_app in Hnd as (Hnd & _).
    assert (l' ⊆+ g) as Hsub by (by apply NoDup_submseteq).
    apply submseteq_length in Hsub. assert (length (to :: p) = length l' + 1)%nat by (rewrite E, length_app; done).
    simpl in *. lia.
Qed.

Lemma set_cycle_ok p w n :
  buffers p w → (length p < length K0)%nat →
  ∃ w', set_cycle w (length p) n = Ok w' ∧ buffers (p ++ [n]) w' ∧ graph w' = graph w ∧ nodes w' = nodes w
  ∧ longest_cycle w' = longest_cycle w ∧ output w' = output w.
Proof.
  intros (b & Hb & Hlb & Hll & Ht) Hp. unfold set_cycle. rewrite Hb.
  destruct (Nat.ltb_spec (length p) (length b)); [|lia]. eexists. split; [done|]. split; [|done].
  exists (<[length p := Some n]> b). cbn. split_and!; [done|by rewrite length_insert|done|].
  rewrite length_app. cbn [length]. rewrite Nat.add_1_r. erewrite take_S_r by (apply list_lookup_insert_eq; lia).
  rewrite take_insert_ge by lia. by rewrite Ht, fmap_app.
Qed.

Lemma buffers_prefix p n w : buffers (p ++ [n]) w → buffers p w.
Proof.
  intros (b & Hb & Hlb & Hll & Ht). exists b. split_and!; [done..|].
  apply (f_equal (take (length p))) in Ht. rewrite take_take, fmap_app in Ht. rewrite length_app in Ht.
  rewrite Nat.min_l in Ht by lia. rewrite Ht. by rewrite take_app_le, take_ge by (rewrite length_fmap; lia).
Qed.

Lemma save_cycle_ok p w :
  buffers p w → is_cycle g to p →
  ∃ w', save_cycle w (length p) = Ok w' ∧ buffers p w' ∧ saved (length p) w' ∧ graph w' = graph w ∧ nodes w' = nodes w
  ∧ output w' = output w.
Proof.
  intros (b & Hb & Hlb & Hll & Ht) Hc. unfold save_cycle. rewrite Hb.
  assert (length p <= length b)%nat as Hle.
  { apply (f_equal length) in Ht. rewrite length_take, length_fmap in Ht. lia. }
  destruct (Nat.leb_spec (length p) (length b)); [|lia].
  destruct (Nat.leb_spec (length p) (length (longest_cycle w))); [|lia]. cbn [andb].
  eexists. split; [done|]. split_and!; try done.
  - exists b. cbn. split_and!; [done..| |done]. rewrite length_app, length_take, length_drop. lia.
  - exists p. cbn. split_and!; [done| |done]. rewrite take_app_le by (rewrite length_take; lia).
    rewrite take_take, Nat.min_id. done.
Qed.

Lemma shape_same fl w w' : shape g fl w → graph w' = graph w → nodes w' = nodes w → shape g fl w'.
Proof. unfold shape. by intros ? -> ->. Qed.

Lemma keeps_trans p w1 w2 w3 fl1 fl2 fl3 len r1 r2 :
  keeps p w1 w2 fl1 fl2 len r1 → keeps p w2 w3 fl2 fl3 r1 r2 → keeps p w1 w3 fl1 fl3 len r2.
Proof.
  intros (_ & _ & Ho & Hm & Ha & Hn & Hr & _) (Hs' & Hb' & Ho' & Hm' & Ha' & Hn' & Hr' & Hsv).
  split_and!; [done|done|congruence|congruence|congruence|auto|lia|done].
Qed.

Lemma keeps_world p w w1 w' fl fl' len r :
  output w1 = output w → keeps p w1 w' fl fl' len r → keeps p w w' fl fl' len r.
Proof. unfold keeps. by intros ->. Qed.

Lemma explored_weaken p q fl fl1 fl2 y :
  (∀ x, nodest (fl1 x) = true → nodest (fl2 x) = true) →
  (∀ x, x ∈ to :: q → x ∈ to :: p ∨ nodest (fl2 x) = true) →
  explored q fl fl1 y → explored p fl fl2 y.
Proof. intros H1 H2 (Hy & [H|[H|H]]); split; auto. destruct (H2 y H); auto. Qed.

Lemma explored_flags p fl fl1 fl2 y :
  (∀ x, acyclic (fl1 x) = acyclic (fl x)) → explored p fl1 fl2 y → explored p fl fl2 y.
Proof. unfold explored. by intros ->. Qed.

Lemma walk_snoc x l y z : walk g x l → last (x :: l) = Some y → succ g y z → walk g x (l ++ [z]).
Proof.
  revert x. induction l as [|a l IH]; intros x Hw Hl Hs.
  - injection Hl as ->. by split.
  - destruct Hw as [Ha Hw]. split; [done|]. apply IH; [done| |done]. by rewrite last_cons_cons in Hl.
Qed.

Lemma last_snoc_path (p : list name) n : last (to :: p ++ [n]) = Some n.
Proof. by rewrite app_comm_cons, last_snoc. Qed.

Lemma arc_loop_ok rec p from :
  on_path p from →
  (∀ n, succ g from n → on_path (p ++ [n]) n → finds rec (p ++ [n]) n) →
  ∀ np len w fl, (∀ n, n ∈ np → succ g from n) →
  shape g fl w → buffers p w → ((0 < len)%nat → saved len w) → marks p fl (λ _, False) →
  ∃ r w' fl', arc_loop rec longest to (length p) np len w = Ok (r, w') ∧ keeps p w w' fl fl' len r
  ∧ (r = 0%nat → gives_up p fl fl' ∧ ∀ y, y ∈ np → explored p fl fl' y).
Proof.
  intros Hpath Hrec np. pose proof (on_path_length p from Hpath) as [HlenK _].
  pose proof Hpath as (Hwalk & Hlast & Hnd).
  induction np as [|n np IH]; intros len w fl Hnp Hs Hb Hsv Hmk.
  { exists len, w, fl. split; [done|]. split; [by split_and!|]. intros ->.
    split; [|by intros y ?%elem_of_nil]. intros x H1 H2. congruence. }
  assert (succ g from n) as Hsucc by (apply Hnp; left).
  assert (∀ m, m ∈ np → succ g from m) as Hnp' by (intros m ?; apply Hnp; by right).
  pose proof (HKD n (HK _ _ Hsucc)) as HnD.
  destruct (set_cycle_ok p w n Hb HlenK) as (w1 & Ew1 & Hb1 & Hg1 & Hn1 & Hl1 & Ho1).
  pose proof (shape_same fl w w1 Hs Hg1 Hn1) as Hs1.
  assert ((0 < len)%nat → saved len w1) as Hsv1 by (unfold saved; by rewrite Hl1).
  pose proof (walk_snoc _ _ _ _ Hwalk Hlast Hsucc) as Hwalk'.
  cbn [arc_loop]. rewrite Ew1. cbn [res_bind]. clear Ew1.
  destruct (decide (n = to)) as [->|Hne].
  - assert (length p + 1 = length (p ++ [to]))%nat as El by by rewrite length_app.
    destruct (Nat.ltb_spec len (length p + 1)).
    + rewrite El. destruct (save_cycle_ok (p ++ [to]) w1 Hb1) as (w2 & -> & Hb2 & Hsv2 & Hg2 & Hn2 & Ho2).
      { split_and!; [by destruct p|done|apply last_snoc]. }
      cbn [res_bind].
      destruct (IH (length (p ++ [to])) w2 fl Hnp' (shape_same fl w1 w2 Hs1 Hg2 Hn2) (buffers_prefix _ _ _ Hb2)
        (λ _, Hsv2) Hmk) as (r & w' & fl' & -> & Hk & _).
      exists r, w', fl'. split; [done|]. pose proof Hk as (_ & _ & _ & _ & _ & _ & Hr & _). split; [|lia].
      apply (keeps_world p w w2); [congruence|]. destruct Hk as (? & ? & ? & ? & ? & ? & ? & ?).
      split_and!; [done..|lia|done].
    + destruct (IH len w1 fl Hnp' Hs1 (buffers_prefix _ _ _ Hb1) Hsv1 Hmk) as (r & w' & fl' & -> & Hk & _).
      exists r, w', fl'. split; [done|]. pose proof Hk as (_ & _ & _ & _ & _ & _ & Hr & _). split; [|lia].
      by apply (keeps_world p w w1).
  - rewrite (node_ok g fl) by done. cbn [res_bind n_flags node_of].
    rewrite !has_or_mask, has_MARK, has_ACYCLIC, has_NODEST.
    destruct (marked (fl n) || acyclic (fl n) || nodest (fl n)) eqn:Eb.
    + destruct (IH len w1 fl Hnp' Hs1 (buffers_prefix _ _ _ Hb1) Hsv1 Hmk) as (r & w' & fl' & -> & Hk & Hg).
      exists r, w', fl'. split; [done|]. split; [by apply (keeps_world p w w1)|].
      intros Hr. destruct (Hg Hr) as [Hgu Hex]. split; [done|].
      intros y [->|Hy]%elem_of_cons; [|by apply Hex]. split; [done|].
      destruct Hk as (_ & _ & _ & _ & _ & Hmono & _). apply orb_true_iff in Eb as [[Eb|Eb]%orb_true_iff|Eb]; auto.
      right; right. by apply Hmk.
    + apply orb_false_iff in Eb as [[Eb1 Eb2]%orb_false_iff Eb3].
      assert (n ∉ to :: p) as Hnp0.
      { intros Hin. assert (marked (fl n) = true) by (apply Hmk; auto). congruence. }
      assert (on_path (p ++ [n]) n) as Hpath'.
      { split_and!; [done|apply last_snoc_path|]. rewrite app_comm_cons. apply NoDup_app. split_and!; [done| |].
        - intros x Hx ->%list_elem_of_singleton. done.
        - apply NoDup_singleton. }
      destruct (Hrec n Hsucc Hpath' len w1 fl Hs1 Hb1 Hsv1) as (r1 & w2 & fl2 & -> & Hk1 & Hz1); [|done|done|].
      { intros x. rewrite (Hmk x), app_comm_cons, elem_of_app, list_elem_of_singleton.
        split; [intros [? _]; split; [auto|]; by intros ->|]. intros [[?| ->] ?]; [by split; [|intros []]|done]. }
      cbn [res_bind]. pose proof Hk1 as (Hs2 & Hb2 & Ho2 & Hm2 & Ha2 & Hn2 & Hr2 & Hsv2).
      apply buffers_prefix in Hb2.
      destruct r1 as [|r1].
      * cbn [Nat.eqb]. assert (len = 0%nat) as -> by lia. cbn [Nat.ltb Nat.leb andb].
        destruct (set_flags_ok g fl2 w2 n (λ f, f .| NF_NODEST) Hs2 HnD) as (w3 & -> & Hs3 & Hcb & Hlc & Hout).
        cbn [res_bind]. set (fl3 := upd fl2 n (fl2 n .| NF_NODEST)) in *.
        assert (∀ x, marked (fl3 x) = marked (fl2 x) ∧ acyclic (fl3 x) = acyclic (fl2 x)
          ∧ (nodest (fl3 x) = true ↔ nodest (fl2 x) = true ∨ x = n)) as Hfl3.
        { intros x. unfold fl3, upd. destruct (decide (x = n)) as [->|]; [|naive_solver].
          destruct (set_NODEST (fl2 n)) as (-> & -> & ->). naive_solver. }
        destruct (IH 0%nat w3 fl3 Hnp' Hs3) as (r & w' & fl' & -> & Hk & Hg).
        { destruct Hb2 as (b & ? & ? & ? & ?). exists b. rewrite Hcb, Hlc. by split_and!. }
        { lia. }
        { intros x. rewrite (proj1 (Hfl3 x)), Hm2. apply Hmk. }
        exists r, w', fl'. split; [done|]. pose proof Hk as (_ & _ & _ & _ & _ & Hmono & _).
        split.
        { destruct Hk as (H1 & H2 & H3 & H4 & H5 & H6 & H7 & H8). split_and!; [done|done|congruence|..|done|done].
          - intros x. rewrite H4, (proj1 (Hfl3 x)). apply Hm2.
          - intros x. rewrite H5, (proj1 (proj2 (Hfl3 x))). apply Ha2.
          - intros x Hx. apply H6, Hfl3. left. by apply Hn2. }
        intros Hr. destruct (Hg Hr) as [Hgu Hex]. destruct (Hz1 eq_refl) as [Hgu1 Hex1].
        assert (∀ x, acyclic (fl3 x) = acyclic (fl x)) as Hac
          by (intros x; rewrite (proj1 (proj2 (Hfl3 x))); apply Ha2).
        assert (∀ y, explored (p ++ [n]) fl fl2 y → explored p fl fl' y) as Hwk.
        { intros y. apply explored_weaken.
          - intros x Hx. apply Hmono, Hfl3. by left.
          - intros x. rewrite app_comm_cons, elem_of_app, list_elem_of_singleton.
            intros [?| ->]; [by left|]. right. apply Hmono, Hfl3. by right. }
        split.
        { intros x Hx1 Hx2 y Hy. destruct (nodest (fl3 x)) eqn:E3.
          - apply Hwk. apply Hfl3 in E3 as [E3| ->]; [by apply (Hgu1 x)|by apply Hex1].
          - apply (explored_flags _ _ fl3); [done|]. by apply (Hgu x). }
        { intros y [->|Hy]%elem_of_cons; [|by apply (explored_flags _ _ fl3); [|apply Hex]].
          split; [done|]. right; left. apply Hmono, Hfl3. by right. }
      * cbn [Nat.eqb res_bind]. change (0 <? S r1)%nat with true. cbn [andb].
        assert ((if (len <? S r1)%nat then S r1 else len) = S r1) as -> by (destruct (Nat.ltb_spec len (S r1)); lia).
        assert (keeps p w w2 fl fl2 len (S r1)) as Hk'.
        { split_and!; try done. congruence. }
        destruct (negb longest).
        { exists (S r1), w2, fl2. split; [done|]. by split. }
        destruct (IH (S r1) w2 fl2 Hnp' Hs2 Hb2 Hsv2) as (r & w' & fl' & -> & Hk & _).
        { intros x. rewrite Hm2. apply Hmk. }
        exists r, w', fl'. split; [done|]. pose proof Hk as (_ & _ & _ & _ & _ & _ & Hr & _). split; [|lia].
        by eapply keeps_trans.
Qed.

Lemma find_cycle_ok fuel : ∀ p from,
  on_path p from → from ∈ D → (length g + 1 < fuel + length (to :: p))%nat →
  finds (find_cycle fuel longest to (length p)) p from.
Proof.
  induction fuel as [|fuel IH]; intros p from Hpath HfD Hfuel len w fl Hs Hb Hsv Hmk Hac Hnde.
  { pose proof (on_path_length p from Hpath). simpl in Hfuel. lia. }
  cbn [find_cycle]. rewrite (node_ok g fl) by done. cbn [res_bind n_flags n_arcs node_of].
  rewrite !has_or_mask, has_MARK, has_ACYCLIC, has_NODEST.
  assert (marked (fl from) = false) as Hmf.
  { apply not_true_is_false. intros [_ Hf]%Hmk. by apply Hf. }
  rewrite Hmf, Hac, Hnde. cbn [orb].
  destruct (set_flags_ok g fl w from (λ f, f .| NF_MARK) Hs HfD) as (w1 & -> & Hs1 & Hcb & Hlc & Hout).
  cbn [res_bind]. set (fl1 := upd fl from (fl from .| NF_MARK)) in *.
  assert (∀ x, acyclic (fl1 x) = acyclic (fl x) ∧ nodest (fl1 x) = nodest (fl x)
    ∧ (marked (fl1 x) = true ↔ marked (fl x) = true ∨ x = from)) as Hfl1.
  { intros x. unfold fl1, upd. destruct (decide (x = from)) as [->|]; [|naive_solver].
    destruct (set_MARK (fl from)) as (-> & -> & ->). naive_solver. }
  pose proof Hpath as (Hwalk & Hlast & Hnd).
  assert (from ∈ to :: p) as Hin by (by apply last_Some_elem_of).
  set (np := if decide (from ∈ g) then G from else []).
  assert (∀ n, n ∈ np ↔ succ g from n) as Hnp.
  { intros n. unfold np, succ. destruct (decide (from ∈ g)); [naive_solver|]. split; [by intros ?%elem_of_nil|naive_solver]. }
  destruct (arc_loop_ok (find_cycle fuel longest to (length p + 1)) p from Hpath) with (np := np) (len := len) (w := w1) (fl := fl1)
    as (r & w2 & fl2 & -> & Hk & Hg).
  - intros n Hn Hp'. replace (length p + 1)%nat with (length (p ++ [n])) by (by rewrite length_app).
    apply IH; [done|by eapply HKD, HK|]. simpl in *. rewrite length_app. simpl. lia.
  - intros n. apply Hnp.
  - done.
  - destruct Hb as (b & ? & ? & ? & ?). exists b. rewrite Hcb, Hlc. by split_and!.
  - intros Hl. destruct (Hsv Hl) as (c & ? & ? & ?). exists c. by rewrite Hlc.
  - intros x. rewrite (proj2 (proj2 (Hfl1 x))), (Hmk x). split; [|intros [? _]; destruct (decide (x = from)); auto].
    intros [[? _]| ->]; [by split; [|intros []]|by split; [|intros []]].
  - cbn [res_bind]. pose proof Hk as (Hs2 & Hb2 & Ho2 & Hm2 & Ha2 & Hn2 & Hr2 & Hsv2).
    destruct (set_flags_ok g fl2 w2 from (λ f, f .&~ NF_MARK) Hs2 HfD) as (w3 & -> & Hs3 & Hcb3 & Hlc3 & Hout3).
    cbn [res_bind]. set (fl3 := upd fl2 from (fl2 from .&~ NF_MARK)) in *.
    assert (∀ x, acyclic (fl3 x) = acyclic (fl2 x) ∧ nodest (fl3 x) = nodest (fl2 x)
      ∧ (marked (fl3 x) = true ↔ marked (fl2 x) = true ∧ x ≠ from)) as Hfl3.
    { intros x. unfold fl3, upd. destruct (decide (x = from)) as [->|]; [|naive_solver].
      destruct (clear_MARK (fl2 from)) as (-> & -> & ->). naive_solver. }
    exists r, w3, fl3. split; [done|]. split.
    + split_and!; [done| |congruence|..|done|].
      * destruct Hb2 as (b & ? & ? & ? & ?). exists b. rewrite Hcb3, Hlc3. by split_and!.
      * intros x. apply eq_true_iff_eq. rewrite (proj2 (proj2 (Hfl3 x))), Hm2, (proj2 (proj2 (Hfl1 x))).
        split; [intros [[?|?] ?]; done|]. intros Hx. split; [by left|]. by intros ->; rewrite Hmf in Hx.
      * intros x. rewrite (proj1 (Hfl3 x)), Ha2. apply Hfl1.
      * intros x Hx. rewrite (proj1 (proj2 (Hfl3 x))). apply Hn2. by rewrite (proj1 (proj2 (Hfl1 x))).
      * intros Hr. destruct (Hsv2 Hr) as (c & ? & ? & ?). exists c. by rewrite Hlc3.
    + intros Hr. destruct (Hg Hr) as [Hgu Hex].
      assert (∀ y, explored p fl1 fl2 y → explored p fl fl3 y) as Hwk.
      { intros y (Hy & H). split; [done|]. rewrite (proj1 (proj2 (Hfl3 y))), <- (proj1 (Hfl1 y)). done. }
      split.
      * intros x Hx1 Hx2 y Hy. apply Hwk. apply (Hgu x); [by rewrite <- (proj1 (proj2 (Hfl3 x)))| |done].
        by rewrite (proj1 (proj2 (Hfl1 x))).
      * intros y Hy. apply Hwk, Hex. by apply Hnp.
Qed.

End search.

(** ** Cycles *)

Lemma tc_succ_mono g g' x y : (∀ n, n ∈ g' → n ∈ g) → tc (succ g') x y → tc (succ g) x y.
Proof.
  intros Hg H. induction H as [x y [? ?]|x y z [? ?] _ IH].
  - apply tc_once. by split; auto.
  - eapply tc_l; [|done]. by split; auto.
Qed.

Lemma walk_rtc g x l : walk g x l → ∀ y, y ∈ l → tc (succ g) x y.
Proof.
  revert x. induction l as [|z l IH]; intros x Hw y Hy; [by apply elem_of_nil in Hy|].
  destruct Hw as [Hs Hw]. apply elem_of_cons in Hy as [->|Hy]; [by apply tc_once|].
  eapply tc_l; [done|]. by apply (IH z).
Qed.

Lemma is_cycle_tc g n c : is_cycle g n c → tc (succ g) n n.
Proof. intros (_ & Hw & Hl). eapply walk_rtc; [done|]. by apply last_Some_elem_of. Qed.

Lemma walk_app_r g x l1 y l2 : walk g x (l1 ++ y :: l2) → walk g y l2.
Proof. revert x. induction l1 as [|z l1 IH]; intros x Hw; destruct Hw as [_ Hw]; [done|by apply (IH z)]. Qed.

(** If every node has a predecessor there is a cycle. *)
Lemma predecessors_cycle g : g ≠ [] → (∀ n, n ∈ g → ∃ a, succ g a n) → ∃ x, x ∈ g ∧ tc (succ g) x x.
Proof.
  intros Hne Hpred.
  assert (∀ k, ∃ x l, length l = k ∧ walk g x l ∧ ∀ y, y ∈ x :: l → y ∈ g) as Hwalks.
  { induction k as [|k (x & l & Hl & Hw & Hin)].
    - destruct g as [|x g']; [done|]. exists x, []. split_and!; [done|done|].
      intros y ->%list_elem_of_singleton. left.
    - destruct (Hpred x) as [a Ha]; [apply Hin; left|]. exists a, (x :: l). split_and!; [simpl; lia|done|].
      intros y [->|Hy]%elem_of_cons; [apply Ha|by apply Hin]. }
  destruct (Hwalks (length g)) as (x & l & Hl & Hw & Hin).
  assert (¬ NoDup (x :: l)) as Hdup.
  { intros Hnd. assert (x :: l ⊆+ g) as Hsub by (by apply NoDup_submseteq).
    apply submseteq_length in Hsub. simpl in Hsub. lia. }
  clear Hl Hwalks. revert x Hw Hin Hdup. induction l as [|y l IH]; intros x Hw Hin Hdup.
  - destruct Hdup. apply NoDup_singleton.
  - destruct (decide (x ∈ y :: l)) as [Hx|Hx].
    + exists x. split; [apply Hin; left|]. by eapply walk_rtc.
    + apply (IH y); [by destruct Hw|intros z Hz; apply Hin; by right|].
      intros Hnd. apply Hdup. by apply NoDup_cons.
Qed.

(** What holds between two searches. *)
Definition quiet_flags (g : list name) (fl : name → Z) : Prop :=
  (∀ x, marked (fl x) = false) ∧ (∀ x, x ∈ g → nodest (fl x) = false)
  ∧ ∀ x, acyclic (fl x) = true → ¬ tc (succ g) x x.

Definition has_buffers (K0 g : list name) (w : tsort_world) : Prop :=
  (∀ a, a ∈ g → a ∈ K0) ∧ (∀ a b, succ g a b → b ∈ K0) ∧ (∀ a, a ∈ K0 → a ∈ D) ∧ buffers K0 [] w.

Lemma has_buffers_frame K0 g g' w w' :
  has_buffers K0 g w → (∀ n, n ∈ g' → n ∈ g) → cycle_buf w' = cycle_buf w → longest_cycle w' = longest_cycle w →
  has_buffers K0 g' w'.
Proof.
  intros (H1 & H2 & H3 & b & Hb) Hg E1 E2. split_and!; [auto| |done|].
  - intros a c [Ha Hc]. apply (H2 a c). by split; auto.
  - exists b. by rewrite E1, E2.
Qed.

(** A search from a node that gives up shows that the node is on no cycle. *)
Lemma gave_up_acyclic g to fl fl' :
  quiet_flags g fl → gives_up g to [] fl fl' → (∀ y, succ g to y → explored to [] fl fl' y) →
  ¬ tc (succ g) to to.
Proof.
  intros (_ & Hn & Ha) Hgu Hex Htc.
  assert (∀ x y, (x = to ∨ nodest (fl' x) = true) → succ g x y → explored to [] fl fl' y) as Hstep.
  { intros x y [->|Hx] Hs; [by apply Hex|]. apply (Hgu x); [done| |done]. apply Hn, Hs. }
  assert (∀ x y, tc (succ g) x y → (x = to ∨ nodest (fl' x) = true) → tc (succ g) to x ∨ x = to →
    y ≠ to ∨ ∃ c, acyclic (fl c) = true ∧ tc (succ g) to c ∧ rtc (succ g) c y) as Hreach.
  { intros x y H. induction H as [x y Hs|x y z Hs Ht IH]; intros Hx Hfrom.
    - left. by apply (Hstep x y).
    - assert (tc (succ g) to y) as Hty.
      { destruct Hfrom as [Hf| ->]; [by eapply tc_r|by apply tc_once]. }
      destruct (Hstep x y Hx Hs) as (Hy & [Hac|[Hnd|Hp]]).
      + right. exists y. split_and!; [done|done|by apply tc_rtc].
      + apply IH; auto.
      + apply list_elem_of_singleton in Hp. done. }
  destruct (Hreach to to Htc) as [?|(c & Hc & H1 & H2)]; [by left|by right|done|].
  apply (Ha c Hc). by eapply tc_rtc_l.
Qed.

Lemma search_ok longest K0 g fl w n :
  shape g fl w → has_buffers K0 g w → quiet_flags g fl → n ∈ g → acyclic (fl n) = false →
  ∃ r w' fl', find_cycle (S (length g)) longest n 0 n 0 w = Ok (r, w')
  ∧ shape g fl' w' ∧ has_buffers K0 g w' ∧ output w' = output w
  ∧ (∀ x, marked (fl' x) = false) ∧ (∀ x, acyclic (fl' x) = acyclic (fl x))
  ∧ (∀ x, nodest (fl x) = true → nodest (fl' x) = true)
  ∧ (if decide (r = 0%nat) then ¬ tc (succ g) n n
     else ∃ c, cycle_names (longest_cycle w') r = Ok c ∧ is_cycle g n c).
Proof.
  intros Hs (HK1 & HK2 & HK3 & Hb) Hq Hn Hac. pose proof Hq as (Hmk & Hnde & Hacy).
  pose proof Hs as (_ & Hnd & HD & _).
  assert (on_path g n [] n) as Hpath by (split_and!; [done|done|apply NoDup_singleton]).
  destruct (find_cycle_ok g K0 longest n HK1 HK2 HK3 Hn (S (length g)) [] n Hpath) with (len := 0%nat) (w := w) (fl := fl)
    as (r & w' & fl' & E & Hk & Hz); [auto|simpl; lia|done|done|lia| |done|auto|].
  { intros x. rewrite Hmk. split; [done|]. intros [->%list_elem_of_singleton Hx]. done. }
  destruct Hk as (Hs' & Hb' & Ho & Hm & Ha & Hnm & _ & Hsv).
  exists r, w', fl'. split_and!; [done|done|by split_and!|done| |done|done|].
  - intros x. by rewrite Hm.
  - destruct (decide (r = 0%nat)) as [->|Hr].
    + destruct (Hz eq_refl) as [Hgu Hex]. by apply (gave_up_acyclic g n fl fl').
    + destruct (Hsv ltac:(lia)) as (c & Hlc & Ht & Hc). exists c. split; [|done].
      revert Ht. subst r. clear. generalize (longest_cycle w'). induction c as [|x c IH]; intros l Ht; [by destruct l|].
      destruct l as [|[y|] l]; cbn [length take fmap list_fmap] in Ht; [done| |discriminate Ht]. injection Ht as -> Ht.
      cbn [cycle_names length]. by rewrite (IH l Ht).
Qed.

Lemma clear_cycle_ok g fl w :
  shape g fl w → ∃ w' fl', clear_cycle w = Ok w' ∧ shape g fl' w' ∧ same_rest w w'
  ∧ (∀ x, marked (fl' x) = marked (fl x)) ∧ (∀ x, acyclic (fl' x) = acyclic (fl x))
  ∧ ∀ x, x ∈ g → nodest (fl' x) = false.
Proof.
  intros Hs. unfold clear_cycle. pose proof Hs as (Hg & _ & HD & _). rewrite Hg.
  assert (∀ l w fl, (∀ n, n ∈ l → n ∈ D) → shape g fl w →
    ∃ w' fl', foldl (λ r n, let* w := r in set_flags w n (λ f, f .&~ NF_NODEST)) (Ok w) l = Ok w'
    ∧ shape g fl' w' ∧ same_rest w w' ∧ (∀ x, marked (fl' x) = marked (fl x))
    ∧ (∀ x, acyclic (fl' x) = acyclic (fl x)) ∧ (∀ x, nodest (fl x) = false → nodest (fl' x) = false)
    ∧ ∀ x, x ∈ l → nodest (fl' x) = false) as H.
  { clear. intros l. induction l as [|n l IH]; intros w fl HD Hs.
    - exists w, fl. split_and!; try done. by intros x ?%elem_of_nil.
    - cbn [foldl res_bind].
      destruct (set_flags_ok g fl w n (λ f, f .&~ NF_NODEST) Hs) as (w1 & -> & Hs1 & Hr1); [apply HD; left|].
      destruct (IH w1 _ ltac:(intros m ?; apply HD; by right) Hs1) as (w' & fl' & -> & Hs' & Hr' & Hm & Ha & Hn & Hl).
      exists w', fl'. unfold same_rest in *.
      assert (∀ x, let f := upd fl n (fl n .&~ NF_NODEST) x in
        marked f = marked (fl x) ∧ acyclic f = acyclic (fl x) ∧ nodest f = if decide (x = n) then false else nodest (fl x)) as Hf.
      { intros x. unfold upd. destruct (decide (x = n)) as [->|]; [|done].
        apply clear_NODEST. }
      split_and!; [done|done|by intuition congruence..| | | |].
      + intros x. rewrite Hm. apply Hf.
      + intros x. rewrite Ha. apply Hf.
      + intros x Hx. apply Hn. rewrite (proj2 (proj2 (Hf x))). by case_decide.
      + intros x [->|Hx]%elem_of_cons; [|by apply Hl]. apply Hn.
        rewrite (proj2 (proj2 (Hf n))). by rewrite decide_True. }
  destruct (H g w fl HD Hs) as (w' & fl' & ? & ? & ? & ? & ? & _ & ?). exists w', fl'. by split_and!.
Qed.

(** The loop that looks for a node on a cycle: it removes one, or shows that there is none. *)
Lemma cycle_loop_ok longest quiet K0 l : ∀ g fl w,
  shape g fl w → has_buffers K0 g w → quiet_flags g fl →
  (∀ n, n ∈ l → n ∈ g) → (∀ n, n ∈ g → n ∈ l ∨ ¬ tc (succ g) n n) →
  ∃ found w', cycle_loop longest quiet l w = Ok (found, w')
  ∧ if found : bool
    then ∃ g' fl' evs, shape g' fl' w' ∧ has_buffers K0 g' w' ∧ quiet_flags g' fl'
         ∧ output w' = output w ++ evs ∧ trace quiet g evs g' ∧ (length g' < length g)%nat
    else ∀ n, n ∈ g → ¬ tc (succ g) n n.
Proof.
  induction l as [|n l IH]; intros g fl w Hs Hb Hq Hl Hrest.
  { exists false, w. split; [done|]. intros n Hn. by destruct (Hrest n Hn) as [?%elem_of_nil|?]. }
  assert (n ∈ g) as Hn by (apply Hl; left). pose proof Hs as (Hg & Hnd & HD & _). pose proof Hq as (Hmk & Hnde & Hacy).
  cbn [cycle_loop]. rewrite (node_ok g fl) by auto. cbn [res_bind n_flags node_of]. rewrite has_ACYCLIC.
  destruct (acyclic (fl n)) eqn:Eac.
  - apply (IH g fl); [done|done|done|intros m ?; apply Hl; by right|].
    intros m Hm. destruct (Hrest m Hm) as [[->|?]%elem_of_cons|?]; auto.
  - rewrite Hg.
    destruct (search_ok longest K0 g fl w n Hs Hb Hq Hn Eac) as (r & w1 & fl1 & -> & Hs1 & Hb1 & Ho1 & Hm1 & Ha1 & Hn1 & Hr).
    cbn [res_bind]. destruct (decide (r = 0%nat)) as [->|Hr0].
    + cbn [Nat.eqb negb].
      destruct (set_flags_ok g fl1 w1 n (λ f, f .| NF_ACYCLIC) Hs1) as (w2 & -> & Hs2 & Hr2); [auto|].
      cbn [res_bind]. destruct (clear_cycle_ok _ _ _ Hs2) as (w3 & fl3 & -> & Hs3 & Hr3 & Hm3 & Ha3 & Hn3).
      cbn [res_bind]. unfold same_rest in *. destruct Hr2 as (? & ? & ?), Hr3 as (? & ? & ?).
      assert (∀ x, let f := upd fl1 n (fl1 n .| NF_ACYCLIC) x in
        marked f = marked (fl1 x) ∧ (acyclic f = true → acyclic (fl1 x) = true ∨ x = n)) as Hf.
      { intros x. unfold upd. destruct (decide (x = n)) as [->|]; [|auto]. split; [apply set_ACYCLIC|auto]. }
      destruct (IH g fl3 w3 Hs3) as (found & w' & E & Hw').
      * eapply has_buffers_frame; [done|done|congruence|congruence].
      * split_and!; [|done|].
        -- intros x. rewrite Hm3, (proj1 (Hf x)). apply Hm1.
        -- intros x Hx. rewrite Ha3 in Hx. apply Hf in Hx as [Hx| ->]; [|done]. apply Hacy. by rewrite <- Ha1.
      * intros m ?; apply Hl; by right.
      * intros m Hm. destruct (Hrest m Hm) as [[->|?]%elem_of_cons|?]; auto.
      * exists found, w'. split; [done|]. destruct found; [|done].
        destruct Hw' as (g' & fl' & evs & ? & ? & ? & Ho & ? & ?). exists g', fl', evs. split_and!; try done. congruence.
    + destruct Hr as (c & Hc & Hcyc). destruct (Nat.eqb_spec r 0) as [?|_]; [done|]. cbn [negb].
      set (e := if quiet then [] else [Cycle c]).
      assert (∃ w2, (if quiet then Ok w1 else let* c := cycle_names (longest_cycle w1) r in Ok (put w1 (Cycle c))) = Ok w2
        ∧ shape g fl1 w2 ∧ has_buffers K0 g w2 ∧ output w2 = output w1 ++ e) as (w2 & -> & Hs2 & Hb2 & Ho2).
      { unfold e. destruct quiet; [by exists w1; rewrite app_nil_r|]. rewrite Hc. by exists (put w1 (Cycle c)). }
      cbn [res_bind]. destruct (remove_node_ok g fl1 w2 n Hs2 Hn) as (w3 & -> & Hs3 & Ho3 & Hcb3 & Hlc3).
      cbn [res_bind]. fold (without n g) in Hs3.
      destruct (clear_cycle_ok _ _ _ Hs3) as (w4 & fl4 & -> & Hs4 & (Hcb4 & Hlc4 & Ho4) & Hm4 & Ha4 & Hn4).
      cbn [res_bind]. exists true, w4. split; [done|].
      assert (∀ m, m ∈ without n g → m ∈ g) as Hsub by (by intros m [_ ?]%elem_of_without).
      exists (without n g), fl4, (e ++ [Line n]). split_and!; [done| | | |by apply trace_cycle; [..|constructor]|by apply without_length].
      * eapply has_buffers_frame; [exact Hb2|done|congruence|congruence].
      * split_and!; [by intros x; rewrite Hm4|done|]. intros x Hx Htc. apply (Hacy x); [by rewrite <- Ha1, <- Ha4|].
        by eapply tc_succ_mono.
      * rewrite Ho4, Ho3, Ho2, Ho1. by rewrite app_assoc.
Qed.

(** ** The whole sort *)

(** Before the buffers are allocated every arc leads to a node that remains. *)
Definition ready (g : list name) (w : tsort_world) : Prop :=
  (cycle_buf w = None ∧ ∀ a b, succ g a b → b ∈ g) ∨ ∃ K0, has_buffers K0 g w.

Lemma alloc_cycle_ok g fl w :
  shape g fl w → ready g w →
  ∃ K0, shape g fl (alloc_cycle w) ∧ has_buffers K0 g (alloc_cycle w) ∧ output (alloc_cycle w) = output w.
Proof.
  intros Hs [[Hb Hg]|[K0 HK]]; unfold alloc_cycle.
  - rewrite Hb. exists g. split_and!; [done| |done]. pose proof Hs as (-> & _ & HD & _).
    split_and!; [done|done|done|]. exists (replicate (length g) None). cbn. by rewrite !length_replicate.
  - exists K0. destruct (cycle_buf w) eqn:E; [done|]. destruct HK as (_ & _ & _ & b & Hb & _). by rewrite E in Hb.
Qed.

Lemma quiet_flags_mono g g' fl : quiet_flags g fl → (∀ n, n ∈ g' → n ∈ g) → quiet_flags g' fl.
Proof.
  intros (H1 & H2 & H3) Hg. split_and!; [done|auto|]. intros x Hx Ht. apply (H3 x Hx). by eapply tc_succ_mono.
Qed.

Lemma tsort_loop_ok longest quiet fuel : ∀ g fl w,
  shape g fl w → ready g w → quiet_flags g fl → (length g < fuel)%nat →
  ∃ w' evs, tsort_loop fuel longest quiet w = Ok w' ∧ output w' = output w ++ evs ∧ trace quiet g evs [].
Proof.
  induction fuel as [|fuel IH]; intros g fl w Hs Hr Hq Hf; [lia|]. cbn [tsort_loop].
  pose proof Hs as (Hg & _). rewrite Hg. destruct g as [|x g0].
  { exists w, []. rewrite app_nil_r. split_and!; [done|done|constructor]. }
  set (g := x :: g0) in *.
  destruct (remove_loop_ok quiet fl (S (length g)) g w Hs) as (w1 & g1 & -> & Hs1 & (Hcb & Hlc & evs & Ho & Ht) & Hkt & Hp);
    [lia|]. cbn [res_bind]. pose proof Hs1 as (Hg1 & _). rewrite Hg1.
  destruct g1 as [|x1 g1']; [by exists w1, evs|]. set (g1 := x1 :: g1') in *.
  assert (∀ n, n ∈ g1 → n ∈ g) as Hsub by (by apply (trace_subset _ _ _ _ Ht)).
  assert (ready g1 w1) as Hr1.
  { destruct Hr as [[Hb Ha]|[K0 HK]]; [left|right; exists K0; by eapply has_buffers_frame].
    split; [congruence|]. intros a b Hab. apply (Hkt a b Hab). apply (Ha a). destruct Hab as [Ha' ?]. split; auto. }
  destruct (alloc_cycle_ok g1 fl w1 Hs1 Hr1) as (K0 & Hs2 & Hb2 & Ho2).
  pose proof Hs2 as (Hg2 & _). rewrite Hg2.
  destruct (cycle_loop_ok longest quiet K0 g1 g1 fl (alloc_cycle w1) Hs2 Hb2) as (found & w3 & -> & Hw3);
    [by eapply quiet_flags_mono|done|by left|]. cbn [res_bind]. destruct found.
  - destruct Hw3 as (g3 & fl3 & evs3 & Hs3 & Hb3 & Hq3 & Ho3 & Ht3 & Hlt).
    destruct (IH g3 fl3 w3 Hs3) as (w' & evs' & -> & Ho' & Ht'); [right; by exists K0|done| |].
    { apply trace_length in Ht. lia. }
    exists w', (evs ++ evs3 ++ evs'). split_and!; [done| |].
    + rewrite Ho', Ho3, Ho2, Ho. by rewrite <- !app_assoc.
    + eapply trace_trans; [done|]. by eapply trace_trans.
  - destruct (predecessors_cycle g1) as (n & Hn & Hc); [done|done|]. by destruct (Hw3 n Hn).
Qed.

End graph.

(** ** Reading the graph *)

Definition no_flags : name → Z := λ _, 0.
Definition good_graph (G : name → list name) (D : list name) : Prop :=
  (∀ n, n ∈ D → NoDup (G n) ∧ n ∉ G n ∧ ∀ m, m ∈ G n → m ∈ D) ∧ ∀ n, n ∉ D → G n = [].

(** The world after some of the input: its nodes, and the arcs [arc]. *)
Definition built (g : list name) (arc : name → name → Prop) (w : tsort_world) : Prop :=
  ∃ G, good_graph G g ∧ shape G g g no_flags w ∧ (∀ a b, b ∈ G a ↔ arc a b)
  ∧ cycle_buf w = None ∧ output w = [].

Lemma refs_unused G g n : good_graph G g → n ∉ g → refs G g n = 0.
Proof.
  intros [HG _] Hn. apply refs_zero. intros a [Ha Hna]. apply Hn. destruct (HG a Ha) as (_ & _ & H). auto.
Qed.

Lemma get_node_ok g arc w n :
  built g arc w → ∃ g', built g' arc (get_node w n) ∧ ∀ m, m ∈ g' ↔ m ∈ g ∨ m = n.
Proof.
  intros (G & [HG HG0] & (Hg & Hnd & _ & Hw) & Harc & Hcb & Ho). unfold get_node. rewrite Hw.
  destruct (decide (n ∈ g)) as [Hn|Hn].
  - exists g. split; [exists G; by split_and!|]. intros m. split; [auto|]. by intros [?| ->].
  - exists (n :: g). split; [|by intros m; rewrite elem_of_cons; tauto].
    assert (good_graph G (n :: g)) as HG'.
    { split.
      - intros m [->|Hm]%elem_of_cons.
        + rewrite HG0 by done. split_and!; [constructor|apply not_elem_of_nil|by intros m ?%elem_of_nil].
        + destruct (HG m Hm) as (? & ? & H). split_and!; [done..|]. intros k Hk. right. auto.
      - intros m [_ Hm]%not_elem_of_cons. auto. }
    exists G. split_and!; try done. cbn. split_and!; [by rewrite Hg|by constructor|done|].
    assert (∀ m, refs G (n :: g) m = refs G g m) as Hrefs.
    { intros m. unfold refs. rewrite filter_cons, decide_False; [done|]. rewrite HG0 by done. apply not_elem_of_nil. }
    intros m. cbn [nodes]. destruct (decide (m = n)) as [->|Hne].
    + rewrite lookup_insert_eq, (decide_True (P := n ∈ n :: g)) by left. unfold node_of.
      rewrite Hrefs, refs_unused by (done || by split). rewrite HG0 by done. by case_decide.
    + rewrite lookup_insert_ne, Hw by done. unfold node_of. rewrite Hrefs.
      destruct (decide (m ∈ g)).
      * rewrite (decide_True (P := m ∈ n :: g)) by by right. by rewrite (decide_True (P := m ∈ n :: g)) by by right.
      * by rewrite decide_False by (rewrite elem_of_cons; naive_solver).
Qed.

Lemma refs_add G g a b n :
  NoDup g → a ∈ g → b ∉ G a →
  refs (λ x, if decide (x = a) then G a ++ [b] else G x) g n = refs G g n + (if decide (n = b) then 1 else 0).
Proof.
  intros Hnd Ha Hb. unfold refs. induction Hnd as [|x g Hx Hnd IH]; [by apply elem_of_nil in Ha|].
  rewrite !filter_cons. destruct (decide (x = a)) as [->|Hne].
  - assert (∀ l, a ∉ l → length (filter (λ x, n ∈ (if decide (x = a) then G a ++ [b] else G x)) l)
      = length (filter (λ x, n ∈ G x) l)) as Hsame.
    { clear. induction l as [|y l IH]; intros Hl; [done|]. apply not_elem_of_cons in Hl as [Hy Hl].
      rewrite !filter_cons. rewrite (decide_False (P := y = a)) by done.
      destruct (decide (n ∈ G y)); simpl; by rewrite IH. }
    destruct (decide (n = b)) as [->|Hnb].
    + rewrite (decide_True (P := b ∈ G a ++ [b])) by (apply elem_of_app; right; left).
      rewrite (decide_False (P := b ∈ G a)) by done. cbn [length]. rewrite Hsame by done. lia.
    + destruct (decide (n ∈ G a)).
      * rewrite decide_True by (apply elem_of_app; by left). cbn [length]. rewrite Hsame by done. lia.
      * rewrite decide_False by (rewrite elem_of_app, list_elem_of_singleton; naive_solver).
        rewrite Hsame by done. lia.
  - apply elem_of_cons in Ha as [?|Ha]; [congruence|]. specialize (IH Ha).
    destruct (decide (n ∈ G x)); cbn [length]; lia.
Qed.

Lemma add_arc_ok g arc w a b :
  built g arc w → ∃ w' g', add_arc w a b = Ok w'
  ∧ built g' (λ x y, arc x y ∨ (x = a ∧ y = b ∧ a ≠ b)) w' ∧ ∀ m, m ∈ g' ↔ m ∈ g ∨ m = a ∨ m = b.
Proof.
  intros Hb. destruct (get_node_ok g arc w a Hb) as (g1 & Hb1 & Hg1). unfold add_arc.
  destruct (decide (a = b)) as [->|Hab].
  { eexists _, g1. split; [done|]. split; [|by intros m; rewrite Hg1; tauto].
    destruct Hb1 as (G & ? & ? & Harc & ?). exists G. split_and!; try tauto. intros x y. rewrite Harc. tauto. }
  destruct (get_node_ok g1 arc (get_node w a) b Hb1) as (g2 & (G & HG & Hs & Harc & Hcb & Ho) & Hg2).
  set (w2 := get_node (get_node w a) b) in *.
  assert (a ∈ g2) as Ha by (apply Hg2; left; apply Hg1; by right).
  assert (b ∈ g2) as Hbg by (apply Hg2; by right).
  rewrite (node_ok G g2 g2 no_flags w2 a Hs Ha), (node_ok G g2 g2 no_flags w2 b Hs Hbg). cbn [res_bind].
  assert (n_arcs (node_of G g2 no_flags a) = G a) as -> by (cbn; by rewrite (decide_True (P := a ∈ g2)) by done).
  assert (∀ m, m ∈ g2 ↔ m ∈ g ∨ m = a ∨ m = b) as Hg by (intros m; rewrite Hg2, Hg1; tauto).
  destruct (decide (b ∈ G a)) as [Hba|Hba].
  { exists w2, g2. split; [done|]. split; [|done]. exists G. split_and!; try done.
    intros x y. rewrite Harc. split; [tauto|]. intros [?|(-> & -> & _)]; [done|by apply Harc]. }
  eexists _, g2. split; [done|]. split; [|done].
  exists (λ x, if decide (x = a) then G a ++ [b] else G x). destruct HG as [HG HG0].
  split; [split|split; [|split_and!]].
  - intros n Hn. destruct (decide (n = a)) as [->|]; [|by apply HG]. destruct (HG a Hn) as (Hnd & Hna & Hin).
    split_and!.
    + apply NoDup_app. split_and!; [done|by intros x Hx ->%list_elem_of_singleton|apply NoDup_singleton].
    + by intros [?| ->%list_elem_of_singleton]%elem_of_app.
    + intros m [?| ->%list_elem_of_singleton]%elem_of_app; auto.
  - intros n Hn. rewrite decide_False; [by apply HG0|]. by intros ->.
  - destruct Hs as (H1 & H2 & H3 & H4). split_and!; [done|done|done|]. intros n. cbn.
    pose proof (refs_add G g2 a b n H2 Ha Hba) as Hr. unfold node_of in *. rewrite Hr.
    destruct (decide (n = b)) as [->|Hnb].
    + rewrite lookup_insert_eq. rewrite (decide_False (P := b = a)) by congruence.
      by destruct (decide (b ∈ g2)).
    + rewrite lookup_insert_ne by congruence. destruct (decide (n = a)) as [->|Hna].
      * rewrite lookup_insert_eq, Z.add_0_r. by destruct (decide (a ∈ g2)).
      * rewrite lookup_insert_ne by congruence. rewrite H4. destruct (decide (n ∈ g2)); [|done].
        by rewrite Z.add_0_r.
  - intros x y. destruct (decide (x = a)) as [->|Hx].
    + rewrite elem_of_app, list_elem_of_singleton, Harc. naive_solver.
    + rewrite Harc. naive_solver.
  - done.
  - done.
Qed.

(** The pairs of the input. *)
Fixpoint pairs (reverse : bool) (ws : list name) : list (name * name) :=
  match ws with
  | a :: b :: ws => (if reverse then (b, a) else (a, b)) :: pairs reverse ws
  | _ => []
  end.
Definition arc_of (reverse : bool) (ws : list name) (a b : name) : Prop := (a, b) ∈ pairs reverse ws ∧ a ≠ b.

Lemma read_pairs_ok reverse k : ∀ ws g arc w, (length ws = 2 * k)%nat → built g arc w →
  ∃ w' g', read_pairs reverse ws w = Ok w' ∧ built g' (λ x y, arc x y ∨ arc_of reverse ws x y) w'
  ∧ ∀ m, m ∈ g' ↔ m ∈ g ∨ m ∈ ws.
Proof.
  induction k as [|k IH]; intros ws g arc w Hk Hb.
  - destruct ws; [|simpl in Hk; lia]. exists w, g. split; [done|]. split.
    + destruct Hb as (G & ? & ? & Harc & ?). exists G. split_and!; try tauto. intros x y. rewrite Harc.
      split; [tauto|]. intros [?|[?%elem_of_nil _]]; done.
    + intros m. split; [auto|]. by intros [?|?%elem_of_nil].
  - destruct ws as [|a [|b ws]]; [simpl in Hk; lia..|]. cbn [read_pairs].
    destruct (add_arc_ok g arc w (if reverse then b else a) (if reverse then a else b) Hb) as (w1 & g1 & E & Hb1 & Hg1).
    assert ((if reverse then add_arc w b a else add_arc w a b) = Ok w1) as -> by (by destruct reverse).
    cbn [res_bind]. destruct (IH ws g1 _ w1 ltac:(simpl in Hk; lia) Hb1) as (w' & g' & -> & Hb' & Hg').
    exists w', g'. split; [done|]. split.
    + destruct Hb' as (G & ? & ? & Harc & ?). exists G. split_and!; try tauto. intros x y. rewrite Harc.
      unfold arc_of. cbn [pairs]. rewrite elem_of_cons. destruct reverse; naive_solver.
    + intros m. rewrite Hg', Hg1, !elem_of_cons. destruct reverse; tauto.
Qed.

Lemma read_pairs_odd reverse k : ∀ ws w g arc, (length ws = 2 * k + 1)%nat → built g arc w → read_pairs reverse ws w = Err 1.
Proof.
  induction k as [|k IH]; intros ws w g arc Hk Hb.
  - by destruct ws as [|a [|b ws]]; [simpl in Hk; lia| |simpl in Hk; lia].
  - destruct ws as [|a [|b ws]]; [simpl in Hk; lia..|]. cbn [read_pairs].
    destruct (add_arc_ok g arc w (if reverse then b else a) (if reverse then a else b) Hb) as (w1 & g1 & E & Hb1 & Hg1).
    assert ((if reverse then add_arc w b a else add_arc w a b) = Ok w1) as -> by (by destruct reverse).
    eapply IH; [simpl in Hk; lia|done].
Qed.

Lemma built_empty : built [] (λ _ _, False) (mkWorld [] ∅ None [] []).
Proof.
  exists (λ _, []). split_and!; try done.
  - split; [|done]. by intros n ?%elem_of_nil.
  - split_and!; [done|constructor|done|]. intros n. cbn. rewrite lookup_empty.
    rewrite decide_False; [done|]. apply not_elem_of_nil.
  - intros a b. split; [|done]. apply not_elem_of_nil.
Qed.

(** The program is a trace of the abstract algorithm on the graph of the input. *)
Lemma main_trace longest quiet reverse input k :
  (length (get_words input []) = 2 * k)%nat →
  ∃ G g out, main longest quiet reverse input = Ok out ∧ trace G quiet g out [] ∧ NoDup g
  ∧ (∀ n, n ∈ g ↔ n ∈ get_words input []) ∧ ∀ a b, b ∈ G a ↔ arc_of reverse (get_words input []) a b.
Proof.
  intros Hk. unfold main. set (ws := get_words input []) in *.
  destruct (read_pairs_ok reverse k ws [] _ _ Hk built_empty) as (w & g & -> & (G & [HG HG0] & Hs & Harc & Hcb & Ho) & Hg).
  cbn [res_bind]. pose proof Hs as (Hgr & Hnd & _ & _). unfold tsort.
  destruct (tsort_loop_ok G g HG longest quiet (S (length (graph w))) g no_flags w Hs) as (w' & evs & -> & Ho' & Ht).
  - left. split; [done|]. intros a b [Ha Hb]. by apply (HG a Ha).
  - split_and!; [done|done|]. intros x Hx. done.
  - rewrite Hgr. lia.
  - exists G, g, evs. cbn [res_bind]. rewrite Ho', Ho. split_and!; [done|done|done| |].
    + intros n. rewrite Hg. split; [|auto]. by intros [?%elem_of_nil|?].
    + intros a b. rewrite Harc. tauto.
Qed.

(** ** What is printed *)

(** The lines of standard output. *)
Fixpoint lines (evs : list event) : list name :=
  match evs with
  | [] => []
  | Line n :: evs => n :: lines evs
  | Cycle _ :: evs => lines evs
  end.

(** The elements of [l] follow one another from [x] along [R]. *)
Fixpoint chain (R : name → name → Prop) (x : name) (l : list name) : Prop :=
  match l with [] => True | y :: l => R x y ∧ chain R y l end.

Lemma lines_cycle (quiet : bool) c evs : lines ((if quiet then [] else [Cycle c]) ++ evs) = lines evs.
Proof. by destruct quiet. Qed.

Lemma without_perm n g : NoDup g → n ∈ g → n :: without n g ≡ₚ g.
Proof.
  intros Hnd Hn. apply NoDup_Permutation; [|done|].
  - apply NoDup_cons. split; [by intros [? _]%elem_of_without|by apply NoDup_filter].
  - intros m. rewrite elem_of_cons, elem_of_without. destruct (decide (m = n)) as [->|]; naive_solver.
Qed.

Lemma trace_lines G quiet g evs g' : trace G quiet g evs g' → NoDup g → lines evs ++ g' ≡ₚ g.
Proof.
  induction 1 as [|g n evs g' Hn _ _ IH|g n c evs g' Hn _ _ IH]; intros Hnd; [done|..];
    rewrite ?lines_cycle; cbn [lines app];
    (rewrite IH by (by apply NoDup_filter); by apply without_perm).
Qed.

Lemma tc_impl (R S : name → name → Prop) x y : (∀ a b, R a b → S a b) → tc R x y → tc S x y.
Proof. intros H Ht. induction Ht as [|x y z ? _ IH]; [apply tc_once; auto|eapply tc_l; eauto]. Qed.

Lemma trace_order G quiet g evs g' : trace G quiet g evs g' → ∀ l1 b l2, lines evs = l1 ++ b :: l2 →
  (∀ a, succ G g a b → a ∈ l1) ∨ tc (λ x y, succ G g x y ∧ x ∉ l1) b b.
Proof.
  assert (∀ g n l1 b,
    (∀ a, succ G (without n g) a b → a ∈ l1) ∨ tc (λ x y, succ G (without n g) x y ∧ x ∉ l1) b b →
    (∀ a, succ G g a b → a ∈ n :: l1) ∨ tc (λ x y, succ G g x y ∧ x ∉ n :: l1) b b) as Hstep.
  { intros g0 n l1 b [H|H]; [left|right].
    - intros a [Ha Hab]. rewrite elem_of_cons. destruct (decide (a = n)) as [->|Hne]; [by left|right].
      apply H. split; [|done]. by apply elem_of_without.
    - eapply tc_impl; [|done]. intros x y [[Hx Hxy] Hl]. apply elem_of_without in Hx as [Hxn Hx].
      split; [by split|]. by intros [?|?]%elem_of_cons. }
  induction 1 as [|g n evs g' Hn Hsrc _ IH|g n c evs g' Hn Hc _ IH]; intros l1 b l2 E.
  - by destruct l1.
  - cbn [lines] in E. destruct l1 as [|x l1]; injection E as -> E.
    + left. intros a Ha. by destruct (Hsrc a).
    + apply Hstep. by eapply IH.
  - rewrite lines_cycle in E. cbn [lines] in E. destruct l1 as [|x l1]; injection E as -> E.
    + right. apply is_cycle_tc in Hc. eapply tc_impl; [|done]. intros x y H. split; [done|apply not_elem_of_nil].
    + apply Hstep. by eapply IH.
Qed.

Lemma walk_chain G g x l : walk G g x l → chain (succ G g) x l.
Proof. revert x. induction l as [|y l IH]; intros x; [done|]. intros [? ?]. split; auto. Qed.

Lemma chain_impl (R S : name → name → Prop) x l : (∀ a b, R a b → S a b) → chain R x l → chain S x l.
Proof. intros H. revert x. induction l as [|y l IH]; intros x; [done|]. intros [? ?]. split; auto. Qed.

Lemma trace_cycles G quiet g evs g' : trace G quiet g evs g' → ∀ e1 c e2, evs = e1 ++ Cycle c :: e2 →
  ∃ n e3, e2 = Line n :: e3 ∧ c ≠ [] ∧ last c = Some n ∧ chain (λ x y, succ G g x y ∧ x ∉ lines e1) n c.
Proof.
  assert (∀ g n e1 c m, chain (λ x y, succ G (without n g) x y ∧ x ∉ lines e1) m c →
    chain (λ x y, succ G g x y ∧ x ∉ n :: lines e1) m c) as Hstep.
  { intros g0 n e1 c m. apply chain_impl. intros x y [[Hx Hxy] Hl]. apply elem_of_without in Hx as [Hxn Hx].
    split; [by split|]. by intros [?|?]%elem_of_cons. }
  induction 1 as [|g n evs g' Hn Hsrc _ IH|g n c0 evs g' Hn Hc _ IH]; intros e1 c e2 E.
  - by destruct e1.
  - destruct e1 as [|e e1]; [done|]. injection E as <- E.
    destruct (IH _ _ _ E) as (m & e3 & ? & ? & ? & ?). exists m, e3. split_and!; [done..|]. by apply Hstep.
  - destruct quiet; cbn [app] in E.
    + destruct e1 as [|e e1]; [done|]. injection E as <- E.
      destruct (IH _ _ _ E) as (m & e3 & ? & ? & ? & ?). exists m, e3. split_and!; [done..|]. by apply Hstep.
    + destruct e1 as [|e e1]; injection E as <- E.
      * subst e2. destruct Hc as (Hne & Hw & Hl). exists n, evs. split_and!; [done..|].
        eapply chain_impl; [|by apply walk_chain]. intros x y H. split; [done|apply not_elem_of_nil].
      * destruct e1 as [|e e1]; [done|]. injection E as <- E.
        destruct (IH _ _ _ E) as (m & e3 & ? & ? & ? & ?). exists m, e3. split_and!; [done..|]. by apply Hstep.
Qed.

(** C12.  The program ends for every input and every choice of -l, -q and -r (the lines that
    -d prints besides are not modelled): with an even number of words it
    prints every name that occurs, and prints it once - it always finds the cycle it needs
    to go on, within its buffers - and with an odd number it reports the error. *)
Theorem tsort_prints_all (longest quiet reverse : bool) (input : list Z) :
  let ws := get_words input [] in
  if Nat.even (length ws)
  then ∃ out, main longest quiet reverse input = Ok out ∧ NoDup (lines out) ∧ ∀ n, n ∈ lines out ↔ n ∈ ws
  else main longest quiet reverse input = Err 1.
Proof.
  intros ws. destruct (Nat.even (length ws)) eqn:E.
  - apply Nat.even_spec in E as [k Hk].
    destruct (main_trace longest quiet reverse input k Hk) as (G & g & out & H & Ht & Hnd & Hg & _).
    exists out. apply trace_lines in Ht; [|done]. rewrite app_nil_r in Ht.
    split_and!; [done|by rewrite Ht|]. intros n. rewrite Ht. apply Hg.
  - assert (Nat.odd (length ws) = true) as [k Hk]%Nat.odd_spec by (unfold Nat.odd; by rewrite E).
    unfold main. fold ws. by rewrite (read_pairs_odd reverse k ws _ [] _ Hk built_empty).
Qed.

Lemma main_ok_trace longest quiet reverse input out :
  main longest quiet reverse input = Ok out →
  ∃ G g, trace G quiet g out [] ∧ (∀ a b, succ G g a b ↔ arc_of reverse (get_words input []) a b).
Proof.
  intros H. destruct (Nat.even (length (get_words input []))) eqn:E.
  - apply Nat.even_spec in E as [k Hk].
    destruct (main_trace longest quiet reverse input k Hk) as (G & g & out' & H' & Ht & Hnd & Hg & HG).
    rewrite H in H'. injection H' as <-. exists G, g. split; [done|]. intros a b. unfold succ. rewrite HG, Hg.
    split; [by intros [_ ?]|]. intros Hab. split; [|done]. destruct Hab as [Hab _].
    revert Hab. generalize (get_words input []). clear. intros ws.
    assert (∀ n ws, (length ws <= n)%nat → (a, b) ∈ pairs reverse ws → a ∈ ws) as Hin; [|by apply (Hin (length ws))].
    clear. induction n as [|n IH]; intros ws Hn Hab; destruct ws as [|x [|y ws]]; try by apply elem_of_nil in Hab.
    + simpl in Hn. lia.
    + cbn [pairs] in Hab. apply elem_of_cons in Hab as [Hab|Hab].
      * destruct reverse; injection Hab as -> ->; [right; left|left].
      * right; right. apply IH; [simpl in Hn; lia|done].
  - pose proof (read_pairs_odd reverse (Nat.div2 (length (get_words input []))) (get_words input [])
      (mkWorld [] ∅ None [] []) [] (λ _ _, False)) as Hodd.
    unfold main in H. rewrite Hodd in H; [done| |exact built_empty].
    assert (Nat.odd (length (get_words input [])) = true) as Ho by (unfold Nat.odd; by rewrite E).
    pose proof (Nat.div2_odd (length (get_words input []))) as Hd. rewrite Ho in Hd. simpl in Hd. lia.
Qed.

(** C15.  The output is sorted: for every name, each name that the input puts before it has
    been printed before it, or else the name lies on a cycle among those not printed yet.
    In particular an input without cycles is sorted topologically. *)
Theorem tsort_order (longest quiet reverse : bool) (input : list Z) (out : list event) (l1 : list name) (b : name) (l2 : list name) :
  main longest quiet reverse input = Ok out → lines out = l1 ++ b :: l2 →
  (∀ a, arc_of reverse (get_words input []) a b → a ∈ l1)
  ∨ tc (λ x y, arc_of reverse (get_words input []) x y ∧ x ∉ l1) b b.
Proof.
  intros H El. destruct (main_ok_trace _ _ _ _ _ H) as (G & g & Ht & HG).
  destruct (trace_order G quiet g out [] Ht l1 b l2 El) as [Ha|Hc]; [left|right].
  - intros a Hab. by apply Ha, HG.
  - eapply tc_impl; [|done]. intros x y [? ?]. split; [by apply HG|done].
Qed.

Example tsort_order_witness :
  (∀ a, arc_of false (get_words (str "a b b c") []) a (str "c") → a ∈ [str "a"; str "b"])
  ∨ tc (λ x y, arc_of false (get_words (str "a b b c") []) x y ∧ x ∉ [str "a"; str "b"]) (str "c") (str "c").
Proof.
  apply (tsort_order false false false (str "a b b c") [Line (str "a"); Line (str "b"); Line (str "c")]
    [str "a"; str "b"] (str "c") []); by vm_compute.
Defined.

(** C36.  Every cycle that is reported is one: it comes just before the line of its last name
    [n], its names follow one another along arcs of the input from [n] back to [n], and
    none of them has been printed before. *)
Theorem tsort_reports_cycles (longest quiet reverse : bool) (input : list Z) (e1 : list event) (c : list name) (e2 : list event) :
  main longest quiet reverse input = Ok (e1 ++ Cycle c :: e2) →
  ∃ n e3, e2 = Line n :: e3 ∧ c ≠ [] ∧ last c = Some n
  ∧ chain (λ x y, arc_of reverse (get_words input []) x y ∧ x ∉ lines e1) n c.
Proof.
  intros H. destruct (main_ok_trace _ _ _ _ _ H) as (G & g & Ht & HG).
  destruct (trace_cycles G quiet g _ [] Ht e1 c e2 eq_refl) as (n & e3 & ? & ? & ? & Hc).
  exists n, e3. split_and!; [done..|]. eapply chain_impl; [|done]. intros x y [? ?]. split; [by apply HG|done].
Qed.

Example tsort_reports_cycles_witness :
  ∃ n e3, [Line (str "c"); Line (str "a"); Line (str "b")] = Line n :: e3 ∧ [str "a"; str "b"; str "c"] ≠ []
  ∧ last [str "a"; str "b"; str "c"] = Some n
  ∧ chain (λ x y, arc_of false (get_words (str "a b b c c a d a") []) x y ∧ x ∉ lines [Line (str "d")])
      n [str "a"; str "b"; str "c"].
Proof.
  apply (tsort_reports_cycles false false false (str "a b b c c a d a") [Line (str "d")]
    [str "a"; str "b"; str "c"]). by vm_compute.
Defined.

(** The option -l does not always find the longest cycle from the node it starts at: here
    it reports a b of two nodes, where a c b has three. *)
Lemma tsort_longest_missed :
  (∃ e, main true false false (str "b c c b b a a b a c") = Ok (Cycle [str "b"; str "a"] :: e))
  ∧ let arcs := pairs false (get_words (str "b c c b b a a b a c") []) in
    (str "a", str "c") ∈ arcs ∧ (str "c", str "b") ∈ arcs ∧ (str "b", str "a") ∈ arcs.
Proof.
  split; [eexists; vm_compute; reflexivity|].
  split_and!; apply (bool_decide_unpack _); vm_compute; exact I.
Qed.
