(* ===== verification/Look.v ===== *)
(** * look: usr.bin/look/look.c

    The lines of a sorted file that begin with a string.  The file is the list of its
    bytes, a pointer into it the index of a byte; a [char] is signed. *)

From S2P Require Import Prelude Libc.

Definition EQUAL : Z := 0.
Definition GREATER : Z := 1.
Definition LESS : Z := -1.
Definition NO_COMPARE : Z := -2.
Definition NL : Z := 10.

Definition isascii (c : Z) : bool := (0 <=? c) && (c <=? 127).
Definition FOLD (c : Z) : Z := if isascii c && isupper c then tolower c else c.
Definition DICT (c : Z) : Z := if isascii c && isalnum c then c else NO_COMPARE.

Section look.
Context (dflag fflag : bool).

(** The form in which a byte takes part in comparisons. *)
Definition form (c : Z) : Z :=
  let k := s8 c in
  let k := if fflag then FOLD k else k in
  if dflag then DICT k else k.

(** The first loop of [look]. *)
Fixpoint reformat (string : list Z) : list Z :=
  match string with
  | [] => []
  | c :: string => if form c =? NO_COMPARE then reformat string else form c :: reformat string
  end.

(** The bytes from [p] to before [back]. *)
Definition region (text : list Z) (p back : nat) : list Z := take (back - p) (drop p text).

(** [compare(s1, s2, back)], with the bytes [s2] up to [back]; after a byte that does not
    take part [s2] is advanced twice, and [s1] once. *)
Fixpoint compare (s1 s2 : list Z) : Z :=
  match s1 with
  | [] => EQUAL
  | c1 :: s1 =>
      match s2 with
      | [] => GREATER
      | c2 :: s2 =>
          if c2 =? NL then GREATER
          else
            let k := form c2 in
            if k =? NO_COMPARE then compare s1 (tail s2)
            else if negb (c1 =? k) then if c1 <? k then LESS else GREATER
            else compare s1 s2
      end
  end.

(** [SKIP_PAST_NEWLINE]: how far. *)
Fixpoint past_newline (r : list Z) : nat :=
  match r with [] => 0 | c :: r => if c =? NL then 1 else S (past_newline r) end.
Definition SKIP_PAST_NEWLINE (text : list Z) (p back : nat) : nat :=
  (p + past_newline (region text p back))%nat.

Definition halfway (text : list Z) (front back : nat) : nat :=
  SKIP_PAST_NEWLINE text (front + (back - front) / 2) back.

(** The loop of [binary_search], which starts with [p] halfway. *)
Fixpoint search_loop (fuel : nat) (string text : list Z) (front back : nat) : res nat :=
  match fuel with
  | O => Fault
  | S fuel =>
      let p := halfway text front back in
      if ((p <? back) && (front <? back))%nat then
        if compare string (region text p back) =? GREATER
        then search_loop fuel string text p back
        else search_loop fuel string text front p
      else Ok front
  end.
Definition binary_search (string text : list Z) (front back : nat) : res nat :=
  search_loop (S (back - front)) string text front back.

Fixpoint linear_loop (fuel : nat) (string text : list Z) (front back : nat) : res (option nat) :=
  match fuel with
  | O => Fault
  | S fuel =>
      if (front <? back)%nat then
        let r := compare string (region text front back) in
        if r =? EQUAL then Ok (Some front)
        else if r =? LESS then Ok None
        else linear_loop fuel string text (SKIP_PAST_NEWLINE text front back) back
      else Ok None
  end.
Definition linear_search (string text : list Z) (front back : nat) : res (option nat) :=
  linear_loop (S (back - front)) string text front back.

(** The bytes up to a newline. *)
Fixpoint line_of (r : list Z) : list Z :=
  match r with [] => [] | c :: r => if c =? NL then [] else c :: line_of r end.

(** What [print_from] prints. *)
Fixpoint print_loop (fuel : nat) (string text : list Z) (front back : nat) : res (list Z) :=
  match fuel with
  | O => Fault
  | S fuel =>
      if (front <? back)%nat && (compare string (region text front back) =? EQUAL) then
        let l := line_of (region text front back) in
        let* out := print_loop fuel string text (front + length l + 1)%nat back in
        Ok (l ++ [NL] ++ out)
      else Ok []
  end.
Definition print_from (string text : list Z) (front back : nat) : res (list Z) :=
  print_loop (S (back - front)) string text front back.

(** The status and the output. *)
Definition look (string text : list Z) : res (Z * list Z) :=
  let string := reformat string in
  let* front := binary_search string text 0 (length text) in
  let* front := linear_search string text front (length text) in
  match front with
  | Some front => let* out := print_from string text front (length text) in Ok (0, out)
  | None => Ok (1, [])
  end.

End look.

(** The string up to the first [termchar], which is kept. *)
Fixpoint cut_at (termchar : Z) (string : list Z) : list Z :=
  match string with
  | [] => []
  | c :: string => if c =? termchar then [c] else c :: cut_at termchar string
  end.

(** [main] with the options -d, -f and -t, and whether a file was named: without one both
    flags are set.  [mmap] maps the bytes of the file; of an empty file it maps
    nothing and fails (EINVAL), and the program exits with 2. *)
Definition look_main (d f : bool) (termchar : Z) (named : bool) (string text : list Z) : res (Z * list Z) :=
  let string := if negb (termchar =? 0) then cut_at termchar string else string in
  if bool_decide (text = []) then Err 2 else look (d || negb named) (f || negb named) string text.
