(* ===== verification/LookSpec.v ===== *)
(** * Correctness of look

    The lines of a text, the order [look] supposes them to be in, and what the binary
    search, the linear search and the printing come to on a sorted text. *)

From stdpp Require Import sorting.
From S2P Require Import Prelude Libc Look.

(** ** What is printed *)

(** The lines of a file; the last one may lack its newline. *)
Fixpoint lines_from (l r : list Z) : list (list Z) :=
  match r with
  | [] => match l with [] => [] | _ => [l] end
  | c :: r => if c =? NL then l :: lines_from [] r else lines_from (l ++ [c]) r
  end.
Definition lines_of (text : list Z) : list (list Z) := lines_from [] text.

(** The order of the keys: that of [compare], with a shorter key first. *)
Fixpoint key_le (k1 k2 : list Z) : bool :=
  match k1, k2 with
  | [], _ => true
  | _, [] => false
  | a :: k1, b :: k2 => if a =? b then key_le k1 k2 else a <? b
  end.
Fixpoint is_prefix (s k : list Z) : bool :=
  match s, k with
  | [], _ => true
  | a :: s, b :: k => (a =? b) && is_prefix s k
  | _, [] => false
  end.

(** The comparison of a string with the key of a line. *)
Fixpoint compare_key (s k : list Z) : Z :=
  match s, k with
  | [], _ => EQUAL
  | _ :: _, [] => GREATER
  | a :: s, b :: k => if a =? b then compare_key s k else if a <? b then LESS else GREATER
  end.

Lemma compare_key_equal s k : compare_key s k = EQUAL ↔ is_prefix s k = true.
Proof.
  revert k. induction s as [|a s IH]; intros [|b k]; cbn; try done.
  destruct (Z.eqb_spec a b); cbn; [apply IH|]. by destruct (a <? b).
Qed.

Lemma compare_key_cases s k : compare_key s k = EQUAL ∨ compare_key s k = GREATER ∨ compare_key s k = LESS.
Proof.
  revert k. induction s as [|a s IH]; intros [|b k]; cbn; auto.
  destruct (a =? b); [apply IH|]. destruct (a <? b); auto.
Qed.

Lemma compare_key_mono s k1 k2 : key_le k1 k2 = true →
  (compare_key s k2 = GREATER → compare_key s k1 = GREATER)
  ∧ (compare_key s k1 = LESS → compare_key s k2 = LESS)
  ∧ (compare_key s k1 = EQUAL → compare_key s k2 ≠ GREATER).
Proof.
  revert k1 k2. induction s as [|a s IH]; intros k1 k2 Hle; [done|].
  destruct k1 as [|b1 k1], k2 as [|b2 k2]; cbn in *; try done.
  destruct (Z.eqb_spec b1 b2) as [->|Hne].
  - destruct (a =? b2); [by apply IH|]. by destruct (a <? b2).
  - destruct (Z.eqb_spec a b1), (Z.eqb_spec a b2); try lia; repeat case_match; split_and!; intros; try done; try lia.
Qed.

Section look.
Context (dflag fflag : bool).

Definition key (l : list Z) : list Z := form dflag fflag <$> l.

(** Bytes that take part in the comparison. *)
Definition takes_part (c : Z) : Prop := c ≠ NL → form dflag fflag c ≠ NO_COMPARE.
#[global] Instance takes_part_dec c : Decision (takes_part c).
Proof. unfold takes_part. apply _. Defined.

Lemma compare_line s r :
  Forall takes_part r → compare dflag fflag s r = compare_key s (key (line_of r)).
Proof.
  intros Hr. revert s. induction Hr as [|c r Hc Hr IH]; intros [|a s]; cbn [compare line_of]; try done.
  destruct (Z.eqb_spec c NL) as [->|Hne]; [done|].
  destruct (Z.eqb_spec (form dflag fflag c) NO_COMPARE) as [E|_]; [by destruct (Hc Hne)|].
  cbn. destruct (a =? form dflag fflag c); [apply IH|done].
Qed.

Lemma lines_from_app l r :
  lines_from l r = match line_of r, drop (length (line_of r)) r with
                   | x, [] => match l ++ x with [] => [] | _ => [l ++ x] end
                   | x, _ :: r' => (l ++ x) :: lines_from [] r'
                   end.
Proof.
  revert l. induction r as [|c r IH]; intros l; cbn [lines_from line_of]; [by rewrite app_nil_r|].
  destruct (c =? NL); cbn [length drop]; [by rewrite app_nil_r|].
  rewrite IH. rewrite <- app_assoc. cbn [app]. by destruct (drop (length (line_of r)) r).
Qed.

(** The first line, and where the next one begins. *)
Lemma lines_of_cons r :
  r ≠ [] → lines_of r = line_of r :: lines_of (drop (past_newline r) r)
  ∧ (0 < past_newline r <= length r)%nat
  ∧ (past_newline r = length (line_of r) + 1 ∨ past_newline r = length (line_of r) ∧ past_newline r = length r)%nat.
Proof.
  intros Hr. unfold lines_of. rewrite lines_from_app. cbn [app].
  assert ((drop (length (line_of r)) r = [] ∧ past_newline r = length r ∧ length (line_of r) = length r)
    ∨ (∃ r', drop (length (line_of r)) r = NL :: r' ∧ past_newline r = S (length (line_of r))
      ∧ drop (past_newline r) r = r' ∧ S (length (line_of r)) <= length r)%nat) as H.
  { clear Hr. induction r as [|c r IH]; cbn [line_of past_newline]; [by left|].
    destruct (Z.eqb_spec c NL) as [->|Hne].
    - right. exists r. cbn. split_and!; [done..|lia].
    - cbn [length drop]. destruct IH as [(-> & -> & ->)|(r' & -> & Hp & Hd & Hl)]; [left; done|right].
      exists r'. rewrite Hp in *. split_and!; [done..|lia]. }
  assert (1 <= length r)%nat by (destruct r; [done|simpl; lia]).
  destruct H as [(-> & Hp & Hl)|(r' & -> & Hp & -> & Hl)].
  - rewrite Hp, drop_all. split_and!; [|lia|lia|lia]. destruct (line_of r) eqn:E; [simpl in Hl; lia|]. done.
  - split_and!; [done|lia|lia|lia].
Qed.

(** ** Positions in the file *)

Definition ended (a : list Z) : Prop := a = [] ∨ last a = Some NL.

Lemma lines_of_app a r : ended a → lines_of (a ++ r) = lines_of a ++ lines_of r.
Proof.
  intros [->|Ha]; [done|]. unfold lines_of. generalize (@nil Z) at 1 2.
  induction a as [|c a IH]; intros l; [done|]. cbn [app lines_from]. destruct a as [|c' a].
  - injection Ha as ->. done.
  - rewrite last_cons_cons in Ha. destruct (c =? NL); [cbn [app]; f_equal|]; by rewrite <- IH.
Qed.

Lemma past_newline_ended r : (past_newline r < length r)%nat → ended (take (past_newline r) r).
Proof.
  intros H. right. induction r as [|c r IH]; [simpl in H; lia|]. cbn [past_newline length] in *.
  destruct (Z.eqb_spec c NL) as [->|_]; [done|]. cbn [take]. specialize (IH ltac:(lia)).
  destruct (take (past_newline r) r) eqn:E; [done|]. by rewrite last_cons_cons.
Qed.

Lemma ended_app a b : ended a → ended b → ended (a ++ b).
Proof.
  intros Ha [->|Hb]; [by rewrite app_nil_r|]. right. rewrite last_app. by rewrite Hb.
Qed.

Lemma region_mid (a m z : list Z) p :
  region (a ++ m ++ z) (length a + p) (length a + length m) = drop p m.
Proof.
  unfold region. rewrite drop_app_ge by lia. replace (length a + p - length a)%nat with p by lia.
  destruct (Nat.le_gt_cases p (length m)).
  - rewrite drop_app_le by lia. rewrite take_app_le by (rewrite length_drop; lia).
    apply take_ge. rewrite length_drop. lia.
  - replace (length a + length m - (length a + p))%nat with 0%nat by lia. by rewrite (drop_ge m) by lia.
Qed.

Lemma region_end (a r : list Z) : region (a ++ r) (length a) (length (a ++ r)) = r.
Proof.
  pose proof (region_mid a r [] 0) as H. rewrite app_nil_r, Nat.add_0_r, drop_0 in H. by rewrite length_app.
Qed.

(** ** The search *)

Section file.
Context (s text : list Z).
Context (Htp : Forall takes_part text).
Context (Hsorted : StronglySorted (λ l1 l2, key_le (key l1) (key l2) = true) (lines_of text)).

Definition greater (l : list Z) : Prop := compare_key s (key l) = GREATER.

(** The search has passed only lines that are before the string. *)
Definition passed (front : nat) : Prop :=
  ∃ a r, text = a ++ r ∧ front = length a ∧ ended a ∧ Forall greater (lines_of a).

Lemma sorted_split a r : text = a ++ r → ended a →
  StronglySorted (λ l1 l2, key_le (key l1) (key l2) = true) (lines_of r)
  ∧ ∀ l1 l2, l1 ∈ lines_of a → l2 ∈ lines_of r → key_le (key l1) (key l2) = true.
Proof.
  intros E Ha. rewrite E, lines_of_app in Hsorted by done. split.
  - by eapply StronglySorted_app_1_r.
  - intros l1 l2 H1 H2. by eapply (StronglySorted_app_1_elem_of _ _ _ l1 l2 Hsorted).
Qed.

Lemma search_loop_ok fuel : ∀ a m z,
  text = a ++ m ++ z → ended a → (z = [] ∨ ended (a ++ m)) → Forall greater (lines_of a) → (length m < fuel)%nat →
  ∃ front, search_loop dflag fflag fuel s text (length a) (length a + length m) = Ok front ∧ passed front.
Proof.
  induction fuel as [|fuel IH]; intros a m z E Ha Hz HG Hf; [lia|]. cbn [search_loop].
  set (h := (length m / 2)%nat).
  assert (halfway text (length a) (length a + length m) = length a + (h + past_newline (drop h m)))%nat as ->.
  { unfold halfway, SKIP_PAST_NEWLINE. replace (length a + length m - length a)%nat with (length m) by lia.
    fold h. rewrite E, region_mid. lia. }
  set (q := (h + past_newline (drop h m))%nat).
  destruct (Nat.ltb_spec (length a + q) (length a + length m)) as [Hq|Hq]; cbn [andb].
  2: { exists (length a). split; [done|]. exists a, (m ++ z). by split_and!. }
  destruct (Nat.ltb_spec (length a) (length a + length m)) as [_|?]; [|lia].
  assert (h <= length m)%nat by (unfold h; apply Nat.Div0.div_le_upper_bound; lia).
  assert (ended (take q m)) as Htq.
  { unfold q. rewrite <- take_take_drop.
    assert (ended (take (past_newline (drop h m)) (drop h m))) as Hd.
    { apply past_newline_ended. rewrite length_drop. unfold q in Hq. lia. }
    destruct Hd as [Hd|Hd]; [|right; rewrite last_app; by rewrite Hd].
    exfalso. destruct (drop h m) as [|c r] eqn:Ed.
    - apply (f_equal length) in Ed. rewrite length_drop in Ed. simpl in Ed. unfold q in Hq. simpl in Hq. lia.
    - cbn in Hd. by destruct (c =? NL). }
  assert (0 < q)%nat as Hq0.
  { destruct (lines_of_cons (drop h m)) as (_ & Hp & _); [|unfold q; lia].
    intros Ed. unfold q in Hq. rewrite Ed in Hq. apply (f_equal length) in Ed. rewrite length_drop in Ed. simpl in *. lia. }
  assert (region text (length a + q) (length a + length m) = drop q m) as -> by (rewrite E; apply region_mid).
  assert (text = (a ++ take q m) ++ drop q m ++ z) as E'.
  { rewrite E, <- app_assoc, (app_assoc (take q m)), take_drop. done. }
  assert (length (a ++ take q m) = length a + q)%nat as El by (rewrite length_app, length_take; lia).
  destruct (Z.eqb_spec (compare dflag fflag s (drop q m)) GREATER) as [Hc|Hc].
  - destruct (IH (a ++ take q m) (drop q m) z E') as (front & Hs & Hp); [by apply ended_app|..].
    + destruct Hz as [?|Hz]; [by left|right]. by rewrite <- app_assoc, take_drop.
    + rewrite compare_line in Hc.
      2: { rewrite E in Htp. apply Forall_app in Htp as [_ H']. apply Forall_app in H' as [H' _].
           by apply Forall_drop. }
      destruct (sorted_split _ _ E') as [_ Hle]; [by apply ended_app|].
      assert (drop q m ≠ []) as Hne.
      { intros Ed. apply (f_equal length) in Ed. rewrite length_drop in Ed. simpl in Ed. lia. }
      apply Forall_forall. intros l Hl.
      apply (compare_key_mono s (key l) (key (line_of (drop q m)))); [|exact Hc].
      apply Hle; [done|].
      assert (lines_of (drop q m ++ z) = lines_of (drop q m) ++ lines_of z) as ->.
      { destruct Hz as [->|Hz]; [by rewrite !app_nil_r|]. apply lines_of_app.
        right. destruct Hz as [Hz|Hz]; [apply app_eq_nil in Hz as [_ ->]; simpl in Hq; lia|].
        rewrite last_app in Hz. rewrite <- (take_drop q m), last_app in Hz. destruct (last (drop q m)) eqn:Eld; [done|].
        by apply last_None in Eld. }
      rewrite (proj1 (lines_of_cons _ Hne)). left.
    + rewrite length_drop. lia.
    + exists front. split; [|done]. rewrite El in Hs. rewrite length_drop in Hs.
      by replace (length a + q + (length m - q))%nat with (length a + length m)%nat in Hs by lia.
  - destruct (IH a (take q m) (drop q m ++ z)) as (front & Hs & Hp); [by rewrite E', <- app_assoc|done|..].
    + right. by apply ended_app.
    + done.
    + rewrite length_take. lia.
    + exists front. split; [|done]. rewrite length_take in Hs. by rewrite Nat.min_l in Hs by lia.
Qed.

Lemma binary_search_ok : ∃ front, binary_search dflag fflag s text 0 (length text) = Ok front ∧ passed front.
Proof.
  apply (search_loop_ok (S (length text - 0)) [] text []); [by rewrite app_nil_r|by left|by left|constructor|lia].
Qed.

Definition found (l : list Z) : Prop := is_prefix s (key l) = true.
#[global] Instance found_dec l : Decision (found l).
Proof. unfold found. apply _. Defined.

Lemma greater_not_found ls : Forall greater ls → ∀ l, l ∈ ls → ¬ found l.
Proof.
  rewrite Forall_forall. intros HG l Hl Hfd. apply compare_key_equal in Hfd.
  specialize (HG l Hl). unfold greater in HG. by rewrite Hfd in HG.
Qed.

Lemma filter_found_none ls : (∀ l, l ∈ ls → ¬ found l) → filter found ls = [].
Proof.
  induction ls as [|l ls IH]; intros H; [done|]. rewrite filter_cons, decide_False by (apply H; left).
  apply IH. intros x Hx. apply H. by right.
Qed.

(** After a line that is not before the string none is; after one past it all are. *)
Lemma past_line l ls :
  StronglySorted (λ l1 l2, key_le (key l1) (key l2) = true) (l :: ls) →
  (¬ greater l → Forall (λ x, ¬ greater x) ls) ∧ (compare_key s (key l) = LESS → ∀ x, x ∈ l :: ls → ¬ found x).
Proof.
  intros Hs. apply StronglySorted_cons in Hs as [Hs _]. rewrite Forall_forall in Hs. split.
  - intros Hl. apply Forall_forall. intros x Hx Hg. apply Hl. by apply (compare_key_mono s (key l) (key x) (Hs x Hx)).
  - intros Hl x [->|Hx]%elem_of_cons Hf; apply compare_key_equal in Hf; [by rewrite Hl in Hf|].
    pose proof (proj1 (proj2 (compare_key_mono s (key l) (key x) (Hs x Hx))) Hl) as H. by rewrite Hf in H.
Qed.

Lemma linear_loop_ok fuel : ∀ a r, text = a ++ r → ended a → Forall greater (lines_of a) → (length r < fuel)%nat →
  ∃ o, linear_loop dflag fflag fuel s text (length a) (length text) = Ok o
  ∧ match o with
    | Some front => ∃ a r, text = a ++ r ∧ front = length a ∧ ended a ∧ Forall greater (lines_of a)
                    ∧ Forall (λ x, ¬ greater x) (lines_of r) ∧ filter found (lines_of r) ≠ []
    | None => filter found (lines_of text) = []
    end.
Proof.
  induction fuel as [|fuel IH]; intros a r E Ha HG Hf; [lia|]. cbn [linear_loop].
  pose proof (greater_not_found _ HG) as Hna.
  assert (region text (length a) (length text) = r) as -> by (rewrite E; apply region_end).
  destruct (Nat.ltb_spec (length a) (length text)) as [Hlt|Hge].
  2: { exists None. split; [done|]. assert (r = []) as ->.
       { rewrite E, length_app in Hge. destruct r; [done|simpl in Hge; lia]. }
       rewrite E, app_nil_r. by apply filter_found_none. }
  assert (r ≠ []) as Hr by (intros ->; rewrite E, app_nil_r in Hlt; lia).
  destruct (lines_of_cons r Hr) as (Hl & Hp & _).
  destruct (sorted_split a r E Ha) as [Hsr _].
  rewrite compare_line by (rewrite E in Htp; by apply Forall_app in Htp as [_ ?]).
  destruct (compare_key_cases s (key (line_of r))) as [Hc|[Hc|Hc]]; rewrite Hc.
  - exists (Some (length a)). split; [done|]. exists a, r. split_and!; [done..| |].
    + rewrite Hl in Hsr |- *. destruct (past_line _ _ Hsr) as [Hng _].
      assert (¬ greater (line_of r)) as Hg by (unfold greater; by rewrite Hc).
      constructor; [done|by apply Hng].
    + rewrite Hl, filter_cons, decide_True; [done|]. by apply compare_key_equal.
  - change (GREATER =? EQUAL) with false. change (GREATER =? LESS) with false. cbn iota.
    assert (SKIP_PAST_NEWLINE text (length a) (length text) = length (a ++ take (past_newline r) r)) as ->.
    { unfold SKIP_PAST_NEWLINE. assert (region text (length a) (length text) = r) as -> by (rewrite E; apply region_end). rewrite length_app, length_take. lia. }
    assert (text = (a ++ take (past_newline r) r) ++ drop (past_newline r) r) as E'
      by (rewrite <- app_assoc, take_drop; done).
    destruct (Nat.eq_dec (past_newline r) (length r)) as [Hall|Hall].
    + destruct fuel as [|fuel]; [rewrite E, length_app in Hlt; lia|]. cbn [linear_loop].
      exists None. rewrite Hall, take_ge, <- E by lia. rewrite Nat.ltb_irrefl. split; [done|].
      rewrite E, lines_of_app, filter_app by done. rewrite (filter_found_none (lines_of a)) by done.
      rewrite Hl, Hall, drop_all. cbn. rewrite decide_False; [done|].
      intros Hfd. apply compare_key_equal in Hfd. by rewrite Hc in Hfd.
    + apply (IH _ _ E'); [| |rewrite length_drop; lia].
      * apply ended_app; [done|]. apply past_newline_ended. lia.
      * rewrite lines_of_app by done. apply Forall_app. split; [done|].
        assert (lines_of (take (past_newline r) r) = [line_of r]) as ->; [|by repeat constructor].
        assert (ended (take (past_newline r) r)) as Hen by (apply past_newline_ended; lia).
        pose proof (lines_of_app _ (drop (past_newline r) r) Hen) as Happ. rewrite take_drop, Hl in Happ.
        change (line_of r :: lines_of (drop (past_newline r) r)) with ([line_of r] ++ lines_of (drop (past_newline r) r)) in Happ.
        by apply app_inv_tail in Happ.
  - change (LESS =? EQUAL) with false. change (LESS =? LESS) with true. cbn iota. exists None. split; [done|].
    rewrite E, lines_of_app, filter_app by done. rewrite (filter_found_none (lines_of a)) by done.
    rewrite Hl in Hsr |- *. apply filter_found_none. by apply (past_line _ _ Hsr).
Qed.

Definition print_lines (ls : list (list Z)) : list Z := concat (map (λ l, l ++ [NL]) ls).

Lemma print_loop_ok fuel : ∀ a r, text = a ++ r → ended a → Forall (λ x, ¬ greater x) (lines_of r) → (length r < fuel)%nat →
  print_loop dflag fflag fuel s text (length a) (length text) = Ok (print_lines (filter found (lines_of r))).
Proof.
  induction fuel as [|fuel IH]; intros a r E Ha HG Hf; [lia|]. cbn [print_loop].
  assert (region text (length a) (length text) = r) as -> by (rewrite E; apply region_end).
  destruct (Nat.ltb_spec (length a) (length text)) as [Hlt|Hge]; cbn [andb].
  2: { assert (r = []) as ->; [|done]. rewrite E, length_app in Hge. destruct r; [done|simpl in Hge; lia]. }
  assert (r ≠ []) as Hr by (intros ->; rewrite E, app_nil_r in Hlt; lia).
  destruct (lines_of_cons r Hr) as (Hl & Hp & Hlen).
  destruct (sorted_split a r E Ha) as [Hsr _].
  rewrite compare_line by (rewrite E in Htp; by apply Forall_app in Htp as [_ ?]).
  rewrite Hl in Hsr, HG |- *. apply Forall_cons_1 in HG as [Hg HG].
  destruct (compare_key_cases s (key (line_of r))) as [Hc|[Hc|Hc]]; [|done|]; rewrite Hc.
  - change (EQUAL =? EQUAL) with true. cbn iota. rewrite filter_cons, decide_True by by apply compare_key_equal.
    assert (print_loop dflag fflag fuel s text (length a + length (line_of r) + 1) (length text)
      = Ok (print_lines (filter found (lines_of (drop (past_newline r) r))))) as ->; [|by cbn; rewrite <- app_assoc].
    destruct (Nat.eq_dec (past_newline r) (length r)) as [Hall|Hall].
    + rewrite Hall, drop_all. destruct fuel as [|fuel]; [rewrite E, length_app in Hlt; lia|]. cbn [print_loop].
      destruct (Nat.ltb_spec (length a + length (line_of r) + 1) (length text)) as [Hx|_]; [|done].
      rewrite E, length_app in Hx. lia.
    + assert (text = (a ++ take (past_newline r) r) ++ drop (past_newline r) r) as E'
        by (rewrite <- app_assoc, take_drop; done).
      replace (length a + length (line_of r) + 1)%nat with (length (a ++ take (past_newline r) r))
        by (rewrite length_app, length_take; lia).
      apply (IH _ _ E'); [|done|rewrite length_drop; lia].
      apply ended_app; [done|]. apply past_newline_ended. lia.
  - change (LESS =? EQUAL) with false. cbn iota. rewrite filter_found_none; [done|]. by apply (past_line _ _ Hsr).
Qed.

End file.
End look.

(** The flags [main] ends with, and the string it gives to [look] in its reformatted form. *)
Definition search_key (d f : bool) (termchar : Z) (named : bool) (string : list Z) : list Z :=
  reformat (d || negb named) (f || negb named)
    (if negb (termchar =? 0) then cut_at termchar string else string).

(** C32.  In a file whose lines are sorted by the form in which they are compared, none of
    whose bytes are left out of the comparison, look prints exactly the lines whose form begins
    with that of the string, in the order of the file, a final line without its newline
    included, and exits with 0 when there is such a line and with 1 when there is none (with
    2 and no output when the file is empty, which cannot be mapped); the binary search never
    passes the first of them and both searches terminate. *)
Theorem look_prints_matching (d f : bool) (termchar : Z) (named : bool) (string text : list Z) :
  let df := d || negb named in
  let ff := f || negb named in
  let ls := filter (found df ff (search_key d f termchar named string)) (lines_of text) in
  Forall (takes_part df ff) text →
  StronglySorted (λ l1 l2, key_le (key df ff l1) (key df ff l2) = true) (lines_of text) →
  look_main d f termchar named string text
  = match text with
    | [] => Err 2
    | _ => Ok (match ls with [] => 1 | _ => 0 end, print_lines ls)
    end.
Proof.
  intros df ff ls Htp Hs. subst ls. unfold look_main.
  destruct (decide (text = [])) as [->|Hne0]; [done|]. rewrite bool_decide_false by done.
  assert (∀ (x y : res (Z * list Z)), match text with [] => x | _ => y end = y) as ->
    by (intros x y; by destruct text).
  unfold look. fold df ff.
  change (reformat df ff _) with (search_key d f termchar named string).
  set (s := search_key _ _ _ _ _).
  destruct (binary_search_ok df ff s text Htp Hs) as (front & -> & a & r & E & -> & Ha & HG). cbn [res_bind].
  destruct (linear_loop_ok df ff s text Htp Hs (S (length text - length a)) a r E Ha HG) as (o & Hl & Ho).
  { rewrite E, length_app. lia. }
  unfold linear_search. rewrite Hl. cbn [res_bind]. destruct o as [front|]; [|by rewrite Ho].
  destruct Ho as (a' & r' & E' & -> & Ha' & HG' & HN & Hne). unfold print_from.
  rewrite (print_loop_ok df ff s text Htp Hs _ a' r' E' Ha' HN) by (rewrite E', length_app; lia). cbn [res_bind].
  assert (filter (found df ff s) (lines_of text) = filter (found df ff s) (lines_of r')) as ->.
  { rewrite E', lines_of_app, filter_app by done. rewrite (filter_found_none df ff s (lines_of a')); [done|].
    by apply greater_not_found. }
  by destruct (filter (found df ff s) (lines_of r')).
Qed.

(** The words "Ada", "ale", "Alice", "alp", "bee", the last without its newline. *)
Definition sample_words : list Z :=
  str "Ada" ++ [NL] ++ str "ale" ++ [NL] ++ str "Alice" ++ [NL]
  ++ str "alp" ++ [NL] ++ str "bee".

Lemma look_prints_matching_witness :
  look_main false false 0 false (str "-AL") sample_words
  = Ok (0, str "ale" ++ [NL] ++ str "Alice" ++ [NL] ++ str "alp" ++ [NL]).
Proof.
  rewrite (look_prints_matching false false 0 false (str "-AL") sample_words).
  - vm_compute. reflexivity.
  - apply (bool_decide_unpack _). by vm_compute.
  - apply (bool_decide_unpack _). by vm_compute.
Defined.

(** With -d the byte after one that does not take part is not compared, and takes a byte
    of the string with it: "acb" finds "a-xb".  It can be the newline: "abc" finds the
    line "a-" before the line "c". *)
Lemma dictionary_skips_too_much :
  look_main true false 0 true (str "acb") (str "a-xb" ++ [NL]) = Ok (0, str "a-xb" ++ [NL])
  ∧ look_main true false 0 true (str "abc") (str "a-" ++ [NL] ++ str "c") = Ok (0, str "a-" ++ [NL]).
Proof. split; vm_compute; reflexivity. Qed.

(** Without -d the byte 0xfe, -2 as a [char], is taken for [NO_COMPARE]. *)
Lemma byte_254_ignored : reformat false false [97; 254; 98] = [97; 98].
Proof. reflexivity. Qed.
