(* ===== verification/Zopen.v ===== *)
(** * zopen: usr.bin/compress/zopen.c

    The stream of compress(1): LZW with codes of 9 to 16 bits.  The state of a stream is a
    [struct s_zstate]; the fields a stream being written uses are [zw], those of one being
    read [zr] (the union [u], and the tables of [zread] that lie over [htab]).  A file is the
    list of its bytes. *)

From stdpp Require Import gmap.
From S2P Require Import Prelude Libc.

Definition BITS : Z := 16.
Definition HSIZE : Z := 69001.
Definition magic_header : list Z := [31; 157].
Definition BIT_MASK : Z := 31.
Definition BLOCK_MASK : Z := 128.
Definition INIT_BITS : Z := 9.
Definition MAXCODE (n_bits : Z) : Z := Z.shiftl 1 n_bits - 1.
Definition CHECK_GAP : Z := 10000.
Definition FIRST : Z := 257.
Definition CLEAR : Z := 256.

Inductive state := S_START | S_MIDDLE | S_EOF.

Definition lmask : list Z := [255; 254; 252; 248; 240; 224; 192; 128; 0].
Definition rmask : list Z := [0; 1; 3; 7; 15; 31; 63; 127; 255].

(** Element [i] of an array; outside it there is none. *)
Definition get (a : list Z) (i : Z) : res Z :=
  if 0 <=? i then match a !! Z.to_nat i with Some v => Ok v | None => Fault end else Fault.
Definition put (a : list Z) (i v : Z) : res (list Z) :=
  if (0 <=? i) && (i <? Z.of_nat (length a)) then Ok (<[Z.to_nat i := v]> a) else Fault.

(** ** Writing *)

(** The fields [output] changes. *)
Record zout := mkOut {
  fp : list Z; n_bits : Z; maxcode : Z; clear_flg : Z; offset : Z; bytes_out : Z; buf : list Z
}.

Record zw := mkZw {
  out : zout; w_state : state; maxbits : Z; maxmaxcode : Z; htab : gmap Z Z; codetab : gmap Z Z;
  free_ent : Z; block_compress : Z; ratio : Z; checkpoint : Z; in_count : Z;
  ent : Z; hshift : Z
}.

Section write.

(** Whether the file takes these bytes after those it has. *)
Context (takes : list Z → list Z → bool).

Definition fwrite (bs : list Z) (o : zout) : res zout :=
  if takes (fp o) bs
  then Ok (mkOut (fp o ++ bs) (n_bits o) (maxcode o) (clear_flg o) (offset o) (bytes_out o) (buf o))
  else Err EIO.

(** The first [n] bytes of [buf]. *)
Definition flush (n : Z) (o : zout) : res zout :=
  if n <=? Z.of_nat (length (buf o)) then fwrite (take (Z.to_nat n) (buf o)) o else Fault.

(** The bytes of [buf] after a code went into it at [r_off]. *)
Definition insert_code (n r_off ocode : Z) (b : list Z) : res (list Z) :=
  let p := Z.shiftr r_off 3 in
  let r := r_off .& 7 in
  let* b0 := get b p in
  let* rm := get rmask r in
  let* lm := get lmask r in
  let* b := put b p (u8 ((b0 .& rm) .| (Z.shiftl ocode r .& lm))) in
  let p := p + 1 in
  let bits := n - (8 - r) in
  let ocode := Z.shiftr ocode (8 - r) in
  let middle := 8 <=? bits in
  let* b := if middle then put b p (u8 ocode) else Ok b in
  let p := if middle then p + 1 else p in
  let ocode := if middle then Z.shiftr ocode 8 else ocode in
  let bits := if middle then bits - 8 else bits in
  if negb (bits =? 0) then put b p (u8 ocode) else Ok b.

Definition set_buf (o : zout) (b : list Z) : zout :=
  mkOut (fp o) (n_bits o) (maxcode o) (clear_flg o) (offset o) (bytes_out o) b.
(** [offset = off] after [n] bytes of output. *)
Definition set_offset (o : zout) (off n : Z) : zout :=
  mkOut (fp o) (n_bits o) (maxcode o) (clear_flg o) off (bytes_out o + n) (buf o).
Definition set_width (o : zout) (n mc clear : Z) : zout :=
  mkOut (fp o) n mc clear (offset o) (bytes_out o) (buf o).

(** The end of [output] for a code: the width of the next one. *)
Definition next_width (maxbits maxmaxcode free_ent : Z) (o : zout) : res zout :=
  if (maxcode o <? free_ent) || (0 <? clear_flg o) then
    let* o := if 0 <? offset o
              then let* o := flush (n_bits o) o in Ok (set_offset o (offset o) (n_bits o))
              else Ok o in
    let o := set_offset o 0 0 in
    Ok (if negb (clear_flg o =? 0) then set_width o INIT_BITS (MAXCODE INIT_BITS) 0
        else let n := n_bits o + 1 in
             set_width o n (if n =? maxbits then maxmaxcode else MAXCODE n) (clear_flg o))
  else Ok o.

Definition output (maxbits maxmaxcode free_ent : Z) (o : zout) (ocode : Z) : res zout :=
  if 0 <=? ocode then
    let* b := insert_code (n_bits o) (offset o) ocode (buf o) in
    let o := set_offset (set_buf o b) (offset o + n_bits o) 0 in
    let* o := if offset o =? Z.shiftl (n_bits o) 3
              then let o := set_offset o (offset o) (n_bits o) in
                   let* o := flush (n_bits o) o in Ok (set_offset o 0 0)
              else Ok o in
    next_width maxbits maxmaxcode free_ent o
  else
    if 0 <? offset o then
      let n := (offset o + 7) / 8 in
      let* o := flush n (set_offset o n 0) in
      Ok (set_offset (set_offset o (offset o) n) 0 0)
    else Ok (set_offset o 0 0).

(** A slot of [htab]; a slot that is not in the map holds the -1 of the [memset]. *)
Definition htabof (t : gmap Z Z) (i : Z) : res Z :=
  if (0 <=? i) && (i <? HSIZE) then Ok (default (-1) (t !! i)) else Fault.

(** From [probe]: the slot where the search ends, and whether it holds [fcode]. *)
Fixpoint probe (fuel : nat) (t : gmap Z Z) (fcode disp i : Z) : res (Z * bool) :=
  match fuel with
  | O => Fault
  | S fuel =>
      let i := i - disp in
      let i := if i <? 0 then i + HSIZE else i in
      let* h := htabof t i in
      if h =? fcode then Ok (i, true)
      else if 0 <=? h then probe fuel t fcode disp i
      else Ok (i, false)
  end.

Definition search (t : gmap Z Z) (fcode i : Z) : res (Z * bool) :=
  let* h := htabof t i in
  if h =? fcode then Ok (i, true)
  else if h <? 0 then Ok (i, false)
  else probe (Z.to_nat HSIZE) t fcode (if i =? 0 then 1 else HSIZE - i) i.

Definition codetabof (t : gmap Z Z) (i : Z) : Z := default 0 (t !! i).

Definition set_out (z : zw) (o : zout) : zw :=
  mkZw o (w_state z) (maxbits z) (maxmaxcode z) (htab z) (codetab z) (free_ent z) (block_compress z)
    (ratio z) (checkpoint z) (in_count z) (ent z) (hshift z).
Definition set_ent (z : zw) (e : Z) : zw :=
  mkZw (out z) (w_state z) (maxbits z) (maxmaxcode z) (htab z) (codetab z) (free_ent z) (block_compress z)
    (ratio z) (checkpoint z) (in_count z) e (hshift z).
Definition set_in_count (z : zw) (n : Z) : zw :=
  mkZw (out z) (w_state z) (maxbits z) (maxmaxcode z) (htab z) (codetab z) (free_ent z) (block_compress z)
    (ratio z) (checkpoint z) n (ent z) (hshift z).
Definition set_ratio (z : zw) (r cp : Z) : zw :=
  mkZw (out z) (w_state z) (maxbits z) (maxmaxcode z) (htab z) (codetab z) (free_ent z) (block_compress z)
    r cp (in_count z) (ent z) (hshift z).
Definition set_tables (z : zw) (h c : gmap Z Z) (f : Z) : zw :=
  mkZw (out z) (w_state z) (maxbits z) (maxmaxcode z) h c f (block_compress z)
    (ratio z) (checkpoint z) (in_count z) (ent z) (hshift z).

Definition emit_code (z : zw) (ocode : Z) : res zw :=
  let* o := output (maxbits z) (maxmaxcode z) (free_ent z) (out z) ocode in Ok (set_out z o).

Definition cl_rat (in_count bytes_out : Z) : res Z :=
  if 8388607 <? in_count then
    let rat := Z.shiftr bytes_out 8 in
    Ok (if rat =? 0 then 2147483647 else Z.quot in_count rat)
  else if bytes_out =? 0 then Fault else Ok (Z.quot (Z.shiftl in_count 8) bytes_out).

Definition cl_block (z : zw) : res zw :=
  let z := set_ratio z (ratio z) (in_count z + CHECK_GAP) in
  let* rat := cl_rat (in_count z) (bytes_out (out z)) in
  if ratio z <? rat then Ok (set_ratio z rat (checkpoint z))
  else
    let z := set_tables (set_ratio z 0 (checkpoint z)) ∅ (codetab z) FIRST in
    let o := set_width (out z) (n_bits (out z)) (maxcode (out z)) 1 in
    emit_code (set_out z o) CLEAR.

(** The body of the loop at [middle]. *)
Definition write_byte (z : zw) (c : Z) : res zw :=
  let z := set_in_count z (in_count z + 1) in
  let fcode := Z.shiftl c (maxbits z) + ent z in
  let* si := search (htab z) fcode (Z.lxor (Z.shiftl c (hshift z)) (ent z)) in
  if snd si then Ok (set_ent z (codetabof (codetab z) (fst si)))
  else
    let* z := emit_code z (ent z) in
    let z := set_ent z c in
    if free_ent z <? maxmaxcode z then
      Ok (set_tables z (<[fst si := fcode]> (htab z)) (<[fst si := free_ent z]> (codetab z)) (free_ent z + 1))
    else if (checkpoint z <=? in_count z) && negb (block_compress z =? 0) then cl_block z
    else Ok z.

Fixpoint write_bytes (z : zw) (bs : list Z) : res zw :=
  match bs with
  | [] => Ok z
  | c :: bs => let* z := write_byte z c in write_bytes z bs
  end.

(** The loop that counts in [hshift]. *)
Fixpoint shift_loop (fuel : nat) (fcode hshift : Z) : Z :=
  match fuel with
  | O => hshift
  | S fuel => if fcode <? 65536 then shift_loop fuel (fcode * 2) (hshift + 1) else hshift
  end.

(** The first call of [zwrite], up to [middle]. *)
Definition write_start (z : zw) (c : Z) : res zw :=
  let* o := fwrite magic_header (out z) in
  let* o := fwrite [u8 (maxbits z .| block_compress z)] o in
  let o := mkOut (fp o) INIT_BITS (MAXCODE INIT_BITS) 0 0 3 (buf o) in
  Ok (mkZw o S_MIDDLE (maxbits z) (Z.shiftl 1 (maxbits z)) ∅ (codetab z)
        (if negb (block_compress z =? 0) then FIRST else 256) (block_compress z)
        0 CHECK_GAP 1 c (8 - shift_loop 17 HSIZE 0)).

(** [zwrite(cookie, wbp, num)]; on success it returns [num]. *)
Definition zwrite (z : zw) (bs : list Z) : res zw :=
  match bs with
  | [] => Ok z
  | c :: bs' =>
      match w_state z with
      | S_MIDDLE => write_bytes z bs
      | _ => let* z := write_start z c in write_bytes z bs'
      end
  end.

(** [zclose] of a stream being written: what the file holds.  [fclose], too, may find that
    the file does not take what was written. *)
Definition zclose (z : zw) : res (list Z) :=
  let* z := emit_code z (ent z) in
  let* z := emit_code z (-1) in
  if takes (fp (out z)) [] then Ok (fp (out z)) else Err EIO.

(** A file written in these calls. *)
Fixpoint zwrites (z : zw) (bss : list (list Z)) : res zw :=
  match bss with
  | [] => Ok z
  | bs :: bss => let* z := zwrite z bs in zwrites z bss
  end.

End write.

(** ** Reading *)

(** The fields [getcode] changes. *)
Record zin := mkIn {
  i_fp : list Z; i_n_bits : Z; i_maxcode : Z; i_clear_flg : Z; roffset : Z; size : Z; gbuf : list Z
}.

Record zr := mkZr {
  inp : zin; r_state : state; r_maxbits : Z; r_maxmaxcode : Z; tab_prefix : gmap Z Z; tab_suffix : gmap Z Z;
  r_free_ent : Z; r_block_compress : Z; stack : list Z; finchar : Z; oldcode : Z; incode : Z
}.

Section read.

(** The byte after [gbuf], which ends the object: [getcode] reads it, out of bounds, for the
    last 16-bit code of a buffer and uses none of its bits. *)
Context (past : Z).

Definition gbuf_at (g : list Z) (i : Z) : res Z := if i =? Z.of_nat (length g) then Ok past else get g i.

(** The code at [r_off] in [gbuf]. *)
Definition extract_code (n r_off : Z) (g : list Z) : res Z :=
  let p := Z.shiftr r_off 3 in
  let r := r_off .& 7 in
  let* b := gbuf_at g p in
  let gcode := Z.shiftr b r in
  let p := p + 1 in
  let bits := n - (8 - r) in
  let r := 8 - r in
  let middle := 8 <=? bits in
  let* gcode := if middle then let* b := gbuf_at g p in Ok (gcode .| Z.shiftl b r) else Ok gcode in
  let p := if middle then p + 1 else p in
  let r := if middle then r + 8 else r in
  let bits := if middle then bits - 8 else bits in
  let* b := gbuf_at g p in
  let* m := get rmask bits in
  Ok (gcode .| Z.shiftl (b .& m) r).

(** The code, or -1 at the end of the file. *)
Definition getcode (maxbits maxmaxcode free_ent : Z) (g : zin) : res (Z * zin) :=
  let refill := (0 <? i_clear_flg g) || (size g <=? roffset g) || (i_maxcode g <? free_ent) in
  let widen := refill && (i_maxcode g <? free_ent) in
  let n := if widen then i_n_bits g + 1 else i_n_bits g in
  let mc := if widen then if n =? maxbits then maxmaxcode else MAXCODE n else i_maxcode g in
  let reset := refill && (0 <? i_clear_flg g) in
  let n := if reset then INIT_BITS else n in
  let mc := if reset then MAXCODE INIT_BITS else mc in
  let clear := if reset then 0 else i_clear_flg g in
  let block := take (Z.to_nat n) (i_fp g) in
  let g := if refill
           then mkIn (drop (Z.to_nat n) (i_fp g)) n mc clear (roffset g) (Z.of_nat (length block))
                  (block ++ drop (length block) (gbuf g))
           else g in
  if (Z.of_nat (length (gbuf g)) <? n) && refill then Fault
  else if refill && (size g <=? 0) then Ok (-1, g)
  else
    let g := if refill
             then mkIn (i_fp g) n mc clear 0 (Z.shiftl (size g) 3 - (n - 1)) (gbuf g) else g in
    let* gcode := extract_code n (roffset g) (gbuf g) in
    Ok (gcode, mkIn (i_fp g) (i_n_bits g) (i_maxcode g) (i_clear_flg g) (roffset g + n) (size g) (gbuf g)).

(** The room of [de_stack]: [htab] from its byte 2^16 on. *)
Definition STACK_SIZE : Z := HSIZE * 8 - Z.shiftl 1 BITS.
Definition push (c : Z) (s : list Z) : res (list Z) :=
  if Z.of_nat (length s) <? STACK_SIZE then Ok (c :: s) else Fault.

Definition tab_prefixof (t : gmap Z Z) (i : Z) : res Z :=
  if (0 <=? i) && (i <? HSIZE) then Ok (default 0 (t !! i)) else Fault.
Definition tab_suffixof (t : gmap Z Z) (i : Z) : res Z :=
  if (0 <=? i) && (i <? Z.shiftl 1 BITS) then Ok (default 0 (t !! i)) else Fault.

(** The characters of a code, pushed in reverse order; the last is [finchar]. *)
Fixpoint expand (fuel : nat) (pre suf : gmap Z Z) (code : Z) (s : list Z) : res (Z * list Z) :=
  match fuel with
  | O => Fault
  | S fuel =>
      let* c := tab_suffixof suf code in
      let* s := push c s in
      if 256 <=? code then let* code := tab_prefixof pre code in expand fuel pre suf code s
      else Ok (c, s)
  end.

Definition set_inp (z : zr) (g : zin) : zr :=
  mkZr g (r_state z) (r_maxbits z) (r_maxmaxcode z) (tab_prefix z) (tab_suffix z) (r_free_ent z)
    (r_block_compress z) (stack z) (finchar z) (oldcode z) (incode z).
Definition set_stack (z : zr) (s : list Z) (fin inc : Z) : zr :=
  mkZr (inp z) (r_state z) (r_maxbits z) (r_maxmaxcode z) (tab_prefix z) (tab_suffix z) (r_free_ent z)
    (r_block_compress z) s fin (oldcode z) inc.
Definition set_r_state (z : zr) (st : state) : zr :=
  mkZr (inp z) st (r_maxbits z) (r_maxmaxcode z) (tab_prefix z) (tab_suffix z) (r_free_ent z)
    (r_block_compress z) (stack z) (finchar z) (oldcode z) (incode z).

(** [tab_prefixof(code) = 0] for the codes below 256. *)
Fixpoint zero_prefixes (n : nat) (t : gmap Z Z) : gmap Z Z :=
  match n with O => t | S n => zero_prefixes n (<[Z.of_nat n := 0]> t) end.
Fixpoint init_suffixes (n : nat) (t : gmap Z Z) : gmap Z Z :=
  match n with O => t | S n => init_suffixes n (<[Z.of_nat n := Z.of_nat n]> t) end.

(** A CLEAR code. *)
Definition cleared (z : zr) : zr :=
  let g := inp z in
  mkZr (mkIn (i_fp g) (i_n_bits g) (i_maxcode g) 1 (roffset g) (size g) (gbuf g)) (r_state z)
    (r_maxbits z) (r_maxmaxcode z) (zero_prefixes 256 (tab_prefix z)) (tab_suffix z) FIRST
    (r_block_compress z) (stack z) (finchar z) (-1) (incode z).

(** Any other code, up to [middle]. *)
Definition decode (z : zr) (code : Z) : res zr :=
  let special := r_free_ent z <=? code in
  if special && ((r_free_ent z <? code) || (oldcode z =? -1)) then Err EINVAL
  else
    let* s := if special then push (finchar z) (stack z) else Ok (stack z) in
    let from := if special then oldcode z else code in
    let* fs := expand (Z.to_nat (Z.shiftl 1 BITS)) (tab_prefix z) (tab_suffix z) from s in
    Ok (set_stack z (snd fs) (fst fs) code).

(** What follows the output: the new entry and the previous code. *)
Definition new_entry (z : zr) : zr :=
  let code := r_free_ent z in
  let add := (code <? r_maxmaxcode z) && negb (oldcode z =? -1) in
  mkZr (inp z) (r_state z) (r_maxbits z) (r_maxmaxcode z)
    (if add then <[code := oldcode z mod 2 ^ 16]> (tab_prefix z) else tab_prefix z)
    (if add then <[code := finchar z]> (tab_suffix z) else tab_suffix z)
    (if add then code + 1 else r_free_ent z) (r_block_compress z) (stack z) (finchar z) (incode z) (incode z).

(** The head of the loop: up to the next characters; [None] is the end of the file. *)
Fixpoint next_chars (fuel : nat) (z : zr) : res (zr * bool) :=
  match fuel with
  | O => Fault
  | S fuel =>
      let* cg := getcode (r_maxbits z) (r_maxmaxcode z) (r_free_ent z) (inp z) in
      let z := set_inp z (snd cg) in
      if negb (-1 <? fst cg) then Ok (set_r_state z S_EOF, false)
      else if (fst cg =? CLEAR) && negb (r_block_compress z =? 0) then next_chars fuel (cleared z)
      else let* z := decode z (fst cg) in Ok (z, true)
  end.

(** Codes that are left, at most. *)
Definition codes_left (z : zr) : nat := Z.to_nat (size (inp z) - roffset (inp z)) + 8 * length (i_fp (inp z)).

(** From [middle]: the bytes stored in [rbp]. *)
Fixpoint middle (count : nat) (z : zr) : res (list Z * zr) :=
  match count with
  | O => Ok ([], z)
  | S count =>
      match stack z with
      | [] => Fault
      | c :: s =>
          let z := set_stack z s (finchar z) (incode z) in
          match s with
          | _ :: _ => let* r := middle count z in Ok (c :: fst r, snd r)
          | [] =>
              let z := new_entry z in
              let* zb := next_chars (S (codes_left z)) z in
              if snd zb then let* r := middle count (fst zb) in Ok (c :: fst r, snd r)
              else Ok ([c], fst zb)
          end
      end
  end.

(** The first call of [zread], up to the loop. *)
Definition read_start (z : zr) : res zr :=
  let g := inp z in
  let header := take 3 (i_fp g) in
  match header with
  | [h0; h1; h2] =>
      if negb ((h0 =? 31) && (h1 =? 157)) then Err EFTYPE
      else
        let maxbits := h2 .& BIT_MASK in
        if (BITS <? maxbits) || (maxbits <? 12) then Err EFTYPE
        else Ok (mkZr (mkIn (drop 3 (i_fp g)) INIT_BITS (MAXCODE INIT_BITS) (i_clear_flg g) (roffset g) (size g) (gbuf g))
                   S_MIDDLE maxbits (Z.shiftl 1 maxbits) (zero_prefixes 256 (tab_prefix z))
                   (init_suffixes 256 (tab_suffix z)) (if negb (h2 .& BLOCK_MASK =? 0) then FIRST else 256)
                   (h2 .& BLOCK_MASK) [] (finchar z) (-1) (incode z))
  | _ => Err EFTYPE
  end.

(** [zread(cookie, rbp, num)]: the bytes, whose number it returns. *)
Definition zread (z : zr) (num : nat) : res (list Z * zr) :=
  match num with
  | O => Ok ([], z)
  | _ =>
      match r_state z with
      | S_START =>
          let* z := read_start z in
          let* zb := next_chars (S (codes_left z)) z in
          if snd zb then middle num (fst zb) else Ok ([], fst zb)
      | S_MIDDLE => middle num z
      | S_EOF => Ok ([], z)
      end
  end.

(** A file read in these calls. *)
Fixpoint zreads (z : zr) (nums : list nat) : res (list Z * zr) :=
  match nums with
  | [] => Ok ([], z)
  | num :: nums =>
      let* r := zread z num in
      let* r' := zreads (snd r) nums in
      Ok (fst r ++ fst r', snd r')
  end.

End read.

(** ** Opening *)

Inductive stream := Writing (z : zw) | Reading (z : zr).

(** [zopen(fname, mode, bits)], with what the file holds. *)
Definition zopen (content mode : list Z) (bits : Z) : res stream :=
  match mode with
  | [m] =>
      if negb ((m =? ch "r") || (m =? ch "w")) || (bits <? 0) || (BITS <? bits) then Err EINVAL
      else
        let maxbits := if negb (bits =? 0) then bits else BITS in
        Ok (if m =? ch "r"
            then Reading (mkZr (mkIn content 0 0 0 0 0 (replicate 16 0)) S_START maxbits
                   (Z.shiftl 1 maxbits) ∅ ∅ 0 BLOCK_MASK [] 0 0 0)
            else Writing (mkZw (mkOut [] 0 0 0 0 0 (replicate 16 0)) S_START maxbits
                   (Z.shiftl 1 maxbits) ∅ ∅ 0 BLOCK_MASK 0 CHECK_GAP 1 0 0))
  | _ => Err EINVAL
  end.

(** What compress(1) and uncompress(1) do with the stream: the data are written in calls of
    these sizes, and the file is read in calls of these. *)
Definition compress (takes : list Z → list Z → bool) (bits : Z) (bss : list (list Z)) : res (list Z) :=
  let* s := zopen [] (str "w") bits in
  match s with
  | Writing z => let* z := zwrites takes z bss in zclose takes z
  | Reading _ => Fault
  end.
Definition decompress (past : Z) (content : list Z) (nums : list nat) : res (list Z) :=
  let* s := zopen content (str "r") 0 in
  match s with
  | Reading z => let* r := zreads past z nums in Ok (fst r)
  | Writing _ => Fault
  end.
