(* ===== verification/ZopenBits.v ===== *)
(** * The buffers and the hash table of zopen

    Bits of a buffer, codes that go into it and come out of it, and the search of the hash
    table, which ends because its size is a prime. *)

From stdpp Require Import gmap.
From S2P Require Import Prelude Libc Zopen.

(** ** Bits of a buffer *)

Definition bit (l : list Z) (k : Z) : bool := Z.testbit (l !!! Z.to_nat (k / 8)) (k mod 8).

Lemma get_lookup a i : 0 <= i < Z.of_nat (length a) → get a i = Ok (a !!! Z.to_nat i).
Proof.
  intros Hi. unfold get. rewrite (proj2 (Z.leb_le 0 i)) by lia.
  destruct (lookup_lt_is_Some_2 a (Z.to_nat i)) as [v Hv]; [lia|].
  by rewrite Hv, (list_lookup_total_correct _ _ _ Hv).
Qed.

Lemma put_ok a i v : 0 <= i < Z.of_nat (length a) → put a i v = Ok (<[Z.to_nat i := v]> a).
Proof. intros Hi. unfold put. by rewrite (proj2 (Z.leb_le 0 i)), (proj2 (Z.ltb_lt i _)) by lia. Qed.

Lemma get_rmask r : 0 <= r <= 8 → get rmask r = Ok (Z.ones r).
Proof.
  intros Hr. assert (r = 0 ∨ r = 1 ∨ r = 2 ∨ r = 3 ∨ r = 4 ∨ r = 5 ∨ r = 6 ∨ r = 7 ∨ r = 8) as H by lia.
  destruct_or! H; subst; reflexivity.
Qed.

Lemma get_lmask r : 0 <= r <= 8 → get lmask r = Ok (Z.shiftl (Z.ones (8 - r)) r).
Proof.
  intros Hr. assert (r = 0 ∨ r = 1 ∨ r = 2 ∨ r = 3 ∨ r = 4 ∨ r = 5 ∨ r = 6 ∨ r = 7 ∨ r = 8) as H by lia.
  destruct_or! H; subst; reflexivity.
Qed.

Lemma u8_bit z j : 0 <= j < 8 → Z.testbit (u8 z) j = Z.testbit z j.
Proof. intros Hj. apply Z.mod_pow2_bits_low. lia. Qed.

Lemma land_7 r : r .& 7 = r mod 8.
Proof. apply (Z.land_ones r 3). lia. Qed.

Definition byte_array (l : list Z) : Prop := length l = 16%nat ∧ Forall is_byte l.

Lemma byte_array_insert l p v : byte_array l → byte_array (<[p := u8 v]> l).
Proof.
  intros [Hl HF]. split; [by rewrite length_insert|]. apply Forall_insert; [done|]. apply u8_range.
Qed.

(** The bits of an array in which a code lies from [r_off] on, when its bytes from [p] hold
    the code in this way. *)
Lemma code_lies b b' n r_off ocode :
  0 <= r_off → 0 <= n →
  (∀ k, 0 <= k → k / 8 < r_off / 8 → bit b' k = bit b k) →
  (∀ j, 0 <= j < 8 → bit b' (8 * (r_off / 8) + j)
    = if j <? r_off mod 8 then bit b (8 * (r_off / 8) + j) else Z.testbit ocode (j - r_off mod 8)) →
  (∀ q j, 1 <= q → 0 <= j < 8 → 8 * q + j < r_off mod 8 + n →
    bit b' (8 * (r_off / 8 + q) + j) = Z.testbit ocode (8 * q + j - r_off mod 8)) →
  (∀ k, 0 <= k < r_off → bit b' k = bit b k) ∧ (∀ k, 0 <= k < n → bit b' (r_off + k) = Z.testbit ocode k).
Proof.
  intros Hr Hn H1 H2 H3. pose proof (Z.div_mod r_off 8 ltac:(lia)) as D. pose proof (Z.mod_pos_bound r_off 8 ltac:(lia)).
  split; intros k Hk.
  - pose proof (Z.div_mod k 8 ltac:(lia)) as Dk. pose proof (Z.mod_pos_bound k 8 ltac:(lia)).
    destruct (Z.lt_ge_cases (k / 8) (r_off / 8)); [apply H1; lia|].
    replace k with (8 * (r_off / 8) + k mod 8) by lia. rewrite H2 by lia. by rewrite (proj2 (Z.ltb_lt _ _)) by lia.
  - set (r := r_off mod 8) in *. pose proof (Z.div_mod (r + k) 8 ltac:(lia)) as Dk. pose proof (Z.mod_pos_bound (r + k) 8 ltac:(lia)).
    destruct (Z.eq_dec ((r + k) / 8) 0) as [E|E].
    + replace (r_off + k) with (8 * (r_off / 8) + (r + k)) by lia. rewrite H2 by lia.
      rewrite (proj2 (Z.ltb_ge _ _)) by lia. f_equal. lia.
    + assert (0 <= (r + k) / 8) by (apply Z.div_pos; lia).
      replace (r_off + k) with (8 * (r_off / 8 + (r + k) / 8) + (r + k) mod 8) by lia. rewrite H3 by lia. f_equal. lia.
Qed.

Lemma bit_byte l p j : 0 <= j < 8 → bit l (8 * p + j) = Z.testbit (l !!! Z.to_nat p) j.
Proof.
  intros Hj. unfold bit. rewrite (Z.mul_comm 8 p), Z.add_comm, Z.div_add, Z.mod_add by lia.
  by rewrite Z.div_small, Z.mod_small by lia.
Qed.

Lemma first_hunk c o r j : 0 <= r < 8 → 0 <= j < 8 →
  Z.testbit (u8 ((c .& Z.ones r) .| (Z.shiftl o r .& Z.shiftl (Z.ones (8 - r)) r))) j
  = if j <? r then Z.testbit c j else Z.testbit o (j - r).
Proof.
  intros Hr Hj. rewrite u8_bit by done.
  rewrite Z.lor_spec, !Z.land_spec, Z.testbit_ones, !Z.shiftl_spec, Z.testbit_ones by lia.
  rewrite (proj2 (Z.leb_le 0 j)) by lia. destruct (Z.ltb_spec j r) as [Hjr|Hjr]; cbn [andb].
  - rewrite (proj2 (Z.leb_gt 0 (j - r))) by lia. cbn [andb]. by rewrite andb_true_r, andb_false_r, orb_false_r.
  - rewrite (proj2 (Z.leb_le 0 (j - r))), (proj2 (Z.ltb_lt (j - r) (8 - r))) by lia.
    cbn [andb]. by rewrite andb_true_r, andb_false_r.
Qed.

(** Reading back the bytes that were stored one after the other. *)
Ltac byte_at :=
  repeat first [rewrite list_lookup_total_insert_eq by (rewrite ?length_insert; lia)
               |rewrite list_lookup_total_insert_ne by lia].

Lemma insert_code_ok n r_off ocode b :
  9 <= n <= 16 → 0 <= r_off → r_off + n <= 128 → byte_array b →
  ∃ b', insert_code n r_off ocode b = Ok b' ∧ byte_array b'
    ∧ (∀ k, 0 <= k < r_off → bit b' k = bit b k)
    ∧ (∀ k, 0 <= k < n → bit b' (r_off + k) = Z.testbit ocode k).
Proof.
  intros Hn Hr Hrn Hb. pose proof (proj1 Hb) as Hl. unfold insert_code.
  rewrite land_7, (Z.shiftr_div_pow2 r_off 3) by lia. change (2 ^ 3) with 8.
  set (p := r_off / 8). set (r := r_off mod 8).
  assert (r_off = 8 * p + r) as Hpr by (apply Z.div_mod; lia).
  assert (0 <= r < 8) as Hr8 by (apply Z.mod_pos_bound; lia).
  assert (0 <= p) by (apply Z.div_pos; lia).
  rewrite get_lookup, get_rmask, get_lmask by lia. cbn [res_bind].
  rewrite put_ok by lia. cbn [res_bind].
  assert (length (<[Z.to_nat p := u8 ((b !!! Z.to_nat p .& Z.ones r) .| (Z.shiftl ocode r .& Z.shiftl (Z.ones (8 - r)) r))]> b)
    = 16%nat) as Hl1 by (by rewrite length_insert).
  destruct (Z.leb_spec 8 (n - (8 - r))) as [Hm|Hm].
  - rewrite put_ok by lia. cbn [res_bind].
    destruct (Z.eqb_spec (n - (8 - r) - 8) 0) as [Hz|Hz]; cbn [negb].
    + eexists. split; [done|]. split; [by repeat apply byte_array_insert|].
      apply code_lies; [lia..| | |]; fold p r.
      * intros k Hk Hkp. unfold bit. pose proof (Z.div_pos k 8). by byte_at.
      * intros j Hj. rewrite !bit_byte by done. byte_at. by apply first_hunk.
      * intros q j Hq Hj Hqj. assert (q = 1) as -> by lia. rewrite bit_byte by done. byte_at.
        rewrite u8_bit, Z.shiftr_spec by lia. f_equal. lia.
    + rewrite put_ok by (rewrite length_insert; lia). replace (p + 1 + 1) with (p + 2) by lia. eexists. split; [done|]. split; [by repeat apply byte_array_insert|].
      apply code_lies; [lia..| | |]; fold p r.
      * intros k Hk Hkp. unfold bit. pose proof (Z.div_pos k 8). by byte_at.
      * intros j Hj. rewrite !bit_byte by done. byte_at. by apply first_hunk.
      * intros q j Hq Hj Hqj. assert (q = 1 ∨ q = 2) as [-> | ->] by lia; rewrite bit_byte by done; byte_at;
          rewrite u8_bit, !Z.shiftr_spec by lia; f_equal; lia.
  - rewrite (proj2 (Z.eqb_neq (n - (8 - r)) 0)) by lia. cbn [res_bind negb].
    rewrite put_ok by lia. eexists. split; [done|]. split; [by repeat apply byte_array_insert|].
    apply code_lies; [lia..| | |]; fold p r.
    + intros k Hk Hkp. unfold bit. pose proof (Z.div_pos k 8). by byte_at.
    + intros j Hj. rewrite !bit_byte by done. byte_at. by apply first_hunk.
    + intros q j Hq Hj Hqj. assert (q = 1) as -> by lia. rewrite bit_byte by done. byte_at.
      rewrite u8_bit, Z.shiftr_spec by lia. f_equal. lia.
Qed.

Lemma byte_bit_high c j : is_byte c → 8 <= j → Z.testbit c j = false.
Proof. intros Hc Hj. rewrite <- (u8_small c Hc). apply Z.mod_pow2_bits_high. lia. Qed.

Lemma bits_range c n : 0 <= c → 0 <= n → (∀ k, n <= k → Z.testbit c k = false) → c < 2 ^ n.
Proof.
  intros Hc Hn H. assert (c = c mod 2 ^ n) as ->; [|apply Z.mod_pos_bound; lia].
  apply Z.bits_inj'. intros k Hk. destruct (Z.lt_ge_cases k n).
  - by rewrite Z.mod_pow2_bits_low.
  - rewrite Z.mod_pow2_bits_high by lia. by apply H.
Qed.

Lemma byte_array_get g p : byte_array g → is_byte (g !!! Z.to_nat p).
Proof.
  intros [Hl HF]. destruct (Nat.lt_ge_cases (Z.to_nat p) 16) as [Hp|Hp].
  - destruct (lookup_lt_is_Some_2 g (Z.to_nat p)) as [v Hv]; [lia|].
    rewrite (list_lookup_total_correct _ _ _ Hv). by eapply Forall_lookup_1.
  - rewrite list_lookup_total_alt, lookup_ge_None_2 by lia. cbn. unfold is_byte. lia.
Qed.

(** The three hunks of a code. *)
Lemma hunks b0 b1 b2 n r : is_byte b0 → is_byte b1 → 0 <= r < 8 → 0 <= n - (8 - r) < 16 →
  let mid := 8 <=? n - (8 - r) in
  let c := (if mid then Z.shiftr b0 r .| Z.shiftl b1 (8 - r) else Z.shiftr b0 r)
             .| Z.shiftl (b2 .& Z.ones (if mid then n - (8 - r) - 8 else n - (8 - r))) (if mid then 8 - r + 8 else 8 - r) in
  0 <= c ∧ ∀ k, 0 <= k → Z.testbit c k =
    if k <? n then
      if k + r <? 8 then Z.testbit b0 (k + r)
      else if mid && (k + r <? 16) then Z.testbit b1 (k + r - 8)
      else Z.testbit b2 (k + r - if mid then 16 else 8)
    else false.
Proof.
  intros H0 H1 Hr Hn mid c. assert (∀ x y, 0 <= x → 0 <= y → 0 <= x .| y) as Hlor by (intros; by apply Z.lor_nonneg).
  assert (∀ x y, 0 <= x → 0 <= Z.shiftl x y) as Hsl by (intros; by apply Z.shiftl_nonneg).
  assert (∀ x y, 0 <= x → 0 <= Z.shiftr x y) as Hsr by (intros; by apply Z.shiftr_nonneg).
  assert (∀ x m, 0 <= m → 0 <= x .& Z.ones m) as Hand.
  { intros x m Hm. rewrite Z.land_ones by done. apply Z.mod_pos_bound. lia. }
  unfold is_byte in *. split.
  { unfold c. apply Hlor; [destruct mid; auto with lia|]. apply Hsl, Hand. unfold mid. Zcases; lia. }
  intros k Hk. unfold c, mid. clear c mid Hlor Hsl Hsr Hand.
  destruct (Z.leb_spec 8 (n - (8 - r))) as [Hm|Hm]; cbn [andb];
    rewrite !Z.lor_spec, !Z.shiftl_spec, Z.land_spec, Z.shiftr_spec, Z.testbit_ones by lia.
  - destruct (Z.ltb_spec (k + r) 8); [|destruct (Z.ltb_spec (k + r) 16)].
    + rewrite (proj2 (Z.ltb_lt k n)) by lia. rewrite !(Z.testbit_neg_r _ (k - _)) by lia. by rewrite !orb_false_r.
    + rewrite (proj2 (Z.ltb_lt k n)) by lia. rewrite (Z.testbit_neg_r b2) by lia. rewrite (byte_bit_high b0) by (unfold is_byte; lia).
      rewrite orb_false_r. cbn [orb]. f_equal. lia.
    + rewrite (byte_bit_high b0), (byte_bit_high b1) by (unfold is_byte; lia). cbn [orb].
      rewrite (proj2 (Z.leb_le 0 _)) by lia. replace (k - (8 - r + 8)) with (k + r - 16) by lia.
      destruct (Z.ltb_spec k n).
      * rewrite (proj2 (Z.ltb_lt (k + r - 16) _)) by lia. by rewrite andb_true_r.
      * rewrite (proj2 (Z.ltb_ge (k + r - 16) _)) by lia. by rewrite andb_false_r.
  - destruct (Z.ltb_spec (k + r) 8).
    + rewrite (proj2 (Z.ltb_lt k n)) by lia. rewrite !(Z.testbit_neg_r _ (k - _)) by lia. by rewrite !orb_false_r.
    + rewrite (byte_bit_high b0) by (unfold is_byte; lia). cbn [orb].
      rewrite (proj2 (Z.leb_le 0 _)) by lia. replace (k - (8 - r)) with (k + r - 8) by lia.
      destruct (Z.ltb_spec k n).
      * rewrite (proj2 (Z.ltb_lt (k + r - 8) _)) by lia. by rewrite andb_true_r.
      * rewrite (proj2 (Z.ltb_ge (k + r - 8) _)) by lia. by rewrite andb_false_r.
Qed.

Definition gbyte (past : Z) (g : list Z) (i : Z) : Z := if i =? 16 then past else g !!! Z.to_nat i.

Lemma gbuf_at_ok past g i : length g = 16%nat → 0 <= i <= 16 → gbuf_at past g i = Ok (gbyte past g i).
Proof.
  intros Hl Hi. unfold gbuf_at, gbyte. rewrite Hl. change (Z.of_nat 16) with 16.
  destruct (Z.eqb_spec i 16); [done|]. apply get_lookup. lia.
Qed.

Lemma extract_code_ok past n r_off g :
  9 <= n <= 16 → 0 <= r_off → r_off + n <= 128 → byte_array g →
  ∃ c, extract_code past n r_off g = Ok c ∧ 0 <= c < 2 ^ n ∧ ∀ k, 0 <= k < n → Z.testbit c k = bit g (r_off + k).
Proof.
  intros Hn Hr Hrn Hg. pose proof (proj1 Hg) as Hl. unfold extract_code.
  rewrite land_7, (Z.shiftr_div_pow2 r_off 3) by lia. change (2 ^ 3) with 8.
  set (p := r_off / 8). set (r := r_off mod 8).
  assert (r_off = 8 * p + r) as Hpr by (apply Z.div_mod; lia).
  assert (0 <= r < 8) as Hr8 by (apply Z.mod_pos_bound; lia).
  assert (0 <= p) by (apply Z.div_pos; lia).
  assert (∀ q j, 0 <= q → 0 <= 8 * q + j < 16 * 8 - 8 * p → 0 <= j < 8 → Z.testbit (gbyte past g (p + q)) j = bit g (8 * p + (8 * q + j))) as Hb.
  { intros q j Hq Hlt Hj. replace (8 * p + (8 * q + j)) with (8 * (p + q) + j) by lia. rewrite bit_byte by done.
    unfold gbyte. by rewrite (proj2 (Z.eqb_neq (p + q) 16)) by lia. }
  destruct (hunks (gbyte past g p) (gbyte past g (p + 1))
    (gbyte past g (if 8 <=? n - (8 - r) then p + 2 else p + 1)) n r) as [Hc0 Hc]; [..|lia|lia|].
  1,2: unfold gbyte; rewrite (proj2 (Z.eqb_neq _ 16)) by lia; by apply byte_array_get.
  match type of Hc0 with 0 <= ?x => set (c := x) in *; exists c end.
  split; [|split; [split; [done|]|]].
  - rewrite !gbuf_at_ok by lia. cbn [res_bind]. unfold c.
    destruct (Z.leb_spec 8 (n - (8 - r))); cbn [res_bind]; rewrite ?gbuf_at_ok by lia; cbn [res_bind];
      rewrite get_rmask by lia; cbn [res_bind]; [|done]. by replace (p + 1 + 1) with (p + 2) by lia.
  - apply bits_range; [done|lia|]. intros k Hk. rewrite Hc by lia. by rewrite (proj2 (Z.ltb_ge k n)) by lia.
  - intros k Hk. rewrite Hc by lia. rewrite (proj2 (Z.ltb_lt k n)) by lia. rewrite Hpr.
    destruct (Z.ltb_spec (k + r) 8).
    { rewrite <- (Z.add_0_r p) at 1. rewrite Hb by lia. f_equal. lia. }
    destruct (Z.leb_spec 8 (n - (8 - r))); cbn [andb].
    + destruct (Z.ltb_spec (k + r) 16); rewrite Hb by lia; f_equal; lia.
    + rewrite Hb by lia. f_equal. lia.
Qed.

(** ** Codes in a buffer *)

(** The first codes of a buffer. *)
Definition holds (n : Z) (cs : list Z) (b : list Z) : Prop :=
  ∀ j c k, cs !! j = Some c → 0 <= k < n → bit b (n * Z.of_nat j + k) = Z.testbit c k.

Lemma holds_nil n b : holds n [] b.
Proof. by intros j c k H. Qed.

Lemma bit_take m b k : 0 <= k < 8 * Z.of_nat m → bit (take m b) k = bit b k.
Proof.
  intros Hk. unfold bit. f_equal. rewrite !list_lookup_total_alt, lookup_take_lt; [done|].
  pose proof (Z.div_lt_upper_bound k 8 (Z.of_nat m)). assert (0 <= k / 8) by (apply Z.div_pos; lia). lia.
Qed.

Lemma holds_bits n cs b b' : 0 <= n →
  (∀ k, 0 <= k < n * Z.of_nat (length cs) → bit b' k = bit b k) → holds n cs b → holds n cs b'.
Proof.
  intros Hn H Hb j c k Hj Hk. rewrite H; [by apply Hb|]. apply lookup_lt_Some in Hj. nia.
Qed.

Lemma holds_take n cs b m : 0 <= n → n * Z.of_nat (length cs) <= 8 * Z.of_nat m → holds n cs b → holds n cs (take m b).
Proof. intros Hn Hm. apply holds_bits; [done|]. intros k Hk. apply bit_take. lia. Qed.

Lemma holds_snoc n cs b c : 0 <= n →
  holds n cs b → (∀ k, 0 <= k < n → bit b (n * Z.of_nat (length cs) + k) = Z.testbit c k) → holds n (cs ++ [c]) b.
Proof.
  intros Hn Hb Hc j d k Hj Hk. apply lookup_app_Some in Hj as [Hj|[Hle Hj]]; [by apply Hb|].
  destruct (j - length cs)%nat as [|i] eqn:E; [|done]. injection Hj as <-.
  replace j with (length cs) by lia. by apply Hc.
Qed.

Lemma holds_app_l n cs cs' b : holds n (cs ++ cs') b → holds n cs b.
Proof. intros H j c k Hj. apply H. by apply lookup_app_l_Some. Qed.

Definition io (e : Z) : Prop := e = EIO.

Section out.
Context (takes : list Z → list Z → bool) (maxbits maxmaxcode : Z).

Lemma flush_safe n o : 0 <= n <= 16 → length (buf o) = 16%nat →
  safe_or io (λ o', o' = mkOut (fp o ++ take (Z.to_nat n) (buf o)) (n_bits o) (maxcode o) (clear_flg o)
                         (offset o) (bytes_out o) (buf o)) (flush takes n o).
Proof.
  intros Hn Hl. unfold flush, fwrite. rewrite Hl, (proj2 (Z.leb_le n _)) by lia. by destruct (takes _ _).
Qed.

(** The width after a code. *)
Definition width_after (n mc fr clear : Z) : Z * Z :=
  if 0 <? clear then (INIT_BITS, MAXCODE INIT_BITS)
  else if mc <? fr then (n + 1, if n + 1 =? maxbits then maxmaxcode else MAXCODE (n + 1)) else (n, mc).

(** [o'] continues [o], in which the codes [cs] wait, after the code [c]. *)
Definition continues (cs : list Z) (c fr : Z) (o o' : zout) : Prop :=
  byte_array (buf o') ∧ clear_flg o' = 0 ∧ bytes_out o <= bytes_out o'
  ∧ (n_bits o', maxcode o') = width_after (n_bits o) (maxcode o) fr (clear_flg o)
  ∧ if bool_decide (length cs = 7%nat) || (maxcode o <? fr) || (0 <? clear_flg o)
    then ∃ block, fp o' = fp o ++ block ∧ Z.of_nat (length block) = n_bits o
         ∧ Forall is_byte block ∧ holds (n_bits o) (cs ++ [c]) block ∧ offset o' = 0
    else fp o' = fp o ∧ offset o' = n_bits o * (Z.of_nat (length cs) + 1) ∧ holds (n_bits o) (cs ++ [c]) (buf o').

Lemma next_width_safe fr o :
  9 <= n_bits o <= 16 → length (buf o) = 16%nat → 0 <= clear_flg o →
  safe_or io (λ o', buf o' = buf o ∧ clear_flg o' = 0 ∧ bytes_out o <= bytes_out o'
    ∧ (n_bits o', maxcode o') = width_after (n_bits o) (maxcode o) fr (clear_flg o)
    ∧ if (maxcode o <? fr) || (0 <? clear_flg o)
      then offset o' = 0 ∧ fp o' = fp o ++ (if 0 <? offset o then take (Z.to_nat (n_bits o)) (buf o) else [])
      else offset o' = offset o ∧ fp o' = fp o)
    (next_width takes maxbits maxmaxcode fr o).
Proof.
  intros Hn Hl Hclr. unfold next_width, width_after. destruct ((maxcode o <? fr) || (0 <? clear_flg o)) eqn:E.
  - apply (safe_or_bind _ (λ o', buf o' = buf o ∧ n_bits o' = n_bits o ∧ maxcode o' = maxcode o ∧ clear_flg o' = clear_flg o
      ∧ bytes_out o <= bytes_out o' ∧ fp o' = fp o ++ (if 0 <? offset o then take (Z.to_nat (n_bits o)) (buf o) else []))).
    { destruct (0 <? offset o); [|cbn; rewrite app_nil_r; split_and!; (done || lia)].
      eapply safe_or_bind; [apply flush_safe; [lia|done]|]. intros ? ->. cbn. split_and!; (done || lia). }
    intros [f n mc clr off bo b]; cbn. intros (-> & -> & -> & -> & Hbo & ->).
    destruct (Z.eqb_spec (clear_flg o) 0) as [E0|E0]; cbn.
    + rewrite E0 in *. rewrite Z.ltb_irrefl, orb_false_r in *. rewrite E. split_and!; (done || lia).
    + rewrite (proj2 (Z.ltb_lt 0 _)) by lia. split_and!; (done || lia).
  - apply orb_false_iff in E as [E1 E2]. cbn. rewrite E1, E2. apply Z.ltb_ge in E2. split_and!; (done || lia).
Qed.

Lemma output_code cs c fr o :
  9 <= n_bits o <= 16 → offset o = n_bits o * Z.of_nat (length cs) → (length cs < 8)%nat →
  byte_array (buf o) → holds (n_bits o) cs (buf o) → 0 <= c → 0 <= clear_flg o →
  safe_or io (continues cs c fr o) (output takes maxbits maxmaxcode fr o c).
Proof.
  intros Hn Ho Hcs Hb Hh Hc Hclr. unfold output. rewrite (proj2 (Z.leb_le 0 c)) by done.
  destruct (insert_code_ok (n_bits o) (offset o) c (buf o)) as (b' & -> & Hb' & Hlow & Hhigh); [done|nia|nia|done|].
  cbn [res_bind].
  assert (holds (n_bits o) (cs ++ [c]) b') as Hh'.
  { apply holds_snoc; [lia| |by rewrite <- Ho]. eapply holds_bits; [lia| |exact Hh]. intros k Hk. apply Hlow. lia. }
  assert (∀ m, Z.of_nat (S (length cs)) * n_bits o <= 8 * Z.of_nat m → holds (n_bits o) (cs ++ [c]) (take m b')) as Hht.
  { intros m Hm. apply holds_take; [lia| |done]. rewrite length_app. simpl. lia. }
  set (o1 := set_offset (set_buf o b') (offset o + n_bits o) 0).
  assert (length (buf o1) = 16%nat) as Hl1 by apply Hb'.
  set (n := Z.to_nat (n_bits o)) in *.
  assert (Forall is_byte (take n b')) as HF by apply Forall_take, Hb'.
  assert (length (take n b') = n) as Hlt by (rewrite length_take, (proj1 Hb'); lia).
  change (offset o1) with (offset o + n_bits o). change (n_bits o1) with (n_bits o). rewrite Z.shiftl_mul_pow2 by lia. change (2 ^ 3) with 8.
  destruct (decide (length cs = 7%nat)) as [H7|H7].
  - rewrite (proj2 (Z.eqb_eq (offset o + n_bits o) (n_bits o * 8))) by (rewrite Ho, H7; lia).
    eapply (safe_or_bind _ (λ o', o' = mkOut (fp o ++ take n b') (n_bits o) (maxcode o) (clear_flg o) 0
      (bytes_out o + 0 + n_bits o + 0) b')).
    { eapply safe_or_bind; [apply flush_safe; [cbn; lia|done]|]. by intros ? ->. }
    intros ? ->. eapply safe_or_mono; [by apply next_width_safe|].
    cbn. intros o' (Hb2 & Hc2 & Hbo & Hw & Hif). unfold continues. rewrite Hb2. rewrite bool_decide_true by done. cbn [orb].
    split_and!; [done|done|lia|done|]. exists (take n b'). destruct ((maxcode o <? fr) || (0 <? clear_flg o)).
    + destruct Hif as [-> ->]. rewrite app_nil_r, Hlt. split_and!; [done|lia|done|apply Hht; nia|done].
    + destruct Hif as [-> ->]. rewrite Hlt. split_and!; [done|lia|done|apply Hht; nia|done].
  - rewrite (proj2 (Z.eqb_neq (offset o + n_bits o) (n_bits o * 8))) by nia. cbn [res_bind]. eapply safe_or_mono; [by apply next_width_safe|].
    cbn. intros o' (Hb2 & Hc2 & Hbo & Hw & Hif). unfold continues. rewrite Hb2. rewrite bool_decide_false by done. cbn [orb].
    split_and!; [done|done|lia|done|]. destruct ((maxcode o <? fr) || (0 <? clear_flg o)).
    + destruct Hif as [-> ->]. rewrite (proj2 (Z.ltb_lt 0 (offset o + n_bits o))) by nia. exists (take n b').
      rewrite Hlt. split_and!; [done|lia|done|apply Hht; nia|done].
    + destruct Hif as [-> ->]. split_and!; [done|rewrite Ho; lia|done].
Qed.

(** The end of the file. *)
Lemma output_eof cs fr o :
  9 <= n_bits o <= 16 → offset o = n_bits o * Z.of_nat (length cs) → (length cs < 8)%nat →
  byte_array (buf o) → holds (n_bits o) cs (buf o) →
  safe_or io (λ o', ∃ block, fp o' = fp o ++ block ∧ Forall is_byte block ∧ holds (n_bits o) cs block
    ∧ n_bits o * Z.of_nat (length cs) <= 8 * Z.of_nat (length block) < n_bits o * Z.of_nat (length cs) + 8)
    (output takes maxbits maxmaxcode fr o (-1)).
Proof.
  intros Hn Ho Hcs Hb Hh. unfold output. change (0 <=? -1) with false. cbn iota.
  destruct (Z.ltb_spec 0 (offset o)) as [Hpos|Hz].
  - pose proof (Z.div_mod (offset o + 7) 8 ltac:(lia)) as D. pose proof (Z.mod_pos_bound (offset o + 7) 8 ltac:(lia)).
    set (n := (offset o + 7) / 8) in *. destruct Hb as [Hl HF].
    eapply safe_or_bind; [apply flush_safe; [nia|done]|]. intros ? ->. cbn.
    exists (take (Z.to_nat n) (buf o)). rewrite length_take, Hl. split_and!; [done|by apply Forall_take| |nia|nia].
    apply holds_take; [lia|nia|done].
  - assert (cs = []) as -> by (destruct cs; [done|simpl in Ho; nia]). cbn. exists []. rewrite app_nil_r.
    split_and!; [done|done|apply holds_nil|simpl; lia|simpl; lia].
Qed.

End out.

(** ** The hash table *)

Lemma hsize_no_divisor d : 2 <= d <= 262 → HSIZE mod d ≠ 0.
Proof.
  assert (forallb (λ d, negb (HSIZE mod d =? 0)) (seqZ 2 261) = true) as H by (vm_compute; reflexivity).
  rewrite forallb_forall in H. intros Hd E.
  assert (d ∈ seqZ 2 261) as Hin by (apply elem_of_seqZ; lia).
  apply list_elem_of_In, H in Hin. by rewrite E in Hin.
Qed.

Lemma hsize_coprime d : 0 < d < HSIZE → Z.gcd d HSIZE = 1.
Proof.
  intros Hd. pose proof (Z.gcd_nonneg d HSIZE). set (g := Z.gcd d HSIZE) in *.
  destruct (Z.gcd_divide_r d HSIZE) as [q Hq]. destruct (Z.gcd_divide_l d HSIZE) as [p Hp]. fold g in Hq, Hp.
  destruct (Z.eq_dec g 1) as [|Hne]; [done|exfalso].
  assert (g ≠ 0) by (intros E; rewrite E in Hq; unfold HSIZE in Hq; lia).
  assert (0 < q) by (unfold HSIZE in *; nia). assert (0 < p) by nia.
  assert (q ≠ 1) by (intros ->; nia).
  destruct (Z.le_gt_cases g 262).
  - apply (hsize_no_divisor g); [lia|]. rewrite Hq. apply Z.mod_mul. lia.
  - apply (hsize_no_divisor q); [unfold HSIZE in *; nia|]. rewrite Hq, Z.mul_comm. apply Z.mod_mul. lia.
Qed.

Section probe.
Context (t : gmap Z Z) (fcode i disp : Z).
Context (Hdisp : 0 < disp < HSIZE) (Ht : map_Forall (λ _ f, 0 <= f) t) (Hsize : Z.of_nat (base.size t) < HSIZE).

Definition pos (k : nat) : Z := (i - Z.of_nat k * disp) mod HSIZE.

Lemma pos_range k : 0 <= pos k < HSIZE.
Proof. apply Z.mod_pos_bound. done. Qed.

Lemma pos_step k : (let j := pos k - disp in if j <? 0 then j + HSIZE else j) = pos (S k).
Proof.
  cbn zeta. unfold pos. rewrite Nat2Z.inj_succ. unfold Z.succ.
  replace (i - (Z.of_nat k + 1) * disp) with (i - Z.of_nat k * disp - disp) by lia.
  rewrite <- (Zminus_mod_idemp_l (i - Z.of_nat k * disp) disp). pose proof (pos_range k) as Hr. fold (pos k).
  destruct (Z.ltb_spec (pos k - disp) 0).
  - rewrite <- (Z.mod_add (pos k - disp) 1) by done. rewrite Z.mod_small; lia.
  - rewrite Z.mod_small; lia.
Qed.

Lemma pos_inj j k : (j < k)%nat → Z.of_nat k - Z.of_nat j < HSIZE → pos j ≠ pos k.
Proof.
  intros Hjk Hlt E. unfold pos in E.
  assert (HSIZE | (Z.of_nat k - Z.of_nat j) * disp) as Hdiv.
  { apply Z.mod_divide; [done|]. replace ((Z.of_nat k - Z.of_nat j) * disp)
      with ((i - Z.of_nat j * disp) - (i - Z.of_nat k * disp)) by lia.
    rewrite Zminus_mod, E, Z.sub_diag. done. }
  rewrite Z.mul_comm in Hdiv. apply Z.gauss in Hdiv; [|rewrite Z.gcd_comm; by apply hsize_coprime].
  apply Z.divide_pos_le in Hdiv; lia.
Qed.

(** Some slot is empty, and the probes reach every slot. *)
Lemma not_all_taken : ¬ ∀ k, (1 <= k <= Z.to_nat HSIZE)%nat → is_Some (t !! pos k).
Proof.
  intros H. set (l := pos <$> seq 1 (Z.to_nat HSIZE)).
  assert (NoDup l) as Hnd.
  { apply NoDup_fmap_2_strong; [|apply NoDup_ListNoDup, seq_NoDup].
    intros j k Hj Hk E. apply elem_of_seq in Hj, Hk.
    destruct (Nat.lt_trichotomy j k) as [Hlt|[->|Hlt]]; [|done|]; exfalso.
    - apply (pos_inj j k Hlt); [lia|done].
    - apply (pos_inj k j Hlt); [lia|done]. }
  assert (list_to_set l ⊆ dom t) as Hsub.
  { intros x Hx. apply elem_of_list_to_set in Hx. apply list_elem_of_fmap in Hx as (k & -> & Hk).
    apply elem_of_dom, H. apply elem_of_seq in Hk. lia. }
  apply subseteq_size in Hsub. rewrite size_list_to_set in Hsub by done. rewrite size_dom in Hsub.
  unfold l in Hsub. rewrite length_fmap, length_seq in Hsub. lia.
Qed.

Definition found_in (s : Z * bool) : Prop :=
  0 <= fst s < HSIZE ∧ (if snd s then t !! fst s = Some fcode else t !! fst s = None).

Lemma htabof_ok j : 0 <= j < HSIZE → htabof t j = Ok (default (-1) (t !! j)).
Proof. intros Hj. unfold htabof. by rewrite (proj2 (Z.leb_le 0 j)), (proj2 (Z.ltb_lt j _)) by lia. Qed.

Lemma probe_ok fuel k : (fuel + k = Z.to_nat HSIZE)%nat → 0 <= fcode →
  (∀ j, (1 <= j <= k)%nat → is_Some (t !! pos j)) → ∃ s, probe fuel t fcode disp (pos k) = Ok s ∧ found_in s.
Proof.
  revert k. induction fuel as [|fuel IH]; intros k Hk Hf Hall.
  - exfalso. apply not_all_taken. intros j Hj. apply Hall. lia.
  - cbn [probe]. cbn zeta. pose proof (pos_step k) as Hs. cbn zeta in Hs. rewrite Hs.
    pose proof (pos_range (S k)) as Hr. rewrite htabof_ok by done. cbn [res_bind].
    destruct (t !! pos (S k)) as [h|] eqn:E; cbn [default id].
    + pose proof (Ht _ _ E) as Hh. cbn in Hh. destruct (Z.eqb_spec h fcode) as [->|Hne].
      * eexists. split; [done|]. by split.
      * rewrite (proj2 (Z.leb_le 0 h)) by lia. apply IH; [lia|done|]. intros j Hj.
        destruct (decide (j = S k)) as [->|]; [by rewrite E|apply Hall; lia].
    + rewrite (proj2 (Z.eqb_neq (-1) fcode)) by lia. cbn. eexists. split; [done|]. by split.
Qed.

End probe.

Lemma search_finds t fcode i :
  0 <= i < HSIZE → 0 <= fcode → map_Forall (λ _ f, 0 <= f) t → Z.of_nat (base.size t) < HSIZE →
  ∃ s, search t fcode i = Ok s ∧ found_in t fcode s.
Proof.
  intros Hi Hf Ht Hs. unfold search. rewrite htabof_ok by done. cbn [res_bind].
  destruct (t !! i) as [h|] eqn:E; cbn [default id].
  - pose proof (Ht _ _ E) as Hh. cbn in Hh. destruct (Z.eqb_spec h fcode) as [->|Hne]; [eexists; split; [done|by split]|].
    rewrite (proj2 (Z.ltb_ge h 0)) by lia.
    assert (0 < (if i =? 0 then 1 else HSIZE - i) < HSIZE) as Hd by (unfold HSIZE in *; Zcases; lia).
    assert (pos i (if i =? 0 then 1 else HSIZE - i) 0 = i) as Hp by (unfold pos; rewrite Z.sub_0_r; by apply Z.mod_small).
    pose proof (probe_ok t fcode i _ Hd Ht Hs (Z.to_nat HSIZE) 0) as H. rewrite Hp in H.
    apply H; [lia|done|]. intros j Hj. lia.
  - rewrite (proj2 (Z.eqb_neq (-1) fcode)) by lia. cbn. eexists. split; [done|]. by split.
Qed.
