(* ===== verification/ZopenSpec.v ===== *)
(** * What is read from a file that was written by zopen

    The strings of the codes; what a writer has written and a reader knows after it
    ([trace]); the writer, the reader and the round trip. *)

From stdpp Require Import gmap.
From S2P Require Import Prelude Libc Zopen ZopenBits.

(** ** The strings of the codes *)

(** [S] holds the strings of the codes from [FIRST] on. *)
Definition free (S : list (list Z)) : Z := FIRST + Z.of_nat (length S).
Definition word (S : list (list Z)) (c : Z) : option (list Z) :=
  if (0 <=? c) && (c <? 256) then Some [c]
  else if c <? FIRST then None else S !! Z.to_nat (c - FIRST).

(** The string a reader takes a code for after the code [old], and the string it adds. *)
Definition next_word (S : list (list Z)) (old : option Z) (c : Z) : option (list Z) :=
  if c <? free S then word S c
  else if c =? free S then o ← old; w ← word S o; Some (w ++ take 1 w) else None.
Definition add_string (mm : Z) (S : list (list Z)) (old : option Z) (w : list Z) : list (list Z) :=
  if free S <? mm then
    match o ← old; word S o with Some ow => S ++ [ow ++ take 1 w] | None => S end
  else S.

Definition nonempty (l : list Z) : Prop := l ≠ [].

Lemma word_range S c w : word S c = Some w → 0 <= c < free S.
Proof.
  unfold word, free. destruct (Z.leb_spec 0 c), (Z.ltb_spec c 256), (Z.ltb_spec c FIRST); cbn; intros E;
    try done; unfold FIRST in *; try lia; apply lookup_lt_Some in E; lia.
Qed.

Lemma word_app S S' c w : word S c = Some w → word (S ++ S') c = Some w.
Proof. unfold word. repeat case_match; try done. apply lookup_app_l_Some. Qed.

Lemma word_new S w : word (S ++ [w]) (free S) = Some w.
Proof.
  unfold word, free, FIRST. rewrite (proj2 (Z.ltb_ge _ 256)), andb_false_r, (proj2 (Z.ltb_ge _ 257)) by lia.
  apply list_lookup_middle. lia.
Qed.

Lemma word_app_inv S S' c w : c < free S → word (S ++ S') c = Some w → word S c = Some w.
Proof.
  unfold word, free. intros Hc. destruct ((0 <=? c) && (c <? 256)); [done|].
  destruct (Z.ltb_spec c FIRST); [done|]. by rewrite lookup_app_l by lia.
Qed.

Lemma word_nonempty S c w : Forall nonempty S → word S c = Some w → w ≠ [].
Proof.
  intros HS. unfold word. repeat case_match; try done; [by intros [= <-]|].
  intros H'. by apply (Forall_lookup_1 _ _ _ _ HS) in H'.
Qed.

Lemma free_app S w : free (S ++ [w]) = free S + 1.
Proof. unfold free. rewrite length_app. simpl. lia. Qed.

(** [add_string] only appends. *)
Lemma add_string_cases mm S old w :
  (add_string mm S old w = S ∧ (mm <= free S ∨ (o ← old; word S o) = None))
  ∨ ∃ oc ow, old = Some oc ∧ word S oc = Some ow ∧ free S < mm ∧ add_string mm S old w = S ++ [ow ++ take 1 w].
Proof.
  unfold add_string. destruct (Z.ltb_spec (free S) mm); [|left; split; [done|by left]].
  destruct old as [oc|]; cbn; [|left; split; [done|by right]].
  destruct (word S oc) as [ow|] eqn:E; cbn; [|left; split; [done|by right]].
  right. by exists oc, ow.
Qed.

Lemma add_string_word mm S old w c v : word S c = Some v → word (add_string mm S old w) c = Some v.
Proof.
  intros H. destruct (add_string_cases mm S old w) as [[-> _]|(?&?&_&_&_&->)]; [done|by apply word_app].
Qed.

Lemma add_string_nonempty mm S old w : Forall nonempty S → Forall nonempty (add_string mm S old w).
Proof.
  intros H. destruct (add_string_cases mm S old w) as [[-> _]|(oc&ow&_&Ho&_&->)]; [done|].
  apply Forall_app. split; [done|]. constructor; [|done]. pose proof (word_nonempty _ _ _ H Ho).
  by destruct ow.
Qed.

Lemma add_string_free mm S old w : free S <= mm → free S <= free (add_string mm S old w) <= mm.
Proof.
  intros H. destruct (add_string_cases mm S old w) as [[-> _]|(oc&ow&_&Ho&?&->)]; [lia|]. rewrite free_app. lia.
Qed.

Lemma add_string_take mm S old w w' : take 1 w = take 1 w' → add_string mm S old w = add_string mm S old w'.
Proof. intros E. unfold add_string. by rewrite E. Qed.

(** After a code its string is that of the new table. *)
Lemma next_word_added mm S old c w :
  Forall nonempty S → c < mm → next_word S old c = Some w → word (add_string mm S old w) c = Some w.
Proof.
  intros HS Hc. unfold next_word. destruct (Z.ltb_spec c (free S)); [apply add_string_word|].
  destruct (Z.eqb_spec c (free S)) as [->|]; [|done]. destruct old as [oc|]; cbn; [|done].
  destruct (word S oc) as [ow|] eqn:E; cbn; [|done]. intros [= <-].
  unfold add_string. rewrite (proj2 (Z.ltb_lt _ mm)) by done. cbn. rewrite E.
  pose proof (word_nonempty _ _ _ HS E). destruct ow; [done|]. cbn. rewrite take_0. apply word_new.
Qed.

(** The string of the table a writer has before it writes the code is the one the reader,
    which lacks the last string, takes the code for. *)
Lemma added_next_word mm S old c w :
  Forall nonempty S → word (add_string mm S old w) c = Some w → next_word S old c = Some w.
Proof.
  intros HS H. unfold next_word. destruct (add_string_cases mm S old w) as [[E _]|(oc&ow&->&Ho&Hf&E)]; rewrite E in H.
  - pose proof (word_range _ _ _ H).
    by rewrite (proj2 (Z.ltb_lt c (free S))) by lia.
  - pose proof (word_range _ _ _ H) as Hr. rewrite free_app in Hr. destruct (Z.ltb_spec c (free S)); [by eapply word_app_inv|].
    assert (c = free S) as -> by lia. rewrite Z.eqb_refl. cbn. rewrite Ho. cbn.
    rewrite word_new in H. injection H as Hw. pose proof (word_nonempty _ _ _ HS Ho).
    destruct ow as [|x ow]; [done|].
    assert (take 1 w = [x]) as Ht by (rewrite <- Hw; cbn; by rewrite take_0).
    rewrite Ht in Hw. rewrite <- Hw. cbn. by rewrite take_0.
Qed.

(** ** What a writer has written *)

Section trace.
Context (mb : Z).
Notation mm := (2 ^ mb).

Definition widened (n mc fr : Z) : Z * Z :=
  if mc <? fr then (n + 1, if n + 1 =? mb then mm else MAXCODE (n + 1)) else (n, mc).

(** Codes in the buffers they are written in: the codes of each full buffer with their
    width, the codes of the last buffer, the width of the next code, and what a reader knows
    after them: the strings, the last code, and all the characters. *)
Inductive trace : list (Z * list Z) → list Z → Z → Z → list (list Z) → option Z → list Z → Prop :=
  | tr_start : trace [] [] INIT_BITS (MAXCODE INIT_BITS) [] None []
  | tr_code gs cs n mc S old o c w (close : bool) :
      trace gs cs n mc S old o → 0 <= c < 2 ^ n → c ≠ CLEAR → next_word S old c = Some w →
      close = bool_decide (length cs = 7%nat) || (mc <? free (add_string mm S old w)) →
      trace (if close then gs ++ [(n, cs ++ [c])] else gs) (if close then [] else cs ++ [c])
        (fst (widened n mc (free (add_string mm S old w)))) (snd (widened n mc (free (add_string mm S old w))))
        (add_string mm S old w) (Some c) (o ++ w)
  | tr_clear gs cs n mc S old o :
      trace gs cs n mc S old o →
      trace (gs ++ [(n, cs ++ [CLEAR])]) [] INIT_BITS (MAXCODE INIT_BITS) [] None o.

Context (Hmb : 12 <= mb <= 16).

(** The widths and the strings that can occur. *)
Definition width_ok (n mc : Z) : Prop := 9 <= n ∧ (n < mb ∧ mc = MAXCODE n ∨ n = mb ∧ mc = mm).
Definition old_ok (S : list (list Z)) (old : option Z) : Prop :=
  match old with Some c => is_Some (word S c) | None => S = [] end.

Lemma MAXCODE_pow n : 0 <= n → MAXCODE n = 2 ^ n - 1.
Proof. intros Hn. unfold MAXCODE. by rewrite Z.shiftl_mul_pow2, Z.mul_1_l by lia. Qed.

Lemma mm_range : 4096 <= mm <= 65536.
Proof.
  split.
  - apply (Z.pow_le_mono_r 2 12); lia.
  - apply (Z.pow_le_mono_r 2 mb 16); lia.
Qed.

Lemma width_ok_mc n mc : width_ok n mc → 9 <= n <= mb ∧ mc <= 2 ^ n <= mm.
Proof.
  intros [Hn [[Hlt ->]|[-> ->]]].
  - rewrite MAXCODE_pow by lia. split; [lia|]. split; [lia|]. apply Z.pow_le_mono_r; lia.
  - lia.
Qed.

Lemma widened_ok n mc fr : width_ok n mc → fr <= mm → fr <= mc + 1 →
  width_ok (fst (widened n mc fr)) (snd (widened n mc fr)) ∧ fr <= snd (widened n mc fr).
Proof.
  intros Hw Hmm Hfr. unfold widened. destruct (Z.ltb_spec mc fr); cbn [fst snd]; [|done].
  destruct Hw as [Hn [[Hlt ->]|[-> ->]]]; [|lia]. rewrite MAXCODE_pow in * by lia.
  assert (2 ^ (n + 1) = 2 * 2 ^ n) by (rewrite Z.pow_add_r by lia; lia).
  destruct (Z.eqb_spec (n + 1) mb) as [E|E].
  - split; [|lia]. split; [lia|]. right. split; [done|]. done.
  - split; [split; [lia|left; split; [lia|by rewrite MAXCODE_pow by lia]]|lia].
Qed.

Lemma init_width_ok : width_ok INIT_BITS (MAXCODE INIT_BITS).
Proof. split; [done|]. left. split; [unfold INIT_BITS; lia|done]. Qed.

Record trace_ok (cs : list Z) (n mc : Z) (S : list (list Z)) (old : option Z) : Prop := {
  to_cs : (length cs < 8)%nat;
  to_width : width_ok n mc;
  to_free : free S <= mc;
  to_mm : free S <= mm;
  to_nonempty : Forall nonempty S;
  to_old : old_ok S old
}.

Lemma trace_inv gs cs n mc S old o : trace gs cs n mc S old o → trace_ok cs n mc S old.
Proof.
  pose proof mm_range as Hmm.
  induction 1 as [|gs cs n mc S old o c w close H [IHcs IHw IHf IHm IHn IHo] Hc HC Hw Hcl|gs cs n mc S old o H IH].
  - split; try done; [simpl; lia|apply init_width_ok|unfold free, FIRST; simpl; lia].
  - pose proof (add_string_free mm S old w IHm) as Hfree.
    pose proof (width_ok_mc _ _ IHw) as Hmc.
    assert (free (add_string mm S old w) <= mc + 1) as H1.
    { destruct (add_string_cases mm S old w) as [[-> _]|(oc&ow&_&_&_&->)]; [lia|]. rewrite free_app. lia. }
    destruct (widened_ok n mc _ IHw (proj2 Hfree) H1) as [Hw1 Hw2].
    split; [|done|done|lia|by apply add_string_nonempty|].
    + rewrite Hcl. destruct (decide (length cs = 7%nat)); [by rewrite bool_decide_true by done; cbn; lia|].
      case_match; [simpl; lia|]. rewrite length_app. simpl. lia.
    + exists w. apply next_word_added; [done|lia|done].
  - split; try done; [simpl; lia|apply init_width_ok|unfold free, FIRST; simpl; lia].
Qed.

(** ** The writer *)

Section writer.
Context (takes : list Z → list Z → bool).

Definition header : list Z := magic_header ++ [mb .| BLOCK_MASK].
Definition block_of (g : Z * list Z) (b : list Z) : Prop :=
  Z.of_nat (length b) = fst g ∧ Forall is_byte b ∧ holds (fst g) (snd g) b.

(** The state of the output after a trace. *)
Record written (o : zout) (gs : list (Z * list Z)) (cs : list Z) (n mc : Z) : Prop := {
  wr_n : n_bits o = n;
  wr_mc : maxcode o = mc;
  wr_clear : clear_flg o = 0;
  wr_offset : offset o = n * Z.of_nat (length cs);
  wr_buf : byte_array (buf o);
  wr_holds : holds n cs (buf o);
  wr_bytes : 3 <= bytes_out o;
  wr_fp : ∃ blocks, fp o = header ++ concat blocks ∧ Forall2 block_of gs blocks
}.

(** Every slot of the hash table holds a code and the character with which it makes
    another string, whose code is in [codetab]. *)
Definition slot_ok (S : list (list Z)) (ctab : gmap Z Z) (i f : Z) : Prop :=
  ∃ c e w, is_byte c ∧ f = Z.shiftl c mb + e ∧ word S e = Some w ∧ word S (codetabof ctab i) = Some (w ++ [c]).
Record table_ok (h ctab : gmap Z Z) (S : list (list Z)) : Prop := {
  tb_slots : map_Forall (slot_ok S ctab) h;
  tb_size : Z.of_nat (base.size h) <= Z.of_nat (length S)
}.

(** The writer has taken the characters [data]; the last of them, [w], are those of [ent]. *)
Record writing (z : zw) (S : list (list Z)) (old : option Z) (w : list Z) : Prop := {
  wz_state : w_state z = S_MIDDLE;
  wz_maxbits : maxbits z = mb;
  wz_maxmaxcode : maxmaxcode z = mm;
  wz_block : block_compress z = BLOCK_MASK;
  wz_hshift : hshift z = 8;
  wz_free : free_ent z = free (add_string mm S old w);
  wz_table : table_ok (htab z) (codetab z) (add_string mm S old w);
  wz_ent : word (add_string mm S old w) (ent z) = Some w;
  wz_w : w ≠ []
}.
Definition has_written (z : zw) (data : list Z) : Prop :=
  ∃ gs cs n mc S old o w, trace gs cs n mc S old o ∧ written (out z) gs cs n mc ∧ writing z S old w ∧ data = o ++ w.

Lemma written_code o gs cs n mc S old q c w :
  trace gs cs n mc S old q → written o gs cs n mc → 0 <= c < 2 ^ n → c ≠ CLEAR → next_word S old c = Some w →
  safe_or io (λ o', ∃ gs' cs' n' mc', trace gs' cs' n' mc' (add_string mm S old w) (Some c) (q ++ w) ∧ written o' gs' cs' n' mc')
    (output takes mb mm (free (add_string mm S old w)) o c).
Proof.
  intros Ht [Hn Hmc Hclr Hoff Hb Hh Hby Hfp] Hc HC Hw. pose proof (trace_inv _ _ _ _ _ _ _ Ht) as Hi.
  destruct (width_ok_mc _ _ (to_width _ _ _ _ _ Hi)) as [Hnr _]. pose proof (to_cs _ _ _ _ _ Hi) as Hcs.
  pose proof (tr_code _ _ _ _ _ _ _ _ _ _ Ht Hc HC Hw eq_refl) as Ht'.
  eapply safe_or_mono; [apply (output_code takes mb mm cs)|]; rewrite ?Hn, ?Hclr; try done; try lia.
  intros o' (Hb' & Hc' & Hby' & Hwd & Hif). rewrite Hn, Hmc, Hclr in *. rewrite Z.ltb_irrefl, orb_false_r in Hif.
  eexists _, _, _, _. split; [exact Ht'|]. unfold widened. unfold width_after in Hwd. rewrite Z.ltb_irrefl in Hwd.
  destruct Hfp as (blocks & Hfp & HF). destruct (_ || _) eqn:Ecl.
  - destruct Hif as (block & Hfp' & Hlen & HB & Hho & Hoff').
    cbn iota. split; try done; try (case_match; by injection Hwd); [rewrite Hoff'; cbn [length]; lia|lia|].
    exists (blocks ++ [block]). split; [by rewrite Hfp', Hfp, concat_app; cbn [concat]; rewrite app_nil_r, app_assoc|].
    apply Forall2_app; [done|]. by repeat constructor.
  - destruct Hif as (Hfp' & Hoff' & Hho). apply orb_false_iff in Ecl as [_ Ecl]. rewrite Ecl in Hwd |- *.
    injection Hwd as Hn' Hmc'. cbn [fst snd]. split; try done; [rewrite Hoff', length_app; simpl; lia|lia|].
    exists blocks. by rewrite Hfp'.
Qed.

Lemma written_clear o gs cs n mc S old q fr :
  trace gs cs n mc S old q → written o gs cs n mc →
  safe_or io (λ o', ∃ gs', trace gs' [] INIT_BITS (MAXCODE INIT_BITS) [] None q ∧ written o' gs' [] INIT_BITS (MAXCODE INIT_BITS))
    (output takes mb mm fr (set_width o (n_bits o) (maxcode o) 1) CLEAR).
Proof.
  intros Ht [Hn Hmc Hclr Hoff Hb Hh Hby Hfp]. pose proof (trace_inv _ _ _ _ _ _ _ Ht) as Hi.
  destruct (width_ok_mc _ _ (to_width _ _ _ _ _ Hi)) as [Hnr _]. pose proof (to_cs _ _ _ _ _ Hi) as Hcs.
  pose proof (tr_clear _ _ _ _ _ _ _ Ht) as Ht'.
  eapply safe_or_mono; [apply (output_code takes mb mm cs)|]; cbn; rewrite ?Hn; try done; try lia.
  intros o' (Hb' & Hc' & Hby' & Hwd & Hif). cbn in Hby', Hwd, Hif. rewrite orb_true_r in Hif.
  exists (gs ++ [(n, cs ++ [CLEAR])]). split; [done|].
  destruct Hfp as (blocks & Hfp & HF). destruct Hif as (block & Hfp' & Hlen & HB & Hho & Hoff').
  injection Hwd as Hn' Hmc'.
  split; [done|done|done|by rewrite Hoff'|done|apply holds_nil|lia|].
  exists (blocks ++ [block]). split; [by rewrite Hfp', Hfp, concat_app; cbn [concat]; rewrite app_nil_r, app_assoc|].
  apply Forall2_app; [done|]. by repeat constructor.
Qed.

Lemma table_ok_grow h ctab S S' : table_ok h ctab S → table_ok h ctab (S ++ S').
Proof.
  intros [Hs Hz]. split; [|rewrite length_app; lia].
  intros i f Hi. destruct (Hs i f Hi) as (c & e & w & Hc & -> & He & Hw).
  exists c, e, w. split_and!; [done|done|by apply word_app..].
Qed.

Lemma table_ok_insert h ctab S i c e w :
  table_ok h ctab S → h !! i = None → is_byte c → word S e = Some w →
  table_ok (<[i := Z.shiftl c mb + e]> h) (<[i := free S]> ctab) (S ++ [w ++ [c]]).
Proof.
  intros [Hs Hz] Hi Hc He. split.
  - intros j f Hj. apply lookup_insert_Some in Hj as [[<- <-]|[Hne Hj]].
    + exists c, e, w. split_and!; [done|done|by apply word_app|]. unfold codetabof. rewrite lookup_insert_eq. apply word_new.
    + destruct (Hs j f Hj) as (c' & e' & w' & Hc' & -> & He' & Hw'). exists c', e', w'.
      split_and!; [done|done|by apply word_app|]. unfold codetabof in *. rewrite lookup_insert_ne by done. by apply word_app.
  - rewrite map_size_insert_None by done. rewrite length_app. simpl. lia.
Qed.

Lemma table_ok_empty ctab S : table_ok ∅ ctab S.
Proof. split; [apply map_Forall_empty|]. rewrite map_size_empty. lia. Qed.

(** Equal keys are of equal pairs. *)
Lemma fcode_inj c e c' e' : 0 <= e < mm → 0 <= e' < mm →
  Z.shiftl c mb + e = Z.shiftl c' mb + e' → c = c' ∧ e = e'.
Proof.
  rewrite !Z.shiftl_mul_pow2 by lia. intros He He' E.
  assert (c = c') as -> by nia. split; [done|lia].
Qed.

Lemma hash_range c e : is_byte c → 0 <= e < 65536 → 0 <= Z.lxor (Z.shiftl c 8) e < 65536.
Proof.
  unfold is_byte. intros Hc He. assert (0 <= Z.shiftl c 8 < 2 ^ 16) as Hs by (rewrite Z.shiftl_mul_pow2 by lia; lia).
  assert (0 <= Z.lxor (Z.shiftl c 8) e) as H0 by (apply Z.lxor_nonneg; lia). split; [done|].
  apply (bits_range _ 16); [done|lia|]. intros k Hk. rewrite Z.lxor_spec.
  rewrite <- (Z.mod_small (Z.shiftl c 8) (2 ^ 16)), <- (Z.mod_small e (2 ^ 16)) by lia.
  by rewrite !Z.mod_pow2_bits_high by lia.
Qed.

Lemma add_string_full S old w : mm <= free S → add_string mm S old w = S.
Proof. intros H. unfold add_string. by rewrite (proj2 (Z.ltb_ge _ _)) by lia. Qed.

Lemma word_byte S c : is_byte c → word S c = Some [c].
Proof. intros [H1 H2]. unfold word. by rewrite (proj2 (Z.leb_le 0 c)), (proj2 (Z.ltb_lt c 256)) by lia. Qed.

(** [ent] is written and the pair with [c] is new. *)
Lemma write_code z gs cs n mc S old q w :
  trace gs cs n mc S old q → written (out z) gs cs n mc → writing z S old w →
  let S' := add_string mm S old w in
  safe_or io (λ z', ∃ o' gs' cs' n' mc', z' = set_out z o' ∧ trace gs' cs' n' mc' S' (Some (ent z)) (q ++ w)
      ∧ written o' gs' cs' n' mc') (emit_code takes z (ent z)).
Proof.
  intros Ht Hw [Hst Hmaxb Hmaxm Hbl Hh Hfr Htb He Hne] S'. unfold emit_code. rewrite Hmaxb, Hmaxm, Hfr.
  pose proof (trace_inv _ _ _ _ _ _ _ Ht) as Hi. pose proof mm_range as Hmm.
  pose proof (word_range _ _ _ He) as Hr. pose proof (width_ok_mc _ _ (to_width _ _ _ _ _ Hi)) as Hmc.
  assert (free S' <= mc + 1).
  { unfold S'. destruct (add_string_cases mm S old w) as [[-> _]|(oc&ow&_&_&_&->)]; [|rewrite free_app];
      pose proof (to_free _ _ _ _ _ Hi); lia. }
  assert (free S' <= 2 ^ n) as H2n.
  { destruct (to_width _ _ _ _ _ Hi) as [Hn [[Hlt Emc]|[-> ->]]].
    - rewrite MAXCODE_pow in Emc by lia. lia.
    - apply (add_string_free mm S old w). apply (to_mm _ _ _ _ _ Hi). }
  eapply safe_or_bind; [eapply (written_code _ _ _ _ _ S old); [done|done| | |]|].
  - fold S' in Hr. lia.
  - intros E. rewrite E in He. done.
  - apply (added_next_word mm); [apply (to_nonempty _ _ _ _ _ Hi)|done].
  - intros o' (gs' & cs' & n' & mc' & Ht' & Hw'). cbn. by exists o', gs', cs', n', mc'.
Qed.

Lemma cl_block_ok z gs cs n mc S old q c :
  trace gs cs n mc S old q → written (out z) gs cs n mc → writing z S old [c] → is_byte c → ent z = c →
  safe_or io (λ z', has_written z' (q ++ [c])) (cl_block takes z).
Proof.
  intros Ht Hw [Hst Hmaxb Hmaxm Hbl Hh Hfr Htb He Hne] Hc Hec. unfold cl_block, cl_rat.
  set (z1 := set_ratio z _ _). pose proof (wr_bytes _ _ _ _ _ Hw) as Hby.
  apply (safe_or_bind _ (λ _, True)).
  { case_match; [done|]. cbn. by rewrite (proj2 (Z.eqb_neq _ 0)) by lia. }
  intros rat _. case_match.
  - cbn. exists gs, cs, n, mc, S, old, q, [c]. split_and!; [done|done|by split|done].
  - unfold emit_code. eapply safe_or_bind; [cbn; rewrite Hmaxb, Hmaxm; by eapply written_clear|].
    intros o' (gs' & Ht' & Hw'). cbn. exists gs', [], INIT_BITS, (MAXCODE INIT_BITS), [], None, q, [c].
    split_and!; [done|done| |done].
    assert (add_string mm [] None [c] = []) as E by (unfold add_string; by case_match).
    split; try done; cbn; rewrite E; [done|apply table_ok_empty|].
    rewrite Hec. by apply word_byte.
Qed.

Lemma write_byte_ok z data c : has_written z data → is_byte c →
  safe_or io (λ z', has_written z' (data ++ [c])) (write_byte takes z c).
Proof.
  intros (gs & cs & n & mc & S & old & q & w & Ht & Hw & Hz & ->) Hc. pose proof Hz as [Hst Hmaxb Hmaxm Hbl Hh Hfr Htb He Hne].
  pose proof (trace_inv _ _ _ _ _ _ _ Ht) as Hi. pose proof mm_range as Hmm.
  pose proof (add_string_free mm S old w (to_mm _ _ _ _ _ Hi)) as Hfree.
  pose proof (word_range _ _ _ He) as Hr. destruct Htb as [Hslots Hsize].
  set (S1 := add_string mm S old w) in *. unfold write_byte. cbn.
  rewrite Hmaxb, Hh.
  assert (0 <= Z.shiftl c mb + ent z) as Hf0.
  { rewrite Z.shiftl_mul_pow2 by lia. destruct Hc. nia. }
  destruct (search_finds (htab z) (Z.shiftl c mb + ent z) (Z.lxor (Z.shiftl c 8) (ent z))) as (s & -> & Hs).
  - pose proof (hash_range c (ent z) Hc ltac:(lia)). unfold HSIZE. lia.
  - done.
  - intros i f Hif. destruct (Hslots i f Hif) as (c' & e' & w' & Hc' & -> & He' & _).
    apply word_range in He'. rewrite Z.shiftl_mul_pow2 by lia. destruct Hc'. nia.
  - unfold HSIZE, free, FIRST in *. lia.
  - cbn [res_bind]. destruct Hs as [_ Hs]. destruct (snd s).
    + destruct (Hslots _ _ Hs) as (c' & e' & w' & Hc' & Hk & He' & Hw').
      apply fcode_inj in Hk as [<- <-]; [|lia|apply word_range in He'; lia].
      rewrite He in He'. injection He' as <-. cbn.
      exists gs, cs, n, mc, S, old, q, (w ++ [c]). split_and!; [done|done| |by rewrite app_assoc].
      assert (add_string mm S old (w ++ [c]) = S1) as E.
      { unfold S1. apply add_string_take. by destruct w. }
      split; cbn; rewrite ?E; try done. by destruct w.
    + cbn. eapply safe_or_bind.
      { apply (write_code (set_in_count z (in_count z + 1)) gs cs n mc S old q w Ht Hw). by split. }
      cbn. intros ? (o' & gs' & cs' & n' & mc' & -> & Ht' & Hw'). cbn. fold S1 in Ht'. rewrite Hmaxm, Hfr.
      destruct (Z.ltb_spec (free S1) mm) as [Hlt|Hge].
      * exists gs', cs', n', mc', S1, (Some (ent z)), (q ++ w), [c]. split_and!; [done|done| |done].
        assert (add_string mm S1 (Some (ent z)) [c] = S1 ++ [w ++ [c]]) as E.
        { unfold add_string. rewrite (proj2 (Z.ltb_lt _ _)) by done. cbn. by rewrite He. }
        split; cbn; rewrite ?E; try done; [by rewrite free_app| |by apply word_app, word_byte].
        by apply table_ok_insert; [split| | |].
      * assert (add_string mm S1 (Some (ent z)) [c] = S1) as E by by apply add_string_full.
        set (z2 := set_ent _ _).
        assert (writing z2 S1 (Some (ent z)) [c]) as Hz2 by (split; cbn; rewrite ?E; try done; by apply word_byte).
        destruct (_ && _).
        -- by eapply cl_block_ok.
        -- cbn. by exists gs', cs', n', mc', S1, (Some (ent z)), (q ++ w), [c].
Qed.

Lemma write_bytes_ok bs : ∀ z data, has_written z data → Forall is_byte bs →
  safe_or io (λ z', has_written z' (data ++ bs)) (write_bytes takes z bs).
Proof.
  induction bs as [|c bs IH]; intros z data Hz Hbs; cbn [write_bytes]; [by rewrite app_nil_r|].
  apply Forall_cons_1 in Hbs as [Hc Hbs]. eapply safe_or_bind; [by apply write_byte_ok|].
  intros z' Hz'. rewrite (app_assoc data [c] bs : data ++ c :: bs = _). by apply IH.
Qed.

Lemma mb_cases : mb = 12 ∨ mb = 13 ∨ mb = 14 ∨ mb = 15 ∨ mb = 16.
Proof. lia. Qed.

(** A stream that [zopen] has opened for writing. *)
Definition fresh_writer : zw :=
  mkZw (mkOut [] 0 0 0 0 0 (replicate 16 0)) S_START mb (Z.shiftl 1 mb) ∅ ∅ 0 BLOCK_MASK 0 CHECK_GAP 1 0 0.

Lemma zero_array : byte_array (replicate 16 0).
Proof. split; [done|]. apply Forall_replicate. unfold is_byte. lia. Qed.

Lemma fwrite_safe bs o :
  safe_or io (λ o', o' = mkOut (fp o ++ bs) (n_bits o) (maxcode o) (clear_flg o) (offset o) (bytes_out o) (buf o))
    (fwrite takes bs o).
Proof. unfold fwrite. by destruct (takes _ _). Qed.

Lemma write_start_ok c : is_byte c → safe_or io (λ z, has_written z [c]) (write_start takes fresh_writer c).
Proof.
  intros Hc. unfold write_start.
  eapply safe_or_bind; [apply fwrite_safe|]. intros ? ->. eapply safe_or_bind; [apply fwrite_safe|]. intros ? ->. cbn.
  exists [], [], INIT_BITS, (MAXCODE INIT_BITS), [], None, [], [c]. split_and!; [constructor| | |done].
  - split; try done; [apply zero_array|]. exists []. split; [|constructor].
    cbn. rewrite u8_small; [done|]. pose proof mb_cases as H. by destruct_or! H; subst mb.
  - assert (add_string mm [] None [c] = []) as E by (unfold add_string; by case_match).
    split; cbn; rewrite ?E; try done; [by rewrite Z.shiftl_mul_pow2, Z.mul_1_l by lia|by apply word_byte].
Qed.

Lemma zwrite_ok z data bs : (data = [] ∧ z = fresh_writer ∨ has_written z data) → Forall is_byte bs →
  safe_or io (λ z', data ++ bs = [] ∧ z' = fresh_writer ∨ has_written z' (data ++ bs)) (zwrite takes z bs).
Proof.
  intros Hz Hbs. destruct bs as [|c bs]; [rewrite app_nil_r; by destruct Hz as [[-> ->]|Hz]; cbn; [left|right]|].
  unfold zwrite. destruct Hz as [[-> ->]|Hz].
  - apply Forall_cons_1 in Hbs as [Hc Hbs]. cbn [w_state fresh_writer].
    eapply safe_or_bind; [by apply write_start_ok|]. intros z Hz.
    eapply safe_or_mono; [by apply (write_bytes_ok bs z [c])|]. intros z' Hz'. by right.
  - assert (w_state z = S_MIDDLE) as -> by (destruct Hz as (?&?&?&?&?&?&?&?&_&_&Hz&_); apply Hz).
    eapply safe_or_mono; [by apply write_bytes_ok|]. intros z' Hz'. by right.
Qed.

Lemma zwrites_ok bss : ∀ z data, (data = [] ∧ z = fresh_writer ∨ has_written z data) → Forall (Forall is_byte) bss →
  safe_or io (λ z', data ++ concat bss = [] ∧ z' = fresh_writer ∨ has_written z' (data ++ concat bss)) (zwrites takes z bss).
Proof.
  induction bss as [|bs bss IH]; intros z data Hz Hb; cbn [zwrites concat]; [by rewrite app_nil_r|].
  apply Forall_cons_1 in Hb as [Hbs Hb]. eapply safe_or_bind; [by apply (zwrite_ok z data)|].
  intros z' Hz'. rewrite app_assoc. by apply IH.
Qed.

(** A file that holds these characters: header, full buffers, the last buffer. *)
Definition holds_data (f data : list Z) : Prop :=
  ∃ gs cs n mc S old blocks block, trace gs cs n mc S old data
    ∧ f = header ++ concat blocks ++ block ∧ Forall2 block_of gs blocks ∧ Forall is_byte block ∧ holds n cs block
    ∧ n * Z.of_nat (length cs) <= 8 * Z.of_nat (length block) < n * Z.of_nat (length cs) + 8.

Lemma zclose_ok z data : has_written z data → safe_or io (λ f, holds_data f data) (zclose takes z).
Proof.
  intros (gs & cs & n & mc & S & old & q & w & Ht & Hw & Hz & ->). unfold zclose.
  eapply safe_or_bind; [by eapply write_code|]. cbn. intros ? (o & gs' & cs' & n' & mc' & -> & Ht' & Hw').
  pose proof (trace_inv _ _ _ _ _ _ _ Ht') as Hi. destruct (width_ok_mc _ _ (to_width _ _ _ _ _ Hi)) as [Hn _].
  unfold emit_code. cbn. rewrite !res_bind_assoc. cbn [res_bind].
  destruct Hw' as [En Emc Eclr Eoff Hb Hh Hby (blocks & Hfp & HF)].
  eapply safe_or_bind; [apply (output_eof takes (maxbits z) (maxmaxcode z) cs' (free_ent z)); rewrite ?En; [lia|done|apply (to_cs _ _ _ _ _ Hi)|done|done]|].
  intros o' (block & Hfp' & HB & Hho & Hlen). cbn. destruct (takes _ _); [|done]. rewrite En in *.
  eexists _, _, _, _, _, _, blocks, block. split; [exact Ht'|]. split_and!; try done; [|lia|lia].
  by rewrite Hfp', Hfp, app_assoc.
Qed.

End writer.

(** ** The reader *)

Section reader.
Context (past : Z).

(** The strings as the tables hold them. *)
Record coded_tables (pre suf : gmap Z Z) (S : list (list Z)) : Prop := {
  ta_bytes c : is_byte c → suf !! c = Some c;
  ta_codes k w : S !! k = Some w → ∃ p s w', pre !! (FIRST + Z.of_nat k) = Some p ∧ suf !! (FIRST + Z.of_nat k) = Some s
    ∧ word S p = Some w' ∧ w = w' ++ [s] ∧ p < FIRST + Z.of_nat k
}.

Lemma word_inv S c w : word S c = Some w →
  (is_byte c ∧ w = [c]) ∨ ∃ k, c = FIRST + Z.of_nat k ∧ S !! k = Some w.
Proof.
  unfold word, is_byte. destruct ((0 <=? c) && (c <? 256)) eqn:E.
  - intros [= <-]. left. apply andb_true_iff in E as [E1%Z.leb_le E2%Z.ltb_lt]. by split.
  - destruct (Z.ltb_spec c FIRST); [done|]. intros Hk. right. exists (Z.to_nat (c - FIRST)). split; [lia|done].
Qed.

Lemma word_length pre suf S c w : coded_tables pre suf S → word S c = Some w → (length w <= length S + 1)%nat.
Proof.
  intros [Hb Hc]. assert (∀ k w, S !! k = Some w → (length w <= k + 2)%nat) as H.
  { intros k. induction k as [k IH] using lt_wf_ind. intros v Hk.
    destruct (Hc _ _ Hk) as (p & x & w' & _ & _ & Hw' & -> & Hlt). rewrite length_app. cbn [length].
    apply word_inv in Hw' as [[_ ->]|(j & -> & Hj)]; [simpl; lia|]. apply IH in Hj; lia. }
  intros Hw. apply word_inv in Hw as [[_ ->]|(k & -> & Hk)]; [simpl; lia|].
  pose proof (lookup_lt_Some _ _ _ Hk). apply H in Hk. lia.
Qed.

Lemma expand_ok pre suf S : coded_tables pre suf S → ∀ fuel c w s, word S c = Some w → (length w <= fuel)%nat →
  free S <= 65536 → Z.of_nat (length w) + Z.of_nat (length s) <= STACK_SIZE →
  ∃ f w', w = f :: w' ∧ expand fuel pre suf c s = Ok (f, w ++ s).
Proof.
  intros [Hb Hc]. induction fuel as [|fuel IH]; intros c w s Hw Hlen Hfr Hst.
  - destruct w; [|simpl in Hlen; lia]. apply word_inv in Hw as [[_ ?]|(k & -> & Hk)]; [done|].
    destruct (Hc _ _ Hk) as (p & x & w' & _ & _ & _ & E & _). by destruct w'.
  - cbn [expand]. pose proof (word_range _ _ _ Hw) as Hr. unfold tab_suffixof, tab_prefixof, push.
    assert (Z.shiftl 1 BITS = 65536) as -> by done.
    rewrite (proj2 (Z.leb_le 0 c)), (proj2 (Z.ltb_lt c 65536)) by lia. cbn [andb res_bind].
    apply word_inv in Hw as [[Hbc ->]|(k & -> & Hk)].
    + rewrite (Hb c Hbc). cbn [default id]. rewrite (proj2 (Z.ltb_lt _ STACK_SIZE)) by (simpl in Hst; lia). cbn [res_bind].
      destruct Hbc. rewrite (proj2 (Z.leb_gt 256 c)) by lia. by exists c, [].
    + destruct (Hc _ _ Hk) as (p & x & w' & Hp & Hx & Hw' & -> & Hlt). rewrite Hx, Hp. cbn [default id].
      rewrite length_app in *. cbn [length] in *.
      rewrite (proj2 (Z.ltb_lt _ STACK_SIZE)) by lia. cbn [res_bind].
      rewrite (proj2 (Z.leb_le 256 _)) by (unfold FIRST; lia).
      rewrite (proj2 (Z.ltb_lt _ HSIZE)) by (unfold HSIZE; lia). cbn [res_bind].
      destruct (IH p w' (x :: s) Hw') as (f & w0 & -> & E); [lia|lia|simpl; lia|].
      rewrite E. eexists f, _. cbn. split; [done|]. by rewrite <- app_assoc.
Qed.

(** [g] has read a buffer, and the codes [cs] from it. *)
Record loaded (g : zin) (cs : list Z) (n mc : Z) (block rest : list Z) : Prop := {
  lo_n : i_n_bits g = n;
  lo_mc : i_maxcode g = mc;
  lo_clear : i_clear_flg g = 0;
  lo_roffset : roffset g = n * Z.of_nat (length cs);
  lo_size : size g = 8 * Z.of_nat (length block) - (n - 1);
  lo_gbuf : byte_array (gbuf g);
  lo_block : ∃ stale, gbuf g = block ++ stale;
  lo_fp : i_fp g = rest
}.

(** [g] is to read a buffer of codes of this width. *)
Record reloads (g : zin) (fr n mc : Z) (file : list Z) : Prop := {
  rl_refill : (0 <? i_clear_flg g) || (size g <=? roffset g) || (i_maxcode g <? fr) = true;
  rl_width : (if 0 <? i_clear_flg g then (INIT_BITS, MAXCODE INIT_BITS) else widened (i_n_bits g) (i_maxcode g) fr) = (n, mc);
  rl_clear : 0 <= i_clear_flg g;
  rl_gbuf : byte_array (gbuf g);
  rl_fp : i_fp g = file
}.

(** The file goes on with a buffer that holds these codes, which may be its end. *)
Definition goes_on (n : Z) (cs block rest : list Z) : Prop :=
  Forall is_byte block ∧ holds n cs block
  ∧ n * Z.of_nat (length cs) <= 8 * Z.of_nat (length block) <= 8 * n ∧ (Z.of_nat (length block) = n ∨ rest = []).

Definition g_left (g : zin) : nat := (Z.to_nat (size g - roffset g) + 8 * length (i_fp g))%nat.

Lemma bit_app_l a b k : 0 <= k < 8 * Z.of_nat (length a) → bit (a ++ b) k = bit a k.
Proof. intros Hk. rewrite <- (bit_take (length a)) by done. by rewrite take_app_length. Qed.

(** The code that lies in a buffer at its place. *)
Lemma extract_held n cs c block g : 9 <= n <= 16 → 0 <= c < 2 ^ n → holds n (cs ++ [c]) block →
  n * (Z.of_nat (length cs) + 1) <= 8 * Z.of_nat (length block) → byte_array g → (∃ stale, g = block ++ stale) →
  extract_code past n (n * Z.of_nat (length cs)) g = Ok c.
Proof.
  intros Hn Hc Hh Hlen Hg [stale ->]. pose proof (proj1 Hg) as Hl. rewrite length_app in Hl.
  destruct (extract_code_ok past n (n * Z.of_nat (length cs)) (block ++ stale)) as (v & -> & Hv & Hbits); [done|nia|nia|done|].
  f_equal. apply Z.bits_inj'. intros k Hk. destruct (Z.lt_ge_cases k n).
  - rewrite Hbits by lia. rewrite bit_app_l by nia. apply Hh; [|lia]. by apply list_lookup_middle.
  - rewrite <- (Z.mod_small v (2 ^ n)), <- (Z.mod_small c (2 ^ n)) by done. by rewrite !Z.mod_pow2_bits_high by lia.
Qed.

Lemma getcode_next g cs c n mc block rest fr :
  9 <= n <= 16 → loaded g cs n mc block rest → fr <= mc → 0 <= c < 2 ^ n → holds n (cs ++ [c]) block →
  n * (Z.of_nat (length cs) + 1) <= 8 * Z.of_nat (length block) →
  ∃ g', getcode past mb mm fr g = Ok (c, g') ∧ loaded g' (cs ++ [c]) n mc block rest ∧ (g_left g' < g_left g)%nat.
Proof.
  intros Hn [En Emc Eclr Ero Esz Hg Hb Efp] Hfr Hc Hh Hlen. unfold getcode.
  rewrite Eclr, Emc, Ero, Esz, En. rewrite Z.ltb_irrefl. cbn [orb].
  rewrite (proj2 (Z.leb_gt _ _)) by lia. rewrite (proj2 (Z.ltb_ge mc fr)) by lia. cbn [orb andb]. rewrite andb_false_r.
  rewrite Ero, (extract_held n cs c block) by done. cbn [res_bind].
  eexists. split; [done|]. split.
  - split; cbn; try done. rewrite length_app. simpl. lia.
  - unfold g_left. cbn. rewrite Ero, Esz. lia.
Qed.

Lemma getcode_reload g c n mc fr block rest :
  9 <= n <= 16 → reloads g fr n mc (block ++ rest) → goes_on n [c] block rest → 0 <= c < 2 ^ n →
  ∃ g', getcode past mb mm fr g = Ok (c, g') ∧ loaded g' [c] n mc block rest ∧ (g_left g' < g_left g)%nat.
Proof.
  intros Hn [Hre Hwd Hclr Hg Hfp] (HB & Hh & Hlen & Hrest) Hc. simpl in Hlen. unfold getcode. rewrite Hre. cbn [andb].
  set (n0 := if 0 <? i_clear_flg g then INIT_BITS else _).
  set (mc0 := if 0 <? i_clear_flg g then MAXCODE INIT_BITS else _).
  assert (n0 = n ∧ mc0 = mc) as [-> ->].
  { unfold n0, mc0. unfold widened in Hwd. destruct (0 <? i_clear_flg g); [by injection Hwd|].
    destruct (i_maxcode g <? fr); by injection Hwd. }
  rewrite Hfp.
  assert (take (Z.to_nat n) (block ++ rest) = block ∧ drop (Z.to_nat n) (block ++ rest) = rest) as [-> ->].
  { destruct Hrest as [E| ->].
    - rewrite take_app_length', drop_app_length' by lia. done.
    - rewrite app_nil_r, take_ge, drop_ge by lia. done. }
  pose proof (proj1 Hg) as Hl16.
  assert (byte_array (block ++ drop (length block) (gbuf g))) as Hg'.
  { split; [rewrite length_app, length_drop; lia|]. apply Forall_app. split; [done|]. by apply Forall_drop, Hg. }
  rewrite (proj2 (Z.ltb_ge (Z.of_nat (length (gbuf _))) n)) by (cbn; rewrite (proj1 Hg'); lia). cbn.
  rewrite (proj2 (Z.leb_gt _ 0)) by lia. cbn.
  pose proof (extract_held n [] c block _ Hn Hc Hh ltac:(simpl; lia) Hg' ltac:(by eexists)) as He.
  rewrite Z.mul_0_r in He. rewrite He. cbn.
  rewrite Z.shiftl_mul_pow2 by lia. change (2 ^ 3) with 8.
  eexists. split; [done|]. split.
  - split; cbn; try done; [|lia|lia|by eexists]. destruct (0 <? i_clear_flg g) eqn:E; [done|]. apply Z.ltb_ge in E. lia.
  - unfold g_left. cbn. rewrite Hfp, length_app. lia.
Qed.

(** At the end of the file. *)
Lemma getcode_eof g n mc fr : 9 <= n <= 16 → reloads g fr n mc [] → ∃ g', getcode past mb mm fr g = Ok (-1, g').
Proof.
  intros Hn [Hre Hwd Hclr Hg Hfp]. unfold getcode. rewrite Hre, Hfp. cbn [andb]. rewrite take_nil, drop_nil. cbn [length app]. rewrite drop_0.
  set (n0 := if 0 <? i_clear_flg g then INIT_BITS else _).
  assert (n0 = n) as ->.
  { unfold n0. unfold widened in Hwd. destruct (0 <? i_clear_flg g); [by injection Hwd|].
    destruct (i_maxcode g <? fr); by injection Hwd. }
  rewrite (proj2 (Z.ltb_ge (Z.of_nat (length (gbuf _))) n)) by (cbn; rewrite (proj1 Hg); lia). cbn. by eexists.
Qed.

(** The reader at the head of its loop, with these strings. *)
Record reading (z : zr) (S : list (list Z)) (old : option Z) : Prop := {
  rd_state : r_state z = S_MIDDLE;
  rd_maxbits : r_maxbits z = mb;
  rd_maxmaxcode : r_maxmaxcode z = mm;
  rd_free : r_free_ent z = free S;
  rd_block : r_block_compress z = BLOCK_MASK;
  rd_stack : stack z = [];
  rd_old : oldcode z = default (-1) old;
  rd_tables : coded_tables (tab_prefix z) (tab_suffix z) S;
  rd_finchar oc ow : old = Some oc → word S oc = Some ow → take 1 ow = [finchar z]
}.

Lemma reading_set_inp z S old g : reading z S old → reading (set_inp z g) S old.
Proof. intros [???????? H]. split; try done. Qed.

Lemma init_suffixes_spec n t c : init_suffixes n t !! c = if (0 <=? c) && (c <? Z.of_nat n) then Some c else t !! c.
Proof.
  revert t. induction n as [|n IH]; intros t; cbn [init_suffixes].
  - destruct (Z.leb_spec 0 c), (Z.ltb_spec c (Z.of_nat 0)); try done; lia.
  - rewrite IH. destruct (decide (c = Z.of_nat n)) as [->|Hne].
    + rewrite lookup_insert_eq. rewrite Z.ltb_irrefl, andb_false_r. by rewrite (proj2 (Z.leb_le _ _)), (proj2 (Z.ltb_lt _ _)) by lia.
    + rewrite lookup_insert_ne by done. destruct (Z.leb_spec 0 c), (Z.ltb_spec c (Z.of_nat n)), (Z.ltb_spec c (Z.of_nat (S n))); try done; lia.
Qed.

Lemma tables_init pre suf : coded_tables pre (init_suffixes 256 suf) [].
Proof.
  split; [|done]. intros c [H1 H2]. rewrite init_suffixes_spec.
  by rewrite (proj2 (Z.leb_le 0 c)), (proj2 (Z.ltb_lt c _)) by lia.
Qed.

Lemma tables_clear pre pre' suf S : coded_tables pre suf S → coded_tables pre' suf [].
Proof. intros [H _]. by split. Qed.

Lemma tables_add pre suf S oc ow f : coded_tables pre suf S → word S oc = Some ow → free S <= 65536 →
  coded_tables (<[free S := oc mod 2 ^ 16]> pre) (<[free S := f]> suf) (S ++ [ow ++ [f]]).
Proof.
  intros [Hb Hc] Ho Hfr. pose proof (word_range _ _ _ Ho) as Hr. rewrite Z.mod_small by lia. split.
  - intros c Hbc. rewrite lookup_insert_ne; [by apply Hb|]. unfold free, FIRST, is_byte in *. lia.
  - intros k w Hk. apply lookup_app_Some in Hk as [Hk|[Hle Hk]].
    + destruct (Hc _ _ Hk) as (p & x & w' & Hp & Hx & Hw' & -> & Hlt). apply lookup_lt_Some in Hk.
      exists p, x, w'. rewrite !lookup_insert_ne by (unfold free; lia). split_and!; [done|done|by apply word_app|done|done].
    + destruct (k - length S)%nat as [|i] eqn:E; [|done]. injection Hk as <-.
      assert (FIRST + Z.of_nat k = free S) as Ek by (unfold free; lia). rewrite Ek, !lookup_insert_eq.
      exists oc, f, ow. split_and!; [done|done|by apply word_app|done|lia].
Qed.

(** A code takes the reader to its characters, and then to the head of the loop. *)
Lemma decode_ok z S old c w :
  reading z S old → Forall nonempty S → old_ok S old → free S <= mm → 0 <= c < mm → next_word S old c = Some w →
  ∃ f w', w = f :: w' ∧ decode z c = Ok (set_stack z w f c)
  ∧ reading (new_entry (set_stack z [] f c)) (add_string mm S old w) (Some c).
Proof.
  intros Hz Hne Hold Hfr Hc Hw. pose proof Hz as [Hst Hmb' Hmm Hf Hbl Hs Ho Ht Hfin]. pose proof mm_range as Hmr.
  assert (STACK_SIZE = 486472) as Hsz by done.
  assert (∃ f w', w = f :: w' ∧ decode z c = Ok (set_stack z w f c)) as (f & w' & -> & Hd).
  { unfold decode. rewrite Hf, Hs, Ho. unfold next_word in Hw.
    assert (Z.of_nat (Z.to_nat (Z.shiftl 1 BITS)) = 65536) as Hfuel by by rewrite Z2Nat.id.
    generalize dependent (Z.to_nat (Z.shiftl 1 BITS)). intros fuel Hfuel.
    destruct (Z.ltb_spec c (free S)) as [Hlt|Hge].
    - rewrite (proj2 (Z.leb_gt (free S) c)) by done. cbn [andb res_bind].
      pose proof (word_length _ _ _ _ _ Ht Hw) as Hlen. unfold free, FIRST in Hfr.
      destruct (expand_ok _ _ _ Ht fuel c w [] Hw) as (f & w' & -> & E); [lia|unfold free, FIRST; lia|simpl; lia|].
      rewrite E. exists f, w'. split; [done|]. cbn. by rewrite app_nil_r.
    - destruct (Z.eqb_spec c (free S)) as [->|]; [|done]. destruct old as [oc|]; cbn in Hw; [|done].
      destruct (word S oc) as [ow|] eqn:Eo; cbn in Hw; [|done]. injection Hw as <-.
      rewrite Z.leb_refl, Z.ltb_irrefl. cbn [andb orb default id]. pose proof (word_range _ _ _ Eo).
      rewrite (proj2 (Z.eqb_neq oc (-1))) by lia. unfold push. cbn [length].
      rewrite (proj2 (Z.ltb_lt _ STACK_SIZE)) by lia. cbn [res_bind].
      pose proof (word_length _ _ _ _ _ Ht Eo) as Hlen. unfold free, FIRST in Hfr.
      destruct (expand_ok _ _ _ Ht fuel oc ow [finchar z] Eo) as (f & w' & -> & E); [lia|unfold free, FIRST; lia|simpl in *; lia|].
      rewrite E. rewrite (Hfin _ _ eq_refl Eo). by exists f, (w' ++ [finchar z]). }
  exists f, w'. split; [done|]. split; [done|].
  pose proof (next_word_added mm _ _ _ _ Hne (proj2 Hc) Hw) as Hwc.
  assert (oldcode z = -1 ↔ old = None) as Hom1.
  { rewrite Ho. destruct old as [oc|]; cbn; [|done]. destruct Hold as [ow Eo]. apply word_range in Eo. split; [lia|done]. }
  split; try done; cbn.
  - rewrite Hf, Hmm. destruct (add_string_cases mm S old (f :: w')) as [[-> Hcase]|(oc&ow&->&Eo&Hlt&->)].
    + destruct (Z.ltb_spec (free S) mm) as [Hlt|]; [|done]. destruct Hcase as [?|Hnone]; [lia|].
      destruct old as [oc|]; [|by rewrite (proj2 Hom1)]. destruct Hold as [ow Eo]. cbn in Hnone. by rewrite Eo in Hnone.
    + rewrite (proj2 (Z.ltb_lt _ _)) by done. rewrite (proj2 (Z.eqb_neq (oldcode z) (-1))) by by rewrite Hom1. cbn. by rewrite free_app.
  - rewrite Hf, Hmm. destruct (add_string_cases mm S old (f :: w')) as [[-> Hcase]|(oc&ow&->&Eo&Hlt&->)].
    + destruct (Z.ltb_spec (free S) mm) as [Hlt|]; [|done]. destruct Hcase as [?|Hnone]; [lia|].
      destruct old as [oc|]; [|by rewrite (proj2 Hom1)]. destruct Hold as [ow Eo]. cbn in Hnone. by rewrite Eo in Hnone.
    + rewrite (proj2 (Z.ltb_lt _ _)) by done. rewrite (proj2 (Z.eqb_neq (oldcode z) (-1))) by by rewrite Hom1. cbn.
      rewrite Ho. cbn. rewrite take_0. apply tables_add; [done|done|lia].
  - intros oc ow [= <-] E. rewrite Hwc in E. injection E as <-. cbn. by rewrite take_0.
Qed.

Lemma cleared_ok z S old : reading z S old → reading (cleared z) [] None.
Proof. intros [Hst Hmb' Hmm Hf Hbl Hs Ho Ht Hfin]. split; try done. by eapply tables_clear. Qed.

(** The steps of the reader from one head of the loop to the next, with the characters. *)
Inductive step (z : zr) : list Z → zr → Prop :=
  | st_clear g : r_block_compress z ≠ 0 → getcode past (r_maxbits z) (r_maxmaxcode z) (r_free_ent z) (inp z) = Ok (CLEAR, g) → (g_left g < g_left (inp z))%nat →
      step z [] (cleared (set_inp z g))
  | st_code c g f w : getcode past (r_maxbits z) (r_maxmaxcode z) (r_free_ent z) (inp z) = Ok (c, g) → (g_left g < g_left (inp z))%nat →
      0 <= c → c ≠ CLEAR → decode (set_inp z g) c = Ok (set_stack (set_inp z g) (f :: w) f c) →
      step z (f :: w) (new_entry (set_stack (set_inp z g) [] f c)).

Inductive steps (z0 : zr) : list Z → zr → Prop :=
  | steps_refl : steps z0 [] z0
  | steps_step o z w z' : steps z0 o z → step z w z' → steps z0 (o ++ w) z'.

(** The reader's place in a file that goes on with the buffer of the codes [cs]. *)
Definition positioned (g : zin) (fr : Z) (cs : list Z) (n mc : Z) (block rest : list Z) : Prop :=
  match cs with
  | [] => reloads g fr n mc (block ++ rest)
  | _ => fr <= mc ∧ loaded g cs n mc block rest
  end.

Lemma getcode_at g fr cs c n mc block rest :
  9 <= n <= 16 → positioned g fr cs n mc block rest → goes_on n (cs ++ [c]) block rest → 0 <= c < 2 ^ n →
  ∃ g', getcode past mb mm fr g = Ok (c, g') ∧ loaded g' (cs ++ [c]) n mc block rest ∧ (g_left g' < g_left g)%nat.
Proof.
  intros Hn Hp Hgo Hc. destruct cs as [|c0 cs]; [by eapply getcode_reload|].
  destruct Hp as (Hfr & Hl). destruct Hgo as (HB & Hh & Hlen & Hr).
  eapply getcode_next; try done. rewrite length_app in Hlen. simpl in *. lia.
Qed.

Lemma goes_on_app n cs c block rest : 9 <= n → goes_on n (cs ++ [c]) block rest → goes_on n cs block rest.
Proof.
  intros Hn (HB & Hh & Hlen & Hr). rewrite length_app in Hlen. simpl in Hlen.
  split_and!; [done|by eapply holds_app_l|lia|lia|done].
Qed.

(** A buffer that is done. *)
Lemma loaded_done g cs n mc block rest fr n' mc' :
  9 <= n → loaded g cs n mc block rest → Z.of_nat (length block) = n →
  length cs = 8%nat ∨ mc < fr → widened n mc fr = (n', mc') → reloads g fr n' mc' rest.
Proof.
  intros Hn [En Emc Eclr Ero Esz Hg Hb Efp] Hlen Hd Hw. split; try done.
  - rewrite Eclr, Emc, Ero, Esz. destruct Hd as [Hd|Hd].
    + rewrite (proj2 (Z.leb_le _ _)) by lia. by rewrite orb_true_r.
    + rewrite (proj2 (Z.ltb_lt mc fr)) by lia. by rewrite orb_true_r.
  - by rewrite Eclr, En, Emc.
  - lia.
Qed.

(** The reader at the beginning of what follows the header. *)
Definition start_zr (file : list Z) : zr :=
  mkZr (mkIn file INIT_BITS (MAXCODE INIT_BITS) 0 0 0 (replicate 16 0)) S_MIDDLE mb (Z.shiftl 1 mb)
    (zero_prefixes 256 ∅) (init_suffixes 256 ∅) FIRST BLOCK_MASK [] 0 (-1) 0.

Lemma start_reading file : reading (start_zr file) [] None.
Proof. split; try done; [cbn; by rewrite Z.shiftl_mul_pow2, Z.mul_1_l by lia|apply tables_init]. Qed.

Lemma read_trace gs cs n mc S old q : trace gs cs n mc S old q → ∀ blocks block rest,
  Forall2 block_of gs blocks → goes_on n cs block rest →
  ∃ z, steps (start_zr (concat blocks ++ block ++ rest)) q z ∧ reading z S old ∧ positioned (inp z) (free S) cs n mc block rest.
Proof.
  induction 1 as [|gs cs n mc S old q c w close Ht IH Hc HC Hw Hcl|gs cs n mc S old q Ht IH]; intros blocks block rest Hbl Hgo.
  - apply Forall2_nil_inv_l in Hbl as ->. exists (start_zr (block ++ rest)). split; [constructor|]. split; [apply start_reading|].
    cbn. split; try done. apply zero_array.
  - pose proof (trace_inv _ _ _ _ _ _ _ Ht) as [Hcs Hwd Hf Hfm Hne Ho]. destruct (width_ok_mc _ _ Hwd) as [Hn Hmc].
    assert (9 <= n <= 16) as Hn16 by lia.
    assert (∃ bl0 b r, Forall2 block_of gs bl0 ∧ goes_on n (cs ++ [c]) b r ∧ concat blocks ++ block ++ rest = concat bl0 ++ b ++ r
      ∧ (if close then Z.of_nat (length b) = n ∧ r = block ++ rest else b = block ∧ r = rest)) as (bl0 & b & r & Hbl0 & Hgo0 & -> & Hcase).
    { destruct close.
      - apply Forall2_app_inv_l in Hbl as (bl0 & bl1 & Hbl0 & Hbl1 & ->). apply Forall2_cons_inv_l in Hbl1 as (b & ? & Hb & Hnil & ->).
        apply Forall2_nil_inv_l in Hnil as ->. exists bl0, b, (block ++ rest). destruct Hb as (Hb1 & Hb2 & Hb3). cbn in *.
        split_and!; [done| |by rewrite concat_app; cbn; rewrite app_nil_r, <- app_assoc|done|done].
        split_and!; [done|done|rewrite length_app; simpl; nia|lia|by left].
      - exists blocks, block, rest. symmetry in Hcl. apply orb_false_iff in Hcl as [_ Hge].
        unfold widened in Hgo. by rewrite Hge in Hgo. }
    destruct (IH bl0 b r Hbl0) as (z & Hs & Hz & Hp); [by eapply goes_on_app; [lia|]|].
    destruct (getcode_at _ _ _ _ _ _ _ _ Hn16 Hp Hgo0 Hc) as (g & Hg & Hl & Hleft).
    pose proof Hz as [_ Emb Emm Efr _ _ _ _ _].
    destruct (decode_ok (set_inp z g) S old c w) as (f & w' & -> & Hd & Hz'); [by apply reading_set_inp|done|done|done|lia|done|].
    eexists. split; [eapply steps_step; [exact Hs|]; eapply st_code; [rewrite Emb, Emm, Efr; exact Hg|done|lia|done|exact Hd]|].
    split; [done|]. cbn [inp new_entry set_stack set_inp].
    destruct (widened n mc _) as [n' mc'] eqn:Ew. cbn [fst snd]. destruct close.
    + destruct Hcase as [Hb ->]. eapply loaded_done; [|done|done| |done]; [lia|].
      symmetry in Hcl. apply orb_true_iff in Hcl as [H7|Hlt]; [left|right; by apply Z.ltb_lt].
      apply bool_decide_eq_true in H7. rewrite length_app, H7. done.
    + destruct Hcase as [-> ->]. symmetry in Hcl. apply orb_false_iff in Hcl as [_ Hge].
      unfold widened in Ew. rewrite Hge in Ew. injection Ew as <- <-. apply Z.ltb_ge in Hge.
      assert (positioned g (free (add_string mm S old (f :: w'))) (cs ++ [c]) n mc block rest) as Hp'; [|done].
      by destruct cs.
  - pose proof (trace_inv _ _ _ _ _ _ _ Ht) as [Hcs Hwd Hf Hfm Hne Ho]. destruct (width_ok_mc _ _ Hwd) as [Hn Hmc].
    assert (9 <= n <= 16) as Hn16 by lia.
    apply Forall2_app_inv_l in Hbl as (bl0 & bl1 & Hbl0 & Hbl1 & ->). apply Forall2_cons_inv_l in Hbl1 as (b & ? & Hb & Hnil & ->).
    apply Forall2_nil_inv_l in Hnil as ->. destruct Hb as (Hb1 & Hb2 & Hb3). cbn in Hb1, Hb2, Hb3.
    assert (goes_on n (cs ++ [CLEAR]) b (block ++ rest)) as Hgo0.
    { split_and!; [done|done|rewrite length_app; simpl; nia|lia|by left]. }
    destruct (IH bl0 b (block ++ rest) Hbl0) as (z & Hs & Hz & Hp); [by eapply goes_on_app; [lia|]|].
    assert (0 <= CLEAR < 2 ^ n) as HC.
    { split; [done|]. apply Z.lt_le_trans with (2 ^ 9); [done|]. apply Z.pow_le_mono_r; lia. }
    destruct (getcode_at _ _ _ _ _ _ _ _ Hn16 Hp Hgo0 HC) as (g & Hg & Hl & Hleft).
    pose proof Hz as [_ Emb Emm Efr Eblk _ _ _ _].
    replace (concat (bl0 ++ [b]) ++ block ++ rest) with (concat bl0 ++ b ++ block ++ rest)
      by (rewrite concat_app; cbn [concat]; by rewrite app_nil_r, <- app_assoc).
    eexists. split; [rewrite <- (app_nil_r q); eapply steps_step; [exact Hs|]; eapply st_clear; [by rewrite Eblk|rewrite Emb, Emm, Efr; exact Hg|done]|].
    split; [by eapply cleared_ok, reading_set_inp|]. destruct Hl as [En Emc Eclr Ero Esz Hgb Hblk Efp].
    cbn. by split.
Qed.

(** What is still to be read, from a head of the loop. *)
Inductive future : zr → list Z → Prop :=
  | fu_eof z g : getcode past (r_maxbits z) (r_maxmaxcode z) (r_free_ent z) (inp z) = Ok (-1, g) → future z []
  | fu_step z w z' o : step z w z' → future z' o → future z (w ++ o).

Lemma steps_future z0 q z o : steps z0 q z → future z o → future z0 (q ++ o).
Proof.
  intros Hs. revert o. induction Hs as [|q z w z' Hs IH Hst]; intros o Ho; [done|].
  rewrite <- app_assoc. apply IH. by econstructor.
Qed.

Lemma step_state z w z' : step z w z' → r_state z' = r_state z.
Proof. by intros [|]. Qed.

(** From [middle]: the stack and what comes after it. *)
Definition upcoming (z : zr) (o : list Z) : Prop :=
  r_state z = S_MIDDLE ∧ stack z ≠ [] ∧
  ∃ o', o = stack z ++ o' ∧ future (new_entry (set_stack z [] (finchar z) (incode z))) o'.

Lemma next_chars_ok z o : future z o → ∀ fuel, r_state z = S_MIDDLE → (g_left (inp z) < fuel)%nat →
  (∃ z', next_chars past fuel z = Ok (z', true) ∧ upcoming z' o)
  ∨ (o = [] ∧ ∃ z', next_chars past fuel z = Ok (z', false) ∧ r_state z' = S_EOF).
Proof.
  induction 1 as [z g Hg|z w z' o Hst Ho IH]; intros fuel Hz Hf; (destruct fuel as [|fuel]; [lia|]); cbn [next_chars].
  - right. split; [done|]. rewrite Hg. cbn. by eexists.
  - pose proof (step_state _ _ _ Hst) as Hs'. destruct Hst as [g Hblk Hg Hlt|c g f w Hg Hlt Hc HC Hd]; rewrite Hg; cbn [res_bind fst snd].
    + rewrite (proj2 (Z.ltb_lt (-1) CLEAR)) by done. cbn [negb]. rewrite Z.eqb_refl.
      change (r_block_compress (set_inp z g)) with (r_block_compress z). rewrite (proj2 (Z.eqb_neq _ 0)) by done. cbn [negb andb].
      apply IH; [by rewrite Hs'|]. cbn. unfold g_left in *. cbn. lia.
    + rewrite (proj2 (Z.ltb_lt (-1) c)) by lia. cbn [negb]. rewrite (proj2 (Z.eqb_neq c CLEAR)) by done. cbn [andb].
      rewrite Hd. cbn [res_bind]. left. eexists. split; [done|]. split; [done|]. split; [done|]. by exists o.
Qed.

Lemma middle_ok num : ∀ z o, upcoming z o → ∃ z', middle past num z = Ok (take num o, z')
  ∧ (upcoming z' (drop num o) ∨ r_state z' = S_EOF ∧ drop num o = []).
Proof.
  induction num as [|num IH]; intros z o Hz; cbn [middle].
  - exists z. rewrite take_0, drop_0. split; [done|by left].
  - pose proof Hz as (Hst & Hs & o' & -> & Ho). destruct (stack z) as [|c [|c' s]]; [done| |]; cbn [app take drop].
    + set (z1 := new_entry _) in *. unfold set_stack in z1. cbn in z1.
      destruct (next_chars_ok z1 o' Ho (S (codes_left z1))) as [(z2 & -> & Hup)|(-> & z2 & -> & He)]; [done|unfold codes_left, g_left; lia| |].
      * cbn [res_bind fst snd]. destruct (IH z2 o' Hup) as (z3 & -> & Hz3). cbn. by eexists.
      * cbn. rewrite take_nil, drop_nil. eexists. split; [done|]. by right.
    + destruct (IH (set_stack z (c' :: s) (finchar z) (incode z)) ((c' :: s) ++ o')) as (z3 & -> & Hz3).
      { split; [done|]. split; [done|]. by exists o'. }
      cbn. by eexists.
Qed.

(** The states between the calls. *)
Definition fresh_reader (f : list Z) : zr :=
  mkZr (mkIn f 0 0 0 0 0 (replicate 16 0)) S_START BITS (Z.shiftl 1 BITS) ∅ ∅ 0 BLOCK_MASK [] 0 0 0.
Definition ready (z : zr) (o : list Z) : Prop :=
  upcoming z o ∨ (r_state z = S_EOF ∧ o = []) ∨ ∃ file, z = fresh_reader (header ++ file) ∧ future (start_zr file) o.

Lemma read_start_ok file : read_start (fresh_reader (header ++ file)) = Ok (start_zr file).
Proof. unfold header, start_zr. pose proof mb_cases as H. by destruct_or! H; rewrite H. Qed.

Lemma zread_ok z o num : ready z o → ∃ z', zread past z num = Ok (take num o, z') ∧ ready z' (drop num o).
Proof.
  intros Hz. unfold zread. destruct num as [|num]; [exists z; rewrite take_0, drop_0; by split|].
  destruct Hz as [Hz|[[He ->]|(file & -> & Hf)]].
  - rewrite (proj1 Hz). destruct (middle_ok (S num) z o Hz) as (z' & -> & [H|H]); eexists; (split; [done|]); [by left|right; by left].
  - rewrite He. exists z. rewrite take_nil, drop_nil. split; [done|]. right. by left.
  - change (r_state (fresh_reader _)) with S_START. cbn iota. rewrite read_start_ok. cbn [res_bind].
    destruct (next_chars_ok _ _ Hf (S (codes_left (start_zr file)))) as [(z1 & -> & Hup)|(-> & z1 & -> & He)];
      [done|unfold codes_left, g_left; lia| |]; cbn [res_bind fst snd].
    + destruct (middle_ok (S num) z1 o Hup) as (z' & -> & [H|H]); eexists; (split; [done|]); [by left|right; by left].
    + eexists. rewrite take_nil, drop_nil. split; [done|]. right. by left.
Qed.

Lemma zreads_ok nums : ∀ z o, ready z o → ∃ z', zreads past z nums = Ok (take (sum_list nums) o, z').
Proof.
  induction nums as [|num nums IH]; intros z o Hz; cbn [zreads]; [exists z; by rewrite take_0|].
  destruct (zread_ok z o num Hz) as (z1 & -> & Hz1). cbn [res_bind fst snd]. destruct (IH _ _ Hz1) as (z2 & ->).
  cbn. eexists. by rewrite take_take_drop.
Qed.

Lemma holds_data_ready f data : holds_data f data → ready (fresh_reader f) data.
Proof.
  intros (gs & cs & n & mc & S & old & blocks & block & Ht & -> & Hbl & HB & Hh & Hlen).
  right. right. exists (concat blocks ++ block). split; [done|].
  pose proof (trace_inv _ _ _ _ _ _ _ Ht) as [Hcs Hwd Hf Hfm Hne Ho]. destruct (width_ok_mc _ _ Hwd) as [Hn Hmc].
  destruct (read_trace _ _ _ _ _ _ _ Ht blocks block [] Hbl) as (z & Hs & Hz & Hp).
  { split_and!; [done|done|lia|nia|by right]. }
  rewrite app_nil_r in *. rewrite <- (app_nil_r data). eapply steps_future; [exact Hs|].
  pose proof Hz as [_ Emb Emm Efr _ _ _ _ _].
  assert (reloads (inp z) (free S) n mc []) as Hre.
  { destruct cs as [|c cs].
    - assert (block = []) as -> by (destruct block; [done|simpl in Hlen; lia]). exact Hp.
    - destruct Hp as [Hfr [En Emc Eclr Ero Esz Hg Hb Efp]]. split; try done.
      + rewrite Ero, Esz, (proj2 (Z.leb_le _ _)) by lia. by rewrite orb_true_r.
      + rewrite Eclr, En, Emc. unfold widened. by rewrite (proj2 (Z.ltb_ge mc _)) by lia.
      + lia. }
  assert (9 <= n <= 16) as Hn16 by lia. destruct (getcode_eof _ _ _ _ Hn16 Hre) as [g Hg]. eapply fu_eof. rewrite Emb, Emm, Efr. exact Hg.
Qed.

End reader.
End trace.

(** C6.  Whatever is written through a stream of compress(1), in calls of any sizes, with any
    number of bits a reader accepts (0 means 16), is what is read back from the file, in
    calls of any sizes: the [n] bytes asked for are the first [n] of the data.  Writing
    fails only with an error of the file, and neither direction goes outside its tables. *)
Theorem compress_roundtrip takes past bits bss :
  bits = 0 ∨ 12 <= bits <= 16 → Forall (Forall is_byte) bss → concat bss ≠ [] →
  match compress takes bits bss with
  | Ok file => ∀ nums, decompress past file nums = Ok (take (sum_list nums) (concat bss))
  | Err e => e = EIO
  | Fault => False
  end.
Proof.
  intros Hbits Hbs Hne. set (mb := if negb (bits =? 0) then bits else BITS).
  assert (12 <= mb <= 16) as Hmb by (unfold mb, BITS; destruct (Z.eqb_spec bits 0); cbn; lia).
  assert (compress takes bits bss = let* z := zwrites takes (fresh_writer mb) bss in zclose takes z) as ->.
  { unfold compress, zopen. cbn [Z.eqb negb orb]. rewrite (proj2 (Z.ltb_ge bits 0)), (proj2 (Z.ltb_ge BITS bits)) by (unfold BITS; lia).
    done. }
  assert (safe_or io (λ f, holds_data mb f (concat bss)) (let* z := zwrites takes (fresh_writer mb) bss in zclose takes z)) as H.
  { eapply safe_or_bind; [apply (zwrites_ok mb Hmb takes bss (fresh_writer mb) []); [by left|done]|].
    intros z [[Hnil _]|Hz]; [done|]. by apply zclose_ok. }
  destruct (let* z := _ in _) as [f|e|]; [|exact H|exact H]. intros nums. cbn in H.
  destruct (zreads_ok mb Hmb past nums _ _ (holds_data_ready mb Hmb past f _ H)) as (z & Hz).
  unfold decompress. assert (zopen f (str "r") 0 = Ok (Reading (fresh_reader f))) as -> by done. cbn [res_bind].
  by rewrite Hz.
Qed.

Lemma compress_roundtrip_witness :
  match compress (λ _ _, true) 12 [str "abab"; []; str "abababab"] with
  | Ok file => ∀ nums, decompress 0 file nums = Ok (take (sum_list nums) (str "abababababab"))
  | Err e => e = EIO
  | Fault => False
  end.
Proof.
  apply (compress_roundtrip (λ _ _, true) 0 12 [str "abab"; []; str "abababab"]); [right; lia| |done].
  repeat constructor; lia.
Defined.

(** Nothing is written for no data, not even a header, and such a file is refused. *)
Lemma empty_not_read : compress (λ _ _, true) 16 [] = Ok [] ∧ ∀ past n, decompress past [] [S n] = Err EFTYPE.
Proof. split; [vm_compute; reflexivity|reflexivity]. Qed.

(** [zopen] takes 9 to 11 bits, with which a file is written that [zread] refuses. *)
Lemma few_bits_not_read :
  ∃ file, compress (λ _ _, true) 11 [str "ab"] = Ok file ∧ ∀ past n, decompress past file [S n] = Err EFTYPE.
Proof. eexists. split; [vm_compute; reflexivity|reflexivity]. Qed.

(** A code of 16 bits that ends a buffer makes [getcode] read the byte after [gbuf]. *)
Lemma getcode_reads_past : extract_code 0 16 112 (replicate 16 255) = Ok 65535 ∧ gbuf_at 7 (replicate 16 255) 16 = Ok 7.
Proof. split; vm_compute; reflexivity. Qed.
