(* ===== verification/ZopenSafe.v ===== *)
(** * Reading any file with zopen

    The reader's invariant, which holds whatever the bytes of the file are. *)

From stdpp Require Import gmap.
From S2P Require Import Prelude Libc Zopen ZopenBits ZopenSpec.

(** ** Any file *)

Section any.
Context (past mb : Z) (Hmb : 12 <= mb <= 16).
Notation mm := (2 ^ mb).

(** The input of a reader, whatever the file. *)
Record input_ok (g : zin) : Prop := {
  in_width : width_ok mb (i_n_bits g) (i_maxcode g);
  in_gbuf : byte_array (gbuf g);
  in_fp : Forall is_byte (i_fp g);
  in_roffset : 0 <= roffset g;
  in_size : size g <= 129 - i_n_bits g
}.

Lemma widened_width n mc fr : width_ok mb n mc → fr <= mm → width_ok mb (fst (widened mb n mc fr)) (snd (widened mb n mc fr)).
Proof.
  intros Hw Hfr. unfold widened. destruct (Z.ltb_spec mc fr); cbn [fst snd]; [|done].
  destruct Hw as [Hn [[Hlt ->]|[-> ->]]]; [|lia]. split; [lia|].
  destruct (Z.eqb_spec (n + 1) mb); [by right|left; split; [lia|done]].
Qed.

Lemma getcode_safe fr g : input_ok g → fr <= mm →
  ∃ c g', getcode past mb mm fr g = Ok (c, g') ∧ input_ok g' ∧ (c = -1 ∨ 0 <= c < mm ∧ (g_left g' < g_left g)%nat).
Proof.
  intros [Hw Hg Hfp Hro Hsz] Hfr. unfold getcode.
  set (re := (0 <? i_clear_flg g) || (size g <=? roffset g) || (i_maxcode g <? fr)).
  set (n0 := if re && (0 <? i_clear_flg g) then INIT_BITS else _).
  set (mc0 := if re && (0 <? i_clear_flg g) then MAXCODE INIT_BITS else _).
  assert (width_ok mb n0 mc0 ∧ (re = false → n0 = i_n_bits g)) as [Hw0 Hn0].
  { unfold n0, mc0. pose proof (widened_width _ _ _ Hw Hfr) as Hwd. unfold widened in Hwd.
    destruct re; cbn [andb]; [|done]. split; [|done]. destruct (0 <? i_clear_flg g); [by apply init_width_ok|].
    by destruct (i_maxcode g <? fr). }
  clearbody n0 mc0. destruct (width_ok_mc mb Hmb _ _ Hw0) as [Hn Hpow]. pose proof (proj1 Hg) as Hl.
  destruct re eqn:Ere; cbn [andb].
  - set (block := take (Z.to_nat n0) (i_fp g)).
    assert (length block <= 16)%nat as Hbl by (unfold block; rewrite length_take; lia).
    assert (byte_array (block ++ drop (length block) (gbuf g))) as Hg'.
    { split; [rewrite length_app, length_drop; lia|]. apply Forall_app. split; [by apply Forall_take|by apply Forall_drop, Hg]. }
    rewrite (proj2 (Z.ltb_ge (Z.of_nat (length (gbuf _))) n0)) by (cbn; rewrite (proj1 Hg'); lia). cbn.
    assert (Forall is_byte (drop (Z.to_nat n0) (i_fp g))) as Hfp' by by apply Forall_drop.
    destruct (Z.leb_spec (Z.of_nat (length block)) 0) as [Hz|Hz].
    + eexists _, _. split; [done|]. split; [|by left]. split; cbn; try done. lia.
    + cbn. destruct (extract_code_ok past n0 0 (block ++ drop (length block) (gbuf g))) as (c & -> & Hc & _); [lia|lia|lia|done|].
      cbn. eexists _, _. split; [done|]. rewrite Z.shiftl_mul_pow2 by lia. change (2 ^ 3) with 8.
      assert (length block <= Z.to_nat n0)%nat by (unfold block; rewrite length_take; lia). split.
      * split; cbn; try done; lia.
      * right. split; [lia|]. unfold g_left. cbn. rewrite length_drop.
        unfold block in *. rewrite length_take in *. lia.
  - unfold re in Ere. apply orb_false_iff in Ere as [[_ Hlt]%orb_false_iff _]. apply Z.leb_gt in Hlt.
    rewrite Hn0 in * by done.
    rewrite andb_false_r. destruct (extract_code_ok past (i_n_bits g) (roffset g) (gbuf g)) as (c & -> & Hc & _); [lia|done|lia|done|].
    cbn. eexists _, _. split; [done|]. split; [split; cbn; try done; lia|]. right. split; [lia|]. unfold g_left. cbn. lia.
Qed.

(** The state of a reader, whatever the file. *)
Definition code_ok (z : zr) (c : Z) : Prop := 0 <= c < r_free_ent z ∧ (r_block_compress z ≠ 0 → c ≠ CLEAR).
Record reader_ok (z : zr) : Prop := {
  ro_maxbits : r_maxbits z = mb;
  ro_maxmaxcode : r_maxmaxcode z = mm;
  ro_free : 256 <= r_free_ent z <= mm ∧ (r_block_compress z ≠ 0 → FIRST <= r_free_ent z);
  ro_input : input_ok (inp z);
  ro_prefix c : 256 <= c → code_ok z c → code_ok z (default 0 (tab_prefix z !! c)) ∧ default 0 (tab_prefix z !! c) < c;
  ro_suffix c : is_byte (default 0 (tab_suffix z !! c));
  ro_old : oldcode z = -1 ∨ code_ok z (oldcode z);
  ro_finchar : is_byte (finchar z)
}.

Lemma expand_safe z : reader_ok z → ∀ fuel c s, code_ok z c → c < Z.of_nat fuel →
  Z.of_nat (length s) + c + 1 <= STACK_SIZE → Forall is_byte s →
  ∃ f w, expand fuel (tab_prefix z) (tab_suffix z) c s = Ok (f, f :: w) ∧ Forall is_byte (f :: w).
Proof.
  intros Hz. pose proof (ro_free _ Hz) as [Hfr _]. pose proof (mm_range mb Hmb) as Hmm.
  induction fuel as [|fuel IH]; intros c s Hc Hf Hs HF; [destruct Hc; lia|]. cbn [expand].
  pose proof (proj1 Hc) as Hr. unfold tab_suffixof, tab_prefixof, push. change (Z.shiftl 1 BITS) with 65536.
  rewrite (proj2 (Z.leb_le 0 c)), (proj2 (Z.ltb_lt c 65536)), (proj2 (Z.ltb_lt c HSIZE)) by (unfold HSIZE; lia).
  rewrite (proj2 (Z.ltb_lt _ STACK_SIZE)) by lia. cbn [andb res_bind].
  pose proof (ro_suffix _ Hz c) as Hsuf.
  destruct (Z.leb_spec 256 c) as [H256|H256].
  - destruct (ro_prefix _ Hz c H256 Hc) as [Hp Hlt]. apply IH; [done|lia|simpl; lia|by constructor].
  - eexists _, _. split; [done|]. by constructor.
Qed.

Lemma new_entry_safe z c f s : reader_ok z → 0 <= c < mm → c <= r_free_ent z → (c = r_free_ent z → oldcode z ≠ -1) →
  (r_block_compress z ≠ 0 → c ≠ CLEAR) → is_byte f → reader_ok (new_entry (set_stack z s f c)).
Proof.
  intros [Hb Hm [Hfr Hfb] Hin Hp Hs Ho Hf] Hc Hle Heq HC Hbf. unfold new_entry. cbn. rewrite Hm.
  pose proof (mm_range mb Hmb) as Hmm.
  destruct (Z.ltb_spec (r_free_ent z) mm) as [Hlt|Hge]; [destruct (Z.eqb_spec (oldcode z) (-1)) as [Em|Em]|]; cbn [andb negb].
  - assert (c < r_free_ent z) by (destruct (Z.eq_dec c (r_free_ent z)); [by destruct (Heq ltac:(done))|lia]).
    split; try done. right. split; [cbn; lia|done].
  - destruct Ho as [?|[Ho1 Ho2]]; [done|]. split; try done; cbn.
    + split; [lia|]. intros Hbl. specialize (Hfb Hbl). lia.
    + intros d Hd [Hdr HdC]. cbn in Hdr, HdC. rewrite Z.mod_small by lia.
      destruct (decide (d = r_free_ent z)) as [->|Hne].
      * rewrite lookup_insert_eq. cbn. split; [|lia]. split; [cbn; lia|done].
      * rewrite lookup_insert_ne by done. destruct (Hp d Hd) as [[H1 H2] H3]; [split; [lia|done]|]. split; [|lia]. split; [cbn; lia|done].
    + intros d. destruct (decide (d = r_free_ent z)) as [->|Hne]; [by rewrite lookup_insert_eq|by rewrite lookup_insert_ne].
    + right. split; [cbn; lia|done].
  - assert (c < r_free_ent z) by lia. split; try done. right. split; [cbn; lia|done].
Qed.

(** From [middle]. *)
Record middle_state (z : zr) : Prop := {
  ms_state : r_state z = S_MIDDLE;
  ms_stack : stack z ≠ [];
  ms_bytes : Forall is_byte (stack z);
  ms_after : reader_ok (new_entry (set_stack z [] (finchar z) (incode z)))
}.

Definition bad_stream (e : Z) : Prop := e = EINVAL.

Lemma decode_safe z c : reader_ok z → r_state z = S_MIDDLE → stack z = [] → 0 <= c < mm → (r_block_compress z ≠ 0 → c ≠ CLEAR) →
  safe_or bad_stream middle_state (decode z c).
Proof.
  intros Hz Hst Hs Hc HC. unfold decode. rewrite Hs. pose proof (mm_range mb Hmb) as Hmm.
  assert (STACK_SIZE = 486472) as Hsz by done. pose proof (ro_free _ Hz) as [Hfr _].
  assert (Z.of_nat (Z.to_nat (Z.shiftl 1 BITS)) = 65536) as Hfuel by by rewrite Z2Nat.id.
  generalize dependent (Z.to_nat (Z.shiftl 1 BITS)). intros fuel Hfuel.
  assert (∀ from s, code_ok z from → (length s <= 1)%nat → Forall is_byte s → c <= r_free_ent z → (c = r_free_ent z → oldcode z ≠ -1) →
    safe_or bad_stream middle_state (let* fs := expand fuel (tab_prefix z) (tab_suffix z) from s in Ok (set_stack z (snd fs) (fst fs) c))) as H.
  { intros from s Hfrom Hls HF Hle Heq.
    destruct (expand_safe z Hz fuel from s Hfrom) as (f & w & -> & HF'); [destruct Hfrom; lia|destruct Hfrom; lia|done|].
    cbn. split; try done. cbn. apply (new_entry_safe z c f []); try done. by apply Forall_cons_1 in HF' as [? _]. }
  destruct (Z.leb_spec (r_free_ent z) c) as [Hge|Hlt]; cbn [andb].
  - destruct (Z.ltb_spec (r_free_ent z) c); [done|]. destruct (Z.eqb_spec (oldcode z) (-1)) as [|Hne]; [done|]. cbn [orb].
    unfold push. cbn [length]. rewrite (proj2 (Z.ltb_lt _ STACK_SIZE)) by lia. cbn [res_bind].
    destruct (ro_old _ Hz) as [?|Hold]; [done|]. apply H; [done|simpl; lia| |lia|done].
    constructor; [|done]. apply (ro_finchar _ Hz).
  - cbn [res_bind]. apply H; [split; [lia|done]|simpl; lia|done|lia|lia].
Qed.

Lemma cleared_safe z : reader_ok z → r_block_compress z ≠ 0 → reader_ok (cleared z).
Proof.
  intros [Hb Hm [Hfr Hfb] [] Hp Hs Ho Hf] Hbl. pose proof (mm_range mb Hmb) as Hmm. unfold cleared.
  split; try done; cbn.
  - unfold FIRST. split; [lia|done].
  - intros c Hc [Hr HC]. cbn in Hr, HC. specialize (HC Hbl). unfold CLEAR, FIRST in *. lia.
  - by left.
Qed.

Lemma next_chars_safe fuel : ∀ z, reader_ok z → r_state z = S_MIDDLE → stack z = [] → (g_left (inp z) < fuel)%nat →
  safe_or bad_stream (λ r : zr * bool, if snd r then middle_state (fst r) else r_state (fst r) = S_EOF) (next_chars past fuel z).
Proof.
  induction fuel as [|fuel IH]; intros z Hz Hst Hs Hf; [lia|]. cbn [next_chars].
  pose proof Hz as [Hb Hm [Hfr Hfb] Hin Hp Hsf Ho Hfc]. rewrite Hb, Hm.
  destruct (getcode_safe (r_free_ent z) (inp z) Hin (proj2 Hfr)) as (c & g & -> & Hg & Hc). cbn [res_bind fst snd].
  assert (reader_ok (set_inp z g)) as Hz' by by split.
  destruct Hc as [->|[Hc Hlt]]; [done|]. rewrite (proj2 (Z.ltb_lt (-1) c)) by lia. cbn [negb].
  destruct ((c =? CLEAR) && negb (r_block_compress (set_inp z g) =? 0)) eqn:E.
  - apply andb_true_iff in E as [_ E%negb_true_iff%Z.eqb_neq]. apply IH; [by apply cleared_safe|done|done|].
    unfold g_left in *. cbn. lia.
  - eapply safe_or_bind; [apply (decode_safe (set_inp z g) c); [done|done|done|done|]|done].
    intros Hbl ->. rewrite Z.eqb_refl in E. apply negb_false_iff, Z.eqb_eq in E. done.
Qed.

Lemma middle_safe num : ∀ z, middle_state z →
  safe_or bad_stream (λ r : list Z * zr, Forall is_byte (fst r) ∧ (length (fst r) <= num)%nat ∧ (middle_state (snd r) ∨ r_state (snd r) = S_EOF))
    (middle past num z).
Proof.
  induction num as [|num IH]; intros z Hz; cbn [middle]; [split_and!; [done|simpl; lia|by left]|].
  pose proof Hz as [Hst Hs HF Ha]. destruct (stack z) as [|c s]; [done|]. apply Forall_cons_1 in HF as [Hc HF].
  assert (∀ z', middle_state z' → safe_or bad_stream (λ r : list Z * zr, Forall is_byte (fst r) ∧ (length (fst r) <= S num)%nat
    ∧ (middle_state (snd r) ∨ r_state (snd r) = S_EOF)) (let* r := middle past num z' in Ok (c :: fst r, snd r))) as H.
  { intros z' Hz'. eapply safe_or_bind; [by apply IH|]. intros [o z''] (Ho & Hl & Hr). cbn in *.
    split_and!; [by constructor|lia|done]. }
  destruct s as [|c' s].
  - eapply safe_or_bind; [apply next_chars_safe; [exact Ha|done|done|unfold codes_left, g_left; lia]|].
    intros [z' []]; cbn; intros Hz'; [by apply H|]. split_and!; [by constructor|simpl; lia|by right].
  - apply H. by split.
Qed.

End any.

(** ** Reading any file *)

(** The states of a reader between its calls. *)
Definition reader_state (z : zr) : Prop :=
  (∃ f, Forall is_byte f ∧ z = fresh_reader f) ∨ (∃ mb, 12 <= mb <= 16 ∧ middle_state mb z) ∨ r_state z = S_EOF.

Definition read_error (e : Z) : Prop := e = EFTYPE ∨ e = EINVAL.

Lemma read_start_safe f : Forall is_byte f →
  safe_or (λ e, e = EFTYPE) (λ z, ∃ mb : Z, 12 <= mb <= 16 ∧ reader_ok mb z ∧ r_state z = S_MIDDLE ∧ stack z = []) (read_start (fresh_reader f)).
Proof.
  intros Hf. unfold read_start. cbn [inp fresh_reader i_fp].
  destruct (take 3 f) as [|h0 [|h1 [|h2 [|? ?]]]]; try done. destruct (_ && _); [|done]. cbn [negb].
  destruct (Z.ltb_spec BITS (h2 .& BIT_MASK)); [done|]. destruct (Z.ltb_spec (h2 .& BIT_MASK) 12); [done|]. cbn -[init_suffixes zero_prefixes].
  exists (h2 .& BIT_MASK). assert (12 <= h2 .& BIT_MASK <= 16) as Hmb by (unfold BITS in *; lia).
  pose proof (mm_range _ Hmb) as Hmm. split; [done|]. split; [|done]. split; cbn -[init_suffixes zero_prefixes].
  - done.
  - by rewrite Z.shiftl_mul_pow2, Z.mul_1_l by lia.
  - destruct (Z.eqb_spec (h2 .& BLOCK_MASK) 0); cbn; [split; [lia|done]|]. unfold FIRST. split; [lia|done].
  - split; cbn; try done; [by apply init_width_ok|apply zero_array|by apply Forall_drop].
  - intros c Hc [Hr HC]. cbn in Hr, HC. destruct (Z.eqb_spec (h2 .& BLOCK_MASK) 0); cbn in Hr; [lia|].
    specialize (HC ltac:(done)). unfold FIRST, CLEAR in *. lia.
  - intros c. rewrite init_suffixes_spec. destruct ((0 <=? c) && (c <? Z.of_nat 256)) eqn:E; cbn [default id].
    + apply andb_true_iff in E as [E1%Z.leb_le E2%Z.ltb_lt]. change (Z.of_nat 256) with 256 in E2. by split.
    + by rewrite lookup_empty.
  - by left.
  - unfold is_byte. lia.
Qed.

Lemma zread_safe past num z : reader_state z →
  safe_or read_error (λ r : list Z * zr, Forall is_byte (fst r) ∧ (length (fst r) <= num)%nat ∧ reader_state (snd r)) (zread past z num).
Proof.
  intros Hz. unfold zread. destruct num as [|num]; [by split_and!|].
  assert (∀ mb z', 12 <= mb <= 16 → middle_state mb z' → safe_or read_error
    (λ r : list Z * zr, Forall is_byte (fst r) ∧ (length (fst r) <= S num)%nat ∧ reader_state (snd r)) (middle past (S num) z')) as Hmid.
  { intros mb z' Hmb Hz'. pose proof (middle_safe past mb Hmb (S num) z' Hz') as H.
    destruct (middle past (S num) z') as [[o z'']|e|]; [|by right|done]. destruct H as (Ho & Hl & Hr).
    split_and!; [done|done|]. destruct Hr as [Hr|Hr]; [right; left; by exists mb|by right; right]. }
  destruct Hz as [(f & Hf & ->)|[(mb & Hmb & Hz)|Hz]].
  - cbn [r_state fresh_reader]. apply (safe_or_bind _ (λ z, ∃ mb, 12 <= mb <= 16 ∧ reader_ok mb z ∧ r_state z = S_MIDDLE ∧ stack z = [])).
    { pose proof (read_start_safe f Hf) as H. destruct (read_start _); [done|by left|done]. }
    intros z (mb & Hmb & Hz & Hst & Hs).
    pose proof (next_chars_safe past mb Hmb (S (codes_left z)) z Hz Hst Hs) as H.
    destruct (next_chars _ _ _) as [[z' b]|e|]; cbn [res_bind fst snd].
    + destruct b; [apply (Hmid mb); [done|]; apply H; unfold codes_left, g_left; lia|].
      split_and!; [done|simpl; lia|]. right. right. apply H. unfold codes_left, g_left. lia.
    + right. apply H. unfold codes_left, g_left. lia.
    + apply H. unfold codes_left, g_left. lia.
  - rewrite (ms_state _ _ Hz). by apply (Hmid mb).
  - rewrite Hz. split_and!; [done|simpl; lia|by right; right].
Qed.

Lemma zreads_safe past nums : ∀ z, reader_state z →
  safe_or read_error (λ r : list Z * zr, Forall is_byte (fst r) ∧ (length (fst r) <= sum_list nums)%nat) (zreads past z nums).
Proof.
  induction nums as [|num nums IH]; intros z Hz; cbn [zreads sum_list]; [by split; [|simpl; lia]|].
  eapply safe_or_bind; [by apply zread_safe|]. intros [o z'] (Ho & Hl & Hz').
  eapply safe_or_bind; [by apply IH|]. intros [o' z''] [Ho' Hl']. cbn in *. rewrite length_app.
  split; [by apply Forall_app|lia].
Qed.

(** ** The byte after the buffer

    The value of the byte that is read past [gbuf] has no effect. *)

Lemma extract_code_past past past' n r_off g :
  9 <= n <= 16 → 0 <= r_off → r_off + n <= 128 → byte_array g →
  extract_code past n r_off g = extract_code past' n r_off g.
Proof.
  intros Hn Hr Hrn Hg.
  destruct (extract_code_ok past n r_off g) as (c & -> & Hc & Hb); [done..|].
  destruct (extract_code_ok past' n r_off g) as (c' & -> & Hc' & Hb'); [done..|].
  f_equal. apply Z.bits_inj'. intros k Hk. destruct (Z.lt_ge_cases k n).
  - by rewrite Hb, Hb' by lia.
  - rewrite <- (Z.mod_small c (2 ^ n)), <- (Z.mod_small c' (2 ^ n)) by done.
    by rewrite !Z.mod_pow2_bits_high by lia.
Qed.

Section same.
Context (past past' mb : Z) (Hmb : 12 <= mb <= 16).

Lemma getcode_past fr g : input_ok mb g → fr <= 2 ^ mb →
  getcode past mb (2 ^ mb) fr g = getcode past' mb (2 ^ mb) fr g.
Proof.
  intros [Hw Hg Hfp Hro Hsz] Hfr. unfold getcode.
  set (re := (0 <? i_clear_flg g) || (size g <=? roffset g) || (i_maxcode g <? fr)).
  set (n0 := if re && (0 <? i_clear_flg g) then INIT_BITS else _).
  set (mc0 := if re && (0 <? i_clear_flg g) then MAXCODE INIT_BITS else _).
  assert (width_ok mb n0 mc0 ∧ (re = false → n0 = i_n_bits g)) as [Hw0 Hn0].
  { unfold n0, mc0. pose proof (widened_width mb _ _ _ Hw Hfr) as Hwd. unfold widened in Hwd.
    destruct re; cbn [andb]; [|done]. split; [|done]. destruct (0 <? i_clear_flg g); [by apply init_width_ok|].
    by destruct (i_maxcode g <? fr). }
  clearbody n0 mc0. destruct (width_ok_mc mb Hmb _ _ Hw0) as [Hn _]. pose proof (proj1 Hg) as Hl.
  destruct re eqn:Ere; cbn [andb].
  - set (block := take (Z.to_nat n0) (i_fp g)).
    destruct (_ && true); [done|]. destruct (_ <=? 0); [done|]. cbn [i_fp i_n_bits i_maxcode i_clear_flg roffset size gbuf].
    rewrite (extract_code_past past past'); [done|lia|lia|lia|]. split.
    + rewrite length_app, length_drop. unfold block. rewrite length_take. lia.
    + apply Forall_app. split; [by apply Forall_take|by apply Forall_drop, Hg].
  - unfold re in Ere. apply orb_false_iff in Ere as [[_ Hlt]%orb_false_iff _]. apply Z.leb_gt in Hlt.
    rewrite Hn0 by done. destruct (_ && false); [done|].
    rewrite (extract_code_past past past'); [done|rewrite <- Hn0 by done; lia|lia|lia|done].
Qed.

Lemma next_chars_past fuel : ∀ z, reader_ok mb z → r_state z = S_MIDDLE → stack z = [] →
  next_chars past fuel z = next_chars past' fuel z.
Proof.
  induction fuel as [|fuel IH]; intros z Hz Hst Hs; [done|]. cbn [next_chars].
  pose proof Hz as [Hb Hm [Hfr Hfb] Hin Hp Hsf Ho Hfc]. rewrite Hb, Hm.
  rewrite getcode_past by (done || apply Hfr).
  destruct (getcode_safe past' mb Hmb (r_free_ent z) (inp z) Hin (proj2 Hfr)) as (c & g & -> & Hg & Hc).
  cbn [res_bind fst snd]. destruct (negb _); [done|].
  destruct ((c =? CLEAR) && negb (r_block_compress (set_inp z g) =? 0)) eqn:E; [|done].
  apply andb_true_iff in E as [_ E%negb_true_iff%Z.eqb_neq]. apply IH; [|done|done].
  apply cleared_safe; [done| |done]. by split.
Qed.

Lemma middle_past num : ∀ z, middle_state mb z → middle past num z = middle past' num z.
Proof.
  induction num as [|num IH]; intros z Hz; cbn [middle]; [done|].
  pose proof Hz as [Hst Hs HF Ha]. destruct (stack z) as [|c s]; [done|]. apply Forall_cons_1 in HF as [Hc HF].
  destruct s as [|c' s].
  - rewrite next_chars_past by done.
    set (z1 := new_entry _). pose proof (next_chars_safe past' mb Hmb (S (codes_left z1)) z1 Ha) as H.
    specialize (H ltac:(done) ltac:(done) ltac:(unfold codes_left, g_left; lia)).
    destruct (next_chars past' _ z1) as [[z' []]|e|]; cbn [res_bind fst snd] in *; [by rewrite IH|done..].
  - rewrite IH; [done|]. by split.
Qed.
End same.

Lemma zread_past past past' z num : reader_state z → zread past z num = zread past' z num.
Proof.
  intros Hz. unfold zread. destruct num as [|num]; [done|].
  destruct Hz as [(f & Hf & ->)|[(mb & Hmb & Hz)|Hz]].
  - change (r_state (fresh_reader f)) with S_START. cbn iota. pose proof (read_start_safe f Hf) as H.
    revert H. generalize (read_start (fresh_reader f)). intros [z|e|] H; cbn [res_bind]; [|reflexivity..].
    destruct H as (mb & Hmb & Hz & Hst & Hs).
    rewrite (next_chars_past past past' mb) by assumption.
    pose proof (next_chars_safe past' mb Hmb (S (codes_left z)) z Hz Hst Hs ltac:(unfold codes_left, g_left; lia)) as H.
    destruct (next_chars past' _ z) as [[z' []]|e|]; cbn [res_bind fst snd] in *; [|done..].
    by apply (middle_past past past' mb).
  - rewrite (ms_state _ _ Hz). by apply (middle_past past past' mb).
  - by rewrite Hz.
Qed.

Lemma zreads_past past past' nums : ∀ z, reader_state z → zreads past z nums = zreads past' z nums.
Proof.
  induction nums as [|num nums IH]; intros z Hz; cbn [zreads]; [done|].
  rewrite (zread_past past past') by done. pose proof (zread_safe past' num z Hz) as H.
  destruct (zread past' z num) as [[o z']|e|]; cbn [res_bind fst snd] in *; [|done..].
  by rewrite IH by apply H.
Qed.

(** C13.  For every file, a corrupt or truncated one included, and however it is read,
    uncompressing stays inside the tables and the stack, and inside the buffer but for
    reads of the one byte after it, whose value has no effect on what is read; it
    terminates, and ends with bytes, no more than were asked for, or with one of the two
    errors: a bad header or a bad code. *)
Theorem decompress_memory_safe past file nums :
  Forall is_byte file →
  (∀ past', decompress past' file nums = decompress past file nums) ∧
  match decompress past file nums with
  | Ok out => Forall is_byte out ∧ (length out <= sum_list nums)%nat
  | Err e => e = EFTYPE ∨ e = EINVAL
  | Fault => False
  end.
Proof.
  intros Hf. unfold decompress.
  assert (zopen file (str "r") 0 = Ok (Reading (fresh_reader file))) as -> by done. cbn [res_bind].
  assert (reader_state (fresh_reader file)) as Hz by (left; by exists file).
  split; [intros past'; by rewrite (zreads_past past' past)|].
  pose proof (zreads_safe past nums _ Hz) as H. by destruct (zreads past (fresh_reader file) nums).
Qed.

(** A file with a code beyond the table. *)
Lemma decompress_memory_safe_witness :
  (∀ past', decompress past' (magic_header ++ [144; 97; 255; 255]) [8%nat]
    = decompress 0 (magic_header ++ [144; 97; 255; 255]) [8%nat]) ∧
  match decompress 0 (magic_header ++ [144; 97; 255; 255]) [8%nat] with
  | Ok out => Forall is_byte out ∧ (length out <= 8)%nat
  | Err e => e = EFTYPE ∨ e = EINVAL
  | Fault => False
  end.
Proof. apply (decompress_memory_safe 0 (magic_header ++ [144; 97; 255; 255]) [8%nat]). repeat constructor; lia. Defined.
