(* ===== verification/Arith.v ===== *)
(** * Shell arithmetic (bin/sh/arithmetic.c, arith_token.c)

    The evaluator of [$(( ))] and [let]: [arith_token] is the lexer, and one function per
    level of the grammar evaluates while it parses, one token ahead.  An operand that is
    not wanted ([noeval]) is parsed all the same, and the values computed there are
    rubbish.  The shell's variables are behind the interface [Vars]. *)

From S2P Require Import Prelude Libc.

(** ** Tokens (arith_tokens.h) *)

Definition ARITH_BAD : Z := 0.
Definition ARITH_ASS : Z := 1.
Definition ARITH_OR : Z := 2.
Definition ARITH_AND : Z := 3.
Definition ARITH_NUM : Z := 5.
Definition ARITH_VAR : Z := 6.
Definition ARITH_NOT : Z := 7.
Definition ARITH_BINOP_MIN : Z := 8.
Definition ARITH_LE : Z := 8.
Definition ARITH_GE : Z := 9.
Definition ARITH_LT : Z := 10.
Definition ARITH_GT : Z := 11.
Definition ARITH_EQ : Z := 12.
Definition ARITH_ASS_BASE : Z := 13.
Definition ARITH_REM : Z := 13.
Definition ARITH_BAND : Z := 14.
Definition ARITH_LSHIFT : Z := 15.
Definition ARITH_RSHIFT : Z := 16.
Definition ARITH_MUL : Z := 17.
Definition ARITH_ADD : Z := 18.
Definition ARITH_BOR : Z := 19.
Definition ARITH_SUB : Z := 20.
Definition ARITH_BXOR : Z := 21.
Definition ARITH_DIV : Z := 22.
Definition ARITH_NE : Z := 23.
Definition ARITH_BINOP_MAX : Z := 24.
Definition ARITH_ASS_MIN : Z := ARITH_BINOP_MAX.
Definition ARITH_ASS_GAP : Z := ARITH_ASS_MIN - ARITH_ASS_BASE.
Definition ARITH_ASS_MAX : Z := 34.
Definition ARITH_LPAREN : Z := 34.
Definition ARITH_RPAREN : Z := 35.
Definition ARITH_BNOT : Z := 36.
Definition ARITH_QMARK : Z := 37.
Definition ARITH_COLON : Z := 38.
Definition ARITH_INCR : Z := 39.
Definition ARITH_DECR : Z := 40.
Definition ARITH_COMMA : Z := 41.

(** [union a_token_val]: a number, or a pointer to the copy of a name, whose bits are
    [addr]. *)
Inductive a_token_val : Type :=
  | TVal (val : Z)
  | TName (name : list Z) (addr : Z).

(** The messages of [error]. *)
Inductive diag : Type :=
  | arith_diag (s : list Z)
  | unexpected_char (c : Z)
  | unexpected_digit (c : Z)
  | not_settable (name : list Z).

(** ** Characters (syntax.c, the table [is_type]) *)

Definition is_name (c : Z) : bool := isupper c || islower c || (c =? ch "_").
Definition is_in_name (c : Z) : bool := is_name c || isdigit c.
Definition is_space (c : Z) : bool := (c =? 32) || (c =? 9) || (c =? 10).

(** ** The lexer *)

(** The longest run of characters of a name, and what follows. *)
Fixpoint name_run (p : list Z) : list Z * list Z :=
  match p with
  | c :: p' => if is_in_name c then let '(n, r) := name_run p' in (c :: n, r) else ([], p)
  | [] => ([], [])
  end.

(** A token with its value when it has one, the text after it and the line; or the
    message of the error. *)
Inductive lexeme : Type :=
  | Lexeme (token : Z) (val : option a_token_val) (rest : list Z) (lno : Z)
  | LexError (d : diag).

(** The labels [checkeqcur] and, after a [buf++], [checkeq]. *)
Definition checkeqcur (token : Z) (buf : list Z) : Z * list Z :=
  if peek buf =? ch "=" then (token + ARITH_ASS_GAP, drop 1 buf) else (token, buf).

(** The operator at the head of [buf], if there is one; [buf1] is what follows its first
    character. *)
Definition operator (c : Z) (buf1 : list Z) : option (Z * list Z) :=
  if c =? ch "=" then Some (checkeqcur ARITH_ASS buf1)
  else if c =? ch ">" then
    if peek buf1 =? ch "=" then Some (ARITH_GE, drop 1 buf1)
    else if peek buf1 =? ch ">" then Some (checkeqcur ARITH_RSHIFT (drop 1 buf1))
    else Some (ARITH_GT, buf1)
  else if c =? ch "<" then
    if peek buf1 =? ch "=" then Some (ARITH_LE, drop 1 buf1)
    else if peek buf1 =? ch "<" then Some (checkeqcur ARITH_LSHIFT (drop 1 buf1))
    else Some (ARITH_LT, buf1)
  else if c =? ch "|" then
    if negb (peek buf1 =? ch "|") then Some (checkeqcur ARITH_BOR buf1)
    else Some (ARITH_OR, drop 1 buf1)
  else if c =? ch "&" then
    if negb (peek buf1 =? ch "&") then Some (checkeqcur ARITH_BAND buf1)
    else Some (ARITH_AND, drop 1 buf1)
  else if c =? ch "!" then
    if negb (peek buf1 =? ch "=") then Some (ARITH_NOT, buf1)
    else Some (ARITH_NE, drop 1 buf1)
  else if c =? ch "(" then Some (ARITH_LPAREN, buf1)
  else if c =? ch ")" then Some (ARITH_RPAREN, buf1)
  else if c =? ch "*" then Some (checkeqcur ARITH_MUL buf1)
  else if c =? ch "/" then Some (checkeqcur ARITH_DIV buf1)
  else if c =? ch "%" then Some (checkeqcur ARITH_REM buf1)
  else if c =? ch "+" then
    if peek buf1 =? ch "+" then Some (ARITH_INCR, drop 1 buf1)
    else Some (checkeqcur ARITH_ADD buf1)
  else if c =? ch "-" then
    if peek buf1 =? ch "-" then Some (ARITH_DECR, drop 1 buf1)
    else Some (checkeqcur ARITH_SUB buf1)
  else if c =? ch "~" then Some (ARITH_BNOT, buf1)
  else if c =? ch "^" then Some (checkeqcur ARITH_BXOR buf1)
  else if c =? ch "?" then Some (ARITH_QMARK, buf1)
  else if c =? ch ":" then Some (ARITH_COLON, buf1)
  else if c =? ch "," then Some (ARITH_COMMA, buf1)
  else None.

(** The loop of [arith_token].  [name_addr] is the address the stack allocator gives the
    copy of the name found at a point of the text. *)
Fixpoint token_loop (name_addr : list Z → Z) (buf : list Z) (lno : Z) : lexeme :=
  match buf with
  | [] => Lexeme 0 None [] lno
  | c :: buf1 =>
      if isdigit c then
        let '(v, e, _) := strtoimax buf 0 in
        if is_in_name (peek e) then LexError (unexpected_digit (peek e))
        else Lexeme ARITH_NUM (Some (TVal v)) e lno
      else if is_name c then
        let '(n, r) := name_run buf1 in
        Lexeme ARITH_VAR (Some (TName (c :: n) (name_addr buf))) r lno
      else if c =? 10 then token_loop name_addr buf1 (lno + 1)
      else if (c =? 32) || (c =? 9) then token_loop name_addr buf1 lno
      else if c =? 0 then Lexeme 0 None buf lno
      else match operator c buf1 with
           | Some (t, r) => Lexeme t None r lno
           | None => LexError (unexpected_char c)
           end
  end.

(** ** Variables (var.c)

    What the evaluator uses of the shell's variables.  The value of a variable may depend
    on the line ([LINENO]) and reading it may change it ([RANDOM]); setting one may fail. *)
Class Vars (V : Type) := {
  lookupvar : V → Z → list Z → option (list Z) * V;
  setvar : V → list Z → list Z → V * bool
}.

(** ** The evaluator's state and effects *)

Section Arith.
Context {V : Type} {VV : Vars V}.

Record astate : Type := AState {
  arith_buf : list Z;
  a_t_val : a_token_val;
  last_token : Z;
  arith_lno : Z;
  arith_var_lno : Z;
  vars : V
}.

(** [error] does not return: the state is the one it leaves behind.  [Overflow] is a
    signed overflow, which C leaves undefined, [Wild] the use of a number as a pointer, and
    [OutOfFuel] a recursion that is too deep. *)
Inductive ending (A : Type) : Type :=
  | Done (a : A) (st : astate)
  | Error (d : diag) (st : astate)
  | Overflow
  | Wild
  | OutOfFuel.
Arguments Done {A}.
Arguments Error {A}.
Arguments Overflow {A}.
Arguments Wild {A}.
Arguments OutOfFuel {A}.

Definition M (A : Type) : Type := astate → ending A.

#[export] Instance M_ret : MRet M := λ _ a st, Done a st.
#[export] Instance M_bind : MBind M := λ _ _ k m st,
  match m st with
  | Done a st' => k a st'
  | Error d st' => Error d st'
  | Overflow => Overflow
  | Wild => Wild
  | OutOfFuel => OutOfFuel
  end.

Definition fail {A} (d : diag) : M A := λ st, Error d st.
Definition arith_err {A} (s : list Z) : M A := fail (arith_diag s).
Definition overflow {A} : M A := λ _, Overflow.
Definition wild {A} : M A := λ _, Wild.
Definition out_of_fuel {A} : M A := λ _, OutOfFuel.

Definition get_val : M a_token_val := λ st, Done (a_t_val st) st.
Definition get_last : M Z := λ st, Done (last_token st) st.
Definition set_last (t : Z) : M unit := λ st,
  Done () (AState (arith_buf st) (a_t_val st) t (arith_lno st) (arith_var_lno st) (vars st)).
Definition set_vars (vs : V) : M unit := λ st,
  Done () (AState (arith_buf st) (a_t_val st) (last_token st) (arith_lno st)
             (arith_var_lno st) vs).

(** The two members of the union. *)
Definition val_of (v : a_token_val) : Z :=
  match v with TVal z => z | TName _ p => p end.
Definition name_of (v : a_token_val) : M (list Z) :=
  match v with TName n _ => mret n | TVal _ => wild end.

Section Shell.
Context (uflag : bool) (name_addr : list Z → Z).

(** The globals after a token; the line is kept at every variable. *)
Definition arith_token : M Z := λ st,
  match token_loop name_addr (arith_buf st) (arith_lno st) with
  | LexError d => Error d st
  | Lexeme t v r lno =>
      Done t (AState r (default (a_t_val st) v) (last_token st) lno
                (if t =? ARITH_VAR then lno else arith_var_lno st) (vars st))
  end.

(** ** Values of variables *)

(** Whether the rest of a value after the number is blank. *)
Definition blank_rest (p : list Z) : bool := forallb is_space (cstr p).

(** The number a value denotes, if it does. *)
Definition numeric (text : option (list Z)) : option Z :=
  let s := match text with Some (c :: t) => c :: t | _ => [ch "0"] end in
  let '(result, p, errno) := strtoimax s 0 in
  if negb (errno =? 0) || negb (peek p =? 0) then
    if (errno =? 0) && blank_rest p then Some result else None
  else Some result.

Definition arith_lookupvarint (varname : list Z) : M Z := λ st,
  let '(text, vs) := lookupvar (vars st) (arith_var_lno st) varname in
  (_ ← set_vars vs;
   if uflag && bool_decide (text = None) then arith_err (str "variable not set")
   else match numeric text with
        | Some result => mret result
        | None => arith_err (str "variable contains non-numeric value")
        end) st.

(** [snprintf] of a value into [sresult], of [DIGITS(result) + 1] bytes, and [setvar]. *)
Definition DIGITS : Z := 3 + (2 + 8 * 8) / 3.
Definition format_result (v : Z) : res (list Z) :=
  let* b := snprintf (replicate (Z.to_nat (DIGITS + 1)) 0) (DIGITS + 1) (print_int v) in
  Ok (cstr b).
Definition setvarint (name : list Z) (v : Z) : M unit := λ st,
  match format_result v with
  | Ok text =>
      let '(vs, ok) := setvar (vars st) name text in
      (_ ← set_vars vs; if ok : bool then mret () else fail (not_settable name)) st
  | _ => Wild
  end.

(** ** Operators *)

(** The table [prec]. *)
Definition arith_prec (op : Z) : Z :=
  if (op =? ARITH_MUL) || (op =? ARITH_DIV) || (op =? ARITH_REM) then 0
  else if (op =? ARITH_ADD) || (op =? ARITH_SUB) then 1
  else if (op =? ARITH_LSHIFT) || (op =? ARITH_RSHIFT) then 2
  else if (op =? ARITH_LT) || (op =? ARITH_LE) || (op =? ARITH_GT) || (op =? ARITH_GE) then 3
  else if (op =? ARITH_EQ) || (op =? ARITH_NE) then 4
  else if op =? ARITH_BAND then 5
  else if op =? ARITH_BXOR then 6
  else 7.
Definition ARITH_MAX_PREC : Z := 8.

Definition is_binop (op : Z) : bool := (ARITH_BINOP_MIN <=? op) && (op <? ARITH_BINOP_MAX).
Definition higher_prec (op1 op2 : Z) : bool := arith_prec op1 <? arith_prec op2.

Definition do_binop (op a b : Z) : M Z :=
  if (op =? ARITH_REM) || (op =? ARITH_DIV) then
    if b =? 0 then arith_err (str "division by zero")
    else if (a =? INTMAX_MIN) && (b =? -1) then arith_err (str "divide error")
    else mret (if op =? ARITH_REM then Z.rem a b else Z.quot a b)
  else if op =? ARITH_MUL then mret (s64 (a * b))
  else if op =? ARITH_ADD then mret (s64 (a + b))
  else if op =? ARITH_SUB then mret (s64 (a - b))
  else if op =? ARITH_LSHIFT then mret (s64 (Z.shiftl a (b .& 63)))
  else if op =? ARITH_RSHIFT then mret (Z.shiftr a (b .& 63))
  else if op =? ARITH_LT then mret (Z.b2z (a <? b))
  else if op =? ARITH_LE then mret (Z.b2z (a <=? b))
  else if op =? ARITH_GT then mret (Z.b2z (b <? a))
  else if op =? ARITH_GE then mret (Z.b2z (b <=? a))
  else if op =? ARITH_EQ then mret (Z.b2z (a =? b))
  else if op =? ARITH_NE then mret (Z.b2z (negb (a =? b)))
  else if op =? ARITH_BAND then mret (a .& b)
  else if op =? ARITH_BXOR then mret (Z.lxor a b)
  else if op =? ARITH_BOR then mret (a .| b)
  else arith_err (str "token error").

(** The result of signed arithmetic on [intmax_t]. *)
Definition intmax (z : Z) : M Z :=
  if (INTMAX_MIN <=? z) && (z <=? INTMAX_MAX) then mret z else overflow.

(** C's [!x] and [x && y] as integers. *)
Definition c_lnot (a : Z) : Z := Z.b2z (a =? 0).
Definition truth (a : Z) : bool := negb (a =? 0).

(** ** The levels of the grammar

    [token] is the current token, [val] its value and [op] the token after it, already
    read.  A level returns with the token that follows the phrase in [last_token].
    Negation, which is computed in operands that are not wanted too, and the increments
    are signed. *)
Fixpoint primary (fuel : nat) (token : Z) (val : a_token_val) (op : Z) (noeval : bool)
    {struct fuel} : M Z :=
  match fuel with
  | O => out_of_fuel
  | S fuel =>
      if token =? ARITH_LPAREN then
        result ← comma_list fuel op noeval;
        t ← get_last;
        if negb (t =? ARITH_RPAREN) then arith_err (str "expecting ')'") else
        t ← arith_token; _ ← set_last t; mret result
      else if token =? ARITH_NUM then
        _ ← set_last op; mret (val_of val)
      else if token =? ARITH_VAR then
        result ← (if noeval then mret (val_of val)
                  else n ← name_of val; arith_lookupvarint n);
        if (op =? ARITH_INCR) || (op =? ARITH_DECR) then
          t ← arith_token; _ ← set_last t;
          if noeval then mret (val_of val) else
          n ← name_of val;
          next ← intmax (result + (if op =? ARITH_INCR then 1 else -1));
          _ ← setvarint n next; mret result
        else _ ← set_last op; mret result
      else if token =? ARITH_ADD then
        val ← get_val; op2 ← arith_token; primary fuel op val op2 noeval
      else if token =? ARITH_SUB then
        val ← get_val; op2 ← arith_token;
        r ← primary fuel op val op2 noeval; intmax (- r)
      else if token =? ARITH_NOT then
        val ← get_val; op2 ← arith_token;
        r ← primary fuel op val op2 noeval; mret (c_lnot r)
      else if token =? ARITH_BNOT then
        val ← get_val; op2 ← arith_token;
        r ← primary fuel op val op2 noeval; mret (Z.lnot r)
      else if (token =? ARITH_INCR) || (token =? ARITH_DECR) then
        if negb (op =? ARITH_VAR) then arith_err (str "incr/decr require var name") else
        t ← arith_token; _ ← set_last t;
        if noeval then mret (val_of val) else
        v ← get_val; n ← name_of v;
        result ← arith_lookupvarint n;
        result ← intmax (result + (if token =? ARITH_INCR then 1 else -1));
        v ← get_val; n ← name_of v;
        _ ← setvarint n result; mret result
      else arith_err (str "expecting primary")
  end
with binop2 (fuel : nat) (a op precedence : Z) (noeval : bool) {struct fuel} : M Z :=
  match fuel with
  | O => out_of_fuel
  | S fuel =>
      token ← arith_token; val ← get_val; op2 ← arith_token;
      b ← primary fuel token val op2 noeval;
      op2 ← get_last;
      b ← (if is_binop op2 && higher_prec op2 op
           then binop2 fuel b op2 (arith_prec op) noeval else mret b);
      op2 ← get_last;
      a ← (if noeval then mret b else do_binop op a b);
      if negb (is_binop op2) || (precedence <=? arith_prec op2) then mret a
      else binop2 fuel a op2 precedence noeval
  end
with binop (fuel : nat) (token : Z) (val : a_token_val) (op : Z) (noeval : bool)
    {struct fuel} : M Z :=
  match fuel with
  | O => out_of_fuel
  | S fuel =>
      a ← primary fuel token val op noeval;
      op ← get_last;
      if negb (is_binop op) then mret a else binop2 fuel a op ARITH_MAX_PREC noeval
  end
with and (fuel : nat) (token : Z) (val : a_token_val) (op : Z) (noeval : bool)
    {struct fuel} : M Z :=
  match fuel with
  | O => out_of_fuel
  | S fuel =>
      a ← binop fuel token val op noeval;
      op ← get_last;
      if negb (op =? ARITH_AND) then mret a else
      token ← arith_token; val ← get_val; op ← arith_token;
      b ← and fuel token val op (noeval || negb (truth a));
      mret (Z.b2z (truth a && truth b))
  end
with or (fuel : nat) (token : Z) (val : a_token_val) (op : Z) (noeval : bool)
    {struct fuel} : M Z :=
  match fuel with
  | O => out_of_fuel
  | S fuel =>
      a ← and fuel token val op noeval;
      op ← get_last;
      if negb (op =? ARITH_OR) then mret a else
      token ← arith_token; val ← get_val; op ← arith_token;
      b ← or fuel token val op (noeval || truth a);
      mret (Z.b2z (truth a || truth b))
  end
with cond (fuel : nat) (token : Z) (val : a_token_val) (op : Z) (noeval : bool)
    {struct fuel} : M Z :=
  match fuel with
  | O => out_of_fuel
  | S fuel =>
      a ← or fuel token val op noeval;
      t ← get_last;
      if negb (t =? ARITH_QMARK) then mret a else
      t ← arith_token;
      b ← comma_list fuel t (noeval || negb (truth a));
      t ← get_last;
      if negb (t =? ARITH_COLON) then arith_err (str "expecting ':'") else
      token ← arith_token; val ← get_val; op ← arith_token;
      c ← cond fuel token val op (noeval || truth a);
      mret (if truth a then b else c)
  end
with assignment (fuel : nat) (var : Z) (noeval : bool) {struct fuel} : M Z :=
  match fuel with
  | O => out_of_fuel
  | S fuel =>
      val ← get_val; op ← arith_token;
      if negb (var =? ARITH_VAR) then cond fuel var val op noeval
      else if negb (op =? ARITH_ASS) && ((op <? ARITH_ASS_MIN) || (ARITH_ASS_MAX <=? op))
      then cond fuel var val op noeval
      else
        t ← arith_token;
        result ← assignment fuel t noeval;
        if noeval then mret result else
        n ← name_of val;
        result ← (if negb (op =? ARITH_ASS)
                  then x ← arith_lookupvarint n; do_binop (op - ARITH_ASS_GAP) x result
                  else mret result);
        _ ← setvarint n result; mret result
  end
with comma_list (fuel : nat) (token : Z) (noeval : bool) {struct fuel} : M Z :=
  match fuel with
  | O => out_of_fuel
  | S fuel =>
      result ← assignment fuel token noeval; comma_loop fuel result noeval
  end
with comma_loop (fuel : nat) (result : Z) (noeval : bool) {struct fuel} : M Z :=
  match fuel with
  | O => out_of_fuel
  | S fuel =>
      t ← get_last;
      if negb (t =? ARITH_COMMA) then mret result else
      t ← arith_token;
      result ← assignment fuel t noeval; comma_loop fuel result noeval
  end.

(** ** The entry points *)

(** Whether the text may mention [LINENO]. *)
Fixpoint mentions_LIN (p : list Z) : bool :=
  match p with
  | [] => false
  | c :: p' => ((c =? ch "L") && (peek p' =? ch "I") && (peek (drop 1 p') =? ch "N"))
               || mentions_LIN p'
  end.
Definition newlines (s : list Z) : Z := Z.of_nat (length (filter (.= 10) s)).

(** Every call is at most ten levels below one that has read a token more. *)
Definition arith_fuel (s : list Z) : nat := 10 * length s + 20.

(** [arith] on a shell whose variables, and whatever the last call has left in the
    globals, are [st]. *)
Definition arith (s : list Z) (lno : Z) : M Z := λ st,
  let lno := if mentions_LIN s then lno - newlines s else lno in
  let st := AState s (a_t_val st) (last_token st) lno (arith_var_lno st) (vars st) in
  (t ← arith_token;
   result ← comma_list (arith_fuel s) t false;
   t ← get_last;
   if negb (t =? 0) then arith_err (str "expecting end of expression") else mret result) st.

(** The arguments of [let] joined by blanks. *)
Fixpoint concat_args (args : list (list Z)) : list Z :=
  match args with
  | [] => []
  | [p] => p
  | p :: args => p ++ ch " " :: concat_args args
  end.

(** [let]: what it prints, and its exit status. *)
Definition expcmd (line_number : Z) (args : list (list Z)) : M (list Z * Z) :=
  i ← arith (concat_args args) line_number;
  mret (print_int i ++ [10], c_lnot i).

End Shell.
End Arith.

Arguments astate : clear implicits.
Arguments ending : clear implicits.
Arguments Done {V A}.
Arguments Error {V A}.
Arguments Overflow {V A}.
Arguments Wild {V A}.
Arguments OutOfFuel {V A}.
Arguments M : clear implicits.
