(* ===== verification/ArithSpec.v ===== *)
(** * Shell arithmetic: what an expression means

    A grammar of the tokens, in the precedence of C, the value of an expression with its
    effects on the variables in C's order of evaluation, and the proofs that [arith]
    computes that value and accepts only what the grammar derives. *)

From S2P Require Import Prelude Libc Arith.

(** ** Tokens *)

Inductive token : Type :=
  | Op (c : Z)
  | Num (v : Z)
  | Var (n : list Z) (addr line : Z).

Definition tcode (t : token) : Z :=
  match t with Op c => c | Num _ => ARITH_NUM | Var _ _ _ => ARITH_VAR end.
Definition code (ts : list token) : Z := match ts with [] => 0 | t :: _ => tcode t end.

(** The line of the last variable. *)
Definition line_after (l : Z) (t : token) : Z := match t with Var _ _ k => k | _ => l end.
Definition last_line : Z → list token → Z := foldl line_after.
Definition line_at (l : Z) (ts : list token) : Z :=
  match ts with [] => l | t :: _ => line_after l t end.

(** The text is a sequence of tokens. *)
Inductive lexes (name_addr : list Z → Z) : list Z → Z → list token → Prop :=
  | lexes_end s l r l' :
      token_loop name_addr s l = Lexeme 0 None r l' → lexes name_addr s l []
  | lexes_op s l c r l' ts :
      token_loop name_addr s l = Lexeme c None r l' → c ≠ 0 → c ≠ ARITH_NUM → c ≠ ARITH_VAR →
      lexes name_addr r l' ts → lexes name_addr s l (Op c :: ts)
  | lexes_num s l v r l' ts :
      token_loop name_addr s l = Lexeme ARITH_NUM (Some (TVal v)) r l' →
      lexes name_addr r l' ts → lexes name_addr s l (Num v :: ts)
  | lexes_var s l n a r l' ts :
      token_loop name_addr s l = Lexeme ARITH_VAR (Some (TName n a)) r l' →
      lexes name_addr r l' ts → lexes name_addr s l (Var n a l' :: ts).

(** ** Expressions *)

Inductive expr : Type :=
  | ENum (v : Z)
  | EVar (n : list Z) (line : Z)
  | EPre (n : list Z) (line d : Z)
  | EPost (n : list Z) (line d : Z)
  | EUnary (c : Z) (e : expr)
  | EBin (op : Z) (e1 e2 : expr)
  | EAnd (e1 e2 : expr)
  | EOr (e1 e2 : expr)
  | ECond (e1 e2 e3 : expr)
  | EAssign (n : list Z) (e : expr)
  | EAssop (n : list Z) (line op : Z) (e : expr)
  | EComma (e1 e2 : expr).

Definition is_incr (c : Z) : bool := (c =? ARITH_INCR) || (c =? ARITH_DECR).
Definition incr_step (c : Z) : Z := if c =? ARITH_INCR then 1 else -1.
Definition is_unary (c : Z) : bool :=
  (c =? ARITH_ADD) || (c =? ARITH_SUB) || (c =? ARITH_NOT) || (c =? ARITH_BNOT).
Definition is_assop (c : Z) : bool := (ARITH_ASS_MIN <=? c) && (c <? ARITH_ASS_MAX).

(** The binary operators of ISO C from the tightest (6.5.5 to 6.5.12), and the level an
    operator is at. *)
Definition c_levels : list (list Z) :=
  [ [ARITH_MUL; ARITH_DIV; ARITH_REM];
    [ARITH_ADD; ARITH_SUB];
    [ARITH_LSHIFT; ARITH_RSHIFT];
    [ARITH_LT; ARITH_GT; ARITH_LE; ARITH_GE];
    [ARITH_EQ; ARITH_NE];
    [ARITH_BAND];
    [ARITH_BXOR];
    [ARITH_BOR] ].
Fixpoint level_of (op : Z) (levels : list (list Z)) : Z :=
  match levels with
  | [] => 0
  | ops :: levels => if decide (op ∈ ops) then 0 else 1 + level_of op levels
  end.
Definition c_prec (op : Z) : Z := level_of op c_levels.

(** The grammar of ISO C's expressions, by level: 0 is a unary expression, [1 .. 8] the
    left-associative binary operators, [k + 1] those of [c_levels] at [k], then [&&],
    [||], [?:], assignment and the comma. *)
Inductive derives : Z → list token → expr → Prop :=
  | d_num v : derives 0 [Num v] (ENum v)
  | d_var n a l : derives 0 [Var n a l] (EVar n l)
  | d_pre c n a l : is_incr c = true → derives 0 [Op c; Var n a l] (EPre n l (incr_step c))
  | d_post c n a l : is_incr c = true → derives 0 [Var n a l; Op c] (EPost n l (incr_step c))
  | d_paren ts e : derives 13 ts e → derives 0 (Op ARITH_LPAREN :: ts ++ [Op ARITH_RPAREN]) e
  | d_unary c ts e : is_unary c = true → derives 0 ts e → derives 0 (Op c :: ts) (EUnary c e)
  | d_bin op ts1 ts2 e1 e2 :
      is_binop op = true → derives (c_prec op + 1) ts1 e1 → derives (c_prec op) ts2 e2 →
      derives (c_prec op + 1) (ts1 ++ Op op :: ts2) (EBin op e1 e2)
  | d_and ts1 ts2 e1 e2 :
      derives 8 ts1 e1 → derives 9 ts2 e2 →
      derives 9 (ts1 ++ Op ARITH_AND :: ts2) (EAnd e1 e2)
  | d_or ts1 ts2 e1 e2 :
      derives 9 ts1 e1 → derives 10 ts2 e2 →
      derives 10 (ts1 ++ Op ARITH_OR :: ts2) (EOr e1 e2)
  | d_cond ts1 ts2 ts3 e1 e2 e3 :
      derives 10 ts1 e1 → derives 13 ts2 e2 → derives 11 ts3 e3 →
      derives 11 (ts1 ++ Op ARITH_QMARK :: ts2 ++ Op ARITH_COLON :: ts3) (ECond e1 e2 e3)
  | d_assign n a l ts e :
      derives 12 ts e → derives 12 (Var n a l :: Op ARITH_ASS :: ts) (EAssign n e)
  | d_assop n a l c ts e :
      is_assop c = true → derives 12 ts e →
      derives 12 (Var n a l :: Op c :: ts) (EAssop n (last_line l ts) (c - ARITH_ASS_GAP) e)
  | d_comma ts1 ts2 e1 e2 :
      derives 13 ts1 e1 → derives 12 ts2 e2 →
      derives 13 (ts1 ++ Op ARITH_COMMA :: ts2) (EComma e1 e2)
  | d_up L ts e : 0 <= L < 13 → derives L ts e → derives (L + 1) ts e.

(** ** Values *)

(** Why there is no value: an error, or a signed overflow, after which C promises
    nothing. *)
Inductive halt : Type :=
  | Halt (d : diag)
  | Undefined.

(** The binary operators on 64-bit integers: the four operations wrap, a shift is by the
    low six bits of its right operand, and a comparison is 0 or 1. *)
Definition c_binop (op a b : Z) : Z + halt :=
  if (op =? ARITH_DIV) || (op =? ARITH_REM) then
    if bool_decide (b = 0) then inr (Halt (arith_diag (str "division by zero")))
    else if bool_decide (a = - 2 ^ 63 ∧ b = -1) then inr (Halt (arith_diag (str "divide error")))
    else inl (if op =? ARITH_DIV then Z.quot a b else Z.rem a b)
  else inl
    (if op =? ARITH_MUL then s64 (a * b)
     else if op =? ARITH_ADD then s64 (a + b)
     else if op =? ARITH_SUB then s64 (a - b)
     else if op =? ARITH_LSHIFT then s64 (a * 2 ^ (b mod 64))
     else if op =? ARITH_RSHIFT then a `div` 2 ^ (b mod 64)
     else if op =? ARITH_LT then Z.b2z (bool_decide (a < b))
     else if op =? ARITH_LE then Z.b2z (bool_decide (a <= b))
     else if op =? ARITH_GT then Z.b2z (bool_decide (a > b))
     else if op =? ARITH_GE then Z.b2z (bool_decide (a >= b))
     else if op =? ARITH_EQ then Z.b2z (bool_decide (a = b))
     else if op =? ARITH_NE then Z.b2z (bool_decide (a ≠ b))
     else if op =? ARITH_BAND then a .& b
     else if op =? ARITH_BXOR then Z.lxor a b
     else a .| b).

(** A signed result. *)
Definition signed (v : Z) : Z + halt :=
  if bool_decide (- 2 ^ 63 <= v < 2 ^ 63) then inl v else inr Undefined.
Definition c_unary (c a : Z) : Z + halt :=
  if c =? ARITH_SUB then signed (- a)
  else if c =? ARITH_NOT then inl (Z.b2z (bool_decide (a = 0)))
  else if c =? ARITH_BNOT then inl (- a - 1)
  else inl a.

(** ** Operands that are not evaluated

    The evaluator computes with rubbish while it skips an operand: the last number or
    pointer of the operand.  [negatable e]: what it computes for [e] then is not the least
    number.  [quiet e]: a negation in [e] cannot overflow then; and [calm e]: this is so of
    every operand of [e] that may be skipped. *)
Fixpoint negatable (e : expr) : bool :=
  match e with
  | ENum v => bool_decide (- 2 ^ 63 < v < 2 ^ 63)
  | EVar _ _ | EPost _ _ _ | EAnd _ _ | EOr _ _ => true
  | EPre _ _ _ => false
  | EUnary c e => (c =? ARITH_NOT) || negb (c =? ARITH_BNOT) && negatable e
  | EBin _ _ e | EAssign _ e | EAssop _ _ _ e | EComma _ e => negatable e
  | ECond _ e2 e3 => negatable e2 && negatable e3
  end.
Fixpoint quiet (e : expr) : bool :=
  match e with
  | ENum _ | EVar _ _ | EPre _ _ _ | EPost _ _ _ => true
  | EUnary c e => quiet e && (negb (c =? ARITH_SUB) || negatable e)
  | EAssign _ e | EAssop _ _ _ e => quiet e
  | EBin _ e1 e2 | EAnd e1 e2 | EOr e1 e2 | EComma e1 e2 => quiet e1 && quiet e2
  | ECond e1 e2 e3 => quiet e1 && quiet e2 && quiet e3
  end.
Fixpoint calm (e : expr) : bool :=
  match e with
  | ENum _ | EVar _ _ | EPre _ _ _ | EPost _ _ _ => true
  | EUnary _ e | EAssign _ e | EAssop _ _ _ e => calm e
  | EBin _ e1 e2 | EComma e1 e2 => calm e1 && calm e2
  | EAnd e1 e2 | EOr e1 e2 => calm e1 && calm e2 && quiet e2
  | ECond e1 e2 e3 => calm e1 && (calm e2 && quiet e2) && (calm e3 && quiet e3)
  end.

Section Spec.
Context {V : Type} {VV : Vars V} (uflag : bool) (name_addr : list Z → Z).

(** A value, or an error, with the variables it leaves. *)
Definition value : Type := V * (Z + halt).
Definition vbind (r : value) (k : Z → V → value) : value :=
  match r with (vs, inl v) => k v vs | (vs, inr h) => (vs, inr h) end.

Definition get_var (n : list Z) (line : Z) (vs : V) : value :=
  let '(text, vs) := lookupvar vs line n in
  (vs, if uflag && bool_decide (text = None) then inr (Halt (arith_diag (str "variable not set")))
       else match numeric text with
            | Some v => inl v
            | None => inr (Halt (arith_diag (str "variable contains non-numeric value")))
            end).
Definition set_var (n : list Z) (v res : Z) (vs : V) : value :=
  let '(vs, ok) := setvar vs n (print_int v) in
  (vs, if ok then inl res else inr (Halt (not_settable n))).

(** The value of an expression, its operands from left to right, those of [&&], [||] and
    [?:] only when they count. *)
Fixpoint eval (e : expr) (vs : V) : value :=
  match e with
  | ENum v => (vs, inl v)
  | EVar n l => get_var n l vs
  | EPre n l d =>
      vbind (get_var n l vs) (λ v vs, vbind (vs, signed (v + d)) (λ w vs, set_var n w w vs))
  | EPost n l d =>
      vbind (get_var n l vs) (λ v vs, vbind (vs, signed (v + d)) (λ w vs, set_var n w v vs))
  | EUnary c e => vbind (eval e vs) (λ v vs, (vs, c_unary c v))
  | EBin op e1 e2 =>
      vbind (eval e1 vs) (λ a vs, vbind (eval e2 vs) (λ b vs, (vs, c_binop op a b)))
  | EAnd e1 e2 =>
      vbind (eval e1 vs) (λ a vs,
        if truth a then vbind (eval e2 vs) (λ b vs, (vs, inl (Z.b2z (truth b))))
        else (vs, inl 0))
  | EOr e1 e2 =>
      vbind (eval e1 vs) (λ a vs,
        if truth a then (vs, inl 1)
        else vbind (eval e2 vs) (λ b vs, (vs, inl (Z.b2z (truth b)))))
  | ECond e1 e2 e3 => vbind (eval e1 vs) (λ a vs, if truth a then eval e2 vs else eval e3 vs)
  | EAssign n e => vbind (eval e vs) (λ v vs, set_var n v v vs)
  | EAssop n l op e =>
      vbind (eval e vs) (λ b vs, vbind (get_var n l vs) (λ a vs,
        vbind (vs, c_binop op a b) (λ v vs, set_var n v v vs)))
  | EComma e1 e2 => vbind (eval e1 vs) (λ _ vs, eval e2 vs)
  end.

Lemma vbind_assoc (r : value) k1 k2 :
  vbind (vbind r k1) k2 = vbind r (λ v vs, vbind (k1 v vs) k2).
Proof. by destruct r as [vs [v|d]]. Qed.
Lemma vbind_ret (r : value) : vbind r (λ v vs, (vs, inl v)) = r.
Proof. by destruct r as [vs [v|d]]. Qed.

(** ** Reading tokens *)

Lemma operator_code c s t r :
  operator c s = Some (t, r) → t ≠ 0 ∧ t ≠ ARITH_NUM ∧ t ≠ ARITH_VAR.
Proof.
  unfold operator, checkeqcur.
  repeat case_match; intros Hop; inversion Hop; subst; split_and!; vm_compute; discriminate.
Qed.

(** The end of the text stays the end. *)
Lemma token_loop_end s l r l' :
  token_loop name_addr s l = Lexeme 0 None r l' → token_loop name_addr r l' = Lexeme 0 None r l'.
Proof.
  revert l. induction s as [|c s IH]; intros l; cbn [token_loop].
  { by intros [= <- <-]. }
  destruct (isdigit c) eqn:Hd; [destruct (strtoimax (c :: s) 0) as [[v e] er], (is_in_name (peek e)); discriminate|].
  destruct (is_name c) eqn:Hn; [destruct (name_run s); discriminate|].
  destruct (c =? 10) eqn:E1; [eauto|].
  destruct ((c =? 32) || (c =? 9)) eqn:E2; [eauto|].
  destruct (c =? 0) eqn:E3.
  { intros [= <- <-]. cbn [token_loop]. by rewrite Hd, Hn, E1, E2, E3. }
  destruct (operator c s) as [[t r']|] eqn:Ho; [|done].
  apply operator_code in Ho. destruct Ho as [Ho _]. intros Hx. by inversion Hx.
Qed.

(** What the lexer makes of a name has the address of the name's copy. *)
Lemma token_loop_addr s l c n a r l' :
  token_loop name_addr s l = Lexeme c (Some (TName n a)) r l' → ∃ p, a = name_addr p.
Proof.
  revert l. induction s as [|x s IH]; intros l; cbn [token_loop]; [done|].
  destruct (isdigit x); [destruct (strtoimax (x :: s) 0) as [[v e] er]; by case_match|].
  destruct (is_name x); [destruct (name_run s); intros [= _ _ <- _ _]; eauto|].
  repeat case_match; eauto; discriminate.
Qed.

(** [ready st ts]: the evaluator has read the first token of [ts], and the rest of the
    text is the others. *)
Definition matches (v : a_token_val) (t : token) : Prop :=
  match t with
  | Op c => c ≠ 0 ∧ c ≠ ARITH_NUM ∧ c ≠ ARITH_VAR
  | Num z => v = TVal z
  | Var n a _ => v = TName n a ∧ ∃ p, a = name_addr p
  end.
Definition ready (st : astate V) (ts : list token) : Prop :=
  lexes name_addr (arith_buf st) (arith_lno st) (tail ts) ∧
  match ts with [] => True | t :: _ => matches (a_t_val st) t end.

(** [enters st l ts vs] adds the variables, and the line they are looked up at, [l] being
    the one before [ts]; [stands] that the first token of [ts] is in [last_token]. *)
Definition enters (st : astate V) (l : Z) (ts : list token) (vs : V) : Prop :=
  ready st ts ∧ arith_var_lno st = line_at l ts ∧ vars st = vs.
Definition stands (st : astate V) (l : Z) (ts : list token) (vs : V) : Prop :=
  enters st l ts vs ∧ last_token st = code ts.

Definition operand (ts : list token) : bool :=
  match ts with Num _ :: _ | Var _ _ _ :: _ => true | _ => false end.

Lemma read_lexes st ts :
  lexes name_addr (arith_buf st) (arith_lno st) ts →
  ∃ st', arith_token name_addr st = Done (code ts) st'
    ∧ enters st' (arith_var_lno st) ts (vars st) ∧ last_token st' = last_token st
    ∧ (operand ts = false → a_t_val st' = a_t_val st).
Proof.
  intros Hl. unfold arith_token, enters, ready.
  inversion Hl; subst; repeat match goal with H : token_loop _ _ _ = _ |- _ => rewrite H end;
    eexists; (split; [done|]); simpl; split_and!; try done.
  - by eapply lexes_end, token_loop_end.
  - by rewrite (proj2 (Z.eqb_neq _ _)) by done.
  - by eapply token_loop_addr.
Qed.

Lemma read_token st l t ts vs :
  enters st l (t :: ts) vs →
  ∃ st', arith_token name_addr st = Done (code ts) st'
    ∧ enters st' (line_after l t) ts vs ∧ last_token st' = last_token st
    ∧ (operand ts = false → a_t_val st' = a_t_val st).
Proof.
  intros ((Hl & _) & Hv & Hvs). simpl in Hv. rewrite <- Hv, <- Hvs. by apply read_lexes.
Qed.

(** ** Composing the levels

    [outcome_ok ne ov g r l ts vs o]: the outcome [o] is that of the evaluation [r], with
    the evaluator at the tokens [ts]; of operands that are only parsed ([ne]), the value
    is only known to satisfy [g] and the variables are as they were.  [ov] is what makes an
    overflow of such an operand possible. *)
Definition halted (h : halt) (st : astate V) : ending V Z :=
  match h with Halt d => Error d st | Undefined => Overflow end.
Definition outcome_ok (ne : bool) (ov : Prop) (g : Z → Prop) (r : value) (l : Z)
    (ts : list token) (vs : V) (o : ending V Z) : Prop :=
  (o = Overflow ∧ ov) ∨
  if ne then ∃ v st, o = Done v st ∧ stands st l ts vs ∧ g v
  else match r with
       | (vs', inl v) => ∃ st, o = Done v st ∧ stands st l ts vs'
       | (vs', inr h) => ∃ st, o = halted h st ∧ vars st = vs'
       end.

#[local] Arguments outcome_ok : simpl never.

(** The overflows and the value of a phrase, when the addresses of names are not the least
    number. *)
Definition name_safe : Prop := ∀ p, - 2 ^ 63 < name_addr p < 2 ^ 63.
Definition upset (ne : bool) (e : expr) : Prop :=
  name_safe → (if ne then quiet e else calm e) = false.
Definition tame (e : expr) (v : Z) : Prop :=
  name_safe → negatable e = true → - 2 ^ 63 < v < 2 ^ 63.

(** What is known of a value that has been computed. *)
Definition has_value (ne : bool) (g : Z → Prop) (r : value) (vs : V) (v : Z) (vs' : V) : Prop :=
  if ne then vs' = vs ∧ g v else r = (vs', inl v).

Lemma halted_bind h (k : Z → M V Z) st : (match halted h st with
  | Done v st' => k v st' | Error d st' => Error d st' | Overflow => Overflow
  | Wild => Wild | OutOfFuel => OutOfFuel end) = halted h st.
Proof. by destruct h. Qed.

Lemma ok_bind ne (ov1 ov : Prop) g1 g r R l1 ts1 l2 ts2 vs (m : M V Z) (k : Z → M V Z) st :
  outcome_ok ne ov1 g1 r l1 ts1 vs (m st) → (ov1 → ov) →
  (∀ v st1 vs1, stands st1 l1 ts1 vs1 → has_value ne g1 r vs v vs1 →
     outcome_ok ne ov g (R v vs1) l2 ts2 vs1 (k v st1)) →
  outcome_ok ne ov g (vbind r R) l2 ts2 vs ((m ≫= k) st).
Proof.
  unfold has_value, mbind, M_bind. intros [[-> Hov]|Hm] Hi Hk; [left; auto|]. destruct ne.
  - destruct Hm as (v & st1 & -> & Hst & Hg). by eapply Hk.
  - destruct r as [vs' [v|h]]; destruct Hm as (st1 & -> & Hst); simpl; [by eapply Hk|].
    right. exists st1. by rewrite halted_bind.
Qed.

Lemma ok_ret ne ov (g : Z → Prop) v l ts vs vs' st :
  stands st l ts vs' → (ne = true → vs' = vs ∧ g v) →
  outcome_ok ne ov g (vs', inl v) l ts vs ((mret v : M V Z) st).
Proof.
  unfold outcome_ok. intros Hs Hv. right.
  destruct ne; [destruct (Hv eq_refl) as [<- ?]|]; eauto.
Qed.

(** The middle of a binary level: the operator has been read, and its right operand is
    entered. *)
Lemma ok_advance ne ov g r l c t ts l2 ts2 vs (k : Z → a_token_val → Z → M V Z) st :
  stands st l (Op c :: t :: ts) vs →
  (∀ val st2, matches val t → enters st2 (line_after l t) ts vs →
     outcome_ok ne ov g r l2 ts2 vs (k (tcode t) val (code ts) st2)) →
  outcome_ok ne ov g r l2 ts2 vs
    ((tok ← arith_token name_addr; val ← get_val; op ← arith_token name_addr; k tok val op) st).
Proof.
  intros (He & _) Hk. unfold mbind, M_bind.
  destruct (read_token _ _ _ _ _ He) as (st1 & -> & He1 & _ & _). simpl.
  destruct (read_token _ _ _ _ _ He1) as (st2 & -> & He2 & _ & _).
  apply Hk; [|done]. apply He1.
Qed.

(** ** Variables *)

Definition with_vars (st : astate V) (vs : V) : astate V :=
  AState (arith_buf st) (a_t_val st) (last_token st) (arith_lno st) (arith_var_lno st) vs.

Lemma decimal_digits_short fuel v acc : (length (decimal_digits fuel v acc) <= fuel + length acc)%nat.
Proof.
  revert v acc. induction fuel as [|fuel IH]; intros v acc; simpl; [done|].
  case_match; simpl; [lia|]. etrans; [apply IH|]. simpl. lia.
Qed.

Lemma print_int_short v : (length (print_int v) <= 21)%nat.
Proof.
  unfold print_int, print_uint. pose proof (λ w, decimal_digits_short 20 w []) as Hs.
  cbn [length] in Hs. case_match; cbn [length]; [pose proof (Hs (- v))|pose proof (Hs v)]; lia.
Qed.

(** Every number fits in [sresult]. *)
Lemma format_result_ok v : format_result v = Ok (print_int v).
Proof.
  unfold format_result. pose proof (print_int_short v). change (DIGITS + 1) with 26.
  rewrite snprintf_fits by (rewrite ?length_replicate; lia). cbn [res_bind].
  by rewrite cstr_nul by apply print_int_nonzero.
Qed.

Lemma lookup_run n st :
  arith_lookupvarint uflag n st =
    match get_var n (arith_var_lno st) (vars st) with
    | (vs, inl v) => Done v (with_vars st vs)
    | (vs, inr h) => halted h (with_vars st vs)
    end.
Proof.
  unfold arith_lookupvarint, get_var. destruct (lookupvar _ _ _) as [text vs].
  unfold mbind, M_bind, set_vars. destruct (uflag && _); [done|]. by destruct (numeric text).
Qed.

Lemma setvarint_run n v res st :
  (_ ← setvarint n v; (mret res : M V Z)) st =
    match set_var n v res (vars st) with
    | (vs, inl r) => Done r (with_vars st vs)
    | (vs, inr h) => halted h (with_vars st vs)
    end.
Proof.
  unfold setvarint, set_var, mbind, M_bind. rewrite format_result_ok.
  by destruct (setvar _ _ _) as [vs []].
Qed.

Lemma intmax_run z st :
  intmax z st = match signed z with inl v => Done v st | inr h => halted h st end.
Proof.
  unfold intmax, signed, INTMAX_MIN, INTMAX_MAX. case_bool_decide; Zcases; simpl; done || lia.
Qed.

Lemma enters_vars st l ts vs vs' : enters st l ts vs → enters (with_vars st vs') l ts vs'.
Proof. unfold enters. naive_solver. Qed.

(** The tokens that can follow a phrase: a level is followed by the operators of higher
    levels only. *)
Definition rank (c : Z) : Z :=
  if is_binop c then arith_prec c
  else if c =? ARITH_AND then 8
  else if c =? ARITH_OR then 9
  else if c =? ARITH_QMARK then 10
  else if c =? ARITH_COMMA then 12
  else if (c =? ARITH_COLON) || (c =? ARITH_RPAREN) || (c =? 0) then 13
  else -1.
Definition stop (L : Z) : Z :=
  if L <=? 0 then 0 else if L <=? 8 then L - 1 else if L <=? 12 then L else 12.

Lemma arith_prec_range op : 0 <= arith_prec op <= 7.
Proof. unfold arith_prec. repeat case_match; lia. Qed.

Lemma rank_not c d : rank d < rank c → c ≠ d.
Proof. intros H ->. lia. Qed.

Lemma rank_head l ts : 0 <= rank (code ts) → operand ts = false ∧ line_at l ts = l.
Proof. destruct ts as [|[c|v|n a k]]; simpl; try done; cbv; intros H; by contradict H. Qed.

Lemma rank_simple c : 0 <= rank c → is_incr c = false ∧ is_assop c = false ∧ c ≠ ARITH_ASS.
Proof.
  unfold rank, is_incr, is_assop, is_binop, ARITH_ASS, ARITH_ASS_MIN, ARITH_ASS_MAX, ARITH_BINOP_MAX, ARITH_BINOP_MIN, ARITH_INCR,
    ARITH_DECR, ARITH_AND, ARITH_OR, ARITH_QMARK, ARITH_COMMA, ARITH_COLON, ARITH_RPAREN.
  intros H. Zcases; simpl in *; subst; try lia; done.
Qed.

Definition climb (fuel : nat) (K a : Z) (ne : bool) : M V Z :=
  op ← get_last;
  if is_binop op && (arith_prec op <? K) then binop2 uflag name_addr fuel a op K ne else mret a.

Lemma climb_stop fuel K a ne st : K <= rank (last_token st) → climb fuel K a ne st = Done a st.
Proof.
  unfold climb, rank, mbind, M_bind, get_last. intros H.
  destruct (is_binop (last_token st)); simpl; [|done].
  by rewrite (proj2 (Z.ltb_ge _ _)) by lia.
Qed.

Lemma bind_assoc {A B C} (m : M V A) (f : A → M V B) (g : B → M V C) st :
  ((m ≫= f) ≫= g) st = (m ≫= (λ a, f a ≫= g)) st.
Proof. unfold mbind, M_bind. by destruct (m st). Qed.

Lemma bind_ext {A B} (m : M V A) (f g : A → M V B) st :
  (∀ a st', f a st' = g a st') → (m ≫= f) st = (m ≫= g) st.
Proof. unfold mbind, M_bind. intros H. by destruct (m st). Qed.

Lemma binop_climb fuel t val op ne st :
  binop uflag name_addr (S fuel) t val op ne st =
    (a ← primary uflag name_addr fuel t val op ne; climb fuel 8 a ne) st.
Proof.
  cbn [binop]. apply bind_ext. intros a st'. unfold climb. apply bind_ext. intros o st2.
  pose proof (arith_prec_range o).
  rewrite (proj2 (Z.ltb_lt (arith_prec o) 8)) by lia. by destruct (is_binop o).
Qed.

Lemma is_binop_cases op :
  is_binop op = true →
  op ∈ [ARITH_LE; ARITH_GE; ARITH_LT; ARITH_GT; ARITH_EQ; ARITH_REM; ARITH_BAND;
    ARITH_LSHIFT; ARITH_RSHIFT; ARITH_MUL; ARITH_ADD; ARITH_BOR; ARITH_SUB; ARITH_BXOR;
    ARITH_DIV; ARITH_NE].
Proof.
  unfold is_binop, ARITH_BINOP_MIN, ARITH_BINOP_MAX. intros Hop.
  apply andb_prop in Hop as [?%Z.leb_le ?%Z.ltb_lt].
  assert (op = Z.of_nat (Z.to_nat op)) as -> by lia.
  assert (Z.to_nat op < 24)%nat as Hlt by lia. assert (8 <= Z.to_nat op)%nat as Hge by lia.
  revert Hlt Hge. generalize (Z.to_nat op). intros n Hlt Hge.
  do 24 (destruct n as [|n]; [try lia; apply (bool_decide_unpack _); by vm_compute|]). lia.
Qed.

(** The table [prec] has the precedences of ISO C. *)
Lemma arith_prec_c op : is_binop op = true → arith_prec op = c_prec op.
Proof.
  intros Hin%is_binop_cases.
  repeat (apply elem_of_cons in Hin as [->|Hin]; [by vm_compute|]). by apply elem_of_nil in Hin.
Qed.

Lemma do_binop_run op a b (st : astate V) :
  is_binop op = true →
  do_binop op a b st = match c_binop op a b with inl v => Done v st | inr h => halted h st end.
Proof.
  intros Hin%is_binop_cases. unfold do_binop, c_binop.
  assert (b .& 63 = b mod 64) as Hland by (change 63 with (Z.ones 6); by rewrite Z.land_ones).
  assert (0 <= b mod 64) by (apply Z.mod_pos_bound; lia).
  repeat (apply elem_of_cons in Hin as [->|Hin]); [..|by apply elem_of_nil in Hin];
    cbn -[INTMAX_MIN s64 Z.shiftl Z.shiftr Z.land Z.lor Z.lxor Z.rem Z.quot bool_decide Z.pow Z.modulo Z.div];
    rewrite ?Hland, ?Z.shiftl_mul_pow2, ?Z.shiftr_div_pow2 by done; try done;
    unfold halted; repeat case_bool_decide; Zcases; simpl; try done; try lia;
    unfold INTMAX_MIN in *; exfalso; naive_solver lia.
Qed.

Lemma binop2_climb fuel a op K ne st :
  is_binop op = true →
  binop2 uflag name_addr (S fuel) a op K ne st =
    (tok ← arith_token name_addr; val ← get_val; op2 ← arith_token name_addr;
     b ← (b ← primary uflag name_addr fuel tok val op2 ne; climb fuel (arith_prec op) b ne);
     a ← (if ne then mret b else do_binop op a b);
     climb fuel K a ne) st.
Proof.
  intros Hop. cbn [binop2]. do 3 (apply bind_ext; intros ? ?). rewrite bind_assoc.
  apply bind_ext. intros b st1. unfold climb. rewrite bind_assoc.
  apply bind_ext. intros o st2. unfold higher_prec.
  apply bind_ext. intros b' st3. unfold get_last, mbind, M_bind.
  assert (∀ v s, (if negb (is_binop (last_token s)) || (K <=? arith_prec (last_token s))
            then mret v else binop2 uflag name_addr fuel v (last_token s) K ne) s =
          (if is_binop (last_token s) && (arith_prec (last_token s) <? K)
           then binop2 uflag name_addr fuel v (last_token s) K ne else mret v) s) as Heq.
  { intros v s. rewrite Z.ltb_antisym. destruct (is_binop (last_token s)); [|done]. simpl.
    by destruct (K <=? _). }
  destruct ne; [apply Heq|]. rewrite do_binop_run by done.
  destruct (c_binop op a b') as [v|h]; [apply Heq|by destruct h].
Qed.

(** ** The evaluator follows the grammar *)

Lemma derives_nonempty L ts e : derives L ts e → ∃ t ts', ts = t :: ts'.
Proof.
  induction 1; eauto; repeat match goal with H : ∃ _, _ |- _ => destruct H end; subst;
    simpl; eauto.
Qed.

(** A phrase that is no assignment has no assignment operator after its first
    variable. *)
Lemma derives_second L ts e rest :
  derives L ts e → L <= 11 → 0 <= rank (code rest) →
  match ts ++ rest with
  | Var _ _ _ :: ts' => code ts' ≠ ARITH_ASS ∧ is_assop (code ts') = false
  | _ => True
  end.
Proof.
  intros Hd. revert rest. induction Hd; intros rest HL Hr; simpl; try done; try lia.
  - pose proof (rank_simple (code rest) Hr). naive_solver.
  - destruct (orb_prop _ _ H) as [->%Z.eqb_eq| ->%Z.eqb_eq]; (split; [discriminate|done]).
  - rewrite <- app_assoc. rewrite <- arith_prec_c in * by done.
    apply IHHd1; [lia|]. simpl. unfold rank. rewrite H.
    pose proof (arith_prec_range op). lia.
  - rewrite <- app_assoc. by apply IHHd1.
  - rewrite <- app_assoc. by apply IHHd1.
  - rewrite <- app_assoc. by apply IHHd1.
  - apply IHHd; [lia|done].
Qed.

(** What a level that is given the current token, its value and the next token does on a
    phrase [ts] followed by tokens of rank [s] at least. *)
Definition level_ok (f : nat → Z → a_token_val → Z → bool → M V Z) (c : nat) (s : Z)
    (ts : list token) (e : expr) : Prop :=
  ∀ fuel ne t ts' rest l vs val st,
    ts = t :: ts' → matches val t → enters st (line_after l t) (ts' ++ rest) vs →
    s <= rank (code rest) → (10 * length ts + c <= fuel)%nat →
    outcome_ok ne (upset ne e) (tame e) (eval e vs) (last_line l ts) rest vs
      (f fuel (tcode t) val (code (ts' ++ rest)) ne st).

(** A binary phrase is evaluated as far as the loop over the operators after it. *)
Definition binary_ok (L : Z) (ts : list token) (e : expr) : Prop :=
  ∀ K fuel ne (ov : Prop) g t ts' rest l vs val st r l2 ts2,
    ts = t :: ts' → matches val t → enters st (line_after l t) (ts' ++ rest) vs →
    stop L <= rank (code rest) → L <= K <= 8 → (10 * length ts + 1 <= fuel)%nat →
    (upset ne e → ov) →
    (∀ v st1 vs1 fuel1, stands st1 (last_line l ts) rest vs1 →
       has_value ne (tame e) (eval e vs) vs v vs1 → (fuel <= fuel1 + 10 * length ts)%nat →
       outcome_ok ne ov g (r v vs1) l2 ts2 vs1 (climb fuel1 K v ne st1)) →
    outcome_ok ne ov g (vbind (eval e vs) r) l2 ts2 vs
      ((a ← primary uflag name_addr fuel (tcode t) val (code (ts' ++ rest)) ne;
        climb fuel K a ne) st).

(** Assignments and comma expressions are given the current token only. *)
Definition assignment_ok (ts : list token) (e : expr) : Prop :=
  ∀ fuel ne rest l vs st,
    enters st l (ts ++ rest) vs → stop 12 <= rank (code rest) → (10 * length ts + 6 <= fuel)%nat →
    outcome_ok ne (upset ne e) (tame e) (eval e vs) (last_line l ts) rest vs
      (assignment uflag name_addr fuel (code (ts ++ rest)) ne st).
Definition comma_ok (ts : list token) (e : expr) : Prop :=
  ∀ fuel ne (ov : Prop) g rest l vs st r l2 ts2,
    enters st l (ts ++ rest) vs → stop 13 <= rank (code rest) → (10 * length ts + 7 <= fuel)%nat →
    (upset ne e → ov) →
    (∀ v st1 vs1 fuel1, stands st1 (last_line l ts) rest vs1 →
       has_value ne (tame e) (eval e vs) vs v vs1 → (fuel <= fuel1 + 10 * length ts)%nat →
       outcome_ok ne ov g (r v vs1) l2 ts2 vs1 (comma_loop uflag name_addr fuel1 v ne st1)) →
    outcome_ok ne ov g (vbind (eval e vs) r) l2 ts2 vs
      (comma_list uflag name_addr fuel (code (ts ++ rest)) ne st).

Definition phrase_ok (L : Z) (ts : list token) (e : expr) : Prop :=
  (L = 0 → level_ok (primary uflag name_addr) 1 0 ts e)
  ∧ (0 <= L <= 8 → binary_ok L ts e)
  ∧ (L = 9 → level_ok (and uflag name_addr) 3 9 ts e)
  ∧ (L = 10 → level_ok (or uflag name_addr) 4 10 ts e)
  ∧ (L = 11 → level_ok (cond uflag name_addr) 5 11 ts e)
  ∧ (L = 12 → assignment_ok ts e)
  ∧ (L = 13 → comma_ok ts e).

(** *** Unary expressions *)

(** The overflows of a phrase are those of its operands. *)
Lemma upset_of (ne ne2 : bool) (e1 e2 : expr) :
  ((if ne then quiet e1 else calm e1) = true → (if ne2 then quiet e2 else calm e2) = true) →
  upset ne2 e2 → upset ne e1.
Proof.
  unfold upset. intros Himp H Hn. specialize (H Hn).
  destruct (if ne then quiet e1 else calm e1); [|done]. by rewrite Himp in H.
Qed.
Ltac calmer := apply upset_of; simpl; repeat (case_match; simpl); rewrite ?andb_true_iff; try done; tauto.

Lemma ok_set_last ne ov (g : Z → Prop) v l ts vs vs' st :
  enters st l ts vs → (ne = true → vs = vs' ∧ g v) →
  outcome_ok ne ov g (vs, inl v) l ts vs' ((_ ← set_last (code ts); (mret v : M V Z)) st).
Proof.
  intros He Hv. unfold mbind, M_bind, set_last. apply (ok_ret ne ov g v l ts vs' vs); [|naive_solver].
  split; [apply He|done].
Qed.

Lemma num_ok v : level_ok (primary uflag name_addr) 1 0 [Num v] (ENum v).
Proof.
  intros [|fuel] ne t ts' rest l vs val st [= <- <-] Hm He Hr Hf; [simpl in *; lia|].
  simpl in Hm. subst val. cbn [primary app tcode]. apply ok_set_last; [done|]. intros _.
  split; [done|]. intros _ Hv. by apply bool_decide_eq_true in Hv.
Qed.

(** Reading a variable, and the rest of the phrase with its value. *)
Lemma lookup_bind (ov : Prop) (g : Z → Prop) n l1 vs (k : Z → M V Z) r l ts st :
  vars st = vs → arith_var_lno st = l1 →
  (∀ v vs1, get_var n l1 vs = (vs1, inl v) →
     outcome_ok false ov g (r v vs1) l ts vs1 (k v (with_vars st vs1))) →
  outcome_ok false ov g (vbind (get_var n l1 vs) r) l ts vs ((arith_lookupvarint uflag n ≫= k) st).
Proof.
  intros <- <- Hk. unfold mbind, M_bind. rewrite lookup_run.
  destruct (get_var _ _ _) as [vs1 [v|h]]; simpl; [by apply Hk|]. rewrite halted_bind.
  right. by eexists.
Qed.

(** The result of signed arithmetic. *)
Lemma intmax_bind (ov : Prop) (g : Z → Prop) v (k : Z → M V Z) r l ts vs st :
  vars st = vs →
  (∀ w, signed v = inl w → outcome_ok false ov g (r w vs) l ts vs (k w st)) →
  outcome_ok false ov g (match signed v with inl w => r w vs | inr h => (vs, inr h) end)
    l ts vs ((intmax v ≫= k) st).
Proof.
  intros <- Hk. unfold mbind, M_bind. rewrite intmax_run.
  destruct (signed v) as [w|h]; simpl; [by apply Hk|]. rewrite halted_bind.
  right. by eexists.
Qed.

Lemma setvar_ok (ov : Prop) (g : Z → Prop) n v res l ts vs st :
  stands st l ts vs →
  outcome_ok false ov g (set_var n v res vs) l ts vs ((_ ← setvarint n v; (mret res : M V Z)) st).
Proof.
  intros [He Hl]. rewrite setvarint_run. destruct He as (Hr & Hv & Hvs). rewrite Hvs.
  destruct (set_var _ _ _ _) as [vs1 [u|h]]; right; eexists; (split; [done|]); [|done].
  done.
Qed.

Lemma get_bind {A} (k : a_token_val → M V A) st : (get_val ≫= k) st = k (a_t_val st) st.
Proof. done. Qed.
Lemma ret_bind {A B} (a : A) (k : A → M V B) st : (mret a ≫= k) st = k a st.
Proof. done. Qed.

Lemma var_ok n a k : level_ok (primary uflag name_addr) 1 0 [Var n a k] (EVar n k).
Proof.
  intros [|fuel] ne t ts' rest l vs val st [= <- <-] Hm He Hr Hf; [simpl in *; lia|].
  destruct Hm as [-> [p Hp]]. cbn [primary app tcode]. cbn -[code].
  destruct (rank_simple _ Hr) as (Hi & _ & _). unfold is_incr in Hi. rewrite Hi.
  destruct ne.
  { apply (ok_set_last true _ _ a k rest vs vs); [done|]. intros _. split; [done|].
    intros Hsafe _. rewrite Hp. apply Hsafe. }
  destruct He as (Hrd & Hv & Hvs). destruct (rank_head k rest Hr) as [_ Hl].
  simpl. rewrite <- (vbind_ret (get_var n k vs)).
  apply lookup_bind; [done|by rewrite Hv|]. intros v vs1 _.
  apply ok_set_last; [|done]. by apply (enters_vars _ _ _ vs).
Qed.

Lemma incr_operator c : is_incr c = true → c = ARITH_INCR ∨ c = ARITH_DECR.
Proof. intros [->%Z.eqb_eq| ->%Z.eqb_eq]%orb_prop; auto. Qed.

(** Moving past a token, as the last thing a phrase does. *)
Lemma ok_next ne (ov : Prop) (g : Z → Prop) r l t ts vs vs0 st (k : M V Z) l2 ts2 :
  enters st l (t :: ts) vs →
  (∀ st1, stands st1 (line_after l t) ts vs →
     (operand ts = false → a_t_val st1 = a_t_val st) → outcome_ok ne ov g r l2 ts2 vs0 (k st1)) →
  outcome_ok ne ov g r l2 ts2 vs0
    ((tok ← arith_token name_addr; _ ← set_last tok; k) st).
Proof.
  intros He Hk. unfold mbind, M_bind.
  destruct (read_token _ _ _ _ _ He) as (st1 & -> & He1 & _ & Hv). unfold set_last.
  apply Hk; [split; [apply He1|done]|done].
Qed.

Lemma post_ok c n a k :
  is_incr c = true →
  level_ok (primary uflag name_addr) 1 0 [Var n a k; Op c] (EPost n k (incr_step c)).
Proof.
  intros Hc [|fuel] ne t ts' rest l vs val st [= <- <-] Hm He Hr Hf; [simpl in *; lia|].
  destruct Hm as [-> [p Hp]]. cbn [primary app tcode code]. unfold is_incr in Hc. rewrite Hc.
  cbn -[code incr_step eval mbind mret]. destruct ne.
  - rewrite ret_bind. eapply ok_next; [done|]. intros st1 Hst _.
    apply (ok_ret true _ _ _ _ _ vs vs); [done|]. intros _. split; [done|].
    intros Hsafe _. rewrite Hp. apply Hsafe.
  - simpl eval. destruct He as (Hrd & Hv & Hvs). apply lookup_bind; [done|done|].
    intros v vs1 _. eapply (ok_next false); [by split_and!|]. intros st1 Hst _.
    rewrite ret_bind. apply (intmax_bind _ _ (v + incr_step c) _ (λ w, set_var n w v)); [apply Hst|].
    intros w _. by apply setvar_ok.
Qed.

Lemma pre_ok c n a k :
  is_incr c = true →
  level_ok (primary uflag name_addr) 1 0 [Op c; Var n a k] (EPre n k (incr_step c)).
Proof.
  intros Hc [|fuel] ne t ts' rest l vs val st [= <- <-] Hm He Hr Hf; [simpl in *; lia|].
  destruct (rank_head k rest Hr) as [Ho Hl].
  assert (primary uflag name_addr (S fuel) c val ARITH_VAR ne st =
    (t ← arith_token name_addr; _ ← set_last t;
     if ne then mret (val_of val) else
     v ← get_val; n ← name_of v; result ← arith_lookupvarint uflag n;
     result ← intmax (result + incr_step c);
     v ← get_val; n ← name_of v; _ ← setvarint n result; mret result) st) as Heq.
  { by destruct (incr_operator c Hc) as [-> | ->]. }
  cbn [app tcode code]. rewrite Heq. eapply ok_next; [done|]. intros st1 Hst Hval.
  specialize (Hval Ho). destruct He as ((_ & Hm1) & Hv & Hvs). destruct Hm1 as [Hm1 _].
  destruct ne; [by eapply (ok_ret true _ _ (val_of val))|].
  simpl eval. rewrite get_bind, Hval, Hm1. cbn [name_of]. rewrite ret_bind.
  apply lookup_bind; [apply Hst|destruct Hst as [(_ & -> & _) _]; done|].
  intros v vs1 _. apply (intmax_bind _ _ (v + incr_step c) _ (λ w, set_var n w w)); [done|]. intros w _.
  rewrite get_bind. cbn [a_t_val with_vars]. rewrite Hval, Hm1.
  cbn [name_of]. rewrite ret_bind. apply (setvar_ok _ _ n _ _ k rest vs1 (with_vars st1 vs1)).
  destruct Hst as [He1 Hlast]. split; [by eapply enters_vars|done].
Qed.

Lemma last_line_app l ts1 ts2 : last_line l (ts1 ++ ts2) = last_line (last_line l ts1) ts2.
Proof. apply foldl_app. Qed.

Lemma get_last_bind {A} (k : Z → M V A) st l ts vs :
  stands st l ts vs → (get_last ≫= k) st = k (code ts) st.
Proof. intros [_ <-]. done. Qed.

(** Entering a level: the value of the current token is kept, and the next one read. *)
Lemma ok_enter ne (ov : Prop) (g : Z → Prop) r l t ts l2 ts2 vs vs0
    (k : a_token_val → Z → M V Z) st :
  enters st l (t :: ts) vs →
  (∀ val st2, matches val t → enters st2 (line_after l t) ts vs →
     outcome_ok ne ov g r l2 ts2 vs0 (k val (code ts) st2)) →
  outcome_ok ne ov g r l2 ts2 vs0 ((val ← get_val; op ← arith_token name_addr; k val op) st).
Proof.
  intros He Hk. rewrite get_bind. unfold mbind, M_bind.
  destruct (read_token _ _ _ _ _ He) as (st2 & -> & He2 & _). apply Hk; [apply He|done].
Qed.

(** A phrase that is parsed for nothing. *)
Lemma ok_skip ne (ov1 ov : Prop) g1 g r r2 l ts l2 ts2 vs (m : M V Z) (k : Z → M V Z) st :
  outcome_ok true ov1 g1 r l ts vs (m st) → (ov1 → ov) →
  (∀ v st1, stands st1 l ts vs → g1 v → outcome_ok ne ov g r2 l2 ts2 vs (k v st1)) →
  outcome_ok ne ov g r2 l2 ts2 vs ((m ≫= k) st).
Proof.
  unfold mbind, M_bind. intros [[-> Hov]|(v & st1 & Hm & Hs & Hg)] Hi Hk; [left; auto|].
  rewrite Hm. by apply Hk.
Qed.

Lemma ok_parsed ov g r r' l ts vs o :
  outcome_ok true ov g r l ts vs o → outcome_ok true ov g r' l ts vs o.
Proof. done. Qed.

(** The evaluation of an operand that gives the value of the whole. *)
Lemma ok_mono ne (ov1 ov : Prop) (g1 g : Z → Prop) r l ts vs o :
  outcome_ok ne ov1 g1 r l ts vs o → (ov1 → ov) → (∀ v, ne = true → g1 v → g v) →
  outcome_ok ne ov g r l ts vs o.
Proof.
  intros [[-> ?]|H] Hi Hg; [left; auto|right]. destruct ne; [|done].
  destruct H as (v & st & -> & Hs & Hv). eauto 10.
Qed.

(** The value of a phrase is that of the last thing evaluated. *)
Lemma ok_done ne ov g r l ts vs v vs1 st :
  stands st l ts vs1 → has_value ne g r vs v vs1 →
  outcome_ok ne ov g (vs1, inl v) l ts vs1 ((mret v : M V Z) st).
Proof.
  intros Hs Hv. apply (ok_ret ne _ _ _ _ _ vs1 vs1); [done|]. intros ->. by destruct Hv.
Qed.

Lemma ok_value ne (ov1 ov : Prop) (g1 g : Z → Prop) r l ts vs (m : M V Z) st f :
  outcome_ok ne ov1 g1 r l ts vs (m st) → (ov1 → ov) → (∀ v, ne = true → g1 v → g (f v)) →
  outcome_ok ne ov g (vbind r (λ v vs, (vs, inl (f v)))) l ts vs ((v ← m; mret (f v)) st).
Proof.
  intros H Hi Hg. eapply ok_bind; [done..|]. intros v st1 vs1 Hs Hv.
  apply (ok_ret ne _ _ _ _ _ vs1 vs1); [done|]. intros ->. split; [done|]. apply Hg; [done|].
  by destruct Hv.
Qed.

Lemma bind_ret_r {A} (m : M V A) st : (a ← m; mret a) st = m st.
Proof. unfold mbind, M_bind. by destruct (m st). Qed.

(** A negation: it may overflow when its operand is only parsed. *)
Lemma negation_ok ne ts l vs e (m : M V Z) st :
  outcome_ok ne (upset ne e) (tame e) (eval e vs) l ts vs (m st) →
  outcome_ok ne (upset ne (EUnary ARITH_SUB e)) (tame (EUnary ARITH_SUB e))
    (eval (EUnary ARITH_SUB e) vs) l ts vs ((r ← m; intmax (- r)) st).
Proof.
  intros H. simpl eval. eapply ok_bind; [done|calmer|]. intros v st1 vs1 Hs Hv.
  rewrite intmax_run. change (c_unary ARITH_SUB v) with (signed (- v)).
  destruct ne; [destruct Hv as [-> Hv]|].
  - unfold signed. case_bool_decide as Hr; [right|left; split; [done|]].
    + exists (- v), st1. split_and!; [done|done|]. intros Hsafe Hn. specialize (Hv Hsafe Hn). lia.
    + intros Hsafe. simpl. destruct (quiet e); [|done]. destruct (negatable e) eqn:Hn; [|done].
      specialize (Hv Hsafe Hn). lia.
  - right. destruct (signed (- v)); exists st1; split; try done. apply Hs.
Qed.

Lemma unary_ok c ts e :
  is_unary c = true → ts ≠ [] → level_ok (primary uflag name_addr) 1 0 ts e →
  level_ok (primary uflag name_addr) 1 0 (Op c :: ts) (EUnary c e).
Proof.
  intros Hc Hts IH [|fuel] ne t ts' rest l vs val st [= <- <-] Hm He Hr Hf; [simpl in *; lia|].
  destruct ts as [|t ts]; [done|].
  assert (c = ARITH_ADD ∨ c = ARITH_SUB ∨ c = ARITH_NOT ∨ c = ARITH_BNOT) as Hcs.
  { unfold is_unary in Hc. rewrite !orb_true_iff, !Z.eqb_eq in Hc. naive_solver. }
  assert (∀ val2 st2, matches val2 t → enters st2 (line_after l t) (ts ++ rest) vs →
    outcome_ok ne (upset ne e) (tame e) (eval e vs) (last_line l (t :: ts)) rest vs
      (primary uflag name_addr fuel (tcode t) val2 (code (ts ++ rest)) ne st2)) as Hop.
  { intros val2 st2 Hm2 He2. apply IH; try done. simpl in *; lia. }
  clear IH Hc Hm. cbn [app tcode code].
  destruct Hcs as [-> |[-> |[-> | ->]]]; cbn -[mbind mret primary eval upset tame]; cbn [primary];
    cbn -[mbind mret primary eval upset tame]; (eapply ok_enter; [done|]); intros val2 st2 Hm2 He2.
  - rewrite <- bind_ret_r. simpl eval. eapply (ok_value _ _ _ _ _ _ _ _ _ _ _ id); [by apply Hop|calmer|done].
  - by apply negation_ok, Hop.
  - simpl eval. eapply ok_bind; [by apply Hop|calmer|]. intros v st1 vs1 Hs Hv.
    assert (c_unary ARITH_NOT v = inl (c_lnot v)) as ->.
    { unfold c_unary, c_lnot. cbn. by case_bool_decide; Zcases. }
    apply (ok_ret _ _ _ _ _ _ vs1 vs1); [done|]. intros ->. split; [done|].
    intros _ _. unfold c_lnot. by destruct (v =? 0).
  - simpl eval. eapply ok_bind; [by apply Hop|calmer|]. intros v st1 vs1 Hs Hv.
    assert (c_unary ARITH_BNOT v = inl (Z.lnot v)) as ->.
    { unfold c_unary. cbn -[Z.sub Z.lnot]. unfold Z.lnot. by rewrite Z.sub_1_r. }
    by apply (ok_ret _ _ _ _ _ _ vs1 vs1).
Qed.

Lemma comma_simple ts e fuel ne rest l vs st :
  comma_ok ts e → enters st l (ts ++ rest) vs → rank (code rest) = 13 →
  (10 * length ts + 8 <= fuel)%nat →
  outcome_ok ne (upset ne e) (tame e) (eval e vs) (last_line l ts) rest vs
    (comma_list uflag name_addr fuel (code (ts ++ rest)) ne st).
Proof.
  intros IH He Hr Hf. rewrite <- (vbind_ret (eval e vs)).
  apply (IH fuel ne _ _ rest l vs st); [done|rewrite Hr; by vm_compute|lia|done|].
  intros v st1 vs1 [|fuel1] Hs Hv Hf1; [lia|]. cbn [comma_loop].
  rewrite (get_last_bind _ _ _ _ _ Hs).
  rewrite (proj2 (Z.eqb_neq (code rest) ARITH_COMMA)) by (intros Heq; by rewrite Heq in Hr).
  by apply (ok_done ne _ _ (eval e vs) _ _ vs).
Qed.

Lemma paren_ok ts e :
  comma_ok ts e →
  level_ok (primary uflag name_addr) 1 0 (Op ARITH_LPAREN :: ts ++ [Op ARITH_RPAREN]) e.
Proof.
  intros IH [|fuel] ne t ts' rest l vs val st [= <- <-] Hm He Hr Hf; [simpl in *; lia|].
  simpl in Hf. rewrite length_app in Hf. simpl in Hf. simpl last_line. rewrite last_line_app.
  cbn [primary tcode]. cbn -[comma_list outcome_ok mbind mret].
  rewrite <- app_assoc in *. rewrite <- (vbind_ret (eval e vs)).
  eapply ok_bind; [eapply (comma_simple ts e); [done|done|done|lia]|done|].
  intros v st1 vs1 Hs Hv. rewrite (get_last_bind _ _ _ _ _ Hs). simpl negb. cbn iota.
  eapply ok_next; [apply Hs|]. intros st2 Hs2 _. by eapply ok_done.
Qed.

(** *** Binary operators *)

Lemma binary_base ts e : level_ok (primary uflag name_addr) 1 0 ts e → binary_ok 0 ts e.
Proof.
  intros IH K fuel ne ov g t ts' rest l vs val st r l2 ts2 Hts Hm He Hr HK Hf Hi Hk.
  eapply ok_bind; [by eapply IH|done|]. intros v st1 vs1 Hs Hv. apply Hk; [done|done|lia].
Qed.

Lemma binary_up L ts e : 0 <= L < 8 → binary_ok L ts e → binary_ok (L + 1) ts e.
Proof.
  intros HL IH K fuel ne ov g t ts' rest l vs val st r l2 ts2 Hts Hm He Hr HK Hf Hi Hk.
  eapply IH; try done; [|lia]. revert Hr. unfold stop. Zcases; lia.
Qed.

Lemma binary_bin op ts1 ts2 e1 e2 t2 ts2' :
  is_binop op = true → ts1 ≠ [] → ts2 = t2 :: ts2' →
  binary_ok (arith_prec op + 1) ts1 e1 → binary_ok (arith_prec op) ts2 e2 →
  binary_ok (arith_prec op + 1) (ts1 ++ Op op :: ts2) (EBin op e1 e2).
Proof.
  intros Hop Hne Hts2 IH1 IH2 K fuel ne ov g t ts' rest l vs val st r l2 ts3 Hts Hm He Hr HK Hf Hi Hk.
  destruct ts1 as [|t1 ts1]; [done|]. simplify_eq/=. rewrite length_app in Hf. simpl in Hf.
  rewrite vbind_assoc. rewrite <- app_assoc in *. simpl app in *.
  assert (rank op = arith_prec op) as Hrk by (unfold rank; by rewrite Hop).
  pose proof (arith_prec_range op) as Hpr.
  assert (stop (arith_prec op + 1) = arith_prec op) as Hst by (unfold stop; Zcases; lia).
  assert (stop (arith_prec op) <= arith_prec op) as Hst0 by (unfold stop; Zcases; lia).
  assert (upset ne e1 → ov) as Hi1 by (intros H; apply Hi; revert H; calmer).
  assert (upset ne e2 → ov) as Hi2 by (intros H; apply Hi; revert H; calmer).
  eapply (IH1 K); try done; [simpl; lia|simpl; lia|].
  intros a st1 vs1 fuel1 Hs1 Hv1 Hf1. simpl length in Hf1.
  unfold climb. rewrite (get_last_bind _ _ _ _ _ Hs1).
  change (code (Op op :: t2 :: ts2' ++ rest)) with op.
  rewrite Hop, (proj2 (Z.ltb_lt (arith_prec op) K)) by lia. cbn [andb].
  destruct fuel1 as [|fuel1]; [lia|]. rewrite binop2_climb by done.
  assert (fuel <= fuel1 + 10 * length ((t :: ts1) ++ Op op :: t2 :: ts2'))%nat as Hfin
    by (rewrite length_app; cbn [length]; lia).
  eapply ok_advance; [done|]. intros val2 st2 Hm2 He2. rewrite vbind_assoc.
  eapply (ok_bind ne (upset ne e2) _ (tame e2) _ (eval e2 vs1)); [|done|].
  { rewrite <- (vbind_ret (eval e2 vs1)).
    eapply (IH2 (arith_prec op)); try done; [lia|lia|simpl; lia|].
    intros v st3 vs3 fuel3 Hs3 Hv3 _. pose proof Hs3 as [He3 Hl3].
    rewrite climb_stop by (rewrite Hl3; by rewrite Hst in Hr). by eapply ok_done. }
  intros b st3 vs3 Hs3 Hv3. destruct ne; simpl in Hv1, Hv3.
  - destruct Hv1 as [-> _], Hv3 as [-> Hv3]. rewrite ret_bind. eapply ok_parsed.
    apply Hk; [|done|done]. simpl. by rewrite last_line_app.
  - unfold mbind at 1, M_bind at 1. rewrite do_binop_run by done.
    destruct (c_binop op a b) as [v|d] eqn:Hb; simpl.
    + apply Hk; [by rewrite last_line_app| |done]. simpl. rewrite Hv1. simpl.
      rewrite Hv3. simpl. by rewrite Hb.
    + right. eexists. rewrite halted_bind. split; [done|]. apply Hs3.
Qed.

(** *** The logical operators *)

Lemma binop_ok ts e : binary_ok 8 ts e → level_ok (binop uflag name_addr) 2 8 ts e.
Proof.
  intros IH [|fuel] ne t ts' rest l vs val st Hts Hm He Hr Hf; [lia|].
  rewrite binop_climb, <- (vbind_ret (eval e vs)).
  eapply (IH 8); try done; [cbn; lia|lia|].
  intros v st1 vs1 fuel1 Hs Hv _. pose proof Hs as [He1 Hl].
  rewrite climb_stop by (by rewrite Hl). by eapply ok_done.
Qed.

(** The operator of a level does not follow a phrase of the level. *)
Lemma not_next c d : rank d < rank c → negb (c =? d) = true.
Proof. intros H. apply negb_true_iff, Z.eqb_neq. by apply rank_not. Qed.

(** A level passes on what the one below it returns when its operator does not follow. *)
Lemma ok_pass ne ov g r l ts vs op (m : M V Z) (k : Z → Z → M V Z) st :
  outcome_ok ne ov g r l ts vs (m st) → rank op < rank (code ts) →
  outcome_ok ne ov g r l ts vs
    ((a ← m; o ← get_last; if negb (o =? op) then mret a else k a o) st).
Proof.
  intros Hm Hr. rewrite <- (vbind_ret r). eapply ok_bind; [done|done|]. intros v st1 vs1 Hs Hv.
  rewrite (get_last_bind _ _ _ _ _ Hs), not_next by done. by eapply ok_done.
Qed.

Lemma and_up ts e : binary_ok 8 ts e → level_ok (and uflag name_addr) 3 9 ts e.
Proof.
  intros IH [|fuel] ne t ts' rest l vs val st Hts Hm He Hr Hf; [lia|].
  apply ok_pass; [eapply (binop_ok ts e IH); try done; lia|cbn; lia].
Qed.

Lemma or_up ts e : level_ok (and uflag name_addr) 3 9 ts e → level_ok (or uflag name_addr) 4 10 ts e.
Proof.
  intros IH [|fuel] ne t ts' rest l vs val st Hts Hm He Hr Hf; [lia|].
  apply ok_pass; [eapply IH; try done; lia|cbn; lia].
Qed.

Lemma cond_up ts e : level_ok (or uflag name_addr) 4 10 ts e → level_ok (cond uflag name_addr) 5 11 ts e.
Proof.
  intros IH [|fuel] ne t ts' rest l vs val st Hts Hm He Hr Hf; [lia|].
  apply ok_pass; [eapply IH; try done; lia|cbn; lia].
Qed.

(** The second operand of [&&] or [||]: evaluated when it is wanted. *)
Lemma ok_operand f c s ts e fuel ne skip (ov : Prop) (g : Z → Prop) l rest vs r0 (h : Z → Z) st op :
  level_ok f c s ts e → ts ≠ [] → stands st l (Op op :: ts ++ rest) vs →
  s <= rank (code rest) → (10 * length ts + c <= fuel)%nat →
  (upset (ne || skip) e → ov) → (ne = true → ∀ b, tame e b → g (h b)) →
  (ne = false → skip = true → ∀ b, r0 = (vs, inl (h b))) →
  (ne = false → skip = false → r0 = vbind (eval e vs) (λ b vs, (vs, inl (h b)))) →
  outcome_ok ne ov g r0 (last_line l ts) rest vs
    ((tok ← arith_token name_addr; val ← get_val; op ← arith_token name_addr;
      b ← f fuel tok val op (ne || skip); mret (h b)) st).
Proof.
  intros IH Hne Hs Hr Hf Hi Hg Hskip Hr0. destruct ts as [|t ts]; [done|].
  eapply ok_advance; [done|]. intros val st2 Hm He.
  assert (outcome_ok (ne || skip) (upset (ne || skip) e) (tame e) (eval e vs)
    (last_line l (t :: ts)) rest vs
    (f fuel (tcode t) val (code (ts ++ rest)) (ne || skip) st2)) as Hok by by eapply IH.
  destruct ne.
  { eapply ok_skip; [done|done|]. intros b st3 Hs3 Hb.
    apply (ok_ret true _ _ (h b) _ _ vs vs); [done|auto]. }
  destruct skip; simpl in Hok.
  - eapply ok_skip; [done|done|]. intros b st3 Hs3 _. rewrite (Hskip eq_refl eq_refl b).
    by apply (ok_ret false _ _ (h b) _ _ vs vs).
  - rewrite Hr0 by done. by eapply ok_value.
Qed.

Ltac side := try done; cbn [length] in *; first [lia|cbn; lia|idtac].

Lemma and_ok ts1 ts2 e1 e2 :
  ts1 ≠ [] → ts2 ≠ [] → binary_ok 8 ts1 e1 → level_ok (and uflag name_addr) 3 9 ts2 e2 →
  level_ok (and uflag name_addr) 3 9 (ts1 ++ Op ARITH_AND :: ts2) (EAnd e1 e2).
Proof.
  intros Hne1 Hne IH1 IH2 [|fuel] ne t ts' rest l vs val st Hts Hm He Hr Hf; [lia|]. cbn [and].
  destruct ts1 as [|t1 ts1]; [done|]. simplify_eq/=. rewrite length_app in Hf. cbn [length] in Hf.
  rewrite <- app_assoc in *. simpl app in *. rewrite last_line_app.
  eapply ok_bind; [by eapply (binop_ok _ _ IH1); side|calmer|].
  intros a st1 vs1 Hs _. rewrite (get_last_bind _ _ _ _ _ Hs). cbn [code tcode negb Z.eqb].
  eapply (ok_operand (and uflag name_addr) 3 9 ts2 e2 fuel ne (negb (truth a)) _ _ _ rest vs1 _
    (λ b, Z.b2z (truth a && truth b))); side.
  - calmer.
  - intros _ b _ _ _. by destruct (truth a && truth b).
  - intros _ Ha b. by destruct (truth a).
  - intros _ Ha. by destruct (truth a).
Qed.

Lemma or_ok ts1 ts2 e1 e2 :
  ts1 ≠ [] → ts2 ≠ [] → level_ok (and uflag name_addr) 3 9 ts1 e1 →
  level_ok (or uflag name_addr) 4 10 ts2 e2 →
  level_ok (or uflag name_addr) 4 10 (ts1 ++ Op ARITH_OR :: ts2) (EOr e1 e2).
Proof.
  intros Hne1 Hne IH1 IH2 [|fuel] ne t ts' rest l vs val st Hts Hm He Hr Hf; [lia|]. cbn [or].
  destruct ts1 as [|t1 ts1]; [done|]. simplify_eq/=. rewrite length_app in Hf. cbn [length] in Hf.
  rewrite <- app_assoc in *. simpl app in *. rewrite last_line_app.
  eapply ok_bind; [by eapply IH1; side|calmer|].
  intros a st1 vs1 Hs _. rewrite (get_last_bind _ _ _ _ _ Hs). cbn [code tcode negb Z.eqb].
  eapply (ok_operand (or uflag name_addr) 4 10 ts2 e2 fuel ne (truth a) _ _ _ rest vs1 _
    (λ b, Z.b2z (truth a || truth b))); side.
  - calmer.
  - intros _ b _ _ _. by destruct (truth a || truth b).
  - intros _ Ha b. by rewrite Ha.
  - intros _ Ha. by rewrite Ha.
Qed.

(** *** The conditional *)

Lemma ok_read ne (ov : Prop) (g : Z → Prop) r l t ts l2 ts2 vs vs0 (k : Z → M V Z) st :
  enters st l (t :: ts) vs →
  (∀ st1, enters st1 (line_after l t) ts vs → outcome_ok ne ov g r l2 ts2 vs0 (k (code ts) st1)) →
  outcome_ok ne ov g r l2 ts2 vs0 ((tok ← arith_token name_addr; k tok) st).
Proof.
  intros He Hk. unfold mbind, M_bind.
  destruct (read_token _ _ _ _ _ He) as (st1 & -> & He1 & _). by apply Hk.
Qed.

Lemma cond_ok ts1 ts2 ts3 e1 e2 e3 :
  ts1 ≠ [] → ts3 ≠ [] → level_ok (or uflag name_addr) 4 10 ts1 e1 → comma_ok ts2 e2 →
  level_ok (cond uflag name_addr) 5 11 ts3 e3 →
  level_ok (cond uflag name_addr) 5 11
    (ts1 ++ Op ARITH_QMARK :: ts2 ++ Op ARITH_COLON :: ts3) (ECond e1 e2 e3).
Proof.
  intros Hne1 Hne3 IH1 IH2 IH3 [|fuel] ne t ts' rest l vs val st Hts Hm He Hr Hf; [lia|]. cbn [cond].
  destruct ts1 as [|t1 ts1]; [done|]. simplify_eq/=. rewrite !length_app in Hf. cbn [length] in Hf.
  rewrite length_app in Hf. cbn [length] in Hf.
  rewrite <- app_assoc in *. simpl app in *. rewrite <- app_assoc in *. simpl app in *.
  rewrite last_line_app.
  eapply ok_bind; [by eapply IH1; side|calmer|].
  intros a st1 vs1 Hs _. rewrite (get_last_bind _ _ _ _ _ Hs). cbn [code tcode negb Z.eqb].
  eapply ok_read; [apply Hs|]. intros st2 He2. cbn [line_after] in He2.
  simpl last_line. rewrite last_line_app. set (e := ECond e1 e2 e3).
  assert (∀ ne1, outcome_ok ne1 (upset ne1 e2) (tame e2) (eval e2 vs1)
    (last_line (last_line (line_after l t) ts1) ts2) (Op ARITH_COLON :: ts3 ++ rest) vs1
    (comma_list uflag name_addr fuel (code (ts2 ++ Op ARITH_COLON :: ts3 ++ rest)) ne1 st2)) as Hc.
  { intros ne1. by eapply comma_simple; side. }
  assert (∀ b st3 vs2 r0,
    stands st3 (last_line (last_line (line_after l t) ts1) ts2) (Op ARITH_COLON :: ts3 ++ rest) vs2 →
    (ne = false → r0 = if truth a then (vs2, inl b) else eval e3 vs2) → (ne = true → tame e2 b) →
    outcome_ok ne (upset ne e) (tame e) r0
      (last_line (last_line (last_line (line_after l t) ts1) ts2) ts3) rest vs2
      ((t ← get_last;
        if negb (t =? ARITH_COLON) then arith_err (str "expecting ':'") else
        token ← arith_token name_addr; val ← get_val; op ← arith_token name_addr;
        c ← cond uflag name_addr fuel token val op (ne || truth a);
        mret (if truth a then b else c)) st3)) as Hrest.
  { intros b st3 vs2 r0 Hs3 Hr0 Hb. rewrite (get_last_bind _ _ _ _ _ Hs3). cbn [code tcode negb Z.eqb].
    eapply (ok_operand (cond uflag name_addr) 5 11 ts3 e3 fuel ne (truth a) _ _ _ rest vs2 _
      (λ c, if truth a then b else c)); side.
    - unfold e. calmer.
    - intros Hn c Hc3 Hsafe [Hn2 Hn3]%andb_prop. case_match; [by apply Hb|by apply Hc3].
    - intros Hn Ha c. by rewrite Hr0, Ha.
    - intros Hn Ha. by rewrite Hr0, Ha, vbind_ret. }
  destruct (ne || negb (truth a)) eqn:Hn.
  - eapply ok_skip; [apply (Hc true)| |].
    { unfold e. calmer. }
    intros b st3 Hs3 Hb. apply Hrest; [done| |done].
    intros ->. simpl in Hn. by destruct (truth a).
  - apply orb_false_elim in Hn as [-> Ha%negb_false_iff].
    rewrite Ha, <- (vbind_ret (eval e2 vs1)). eapply ok_bind; [apply (Hc false)|unfold e; calmer|].
    intros b st3 vs2 Hs3 _. rewrite Ha in Hrest. by apply Hrest.
Qed.

(** *** Assignments *)

Lemma assignment_up ts e :
  derives 11 ts e → level_ok (cond uflag name_addr) 5 11 ts e → assignment_ok ts e.
Proof.
  intros Hd IH [|fuel] ne rest l vs st He Hr Hf; [lia|]. cbn [assignment].
  destruct (derives_nonempty _ _ _ Hd) as (t & ts' & ->). simpl app in *.
  pose proof (derives_second 11 _ _ rest Hd) as H2. simpl in H2.
  eapply ok_enter; [done|]. intros val st2 Hm He2.
  assert (outcome_ok ne (upset ne e) (tame e) (eval e vs) (last_line l (t :: ts')) rest vs
    (cond uflag name_addr fuel (tcode t) val (code (ts' ++ rest)) ne st2)) as Hok.
  { eapply IH; side. revert Hr. cbn. lia. }
  cbn [code]. destruct (Z.eqb_spec (tcode t) ARITH_VAR) as [Hv|Hv]; [|done]. cbn [negb].
  destruct t as [c|v|n a k]; [naive_solver|done|].
  destruct H2 as [H2 H3]; [lia|revert Hr; cbn; lia|].
  rewrite (proj2 (Z.eqb_neq (code (ts' ++ rest)) ARITH_ASS)) by done. cbn [negb andb].
  assert ((code (ts' ++ rest) <? ARITH_ASS_MIN) || (ARITH_ASS_MAX <=? code (ts' ++ rest)) = true)
    as ->; [|done].
  revert H3. unfold is_assop. generalize (code (ts' ++ rest)). intros c. Zcases; simpl; (done || lia).
Qed.

Lemma assign_ok n a k ts e :
  assignment_ok ts e → assignment_ok (Var n a k :: Op ARITH_ASS :: ts) (EAssign n e).
Proof.
  intros IH [|fuel] ne rest l vs st He Hr Hf; [lia|]. cbn [assignment]. simpl app in *.
  eapply ok_enter; [done|]. intros val st2 Hm He2. cbn [code tcode negb Z.eqb andb].
  change (negb (ARITH_VAR =? ARITH_VAR)) with false. cbn iota.
  eapply ok_read; [done|]. intros st3 He3. simpl eval.
  change (last_line l (Var n a k :: Op ARITH_ASS :: ts)) with (last_line k ts).
  destruct ne.
  - eapply ok_skip; [apply (IH fuel true rest); side|calmer|]. intros v st4 Hs4 Hv.
    by apply (ok_ret true _ _ _ _ _ vs vs).
  - eapply ok_bind; [apply (IH fuel false rest); side|calmer|]. intros v st4 vs4 Hs4 _.
    destruct Hm as [-> _]. cbn [name_of]. rewrite ret_bind.
    change (negb (ARITH_ASS =? ARITH_ASS)) with false. cbn iota. rewrite ret_bind.
    by apply setvar_ok.
Qed.

Lemma assop_ok n a k c ts e :
  is_assop c = true → assignment_ok ts e →
  assignment_ok (Var n a k :: Op c :: ts) (EAssop n (last_line k ts) (c - ARITH_ASS_GAP) e).
Proof.
  intros Hc IH [|fuel] ne rest l vs st He Hr Hf; [lia|]. cbn [assignment]. simpl app in *.
  eapply ok_enter; [done|]. intros val st2 Hm He2. cbn [code tcode].
  change (negb (ARITH_VAR =? ARITH_VAR)) with false. cbn iota.
  apply andb_prop in Hc as [Hc1%Z.leb_le Hc2%Z.ltb_lt].
  unfold ARITH_ASS_MIN, ARITH_ASS_MAX, ARITH_BINOP_MAX in Hc1, Hc2.
  rewrite (proj2 (Z.ltb_ge c ARITH_ASS_MIN)) by (unfold ARITH_ASS_MIN, ARITH_BINOP_MAX; lia).
  rewrite (proj2 (Z.leb_gt ARITH_ASS_MAX c)) by (unfold ARITH_ASS_MAX; lia).
  rewrite andb_false_r. rewrite (proj2 (Z.eqb_neq c ARITH_ASS)) by (unfold ARITH_ASS; lia).
  eapply ok_read; [done|]. intros st3 He3. simpl eval.
  change (last_line l (Var n a k :: Op c :: ts)) with (last_line k ts).
  destruct (rank_head (last_line k ts) rest) as [_ Hl]; [revert Hr; cbn; lia|].
  destruct ne.
  - eapply ok_skip; [apply (IH fuel true rest); side|calmer|]. intros v st4 Hs4 Hv.
    by apply (ok_ret true _ _ _ _ _ vs vs).
  - eapply ok_bind; [apply (IH fuel false rest); side|calmer|]. intros b st4 vs4 Hs4 _.
    destruct Hm as [-> _]. cbn [name_of]. rewrite ret_bind. cbn [negb]. rewrite bind_assoc.
    destruct Hs4 as [(Hr4 & Hv4 & <-) Hl4].
    apply lookup_bind; [done|by rewrite Hv4|]. intros x vs5 _.
    unfold mbind at 1, M_bind at 1.
    rewrite do_binop_run by (unfold is_binop, ARITH_BINOP_MIN, ARITH_BINOP_MAX, ARITH_ASS_GAP, ARITH_ASS_MIN, ARITH_ASS_BASE, ARITH_BINOP_MAX; apply andb_true_intro; split; [apply Z.leb_le|apply Z.ltb_lt]; lia).
    destruct (c_binop _ x b) as [v|h]; simpl; [|right; eexists; by rewrite halted_bind].
    apply (setvar_ok _ _ n v v (last_line k ts) rest vs5 (with_vars st4 vs5)). by split_and!.
Qed.

(** *** Commas and the whole grammar *)

Lemma comma_up ts e : ts ≠ [] → assignment_ok ts e → comma_ok ts e.
Proof.
  intros Hne IH [|fuel] ne ov g rest l vs st r l2 ts2 He Hr Hf Hi Hk; [lia|]. cbn [comma_list].
  eapply ok_bind; [eapply IH; side|done|]. intros v st1 vs1 Hs Hv. apply Hk; [done|done|].
  destruct ts; [done|]. cbn [length]. lia.
Qed.

Lemma comma_comma ts1 ts2 e1 e2 :
  ts2 ≠ [] → comma_ok ts1 e1 → assignment_ok ts2 e2 →
  comma_ok (ts1 ++ Op ARITH_COMMA :: ts2) (EComma e1 e2).
Proof.
  intros Hne IH1 IH2 fuel ne ov g rest l vs st r l2 ts3 He Hr Hf Hi Hk.
  rewrite length_app in *. cbn [length] in *. rewrite <- app_assoc in *. simpl app in *.
  simpl eval. rewrite vbind_assoc, last_line_app in *.
  eapply IH1; [done|cbn; lia|lia|intros H; apply Hi; revert H; calmer|]. intros v1 st1 vs1 [|fuel1] Hs1 Hv1 Hf1; [lia|].
  cbn [comma_loop]. rewrite (get_last_bind _ _ _ _ _ Hs1). cbn [code tcode negb Z.eqb].
  change (negb (ARITH_COMMA =? ARITH_COMMA)) with false. cbn iota.
  eapply ok_read; [apply Hs1|]. intros st2 He2.
  eapply ok_bind; [eapply IH2; side|intros H; apply Hi; revert H; calmer|]. intros v st3 vs3 Hs3 Hv3.
  apply Hk; [done| |lia].
  destruct ne; simpl in *; [destruct Hv1 as [-> _]; done|]. rewrite Hv1. simpl. by rewrite Hv3.
Qed.

Lemma derives_ok L ts e : derives L ts e → phrase_ok L ts e.
Proof.
  assert (∀ L ts e, derives L ts e → ts ≠ []) as Hne.
  { intros ??? Hd. by destruct (derives_nonempty _ _ _ Hd) as (t & ts' & ->). }
  intros Hd. induction Hd as
    [v|n a l|c n a l Hc|c n a l Hc|ts e Hd IH|c ts e Hc Hd IH|op ts1 ts2 e1 e2 Hop Hd1 IH1 Hd2 IH2
    |ts1 ts2 e1 e2 Hd1 IH1 Hd2 IH2|ts1 ts2 e1 e2 Hd1 IH1 Hd2 IH2
    |ts1 ts2 ts3 e1 e2 e3 Hd1 IH1 Hd2 IH2 Hd3 IH3|n a l ts e Hd IH|n a l c ts e Hc Hd IH
    |ts1 ts2 e1 e2 Hd1 IH1 Hd2 IH2|L ts e HL Hd IH].
  1-6: assert (∀ ts e, level_ok (primary uflag name_addr) 1 0 ts e → phrase_ok 0 ts e) as H0
    by (intros ts0 e0 H; unfold phrase_ok; split_and!; intros; try lia; [done|by apply binary_base]);
    apply H0.
  - apply num_ok.
  - apply var_ok.
  - by apply pre_ok.
  - by apply post_ok.
  - by apply paren_ok, IH.
  - apply unary_ok; [done|by eapply Hne|by apply IH].
  - rewrite <- arith_prec_c in * by done.
    pose proof (arith_prec_range op). destruct (derives_nonempty _ _ _ Hd2) as (t2 & ts2' & Hts).
    unfold phrase_ok. split_and!; intros; try lia.
    eapply binary_bin; [done|by eapply Hne|done|apply IH1; lia|apply IH2; lia].
  - unfold phrase_ok. split_and!; intros; try lia.
    apply and_ok; [by eapply Hne|by eapply Hne|apply IH1; lia|by apply IH2].
  - unfold phrase_ok. split_and!; intros; try lia.
    apply or_ok; [by eapply Hne|by eapply Hne|by apply IH1|by apply IH2].
  - unfold phrase_ok. split_and!; intros; try lia.
    apply cond_ok; [by eapply Hne|by eapply Hne|by apply IH1|by apply IH2|by apply IH3].
  - unfold phrase_ok. split_and!; intros; try lia. by apply assign_ok, IH.
  - unfold phrase_ok. split_and!; intros; try lia. by apply assop_ok, IH.
  - unfold phrase_ok. split_and!; intros; try lia.
    apply comma_comma; [by eapply Hne|by apply IH1|by apply IH2].
  - destruct IH as (IH0 & IHb & IH9 & IH10 & IH11 & IH12 & IH13).
    unfold phrase_ok. split_and!; intros; try lia.
    + apply binary_up; [lia|apply IHb; lia].
    + apply and_up. replace L with 8 in * by lia. by apply IHb.
    + apply or_up, IH9. lia.
    + apply cond_up, IH10. lia.
    + apply assignment_up; [by replace 11 with L by lia|apply IH11; lia].
    + apply comma_up; [by eapply Hne|apply IH12; lia].
Qed.

(** ** Theorems *)

Lemma strtoimax_digit c s v e err :
  isdigit c = true → strtoimax (c :: s) 0 = (v, e, err) → (length e < S (length s))%nat.
Proof.
  intros Hd. pose proof (isdigit_range c) as Hr. rewrite Hd in Hr. destruct Hr as [Hr _].
  specialize (Hr eq_refl). unfold strtoimax, strto_scan. cbn [skip_space].
  assert (isspace c = false) as -> by (unfold isspace; Zcases; simpl; lia || done).
  cbn [strto_sign]. rewrite (proj2 (Z.eqb_neq c 45)), (proj2 (Z.eqb_neq c 43)) by lia.
  destruct (strto_prefix 0 (c :: s)) as [b s2] eqn:Hp.
  assert ((length s2 <= S (length s))%nat ∧ digit_val (peek s2) < b ∧ b <= 16) as (Hl & Hb & Hb16).
  { assert (digit_val c < 10) by (rewrite digit_val_digit by done; lia).
    assert ((b, s2) = (if c =? 48 then 8 else 10, c :: s) ∨
      ∃ x h s', s = x :: h :: s' ∧ (b, s2) = (16, h :: s') ∧ digit_val h < 16) as Hb.
    { rewrite <- Hp. unfold strto_prefix. destruct s as [|x [|h s']]; [by left|by left|].
      destruct ((c =? 48) && (tolower x =? 120) && (digit_val h <? 16)) eqn:Hx; [|by left].
      apply andb_prop in Hx as [_ Hx%Z.ltb_lt]. right. by exists x, h, s'. }
    destruct Hb as [[= -> ->]|(x & h & s' & -> & [= -> ->] & Hh)]; simpl; [|split_and!; [lia|done|done]].
    rewrite digit_val_digit by done. Zcases; lia. }
  rewrite (proj2 (Z.ltb_lt _ _)) by done. destruct (digits b s2 0) as [w rest] eqn:Hds.
  assert (length rest < length s2)%nat as Hrest.
  { destruct s2 as [|y s2]; [by change (99 < b) in Hb; lia|]. simpl in Hb, Hds.
    rewrite (proj2 (Z.ltb_lt _ _)) in Hds by done.
    destruct (digits_suffix b s2 (0 * b + digit_val y)) as [d Hsuf]. rewrite Hds in Hsuf.
    simpl in Hsuf. rewrite Hsuf, length_cons, length_app. lia. }
  repeat case_match; intros [= _ <- _]; lia.
Qed.

Lemma name_run_length s n r : name_run s = (n, r) → (length r <= length s)%nat.
Proof.
  revert n r. induction s as [|c s IH]; intros n r; simpl; [by intros [= _ <-]|].
  case_match; [|by intros [= _ <-]]. destruct (name_run s) as [n' r'].
  intros [= _ <-]. specialize (IH _ _ eq_refl). lia.
Qed.

Lemma operator_length c s t r : operator c s = Some (t, r) → (length r <= length s)%nat.
Proof.
  unfold operator, checkeqcur. repeat case_match; intros [= <- <-]; rewrite ?length_drop; lia.
Qed.

(** A token takes a character at least. *)
Lemma token_loop_length s l c v r l' :
  token_loop name_addr s l = Lexeme c v r l' → c ≠ 0 → (length r < length s)%nat.
Proof.
  revert l. induction s as [|x s IH]; intros l; cbn [token_loop]; [by intros [= <- _ _ _]|].
  destruct (isdigit x) eqn:Hd.
  { destruct (strtoimax (x :: s) 0) as [[v' e] er] eqn:He. case_match; [done|].
    intros [= _ _ <- _] _. by eapply strtoimax_digit. }
  destruct (is_name x) eqn:Hn.
  { destruct (name_run s) as [n r'] eqn:Hr. intros [= _ _ <- _] _.
    apply name_run_length in Hr. simpl. lia. }
  destruct (x =? 10) eqn:E1; [intros H Hc; specialize (IH _ H Hc); simpl; lia|].
  destruct ((x =? 32) || (x =? 9)) eqn:E2; [intros H Hc; specialize (IH _ H Hc); simpl; lia|].
  destruct (x =? 0) eqn:E3; [by intros [= <- _ _ _]|].
  destruct (operator x s) as [[t r']|] eqn:Ho; [|done].
  intros [= _ _ <- _] _. apply operator_length in Ho. simpl. lia.
Qed.

Lemma lexes_length s l ts : lexes name_addr s l ts → (length ts <= length s)%nat.
Proof.
  induction 1; simpl; [lia|..]; match goal with H : token_loop _ _ _ = _ |- _ =>
    apply token_loop_length in H; [lia|done] end.
Qed.

(** The line the evaluation starts at. *)
Definition first_line (s : list Z) (lno : Z) : Z :=
  if mentions_LIN s then lno - newlines s else lno.

Lemma arith_derived s lno st ts e :
  lexes name_addr s (first_line s lno) ts → derives 13 ts e →
  (arith uflag name_addr s lno st = Overflow ∧ upset false e) ∨
  match eval e (vars st) with
  | (vs, inl v) => ∃ st', arith uflag name_addr s lno st = Done v st' ∧ vars st' = vs
  | (vs, inr h) => ∃ st', arith uflag name_addr s lno st = halted h st' ∧ vars st' = vs
  end.
Proof.
  intros Hl Hd. pose proof (lexes_length _ _ _ Hl) as Hlen.
  destruct (derives_ok _ _ _ Hd) as (_ & _ & _ & _ & _ & _ & Hc). specialize (Hc eq_refl).
  unfold arith. fold (first_line s lno).
  set (st0 := AState s (a_t_val st) (last_token st) (first_line s lno) (arith_var_lno st) (vars st)).
  destruct (read_lexes st0 ts Hl) as (st1 & Htok & He & _). unfold mbind, M_bind. rewrite Htok.
  pose proof (comma_simple ts e (arith_fuel s) false [] (arith_var_lno st0) (vars st0) st1 Hc) as Hok.
  rewrite app_nil_r in Hok. specialize (Hok He eq_refl ltac:(unfold arith_fuel; lia)).
  change (vars st0) with (vars st) in Hok.
  destruct Hok as [[-> Hov]|Hok]; [by left|right].
  destruct (eval e (vars st)) as [vs [v|h]]; destruct Hok as (st2 & -> & Hs);
    [|rewrite halted_bind; by eexists].
  destruct Hs as [(_ & _ & Hvs) Hlast]. unfold get_last. rewrite Hlast. simpl. by eexists.
Qed.
End Spec.
