(* ===== verification/ArithSound.v ===== *)
(** * Shell arithmetic: what is accepted

    A successful evaluation has passed over the tokens of an expression, level by level *)

From S2P Require Import Prelude Libc Arith ArithSpec.

Section Sound.
Context {V : Type} {VV : Vars V} (uflag : bool) (name_addr : list Z → Z).
#[local] Notation get_var := (get_var uflag).
#[local] Notation matches := (matches name_addr).
#[local] Notation climb := (climb uflag name_addr).
#[local] Notation eval := (eval uflag).

(** ** What is accepted is an expression

    [inhand st c t]: [t] is the token of code [c] that has been read last; at the end of
    the text there is none.  [path st c st' c' ts]: between the two states the tokens [ts]
    have been passed. *)
Definition line_ok (t : token) (lno : Z) : Prop :=
  match t with Var _ _ k => k = lno | _ => True end.
Definition inhand (st : astate V) (c : Z) (t : token) : Prop :=
  tcode t = c ∧ matches (a_t_val st) t ∧ line_ok t (arith_lno st).
Definition held (st : astate V) (c : Z) : Prop :=
  (c = 0 ∧ lexes name_addr (arith_buf st) (arith_lno st) []) ∨ ∃ t, inhand st c t.
Definition before (st : astate V) (c : Z) (ts : list token) : Prop :=
  match ts with
  | [] => c = 0 ∧ lexes name_addr (arith_buf st) (arith_lno st) []
  | t :: ts' => inhand st c t ∧ lexes name_addr (arith_buf st) (arith_lno st) ts'
  end.
Definition path (st : astate V) (c : Z) (st' : astate V) (c' : Z) (ts : list token) : Prop :=
  ∀ rest, before st' c' rest → before st c (ts ++ rest).

Lemma path_app st c st1 c1 st2 c2 ts1 ts2 :
  path st c st1 c1 ts1 → path st1 c1 st2 c2 ts2 → path st c st2 c2 (ts1 ++ ts2).
Proof. intros H1 H2 rest H. rewrite <- app_assoc. by apply H1, H2. Qed.

Lemma inhand_nonzero st c t : inhand st c t → c ≠ 0.
Proof. intros (<- & Hm & _). by destruct t; simpl in *; [destruct Hm| |]. Qed.

Lemma held_token st c : held st c → c ≠ 0 → ∃ t, inhand st c t.
Proof. by intros [[? _]|?]. Qed.

Lemma token_loop_forms s l c v r l' :
  token_loop name_addr s l = Lexeme c v r l' →
  (c = 0 ∧ v = None) ∨ (c ≠ 0 ∧ c ≠ ARITH_NUM ∧ c ≠ ARITH_VAR ∧ v = None) ∨
  (c = ARITH_NUM ∧ ∃ z, v = Some (TVal z)) ∨ (c = ARITH_VAR ∧ ∃ n a, v = Some (TName n a)).
Proof.
  revert l. induction s as [|x s IH]; intros l; cbn [token_loop]; [intros [= <- <- _ _]; auto|].
  destruct (isdigit x).
  { destruct (strtoimax (x :: s) 0) as [[v' e] er]. case_match; [done|].
    intros [= <- <- _ _]. eauto 10. }
  destruct (is_name x).
  { destruct (name_run s) as [n r']. intros [= <- <- _ _]. eauto 10. }
  destruct (x =? 10); [eauto|]. destruct ((x =? 32) || (x =? 9)); [eauto|].
  destruct (x =? 0); [intros [= <- <- _ _]; auto|].
  destruct (operator x s) as [[t r']|] eqn:Ho; [|done].
  intros [= <- <- _ _]. apply operator_code in Ho. naive_solver.
Qed.

(** Reading a token: the tokens after it make, with it, those before it. *)
Lemma read_lexes_back st c st' ts :
  arith_token name_addr st = Done c st' → before st' c ts →
  lexes name_addr (arith_buf st) (arith_lno st) ts.
Proof.
  unfold arith_token. destruct (token_loop _ _ _) as [c' v r l|] eqn:Htl; [|done].
  intros [= -> <-] Hb. pose proof (token_loop_forms _ _ _ _ _ _ Htl) as Hc.
  destruct ts as [|t' rest]; simpl in Hb.
  { destruct Hb as [-> _]. destruct Hc as [[_ ->]|[(? & _)|[(? & _)|(? & _)]]]; try done.
    by eapply lexes_end. }
  destruct Hb as ((Hcode & Hm & Hline) & Hrest). simpl in Hm, Hline.
  destruct Hc as [[-> ->]|[(H0 & H1 & H2 & ->)|[(-> & z & ->)|(-> & n & a & ->)]]];
    destruct t' as [c0|z'|n' a' k]; simpl in Hcode, Hm, Hline; try destruct Hm as (M0 & M1 & M2);
    try done; try congruence; simplify_eq.
  - by eapply lexes_op.
  - by eapply lexes_num.
  - by eapply lexes_var.
Qed.

Lemma read_back st c' st' :
  arith_token name_addr st = Done c' st' →
  held st' c' ∧ last_token st' = last_token st ∧
  (∀ c t, inhand st c t → path st c st' c' [t]).
Proof.
  intros Hr. split; [|split].
  - revert Hr. unfold arith_token. destruct (token_loop _ _ _) as [c v r l|] eqn:Htl; [|done].
    intros [= -> <-]. pose proof (token_loop_forms _ _ _ _ _ _ Htl) as Hc.
    destruct Hc as [[-> ->]|[(H0 & H1 & H2 & ->)|[(-> & z & ->)|(-> & n & a & ->)]]];
      [left; split; [done|]; by eapply lexes_end, token_loop_end|right..].
    + by exists (Op c').
    + by exists (Num z).
    + exists (Var n a l). split_and!; [done| |done]. split; [done|]. by eapply token_loop_addr.
  - revert Hr. unfold arith_token. destruct (token_loop _ _ _); [|done]. by intros [= _ <-].
  - intros c t Ht rest Hrest. split; [done|]. by eapply read_lexes_back.
Qed.

(** Steps that only set variables, or keep a token. *)
Definition same (st st' : astate V) : Prop :=
  arith_buf st' = arith_buf st ∧ arith_lno st' = arith_lno st ∧ a_t_val st' = a_t_val st.

Lemma same_before st st' c ts : same st st' → before st' c ts ↔ before st c ts.
Proof. intros (Hb & Hl & Hv). unfold before, inhand. rewrite Hb, Hl, Hv. done. Qed.
Lemma same_held st st' c : same st st' → held st c → held st' c.
Proof. intros (Hb & Hl & Hv). unfold held, inhand. by rewrite Hb, Hl, Hv. Qed.
Lemma same_path st c st1 st2 c' ts : same st1 st2 → path st c st1 c' ts → path st c st2 c' ts.
Proof. intros Hs Hp rest H. apply Hp. by apply (same_before st1 st2). Qed.
Lemma path_same st1 st2 c st' c' ts : same st1 st2 → path st2 c st' c' ts → path st1 c st' c' ts.
Proof. intros Hs Hp rest H. apply (same_before st1 st2); [done|]. by apply Hp. Qed.

Lemma bind_Done {A B} (m : M V A) (k : A → M V B) st b st' :
  (m ≫= k) st = Done b st' → ∃ a st1, m st = Done a st1 ∧ k a st1 = Done b st'.
Proof. unfold mbind, M_bind. destruct (m st); naive_solver. Qed.

Lemma lookup_same n st v st' :
  arith_lookupvarint uflag n st = Done v st' → same st st' ∧ last_token st' = last_token st.
Proof.
  rewrite lookup_run. destruct (get_var _ _ _) as [vs [w|h]]; [by intros [= <- <-]|by destruct h].
Qed.
Lemma intmax_same z (st : astate V) v st' : intmax z st = Done v st' → st' = st ∧ v = z.
Proof. unfold intmax. case_match; [|done]. by intros [= -> ->]. Qed.
Lemma setvar_same n v u st st' :
  setvarint n v st = Done u st' → same st st' ∧ last_token st' = last_token st.
Proof.
  unfold setvarint. rewrite format_result_ok. destruct (setvar _ _ _) as [vs []]; [|done].
  by intros [= <- <-].
Qed.
Lemma do_binop_same op a b (st : astate V) v st' : do_binop op a b st = Done v st' → st' = st.
Proof. unfold do_binop. repeat case_match; try done; by intros [= _ <-]. Qed.

Lemma derives_lift L L' ts e : derives L ts e → 0 <= L <= L' → L' <= 13 → derives L' ts e.
Proof.
  intros Hd HL HL'. replace L' with (L + Z.of_nat (Z.to_nat (L' - L))) by lia.
  assert (Z.to_nat (L' - L) <= Z.to_nat (13 - L))%nat as Hn by lia. revert Hn.
  generalize (Z.to_nat (L' - L)). intros n Hn. induction n as [|n IH].
  - by rewrite Z.add_0_r.
  - replace (L + Z.of_nat (S n)) with (L + Z.of_nat n + 1) by lia.
    apply d_up; [lia|apply IH; lia].
Qed.

(** What a level has done: it has passed a phrase that starts with the token [t], or with
    the one in hand. *)
Definition passed (st : astate V) (c L : Z) (st' : astate V) : Prop :=
  held st' (last_token st') ∧ ∃ ts e, derives L ts e ∧ path st c st' (last_token st') ts.
Definition passed_from (t : token) (st : astate V) (op L : Z) (st' : astate V) : Prop :=
  held st' (last_token st') ∧
  ∃ ts e, derives L (t :: ts) e ∧ path st op st' (last_token st') ts.

Definition level_sound (f : nat → Z → a_token_val → Z → bool → M V Z) (L : Z) (fuel : nat) : Prop :=
  ∀ token val op ne st v st',
    f fuel token val op ne st = Done v st' → held st op →
    token ≠ 0 ∧ ∀ t, tcode t = token → matches val t → passed_from t st op L st'.
Definition list_sound (f : nat → Z → bool → M V Z) (L : Z) (fuel : nat) : Prop :=
  ∀ c ne st v st', f fuel c ne st = Done v st' → held st c → c ≠ 0 ∧ passed st c L st'.

(** The loops add to what has been passed before them. *)
Definition binop2_sound (fuel : nat) : Prop :=
  ∀ a op K ne st v st',
    binop2 uflag name_addr fuel a op K ne st = Done v st' → held st op →
    is_binop op = true → arith_prec op < K <= 8 →
    held st' (last_token st') ∧ (is_binop (last_token st') = true → K <= arith_prec (last_token st')) ∧
    ∃ ts, path st op st' (last_token st') ts ∧
      ∀ ts1 e1, derives (arith_prec op + 1) ts1 e1 → ∃ e, derives K (ts1 ++ ts) e.
Definition comma_loop_sound (fuel : nat) : Prop :=
  ∀ r ne st v st',
    comma_loop uflag name_addr fuel r ne st = Done v st' → held st (last_token st) →
    held st' (last_token st') ∧
    ∃ ts, path st (last_token st) st' (last_token st') ts ∧
      ∀ ts1 e1, derives 13 ts1 e1 → ∃ e, derives 13 (ts1 ++ ts) e.

Lemma path_refl st c : path st c st c [].
Proof. by intros rest H. Qed.

(** An operator in hand. *)
Lemma inhand_op st c t : inhand st c t → c ≠ ARITH_NUM → c ≠ ARITH_VAR → t = Op c.
Proof. intros (<- & Hm & _) H1 H2. by destruct t. Qed.

Lemma same_trans st1 st2 st3 : same st1 st2 → same st2 st3 → same st1 st3.
Proof. intros (? & ? & ?) (? & ? & ?). unfold same. split_and!; congruence. Qed.
Lemma set_last_same t st u st' : set_last t st = Done u st' → same st st' ∧ last_token st' = t.
Proof. by intros [= _ <-]. Qed.

Ltac bind_step H a st Ha := apply bind_Done in H as (a & st & Ha & H).
Ltac get_step H := rewrite get_bind in H.
Lemma last_bind {A} (k : Z → M V A) st : (get_last ≫= k) st = k (last_token st) st.
Proof. done. Qed.
Lemma set_bind {A} t (k : unit → M V A) st o :
  (set_last t ≫= k) st = o → ∃ st1, same st st1 ∧ last_token st1 = t ∧ k () st1 = o.
Proof. intros <-. eexists. split; [|split; [|reflexivity]]; done. Qed.

(** Reading the token after an operator, or after a variable, in hand. *)
Lemma read_op st c c' st' :
  arith_token name_addr st = Done c' st' → held st c → c ≠ 0 → c ≠ ARITH_NUM → c ≠ ARITH_VAR →
  held st' c' ∧ last_token st' = last_token st ∧ path st c st' c' [Op c].
Proof.
  intros Hr Hh H0 H1 H2. apply read_back in Hr as (Hh' & Hl & Hp). destruct (held_token _ _ Hh H0) as [t Ht].
  pose proof (inhand_op _ _ _ Ht H1 H2) as ->. auto.
Qed.

(** The end of a phrase: one more token has been read and kept. *)
Lemma read_kept {A} st c (k : M V A) v st' :
  (t ← arith_token name_addr; _ ← set_last t; k) st = Done v st' →
  held st c → c ≠ 0 → c ≠ ARITH_NUM → c ≠ ARITH_VAR →
  ∃ st1, k st1 = Done v st' ∧ held st1 (last_token st1) ∧ path st c st1 (last_token st1) [Op c].
Proof.
  intros H Hh H0 H1 H2. apply bind_Done in H as (t & st1 & Hr & H).
  destruct (read_op _ _ _ _ Hr Hh H0 H1 H2) as (Hh1 & _ & Hp).
  apply set_bind in H as (st2 & Hs & <- & H).
  exists st2. split; [done|]. split; [by eapply same_held|by eapply same_path].
Qed.

Lemma passed_same t st op L st1 st2 :
  passed_from t st op L st1 → same st1 st2 → last_token st2 = last_token st1 →
  passed_from t st op L st2.
Proof.
  intros (Hh & ts & e & Hd & Hp) Hs Hl. rewrite <- Hl in *.
  split; [by eapply same_held|]. exists ts, e. split; [done|by eapply same_path].
Qed.

Lemma passed_pre t st st1 op L st' :
  same st st1 → passed_from t st1 op L st' → passed_from t st op L st'.
Proof.
  intros Hs (Hh & ts & e & Hd & Hp). split; [done|]. exists ts, e.
  split; [done|by eapply path_same].
Qed.

(** The token kept is the one that was read ahead. *)
Lemma passed_one t st op e v st' r :
  (_ ← set_last op; (mret r : M V Z)) st = Done v st' → held st op → derives 0 [t] e →
  passed_from t st op 0 st'.
Proof.
  intros H Hh Hd. apply set_bind in H as (st1 & Hs & Hl & [= _ <-]).
  split; rewrite Hl; [by eapply same_held|]. exists [], e. split; [done|].
  by eapply same_path, path_refl.
Qed.

Lemma name_of_Done v n (st st1 : astate V) : name_of v st = Done n st1 → st1 = st.
Proof. destruct v; [done|by intros [= _ ->]]. Qed.

Lemma paren_sound fuel op ne st v st' :
  list_sound (comma_list uflag name_addr) 13 fuel →
  (result ← comma_list uflag name_addr fuel op ne;
   t ← get_last;
   if negb (t =? ARITH_RPAREN) then (arith_err (str "expecting ')'") : M V Z) else
   t ← arith_token name_addr; _ ← set_last t; (mret result : M V Z)) st = Done v st' →
  held st op → passed_from (Op ARITH_LPAREN) st op 0 st'.
Proof.
  intros IHc Hrun Hh. bind_step Hrun r st1 Hc. rewrite last_bind in Hrun.
  destruct (IHc _ _ _ _ _ Hc Hh) as (_ & Hh1 & ts & e & Hd & Hp). clear Hc.
  destruct (Z.eqb_spec (last_token st1) ARITH_RPAREN) as [Heq|]; [|done]. cbn [negb] in Hrun.
  rewrite Heq in *. apply (read_kept _ ARITH_RPAREN) in Hrun as (st2 & [= _ <-] & Hh2 & Hp2); [|done..].
  split; [done|]. exists (ts ++ [Op ARITH_RPAREN]), e. split; [by apply d_paren|by eapply path_app].
Qed.

Lemma var_sound n a k op (ne : bool) st v st' :
  (result ← (if ne then (mret a : M V Z) else arith_lookupvarint uflag n);
   if (op =? ARITH_INCR) || (op =? ARITH_DECR) then
     t ← arith_token name_addr; _ ← set_last t;
     if ne then (mret a : M V Z) else
     n ← (mret n : M V (list Z));
     next ← intmax (result + (if op =? ARITH_INCR then 1 else -1));
     _ ← setvarint n next; (mret result : M V Z)
   else _ ← set_last op; (mret result : M V Z)) st = Done v st' →
  held st op → passed_from (Var n a k) st op 0 st'.
Proof.
  intros Hrun Hh. bind_step Hrun r st1 Hr.
  assert (same st st1) as Hs1.
  { destruct ne; [by injection Hr as _ <-|]. by apply lookup_same in Hr as [? _]. }
  clear Hr. assert (held st1 op) as Hh1 by (by eapply same_held).
  destruct ((op =? ARITH_INCR) || (op =? ARITH_DECR)) eqn:Hop.
  - assert (op ≠ 0 ∧ op ≠ ARITH_NUM ∧ op ≠ ARITH_VAR) as (O1 & O2 & O3)
      by (by destruct (incr_operator op Hop) as [-> | ->]).
    apply (read_kept _ op) in Hrun as (st2 & Hrun & Hh2 & Hp2); [|done..].
    assert (passed_from (Var n a k) st op 0 st2) as Hpass.
    { split; [done|]. exists [Op op], (EPost n k (incr_step op)).
      split; [by apply d_post|by eapply path_same]. }
    destruct ne; [by injection Hrun as _ <-|].
    rewrite ret_bind in Hrun. bind_step Hrun w st3 Hw. apply intmax_same in Hw as [-> ->].
    bind_step Hrun u st3 Hset.
    apply setvar_same in Hset as [Hs3 Hl3]. injection Hrun as _ <-. by eapply passed_same.
  - eapply passed_pre; [done|]. eapply passed_one; [done|done|apply d_var].
Qed.

Lemma unary_sound fuel c (f : Z → M V Z) op ne st v st' :
  level_sound (primary uflag name_addr) 0 fuel → is_unary c = true →
  (∀ r st1 v1 st2, f r st1 = Done v1 st2 → st2 = st1) →
  (val ← get_val; op2 ← arith_token name_addr;
   r ← primary uflag name_addr fuel op val op2 ne; f r) st = Done v st' →
  held st op → passed_from (Op c) st op 0 st'.
Proof.
  intros IHp Hc Hf Hr Hh. rewrite get_bind in Hr.
  bind_step Hr op2 st1 Htok. bind_step Hr r st2 Hp. apply Hf in Hr as ->.
  apply read_back in Htok as (Hh1 & _ & Hpath).
  destruct (IHp _ _ _ _ _ _ _ Hp Hh1) as [Hop Hpass]. destruct (held_token _ _ Hh Hop) as [t2 Ht2].
  destruct (Hpass t2) as (Hh2 & ts & e & Hd & Hp2); [apply Ht2|apply Ht2|].
  split; [done|]. exists (t2 :: ts), (EUnary c e). split; [by apply d_unary|].
  change (t2 :: ts) with ([t2] ++ ts). by eapply path_app; [apply Hpath|].
Qed.

Lemma pre_sound c val op (ne : bool) st v st' :
  is_incr c = true →
  (if negb (op =? ARITH_VAR) then (arith_err (str "incr/decr require var name") : M V Z) else
   t ← arith_token name_addr; _ ← set_last t;
   if ne then (mret (val_of val) : M V Z) else
   v ← get_val; n ← name_of v;
   result ← arith_lookupvarint uflag n;
   result ← intmax (result + (if c =? ARITH_INCR then 1 else -1));
   v ← get_val; n ← name_of v;
   _ ← setvarint n result; (mret result : M V Z)) st = Done v st' →
  held st op → passed_from (Op c) st op 0 st'.
Proof.
  intros Hc Hrun Hh. destruct (Z.eqb_spec op ARITH_VAR) as [->|]; [|done]. cbn [negb] in Hrun.
  destruct (held_token _ _ Hh ltac:(done)) as [t2 Ht2]. destruct t2 as [d|z|n a k];
    [destruct Ht2 as (? & Hm2 & _); simpl in *; naive_solver|by destruct Ht2|].
  bind_step Hrun d st1 Hr. apply read_back in Hr as (Hh1 & _ & Hp).
  specialize (Hp _ _ Ht2). apply set_bind in Hrun as (st2 & Hs2 & <- & Hrun).
  assert (passed_from (Op c) st ARITH_VAR 0 st2) as Hpass.
  { split; [by eapply same_held|]. exists [Var n a k], (EPre n k (incr_step c)).
    split; [by apply d_pre|by eapply same_path]. }
  destruct ne; [by injection Hrun as _ <-|]. rewrite get_bind in Hrun.
  bind_step Hrun nm st3 Hn. apply name_of_Done in Hn as ->.
  bind_step Hrun x st4 Hl. apply lookup_same in Hl as [Hs4 Hl4].
  bind_step Hrun w st5 Hw. apply intmax_same in Hw as [-> ->].
  rewrite get_bind in Hrun. bind_step Hrun nm2 st5 Hn2. apply name_of_Done in Hn2 as ->.
  bind_step Hrun u st6 Hset. apply setvar_same in Hset as [Hs6 Hl6]. injection Hrun as _ <-.
  eapply passed_same; [done|by eapply same_trans|congruence].
Qed.

Lemma matches_op c val t : tcode t = c → matches val t → c ≠ ARITH_NUM → c ≠ ARITH_VAR → t = Op c.
Proof. intros <- Hm H1 H2. by destruct t. Qed.

Lemma primary_sound fuel :
  list_sound (comma_list uflag name_addr) 13 fuel →
  level_sound (primary uflag name_addr) 0 fuel → level_sound (primary uflag name_addr) 0 (S fuel).
Proof.
  intros IHc IHp token val op ne st v st' Hrun Hh. cbn [primary] in Hrun.
  assert (∀ c, token = c → c ≠ 0 → c ≠ ARITH_NUM → c ≠ ARITH_VAR → passed_from (Op c) st op 0 st' →
    token ≠ 0 ∧ ∀ t, tcode t = token → matches val t → passed_from t st op 0 st') as Hop.
  { intros c -> H0 H1 H2 H. split; [done|]. intros t Ht Hm. by rewrite (matches_op _ _ _ Ht Hm H1 H2). }
  destruct (Z.eqb_spec token ARITH_LPAREN) as [->|N1].
  { apply (Hop ARITH_LPAREN); [done..|by eapply paren_sound]. }
  destruct (Z.eqb_spec token ARITH_NUM) as [->|N2].
  { split; [done|]. intros t Ht Hm. destruct t as [c|z|]; [simpl in *; naive_solver| |done].
    eapply passed_one; [done|done|apply d_num]. }
  destruct (Z.eqb_spec token ARITH_VAR) as [->|N3].
  { split; [done|]. intros t Ht Hm. destruct t as [c|z|n a k]; [simpl in *; naive_solver|done|].
    destruct Hm as [-> _]. by eapply var_sound. }
  destruct (Z.eqb_spec token ARITH_ADD) as [->|N4].
  { apply (Hop ARITH_ADD); [done..|]. apply (unary_sound fuel ARITH_ADD mret op ne st v st'); [done|done|by intros ???? [= _ ->]| |done].
    rewrite get_bind in *. bind_step Hrun op2 st1 Htok. unfold mbind, M_bind. by rewrite Htok, Hrun. }
  destruct (Z.eqb_spec token ARITH_SUB) as [->|N5].
  { apply (Hop ARITH_SUB); [done..|]. apply (unary_sound fuel ARITH_SUB (λ r, intmax (- r)) op ne st v st'); [done|done| |done|done].
    by intros r ??? [-> _]%intmax_same. }
  destruct (Z.eqb_spec token ARITH_NOT) as [->|N6].
  { apply (Hop ARITH_NOT); [done..|]. apply (unary_sound fuel ARITH_NOT (λ r, mret (c_lnot r)) op ne st v st'); [done|done| |done|done].
    by intros ???? [= _ ->]. }
  destruct (Z.eqb_spec token ARITH_BNOT) as [->|N7].
  { apply (Hop ARITH_BNOT); [done..|]. apply (unary_sound fuel ARITH_BNOT (λ r, mret (Z.lnot r)) op ne st v st'); [done|done| |done|done].
    by intros ???? [= _ ->]. }
  destruct ((token =? ARITH_INCR) || (token =? ARITH_DECR)) eqn:Hinc; [|done].
  apply (Hop token); [done|by destruct (incr_operator token Hinc) as [-> | ->]..|].
  by eapply pre_sound.
Qed.

(** *** Binary operators *)

Definition extends (st : astate V) (c L K : Z) (st' : astate V) : Prop :=
  held st' (last_token st') ∧
  ∃ ts, path st c st' (last_token st') ts ∧
    ∀ ts1 e1, derives L ts1 e1 → ∃ e, derives K (ts1 ++ ts) e.

Lemma extends_refl st L K : held st (last_token st) → 0 <= L <= K → K <= 13 →
  extends st (last_token st) L K st.
Proof.
  intros Hh HL HK. split; [done|]. exists []. split; [apply path_refl|].
  intros ts1 e1 Hd. rewrite app_nil_r. eauto using derives_lift.
Qed.

Lemma passed_extends t st op L K st1 st2 :
  passed_from t st op L st1 → extends st1 (last_token st1) L K st2 → passed_from t st op K st2.
Proof.
  intros (_ & ts & e & Hd & Hp) (Hh & ts' & Hp' & Hext). split; [done|].
  destruct (Hext _ _ Hd) as [e' He']. exists (ts ++ ts'), e'. split; [done|by eapply path_app].
Qed.

Lemma climb_sound fuel K a ne st v st' L :
  binop2_sound fuel → climb fuel K a ne st = Done v st' → held st (last_token st) →
  0 <= L <= K → K <= 8 → (is_binop (last_token st) = true → L <= arith_prec (last_token st) + 1) →
  extends st (last_token st) L K st' ∧
  (is_binop (last_token st') = true → K <= arith_prec (last_token st')).
Proof.
  intros IH Hrun Hh HL HK Hlast. unfold climb in Hrun. rewrite last_bind in Hrun.
  destruct (is_binop (last_token st)) eqn:Hb; [|injection Hrun as _ <-].
  - specialize (Hlast eq_refl). simpl in Hrun. pose proof (arith_prec_range (last_token st)).
    destruct (Z.ltb_spec (arith_prec (last_token st)) K); [|injection Hrun as _ <-].
    + destruct (IH _ _ _ _ _ _ _ Hrun Hh Hb ltac:(lia)) as (Hh' & Hr & ts & Hp & Hd).
      split; [split; [done|]|done]. exists ts. split; [done|]. intros ts1 e1 Hd1.
      apply (Hd ts1 e1). eapply derives_lift; [done|lia|lia].
    + split; [apply extends_refl; [done|lia|lia]|by intros _].
  - split; [apply extends_refl; [done|lia|lia]|]. by rewrite Hb.
Qed.

(** The operand after an operator: the operator and its first token. *)
Lemma advance_sound st c (k : Z → a_token_val → Z → M V Z) v st' :
  (tok ← arith_token name_addr; val ← get_val; op ← arith_token name_addr; k tok val op) st
    = Done v st' →
  held st c → c ≠ 0 → c ≠ ARITH_NUM → c ≠ ARITH_VAR →
  ∃ tok val op st1, k tok val op st1 = Done v st' ∧ held st1 op ∧
    (tok ≠ 0 → ∃ t, tcode t = tok ∧ matches val t ∧ path st c st1 op [Op c; t]).
Proof.
  intros H Hh H0 H1 H2. bind_step H tok sta Ha.
  destruct (read_op _ _ _ _ Ha Hh H0 H1 H2) as (Hha & _ & Hpa). rewrite get_bind in H.
  bind_step H op stb Hb. apply read_back in Hb as (Hhb & _ & Hpb).
  exists tok, (a_t_val sta), op, stb. split_and!; [done|done|]. intros Htok.
  destruct (held_token _ _ Hha Htok) as [t Ht]. exists t. split_and!; [apply Ht|apply Ht|].
  change [Op c; t] with ([Op c] ++ [t]). by eapply path_app; [|apply Hpb].
Qed.

Lemma is_binop_code op : is_binop op = true → op ≠ 0 ∧ op ≠ ARITH_NUM ∧ op ≠ ARITH_VAR.
Proof. intros H. split_and!; intros ->; done. Qed.

Lemma binop2_step fuel :
  level_sound (primary uflag name_addr) 0 fuel → binop2_sound fuel → binop2_sound (S fuel).
Proof.
  intros IHp IHb a op K ne st v st' Hrun Hh Hop HK. pose proof (arith_prec_range op) as Hpr.
  rewrite binop2_climb in Hrun by done. destruct (is_binop_code op Hop) as (O0 & O1 & O2).
  destruct (advance_sound _ _ _ _ _ Hrun Hh O0 O1 O2) as (tok & val & op2 & st1 & H & Hh1 & Ht).
  clear Hrun. bind_step H b st2 Hb. bind_step Hb b0 st3 Hprim.
  destruct (IHp _ _ _ _ _ _ _ Hprim Hh1) as [Htok Hpass].
  destruct (Ht Htok) as (t & Hc & Hm & Hpath). specialize (Hpass t Hc Hm).
  destruct (climb_sound _ _ _ _ _ _ _ 0 IHb Hb (proj1 Hpass)) as [Hext Hrank];
    [lia|lia|pose proof (arith_prec_range (last_token st3)); lia|].
  destruct (passed_extends _ _ _ _ _ _ _ Hpass Hext) as (Hh2 & ts2 & e2 & Hd2 & Hp2).
  bind_step H a' st4 Ha. assert (st4 = st2) as ->.
  { destruct ne; [by injection Ha as _ <-|by apply do_binop_same in Ha]. }
  destruct (climb_sound _ _ _ _ _ _ _ (arith_prec op + 1) IHb H Hh2) as [(Hh4 & ts3 & Hp3 & Hd3) Hr4];
    [lia|lia|intros Hx; specialize (Hrank Hx); lia|].
  split_and!; [done|done|]. exists ([Op op; t] ++ ts2 ++ ts3).
  split; [by eapply path_app, path_app|]. intros ts1 e1 Hd1.
  destruct (Hd3 (ts1 ++ Op op :: t :: ts2) (EBin op e1 e2)) as [e He];
    [rewrite arith_prec_c in * by done; by apply d_bin|].
  exists e. by rewrite <- app_assoc in He.
Qed.

Lemma binop_sound fuel :
  level_sound (primary uflag name_addr) 0 fuel → binop2_sound fuel →
  level_sound (binop uflag name_addr) 8 (S fuel).
Proof.
  intros IHp IHb token val op ne st v st' Hrun Hh. rewrite binop_climb in Hrun.
  bind_step Hrun a st1 Ha. destruct (IHp _ _ _ _ _ _ _ Ha Hh) as [Htok Hpass].
  split; [done|]. intros t Hc Hm. specialize (Hpass t Hc Hm).
  destruct (climb_sound _ _ _ _ _ _ _ 0 IHb Hrun (proj1 Hpass)) as [Hext _];
    [lia|lia|pose proof (arith_prec_range (last_token st1)); lia|].
  by eapply passed_extends.
Qed.

(** *** The levels above *)

(** A level, an operator, and the same level again. *)
Lemma infix_sound f g L c fuel (h : Z → Z → Z) (sk : Z → bool) token val op ne st v st' :
  level_sound f L fuel → level_sound g (L + 1) fuel → 0 <= L < 13 →
  c ≠ 0 → c ≠ ARITH_NUM → c ≠ ARITH_VAR →
  (∀ ts1 ts2 e1 e2, derives L ts1 e1 → derives (L + 1) ts2 e2 →
     ∃ e, derives (L + 1) (ts1 ++ Op c :: ts2) e) →
  (a ← f fuel token val op ne;
   o ← get_last;
   if negb (o =? c) then mret a else
   token ← arith_token name_addr; val ← get_val; op ← arith_token name_addr;
   b ← g fuel token val op (ne || sk a); mret (h a b)) st = Done v st' →
  held st op → token ≠ 0 ∧ ∀ t, tcode t = token → matches val t → passed_from t st op (L + 1) st'.
Proof.
  intros IHf IHg HL C0 C1 C2 Hd H Hh. bind_step H a st1 Ha.
  destruct (IHf _ _ _ _ _ _ _ Ha Hh) as [Htok Hpass]. split; [done|]. intros t Hc Hm.
  specialize (Hpass t Hc Hm). rewrite last_bind in H.
  destruct (Z.eqb_spec (last_token st1) c) as [Heq|]; cbn [negb] in H.
  - destruct Hpass as (Hh1 & ts1 & e1 & Hd1 & Hp1). rewrite Heq in *.
    destruct (advance_sound _ _ _ _ _ H Hh1 C0 C1 C2) as (tok & val2 & op2 & st2 & H2 & Hh2 & Ht).
    bind_step H2 b st3 Hg. injection H2 as _ <-.
    destruct (IHg _ _ _ _ _ _ _ Hg Hh2) as [Htok2 Hpass2].
    destruct (Ht Htok2) as (t2 & Hc2 & Hm2 & Hp2).
    destruct (Hpass2 t2 Hc2 Hm2) as (Hh3 & ts2 & e2 & Hd2 & Hp3). split; [done|].
    destruct (Hd _ _ _ _ Hd1 Hd2) as [e He]. exists (ts1 ++ [Op c; t2] ++ ts2), e.
    split; [done|]. by eapply path_app, path_app.
  - injection H as _ <-. eapply passed_extends; [done|].
    apply extends_refl; [apply Hpass|lia|lia].
Qed.

Lemma and_sound fuel :
  level_sound (binop uflag name_addr) 8 fuel → level_sound (and uflag name_addr) 9 fuel →
  level_sound (and uflag name_addr) 9 (S fuel).
Proof.
  intros IHf IHg token val op ne st v st' H Hh.
  eapply (infix_sound _ _ 8 ARITH_AND fuel (λ a b, Z.b2z (truth a && truth b)) (λ a, negb (truth a)));
    [exact IHf|exact IHg|lia|done|done|done| |exact H|done].
  intros ts1 ts2 e1 e2 H1 H2. eexists. by apply d_and.
Qed.

Lemma or_sound fuel :
  level_sound (and uflag name_addr) 9 fuel → level_sound (or uflag name_addr) 10 fuel →
  level_sound (or uflag name_addr) 10 (S fuel).
Proof.
  intros IHf IHg token val op ne st v st' H Hh.
  eapply (infix_sound _ _ 9 ARITH_OR fuel (λ a b, Z.b2z (truth a || truth b)) truth);
    [exact IHf|exact IHg|lia|done|done|done| |exact H|done].
  intros ts1 ts2 e1 e2 H1 H2. eexists. by apply d_or.
Qed.

Lemma cond_sound fuel :
  level_sound (or uflag name_addr) 10 fuel → list_sound (comma_list uflag name_addr) 13 fuel →
  level_sound (cond uflag name_addr) 11 fuel → level_sound (cond uflag name_addr) 11 (S fuel).
Proof.
  intros IHo IHl IHc token val op ne st v st' H Hh. cbn [cond] in H. bind_step H a st1 Ha.
  destruct (IHo _ _ _ _ _ _ _ Ha Hh) as [Htok Hpass]. clear Ha. split; [done|]. intros t Hc Hm.
  specialize (Hpass t Hc Hm). rewrite last_bind in H.
  destruct (Z.eqb_spec (last_token st1) ARITH_QMARK) as [Heq|]; cbn [negb] in H.
  2: { injection H as _ <-. eapply passed_extends; [done|].
       apply extends_refl; [apply Hpass|lia|lia]. }
  destruct Hpass as (Hh1 & ts1 & e1 & Hd1 & Hp1). rewrite Heq in *.
  bind_step H c2 st2 H2. destruct (read_op _ _ _ _ H2 Hh1) as (Hh2 & _ & Hp2); [done..|].
  bind_step H b st3 Hb. destruct (IHl _ _ _ _ _ Hb Hh2) as (_ & Hh3 & ts2 & e2 & Hd2 & Hp3).
  clear Hb. rewrite last_bind in H.
  destruct (Z.eqb_spec (last_token st3) ARITH_COLON) as [Heq3|]; [|done]. cbn [negb] in H.
  rewrite Heq3 in *.
  destruct (advance_sound _ _ _ _ _ H Hh3) as (tok & val2 & op2 & st4 & H4 & Hh4 & Ht); [done..|].
  clear H. bind_step H4 x st5 Hx. injection H4 as _ <-.
  destruct (IHc _ _ _ _ _ _ _ Hx Hh4) as [Htok2 Hpass2].
  destruct (Ht Htok2) as (t2 & Hc2 & Hm2 & Hp4).
  destruct (Hpass2 t2 Hc2 Hm2) as (Hh5 & ts3 & e3 & Hd3 & Hp5). split; [done|].
  exists (ts1 ++ [Op ARITH_QMARK] ++ ts2 ++ [Op ARITH_COLON; t2] ++ ts3), (ECond e1 e2 e3).
  split; [|by repeat (eapply path_app; [done|])]. by apply (d_cond (t :: ts1) ts2 (t2 :: ts3)).
Qed.

(** *** Assignments and commas *)

Lemma assignment_sound fuel :
  level_sound (cond uflag name_addr) 11 fuel → list_sound (assignment uflag name_addr) 12 fuel →
  list_sound (assignment uflag name_addr) 12 (S fuel).
Proof.
  intros IHc IHa c ne st v st' H Hh. cbn [assignment] in H. rewrite get_bind in H.
  bind_step H op st1 H1. apply read_back in H1 as (Hh1 & _ & Hp1).
  assert (cond uflag name_addr fuel c (a_t_val st) op ne st1 = Done v st' →
          c ≠ 0 ∧ passed st c 12 st') as Hcond.
  { intros Hc. destruct (IHc _ _ _ _ _ _ _ Hc Hh1) as [Hc0 Hpass]. split; [done|].
    destruct (held_token _ _ Hh Hc0) as [t Ht]. destruct (Hpass t) as (Hh2 & ts & e & Hd & Hp); [apply Ht..|].
    split; [done|]. exists (t :: ts), e. split; [apply (d_up 11); [lia|done]|].
    change (t :: ts) with ([t] ++ ts). by eapply path_app; [apply Hp1|]. }
  destruct (Z.eqb_spec c ARITH_VAR) as [->|]; cbn [negb] in H; [|by apply Hcond].
  destruct (negb (op =? ARITH_ASS) && ((op <? ARITH_ASS_MIN) || (ARITH_ASS_MAX <=? op))) eqn:Hop;
    [by apply Hcond|]. clear Hcond. split; [done|].
  destruct (held_token _ _ Hh ltac:(done)) as [t Ht]. specialize (Hp1 _ _ Ht).
  assert (∃ n a, a_t_val st = TName n a ∧ t = Var n a (arith_lno st)) as (n & a & Hval & ->).
  { destruct Ht as (Hc & Hm & Hl). destruct t as [d|z|n a k]; simpl in *; [naive_solver|done|].
    destruct Hm as [Hm _]. subst k. by exists n, a. }
  assert (op = ARITH_ASS ∨ is_assop op = true) as Hop2.
  { destruct (Z.eqb_spec op ARITH_ASS); [by left|]. right. revert Hop. unfold is_assop.
    destruct (Z.ltb_spec op ARITH_ASS_MIN), (Z.leb_spec ARITH_ASS_MAX op),
      (Z.leb_spec ARITH_ASS_MIN op), (Z.ltb_spec op ARITH_ASS_MAX); simpl; (done || lia). }
  assert (op ≠ 0 ∧ op ≠ ARITH_NUM ∧ op ≠ ARITH_VAR) as (O0 & O1 & O2).
  { destruct Hop2 as [->|Hop2]; [done|]. split_and!; intros ->; done. }
  bind_step H c2 st2 H2. destruct (read_op _ _ _ _ H2 Hh1) as (Hh2 & _ & Hp2); [done..|].
  bind_step H r st3 Hr. destruct (IHa _ _ _ _ _ Hr Hh2) as (_ & Hh3 & ts & e & Hd & Hp3). clear Hr.
  assert (passed st ARITH_VAR 12 st3) as Hpass.
  { split; [done|]. exists ([Var n a (arith_lno st)] ++ [Op op] ++ ts).
    destruct Hop2 as [->|Hop2]; eexists; (split; [|by eapply path_app, path_app]);
      [by apply d_assign|by apply d_assop]. }
  destruct ne; [by injection H as _ <-|]. rewrite Hval in H. cbn [name_of] in H. rewrite ret_bind in H.
  bind_step H r2 st4 Hr2. bind_step H u st5 Hset. injection H as _ <-.
  apply setvar_same in Hset as [Hs5 Hl5].
  assert (same st3 st4 ∧ last_token st4 = last_token st3) as [Hs4 Hl4].
  { destruct (negb (op =? ARITH_ASS)); [|by injection Hr2 as _ <-].
    bind_step Hr2 x st6 Hx. apply do_binop_same in Hr2 as ->. by apply lookup_same in Hx. }
  destruct Hpass as (Hh6 & ts' & e' & Hd' & Hp'). unfold passed. rewrite Hl5, Hl4.
  pose proof (same_trans _ _ _ Hs4 Hs5) as Hs.
  split; [by eapply same_held|]. exists ts', e'. split; [done|by eapply same_path].
Qed.

Lemma comma_loop_step fuel :
  list_sound (assignment uflag name_addr) 12 fuel → comma_loop_sound fuel → comma_loop_sound (S fuel).
Proof.
  intros IHa IHl r ne st v st' H Hh. cbn [comma_loop] in H. rewrite last_bind in H.
  destruct (Z.eqb_spec (last_token st) ARITH_COMMA) as [Heq|]; cbn [negb] in H.
  2: { injection H as _ <-. apply extends_refl; [done|lia|lia]. }
  rewrite Heq in *. bind_step H c2 st2 H2.
  destruct (read_op _ _ _ _ H2 Hh) as (Hh2 & _ & Hp2); [done..|].
  bind_step H r2 st3 Hr. destruct (IHa _ _ _ _ _ Hr Hh2) as (_ & Hh3 & ts & e & Hd & Hp3). clear Hr.
  destruct (IHl _ _ _ _ _ H Hh3) as (Hh4 & ts2 & Hp4 & Hd4). split; [done|].
  exists ([Op ARITH_COMMA] ++ ts ++ ts2). split; [by eapply path_app, path_app|].
  intros ts1 e1 Hd1. destruct (Hd4 (ts1 ++ Op ARITH_COMMA :: ts) (EComma e1 e)) as [e' He'];
    [by apply d_comma|]. exists e'. by rewrite <- app_assoc in He'.
Qed.

Lemma comma_list_sound fuel :
  list_sound (assignment uflag name_addr) 12 fuel → comma_loop_sound fuel →
  list_sound (comma_list uflag name_addr) 13 (S fuel).
Proof.
  intros IHa IHl c ne st v st' H Hh. cbn [comma_list] in H. bind_step H r st1 Hr.
  destruct (IHa _ _ _ _ _ Hr Hh) as (Hc & Hh1 & ts & e & Hd & Hp). split; [done|]. clear Hr.
  destruct (IHl _ _ _ _ _ H Hh1) as (Hh2 & ts2 & Hp2 & Hd2). split; [done|].
  destruct (Hd2 ts e) as [e2 He2]; [by apply (d_up 12)|].
  exists (ts ++ ts2), e2. split; [done|by eapply path_app].
Qed.

(** All the levels together. *)
Lemma levels_sound fuel :
  level_sound (primary uflag name_addr) 0 fuel ∧ binop2_sound fuel ∧
  level_sound (binop uflag name_addr) 8 fuel ∧ level_sound (and uflag name_addr) 9 fuel ∧
  level_sound (or uflag name_addr) 10 fuel ∧ level_sound (cond uflag name_addr) 11 fuel ∧
  list_sound (assignment uflag name_addr) 12 fuel ∧ comma_loop_sound fuel ∧
  list_sound (comma_list uflag name_addr) 13 fuel.
Proof.
  induction fuel as [|fuel (I1 & I2 & I3 & I4 & I5 & I6 & I7 & I8 & I9)].
  { by split_and!; repeat intro. }
  split_and!; auto using primary_sound, binop2_step, binop_sound, and_sound, or_sound,
    cond_sound, assignment_sound, comma_loop_step, comma_list_sound.
Qed.

Lemma arith_sound s lno st v st' :
  arith uflag name_addr s lno st = Done v st' →
  ∃ ts e, lexes name_addr s (first_line s lno) ts ∧ derives 13 ts e.
Proof.
  unfold arith. fold (first_line s lno). intros H. bind_step H c st1 Hc.
  set (st0 := AState _ _ _ _ _ _) in Hc.
  pose proof (read_back _ _ _ Hc) as (Hh1 & _ & _).
  bind_step H r st2 Hr. destruct (levels_sound (arith_fuel s)) as (_ & _ & _ & _ & _ & _ & _ & _ & Hl).
  destruct (Hl _ _ _ _ _ Hr Hh1) as (_ & Hh2 & ts & e & Hd & Hp). rewrite last_bind in H.
  destruct (Z.eqb_spec (last_token st2) 0) as [Heq|]; [|done].
  exists ts, e. split; [|done]. 
  rewrite Heq in *. apply (read_lexes_back _ _ _ _ Hc). rewrite <- (app_nil_r ts). apply Hp.
  split; [done|]. destruct Hh2 as [[_ ?]|[t Ht]]; [done|]. by apply inhand_nonzero in Ht.
Qed.
End Sound.
