(* ===== verification/ArithEnds.v ===== *)
(** * Shell arithmetic: termination

    The bound on the recursion of the evaluator is never reached *)

From S2P Require Import Prelude Libc Arith ArithSpec ArithSound.

Section Ends.
Context {V : Type} {VV : Vars V} (uflag : bool) (name_addr : list Z → Z).
#[local] Notation get_var := (get_var uflag).
#[local] Notation climb := (climb uflag name_addr).
#[local] Notation eval := (eval uflag).

(** ** Termination

    The characters left and the token in hand bound the recursion. *)
Definition weight (st : astate V) (c : Z) : nat :=
  length (arith_buf st) + (if c =? 0 then 0 else 1).

Definition ends {A} (P : A → astate V → Prop) (o : ending V A) : Prop :=
  match o with Done a st => P a st | OutOfFuel => False | _ => True end.

Lemma ends_bind {A B} (P : A → astate V → Prop) (Q : B → astate V → Prop) (m : M V A)
    (k : A → M V B) st :
  ends P (m st) → (∀ a st', P a st' → ends Q (k a st')) → ends Q ((m ≫= k) st).
Proof. unfold mbind, M_bind. destruct (m st); simpl; auto. Qed.

Lemma ends_mono {A} (P Q : A → astate V → Prop) o :
  ends P o → (∀ a st, P a st → Q a st) → ends Q o.
Proof. destruct o; simpl; auto. Qed.

(** A phrase ends with no more before it than [W]. *)
Definition within (W : nat) (_ : Z) (st : astate V) : Prop := (weight st (last_token st) <= W)%nat.

Lemma ends_token st (P : Z → astate V → Prop) :
  (∀ c st', (weight st' c <= length (arith_buf st))%nat → last_token st' = last_token st → P c st') →
  ends P (arith_token name_addr st).
Proof.
  intros HP. unfold arith_token. destruct (token_loop _ _ _) as [c v r l|] eqn:Htl; [|done].
  apply HP; [|done]. unfold weight. simpl. destruct (Z.eqb_spec c 0) as [->|Hc].
  - clear HP. cut (length r <= length (arith_buf st))%nat; [lia|]. revert Htl.
    generalize (arith_lno st). induction (arith_buf st) as [|x s IH]; intros l0; cbn [token_loop];
      [by intros [= _ <- _]|].
    destruct (isdigit x); [destruct (strtoimax (x :: s) 0) as [[v' e] er]; by case_match|].
    destruct (is_name x); [by destruct (name_run s)|].
    destruct (x =? 10); [intros H; apply IH in H; simpl; lia|].
    destruct ((x =? 32) || (x =? 9)); [intros H; apply IH in H; simpl; lia|].
    destruct (x =? 0); [by intros [= _ <- _]|].
    destruct (operator x s) as [[t r']|] eqn:Ho; [|done].
    intros [= -> _ _ _]. apply operator_code in Ho. by destruct Ho.
  - apply token_loop_length in Htl; [lia|done].
Qed.

Lemma ends_lookup n st (P : Z → astate V → Prop) :
  (∀ v vs, P v (with_vars st vs)) → ends P (arith_lookupvarint uflag n st).
Proof.
  intros HP. rewrite lookup_run. destruct (get_var _ _ _) as [vs [v|h]]; [apply HP|by destruct h].
Qed.
Lemma ends_intmax z st (P : Z → astate V → Prop) : P z st → ends P (intmax z st).
Proof. intros HP. unfold intmax. by case_match. Qed.
Lemma ends_setvar n v st (P : unit → astate V → Prop) :
  (∀ vs, P () (with_vars st vs)) → ends P (setvarint n v st).
Proof.
  intros HP. unfold setvarint. rewrite format_result_ok. destruct (setvar _ _ _) as [vs []]; [apply HP|done].
Qed.
Lemma ends_binop op a b st (P : Z → astate V → Prop) :
  (∀ v, P v st) → ends P (do_binop op a b st).
Proof. intros HP. unfold do_binop. by repeat case_match; try apply HP. Qed.
Lemma ends_name v (P : list Z → astate V → Prop) st :
  (∀ n, P n st) → ends P (name_of v st).
Proof. intros HP. destruct v; [done|apply HP]. Qed.

Definition level_ends (f : nat → Z → a_token_val → Z → bool → M V Z) (c fuel : nat) : Prop :=
  ∀ token val op ne st,
    (10 * (weight st op + if (token =? 0)%Z then 0 else 1) + c <= fuel)%nat →
    ends (within (weight st op)) (f fuel token val op ne st).
Definition list_ends (f : nat → Z → bool → M V Z) (k fuel : nat) : Prop :=
  ∀ c ne st, (10 * weight st c + k <= fuel)%nat →
    ends (within (weight st c)) (f fuel c ne st).

Lemma weight_pos st c : c ≠ 0 → weight st c = S (length (arith_buf st)).
Proof. intros Hc. unfold weight. rewrite (proj2 (Z.eqb_neq c 0)) by done. lia. Qed.
Lemma weight_ge st c : (length (arith_buf st) <= weight st c)%nat.
Proof. unfold weight. lia. Qed.

Lemma ends_kept st W (k : M V Z) :
  (∀ st', (weight st' (last_token st') <= length (arith_buf st))%nat → ends (within W) (k st')) →
  ends (within W) ((t ← arith_token name_addr; _ ← set_last t; k) st).
Proof.
  intros Hk. eapply ends_bind; [apply (ends_token st (λ c st', weight st' c <= length (arith_buf st))%nat)|].
  { auto. }
  intros c st' Hw. unfold mbind, M_bind, set_last. by apply Hk.
Qed.

(** Two tokens on, past an operator. *)
Lemma ends_advance st c (P : Z → astate V → Prop) (k : Z → a_token_val → Z → M V Z) :
  c ≠ 0 →
  (∀ tok val op st1,
     (weight st1 op + (if (tok =? 0)%Z then 0 else 1) + 1 <= weight st c)%nat →
     ends P (k tok val op st1)) →
  ends P ((tok ← arith_token name_addr; val ← get_val; op ← arith_token name_addr; k tok val op) st).
Proof.
  intros Hc Hk. rewrite (weight_pos _ c) in Hk by done.
  eapply ends_bind; [apply (ends_token st (λ t st', weight st' t <= length (arith_buf st))%nat); auto|].
  intros tok st1 Hw1. rewrite get_bind.
  eapply ends_bind; [apply (ends_token st1 (λ t st', weight st' t <= length (arith_buf st1))%nat); auto|].
  intros op st2 Hw2. apply Hk. cbv beta in *. unfold weight in Hw1. lia.
Qed.

Lemma ends_set_last op v st st1 :
  arith_buf st1 = arith_buf st →
  ends (within (weight st op)) ((_ ← set_last op; (mret v : M V Z)) st1).
Proof. intros Hb. simpl. unfold within, weight. simpl. rewrite Hb. lia. Qed.

Lemma primary_ends fuel :
  list_ends (comma_list uflag name_addr) 7 fuel →
  level_ends (primary uflag name_addr) 1 fuel → level_ends (primary uflag name_addr) 1 (S fuel).
Proof.
  intros IHc IHp token val op ne st Hf. cbn [primary]. pose proof (weight_ge st op) as Hge.
  destruct (Z.eqb_spec token ARITH_LPAREN) as [->|N1].
  { cbn [Z.eqb ARITH_LPAREN] in Hf. eapply ends_bind; [apply IHc; lia|]. intros r st1 Hw.
    rewrite last_bind. destruct (negb _); [done|]. apply ends_kept. intros st2 Hw2.
    pose proof (weight_ge st1 (last_token st1)). unfold within in *. simpl. unfold within. lia. }
  destruct (Z.eqb_spec token ARITH_NUM) as [->|N2]; [by apply ends_set_last|].
  destruct (Z.eqb_spec token ARITH_VAR) as [->|N3].
  { eapply (ends_bind (λ _ st', arith_buf st' = arith_buf st)).
    - destruct ne; [done|]. eapply (ends_bind (λ _ st', st' = st)); [by apply ends_name|].
      intros n st' ->. by apply ends_lookup.
    - intros r st1 Hb. destruct (_ || _).
      + apply ends_kept. rewrite Hb. intros st2 Hw2. destruct ne; [unfold within; simpl; lia|].
        eapply (ends_bind (λ _ st', st' = st2)); [by apply ends_name|]. intros n st' ->.
        eapply (ends_bind (λ _ st', st' = st2)); [by apply ends_intmax|]. intros w st' ->.
        eapply ends_bind; [by apply (ends_setvar n _ st2 (λ _ st', weight st' (last_token st') <= length (arith_buf st))%nat)|].
        intros u st3 Hw3. cbv beta in Hw3. simpl. unfold within. lia.
      + by apply ends_set_last. }
  assert (∀ f : Z → M V Z, token ≠ 0 → (∀ r st1, ends (λ _ st2, st2 = st1) (f r st1)) → ends (within (weight st op)) ((val ← get_val; op2 ← arith_token name_addr;
     r ← primary uflag name_addr fuel op val op2 ne; f r) st)) as Hunary.
  { intros f Ht Hf2. rewrite (proj2 (Z.eqb_neq token 0)) in Hf by done.
    cbn iota in Hf. rewrite get_bind.
    eapply ends_bind; [apply (ends_token st (λ t st', weight st' t <= length (arith_buf st))%nat); auto|].
    intros op2 st1 Hw. assert (weight st1 op2 + (if (op =? 0)%Z then 0 else 1) <= weight st op)%nat
      by (cbv beta in Hw; unfold weight in *; lia).
    eapply ends_bind; [apply IHp; lia|]. intros r st2 Hw2.
    eapply ends_mono; [apply Hf2|]. intros r2 st3 ->. unfold within in *. lia. }
  destruct (Z.eqb_spec token ARITH_ADD) as [->|N4].
  { specialize (Hunary mret ltac:(done) ltac:(done)). revert Hunary. rewrite !get_bind. unfold mbind, M_bind.
    destruct (arith_token _ _) as [op2 st1| | | |]; try done. simpl. by destruct (primary _ _ _ _ _ _ _ _). }
  destruct (Z.eqb_spec token ARITH_SUB) as [->|N5].
  { apply (Hunary (λ r, intmax (- r))); [done|]. intros r st1. by apply ends_intmax. }
  destruct (Z.eqb_spec token ARITH_NOT) as [->|N6]; [by apply (Hunary (λ r, mret (c_lnot r)))|].
  destruct (Z.eqb_spec token ARITH_BNOT) as [->|N7]; [by apply (Hunary (λ r, mret (Z.lnot r)))|].
  destruct (_ || _); [|done]. destruct (negb _); [done|]. apply ends_kept. intros st1 Hw.
  destruct ne; [unfold within; simpl; lia|]. rewrite get_bind.
  eapply (ends_bind (λ _ st', st' = st1)); [by apply ends_name|]. intros n st' ->.
  eapply ends_bind; [by apply (ends_lookup n st1 (λ _ st', weight st' (last_token st') <= length (arith_buf st))%nat)|].
  intros x st2 Hw2. eapply (ends_bind (λ _ st', st' = st2)); [by apply ends_intmax|].
  intros w st' ->. rewrite get_bind.
  eapply (ends_bind (λ _ st', st' = st2)); [by apply ends_name|]. intros n2 st' ->.
  eapply ends_bind; [by apply (ends_setvar n2 _ st2 (λ _ st', weight st' (last_token st') <= length (arith_buf st))%nat)|].
  intros u st3 Hw3. cbv beta in Hw3. simpl. unfold within. lia.
Qed.

Lemma ends_ret v st : ends (within (weight st (last_token st))) ((mret v : M V Z) st).
Proof. simpl. by unfold within. Qed.

Lemma climb_ends fuel K a ne st :
  (∀ a op K ne st, is_binop op = true → (10 * weight st op + 1 <= fuel)%nat →
     ends (within (weight st op)) (binop2 uflag name_addr fuel a op K ne st)) →
  (10 * weight st (last_token st) + 1 <= fuel)%nat →
  ends (within (weight st (last_token st))) (climb fuel K a ne st).
Proof.
  intros IH Hf. unfold climb. rewrite last_bind.
  destruct (is_binop (last_token st)) eqn:Hb; [|apply ends_ret].
  destruct (_ <? K); [by apply IH|apply ends_ret].
Qed.

Lemma binop2_ends fuel :
  level_ends (primary uflag name_addr) 1 fuel →
  (∀ a op K ne st, is_binop op = true → (10 * weight st op + 1 <= fuel)%nat →
     ends (within (weight st op)) (binop2 uflag name_addr fuel a op K ne st)) →
  ∀ a op K ne st, is_binop op = true → (10 * weight st op + 1 <= S fuel)%nat →
     ends (within (weight st op)) (binop2 uflag name_addr (S fuel) a op K ne st).
Proof.
  intros IHp IHb a op K ne st Hop Hf. rewrite binop2_climb by done.
  destruct (is_binop_code op Hop) as (O0 & _). eapply ends_advance; [done|].
  intros tok val op2 st1 Hw1. unfold within.
  eapply (ends_bind (λ _ st', weight st' (last_token st') + 1 <= weight st op)%nat).
  { eapply ends_bind; [apply IHp; lia|]. intros b st2 Hw2. unfold within in Hw2.
    eapply ends_mono; [apply climb_ends; [done|lia]|]. unfold within. intros b' st3. lia. }
  intros b st2 Hw2. eapply (ends_bind (λ _ st', st' = st2)).
  { destruct ne; [done|]. by apply ends_binop. }
  intros a' st' ->. eapply ends_mono; [apply climb_ends; [done|lia]|].
  unfold within. intros v st3. lia.
Qed.

Lemma binop_ends fuel :
  level_ends (primary uflag name_addr) 1 fuel →
  (∀ a op K ne st, is_binop op = true → (10 * weight st op + 1 <= fuel)%nat →
     ends (within (weight st op)) (binop2 uflag name_addr fuel a op K ne st)) →
  level_ends (binop uflag name_addr) 2 (S fuel).
Proof.
  intros IHp IHb token val op ne st Hf. rewrite binop_climb.
  eapply ends_bind; [apply IHp; lia|]. intros a st1 Hw. unfold within in Hw.
  eapply ends_mono; [apply climb_ends; [done|lia]|]. unfold within. intros v st2. lia.
Qed.

Lemma infix_ends f g c fuel op' (h : Z → Z → Z) (sk : Z → bool) token val op ne st :
  level_ends f c fuel → level_ends g (S c) fuel → op' ≠ 0 → (c <= 8)%nat →
  (10 * (weight st op + if (token =? 0)%Z then 0 else 1) + S c <= S fuel)%nat →
  ends (within (weight st op))
    ((a ← f fuel token val op ne; o ← get_last;
      if negb (o =? op') then mret a else
      token ← arith_token name_addr; val ← get_val; op ← arith_token name_addr;
      b ← g fuel token val op (ne || sk a); mret (h a b)) st).
Proof.
  intros IHf IHg Ho Hc Hf. eapply ends_bind; [apply IHf; lia|]. intros a st1 Hw. unfold within in Hw.
  rewrite last_bind. destruct (Z.eqb_spec (last_token st1) op') as [Heq|]; cbn [negb];
    [|eapply ends_mono; [apply ends_ret|]; unfold within; intros; lia].
  rewrite Heq in Hw. eapply (ends_advance _ op'); [done|]. intros tok val2 op2 st2 Hw2.
  eapply ends_bind; [apply IHg; lia|]. intros b st3 Hw3. unfold within in *. simpl. lia.
Qed.

Lemma and_ends fuel :
  level_ends (binop uflag name_addr) 2 fuel → level_ends (and uflag name_addr) 3 fuel →
  level_ends (and uflag name_addr) 3 (S fuel).
Proof.
  intros IHf IHg token val op ne st Hf.
  by apply (infix_ends _ _ 2 fuel ARITH_AND (λ a b, Z.b2z (truth a && truth b)) (λ a, negb (truth a)));
    try lia.
Qed.
Lemma or_ends fuel :
  level_ends (and uflag name_addr) 3 fuel → level_ends (or uflag name_addr) 4 fuel →
  level_ends (or uflag name_addr) 4 (S fuel).
Proof.
  intros IHf IHg token val op ne st Hf.
  by apply (infix_ends _ _ 3 fuel ARITH_OR (λ a b, Z.b2z (truth a || truth b)) truth); try lia.
Qed.

Lemma cond_ends fuel :
  level_ends (or uflag name_addr) 4 fuel → list_ends (comma_list uflag name_addr) 7 fuel →
  level_ends (cond uflag name_addr) 5 fuel → level_ends (cond uflag name_addr) 5 (S fuel).
Proof.
  intros IHo IHl IHc token val op ne st Hf. cbn [cond].
  eapply ends_bind; [apply IHo; lia|]. intros a st1 Hw. unfold within in Hw. rewrite last_bind.
  destruct (Z.eqb_spec (last_token st1) ARITH_QMARK) as [Heq|]; cbn [negb];
    [|eapply ends_mono; [apply ends_ret|]; unfold within; intros; lia].
  rewrite Heq, weight_pos in Hw by done.
  eapply ends_bind; [apply (ends_token st1 (λ t st', weight st' t <= length (arith_buf st1))%nat); auto|].
  intros c st2 Hw2. cbv beta in Hw2. eapply ends_bind; [apply IHl; lia|]. intros b st3 Hw3.
  unfold within in Hw3. rewrite last_bind.
  destruct (Z.eqb_spec (last_token st3) ARITH_COLON) as [Heq3|]; [|done]. cbn [negb].
  rewrite Heq3 in Hw3. eapply (ends_advance _ ARITH_COLON); [done|]. intros tok val2 op2 st4 Hw4.
  eapply ends_bind; [apply IHc; lia|]. intros x st5 Hw5. unfold within in *. simpl. lia.
Qed.

Lemma assignment_ends fuel :
  level_ends (cond uflag name_addr) 5 fuel → list_ends (assignment uflag name_addr) 6 fuel →
  list_ends (assignment uflag name_addr) 6 (S fuel).
Proof.
  intros IHc IHa c ne st Hf. cbn [assignment]. rewrite get_bind.
  eapply ends_bind; [apply (ends_token st (λ t st', weight st' t <= length (arith_buf st))%nat); auto|].
  intros op st1 Hw. cbv beta in Hw.
  assert (weight st1 op + (if (c =? 0)%Z then 0 else 1) <= weight st c)%nat
    by (unfold weight in *; lia).
  assert (ends (within (weight st c)) (cond uflag name_addr fuel c (a_t_val st) op ne st1)) as Hcond.
  { eapply ends_mono; [apply IHc; lia|]. unfold within. intros; lia. }
  destruct (Z.eqb_spec c ARITH_VAR) as [->|]; [|done]. cbn [negb].
  destruct (_ && _) eqn:Hop; [done|]. rewrite weight_pos in * by done.
  assert (op ≠ 0) as O0.
  { intros ->. done. }
  rewrite (weight_pos st1) in * by done.
  eapply ends_bind; [apply (ends_token st1 (λ t st', weight st' t <= length (arith_buf st1))%nat); auto|].
  intros t st2 Hw2. cbv beta in Hw2. eapply ends_bind; [apply IHa; lia|]. intros r st3 Hw3.
  unfold within in Hw3. destruct ne; [simpl; unfold within; lia|].
  eapply (ends_bind (λ _ st', st' = st3)); [by apply ends_name|]. intros n st' ->.
  eapply (ends_bind (λ _ st', arith_buf st' = arith_buf st3 ∧ last_token st' = last_token st3)).
  { destruct (negb _); [|done].
    eapply (ends_bind (λ _ st', arith_buf st' = arith_buf st3 ∧ last_token st' = last_token st3));
      [by apply ends_lookup|]. intros x st' Hst'. by apply ends_binop. }
  intros r2 st4 [Hb4 Hl4].
  eapply (ends_bind (λ _ st', arith_buf st' = arith_buf st3 ∧ last_token st' = last_token st3)).
  { apply ends_setvar. intros vs. by split. }
  intros u st5 [Hb5 Hl5]. simpl. unfold within, weight in *. rewrite Hb5, Hl5. lia.
Qed.

Definition comma_loop_ends (fuel : nat) : Prop :=
  ∀ r ne st, (10 * weight st (last_token st) + 1 <= fuel)%nat →
    ends (within (weight st (last_token st))) (comma_loop uflag name_addr fuel r ne st).

Lemma comma_loop_end fuel :
  list_ends (assignment uflag name_addr) 6 fuel → comma_loop_ends fuel → comma_loop_ends (S fuel).
Proof.
  intros IHa IHl r ne st Hf. cbn [comma_loop]. rewrite last_bind.
  destruct (Z.eqb_spec (last_token st) ARITH_COMMA) as [Heq|]; cbn [negb]; [|apply ends_ret].
  rewrite Heq, weight_pos in * by done.
  eapply ends_bind; [apply (ends_token st (λ t st', weight st' t <= length (arith_buf st))%nat); auto|].
  intros t st2 Hw2. cbv beta in Hw2. eapply ends_bind; [apply IHa; lia|]. intros r2 st3 Hw3.
  unfold within in Hw3. eapply ends_mono; [apply IHl; lia|]. unfold within. intros; lia.
Qed.

Lemma comma_list_ends fuel :
  list_ends (assignment uflag name_addr) 6 fuel → comma_loop_ends fuel →
  list_ends (comma_list uflag name_addr) 7 (S fuel).
Proof.
  intros IHa IHl c ne st Hf. cbn [comma_list].
  eapply ends_bind; [apply IHa; lia|]. intros r st1 Hw. unfold within in Hw.
  eapply ends_mono; [apply IHl; lia|]. unfold within. intros; lia.
Qed.

Lemma levels_end fuel :
  level_ends (primary uflag name_addr) 1 fuel ∧
  (∀ a op K ne st, is_binop op = true → (10 * weight st op + 1 <= fuel)%nat →
     ends (within (weight st op)) (binop2 uflag name_addr fuel a op K ne st)) ∧
  level_ends (binop uflag name_addr) 2 fuel ∧ level_ends (and uflag name_addr) 3 fuel ∧
  level_ends (or uflag name_addr) 4 fuel ∧ level_ends (cond uflag name_addr) 5 fuel ∧
  list_ends (assignment uflag name_addr) 6 fuel ∧ comma_loop_ends fuel ∧
  list_ends (comma_list uflag name_addr) 7 fuel.
Proof.
  induction fuel as [|fuel (I1 & I2 & I3 & I4 & I5 & I6 & I7 & I8 & I9)].
  { split_and!; repeat intro; lia. }
  split_and!; auto using primary_ends, binop2_ends, binop_ends, and_ends, or_ends,
    cond_ends, assignment_ends, comma_loop_end, comma_list_ends.
Qed.

Lemma arith_ends s lno st : arith uflag name_addr s lno st ≠ OutOfFuel.
Proof.
  unfold arith. fold (first_line s lno). set (st0 := AState _ _ _ _ _ _).
  assert (ends (λ _ _, True) ((t ← arith_token name_addr;
    result ← comma_list uflag name_addr (arith_fuel s) t false; t ← get_last;
    if negb (t =? 0) then arith_err (str "expecting end of expression") else mret result) st0)) as He.
  { eapply ends_bind; [apply (ends_token st0 (λ t st', weight st' t <= length s)%nat); auto|].
    intros t st1 Hw. cbv beta in Hw. destruct (levels_end (arith_fuel s)) as (_ & _ & _ & _ & _ & _ & _ & _ & Hl).
    eapply ends_bind; [apply Hl; unfold arith_fuel; lia|]. intros r st2 _. rewrite last_bind.
    by destruct (negb _). }
  intros Hx. by rewrite Hx in He.
Qed.
End Ends.
