(* ===== verification/ArithText.v ===== *)
(** * Shell arithmetic: texts and values

    The values of expressions are 64-bit numbers, texts are read as their tokens, and the
    properties of [arith] as a whole *)

From S2P Require Import Prelude Libc Arith ArithSpec ArithSound ArithEnds.

Section Text.
Context {V : Type} {VV : Vars V} (uflag : bool) (name_addr : list Z → Z).
#[local] Notation get_var := (get_var uflag).
#[local] Notation climb := (climb uflag name_addr).
#[local] Notation eval := (eval uflag).

(** ** Bounds *)

Definition intmax_range (v : Z) : Prop := INTMAX_MIN <= v <= INTMAX_MAX.

Lemma s64_in_range z : intmax_range (s64 z).
Proof.
  unfold intmax_range, s64, INTMAX_MIN, INTMAX_MAX.
  pose proof (Z.mod_pos_bound (z + 2 ^ 63) (2 ^ 64)). lia.
Qed.

Lemma signed_in_range z v : signed z = inl v → intmax_range v.
Proof.
  unfold signed, intmax_range, INTMAX_MIN, INTMAX_MAX. case_bool_decide; [|done]. intros [= <-]. lia.
Qed.

Lemma in_range_shift v : intmax_range v ↔ Z.shiftr v 63 = 0 ∨ Z.shiftr v 63 = -1.
Proof.
  unfold intmax_range, INTMAX_MIN, INTMAX_MAX. rewrite Z.shiftr_div_pow2 by lia.
  pose proof (Z.div_mod v (2 ^ 63)). pose proof (Z.mod_pos_bound v (2 ^ 63)). lia.
Qed.

Lemma bitwise_in_range f a b :
  (∀ a b n, Z.shiftr (f a b) n = f (Z.shiftr a n) (Z.shiftr b n)) →
  (∀ a b, a ∈ [0; -1] → b ∈ [0; -1] → f a b ∈ [0; -1]) →
  intmax_range a → intmax_range b → intmax_range (f a b).
Proof.
  rewrite !in_range_shift. intros Hs Hf Ha Hb. rewrite Hs.
  assert (f (Z.shiftr a 63) (Z.shiftr b 63) ∈ [0; -1]) as Hin.
  { apply Hf; rewrite !elem_of_cons; naive_solver. }
  rewrite !elem_of_cons in Hin. set_solver.
Qed.

Lemma shiftr_in_range a k : intmax_range a → 0 <= k → intmax_range (a `div` 2 ^ k).
Proof.
  unfold intmax_range, INTMAX_MIN, INTMAX_MAX. intros Ha Hk. assert (0 < 2 ^ k) by (by apply Z.pow_pos_nonneg).
  split; [apply Z.div_le_lower_bound; nia|]. apply Z.div_le_upper_bound; [done|nia].
Qed.

Lemma quot_rem_in_range a b :
  intmax_range a → intmax_range b → b ≠ 0 → ¬ (a = - 2 ^ 63 ∧ b = -1) →
  intmax_range (Z.quot a b) ∧ intmax_range (Z.rem a b).
Proof.
  unfold intmax_range, INTMAX_MIN, INTMAX_MAX. intros Ha Hb Hb0 Hov.
  pose proof (Z.quot_rem' a b) as Hqr. pose proof (Z.rem_bound_abs a b Hb0) as Hr.
  pose proof (Z.rem_sign_mul a b Hb0) as Hs.
  split; [|lia]. destruct (decide (b = 1 ∨ b = -1)) as [[-> | ->]|Hb1].
  - rewrite Z.quot_1_r. lia.
  - change (-1) with (- (1)). rewrite Z.quot_opp_r, Z.quot_1_r by done. lia.
  - assert (2 * Z.abs (Z.quot a b) <= Z.abs (Z.quot a b) * Z.abs b) by nia.
    rewrite <- Z.abs_mul in *. nia.
Qed.

Lemma c_binop_in_range op a b v :
  intmax_range a → intmax_range b → c_binop op a b = inl v → intmax_range v.
Proof.
  intros Ha Hb. unfold c_binop.
  assert (∀ c : bool, intmax_range (Z.b2z c)) as Hbool by (by intros []).
  destruct (_ || _).
  { case_bool_decide; [done|]. case_bool_decide; [done|]. intros [= <-].
    destruct (quot_rem_in_range a b) as [? ?]; [done..|]. by destruct (_ =? _). }
  intros [= <-]. pose proof s64_in_range. repeat case_match; try done.
  - apply shiftr_in_range; [done|]. apply Z.mod_pos_bound. lia.
  - apply bitwise_in_range; [apply Z.shiftr_land|set_solver|done..].
  - apply bitwise_in_range; [apply Z.shiftr_lxor|set_solver|done..].
  - apply bitwise_in_range; [apply Z.shiftr_lor|set_solver|done..].
Qed.

Lemma numeric_in_range text v : numeric text = Some v → intmax_range v.
Proof.
  unfold numeric. set (s := match text with Some (c :: t) => c :: t | _ => _ end).
  destruct (strtoimax s 0) as [[w p] err] eqn:Hs.
  assert (intmax_range w) as Hw.
  { revert Hs. unfold strtoimax, intmax_range. destruct (strto_scan 0 s) as [[[neg m] rest]|]; [|by intros [= <- _ _]].
    unfold INTMAX_MIN, INTMAX_MAX. Zcases; intros [= <- _ _]; lia. }
  repeat case_match; intros [= <-]; done.
Qed.

(** The numbers of an expression. *)
Fixpoint nums_ok (e : expr) : Prop :=
  match e with
  | ENum v => intmax_range v
  | EVar _ _ | EPre _ _ _ | EPost _ _ _ => True
  | EUnary _ e | EAssign _ e | EAssop _ _ _ e => nums_ok e
  | EBin _ e1 e2 | EAnd e1 e2 | EOr e1 e2 | EComma e1 e2 => nums_ok e1 ∧ nums_ok e2
  | ECond e1 e2 e3 => nums_ok e1 ∧ nums_ok e2 ∧ nums_ok e3
  end.

Lemma vbind_inl (r : @value V) k vs v :
  vbind r k = (vs, inl v) → ∃ u vs1, r = (vs1, inl u) ∧ k u vs1 = (vs, inl v).
Proof. destruct r as [vs1 [u|d]]; [eauto|done]. Qed.

Lemma get_var_in_range n l vs vs' v : get_var n l vs = (vs', inl v) → intmax_range v.
Proof.
  unfold get_var. destruct (lookupvar vs l n) as [text vs1]. destruct (_ && _); [done|].
  destruct (numeric text) eqn:Hn; [|done]. intros [= _ <-]. by eapply numeric_in_range.
Qed.
Lemma set_var_value n w res vs vs' v : set_var n w res vs = (vs', inl v) → v = res.
Proof. unfold set_var. destruct (setvar _ _ _) as [vs1 []]; by intros [= _ <-]. Qed.

Lemma eval_in_range e vs vs' w : nums_ok e → eval e vs = (vs', inl w) → intmax_range w.
Proof.
  assert (∀ c : bool, intmax_range (Z.b2z c)) as Hbool by (by intros []).
  revert vs vs' w. induction e; intros vs vs' w Hn; simpl in *.
  - by intros [= _ <-].
  - apply get_var_in_range.
  - intros (u & vs1 & _ & H)%vbind_inl. destruct (signed _) as [z|] eqn:Hz; [|done].
    apply set_var_value in H as ->. by eapply signed_in_range.
  - intros (u & vs1 & Hg & H)%vbind_inl. destruct (signed _) as [z|]; [|done].
    apply set_var_value in H as ->. by eapply get_var_in_range.
  - intros (u & vs1 & He & [= _ Hu])%vbind_inl. specialize (IHe _ _ _ Hn He). revert Hu.
    unfold c_unary. destruct (_ =? _); [apply signed_in_range|].
    destruct (_ =? _); [intros [= <-]; apply Hbool|].
    destruct (_ =? _); intros [= <-]; [|done]. unfold intmax_range, INTMAX_MIN, INTMAX_MAX in *. lia.
  - destruct Hn as [Hn1 Hn2]. intros (a & vs1 & H1 & (b & vs2 & H2 & [= _ Hb])%vbind_inl)%vbind_inl.
    eauto using c_binop_in_range.
  - intros (a & vs1 & H1 & H2)%vbind_inl. destruct (truth a); [|by injection H2 as _ <-].
    apply vbind_inl in H2 as (b & vs2 & _ & [= _ <-]). apply Hbool.
  - intros (a & vs1 & H1 & H2)%vbind_inl. destruct (truth a); [by injection H2 as _ <-|].
    apply vbind_inl in H2 as (b & vs2 & _ & [= _ <-]). apply Hbool.
  - destruct Hn as (Hn1 & Hn2 & Hn3). intros (a & vs1 & H1 & H2)%vbind_inl.
    destruct (truth a); eauto.
  - intros (u & vs1 & He & ->%set_var_value)%vbind_inl. eauto.
  - intros (b & vs1 & He & (a & vs2 & Hg & Ha)%vbind_inl)%vbind_inl.
    destruct (c_binop op a b) as [r|d] eqn:Hr; [|done]. apply set_var_value in Ha as ->.
    eauto using c_binop_in_range, get_var_in_range.
  - destruct Hn as [Hn1 Hn2]. intros (a & vs1 & H1 & H2)%vbind_inl. eauto.
Qed.

Definition num_token_ok (t : token) : Prop := match t with Num v => intmax_range v | _ => True end.

Lemma derives_nums L ts e : derives L ts e → Forall num_token_ok ts → nums_ok e.
Proof.
  induction 1; simpl; rewrite ?Forall_cons, ?Forall_app, ?Forall_cons, ?Forall_app, ?Forall_cons;
    naive_solver.
Qed.

Lemma lexes_nums s l ts : lexes name_addr s l ts → Forall num_token_ok ts.
Proof.
  induction 1 as [| |s l v r l' ts Ht _ IH|]; [done|by constructor| |by constructor].
  constructor; [|done]. simpl. revert l Ht. induction s as [|x s IHs]; intros l; cbn [token_loop]; [done|].
  destruct (isdigit x) eqn:Hd.
  { destruct (strtoimax (x :: s) 0) as [[v' e] er] eqn:Hs. case_match; [done|]. intros [= -> _ _].
    revert Hs. unfold strtoimax, intmax_range. destruct (strto_scan 0 _) as [[[neg m] rest]|]; [|by intros [= <- _ _]].
    unfold INTMAX_MIN, INTMAX_MAX. Zcases; intros [= <- _ _]; lia. }
  destruct (is_name x); [by destruct (name_run s)|].
  destruct (x =? 10); [apply IHs|]. destruct ((x =? 32) || (x =? 9)); [apply IHs|].
  destruct (x =? 0); [done|]. by destruct (operator x s) as [[t r']|].
Qed.

(** ** Reading back what is written

    The spelling of the tokens, each followed by a blank, is read as those tokens. *)
Definition op_spellings : list (Z * list Z) :=
  [(ARITH_ASS, str "="); (ARITH_OR, str "||"); (ARITH_AND, str "&&"); (ARITH_NOT, str "!");
   (ARITH_LE, str "<="); (ARITH_GE, str ">="); (ARITH_LT, str "<"); (ARITH_GT, str ">");
   (ARITH_EQ, str "=="); (ARITH_REM, str "%"); (ARITH_BAND, str "&"); (ARITH_LSHIFT, str "<<");
   (ARITH_RSHIFT, str ">>"); (ARITH_MUL, str "*"); (ARITH_ADD, str "+"); (ARITH_BOR, str "|");
   (ARITH_SUB, str "-"); (ARITH_BXOR, str "^"); (ARITH_DIV, str "/"); (ARITH_NE, str "!=");
   (ARITH_ASS_GAP + ARITH_REM, str "%="); (ARITH_ASS_GAP + ARITH_BAND, str "&=");
   (ARITH_ASS_GAP + ARITH_LSHIFT, str "<<="); (ARITH_ASS_GAP + ARITH_RSHIFT, str ">>=");
   (ARITH_ASS_GAP + ARITH_MUL, str "*="); (ARITH_ASS_GAP + ARITH_ADD, str "+=");
   (ARITH_ASS_GAP + ARITH_BOR, str "|="); (ARITH_ASS_GAP + ARITH_SUB, str "-=");
   (ARITH_ASS_GAP + ARITH_BXOR, str "^="); (ARITH_ASS_GAP + ARITH_DIV, str "/=");
   (ARITH_LPAREN, str "("); (ARITH_RPAREN, str ")"); (ARITH_BNOT, str "~");
   (ARITH_QMARK, str "?"); (ARITH_COLON, str ":"); (ARITH_INCR, str "++");
   (ARITH_DECR, str "--"); (ARITH_COMMA, str ",")].

Definition is_identifier (n : list Z) : Prop :=
  match n with c :: n' => is_name c = true ∧ Forall (λ c, is_in_name c = true) n' | [] => False end.

(** [spells l t s]: the token [t], on line [l], is written [s]. *)
Definition spells (l : Z) (t : token) (s : list Z) : Prop :=
  match t with
  | Op c => (c, s) ∈ op_spellings
  | Num v => 0 <= v <= INTMAX_MAX ∧ s = print_int v
  | Var n _ k => is_identifier n ∧ s = n ∧ k = l
  end.

(** Tokens up to the addresses of the names. *)
Definition same_token (t t' : token) : Prop :=
  match t, t' with Var n _ k, Var n' _ k' => n = n' ∧ k = k' | _, _ => t = t' end.

Definition blanks (ss : list (list Z)) : list Z := concat ((λ s, s ++ [ch " "]) <$> ss).

Lemma lexes_blank s l ts : lexes name_addr s l ts → lexes name_addr (32 :: s) l ts.
Proof. intros H. inversion H; subst; econstructor; eauto. Qed.

Lemma op_spelled c s rest l :
  (c, s) ∈ op_spellings →
  token_loop name_addr (s ++ 32 :: rest) l = Lexeme c None (32 :: rest) l
  ∧ c ≠ 0 ∧ c ≠ ARITH_NUM ∧ c ≠ ARITH_VAR.
Proof.
  unfold op_spellings. intros Hin.
  repeat (apply elem_of_cons in Hin as [[= -> ->]|Hin]; [split; [reflexivity|done]|]).
  by apply elem_of_nil in Hin.
Qed.

Lemma num_spelled v rest l :
  0 <= v <= INTMAX_MAX →
  token_loop name_addr (print_int v ++ 32 :: rest) l = Lexeme ARITH_NUM (Some (TVal v)) (32 :: rest) l.
Proof.
  intros Hv. assert (strtoimax (print_int v ++ 32 :: rest) 0 = (v, 32 :: rest, 0)) as Hs.
  { destruct (decide (v = 0)) as [->|]; [by destruct rest|]. unfold print_int.
    rewrite (proj2 (Z.ltb_ge v 0)) by lia. apply strtol_print; [lia|by right]. }
  assert (∃ c ds, print_int v = c :: ds ∧ isdigit c = true) as (c & ds & Heq & Hc).
  { unfold print_int. rewrite (proj2 (Z.ltb_ge v 0)) by lia.
    pose proof (print_uint_digits v) as Hd. pose proof (print_uint_nonempty v) as Hne.
    destruct (print_uint v) as [|c ds]; [simpl in Hne; lia|]. inversion Hd. eauto. }
  rewrite Heq in *. cbn [app token_loop] in *. by rewrite Hc, Hs.
Qed.

Lemma name_spelled n rest l :
  is_identifier n →
  token_loop name_addr (n ++ 32 :: rest) l =
    Lexeme ARITH_VAR (Some (TName n (name_addr (n ++ 32 :: rest)))) (32 :: rest) l.
Proof.
  destruct n as [|c n]; [done|]. intros [Hc Hn]. cbn [app token_loop].
  assert (isdigit c = false) as ->.
  { unfold is_name, isupper, islower, isdigit in *. revert Hc. Zcases; simpl; try done; lia. }
  rewrite Hc. assert (name_run (n ++ 32 :: rest) = (n, 32 :: rest)) as ->; [|done].
  induction Hn as [|d n Hd Hn IH]; [done|]. simpl. by rewrite Hd, IH.
Qed.

Lemma lexes_text l ts ss :
  Forall2 (spells l) ts ss →
  ∃ ts', lexes name_addr (blanks ss) l ts' ∧ Forall2 same_token ts ts'.
Proof.
  induction 1 as [|t s ts ss Ht _ (ts' & Hl & Hts)].
  { exists []. split; [by eapply lexes_end|done]. }
  unfold blanks in *. simpl. rewrite <- app_assoc. simpl app.
  destruct t as [c|v|n a k]; simpl in Ht.
  - destruct (op_spelled c s (concat ((λ s, s ++ [32]) <$> ss)) l Ht) as (Htl & C0 & C1 & C2).
    exists (Op c :: ts'). split; [|by constructor].
    eapply lexes_op; [apply Htl|done..|by apply lexes_blank].
  - destruct Ht as [Hv ->]. exists (Num v :: ts'). split; [|by constructor].
    eapply lexes_num; [by apply num_spelled|by apply lexes_blank].
  - destruct Ht as (Hn & -> & ->). eexists (Var n _ l :: ts'). split; [|by constructor].
    eapply lexes_var; [by apply name_spelled|by apply lexes_blank].
Qed.

(** A derivation does not depend on the addresses of the names. *)
Lemma same_last_line l ts ts' : Forall2 same_token ts ts' → last_line l ts = last_line l ts'.
Proof.
  intros H. revert l. induction H as [|t t' ts ts' Ht _ IH]; intros l; [done|]. simpl. rewrite IH.
  f_equal. destruct t, t'; simpl in *; try done. by destruct Ht.
Qed.

Lemma same_token_op c t : same_token (Op c) t → t = Op c.
Proof. by destruct t; simpl; intros; simplify_eq. Qed.

Lemma derives_same L ts e ts' : derives L ts e → Forall2 same_token ts ts' → derives L ts' e.
Proof.
  intros Hd. revert ts'. induction Hd; intros ts' Hs;
    repeat match goal with
    | H : Forall2 same_token (_ :: _) _ |- _ => apply Forall2_cons_inv_l in H as (? & ? & ? & ? & ->)
    | H : Forall2 same_token [] _ |- _ => apply Forall2_nil_inv_l in H as ->
    | H : Forall2 same_token (_ ++ _) _ |- _ => apply Forall2_app_inv_l in H as (? & ? & ? & ? & ->)
    | H : same_token (Op _) _ |- _ => apply same_token_op in H as ->
    end.
  all: try (by econstructor; eauto).
  all: match goal with H : same_token _ ?x |- _ => destruct x; try done; simpl in H end.
  all: first [by simplify_eq; constructor|destruct_and!; subst; try by econstructor; eauto].
  match goal with H : Forall2 same_token _ _ |- _ => rewrite (same_last_line _ _ _ H) end.
  by apply d_assop; eauto.
Qed.


(** What [setvarint] writes is read back. *)
Lemma numeric_print v : intmax_range v → numeric (Some (print_int v)) = Some v.
Proof.
  unfold intmax_range, INTMAX_MIN, INTMAX_MAX. intros Hv. destruct (decide (v = 0)) as [->|Hv0]; [done|].
  unfold numeric, print_int, strtoimax, strto_scan. destruct (Z.ltb_spec v 0).
  - change (skip_space (45 :: print_uint (- v))) with (45 :: print_uint (- v)).
    change (strto_sign (45 :: print_uint (- v))) with (true, print_uint (- v)).
    destruct (strto_print (- v) [] ltac:(lia) (or_introl eq_refl)) as (Hf & Hp & Hd).
    rewrite app_nil_r in *. cbn iota beta. rewrite Hp, Hd.
    rewrite (proj2 (Z.ltb_lt (digit_val _) _)) by (rewrite digit_val_digit by (apply isdigit_range; lia); lia).
    unfold INTMAX_MIN, INTMAX_MAX. rewrite Z.opp_involutive.
    rewrite (proj2 (Z.ltb_ge _ _)), (proj2 (Z.ltb_ge _ _)) by lia. done.
  - destruct (strto_print v [] ltac:(lia) (or_introl eq_refl)) as (Hf & Hp & Hd).
    rewrite app_nil_r in *. destruct (print_uint v) as [|c ds] eqn:Hpr; [simpl in Hf; lia|].
    simpl peek in Hf. assert (isspace c = false) as Hsp by (unfold isspace; Zcases; first [lia|done]).
    cbn [skip_space]. rewrite Hsp. cbn [strto_sign].
    rewrite (proj2 (Z.eqb_neq c 45)), (proj2 (Z.eqb_neq c 43)) by lia. rewrite Hp, Hd. cbn [peek].
    rewrite (proj2 (Z.ltb_lt (digit_val _) _)) by (rewrite digit_val_digit by (apply isdigit_range; lia); lia).
    unfold INTMAX_MIN, INTMAX_MAX.
    rewrite (proj2 (Z.ltb_ge _ _)), (proj2 (Z.ltb_ge _ _)) by lia. done.
Qed.
End Text.

(** ** The properties *)

(** A store for the examples: an association list, in which nothing is read-only. *)
Fixpoint store_get (vs : list (list Z * list Z)) (n : list Z) : option (list Z) :=
  match vs with
  | [] => None
  | (m, t) :: vs => if decide (m = n) then Some t else store_get vs n
  end.
#[local] Instance store_vars : Vars (list (list Z * list Z)) := {|
  lookupvar vs _ n := (store_get vs n, vs);
  setvar vs n t := ((n, t) :: vs, true)
|}.
Definition store_shell (vs : list (list Z * list Z)) : astate (list (list Z * list Z)) :=
  AState [] (TVal 0) 0 0 0 vs.

(** C9.  [arith] is the evaluator of C's expressions: on a text whose tokens the grammar
    of ISO C derives an expression from, it returns the value of the expression, with the
    effects on the variables in order and those of operands that are not evaluated left
    out, or stops with the error that evaluation meets first; it never runs out of fuel.
    Where C leaves a negation or an increment undefined, it overflows, and so it may in an
    expression that is not calm, one in which an operand that may be skipped holds a
    negation of what is not surely a pointer, a number, a truth value or a negation of
    these. *)
Theorem arith_evaluates {V} `{!Vars V} uflag name_addr s lno st ts e :
  name_safe name_addr → lexes name_addr s (first_line s lno) ts → derives 13 ts e →
  (calm e = false ∧ arith uflag name_addr s lno st = Overflow) ∨
  match eval uflag e (vars st) with
  | (vs, inl v) => ∃ st', arith uflag name_addr s lno st = Done v st' ∧ vars st' = vs
  | (vs, inr (Halt d)) => ∃ st', arith uflag name_addr s lno st = Error d st' ∧ vars st' = vs
  | (_, inr Undefined) => arith uflag name_addr s lno st = Overflow
  end.
Proof.
  intros Hsafe Hl Hd. destruct (arith_derived uflag name_addr s lno st ts e Hl Hd) as [[-> Hov]|H].
  - left. split; [by apply Hov|done].
  - right. destruct (eval uflag e (vars st)) as [vs [v|[d|]]]; [done|done|]. by destruct H as (? & ? & _).
Qed.

(** C18.  A text that [arith] accepts is an expression of the grammar of ISO C, and what it
    returns is the value of that expression, a number of 64 bits reached without a
    signed overflow. *)
Theorem arith_accepts {V} `{!Vars V} uflag name_addr s lno st v st' :
  arith uflag name_addr s lno st = Done v st' →
  INTMAX_MIN <= v <= INTMAX_MAX ∧
  ∃ ts e, lexes name_addr s (first_line s lno) ts ∧ derives 13 ts e
    ∧ eval uflag e (vars st) = (vars st', inl v).
Proof.
  intros H. destruct (arith_sound _ _ _ _ _ _ _ H) as (ts & e & Hl & Hd).
  destruct (arith_derived uflag name_addr s lno st ts e Hl Hd) as [[Ho _]|Heval]; [congruence|].
  destruct (eval uflag e (vars st)) as [vs [w|h]] eqn:He; destruct Heval as (st2 & Heq & Hvs);
    rewrite H in Heq; [|by destruct h].
  injection Heq as <- <-. subst vs. split; [|by exists ts, e].
  eapply eval_in_range; [|exact He]. by eapply derives_nums, lexes_nums.
Qed.

(** C30.  [arith] ends on every text, whatever the shell's variables hold and whatever an
    earlier call has left behind: the bound on the recursion is never reached. *)
Theorem arith_terminates {V} `{!Vars V} uflag name_addr s lno (st : astate V) :
  arith uflag name_addr s lno st ≠ OutOfFuel.
Proof. apply arith_ends. Qed.

(** C39.  The lexer reads any sequence of tokens back from its spelling: operators,
    numbers up to [INTMAX_MAX] in decimal, and names, with blanks between. *)
Theorem arith_token_reads_back name_addr l ts ss :
  Forall2 (spells l) ts ss →
  ∃ ts', lexes name_addr (blanks ss) l ts' ∧ Forall2 same_token ts ts'.
Proof. apply lexes_text. Qed.

(** The number [setvarint] stores in a variable is the one a later reference reads. *)
Theorem setvarint_reads_back {V} `{!Vars V} uflag n v line st st' :
  (∀ vs vs' l m t, setvar vs m t = (vs', true) → (lookupvar vs' l m).1 = Some t) →
  INTMAX_MIN <= v <= INTMAX_MAX →
  setvarint n v st = Done () st' →
  ∃ st2, arith_lookupvarint uflag n (AState (arith_buf st') (a_t_val st') (last_token st')
    (arith_lno st') line (vars st')) = Done v st2.
Proof.
  intros Hlaw Hv. unfold setvarint. rewrite format_result_ok.
  destruct (setvar (vars st) n (print_int v)) as [vs []] eqn:Hset; [|done]. intros [= <-].
  specialize (Hlaw _ _ line _ _ Hset). rewrite lookup_run. simpl. unfold get_var.
  destruct (lookupvar vs line n) as [text vs2]. simpl in Hlaw. subst text.
  rewrite numeric_print by done. rewrite bool_decide_eq_false_2, andb_false_r by done. by eexists.
Qed.

(** ** Examples *)

(** [x = 2 + 3 * 4, x++ && 0] *)
Definition example_text : list Z := str "x = 2 + 3 * 4, x++ && 0".
Definition example_tokens : list token :=
  [Var (str "x") 0 1; Op ARITH_ASS; Num 2; Op ARITH_ADD; Num 3; Op ARITH_MUL; Num 4;
   Op ARITH_COMMA; Var (str "x") 0 1; Op ARITH_INCR; Op ARITH_AND; Num 0].
Definition example_expr : expr :=
  EComma (EAssign (str "x") (EBin ARITH_ADD (ENum 2) (EBin ARITH_MUL (ENum 3) (ENum 4))))
    (EAnd (EPost (str "x") 1 1) (ENum 0)).

Lemma derives_raise k L ts e : derives L ts e → 0 <= L → L + Z.of_nat k <= 13 →
  derives (L + Z.of_nat k) ts e.
Proof. intros. eapply derives_lift; [done|lia|lia]. Qed.

Lemma example_lexes : lexes (λ _, 0) example_text 1 example_tokens.
Proof.
  repeat first
    [ by eapply lexes_end; reflexivity | eapply lexes_op; [reflexivity|done..|]
    | eapply lexes_num; [reflexivity|] | eapply lexes_var; [reflexivity|] ].
Qed.

Ltac raise k L := refine (derives_raise k L _ _ _ _ _); [|done|done].

Lemma example_derives : derives 13 example_tokens example_expr.
Proof.
  refine (d_comma [Var _ _ _; Op _; Num _; Op _; Num _; Op _; Num _] _ _ _ _ _).
  - raise 1%nat 12. apply d_assign. raise 10%nat 2. refine (d_bin ARITH_ADD [Num _] _ _ _ _ _ _); [done|..].
    + raise 2%nat 0. apply d_num.
    + refine (d_bin ARITH_MUL [Num _] _ _ _ _ _ _); [done|raise 1%nat 0; apply d_num|apply d_num].
  - raise 3%nat 9. refine (d_and [Var _ _ _; Op _] _ _ _ _ _).
    + raise 8%nat 0. by apply d_post.
    + raise 9%nat 0. apply d_num.
Qed.

Lemma arith_evaluates_witness :
  ∃ st', arith false (λ _, 0) example_text 1 (store_shell []) = Done 0 st'
    ∧ vars st' = [(str "x", str "15"); (str "x", str "14")].
Proof.
  destruct (arith_evaluates false (λ _, 0) example_text 1 (store_shell []) _ _
    ltac:(done) example_lexes example_derives) as [[Hcalm _]|H]; [discriminate Hcalm|exact H].
Defined.

Lemma arith_accepts_witness :
  INTMAX_MIN <= 3 <= INTMAX_MAX ∧
  ∃ ts e, lexes (λ _, 0) (str "1 + 2") (first_line (str "1 + 2") 1) ts ∧ derives 13 ts e
    ∧ eval false e (vars (store_shell [])) = ([], inl 3).
Proof.
  apply (arith_accepts false (λ _, 0) (str "1 + 2") 1 (store_shell []) 3 (AState [] (TVal 2) 0 1 0 [])).
  reflexivity.
Defined.

Lemma arith_token_reads_back_witness :
  ∃ ts', lexes (λ _, 0) (str "x += 7 ") 1 ts'
    ∧ Forall2 same_token [Var (str "x") 0 1; Op (ARITH_ASS_GAP + ARITH_ADD); Num 7] ts'.
Proof.
  apply (arith_token_reads_back (λ _, 0) 1 _ [str "x"; str "+="; str "7"]).
  repeat constructor; simpl; done.
Defined.

Lemma setvarint_reads_back_witness :
  ∃ st2, arith_lookupvarint false (str "x") (AState [] (TVal 0) 0 0 9 [(str "x", str "-5")])
    = Done (-5) st2.
Proof.
  apply (setvarint_reads_back false (str "x") (-5) 9 (store_shell [])
    (AState [] (TVal 0) 0 0 0 [(str "x", str "-5")])); [|done|reflexivity].
  intros vs vs' l m t [= <-]. simpl. by rewrite decide_True.
Defined.

(** ** Defects *)

(** [++x 5]: the token after the name is read before the name is used, and the two share
    the global [a_t_val], so the number is used as the pointer to the name. *)
Lemma incr_uses_number_as_name {V} `{!Vars V} uflag name_addr lno (st : astate V) :
  arith uflag name_addr (str "++x 5") lno st = Wild.
Proof. reflexivity. Qed.

(** [-x] and [++x] at the ends of [intmax_t], and a negation in an operand that is not
    wanted, [0 && -~9223372036854775807], are signed overflows. *)
Lemma negation_overflows name_addr :
  arith false name_addr (str "-x") 1 (store_shell [(str "x", str "-9223372036854775808")]) = Overflow.
Proof. reflexivity. Qed.
Lemma increment_overflows name_addr :
  arith false name_addr (str "++x") 1 (store_shell [(str "x", str "9223372036854775807")]) = Overflow.
Proof. reflexivity. Qed.
Lemma skipped_negation_overflows name_addr :
  arith false name_addr (str "0 && -~9223372036854775807") 1 (store_shell []) = Overflow.
Proof. reflexivity. Qed.
