(* ===== verification/Menuc.v ===== *)
(** * The symbol table of menuc (usr.bin/menuc/avl.c, mdb.c)

    Menus are named in the source menuc compiles, before or after they are defined.
    [get_menu] gives every name one record and one number; the records are kept in a
    balanced tree by name ([find_id], [insert_id]) and in an array by number. *)

From Stdlib Require Import Sorted.
From S2P Require Import Prelude Libc.

(** ** Code *)

(** [id_rec], less the fields of the tree and the definition the parser fills in. *)
Record id_rec : Type := IdRec { id_name : list Z; rec_menu_no : Z }.

Inductive tree : Type :=
  | Null
  | Node (rec : id_rec) (balance : Z) (left_tree right_tree : tree).

Fixpoint find_id (tr : tree) (id : list Z) : option id_rec :=
  match tr with
  | Null => None
  | Node rec _ l r =>
      let cmp_result := strcmp id (id_name rec) in
      if cmp_result =? 0 then Some rec
      else if cmp_result <? 0 then find_id l id
      else find_id r id
  end.

(** A [short]. *)
Definition s16 (z : Z) : Z := (z + 2 ^ 15) mod 2 ^ 16 - 2 ^ 15.

(** The rebalancing of [A], whose left subtree is too high: a single or a double
    rotation.  The pointers followed must not be NULL. *)
Definition rebalance_left (A : tree) : res tree :=
  match A with
  | Node a a_bal (Node b b_bal bl br) ar =>
      if b_bal <=? 0 then Ok (Node b 0 bl (Node a 0 br ar))
      else match br with
           | Node root bal rl rr =>
               let '(a_bal, b_bal) :=
                 if bal =? -1 then (1, 0)
                 else if bal =? 0 then (0, 0)
                 else if bal =? 1 then (0, -1)
                 else (a_bal, b_bal) in
               Ok (Node root 0 (Node b b_bal bl rl) (Node a a_bal rr ar))
           | Null => Fault
           end
  | _ => Fault
  end.

Definition rebalance_right (A : tree) : res tree :=
  match A with
  | Node a a_bal al (Node b b_bal bl br) =>
      if 0 <=? b_bal then Ok (Node b 0 (Node a 0 al bl) br)
      else match bl with
           | Node root bal rl rr =>
               let '(a_bal, b_bal) :=
                 if bal =? -1 then (0, 1)
                 else if bal =? 0 then (0, 0)
                 else if bal =? 1 then (-1, 0)
                 else (a_bal, b_bal) in
               Ok (Node root 0 (Node a a_bal al rl) (Node b b_bal rr br))
           | Null => Fault
           end
  | _ => Fault
  end.

(** [insert_id]: whether the tree has grown in height, and the tree. *)
Fixpoint insert_id (root : tree) (new_id : id_rec) : res (bool * tree) :=
  match root with
  | Null => Ok (true, Node new_id 0 Null Null)
  | Node rec balance l r =>
      if strcmp (id_name new_id) (id_name rec) <? 0 then
        let* (grew, l) := insert_id l new_id in
        if grew : bool then
          let balance := s16 (balance - 1) in
          if balance =? 0 then Ok (false, Node rec balance l r)
          else if balance =? -1 then Ok (true, Node rec balance l r)
          else if balance =? -2 then
            let* root := rebalance_left (Node rec balance l r) in Ok (false, root)
          else Ok (false, Node rec balance l r)
        else Ok (false, Node rec balance l r)
      else
        let* (grew, r) := insert_id r new_id in
        if grew : bool then
          let balance := s16 (balance + 1) in
          if balance =? 0 then Ok (false, Node rec balance l r)
          else if balance =? 1 then Ok (true, Node rec balance l r)
          else if balance =? 2 then
            let* root := rebalance_right (Node rec balance l r) in Ok (false, root)
          else Ok (false, Node rec balance l r)
        else Ok (false, Node rec balance l r)
  end.

(** The globals of mdb.c; [menus] holds the entries of the array from 1 to [menu_no]. *)
Record mdb : Type := Mdb { root : tree; menu_no : Z; menus : list id_rec }.
Definition MAX : Z := 1000.
Definition mdb0 : mdb := Mdb Null 1 [].

(** [get_menu]; memory is not exhausted.  [Err 1] is the exit with "Too many menus". *)
Definition get_menu (st : mdb) (name : list Z) : res (id_rec * mdb) :=
  match find_id (root st) name with
  | Some temp => Ok (temp, st)
  | None =>
      if menu_no st <? MAX then
        let temp := IdRec name (menu_no st) in
        let* (_, root) := insert_id (root st) temp in
        Ok (temp, Mdb root (menu_no st + 1) (menus st ++ [temp]))
      else Err 1
  end.

(** The names [check_defined] complains of; [info] says which menus are defined. *)
Definition check_defined (info : Z → bool) (st : mdb) : list (list Z) :=
  id_name <$> filter (λ r, info (rec_menu_no r) = false) (menus st).

(** The numbers of a sequence of names. *)
Fixpoint get_menus (st : mdb) (names : list (list Z)) : res (list Z * mdb) :=
  match names with
  | [] => Ok ([], st)
  | n :: names =>
      let* (r, st) := get_menu st n in
      let* (ns, st) := get_menus st names in
      Ok (rec_menu_no r :: ns, st)
  end.

(** ** Comparison of names *)

Notation name_ok := (Forall is_char).

Lemma strcmp_eq s t : name_ok s → name_ok t → strcmp s t = 0 → s = t.
Proof.
  intros Hs. revert t. induction Hs as [|c s Hc Hs IH]; intros t Ht; destruct Ht as [|d t Hd Ht];
    simpl; unfold is_char in *; [done|lia|lia|].
  destruct (Z.eqb_spec c d) as [->|]; [|lia]. intros H. f_equal. by apply IH.
Qed.

Lemma strcmp_neg s t : strcmp t s = - strcmp s t.
Proof.
  revert t. induction s as [|c s IH]; intros [|d t]; simpl; [done|lia|lia|].
  rewrite (Z.eqb_sym d c). destruct (Z.eqb_spec c d); [apply IH|lia].
Qed.

(** Strictly or not, the order is transitive. *)
Lemma strcmp_trans s t u :
  name_ok s → name_ok t → name_ok u → strcmp s t <= 0 → strcmp t u <= 0 →
  strcmp s u <= 0 ∧ (strcmp s u = 0 → strcmp s t = 0 ∧ strcmp t u = 0).
Proof.
  intros Hs. revert t u. induction Hs as [|c s Hc Hs IH]; intros t u Ht Hu.
  - destruct Hu as [|e u He Hu]; simpl; unfold is_char in *; [|intros; lia].
    destruct Ht as [|d t Hd Ht]; simpl; unfold is_char in *; [auto|lia].
  - destruct Ht as [|d t Hd Ht]; simpl; unfold is_char in *; [lia|].
    destruct Hu as [|e u He Hu]; simpl; [lia|]. unfold is_char in *.
    destruct (Z.eqb_spec c d), (Z.eqb_spec d e), (Z.eqb_spec c e); subst; try lia.
    by apply IH.
Qed.

(** ** Balanced and ordered trees *)

Fixpoint height (t : tree) : Z :=
  match t with Null => 0 | Node _ _ l r => 1 + Z.max (height l) (height r) end.
Fixpoint elements (t : tree) : list id_rec :=
  match t with Null => [] | Node rec _ l r => elements l ++ rec :: elements r end.

(** The balance of a node is the difference of the heights below it, at most one. *)
Fixpoint avl (t : tree) : Prop :=
  match t with
  | Null => True
  | Node _ b l r => b = height r - height l ∧ -1 <= b <= 1 ∧ avl l ∧ avl r
  end.

Definition precedes (x y : id_rec) : Prop := strcmp (id_name x) (id_name y) <= 0.
Definition rec_ok (x : id_rec) : Prop := name_ok (id_name x).
Definition ordered (l : list id_rec) : Prop := StronglySorted precedes l ∧ Forall rec_ok l.

(** Insertion into an ordered list, after the records of the same name. *)
Fixpoint ins (x : id_rec) (l : list id_rec) : list id_rec :=
  match l with
  | [] => [x]
  | y :: l' => if strcmp (id_name x) (id_name y) <? 0 then x :: l else y :: ins x l'
  end.

Lemma height_nonneg t : 0 <= height t.
Proof. induction t; simpl; lia. Qed.

Lemma s16_small z : -3 <= z <= 3 → s16 z = z.
Proof. intros. unfold s16. rewrite Z.mod_small; lia. Qed.

Lemma ins_left x y l m :
  strcmp (id_name x) (id_name y) < 0 → ins x (l ++ y :: m) = ins x l ++ y :: m.
Proof.
  intros H. induction l as [|z l IH]; simpl; [by rewrite (proj2 (Z.ltb_lt _ _))|].
  case_match; [done|]. by rewrite IH.
Qed.

Lemma ins_right x y l m :
  rec_ok x → ordered (l ++ y :: m) → ¬ strcmp (id_name x) (id_name y) < 0 →
  ins x (l ++ y :: m) = l ++ y :: ins x m.
Proof.
  intros Hx [Hs Ho] H. induction l as [|z l IH]; simpl in *.
  { by rewrite (proj2 (Z.ltb_ge _ _)) by lia. }
  apply StronglySorted_inv in Hs as [Hs Hz]. apply Forall_cons in Ho as [Hzo Ho].
  rewrite IH by done. rewrite (proj2 (Z.ltb_ge _ _)); [done|].
  rewrite Forall_forall in Hz. specialize (Hz y ltac:(set_solver)). unfold precedes in Hz.
  rewrite Forall_forall in Ho. specialize (Ho y ltac:(set_solver)).
  pose proof (strcmp_neg (id_name x) (id_name y)). pose proof (strcmp_neg (id_name x) (id_name z)).
  pose proof (strcmp_trans (id_name z) (id_name y) (id_name x) Hzo Ho Hx Hz ltac:(lia)). lia.
Qed.

(** ** Insertion *)

Lemma rebalance_left_ok a l r :
  avl l → avl r → height l = height r + 2 → (∀ b bal bl br, l = Node b bal bl br → bal ≠ 0) →
  ∃ t, rebalance_left (Node a (-2) l r) = Ok t ∧ avl t ∧ height t = height r + 2
    ∧ elements t = elements l ++ a :: elements r.
Proof.
  intros Hl Hr Hh Hb. pose proof (height_nonneg r). destruct l as [|b bal bl br]; [simpl in *; lia|].
  specialize (Hb b bal bl br eq_refl). simpl in Hl, Hh |- *. destruct Hl as (Hbal & Hb1 & Hbl & Hbr).
  destruct (Z.leb_spec bal 0).
  - eexists. split; [done|]. simpl. rewrite <- app_assoc. split_and!; (done || lia).
  - pose proof (height_nonneg bl). destruct br as [|x xbal xl xr]; [simpl in *; lia|].
    simpl in Hbr, Hbal, Hh. destruct Hbr as (Hx & Hx1 & Hxl & Hxr).
    assert (xbal = -1 ∨ xbal = 0 ∨ xbal = 1) as [-> |[-> | ->]] by lia; eexists; (split; [done|]);
      simpl; rewrite <- ?app_assoc; simpl; rewrite <- ?app_assoc; split_and!; (done || lia).
Qed.

Lemma rebalance_right_ok a l r :
  avl l → avl r → height r = height l + 2 → (∀ b bal bl br, r = Node b bal bl br → bal ≠ 0) →
  ∃ t, rebalance_right (Node a 2 l r) = Ok t ∧ avl t ∧ height t = height l + 2
    ∧ elements t = elements l ++ a :: elements r.
Proof.
  intros Hl Hr Hh Hb. pose proof (height_nonneg l). destruct r as [|b bal bl br]; [simpl in *; lia|].
  specialize (Hb b bal bl br eq_refl). simpl in Hr, Hh |- *. destruct Hr as (Hbal & Hb1 & Hbl & Hbr).
  destruct (Z.leb_spec 0 bal).
  - eexists. split; [done|]. simpl. rewrite <- app_assoc. split_and!; (done || lia).
  - pose proof (height_nonneg br). destruct bl as [|x xbal xl xr]; [simpl in *; lia|].
    simpl in Hbl, Hbal, Hh. destruct Hbl as (Hx & Hx1 & Hxl & Hxr).
    assert (xbal = -1 ∨ xbal = 0 ∨ xbal = 1) as [-> |[-> | ->]] by lia; eexists; (split; [done|]);
      simpl; rewrite <- ?app_assoc; simpl; rewrite <- ?app_assoc; split_and!; (done || lia).
Qed.

#[local] Arguments rebalance_left : simpl never.
#[local] Arguments rebalance_right : simpl never.

(** What an insertion returns: a tree that has grown is a leaf, or is not even. *)
Definition inserted (t : tree) (els : list id_rec) (o : bool * tree) : Prop :=
  let '(grew, t') := o in
  avl t' ∧ elements t' = els ∧ height t' = height t + Z.b2z grew ∧
  (grew = true → t ≠ Null → ∀ b bal bl br, t' = Node b bal bl br → bal ≠ 0).

Lemma grown_left t t' els :
  inserted t els (true, t') → height t' >= 2 → ∀ b bal bl br, t' = Node b bal bl br → bal ≠ 0.
Proof.
  intros (_ & _ & Hh & Hb) H2. apply Hb; [done|]. intros ->. simpl in Hh. lia.
Qed.

Lemma ordered_app l y r :
  ordered (l ++ y :: r) →
  ordered l ∧ ordered r ∧ Forall (λ x, precedes x y) l ∧ Forall (precedes y) r.
Proof.
  intros [Hs Ho]. apply Forall_app in Ho as [Ho1 Ho2]. apply Forall_cons in Ho2 as [_ Ho2].
  unfold ordered. induction l as [|z m IH]; simpl in Hs; apply StronglySorted_inv in Hs as [Hs Hz].
  - split_and!; (done || constructor).
  - apply Forall_cons in Ho1 as [Hzo Ho1]. destruct (IH Hs Ho1) as ([H1 H2] & [H3 H3'] & H4 & H5).
    apply Forall_app in Hz as [Hz Hz2]. apply Forall_cons in Hz2 as [Hzy _].
    split_and!; (done || by constructor).
Qed.

Lemma insert_id_ok t x :
  avl t → ordered (elements t) → rec_ok x →
  ∃ o, insert_id t x = Ok o ∧ inserted t (ins x (elements t)) o.
Proof.
  intros Havl Hord Hx. induction t as [|y b l IHl r IHr].
  { eexists. split; [done|]. simpl. split_and!; (done || lia). }
  simpl in Havl, Hord |- *. destruct Havl as (Hb & Hb1 & Hl & Hr).
  assert (ordered (elements l) ∧ ordered (elements r)) as [Hol Hor].
  { by apply ordered_app in Hord as (? & ? & _). }
  destruct (Z.ltb_spec (strcmp (id_name x) (id_name y)) 0) as [Hlt|Hge].
  - rewrite ins_left by done. destruct (IHl Hl Hol) as ([grew l'] & -> & Hins). cbn [res_bind].
    destruct Hins as (Hl' & Hel & Hh & Hgrew). destruct grew; simpl in Hh.
    + rewrite s16_small by lia.
      destruct (Z.eqb_spec (b - 1) 0); [|destruct (Z.eqb_spec (b - 1) (-1));
        [|destruct (Z.eqb_spec (b - 1) (-2)); [|lia]]].
      * eexists. split; [done|]. simpl. rewrite Hel. split_and!; (done || lia).
      * eexists. split; [done|]. simpl. rewrite Hel. split_and!; try (done || lia).
        intros _ _ ? ? ? ? [= _ <- _ _]. lia.
      * assert (b - 1 = -2) as -> by done.
        destruct (rebalance_left_ok y l' r) as (t & -> & Ht & Hht & Het); [done|done|lia| |].
        { eapply (grown_left l l' (ins x (elements l))); [by split_and!|pose proof (height_nonneg r); lia]. }
        eexists. split; [done|]. simpl. rewrite Het, Hel. split_and!; (done || lia).
    + eexists. split; [done|]. simpl. rewrite Hel. split_and!; (done || lia).
  - rewrite ins_right by (done || lia). destruct (IHr Hr Hor) as ([grew r'] & -> & Hins). cbn [res_bind].
    destruct Hins as (Hr' & Her & Hh & Hgrew). destruct grew; simpl in Hh.
    + rewrite s16_small by lia.
      destruct (Z.eqb_spec (b + 1) 0); [|destruct (Z.eqb_spec (b + 1) 1);
        [|destruct (Z.eqb_spec (b + 1) 2); [|lia]]].
      * eexists. split; [done|]. simpl. rewrite Her. split_and!; (done || lia).
      * eexists. split; [done|]. simpl. rewrite Her. split_and!; try (done || lia).
        intros _ _ ? ? ? ? [= _ <- _ _]. lia.
      * assert (b + 1 = 2) as -> by done.
        destruct (rebalance_right_ok y l r') as (t & -> & Ht & Hht & Het); [done|done|lia| |].
        { eapply (grown_left r r' (ins x (elements r))); [by split_and!|pose proof (height_nonneg l); lia]. }
        eexists. split; [done|]. simpl. rewrite Het, Her. split_and!; (done || lia).
    + eexists. split; [done|]. simpl. rewrite Her. split_and!; (done || lia).
Qed.

(** ** Searching *)

Lemma find_id_some t n x :
  ordered (elements t) → name_ok n → find_id t n = Some x → x ∈ elements t ∧ id_name x = n.
Proof.
  intros Ho Hn. induction t as [|y b l IHl r IHr]; simpl in *; [done|].
  destruct (ordered_app _ _ _ Ho) as (Hl & Hr & _).
  destruct Ho as [_ Ho]. apply Forall_app in Ho as [_ Ho]. apply Forall_cons in Ho as [Hy _].
  destruct (Z.eqb_spec (strcmp n (id_name y)) 0) as [Hc|Hc].
  - intros [= ->]. split; [set_solver|]. by rewrite (strcmp_eq n (id_name x)).
  - destruct (_ <? 0); intros Hf; [destruct (IHl Hl Hf)|destruct (IHr Hr Hf)]; set_solver.
Qed.

Lemma find_id_none t n x :
  ordered (elements t) → name_ok n → find_id t n = None → x ∈ elements t → id_name x ≠ n.
Proof.
  intros Ho Hn. induction t as [|y b l IHl r IHr]; simpl in *; [set_solver|].
  destruct (ordered_app _ _ _ Ho) as (Hl & Hr & Hly & Hry).
  destruct Ho as [_ Ho]. apply Forall_app in Ho as [Hol Ho]. apply Forall_cons in Ho as [Hy Hor].
  destruct (Z.eqb_spec (strcmp n (id_name y)) 0) as [Hc|Hc]; [done|].
  rewrite Forall_forall in Hly. rewrite Forall_forall in Hry.
  pose proof (strcmp_neg n (id_name y)) as Hneg.
  destruct (Z.ltb_spec (strcmp n (id_name y)) 0) as [Hlt|Hge]; intros Hf Hx He; subst n;
    apply elem_of_app in Hx as [Hx|Hx]; try (apply elem_of_cons in Hx as [->|Hx]);
    rewrite ?strcmp_refl in *; try lia; try (by eapply IHl); try (by eapply IHr).
  - specialize (Hry x Hx). unfold precedes in Hry. rewrite strcmp_neg in Hry. lia.
  - specialize (Hly x Hx). unfold precedes in Hly. lia.
Qed.

(** ** The height *)

Lemma squares_step p a b : 0 <= p → 0 < a → 0 < b → p <= a ^ 2 → 2 * p <= b ^ 2 → 4 * p <= (a + b) ^ 2.
Proof. intros. assert (p <= a * b) by (apply Z.le_ngt; intros ?; nia). nia. Qed.

(** The height is at most twice the binary logarithm of the size. *)
Lemma avl_height t : avl t → 2 ^ height t <= (Z.of_nat (length (elements t)) + 1) ^ 2.
Proof.
  induction t as [|y b l IHl r IHr]; simpl; [done|]. intros (Hb & Hb1 & Hl & Hr).
  specialize (IHl Hl). specialize (IHr Hr). rewrite length_app. cbn [length].
  pose proof (height_nonneg l). pose proof (height_nonneg r).
  replace (Z.of_nat (length (elements l) + S (length (elements r))) + 1)
    with ((Z.of_nat (length (elements l)) + 1) + (Z.of_nat (length (elements r)) + 1)) by lia.
  revert IHl IHr. generalize (Nat2Z.is_nonneg (length (elements l))), (Nat2Z.is_nonneg (length (elements r))).
  generalize (Z.of_nat (length (elements l))), (Z.of_nat (length (elements r))). intros n m Hn Hm IHl IHr.
  rewrite Z.pow_add_r by lia.
  assert (height r = height l ∨ height r = height l + 1 ∨ height l = height r + 1) as [E|[E|E]] by lia.
  - rewrite E, Z.max_id in *. nia.
  - rewrite Z.max_r by lia. rewrite E, Z.pow_add_r in * by lia.
    assert (0 < 2 ^ height l) by (by apply Z.pow_pos_nonneg).
    pose proof (squares_step (2 ^ height l) (n + 1) (m + 1)). lia.
  - rewrite Z.max_l by lia. rewrite E, Z.pow_add_r in * by lia.
    assert (0 < 2 ^ height r) by (by apply Z.pow_pos_nonneg).
    pose proof (squares_step (2 ^ height r) (m + 1) (n + 1)). rewrite (Z.add_comm (n + 1)). lia.
Qed.

(** ** The table

    Abstractly it is the list of the names so far, each once, in the order in which they
    were first used; the number of a name is its position, from 1. *)
Definition recs (names : list (list Z)) : list id_rec :=
  imap (λ i n, IdRec n (Z.of_nat i + 1)) names.

Definition table_of (st : mdb) (names : list (list Z)) : Prop :=
  menu_no st = Z.of_nat (length names) + 1 ∧ menus st = recs names ∧
  avl (root st) ∧ ordered (elements (root st)) ∧ elements (root st) ≡ₚ recs names ∧
  NoDup names ∧ Forall name_ok names ∧ (length names <= 999)%nat.

(** Its specification: the number of a name, and the names after it. *)
Definition name_number (names : list (list Z)) (n : list Z) : option (Z * list (list Z)) :=
  match list_find (n =.) names with
  | Some (i, _) => Some (Z.of_nat i + 1, names)
  | None => if decide (length names < 999)%nat
            then Some (Z.of_nat (length names) + 1, names ++ [n]) else None
  end.

Fixpoint numbers (names : list (list Z)) (ns : list (list Z)) : option (list Z * list (list Z)) :=
  match ns with
  | [] => Some ([], names)
  | n :: ns => '(k, names) ← name_number names n; '(ks, names) ← numbers names ns; Some (k :: ks, names)
  end.

Lemma elem_of_recs x names :
  x ∈ recs names ↔ ∃ i, names !! i = Some (id_name x) ∧ rec_menu_no x = Z.of_nat i + 1.
Proof.
  unfold recs. rewrite elem_of_lookup_imap. split.
  - intros (i & n & -> & Hi). eauto.
  - intros (i & Hi & Hk). exists i, (id_name x). split; [|done]. destruct x; simpl in *; congruence.
Qed.

Lemma ins_perm x l : ins x l ≡ₚ x :: l.
Proof. induction l as [|y l IH]; simpl; [done|]. case_match; [done|]. rewrite IH. apply Permutation_swap. Qed.

Lemma ins_ordered x l : rec_ok x → ordered l → ordered (ins x l).
Proof.
  intros Hx [Hs Ho]. split; [|rewrite ins_perm; by constructor].
  induction l as [|y l IH]; simpl; [by repeat constructor|].
  pose proof (StronglySorted_inv Hs) as [Hs' Hy]. apply Forall_cons in Ho as [Hyo Ho].
  destruct (Z.ltb_spec (strcmp (id_name x) (id_name y)) 0).
  - constructor; [done|]. constructor; [unfold precedes; lia|]. rewrite Forall_forall in Hy, Ho.
    apply Forall_forall. intros z Hz. unfold precedes in *.
    apply (strcmp_trans _ (id_name y)); [done..|by apply Ho|lia|by apply Hy].
  - constructor; [by apply IH|]. rewrite ins_perm. constructor; [|done].
    unfold precedes. rewrite strcmp_neg. lia.
Qed.

(** [get_menu] implements the specification. *)
Lemma get_menu_ok st names n :
  table_of st names → name_ok n →
  match name_number names n with
  | Some (k, names') => ∃ st', get_menu st n = Ok (IdRec n k, st') ∧ table_of st' names'
  | None => get_menu st n = Err 1
  end.
Proof.
  intros (Hno & Hm & Ha & Ho & Hp & Hnd & Hok & Hlen) Hn. unfold get_menu, name_number.
  destruct (find_id (root st) n) as [x|] eqn:Hf.
  - destruct (find_id_some _ _ _ Ho Hn Hf) as [Hx <-]. rewrite Hp in Hx.
    apply elem_of_recs in Hx as (i & Hi & Hk).
    assert (list_find (id_name x =.) names = Some (i, id_name x)) as ->.
    { apply list_find_Some. split_and!; [done|done|]. intros j y Hj Hji <-.
      pose proof (NoDup_lookup _ _ _ _ Hnd Hi Hj). lia. }
    rewrite <- Hk. exists st. split; [by destruct x|by split_and!].
  - assert (n ∉ names) as Hfresh.
    { intros Hm'. apply list_elem_of_lookup in Hm' as [i Hi].
      apply (find_id_none _ _ (IdRec n (Z.of_nat i + 1)) Ho Hn Hf); [|done].
      rewrite Hp. apply elem_of_recs. eauto. }
    assert (list_find (n =.) names = None) as ->.
    { apply list_find_None, Forall_forall. by intros m Hm' <-. }
    unfold MAX. rewrite Hno. case_decide; [rewrite (proj2 (Z.ltb_lt _ _)) by lia|by rewrite (proj2 (Z.ltb_ge _ _)) by lia].
    destruct (insert_id_ok (root st) (IdRec n (Z.of_nat (length names) + 1)) Ha Ho Hn) as ([g t] & -> & Ht & Hel & _).
    cbn [res_bind]. eexists. split; [done|]. unfold table_of. simpl.
    assert (recs (names ++ [n]) = recs names ++ [IdRec n (Z.of_nat (length names) + 1)]) as Hrec.
    { unfold recs. rewrite imap_app. simpl. by rewrite Nat.add_0_r. }
    rewrite Hrec, Hel. split_and!; [rewrite length_app; simpl; lia|by rewrite Hm|done|..].
    + by apply ins_ordered.
    + rewrite ins_perm, Hp. by rewrite Permutation_app_comm.
    + apply NoDup_app. split_and!; [done| |apply NoDup_singleton]. by intros m Hm' ->%list_elem_of_singleton.
    + apply Forall_app. by split; [|constructor].
    + rewrite length_app. simpl. lia.
Qed.

Lemma table_height st names : table_of st names → height (root st) <= 19.
Proof.
  intros (_ & _ & Ha & _ & Hp & _ & _ & Hlen). apply avl_height in Ha. rewrite Hp in Ha.
  unfold recs in Ha. rewrite length_imap in Ha.
  apply Z.lt_succ_r, (Z.pow_lt_mono_r_iff 2); [lia|pose proof (height_nonneg (root st)); lia|].
  change (2 ^ Z.succ 19) with 1048576. nia.
Qed.

Lemma get_menus_ok st names ns :
  table_of st names → Forall name_ok ns →
  match numbers names ns with
  | Some (ks, names') => ∃ st', get_menus st ns = Ok (ks, st') ∧ table_of st' names'
  | None => get_menus st ns = Err 1
  end.
Proof.
  intros Ht Hns. revert st names Ht. induction Hns as [|n ns Hn Hns IH]; intros st names Ht; simpl.
  { by exists st. }
  pose proof (get_menu_ok st names n Ht Hn) as Hg.
  destruct (name_number names n) as [[k names1]|]; simpl; [|by rewrite Hg].
  destruct Hg as (st1 & -> & Ht1). cbn [res_bind]. specialize (IH st1 names1 Ht1).
  destruct (numbers names1 ns) as [[ks names2]|]; simpl; [|by rewrite IH].
  destruct IH as (st2 & -> & Ht2). by exists st2.
Qed.

(** C34.  The symbol table gives every name one number, in the order of first use: for
    any sequence of names [get_menu] returns what the list of names seen so far says,
    and the exit with "Too many menus" comes with the thousandth name; no pointer it
    follows is NULL and the array holds the record of every number.  The tree is an AVL
    tree (the heights below a node differ by at most one and its balance field is their
    difference), its records are those of the array in the order of their names, and no
    search goes deeper than 19 nodes.  Names are strings of chars without a NUL, and
    memory is not exhausted. *)
Theorem get_menus_numbers ns :
  Forall name_ok ns →
  match numbers [] ns with
  | Some (ks, names) =>
      ∃ st, get_menus mdb0 ns = Ok (ks, st) ∧ menus st = recs names
        ∧ avl (root st) ∧ ordered (elements (root st)) ∧ elements (root st) ≡ₚ menus st
        ∧ height (root st) <= 19
  | None => get_menus mdb0 ns = Err 1
  end.
Proof.
  intros Hns. assert (table_of mdb0 []) as Ht.
  { unfold table_of, ordered. simpl. split_and!; try done; try constructor; lia. }
  pose proof (get_menus_ok mdb0 [] ns Ht Hns) as H.
  destruct (numbers [] ns) as [[ks names]|]; [|done]. destruct H as (st & Hg & Ht').
  pose proof (table_height st names Ht') as Hh. destruct Ht' as (_ & Hm & Ha & Ho & Hp & _).
  exists st. rewrite Hm. by split_and!.
Qed.

Lemma get_menus_numbers_witness :
  ∃ st, get_menus mdb0 [str "main"; str "disk"; str "main"; str "net"] = Ok ([1; 2; 1; 3], st)
    ∧ menus st = recs [str "main"; str "disk"; str "net"]
    ∧ avl (root st) ∧ ordered (elements (root st)) ∧ elements (root st) ≡ₚ menus st
    ∧ height (root st) <= 19.
Proof.
  apply (get_menus_numbers [str "main"; str "disk"; str "main"; str "net"]).
  repeat constructor.
Defined.
