(* ===== verification/Expand.v ===== *)
(** * expand and unexpand (usr.bin/expand/expand.c, usr.bin/unexpand/unexpand.c)

    [expand] replaces tabs by the blanks they stand for; [unexpand] replaces blanks by
    tabs, those that begin a line or with -a all of them.  Both keep their tab stops in
    an array that the option -t fills: none means a stop every eight columns, one a stop
    at each of its multiples, and several the stops themselves. *)

From S2P Require Import Prelude Libc.

(** ** Code *)

(** The exit status of [errx] in both programs. *)
Definition EXIT_FAILURE : Z := 1.

(** *** expand.c *)

(** The inner loop: [i = i * 10 + *cp++ - '0'] while [cp] is at a digit; [i] is an int. *)
Fixpoint getstops_number (cp : list Z) (i : Z) : res (Z * list Z) :=
  match cp with
  | c :: cp' =>
      if (48 <=? c) && (c <=? 57) then
        if INT_MAX <? i * 10 + c then Fault else getstops_number cp' (i * 10 + c - 48)
      else Ok (i, cp)
  | [] => Ok (i, cp)
  end.

(** The body of [getstops]; [stops] is [tabstops[0..nstops)] and [tabstops] has room for
    a hundred. *)
Fixpoint getstops_loop (fuel : nat) (cp : list Z) (stops : list Z) : res (list Z) :=
  match fuel with
  | O => Fault
  | S fuel' =>
      let* (i, cp) := getstops_number cp 0 in
      if (i <=? 0) || (256 <? i) then Err EXIT_FAILURE
      else if negb (bool_decide (stops = [])) && (i <=? List.last stops 0)
      then Err EXIT_FAILURE
      else if Z.of_nat (length stops) =? 100 - 1 then Err EXIT_FAILURE
      else
        let stops := stops ++ [i] in
        match cp with
        | [] => Ok stops
        | c :: cp' =>
            if negb (c =? ch ",") && negb (c =? 32) then Err EXIT_FAILURE
            else getstops_loop fuel' cp' stops
        end
  end.

(** Every turn of the loop but the last passes a separator. *)
Definition getstops (spec : list Z) : res (list Z) :=
  getstops_loop (S (length spec)) spec [].

(** [do { putchar(' '); column++; } while (again column)]. *)
Fixpoint do_spaces (fuel : nat) (again : Z → bool) (column : Z) : res (list Z * Z) :=
  match fuel with
  | O => Fault
  | S fuel' =>
      let column := u64 (column + 1) in
      if again column then
        let* (o, column) := do_spaces fuel' again column in Ok (32 :: o, column)
      else Ok ([32], column)
  end.

(** [while (column < stop) { putchar(' '); column++; }]. *)
Fixpoint while_spaces (fuel : nat) (column stop : Z) : res (list Z * Z) :=
  if column <? stop then
    match fuel with
    | O => Fault
    | S fuel' =>
        let* (o, column) := while_spaces fuel' (u64 (column + 1)) stop in Ok (32 :: o, column)
    end
  else Ok ([], column).

(** [for (n = 0; n < nstops; n++) if (tabstops[n] > column) break;]: the stops from
    the [n]th on. *)
Fixpoint stops_after (stops : list Z) (column : Z) : list Z :=
  match stops with
  | [] => []
  | s :: stops' => if column <? s then stops else stops_after stops' column
  end.

(** [case '\t'] of [main].  A column is a multiple of eight after eight turns at most,
    and one of [tabstops[0]] after as many turns as that. *)
Definition expand_tab (stops : list Z) (column : Z) : res (list Z * Z) :=
  match stops with
  | [] => do_spaces 8 (λ c, has c 7) column
  | [t] =>
      if t =? 0 then Fault
      else do_spaces (Z.to_nat t) (λ c, negb (u64 (c - 1) mod t =? u64 (t - 1))) column
  | _ =>
      match stops_after stops column with
      | [] => Ok ([32], u64 (column + 1))
      | s :: _ => while_spaces (Z.to_nat s) column s
      end
  end.

(** [while ((c = getchar()) != EOF) switch (c)], on what is left of the file. *)
Fixpoint expand_loop (stops : list Z) (column : Z) (text : list Z) : res (list Z) :=
  match text with
  | [] => Ok []
  | c :: text =>
      let* (o, column) :=
        if c =? 9 then expand_tab stops column
        else if c =? 8 then Ok ([8], if column =? 0 then 0 else u64 (column - 1))
        else if c =? 10 then Ok ([10], 0)
        else Ok ([c], u64 (column + 1)) in
      let* o' := expand_loop stops column text in Ok (o ++ o')
  end.

(** The files, one after the other, the column starting at 0 in each. *)
Fixpoint expand_files (stops : list Z) (files : list (list Z)) : res (list Z) :=
  match files with
  | [] => Ok []
  | f :: files =>
      let* o := expand_loop stops 0 f in
      let* o' := expand_files stops files in Ok (o ++ o')
  end.

(** [main]: the operands of -t and of the obsolete -number, in the order of the command
    line, each replacing the stops of the one before; then the files. *)
Fixpoint expand_stops (specs : list (list Z)) (stops : list Z) : res (list Z) :=
  match specs with
  | [] => Ok stops
  | spec :: specs => let* stops := getstops spec in expand_stops specs stops
  end.

Definition expand_main (specs files : list (list Z)) : res (list Z) :=
  let* stops := expand_stops specs [] in expand_files stops files.

(** *** unexpand.c *)

(** The globals that -t sets.  [maxstops] is also the size of the block [tabstops] is
    in, in bytes: [erealloc(tabstops, maxstops)] does not multiply it by the size of an
    element.  Storing an element, of eight bytes, past the end is a fault. *)
Record tabs := Tabs { tabstops : list Z; maxstops : Z }.

Definition nstops (t : tabs) : Z := Z.of_nat (length (tabstops t)).

(** The body of [while ((tab = strsep(&optarg, ", \t")) != NULL)]. *)
Definition tabstop (tab : list Z) (t : tabs) : res tabs :=
  if bool_decide (tab = []) then Ok t
  else
    let '(i, ep, errno) := strtoumax tab 0 in
    if negb (bool_decide (ep = [])) || ((errno =? ERANGE) && (i =? UINTMAX_MAX))
    then Err EXIT_FAILURE
    else
      let t := if maxstops t <=? nstops t then Tabs (tabstops t) (maxstops t + 20) else t in
      if negb (nstops t =? 0) && (i <=? List.last (tabstops t) 0) then Err EXIT_FAILURE
      else if maxstops t <? 8 * (nstops t + 1) then Fault
      else Ok (Tabs (tabstops t ++ [i]) (maxstops t)).

(** The loop; every turn consumes a character of the operand or ends it. *)
Fixpoint tabstops_loop (fuel : nat) (optarg : list Z) (t : tabs) : res tabs :=
  match fuel with
  | O => Fault
  | S fuel' =>
      let '(tab, rest) := strsep [ch ","; 32; 9] optarg in
      let* t := tabstop tab t in
      match rest with
      | None => Ok t
      | Some optarg => tabstops_loop fuel' optarg t
      end
  end.

(** The operands of -t on the command line, in order. *)
Fixpoint unexpand_stops (specs : list (list Z)) (t : tabs) : res tabs :=
  match specs with
  | [] => Ok t
  | spec :: specs =>
      let* t := tabstops_loop (S (length spec)) spec t in unexpand_stops specs t
  end.

(** [tabify]'s [limit]. *)
Definition tab_limit (stops : list Z) : Z :=
  if Z.of_nat (length stops) <=? 1 then UINT_MAX else u64 (List.last stops 0 - 1).

(** [case '\t']: the column the tab leads to, or [None] where the tab falls through to
    the code that outputs an ordinary character. *)
Definition tab_column (stops : list Z) (dcol : Z) : res (option Z) :=
  if Z.of_nat (length stops) <=? 1 then
    let dstop := hd 8 stops in
    if dstop =? 0 then Fault else Ok (Some (u64 ((1 + dcol / dstop) * dstop)))
  else
    match stops_after stops dcol with
    | s :: _ :: _ => Ok (if u64 (s - 1) <? tab_limit stops then Some s else None)
    | _ => Ok None
    end.

(** [while (((ocol + dstop) / dstop) <= (dcol / dstop))]: the tabs output, and [ocol].
    Unless the column wraps, every turn moves to a stop that [dcol] has passed. *)
Fixpoint out_tabs_every (fuel : nat) (dstop dcol ocol : Z) : res (list Z * Z) :=
  if u64 (ocol + dstop) / dstop <=? dcol / dstop then
    if u64 (dcol - ocol) <? 2 then Ok ([], ocol)
    else
      match fuel with
      | O => Fault
      | S fuel' =>
          let* (o, ocol) := out_tabs_every fuel' dstop dcol (u64 ((1 + ocol / dstop) * dstop)) in
          Ok (9 :: o, ocol)
      end
  else Ok ([], ocol).

(** The second [while], on [tabstops] from the [n]th on. *)
Fixpoint out_tabs_at (stops : list Z) (limit dcol ocol : Z) : list Z * Z :=
  match stops with
  | s :: stops' =>
      if (s <=? dcol) && (ocol <? dcol) && (ocol <? limit) then
        let '(o, ocol) := out_tabs_at stops' limit dcol s in (9 :: o, ocol)
      else ([], ocol)
  | [] => ([], ocol)
  end.

(** "Output our tabs". *)
Definition out_tabs (stops : list Z) (dcol ocol : Z) : res (list Z * Z) :=
  if Z.of_nat (length stops) <=? 1 then
    let dstop := hd 8 stops in
    if dstop =? 0 then Fault
    else out_tabs_every (Z.to_nat (dcol / dstop)) dstop dcol ocol
  else Ok (out_tabs_at (stops_after stops ocol) (tab_limit stops) dcol ocol).

(** "Output remaining spaces". *)
Definition out_spaces (stops : list Z) (dcol ocol : Z) : res (list Z * Z) :=
  while_spaces (Z.to_nat (dcol - ocol)) ocol (Z.min dcol (tab_limit stops)).

(** The loop over the line, from [p] on.  [putchar] does not fail. *)
Fixpoint tabify_loop (all : bool) (stops : list Z) (p : list Z) (dcol ocol : Z)
  : res (list Z) :=
  match p with
  | [] => Ok []
  | c :: p =>
      if c =? 32 then tabify_loop all stops p (u64 (dcol + 1)) ocol
      else
        let* d := if c =? 9 then tab_column stops dcol else Ok None in
        match d with
        | Some dcol => tabify_loop all stops p dcol ocol
        | None =>
            let* (o1, ocol) := out_tabs stops dcol ocol in
            let* (o2, ocol) := out_spaces stops dcol ocol in
            let '(dcol, ocol) :=
              if c =? 8 then
                if 0 <? ocol then (u64 (dcol - 1), u64 (ocol - 1)) else (dcol, ocol)
              else (u64 (dcol + 1), u64 (ocol + 1)) in
            let* o3 :=
              if all && (dcol <? tab_limit stops) then tabify_loop all stops p dcol ocol
              else Ok p in
            Ok (o1 ++ o2 ++ c :: o3)
        end
  end.

Definition tabify (all : bool) (stops line : list Z) : res (list Z) :=
  tabify_loop all stops line 0 0.

(** The lines [fgetln] (lib/netbsd/fgetln.c, over getline(3)) returns: each with its
    newline, the last one perhaps without. *)
Fixpoint fgetln_lines (text : list Z) : list (list Z) :=
  match text with
  | [] => []
  | c :: text =>
      if c =? 10 then [10] :: fgetln_lines text
      else match fgetln_lines text with
           | [] => [[c]]
           | l :: ls => (c :: l) :: ls
           end
  end.

Fixpoint tabify_lines (all : bool) (stops : list Z) (lines : list (list Z)) : res (list Z) :=
  match lines with
  | [] => Ok []
  | l :: lines =>
      let* o := tabify all stops l in
      let* o' := tabify_lines all stops lines in Ok (o ++ o')
  end.

(** The do-while loop of [main] over the files. *)
Fixpoint unexpand_files (all : bool) (stops : list Z) (files : list (list Z)) : res (list Z) :=
  match files with
  | [] => Ok []
  | f :: files =>
      let* o := tabify_lines all stops (fgetln_lines f) in
      let* o' := unexpand_files all stops files in Ok (o ++ o')
  end.

(** [main]: the options -a and -t, then the files. *)
Definition unexpand_main (all : bool) (specs files : list (list Z)) : res (list Z) :=
  let* t := unexpand_stops specs (Tabs [] 0) in unexpand_files all (tabstops t) files.

(** ** Specification *)

(** The blanks a tab at [column] stands for. *)
Definition tab_width (stops : list Z) (column : Z) : Z :=
  match stops with
  | [] => 8 - column mod 8
  | [t] => t - column mod t
  | _ => match List.find (λ s, column <? s) stops with
         | Some s => s - column
         | None => 1
         end
  end.

Definition blanks (n : Z) : list Z := repeat 32 (Z.to_nat n).

(** A text from [column] on, with its tabs expanded. *)
Fixpoint expanded (stops : list Z) (column : Z) (text : list Z) : list Z :=
  match text with
  | [] => []
  | c :: text =>
      if c =? 9 then
        blanks (tab_width stops column) ++
        expanded stops (column + tab_width stops column) text
      else
        c :: expanded stops (if c =? 8 then Z.max 0 (column - 1)
                             else if c =? 10 then 0 else column + 1) text
  end.

(** The stops -t can set. *)
Definition good_stops (stops : list Z) : Prop := Forall (λ s, 1 <= s <= 256) stops.

(** A file no column of which, each character leading at most 256 columns further,
    leaves an unsigned int. *)
Definition short_file (text : list Z) : Prop := 256 * Z.of_nat (length text) < UINT_MAX.

(** ** expand *)

Lemma find_stops_after stops column :
  List.find (λ s, column <? s) stops = head (stops_after stops column).
Proof. induction stops as [|s l IH]; simpl; [done|]. by destruct (column <? s). Qed.

Lemma blanks_S n : 0 <= n → 32 :: blanks n = blanks (n + 1).
Proof. intros. unfold blanks. by rewrite Z.add_1_r, Z2Nat.inj_succ by lia. Qed.

Lemma blanks_0 : blanks 0 = [].
Proof. done. Qed.

Lemma blanks_app n m : 0 <= n → 0 <= m → blanks n ++ blanks m = blanks (n + m).
Proof. intros. unfold blanks. by rewrite <- repeat_app, Z2Nat.inj_add by lia. Qed.

Lemma tab_width_range stops column :
  good_stops stops → 0 <= column → 1 <= tab_width stops column <= 256.
Proof.
  intros Hg Hc. destruct stops as [|t [|t' l]]; unfold tab_width.
  - pose proof (Z.mod_pos_bound column 8). lia.
  - apply Forall_cons in Hg as [Ht _]. pose proof (Z.mod_pos_bound column t). lia.
  - destruct (List.find _ _) as [s|] eqn:E; [|lia]. apply find_some in E as [Hin Hs].
    unfold good_stops in Hg. rewrite List.Forall_forall in Hg. specialize (Hg s Hin).
    simpl in Hg. Zcases; lia.
Qed.

(** The do-while loop runs until the first column that ends it. *)
Lemma do_spaces_until again stop n : ∀ column fuel,
  0 <= column → column + Z.of_nat n = stop → (0 < n)%nat → stop < 2 ^ 64 → (n <= fuel)%nat →
  (∀ c, column < c < stop → again c = true) → again stop = false →
  do_spaces fuel again column = Ok (blanks (Z.of_nat n), stop).
Proof.
  induction n as [|n IH]; intros column fuel Hc Hs Hn H64 Hf Ht Hstop; [lia|].
  destruct fuel as [|fuel]; [lia|]. simpl do_spaces. rewrite u64_small by lia.
  destruct (decide (n = 0%nat)) as [->|].
  - replace (column + 1) with stop by lia. by rewrite Hstop.
  - rewrite Ht by lia.
    rewrite (IH (column + 1)) by (first [lia | done | intros; apply Ht; lia]).
    simpl. do 2 f_equal. rewrite blanks_S by lia. f_equal. lia.
Qed.

Lemma while_spaces_to n : ∀ column stop fuel,
  0 <= column → n = Z.to_nat (stop - column) → stop < 2 ^ 64 → (n <= fuel)%nat →
  while_spaces fuel column stop = Ok (blanks (stop - column), Z.max column stop).
Proof.
  induction n as [|n IH]; intros column stop fuel Hc Hn H64 Hf.
  - unfold blanks. rewrite <- Hn. destruct fuel; simpl; Zcases; try lia; simpl;
      do 2 f_equal; lia.
  - destruct fuel as [|fuel]; [lia|]. simpl. rewrite (proj2 (Z.ltb_lt _ _)) by lia.
    rewrite u64_small, IH by lia. simpl. rewrite blanks_S by lia. do 2 f_equal; [|lia].
    f_equal. lia.
Qed.

Lemma has_7 c : 0 <= c → has c 7 = negb (c mod 8 =? 0).
Proof. intros. unfold has. change 7 with (Z.ones 3). by rewrite Z.land_ones by lia. Qed.

(** The next multiple of [t] is the first one. *)
Lemma next_multiple t c :
  0 < t → 0 <= c → (c + (t - c mod t)) mod t = 0 ∧
  ∀ x, c < x < c + (t - c mod t) → x mod t ≠ 0.
Proof.
  intros Ht Hc. pose proof (Z.div_mod c t). pose proof (Z.mod_pos_bound c t Ht). split.
  - replace (c + (t - c mod t)) with ((c / t + 1) * t) by lia. apply Z_mod_mult.
  - intros x Hx E. pose proof (Z.div_mod x t).
    assert (c / t < x / t + 1) by (apply Z.mul_lt_mono_pos_l with t; lia).
    assert (x / t < c / t + 1) by (apply Z.mul_lt_mono_pos_l with t; lia).
    assert (x / t = c / t) by lia. lia.
Qed.

(** The obscure test of the one-stop loop: the column is no multiple. *)
Lemma pred_mod t c : 1 <= t <= 256 → 1 <= c < 2 ^ 64 →
  (u64 (c - 1) mod t =? u64 (t - 1)) = (c mod t =? 0).
Proof.
  intros Ht Hc. rewrite !u64_small by lia.
  pose proof (Z.div_mod c t). pose proof (Z.mod_pos_bound c t).
  pose proof (Z.div_mod (c - 1) t). pose proof (Z.mod_pos_bound (c - 1) t).
  apply eq_true_iff_eq. rewrite !Z.eqb_eq. split; intros E.
  - replace c with ((1 + (c - 1) / t) * t) by lia. apply Z_mod_mult.
  - replace (c - 1) with (t - 1 + (c / t - 1) * t) by lia.
    rewrite Z_mod_plus_full. apply Z.mod_small. lia.
Qed.

Lemma expand_tab_width stops column :
  good_stops stops → 0 <= column → column + 256 < 2 ^ 64 →
  expand_tab stops column
  = Ok (blanks (tab_width stops column), column + tab_width stops column).
Proof.
  intros Hg Hc H64. pose proof (tab_width_range _ _ Hg Hc) as Hw.
  destruct stops as [|t [|t' l]].
  - unfold expand_tab, tab_width in *. destruct (next_multiple 8 column) as [H0 H1]; [lia..|].
    rewrite (do_spaces_until _ (column + (8 - column mod 8)) (Z.to_nat (8 - column mod 8)));
      rewrite ?Z2Nat.id by lia; try lia; try done.
    + pose proof (Z.mod_pos_bound column 8). lia.
    + intros c ?. rewrite has_7 by lia. specialize (H1 c). Zcases; tauto || lia.
    + rewrite has_7 by lia. by rewrite H0.
  - apply Forall_cons in Hg as [Ht _]. unfold expand_tab, tab_width in *.
    destruct (next_multiple t column) as [H0 H1]; [lia..|].
    rewrite (proj2 (Z.eqb_neq t 0)) by lia.
    rewrite (do_spaces_until _ (column + (t - column mod t)) (Z.to_nat (t - column mod t)));
      rewrite ?Z2Nat.id by lia; try lia; try done.
    + pose proof (Z.mod_pos_bound column t). lia.
    + intros c ?. rewrite pred_mod by lia. specialize (H1 c). Zcases; tauto || lia.
    + rewrite pred_mod by lia. by rewrite H0.
  - unfold expand_tab, tab_width in *. rewrite find_stops_after in *.
    assert (Hs : ∀ s, head (stops_after (t :: t' :: l) column) = Some s → s <= 256).
    { intros s E. rewrite <- find_stops_after in E. apply find_some in E as [Hin _].
      unfold good_stops in Hg. rewrite List.Forall_forall in Hg. apply (Hg s Hin). }
    destruct (stops_after (t :: t' :: l) column) as [|s ss]; cbn [head hd_error] in *.
    + by rewrite u64_small by lia.
    + specialize (Hs s eq_refl). rewrite (while_spaces_to (Z.to_nat (s - column))) by lia.
      do 2 f_equal. lia.
Qed.

Lemma expand_loop_expanded stops text : ∀ column,
  good_stops stops → 0 <= column → column + 256 * Z.of_nat (length text) < 2 ^ 64 →
  expand_loop stops column text = Ok (expanded stops column text).
Proof.
  induction text as [|c text IH]; intros column Hg Hc H64; simpl; [done|].
  simpl length in H64. pose proof (tab_width_range _ _ Hg Hc).
  destruct (c =? 9) eqn:E9; [|destruct (c =? 8) eqn:E8; [|destruct (c =? 10) eqn:E10]].
  - rewrite expand_tab_width by (done || lia). simpl. by rewrite IH by (done || lia).
  - apply Z.eqb_eq in E8 as ->. simpl.
    replace (if column =? 0 then 0 else u64 (column - 1)) with (Z.max 0 (column - 1)).
    + by rewrite IH by (done || lia).
    + destruct (Z.eqb_spec column 0); [lia|]. rewrite u64_small; lia.
  - apply Z.eqb_eq in E10 as ->. simpl. by rewrite IH by (done || lia).
  - simpl. rewrite u64_small by lia. by rewrite IH by (done || lia).
Qed.

Lemma expand_files_expanded stops files :
  good_stops stops → Forall short_file files →
  expand_files stops files = Ok (concat (expanded stops 0 <$> files)).
Proof.
  intros Hg. induction 1 as [|f files Hf _ IH]; simpl; [done|].
  unfold short_file, UINT_MAX in Hf. rewrite expand_loop_expanded by (done || lia).
  simpl. by rewrite IH.
Qed.

(** What [getstops] accepts are stops. *)
Lemma getstops_good spec : yields good_stops (getstops spec).
Proof.
  unfold getstops. cut (∀ fuel cp stops, good_stops stops →
    yields good_stops (getstops_loop fuel cp stops)); [intros H; by apply H, Forall_nil|].
  induction fuel as [|fuel IH]; intros cp stops Hs; simpl; [done|].
  destruct (getstops_number cp 0) as [[i cp']| |]; simpl; [|done..].
  destruct ((i <=? 0) || (256 <? i)) eqn:E1; simpl; [done|].
  destruct (_ && _); simpl; [done|]. destruct (_ =? _); simpl; [done|].
  assert (good_stops (stops ++ [i])).
  { apply Forall_app; split; [done|]. constructor; [|constructor].
    apply orb_false_elim in E1 as [? ?]. Zcases; lia. }
  destruct cp' as [|c cp']; simpl; [done|]. destruct (_ && _); simpl; [done|]. by apply IH.
Qed.

Lemma expand_stops_good specs : ∀ stops,
  good_stops stops → yields good_stops (expand_stops specs stops).
Proof.
  induction specs as [|spec specs IH]; intros stops Hs; simpl; [done|].
  eapply yields_bind; [apply getstops_good|]. apply IH.
Qed.

(** ** unexpand *)

(** The stops of [unexpand] without -t, or with a single one. *)
Definition one_stop (stops : list Z) : Prop := (length stops <= 1)%nat ∧ good_stops stops.

Lemma one_stop_hd stops : one_stop stops → 1 <= hd 8 stops <= 256.
Proof.
  intros [_ Hg]. destruct stops as [|t l]; simpl; [lia|]. by apply Forall_cons in Hg as [? _].
Qed.

Lemma one_stop_width stops column :
  one_stop stops → tab_width stops column = hd 8 stops - column mod hd 8 stops.
Proof. intros [Hl _]. by destruct stops as [|t [|t' l]]; simpl in *; [| |lia]. Qed.

(** The code's way to write the next stop. *)
Lemma next_stop t c : 0 < t → (1 + c / t) * t = c + (t - c mod t).
Proof. intros. pose proof (Z.div_mod c t). lia. Qed.

Lemma expanded_blanks stops n : ∀ column r,
  expanded stops column (repeat 32 n ++ r) = repeat 32 n ++ expanded stops (column + Z.of_nat n) r.
Proof.
  induction n as [|n IH]; intros column r; cbn [repeat app].
  - by rewrite Z.add_0_r.
  - change (32 :: repeat 32 n ++ expanded stops (column + Z.of_nat (S n)) r)
      with (32 :: (repeat 32 n ++ expanded stops (column + Z.of_nat (S n)) r)).
    simpl. rewrite IH. do 3 f_equal. lia.
Qed.

(** What tabs and blanks it takes to go from one column to another. *)
Definition cost (t ocol dcol : Z) : Z :=
  if ocol / t =? dcol / t then dcol - ocol else dcol / t - ocol / t + dcol mod t.

Lemma cost_refl t c : cost t c c = 0.
Proof. unfold cost. rewrite Z.eqb_refl. lia. Qed.

Lemma cost_blank t o d : 0 < t → 0 <= o <= d → cost t o (d + 1) <= cost t o d + 1.
Proof.
  intros Ht Ho. unfold cost.
  pose proof (Z.div_mod d t). pose proof (Z.mod_pos_bound d t).
  pose proof (Z.div_le_mono o d t).
  destruct (decide (d mod t = t - 1)).
  - replace (d + 1) with ((d / t + 1) * t) by lia.
    rewrite Z.div_mul, Z_mod_mult by lia. Zcases; lia.
  - replace (d + 1) with (d mod t + 1 + (d / t) * t) by lia.
    rewrite Z.div_add, Z_mod_plus_full by lia.
    rewrite (Z.div_small (d mod t + 1)), (Z.mod_small (d mod t + 1)) by lia.
    simpl. Zcases; lia.
Qed.

Lemma cost_tab t o d : 0 < t → 0 <= o <= d → cost t o ((1 + d / t) * t) <= cost t o d + 1.
Proof.
  intros Ht Ho. unfold cost. rewrite Z.div_mul, Z_mod_mult by lia.
  pose proof (Z.div_mod d t). pose proof (Z.mod_pos_bound d t).
  pose proof (Z.div_le_mono o d t). Zcases; lia.
Qed.

Lemma cost_next t o d : 0 < t → 0 <= o → (1 + o / t) * t <= d →
  cost t ((1 + o / t) * t) d + 1 <= cost t o d.
Proof.
  intros Ht Ho Hd. unfold cost. rewrite Z.div_mul by lia.
  pose proof (Z.div_mod d t). pose proof (Z.mod_pos_bound d t).
  assert (1 + o / t <= d / t) by (apply Z.div_le_lower_bound; lia).
  Zcases; lia.
Qed.

Lemma out_tabs_every_ok stops fuel : ∀ dcol ocol, one_stop stops →
  0 <= ocol <= dcol → dcol + 256 < 2 ^ 64 →
  dcol / hd 8 stops - ocol / hd 8 stops <= Z.of_nat fuel →
  ∃ n m, out_tabs_every fuel (hd 8 stops) dcol ocol = Ok (repeat 9 n, m) ∧
    ocol <= m <= dcol ∧ Z.of_nat n + (dcol - m) <= cost (hd 8 stops) ocol dcol ∧
    ∀ r, expanded stops ocol (repeat 9 n ++ r) = blanks (m - ocol) ++ expanded stops m r.
Proof.
  intros dcol ocol Hs. pose proof (one_stop_hd _ Hs) as Ht. revert dcol ocol.
  induction fuel as [|fuel IH]; intros dcol ocol Ho H64 Hf; cbn [out_tabs_every];
    rewrite !u64_small by lia; set (t := hd 8 stops) in *;
    pose proof (Z.div_mod ocol t); pose proof (Z.mod_pos_bound ocol t);
    pose proof (Z.div_mod dcol t); pose proof (Z.mod_pos_bound dcol t);
    pose proof (Z.div_le_mono ocol dcol t);
    replace ((ocol + t) / t) with (ocol / t + 1)
      by (replace (ocol + t) with (ocol + 1 * t) by lia; rewrite Z.div_add; lia);
    (destruct (Z.leb_spec (ocol / t + 1) (dcol / t));
      [destruct (Z.ltb_spec (dcol - ocol) 2)|]); try lia;
    try (exists 0%nat, ocol; split; [done|]; split; [lia|]; split;
      [unfold cost; Zcases; lia | intros r; rewrite Z.sub_diag; done]).
  assert ((1 + ocol / t) * t <= dcol) by nia.
  pose proof (next_stop t ocol) as Hn.
  destruct (IH dcol ((1 + ocol / t) * t)) as (n & m & E & Hm & Hc & Hx); [lia..|idtac|].
  { rewrite Z.div_mul; lia. }
  rewrite u64_small, E by lia. exists (S n), m. split; [done|]. split; [lia|].
  pose proof (cost_next t ocol dcol). split; [lia|].
  intros r. cbn [repeat app expanded]. rewrite one_stop_width by done. fold t.
  replace (ocol + (t - ocol mod t)) with ((1 + ocol / t) * t) by lia.
  simpl. rewrite Hx, app_assoc, blanks_app by lia. do 2 f_equal. lia.
Qed.

(** Outputting the blanks a run stands for. *)
Lemma out_blanks_ok stops dcol ocol : one_stop stops → 0 <= ocol <= dcol → dcol < UINT_MAX →
  ∃ n m, out_tabs stops dcol ocol = Ok (repeat 9 n, m) ∧
    out_spaces stops dcol m = Ok (blanks (dcol - m), dcol) ∧ ocol <= m <= dcol ∧
    Z.of_nat n + (dcol - m) <= cost (hd 8 stops) ocol dcol ∧
    ∀ r, expanded stops ocol (repeat 9 n ++ blanks (dcol - m) ++ r)
         = blanks (dcol - ocol) ++ expanded stops dcol r.
Proof.
  intros Hs Ho Hd. pose proof (one_stop_hd _ Hs) as Ht. unfold UINT_MAX in Hd.
  unfold out_tabs, out_spaces, tab_limit.
  assert (Z.of_nat (length stops) <=? 1 = true) as ->.
  { apply Z.leb_le. destruct Hs. lia. }
  rewrite (proj2 (Z.eqb_neq (hd 8 stops) 0)) by lia.
  pose proof (Z.div_pos dcol (hd 8 stops)). pose proof (Z.div_pos ocol (hd 8 stops)).
  destruct (out_tabs_every_ok stops (Z.to_nat (dcol / hd 8 stops)) dcol ocol)
    as (n & m & E & Hm & Hc & Hx); [done|lia..|].
  exists n, m. rewrite E. split; [done|].
  rewrite Z.min_l by (unfold UINT_MAX; lia).
  rewrite (while_spaces_to (Z.to_nat (dcol - m))) by lia.
  split; [by rewrite Z.max_r by lia|]. do 2 (split; [lia|]).
  intros r. rewrite Hx. unfold blanks at 2. rewrite expanded_blanks, Z2Nat.id by lia.
  fold (blanks (dcol - m)). rewrite app_assoc, blanks_app by lia. f_equal; f_equal; lia.
Qed.

(** A newline ends the line. *)
Fixpoint newline_last (p : list Z) : Prop :=
  match p with [] => True | c :: p => (c = 10 → p = []) ∧ newline_last p end.

(** The text does not end in blanks that wait to be output. *)
Definition no_blank_end (p : list Z) : Prop := isblank (List.last p 0) = false.

Lemma no_blank_end_tail c p : no_blank_end (c :: p) → no_blank_end p.
Proof. by destruct p. Qed.

Lemma no_blank_end_app p q : no_blank_end (p ++ q) → no_blank_end q.
Proof. induction p as [|c p IH]; simpl; [done|]. intros H%no_blank_end_tail. auto. Qed.

Lemma blank_not_last c p : isblank c = true → no_blank_end (c :: p) → p ≠ [].
Proof. intros Hc H ->. unfold no_blank_end in H. simpl in H. congruence. Qed.

(** What [tabify_loop] promises of its output, from columns [ocol] and [dcol] on: blanks
    from [ocol] to [dcol] and then the line, when it is expanded; no more characters
    than it takes.  Blanks that end the line are left out. *)
Definition tabified (stops p : list Z) (dcol ocol : Z) (out : list Z) : Prop :=
  Z.of_nat (length out) <= cost (hd 8 stops) ocol dcol + Z.of_nat (length p) ∧
  (∃ k, 0 <= k ∧
    blanks (dcol - ocol) ++ expanded stops dcol p = expanded stops ocol out ++ blanks k) ∧
  (no_blank_end p → (p = [] → ocol = dcol) → ∀ r,
    blanks (dcol - ocol) ++ expanded stops dcol (p ++ r) = expanded stops ocol (out ++ r)).

Lemma cost_nonneg t o d : 0 < t → 0 <= o <= d → 0 <= cost t o d.
Proof.
  intros Ht Ho. unfold cost. pose proof (Z.mod_pos_bound d t).
  pose proof (Z.div_le_mono o d t). Zcases; lia.
Qed.

Lemma tabified_end stops dcol ocol : one_stop stops → 0 <= ocol <= dcol →
  tabified stops [] dcol ocol [].
Proof.
  intros Hs Ho. pose proof (one_stop_hd _ Hs). split; [|split].
  - pose proof (cost_nonneg (hd 8 stops) ocol dcol). simpl. lia.
  - exists (dcol - ocol). split; [lia|]. simpl. by rewrite app_nil_r.
  - intros _ E r. rewrite E by done. by rewrite Z.sub_diag.
Qed.

(** A blank only moves [dcol]. *)
Lemma tabified_blank stops c p dcol dcol' ocol out : one_stop stops → 0 <= ocol <= dcol →
  c = 32 ∧ dcol' = dcol + 1 ∨ c = 9 ∧ dcol' = (1 + dcol / hd 8 stops) * hd 8 stops →
  tabified stops p dcol' ocol out → tabified stops (c :: p) dcol ocol out.
Proof.
  intros Hs Ho Hc (Hlen & (k & Hk & Hx) & Hfull). pose proof (one_stop_hd _ Hs) as Ht.
  pose proof (cost_blank (hd 8 stops) ocol dcol).
  pose proof (cost_tab (hd 8 stops) ocol dcol).
  assert (He : ∀ r, blanks (dcol - ocol) ++ expanded stops dcol (c :: r)
    = blanks (dcol' - ocol) ++ expanded stops dcol' r).
  { intros r. destruct Hc as [[-> ->] | [-> ->]]; simpl.
    - change (32 :: expanded stops (dcol + 1) r) with (blanks 1 ++ expanded stops (dcol + 1) r).
      rewrite app_assoc, blanks_app by lia. do 2 f_equal. lia.
    - rewrite one_stop_width by done. rewrite next_stop by lia.
      pose proof (Z.mod_pos_bound dcol (hd 8 stops)).
      rewrite app_assoc, blanks_app by lia. do 2 f_equal. lia. }
  split; [|split].
  - simpl length. destruct Hc as [[-> ->] | [-> ->]]; lia.
  - exists k. split; [done|]. by rewrite He.
  - intros Hn _ r. change ((c :: p) ++ r) with (c :: (p ++ r)). rewrite He. apply Hfull; [by apply no_blank_end_tail in Hn|].
    intros ->. exfalso. eapply blank_not_last in Hn; [done|].
    by destruct Hc as [[-> _] | [-> _]].
Qed.

(** The column after another character. *)
Definition next_column (c column : Z) : Z :=
  if c =? 8 then Z.max 0 (column - 1) else if c =? 10 then 0 else column + 1.

Lemma expanded_char stops c column r : c ≠ 9 →
  expanded stops column (c :: r) = c :: expanded stops (next_column c column) r.
Proof. intros H. simpl. by rewrite (proj2 (Z.eqb_neq c 9) H). Qed.

(** The blanks and a character, then the rest of the line, tabified or as it is. *)
Lemma tabified_char stops c p dcol ocol n m out : c ≠ 9 →
  0 <= ocol <= dcol → m <= dcol →
  Z.of_nat n + (dcol - m) <= cost (hd 8 stops) ocol dcol →
  (∀ r, expanded stops ocol (repeat 9 n ++ blanks (dcol - m) ++ r)
        = blanks (dcol - ocol) ++ expanded stops dcol r) →
  out = p ∨ tabified stops p (next_column c dcol) (next_column c dcol) out →
  tabified stops (c :: p) dcol ocol (repeat 9 n ++ blanks (dcol - m) ++ c :: out).
Proof.
  intros Hc Ho Hm Hcost Hx Hout.
  assert (Hlen : Z.of_nat (length out) <= Z.of_nat (length p)).
  { destruct Hout as [-> | (H & _)]; [done|]. rewrite cost_refl in H. lia. }
  split; [|split].
  - rewrite !length_app, repeat_length. unfold blanks. rewrite repeat_length. simpl. lia.
  - rewrite Hx, !expanded_char by done.
    destruct Hout as [-> | (_ & (k & Hk & E) & _)].
    + exists 0. split; [done|]. by rewrite app_nil_r.
    + exists k. split; [done|]. rewrite Z.sub_diag in E. simpl in E. rewrite E.
      by rewrite <- app_assoc.
  - intros Hn _ r. rewrite <- !app_assoc. cbn [app]. rewrite Hx, !expanded_char by done.
    do 2 f_equal. destruct Hout as [-> | (_ & _ & H)]; [done|].
    rewrite Z.sub_diag in H. apply H; [by apply no_blank_end_tail in Hn | done].
Qed.

Lemma tab_column_one stops dcol : one_stop stops → 0 <= dcol < UINT_MAX →
  tab_column stops dcol = Ok (Some ((1 + dcol / hd 8 stops) * hd 8 stops)).
Proof.
  intros Hs Hd. pose proof (one_stop_hd _ Hs). unfold tab_column, UINT_MAX in *.
  assert (Z.of_nat (length stops) <=? 1 = true) as ->.
  { apply Z.leb_le. destruct Hs. lia. }
  rewrite (proj2 (Z.eqb_neq (hd 8 stops) 0)) by lia.
  rewrite u64_small; [done|]. rewrite next_stop by lia.
  pose proof (Z.mod_pos_bound dcol (hd 8 stops)). lia.
Qed.

Lemma next_tab_range stops dcol : one_stop stops → 0 <= dcol →
  dcol < (1 + dcol / hd 8 stops) * hd 8 stops <= dcol + 256.
Proof.
  intros Hs Hd. pose proof (one_stop_hd _ Hs). rewrite next_stop by lia.
  pose proof (Z.mod_pos_bound dcol (hd 8 stops)). lia.
Qed.

(** The columns of the code after a character that is not a newline. *)
Lemma after_char c dcol : c ≠ 10 → 0 <= dcol < UINT_MAX →
  (if c =? 8 then if 0 <? dcol then (u64 (dcol - 1), u64 (dcol - 1)) else (dcol, dcol)
   else (u64 (dcol + 1), u64 (dcol + 1))) = (next_column c dcol, next_column c dcol).
Proof.
  intros Hc Hd. unfold next_column, UINT_MAX in *. rewrite (proj2 (Z.eqb_neq c 10) Hc).
  destruct (c =? 8); [destruct (Z.ltb_spec 0 dcol)|]; rewrite ?u64_small by lia; f_equal; lia.
Qed.

Lemma tabify_loop_ok all stops p : ∀ dcol ocol, one_stop stops → newline_last p →
  0 <= ocol <= dcol → dcol + 256 * Z.of_nat (length p) < UINT_MAX →
  ∃ out, tabify_loop all stops p dcol ocol = Ok out ∧ tabified stops p dcol ocol out.
Proof.
  intros dcol ocol Hs. revert dcol ocol.
  induction p as [|c p IH]; intros dcol ocol Hp Ho Hd.
  { exists []. split; [done|]. by apply tabified_end. }
  simpl length in Hd. destruct Hp as [Hnl Hp]. assert (Hd' : dcol < UINT_MAX) by lia.
  cbn [tabify_loop]. destruct (Z.eqb_spec c 32) as [->|H32].
  { rewrite u64_small by (unfold UINT_MAX in *; lia).
    destruct (IH (dcol + 1) ocol) as (out & E & H); [done|lia..|]. exists out.
    split; [done|]. eapply tabified_blank; eauto. }
  pose proof (next_tab_range stops dcol Hs).
  destruct (Z.eqb_spec c 9) as [->|H9].
  { rewrite tab_column_one by (done || lia). simpl res_bind.
    destruct (IH ((1 + dcol / hd 8 stops) * hd 8 stops) ocol) as (out & E & H'); [done|lia..|].
    exists out. split; [done|]. eapply tabified_blank; eauto. }
  destruct (out_blanks_ok stops dcol ocol) as (n & m & E1 & E2 & Hm & Hc & Hx); [done|lia..|].
  simpl res_bind. rewrite E1. simpl res_bind. rewrite E2. cbn [res_bind].
  destruct (Z.eqb_spec c 10) as [->|H10].
  { rewrite (Hnl eq_refl). simpl.
    exists (repeat 9 n ++ blanks (dcol - m) ++ [10]). split.
    - by destruct (_ && _).
    - apply tabified_char; auto; lia. }
  rewrite after_char by lia.
  assert (Hn : 0 <= next_column c dcol <= dcol + 1) by (unfold next_column; Zcases; lia).
  destruct (IH (next_column c dcol) (next_column c dcol)) as (out & E & H'); [done|lia..|].
  destruct (_ && _).
  - rewrite E. simpl. eexists. split; [done|]. apply tabified_char; auto; lia.
  - simpl. eexists. split; [done|]. apply tabified_char; auto; lia.
Qed.

(** The lines of a file: all but the last end in a newline. *)
Fixpoint lines_ok (ls : list (list Z)) : Prop :=
  match ls with
  | [] => True
  | l :: ls => newline_last l ∧ (ls ≠ [] → List.last l 0 = 10) ∧ lines_ok ls
  end.

Lemma fgetln_lines_ok f : concat (fgetln_lines f) = f ∧ lines_ok (fgetln_lines f) ∧
  Forall (λ l, l ≠ []) (fgetln_lines f).
Proof.
  induction f as [|c f (IH & Hl & Hne)]; simpl; [done|].
  destruct (Z.eqb_spec c 10) as [->|H10].
  - simpl. rewrite IH. split; [done|]. split; [|by constructor]. done.
  - destruct (fgetln_lines f) as [|l ls]; simpl in *.
    + subst f. split; [done|]. split; [|by repeat constructor]. done.
    + apply Forall_cons in Hne as [? ?]. destruct Hl as (? & H2 & ?).
      split; [by rewrite IH|]. split; [|by constructor].
      split; [done|]. split; [|done]. intros Hls. destruct l; [done|]. by apply H2.
Qed.

Lemma expanded_newline stops r : ∀ l column, List.last l 0 = 10 →
  expanded stops column (l ++ r) = expanded stops column l ++ expanded stops 0 r.
Proof.
  induction l as [|c l IH]; intros column Hl; [done|].
  destruct l as [|c' l].
  - simpl in Hl. by subst c.
  - change (List.last (c' :: l) 0 = 10) in Hl. remember (c' :: l) as q eqn:Hq. clear Hq.
    simpl. destruct (c =? 9); rewrite IH by done; [by rewrite app_assoc | done].
Qed.

Lemma tabify_line all stops l : one_stop stops → newline_last l → short_file l →
  ∃ out, tabify all stops l = Ok out ∧ tabified stops l 0 0 out.
Proof. intros ? ? H. apply tabify_loop_ok; try done. Qed.

Lemma tabify_lines_ok all stops ls : one_stop stops → lines_ok ls → short_file (concat ls) →
  ∃ out k, tabify_lines all stops ls = Ok out ∧ (length out <= length (concat ls))%nat ∧
    0 <= k ∧ expanded stops 0 (concat ls) = expanded stops 0 out ++ blanks k ∧
    (no_blank_end (concat ls) → k = 0).
Proof.
  intros Hs. induction ls as [|l ls IH]; intros Hl Hf.
  { by exists [], 0. }
  destruct Hl as (Hnl & Hlast & Hl). simpl concat in *. unfold short_file in *.
  rewrite length_app in *. destruct IH as (out' & k & E' & Hlen' & Hk & Hx' & Hk0); [done|lia|].
  destruct (tabify_line all stops l) as (out & E & Hlen & (k1 & Hk1 & Hx) & Hfull);
    [done|done|unfold short_file; lia|].
  rewrite cost_refl in Hlen. rewrite Z.sub_diag in Hx, Hfull. simpl in Hx, Hfull.
  cbn [tabify_lines]. rewrite E. simpl res_bind. rewrite E'. simpl res_bind.
  destruct (decide (ls = [])) as [->|Hne].
  - simpl in E'. injection E' as <-. simpl concat. rewrite !app_nil_r.
    destruct (isblank (List.last l 0)) eqn:Hb.
    + exists out, k1. split; [done|]. split; [simpl; lia|]. do 2 (split; [done|]).
      unfold no_blank_end. congruence.
    + exists out, 0. split; [done|]. split; [simpl; lia|]. split; [done|]. split; [|done].
      specialize (Hfull Hb (λ _, eq_refl) []). by rewrite !app_nil_r in *.
  - specialize (Hlast Hne). exists (out ++ out'), k.
    split; [done|]. split; [rewrite length_app; lia|]. split; [done|]. split.
    + rewrite <- Hfull; [|unfold no_blank_end; by rewrite Hlast | done].
      rewrite !expanded_newline by done. by rewrite Hx', app_assoc.
    + intros H. by apply Hk0, no_blank_end_app with l.
Qed.

(** *** The operands of -t *)

Lemma stops_print t : 1 <= t <= 256 →
  getstops (print_uint t) = Ok [t] ∧
  unexpand_stops [print_uint t] (Tabs [] 0) = Ok (Tabs [t] 20).
Proof.
  intros Ht. assert (Hin : In t (seqZ 1 256)).
  { apply list_elem_of_In, elem_of_seqZ. lia. }
  clear Ht. split; revert t Hin.
  - apply (proj1 (@map_ext_in_iff _ _ (λ t, getstops (print_uint t)) (λ t, Ok [t]) (seqZ 1 256))).
    by vm_compute.
  - apply (proj1 (@map_ext_in_iff _ _ (λ t, unexpand_stops [print_uint t] (Tabs [] 0))
      (λ t, Ok (Tabs [t] 20)) (seqZ 1 256))). by vm_compute.
Qed.

(** The same -t operand, or none, for both programs. *)
Definition tab_operand (t : option Z) : list (list Z) :=
  match t with Some t => [print_uint t] | None => [] end.

Lemma tab_operand_stops t : (∀ n, t = Some n → 1 <= n <= 256) →
  ∃ stops m, expand_stops (tab_operand t) [] = Ok stops ∧ one_stop stops ∧
    unexpand_stops (tab_operand t) (Tabs [] 0) = Ok (Tabs stops m).
Proof.
  intros Ht. destruct t as [n|].
  - destruct (stops_print n) as [E1 E2]; [by apply Ht|]. exists [n], 20.
    unfold tab_operand. cbn [expand_stops]. rewrite E1. split; [done|]. split; [|done].
    split; [done|]. constructor; [by apply Ht | constructor].
  - exists [], 0. split; [done|]. split; [|done]. split; [simpl; lia | constructor].
Qed.

Lemma expand_main_one t stops f : expand_stops (tab_operand t) [] = Ok stops →
  good_stops stops → short_file f →
  expand_main (tab_operand t) [f] = Ok (expanded stops 0 f).
Proof.
  intros E Hg Hf. unfold expand_main. rewrite E. cbn [res_bind].
  rewrite expand_files_expanded by (done || by repeat constructor). simpl.
  by rewrite app_nil_r.
Qed.

(** ** Properties *)

(** expand is the text with every tab replaced by the blanks up to the next tab stop
    of its column: whatever stops the operands of -t set, and for files of any length
    whose columns an unsigned int can count. *)
Theorem expand_expands specs files stops :
  expand_stops specs [] = Ok stops → Forall short_file files →
  expand_main specs files = Ok (concat (expanded stops 0 <$> files)).
Proof.
  intros E Hf. unfold expand_main. rewrite E. apply expand_files_expanded; [|done].
  eapply yields_Ok; [|done]. apply expand_stops_good. constructor.
Qed.

Lemma expand_expands_witness :
  expand_main [str "4"; str "2,6 7"] [[9; 97; 9; 98; 9; 99; 9]; [97; 98; 8; 9; 10; 9]]
  = Ok (str "  a   b c " ++ [97; 98; 8; 32; 10; 32; 32]).
Proof.
  rewrite (expand_expands _ _ [2; 6; 7]); [done | done | by repeat constructor].
Defined.

(** C37.  What unexpand writes, expand turns into what it makes of the original: with
    no tab stop given to either or the same single one, from 1 to 256, with -a and
    without, for a file of fewer than UINT_MAX/256 characters (under 16 MB: no
    column leaves an unsigned int).  And unexpand never makes a file longer.  Only
    blanks at the very end of a file that has no last newline are lost.  A stop of 0
    divides by zero ([unexpand_zero_stop]), several stops lose blanks
    ([unexpand_loses_blanks]). *)
Theorem expand_unexpand all t f :
  (∀ n, t = Some n → 1 <= n <= 256) → short_file f →
  ∃ out e k, unexpand_main all (tab_operand t) [f] = Ok out ∧
    (length out <= length f)%nat ∧
    expand_main (tab_operand t) [out] = Ok e ∧
    expand_main (tab_operand t) [f] = Ok (e ++ blanks k) ∧
    (isblank (List.last f 0) = false → k = 0).
Proof.
  intros Ht Hf. destruct (tab_operand_stops t Ht) as (stops & m & E1 & Hs & E2).
  destruct (fgetln_lines_ok f) as (Hc & Hl & _).
  destruct (tabify_lines_ok all stops (fgetln_lines f)) as (out & k & E & Hlen & Hk & Hx & Hk0);
    [done|done|by rewrite Hc|]. rewrite Hc in *.
  exists out, (expanded stops 0 out), k.
  split. { unfold unexpand_main. rewrite E2. simpl. rewrite E. simpl. by rewrite app_nil_r. }
  split; [done|]. destruct Hs as [_ Hg].
  split; [apply expand_main_one; try done; unfold short_file in *; lia|].
  split; [|done]. rewrite <- Hx. by apply expand_main_one.
Qed.

Lemma expand_unexpand_witness :
  (1 <= 4 <= 256) ∧ ∃ out e k,
    unexpand_main true [str "4"] [str "        a   b  c"] = Ok out ∧
    (length out <= 16)%nat ∧ expand_main [str "4"] [out] = Ok e ∧
    expand_main [str "4"] [str "        a   b  c"] = Ok (e ++ blanks k) ∧
    (isblank (ch "c") = false → k = 0).
Proof.
  split; [lia|].
  apply (expand_unexpand true (Some 4) (str "        a   b  c"));
    [intros n [= <-]; lia | done].
Defined.

(** *** What the code does instead *)

(** Several stops: blanks past the last one are not output, so that twenty-six columns
    become twenty. *)
Lemma unexpand_loses_blanks :
  unexpand_main false [str "4,20"] [repeat 32 26 ++ [ch "x"]] = Ok [9; 9; ch "x"] ∧
  expand_main [str "4,20"] [[9; 9; ch "x"]] = Ok (repeat 32 20 ++ [ch "x"]).
Proof. by split. Qed.

(** [tabstops] is allocated by the byte: the third stop is written past its end. *)
Lemma unexpand_third_stop : unexpand_main false [str "2,4,6"] [] = Fault.
Proof. done. Qed.

(** -t 0 is accepted, and divides by zero. *)
Lemma unexpand_zero_stop : unexpand_main false [str "0"] [[ch "x"]] = Fault.
Proof. done. Qed.

(** Blanks that end a file without a newline are dropped. *)
Lemma unexpand_drops_end : unexpand_main true [] [[ch "x"; 32; 32]] = Ok [ch "x"].
Proof. done. Qed.

(** [expand]'s parser overflows its int on a long number. *)
Lemma getstops_overflow : getstops (str "99999999999") = Fault.
Proof. done. Qed.
