(* ===== verification/DdMsg.v ===== *)
(** * The summary of dd (bin/dd/misc.c)

    [summary] reports the counts of the copy, in the format POSIX asks for, in one with
    human readable sizes, in none, or in the format that the operand msgfmt gives, a
    string with directives that [dd_write_msg] expands and can check beforehand. *)

From S2P Require Import Prelude Libc Humanize Dd.

(** ** Code *)

(** [tv2mS] of a [struct timeval], seconds and microseconds. *)
Definition tv2mS (tv : Z * Z) : Z := s64 (fst tv * 1000 + Z.quot (snd tv + 500) 1000).

(** The milliseconds since [start], at least one: the first lines of [posix_summary] and
    of [dd_write_msg]. *)
Definition elapsed (start now : Z * Z) : Z :=
  let mS := s64 (tv2mS now - tv2mS start) in if mS =? 0 then 1 else mS.

(** [st.bytes * 1000LL / mS], in the unsigned type. *)
Definition rate (bytes mS : Z) : Z := u64 (bytes * 1000) / u64 mS.

(** [%03d] of a remainder by a thousand. *)
Definition print_03d (v : Z) : list Z :=
  if v <? 0 then
    let d := print_uint (- v) in ch "-" :: replicate (2 - length d) (ch "0") ++ d
  else let d := print_uint v in replicate (3 - length d) (ch "0") ++ d.

(** The calls of [write(2)] on the standard error, whose results are ignored. *)
Notation calls := (list (list Z)).

(** [snprintf(buf, sizeof(buf), ...); write(STDERR_FILENO, buf, strlen(buf));] for an
    array [buf] of [size] bytes. *)
Definition print_line (size : Z) (t : list Z) : calls :=
  [cstr (take (Z.to_nat (size - 1)) t ++ [0])].

Definition plural (n : Z) : list Z := if n =? 1 then str "block" else str "blocks".

Definition posix_summary (progress : Z) (st : STAT) (start now : Z * Z) : calls :=
  let mS := elapsed start now in
  (if progress =? 0 then [] else [[10]]) ++
  print_line 100 (print_uint (in_full st) ++ [ch "+"] ++ print_uint (in_part st)
    ++ str " records in" ++ [10] ++ print_uint (out_full st) ++ [ch "+"]
    ++ print_uint (out_part st) ++ str " records out" ++ [10]) ++
  (if st_swab st =? 0 then []
   else print_line 100 (print_uint (st_swab st) ++ str " odd length swab "
          ++ plural (st_swab st) ++ [10])) ++
  (if trunc st =? 0 then []
   else print_line 100 (print_uint (trunc st) ++ str " truncated "
          ++ plural (trunc st) ++ [10])) ++
  (if st_sparse st =? 0 then []
   else print_line 100 (print_uint (st_sparse st) ++ str " sparse output "
          ++ plural (st_sparse st) ++ [10])) ++
  print_line 100 (print_uint (st_bytes st) ++ str " bytes transferred in "
    ++ print_uint (u64 (Z.quot mS 1000)) ++ [ch "."] ++ print_03d (Z.rem mS 1000)
    ++ str " secs (" ++ print_uint (rate (st_bytes st) mS) ++ str " bytes/sec)" ++ [10]).

(** [buffer_write]: the bytes of [wbuf] not written yet, which has room for 128, and the
    calls made. *)
Fixpoint buffer_write (s : list Z) (wbuf : list Z) : list Z * calls :=
  match s with
  | [] => (wbuf, [])
  | c :: s =>
      let wbuf := wbuf ++ [c] in
      if 128 <=? Z.of_nat (length wbuf) then
        let '(wbuf', ws) := buffer_write s [] in (wbuf', wbuf :: ws)
      else buffer_write s wbuf
  end.

(** The string in an array of characters that must have a NUL. *)
Definition string_in (buf : list Z) : res (list Z) :=
  if existsb (Z.eqb 0) buf then Ok (cstr buf) else Fault.

Section msg.
Context (decimal_point : list Z).
(** What the arrays [hbuf] and [nbuf] hold before they are written. *)
Context (hbuf nbuf : list Z).
Context (st : STAT) (mS : Z).

(** [snprintf(nbuf, sizeof(nbuf), ...)] and the string in [nbuf]. *)
Definition in_nbuf (t : list Z) : res (list Z) :=
  let* nbuf := snprintf nbuf 32 t in string_in nbuf.

(** [humanize_number(hbuf, sizeof(hbuf), n, "B", HN_AUTOSCALE, HN_DECIMAL)], whose failure
    gives a warning only, and the string in [hbuf]. *)
Definition in_hbuf (n : Z) : res (list Z) :=
  let* (r, b) := humanize_number decimal_point (Some hbuf) 7 (s64 n) (Some (str "B"))
                   HN_AUTOSCALE HN_DECIMAL in
  match b with Some b => string_in b | None => Fault end.

(** The switch on the directive: the string [ADDS] or [ADDC] is given. *)
Definition msg_directive (c : Z) : res (list Z) :=
  if c =? ch "b" then in_nbuf (print_uint (st_bytes st))
  else if c =? ch "B" then in_hbuf (st_bytes st)
  else if c =? ch "e" then in_nbuf (print_uint (rate (st_bytes st) mS))
  else if c =? ch "E" then let* t := in_hbuf (rate (st_bytes st) mS) in Ok (t ++ str "/sec")
  else if c =? ch "i" then in_nbuf (print_uint (in_part st))
  else if c =? ch "I" then in_nbuf (print_uint (in_full st))
  else if c =? ch "o" then in_nbuf (print_uint (out_part st))
  else if c =? ch "O" then in_nbuf (print_uint (out_full st))
  else if c =? ch "s" then
    in_nbuf (print_int (Z.quot mS 1000) ++ [ch "."] ++ print_03d (Z.rem mS 1000))
  else if c =? ch "p" then in_nbuf (print_uint (st_sparse st))
  else if c =? ch "t" then in_nbuf (print_uint (trunc st))
  else if c =? ch "w" then in_nbuf (print_uint (st_swab st))
  else if c =? ch "P" then Ok (plural (st_sparse st))
  else if c =? ch "T" then Ok (plural (trunc st))
  else if c =? ch "W" then Ok (plural (st_swab st))
  else if c =? ch "%" then Ok [ch "%"]
  else Err EXIT_FAILURE.

(** The loop over the format: what is left in [wbuf] and the calls. *)
Fixpoint msg_loop (enable : bool) (fmt : list Z) (wbuf : list Z) : res (list Z * calls) :=
  match fmt with
  | [] => Ok (wbuf, [])
  | c :: fmt =>
      if negb (c =? ch "%") then
        let '(wbuf, ws) := if enable then buffer_write [c] wbuf else (wbuf, []) in
        let* (wbuf, ws') := msg_loop enable fmt wbuf in Ok (wbuf, ws ++ ws')
      else
        match fmt with
        | [] => Ok (wbuf, [])
        | d :: fmt =>
            let* t := msg_directive d in
            let '(wbuf, ws) := if enable then buffer_write t wbuf else (wbuf, []) in
            let* (wbuf, ws') := msg_loop enable fmt wbuf in Ok (wbuf, ws ++ ws')
        end
  end.

(** [dd_write_msg], with the flush at its end; [wbuf] is empty between calls. *)
Definition dd_write_msg (fmt : list Z) (enable : bool) : res calls :=
  let* (wbuf, ws) := msg_loop enable fmt [] in Ok (ws ++ [wbuf]).

Definition human_summary : res calls :=
  let* w1 := dd_write_msg (str "%I+%i records in" ++ [10] ++ str "%O+%o records out" ++ [10])
               true in
  let* w2 := if st_swab st =? 0 then Ok []
             else dd_write_msg (str "%w odd length swab %W" ++ [10]) true in
  let* w3 := if trunc st =? 0 then Ok []
             else dd_write_msg (str "%t truncated %T" ++ [10]) true in
  let* w4 := if st_sparse st =? 0 then Ok []
             else dd_write_msg (str "%p sparse output %P" ++ [10]) true in
  let* w5 := dd_write_msg (str "%b bytes (%B) transferred in %s secs (%e bytes/sec - %E)"
               ++ [10]) true in
  Ok (w1 ++ w2 ++ w3 ++ w4 ++ w5).

End msg.

(** [summary]; with [NO_MSGFMT] the format is POSIX's.  Each format takes the time anew:
    the calls of one summary are given the same. *)
Definition summary (no_msgfmt : bool) (msgfmt : list Z) (progress : Z) (decimal_point hbuf nbuf : list Z)
    (st : STAT) (start now : Z * Z) : res calls :=
  let mS := elapsed start now in
  let* ws :=
    if no_msgfmt || bool_decide (msgfmt = str "posix")
    then Ok (posix_summary progress st start now)
    else if bool_decide (msgfmt = str "human") then human_summary decimal_point hbuf nbuf st mS
    else if bool_decide (msgfmt = str "quiet") then Ok []
    else dd_write_msg decimal_point hbuf nbuf st mS msgfmt true in
  Ok ((if progress =? 0 then [] else [[10]]) ++ ws).

(** ** Specification *)

(** Milliseconds, a decimal of seconds with three digits, and bytes in a second. *)
Definition millis (tv : Z * Z) : Z := fst tv * 1000 + (snd tv + 500) / 1000.
Definition seconds (mS : Z) : list Z :=
  print_uint (mS / 1000) ++ [ch "."; 48 + mS / 100 mod 10; 48 + mS / 10 mod 10; 48 + mS mod 10].
Definition per_second (bytes mS : Z) : Z := bytes * 1000 / mS.

(** A size for people, in at most three digits and powers of 1024: [k] is the least scale
    that has no more digits. *)
Definition human_size (decimal_point : list Z) (n : Z) (t : list Z) : Prop :=
  ∃ k : nat, (k <= 6)%nat ∧ hn_round n 1024 k < 1000
    ∧ (∀ j, (j < k)%nat → 1000 <= hn_round n 1024 j)
    ∧ t = hn_spec decimal_point n (str "B") k HN_DECIMAL.

(** The directives of dd(1): what each stands for, with the sizes [hB] of the copy
    and [hE] of a second of it. *)
Definition documented (st : STAT) (mS : Z) (hB hE : list Z) : list (Z * list Z) :=
  let blocks n := if n =? 1 then str "block" else str "blocks" in
  [(ch "b", print_uint (st_bytes st)); (ch "B", hB);
   (ch "e", print_uint (per_second (st_bytes st) mS)); (ch "E", hE ++ str "/sec");
   (ch "i", print_uint (in_part st)); (ch "I", print_uint (in_full st));
   (ch "o", print_uint (out_part st)); (ch "O", print_uint (out_full st));
   (ch "s", seconds mS);
   (ch "p", print_uint (st_sparse st)); (ch "t", print_uint (trunc st));
   (ch "w", print_uint (st_swab st)); (ch "P", blocks (st_sparse st));
   (ch "T", blocks (trunc st)); (ch "W", blocks (st_swab st)); (ch "%", [ch "%"])].

(** What the directives of the code expand to, the sizes being [hB] and [hE]. *)
Definition directives (st : STAT) (mS : Z) (hB hE : list Z) : list (Z * list Z) :=
  [(ch "b", print_uint (st_bytes st)); (ch "B", hB);
   (ch "e", print_uint (rate (st_bytes st) mS)); (ch "E", hE ++ str "/sec");
   (ch "i", print_uint (in_part st)); (ch "I", print_uint (in_full st));
   (ch "o", print_uint (out_part st)); (ch "O", print_uint (out_full st));
   (ch "s", print_int (Z.quot mS 1000) ++ [ch "."] ++ print_03d (Z.rem mS 1000));
   (ch "p", print_uint (st_sparse st)); (ch "t", print_uint (trunc st));
   (ch "w", print_uint (st_swab st)); (ch "P", plural (st_sparse st));
   (ch "T", plural (trunc st)); (ch "W", plural (st_swab st)); (ch "%", [ch "%"])].

Definition lookup_directive (table : list (Z * list Z)) (c : Z) : option (list Z) :=
  snd <$> List.find (λ d, c =? fst d) table.

(** A format with its directives expanded, or [None] when it has an unknown one. *)
Fixpoint msg_text (table : list (Z * list Z)) (fmt : list Z) : option (list Z) :=
  match fmt with
  | [] => Some []
  | c :: fmt =>
      if negb (c =? ch "%") then cons c <$> msg_text table fmt
      else
        match fmt with
        | [] => Some []
        | d :: fmt =>
            match lookup_directive table d, msg_text table fmt with
            | Some t, Some t' => Some (t ++ t')
            | _, _ => None
            end
        end
  end.

(** Counts of which the lines of the summary have room. *)
Definition stat_ok (st : STAT) : Prop :=
  Forall (λ n, 0 <= n < 10 ^ 17)
    [in_full st; in_part st; out_full st; out_part st; trunc st; st_swab st; st_sparse st] ∧
  0 <= st_bytes st < 10 ^ 15.

(** The lines of the counts, and of what happened besides. *)
Definition count_lines (st : STAT) : list Z :=
  print_uint (in_full st) ++ [ch "+"] ++ print_uint (in_part st) ++ str " records in" ++ [10] ++
  print_uint (out_full st) ++ [ch "+"] ++ print_uint (out_part st) ++ str " records out" ++ [10].

Definition event_line (n : Z) (what : list Z) : list Z :=
  if n =? 0 then []
  else print_uint n ++ what ++ (if n =? 1 then str "block" else str "blocks") ++ [10].

Definition event_lines (st : STAT) : list Z :=
  event_line (st_swab st) (str " odd length swab ") ++
  event_line (trunc st) (str " truncated ") ++
  event_line (st_sparse st) (str " sparse output ").

(** ** Strings in arrays *)

Definition no_nul (t : list Z) : Prop := Forall (λ c, c ≠ 0) t.

Lemma no_nul_app s t : no_nul s → no_nul t → no_nul (s ++ t).
Proof. intros. by apply Forall_app. Qed.

Lemma no_nul_uint v : no_nul (print_uint v).
Proof.
  eapply Forall_impl; [apply print_uint_digits|]. intros c Hc%isdigit_range. lia.
Qed.

Lemma no_nul_int v : no_nul (print_int v).
Proof. apply print_int_nonzero. Qed.

Lemma no_nul_03d v : no_nul (print_03d v).
Proof.
  unfold print_03d. case_match; [constructor; [done|]|]; apply no_nul_app;
    try apply no_nul_uint; apply Forall_replicate; done.
Qed.

Lemma no_nul_plural n : no_nul (plural n).
Proof. unfold plural. case_match; by repeat constructor. Qed.

Lemma no_nul_lit (t : list Z) : forallb (λ c, negb (c =? 0)) t = true → no_nul t.
Proof.
  intros H. apply List.Forall_forall. intros c Hc. rewrite forallb_forall in H.
  specialize (H c Hc). by destruct (Z.eqb_spec c 0).
Qed.

Create HintDb no_nul.
#[export] Hint Resolve no_nul_app no_nul_uint no_nul_int no_nul_03d no_nul_plural : no_nul.
#[export] Hint Extern 5 (no_nul (_ :: _)) => (apply no_nul_lit; reflexivity) : no_nul.
#[export] Hint Extern 5 (no_nul []) => (constructor) : no_nul.

Lemma string_in_nul t rest : no_nul t → string_in (t ++ 0 :: rest) = Ok t.
Proof.
  intros Ht. unfold string_in. rewrite cstr_nul by done.
  replace (existsb (Z.eqb 0) (t ++ 0 :: rest)) with true; [done|].
  symmetry. apply existsb_exists. exists 0. split; [|done].
  apply in_or_app. right. by left.
Qed.

Lemma string_in_In b : In 0 b → ∃ t, string_in b = Ok t.
Proof.
  intros H. unfold string_in. replace (existsb (Z.eqb 0) b) with true; [by eexists|].
  symmetry. apply existsb_exists. by exists 0.
Qed.

(** A line that fits is written whole. *)
Lemma print_line_fits size t :
  Z.of_nat (length t) < size → no_nul t → print_line size t = [t].
Proof. intros Hl Ht. unfold print_line. by rewrite take_ge, cstr_nul by (done || lia). Qed.

Lemma in_nbuf_fits nbuf t :
  length nbuf = 32%nat → (length t < 32)%nat → no_nul t → in_nbuf nbuf t = Ok t.
Proof.
  intros Hb Hl Ht. unfold in_nbuf. rewrite snprintf_fits by lia. by apply string_in_nul.
Qed.

Lemma in_hbuf_ok dp hbuf n : length hbuf = 7%nat → 0 <= n < 2 ^ 63 →
  ∃ t, in_hbuf dp hbuf n = Ok t.
Proof.
  intros Hb Hn. unfold in_hbuf. rewrite s64_small by lia.
  destruct (autoscale_fits_buffer dp hbuf 7 n (str "B") HN_DECIMAL)
    as (r & buf' & E & _); [unfold INT64_MIN, INT64_MAX; lia|lia|left; simpl; lia|].
  rewrite E. cbn [res_bind]. apply string_in_In.
  by apply humanize_number_nul in E.
Qed.

(** ** dd_write_msg *)

(** The bytes written and the bytes kept are those given, in calls of 128. *)
Lemma buffer_write_ok s : ∀ wbuf, (length wbuf < 128)%nat →
  let '(wbuf', ws) := buffer_write s wbuf in
  concat ws ++ wbuf' = wbuf ++ s ∧ (length wbuf' < 128)%nat ∧
  Forall (λ w, length w = 128%nat) ws.
Proof.
  induction s as [|c s IH]; intros wbuf Hl; cbn [buffer_write].
  { by rewrite app_nil_r. }
  destruct (Z.leb_spec 128 (Z.of_nat (length (wbuf ++ [c])))) as [Hf|Hf];
    rewrite length_app in Hf; simpl in Hf.
  - specialize (IH []). destruct (buffer_write s []) as [wbuf' ws].
    destruct IH as (E & Hl' & Hw); [simpl; lia|]. split; [|split; [done|]].
    + simpl. by rewrite <- !app_assoc, E.
    + constructor; [|done]. rewrite length_app. simpl. lia.
  - specialize (IH (wbuf ++ [c])). destruct (buffer_write s (wbuf ++ [c])) as [wbuf' ws].
    destruct IH as (E & Hl' & Hw); [rewrite length_app; simpl; lia|].
    split; [|done]. by rewrite E, <- app_assoc.
Qed.

Lemma length_03d v : -1000 < v < 1000 → (length (print_03d v) <= 4)%nat.
Proof.
  intros Hv. unfold print_03d. destruct (Z.ltb_spec v 0); cbn [length];
    rewrite length_app, length_replicate.
  - pose proof (print_uint_length (- v) 3). lia.
  - pose proof (print_uint_length v 3). lia.
Qed.

Section message.
Context (dp hbuf nbuf : list Z) (st : STAT) (mS : Z) (hB hE : list Z).
Context (Hnb : length nbuf = 32%nat) (Hst : stat_ok st) (HmS : - 2 ^ 63 <= mS < 2 ^ 63).
Context (HB : in_hbuf dp hbuf (st_bytes st) = Ok hB).
Context (HE : in_hbuf dp hbuf (rate (st_bytes st) mS) = Ok hE).

Let table := directives st mS hB hE.

Lemma in_nbuf_uint v : 0 <= v < 10 ^ 20 → in_nbuf nbuf (print_uint v) = Ok (print_uint v).
Proof.
  intros Hv. apply in_nbuf_fits; [done| |apply no_nul_uint].
  pose proof (print_uint_length v 20). lia.
Qed.

Lemma rate_range : 0 <= rate (st_bytes st) mS < 10 ^ 20.
Proof.
  unfold rate. pose proof (u64_range (st_bytes st * 1000)). pose proof (u64_range mS).
  destruct (decide (u64 mS = 0)) as [->|]; [rewrite Z.div_0_r_ext by done; lia|].
  split; [apply Z.div_pos; lia|]. apply Z.div_lt_upper_bound; nia.
Qed.

Lemma in_nbuf_secs :
  let t := print_int (Z.quot mS 1000) ++ [ch "."] ++ print_03d (Z.rem mS 1000) in
  in_nbuf nbuf t = Ok t.
Proof.
  intros t. apply in_nbuf_fits; [done| |unfold t; auto with no_nul].
  unfold t. rewrite !length_app. pose proof (Z.rem_bound_abs mS 1000).
  pose proof (length_03d (Z.rem mS 1000)). pose proof (Z.quot_rem' mS 1000).
  pose proof (print_int_length (Z.quot mS 1000) 19). simpl length.
  destruct (_ <? 0); lia.
Qed.

Lemma directive_ok c :
  msg_directive dp hbuf nbuf st mS c
  = match lookup_directive table c with Some t => Ok t | None => Err EXIT_FAILURE end.
Proof.
  destruct Hst as [Hc Hb]. rewrite !Forall_cons in Hc.
  destruct Hc as (? & ? & ? & ? & ? & ? & ? & _). pose proof rate_range.
  unfold msg_directive, lookup_directive, table, directives. cbn [List.find fst].
  repeat (case_match; [cbn [fmap option_fmap option_map snd];
    rewrite ?HB, ?HE, ?in_nbuf_secs; first [done | apply in_nbuf_uint; lia]|]).
  done.
Qed.

(** Two characters at a time: a property of all texts that is proved of a text from those
    of its tails. *)
Lemma list_tails_ind {A} (P : list A → Prop) :
  P [] → (∀ c l, P l → P (tl l) → P (c :: l)) → ∀ l, P l.
Proof.
  intros H0 H1 l. cut (P l ∧ P (tl l)); [by intros []|].
  induction l as [|c l [IH1 IH2]]; [done|]. split; [by apply H1 | done].
Qed.

Lemma msg_loop_enabled fmt : ∀ wbuf, (length wbuf < 128)%nat →
  match msg_text table fmt with
  | Some t => ∃ wbuf' ws, msg_loop dp hbuf nbuf st mS true fmt wbuf = Ok (wbuf', ws) ∧
      concat ws ++ wbuf' = wbuf ++ t ∧ (length wbuf' < 128)%nat ∧
      Forall (λ w, length w = 128%nat) ws
  | None => msg_loop dp hbuf nbuf st mS true fmt wbuf = Err EXIT_FAILURE
  end.
Proof.
  induction fmt as [|c fmt IH1 IH2] using list_tails_ind; intros wbuf Hl.
  { exists wbuf, []. by rewrite app_nil_r. }
  cbn [msg_text msg_loop]. destruct (negb (c =? 37)).
  - pose proof (buffer_write_ok [c] wbuf Hl) as Hw.
    destruct (buffer_write [c] wbuf) as [wbuf1 ws1]. destruct Hw as (E1 & Hl1 & Hw1).
    specialize (IH1 wbuf1 Hl1). destruct (msg_text table fmt) as [t|]; cbn.
    + destruct IH1 as (wbuf2 & ws2 & E & E2 & Hl2 & Hw2). rewrite E. cbn.
      exists wbuf2, (ws1 ++ ws2). split; [done|]. split; [|split; [done|by apply Forall_app]].
      by rewrite concat_app, <- app_assoc, E2, app_assoc, E1, <- app_assoc.
    + by rewrite IH1.
  - destruct fmt as [|d fmt]; cbn [tl] in IH2.
    { exists wbuf, []. by rewrite app_nil_r. }
    rewrite directive_ok. destruct (lookup_directive table d) as [t1|]; cbn; [|done].
    pose proof (buffer_write_ok t1 wbuf Hl) as Hw.
    destruct (buffer_write t1 wbuf) as [wbuf1 ws1]. destruct Hw as (E1 & Hl1 & Hw1).
    specialize (IH2 wbuf1 Hl1). destruct (msg_text table fmt) as [t|]; cbn.
    + destruct IH2 as (wbuf2 & ws2 & E & E2 & Hl2 & Hw2). rewrite E. cbn.
      exists wbuf2, (ws1 ++ ws2). split; [done|]. split; [|split; [done|by apply Forall_app]].
      by rewrite concat_app, <- app_assoc, E2, app_assoc, E1, <- app_assoc.
    + by rewrite IH2.
Qed.

Lemma msg_loop_disabled fmt : ∀ wbuf,
  msg_loop dp hbuf nbuf st mS false fmt wbuf
  = match msg_text table fmt with Some _ => Ok (wbuf, []) | None => Err EXIT_FAILURE end.
Proof.
  induction fmt as [|c fmt IH1 IH2] using list_tails_ind; intros wbuf; [done|].
  cbn [msg_text msg_loop]. destruct (negb (c =? 37)).
  - rewrite IH1. by destruct (msg_text table fmt).
  - destruct fmt as [|d fmt]; cbn [tl] in IH2; [done|].
    rewrite directive_ok. destruct (lookup_directive table d); cbn; [|done].
    rewrite IH2. by destruct (msg_text table fmt).
Qed.

Lemma dd_write_msg_ok fmt t : msg_text table fmt = Some t →
  ∃ ws, dd_write_msg dp hbuf nbuf st mS fmt true = Ok ws ∧ concat ws = t ∧
    Forall (λ w, (length w <= 128)%nat) ws.
Proof.
  intros Ht. pose proof (msg_loop_enabled fmt [] ltac:(simpl; lia)) as H.
  rewrite Ht in H. destruct H as (wbuf & ws & E & Ec & Hl & Hw).
  unfold dd_write_msg. rewrite E. cbn [res_bind]. exists (ws ++ [wbuf]).
  split; [done|]. split; [by rewrite concat_app; simpl; rewrite app_nil_r|].
  apply Forall_app. split; [|constructor; [lia|constructor]].
  eapply Forall_impl; [exact Hw|]. simpl. lia.
Qed.

End message.

(** ** summary *)

Definition posix_last (st : STAT) (mS : Z) : list Z :=
  print_uint (st_bytes st) ++ str " bytes transferred in " ++ print_int (Z.quot mS 1000) ++
  [ch "."] ++ print_03d (Z.rem mS 1000) ++ str " secs (" ++ print_uint (rate (st_bytes st) mS) ++
  str " bytes/sec)" ++ [10].

Definition human_last (st : STAT) (mS : Z) (hB hE : list Z) : list Z :=
  print_uint (st_bytes st) ++ str " bytes (" ++ hB ++ str ") transferred in " ++
  print_int (Z.quot mS 1000) ++ [ch "."] ++ print_03d (Z.rem mS 1000) ++ str " secs (" ++
  print_uint (rate (st_bytes st) mS) ++ str " bytes/sec - " ++ hE ++ str "/sec)" ++ [10].

Section report.
Context (dp hbuf nbuf : list Z) (st : STAT) (mS : Z) (hB hE : list Z).
Context (Hnb : length nbuf = 32%nat) (Hst : stat_ok st) (HmS : 1 <= mS < 2 ^ 63).
Context (HB : in_hbuf dp hbuf (st_bytes st) = Ok hB).
Context (HE : in_hbuf dp hbuf (rate (st_bytes st) mS) = Ok hE).

Lemma write_msg fmt t : msg_text (directives st mS hB hE) fmt = Some t →
  ∃ ws, dd_write_msg dp hbuf nbuf st mS fmt true = Ok ws ∧ concat ws = t.
Proof.
  intros H. destruct (dd_write_msg_ok dp hbuf nbuf st mS hB hE Hnb Hst ltac:(lia) HB HE fmt t H)
    as (ws & ? & ? & _). by exists ws.
Qed.

Lemma write_event n what fmt :
  msg_text (directives st mS hB hE) fmt = Some (print_uint n ++ what ++ plural n ++ [10]) →
  ∃ ws, (if n =? 0 then Ok [] else dd_write_msg dp hbuf nbuf st mS fmt true) = Ok ws ∧
    concat ws = event_line n what.
Proof.
  intros H. unfold event_line. destruct (n =? 0); [by exists []|]. by apply write_msg.
Qed.

Lemma human_summary_ok : ∃ ws, human_summary dp hbuf nbuf st mS = Ok ws ∧
  concat ws = count_lines st ++ event_lines st ++ human_last st mS hB hE.
Proof.
  unfold human_summary.
  destruct (write_msg (str "%I+%i records in" ++ [10] ++ str "%O+%o records out" ++ [10])
    (count_lines st)) as (w1 & E1 & C1).
  { cbn -[print_uint]. done. }
  destruct (write_event (st_swab st) (str " odd length swab ")
    (str "%w odd length swab %W" ++ [10])) as (w2 & E2 & C2); [done|].
  destruct (write_event (trunc st) (str " truncated ")
    (str "%t truncated %T" ++ [10])) as (w3 & E3 & C3); [done|].
  destruct (write_event (st_sparse st) (str " sparse output ")
    (str "%p sparse output %P" ++ [10])) as (w4 & E4 & C4); [done|].
  destruct (write_msg (str "%b bytes (%B) transferred in %s secs (%e bytes/sec - %E)" ++ [10])
    (human_last st mS hB hE)) as (w5 & E5 & C5).
  { cbn -[print_uint print_int print_03d rate Z.quot Z.rem]. unfold human_last. 
    cbn -[print_uint print_int print_03d rate Z.quot Z.rem].
    by rewrite <- !app_assoc. }
  rewrite E1, E2, E3, E4, E5. cbn [res_bind]. eexists. split; [done|].
  unfold event_lines. by rewrite !concat_app, C1, C2, C3, C4, C5, !app_assoc.
Qed.

Lemma event_line_fits n what : 0 <= n < 10 ^ 17 → (length what <= 20)%nat → no_nul what →
  concat (if n =? 0 then [] else print_line 100 (print_uint n ++ what ++ plural n ++ [10]))
  = event_line n what.
Proof.
  intros Hn Hl Ht. unfold event_line. fold (plural n). destruct (n =? 0); [done|].
  rewrite print_line_fits; [apply app_nil_r| |auto with no_nul].
  pose proof (print_uint_length n 17).
  assert (length (plural n) <= 6)%nat by (unfold plural; case_match; simpl; lia).
  rewrite !length_app. simpl. lia.
Qed.

Lemma posix_summary_ok progress start now : elapsed start now = mS →
  concat (posix_summary progress st start now)
  = (if progress =? 0 then [] else [10]) ++ count_lines st ++ event_lines st ++ posix_last st mS.
Proof.
  intros Hm. unfold posix_summary. rewrite Hm. rewrite !concat_app. f_equal.
  { by destruct (progress =? 0). }
  destruct Hst as [Hc Hb]. rewrite !Forall_cons in Hc.
  destruct Hc as (H1 & H2 & H3 & H4 & H5 & H6 & H7 & _). unfold event_lines.
  rewrite <- !app_assoc.
  f_equal; [|f_equal; [|f_equal; [|f_equal]]]; try (apply event_line_fits; [done|simpl; lia|auto with no_nul]).
  - change (concat (print_line 100 (count_lines st)) = count_lines st).
    rewrite print_line_fits; [apply app_nil_r| |unfold count_lines; auto 20 with no_nul].
    pose proof (print_uint_length (in_full st) 17). pose proof (print_uint_length (in_part st) 17).
    pose proof (print_uint_length (out_full st) 17). pose proof (print_uint_length (out_part st) 17).
    unfold count_lines. rewrite !length_app. simpl. lia.
  - assert (Hq : 0 <= Z.quot mS 1000 < 10 ^ 16).
    { rewrite Z.quot_div_nonneg by lia. split; [apply Z.div_pos; lia|].
      apply Z.div_lt_upper_bound; lia. }
    replace (print_uint (u64 (Z.quot mS 1000))) with (print_int (Z.quot mS 1000)).
    2: { rewrite u64_small by lia. unfold print_int. by rewrite (proj2 (Z.ltb_ge _ _)) by lia. }
    change (concat (print_line 100 (posix_last st mS)) = posix_last st mS).
    rewrite print_line_fits; [apply app_nil_r| |unfold posix_last; auto 20 with no_nul].
    pose proof (print_uint_length (st_bytes st) 15).
    pose proof (print_int_length (Z.quot mS 1000) 16) as Hp.
    rewrite (proj2 (Z.ltb_ge _ _)) in Hp by lia.
    assert (Hr : (length (print_03d (Z.rem mS 1000)) <= 4)%nat)
      by (apply length_03d; pose proof (Z.rem_bound_abs mS 1000); lia).
    assert (Hrt : 0 <= rate (st_bytes st) mS < 10 ^ 18).
    { unfold rate. rewrite !u64_small by lia. split; [apply Z.div_pos; lia|].
      apply Z.div_lt_upper_bound; nia. }
    pose proof (print_uint_length (rate (st_bytes st) mS) 18).
    unfold posix_last. rewrite !length_app. simpl. lia.
Qed.

End report.

Lemma in_hbuf_sizes dp hbuf st mS : length hbuf = 7%nat → stat_ok st → 1 <= mS < 2 ^ 63 →
  ∃ hB hE, in_hbuf dp hbuf (st_bytes st) = Ok hB ∧
    in_hbuf dp hbuf (rate (st_bytes st) mS) = Ok hE.
Proof.
  intros Hh [_ Hb] Hm.
  destruct (in_hbuf_ok dp hbuf (st_bytes st) Hh) as [hB HB]; [lia|].
  destruct (in_hbuf_ok dp hbuf (rate (st_bytes st) mS) Hh) as [hE HE].
  { unfold rate. rewrite !u64_small by lia. split; [apply Z.div_pos; lia|].
    apply Z.div_lt_upper_bound; nia. }
  by exists hB, hE.
Qed.

(** ** Properties *)

(** The format msgfmt gives is expanded: each directive is replaced by the count or
    the size it stands for and written in calls of at most 128 bytes; a format with an
    unknown directive is refused, both when it is checked beforehand, which writes
    nothing, and when it is used. *)
Theorem dd_write_msg_expands dp hbuf nbuf st mS fmt :
  length hbuf = 7%nat → length nbuf = 32%nat → stat_ok st → 1 <= mS < 2 ^ 63 →
  ∃ hB hE, in_hbuf dp hbuf (st_bytes st) = Ok hB ∧
    in_hbuf dp hbuf (rate (st_bytes st) mS) = Ok hE ∧
    match msg_text (directives st mS hB hE) fmt with
    | Some t =>
        (∃ ws, dd_write_msg dp hbuf nbuf st mS fmt true = Ok ws ∧ concat ws = t ∧
          Forall (λ w, (length w <= 128)%nat) ws) ∧
        dd_write_msg dp hbuf nbuf st mS fmt false = Ok [[]]
    | None =>
        ∀ enable, dd_write_msg dp hbuf nbuf st mS fmt enable = Err EXIT_FAILURE
    end.
Proof.
  intros Hh Hn Hst Hm. destruct (in_hbuf_sizes dp hbuf st mS Hh Hst Hm) as (hB & hE & HB & HE).
  exists hB, hE. split; [done|]. split; [done|].
  destruct (msg_text _ fmt) as [t|] eqn:Ht.
  - split; [by eapply dd_write_msg_ok; [..|exact Ht]; try done; lia|].
    unfold dd_write_msg. erewrite msg_loop_disabled by (done || lia). by rewrite Ht.
  - intros enable. unfold dd_write_msg. destruct enable.
    + pose proof (msg_loop_enabled dp hbuf nbuf st mS hB hE Hn Hst ltac:(lia) HB HE fmt []
        ltac:(simpl; lia)) as H. rewrite Ht in H. by rewrite H.
    + erewrite msg_loop_disabled by (done || lia). by rewrite Ht.
Qed.

Lemma dd_write_msg_expands_witness :
  ∃ ws, dd_write_msg [ch "."] (replicate 7 1) (replicate 32 1)
    (mkSTAT 3 1 4 0 0 0 1 123456789) 1500 (str "%I+%i: %b (%B) %s%%, %p %P") true = Ok ws ∧
    concat ws = str "3+1: 123456789 (118 MB) 1.500%, 1 block".
Proof.
  destruct (dd_write_msg_expands [ch "."] (replicate 7 1) (replicate 32 1)
    (mkSTAT 3 1 4 0 0 0 1 123456789) 1500 (str "%I+%i: %b (%B) %s%%, %p %P"))
    as (hB & hE & HB & HE & H);
    [done | done | split; [repeat constructor|]; simpl; lia | lia |].
  vm_compute in HB. injection HB as <-. vm_compute in HE. injection HE as <-.
  destruct H as [(ws & E & Hc & _) _]. exists ws. split; [exact E|exact Hc].
Defined.

(** A size for people fits [hbuf]. *)
Lemma human_size_text dp n k : length dp = 1%nat → no_nul dp → 0 <= n → (k <= 6)%nat →
  hn_round n 1024 k < 1000 →
  let t := hn_spec dp n (str "B") k HN_DECIMAL in (length t <= 6)%nat ∧ no_nul t.
Proof.
  intros Hdp Hd Hn Hk Hr t.
  assert (0 <= hn_round n 1024 k) as Hr0 by apply (hn_round_nonneg n 0 k Hn).
  assert (0 <= hn_tenths n 1024 k) as Ht0 by apply (hn_tenths_nonneg n 0 k Hn).
  assert (length (hn_prefix HN_DECIMAL k) <= 1 ∧ no_nul (hn_prefix HN_DECIMAL k))%nat as [Hp Hp0].
  { do 7 (destruct k as [|k]; [simpl; split; [lia|repeat constructor; done]|]). lia. }
  assert (∀ v, hn_minus n v = []) as Hm.
  { intros v. unfold hn_minus. by rewrite (proj2 (Z.ltb_ge n 0)) by lia. }
  assert (length (hn_number dp n k HN_DECIMAL) <= 3 ∧ no_nul (hn_number dp n k HN_DECIMAL))%nat as [Hl Hl0].
  { unfold hn_number. rewrite !Hm, (Z.abs_eq n) by lia. cbn [app].
    change (hn_divisor HN_DECIMAL) with 1024. change (has HN_DECIMAL HN_DECIMAL) with true.
    destruct (Nat.eqb_spec k 0) as [->|].
    - split; [|apply no_nul_uint]. apply print_uint_length; [lia|].
      unfold hn_round in Hr. change (1024 ^ Z.of_nat 0) with 1 in Hr.
      pose proof (Z.mul_succ_div_gt (2 * n + 1) (2 * 1)). lia.
    - cbn [andb]. destruct (Z.ltb_spec (hn_tenths n 1024 k) 100).
      + rewrite !length_app, Hdp. split; [|auto with no_nul].
        pose proof (print_uint_length (hn_tenths n 1024 k / 10) 1 ltac:(lia)
          ltac:(split; [apply Z.div_pos; lia|apply Z.div_lt_upper_bound; lia])).
        pose proof (print_uint_length (hn_tenths n 1024 k mod 10) 1 ltac:(lia)
          ltac:(apply Z.mod_pos_bound; lia)). lia.
      + split; [|apply no_nul_uint]. apply print_uint_length; lia. }
  change (hn_sep HN_DECIMAL) with [ch " "] in *. unfold t, hn_spec.
  change (hn_sep HN_DECIMAL) with [ch " "]. split.
  - rewrite !length_app. simpl. lia.
  - auto 10 with no_nul.
Qed.

Lemma in_hbuf_size dp hbuf n : length dp = 1%nat → no_nul dp → length hbuf = 7%nat →
  0 <= n → hn_small n → ∃ t, in_hbuf dp hbuf n = Ok t ∧ human_size dp n t.
Proof.
  intros Hdp Hd Hh Hn Hs.
  assert (hn_base n (str "B") HN_DECIMAL = 4) as Hb.
  { unfold hn_base. by rewrite (proj2 (Z.ltb_ge n 0)) by lia. }
  destruct (autoscale_least dp hbuf 7 n (str "B") HN_DECIMAL Hs ltac:(lia) ltac:(left; rewrite Hb; lia))
    as (k & Hk & E & _ & Hfit & Hmin).
  rewrite Hb, (Z.abs_eq n) in * by lia. change (hn_divisor HN_DECIMAL) with 1024 in *.
  change (10 ^ (7 - 4)) with 1000 in *.
  destruct (human_size_text dp n k Hdp Hd Hn Hk Hfit) as [Hl Hz].
  exists (hn_spec dp n (str "B") k HN_DECIMAL). split; [|by exists k].
  assert (hn_loses_sign n k HN_DECIMAL = false) as Hsign.
  { unfold hn_loses_sign. by rewrite (proj2 (Z.ltb_ge n 0)) by lia. }
  unfold in_hbuf. assert (INT64_MAX / 100 = 92233720368547758) as EM by reflexivity.
  unfold hn_small in Hs. rewrite s64_small by lia. rewrite E.
  rewrite run_humanize_scale; [|done|done|rewrite hn_output_spec by done; lia|lia
    |left; intros _ _; rewrite Hb, Hdp; lia].
  rewrite hn_output_spec by done. cbn [res_bind]. by apply string_in_nul.
Qed.

(** Three digits. *)
Lemma print_03d_digits v : 0 <= v < 1000 →
  print_03d v = [48 + v / 100 mod 10; 48 + v / 10 mod 10; 48 + v mod 10].
Proof.
  intros Hv. assert (forallb (λ n, let v := Z.of_nat n in bool_decide (print_03d v
      = [48 + v / 100 mod 10; 48 + v / 10 mod 10; 48 + v mod 10])) (seq 0 1000) = true) as H
    by (vm_compute; reflexivity).
  rewrite forallb_forall in H. specialize (H (Z.to_nat v)). rewrite in_seq in H.
  rewrite Z2Nat.id in H by lia. cbn zeta in H. apply bool_decide_eq_true in H; [done|lia].
Qed.

Lemma digit_mod_thousand v : v mod 1000 / 100 mod 10 = v / 100 mod 10
  ∧ v mod 1000 / 10 mod 10 = v / 10 mod 10 ∧ v mod 1000 mod 10 = v mod 10.
Proof.
  pose proof (Z.div_mod v 1000 ltac:(lia)). pose proof (Z.mod_pos_bound v 1000 ltac:(lia)).
  set (r := v mod 1000) in *. set (q := v / 1000) in *. rewrite H. split_and!.
  - replace (1000 * q + r) with (r + (10 * q) * 100) by lia. rewrite Z.div_add by lia.
    replace (r / 100 + 10 * q) with (r / 100 + q * 10) by lia. by rewrite Z.mod_add by lia.
  - replace (1000 * q + r) with (r + (100 * q) * 10) by lia. rewrite Z.div_add by lia.
    replace (r / 10 + 100 * q) with (r / 10 + (10 * q) * 10) by lia. by rewrite Z.mod_add by lia.
  - replace (1000 * q + r) with (r + (100 * q) * 10) by lia. by rewrite Z.mod_add by lia.
Qed.

Lemma seconds_printed mS : 1 <= mS →
  print_int (Z.quot mS 1000) ++ [ch "."] ++ print_03d (Z.rem mS 1000) = seconds mS.
Proof.
  intros Hm. rewrite Z.quot_div_nonneg, Z.rem_mod_nonneg by lia. unfold seconds, print_int.
  pose proof (Z.div_pos mS 1000). rewrite (proj2 (Z.ltb_ge _ 0)) by lia. f_equal. cbn [app]. f_equal.
  rewrite print_03d_digits by (apply Z.mod_pos_bound; lia).
  by destruct (digit_mod_thousand mS) as (-> & -> & ->).
Qed.

Lemma rate_per_second bytes mS : 0 <= bytes < 10 ^ 15 → 1 <= mS < 2 ^ 63 →
  rate bytes mS = per_second bytes mS.
Proof. intros. unfold rate, per_second. by rewrite !u64_small by lia. Qed.

Lemma directives_documented st mS hB hE : stat_ok st → 1 <= mS < 2 ^ 63 →
  directives st mS hB hE = documented st mS hB hE.
Proof.
  intros [_ Hb] Hm. unfold directives, documented. rewrite seconds_printed by lia.
  by rewrite rate_per_second.
Qed.

(** The lines that end the report. *)
Definition posix_line (st : STAT) (mS : Z) : list Z :=
  print_uint (st_bytes st) ++ str " bytes transferred in " ++ seconds mS ++ str " secs ("
  ++ print_uint (per_second (st_bytes st) mS) ++ str " bytes/sec)" ++ [10].
Definition human_line (st : STAT) (mS : Z) (hB hE : list Z) : list Z :=
  print_uint (st_bytes st) ++ str " bytes (" ++ hB ++ str ") transferred in " ++ seconds mS
  ++ str " secs (" ++ print_uint (per_second (st_bytes st) mS) ++ str " bytes/sec - " ++ hE
  ++ str "/sec)" ++ [10].

Lemma posix_last_line st mS : stat_ok st → 1 <= mS < 2 ^ 63 → posix_line st mS = posix_last st mS.
Proof.
  intros [_ Hb] Hm. unfold posix_last, posix_line. rewrite <- seconds_printed by lia.
  by rewrite rate_per_second, <- !app_assoc.
Qed.

Lemma human_last_line st mS hB hE : stat_ok st → 1 <= mS < 2 ^ 63 →
  human_last st mS hB hE = human_line st mS hB hE.
Proof.
  intros [_ Hb] Hm. unfold human_last, human_line. rewrite <- seconds_printed by lia.
  by rewrite rate_per_second, <- !app_assoc.
Qed.

(** A clock, seconds and microseconds. *)
Definition clock_ok (tv : Z * Z) : Prop := 0 <= fst tv < 2 ^ 40 ∧ 0 <= snd tv < 10 ^ 6.

Lemma elapsed_millis start now : clock_ok start → clock_ok now → millis start <= millis now →
  elapsed start now = Z.max 1 (millis now - millis start) ∧ 1 <= elapsed start now < 2 ^ 63.
Proof.
  intros [Hs Hsu] [Hn Hnu] Hle.
  assert (∀ tv, clock_ok tv → tv2mS tv = millis tv ∧ 0 <= millis tv < 2 ^ 52) as Htv.
  { intros tv [H1 H2]. unfold tv2mS, millis. rewrite Z.quot_div_nonneg by lia.
    pose proof (Z.div_pos (snd tv + 500) 1000).
    pose proof (Z.div_lt_upper_bound (snd tv + 500) 1000 (2 ^ 11)). rewrite s64_small; lia. }
  destruct (Htv start) as [Es Bs]; [done|]. destruct (Htv now) as [En Bn]; [done|].
  unfold elapsed. rewrite Es, En, s64_small by lia.
  destruct (Z.eqb_spec (millis now - millis start) 0); lia.
Qed.

(** C35.  The report in each of the formats, for counts below 10^17 and less than 10^15 bytes
    ([stat_ok], of which the buffers of the lines have room) and a clock that does not
    go back between [start] and [now]; a time of 0 ms counts as 1.  The POSIX format writes the
    counts of records, a line for what happened besides where it did, and the size,
    time and speed; "human" adds sizes for people ([human_size], where the decimal
    point is one byte and the speed is small enough for its hundredths); "quiet" writes
    nothing; another string is written with its directives replaced as [documented], and is an
    error when it has an unknown one.  With progress a newline comes first; the POSIX
    format with progress is excluded: it writes that newline twice
    ([posix_summary_progress]). *)
Theorem summary_reports no_msgfmt msgfmt progress dp hbuf nbuf st start now :
  length hbuf = 7%nat → length nbuf = 32%nat → stat_ok st →
  clock_ok start → clock_ok now → millis start <= millis now →
  let mS := Z.max 1 (millis now - millis start) in
  let newline := if progress =? 0 then [] else [10] in
  let lines := count_lines st ++ event_lines st in
  let report := summary no_msgfmt msgfmt progress dp hbuf nbuf st start now in
  let writes t := ∃ ws, report = Ok ws ∧ concat ws = t in
  ∃ hB hE,
    (length dp = 1%nat → no_nul dp → human_size dp (st_bytes st) hB ∧
       (hn_small (per_second (st_bytes st) mS) → human_size dp (per_second (st_bytes st) mS) hE)) ∧
    (no_msgfmt = true ∨ msgfmt = str "posix" → progress = 0 → writes (lines ++ posix_line st mS)) ∧
    (no_msgfmt = false → msgfmt = str "human" → writes (newline ++ lines ++ human_line st mS hB hE)) ∧
    (no_msgfmt = false → msgfmt = str "quiet" → writes newline) ∧
    (no_msgfmt = false → msgfmt ∉ [str "posix"; str "human"; str "quiet"] →
       match msg_text (documented st mS hB hE) msgfmt with
       | Some t => writes (newline ++ t)
       | None => report = Err EXIT_FAILURE
       end).
Proof.
  intros Hh Hn Hst Hs Hw Hle mS newline lines report writes.
  destruct (elapsed_millis start now Hs Hw Hle) as [Em HmS]. fold mS in Em. rewrite Em in HmS.
  assert (Hb := proj2 Hst).
  destruct (in_hbuf_sizes dp hbuf st mS Hh Hst HmS) as (hB & hE & HB & HE).
  exists hB, hE. unfold writes, report, summary. cbv beta. rewrite !Em.
  assert (Hnl : ∀ l, concat ((if progress =? 0 then [] else [[10]]) ++ l) = newline ++ concat l).
  { intros l. unfold newline. rewrite concat_app. by destruct (progress =? 0). }
  split_and!.
  - intros Hdp Hz. split.
    + destruct (in_hbuf_size dp hbuf (st_bytes st)) as (t & E & Ht); [done..|lia| |congruence].
      unfold hn_small. change (INT64_MAX / 100) with 92233720368547758. lia.
    + rewrite rate_per_second in HE by done. intros Hsm.
      destruct (in_hbuf_size dp hbuf (per_second (st_bytes st) mS)) as (t & E & Ht);
        [done..| |done|congruence]. apply Z.div_pos; lia.
  - intros Hf Hp. match goal with |- context [if ?c then Ok (posix_summary _ _ _ _) else _] => assert (c = true) as -> end.
    { destruct Hf as [-> | ->]; [done|]. rewrite bool_decide_true by done. apply orb_true_r. }
    cbn [res_bind]. eexists. split; [done|]. rewrite Hnl. unfold newline. rewrite Hp. cbn [app Z.eqb].
    erewrite posix_summary_ok by done. rewrite <- (posix_last_line st mS Hst HmS).
    unfold lines. by rewrite <- app_assoc.
  - intros -> ->.
    destruct (human_summary_ok dp hbuf nbuf st mS hB hE Hn Hst HmS HB HE) as (ws & E & Hc).
    cbn. rewrite E. cbn [res_bind]. eexists. split; [done|].
    rewrite Hnl, Hc, (human_last_line st mS hB hE Hst HmS). unfold lines. by rewrite <- app_assoc.
  - intros -> ->. cbn. eexists. split; [done|]. by rewrite Hnl, app_nil_r.
  - intros -> Hf. rewrite !not_elem_of_cons in Hf. destruct Hf as (H1 & H2 & H3 & _).
    rewrite !bool_decide_false by done. cbn [orb].
    rewrite <- directives_documented by done. destruct (msg_text _ msgfmt) as [t|] eqn:Ht.
    + destruct (write_msg dp hbuf nbuf st mS hB hE Hn Hst HmS HB HE msgfmt t Ht) as (ws & E & Hc).
      rewrite E. cbn [res_bind]. eexists. split; [done|]. by rewrite Hnl, Hc.
    + pose proof (msg_loop_enabled dp hbuf nbuf st mS hB hE Hn Hst ltac:(lia) HB HE msgfmt []
        ltac:(simpl; lia)) as H'. rewrite Ht in H'. unfold dd_write_msg. by rewrite H'.
Qed.

Lemma summary_reports_witness :
  ∃ ws hB hE, summary false (str "human") 0 [ch "."] (replicate 7 1) (replicate 32 1)
    (mkSTAT 3 1 4 0 0 0 1 123456789) (10, 600000) (12, 100000) = Ok ws ∧
    concat ws = str "3+1 records in" ++ [10] ++ str "4+0 records out" ++ [10] ++
      str "1 sparse output block" ++ [10] ++
      str "123456789 bytes (" ++ hB ++ str ") transferred in 1.500 secs (82304526 bytes/sec - "
      ++ hE ++ str "/sec)" ++ [10] ∧
    human_size [ch "."] 123456789 hB ∧ human_size [ch "."] 82304526 hE.
Proof.
  destruct (summary_reports false (str "human") 0 [ch "."] (replicate 7 1) (replicate 32 1)
    (mkSTAT 3 1 4 0 0 0 1 123456789) (10, 600000) (12, 100000)) as (hB & hE & Hsize & _ & H & _);
    [done | done | split; [repeat constructor|]; simpl; lia | by repeat split | by repeat split
    | vm_compute; discriminate |].
  destruct (H eq_refl eq_refl) as (ws & E & Hc).
  destruct Hsize as [H1 H2]; [done | by repeat constructor |].
  exists ws, hB, hE. split; [exact E|]. split; [exact Hc|]. split; [exact H1|].
  apply H2. reflexivity.
Defined.

(** *** What the code does instead *)

(** In the POSIX format, and only there, the newline that ends a line of progress is
    written twice. *)
Lemma posix_summary_progress st start now :
  ∃ ws, summary false (str "posix") 1 [ch "."] [] [] st start now = Ok ([10] :: [10] :: ws).
Proof. by eexists. Qed.
