(* ===== verification/DdArgs.v ===== *)
(** * The operands of dd (bin/dd/args.c)

    [jcl] reads the operands, each a name, an equals sign and a value, and sets the
    globals that the copy goes by.  A table says of each operand which flag of [ddflags]
    it sets and which flags forbid it; another does so for the conversions of conv=.  At
    the end the conversion function is chosen. *)

From S2P Require Import Prelude Libc Strnum Humanize Dd DdMsg.

(** ** Code *)

(** The flags of dd.h that no other part uses. *)
Definition C_NONE : Z := 0x00000.
Definition C_CBS : Z := 0x00008.
Definition C_COUNT : Z := 0x00010.
Definition C_FILES : Z := 0x00040.
Definition C_IBS : Z := 0x00080.
Definition C_IF : Z := 0x00100.
Definition C_NOTRUNC : Z := 0x00800.
Definition C_OBS : Z := 0x01000.
Definition C_OF : Z := 0x02000.
Definition C_SEEK : Z := 0x04000.
Definition C_SKIP : Z := 0x08000.
Definition C_IFLAG : Z := 0x400000.
Definition C_OFLAG : Z := 0x800000.

Definition LLONG_MAX : Z := INTMAX_MAX.

(** The macros that leave out options of a small dd. *)
Record build := Build { NO_CONV : bool; NO_MSGFMT : bool; NO_IOFLAG : bool }.

(** The flags of open(2), whose values are the system's. *)
Inductive oconst :=
  | O_ALT_IO | O_APPEND | O_ASYNC | O_CLOEXEC | O_CREAT | O_DIRECT | O_DIRECTORY | O_DSYNC
  | O_EXCL | O_EXLOCK | O_NOCTTY | O_NOFOLLOW | O_NONBLOCK | O_NOSIGPIPE | O_RDONLY | O_RDWR
  | O_RSYNC | O_SHLOCK | O_SYNC | O_TRUNC | O_WRONLY | O_ACCMODE.

(** The globals of dd.c that the operands set. *)
Record dd_globals := Globals {
  in_name : option (list Z);
  out_name : option (list Z);
  in_dbsz : Z;
  out_dbsz : Z;
  in_offset : Z;
  out_offset : Z;
  ddflags : Z;
  cbsz : Z;
  cpy_cnt : Z;
  files_cnt : Z;
  progress : Z;
  ctab : option (list Z);
  iflag : Z;
  oflag : Z;
  msgfmt : list Z;
  cfunc : option cfunc_t }.

Definition with_in_name (g : dd_globals) (x : option (list Z)) : dd_globals :=
  Globals x (out_name g) (in_dbsz g) (out_dbsz g) (in_offset g) (out_offset g) (ddflags g)
    (cbsz g) (cpy_cnt g) (files_cnt g) (progress g) (ctab g) (iflag g) (oflag g) (msgfmt g)
    (cfunc g).
Definition with_out_name (g : dd_globals) (x : option (list Z)) : dd_globals :=
  Globals (in_name g) x (in_dbsz g) (out_dbsz g) (in_offset g) (out_offset g) (ddflags g)
    (cbsz g) (cpy_cnt g) (files_cnt g) (progress g) (ctab g) (iflag g) (oflag g) (msgfmt g)
    (cfunc g).
Definition with_in_dbsz (g : dd_globals) (x : Z) : dd_globals :=
  Globals (in_name g) (out_name g) x (out_dbsz g) (in_offset g) (out_offset g) (ddflags g)
    (cbsz g) (cpy_cnt g) (files_cnt g) (progress g) (ctab g) (iflag g) (oflag g) (msgfmt g)
    (cfunc g).
Definition with_out_dbsz (g : dd_globals) (x : Z) : dd_globals :=
  Globals (in_name g) (out_name g) (in_dbsz g) x (in_offset g) (out_offset g) (ddflags g)
    (cbsz g) (cpy_cnt g) (files_cnt g) (progress g) (ctab g) (iflag g) (oflag g) (msgfmt g)
    (cfunc g).
Definition with_in_offset (g : dd_globals) (x : Z) : dd_globals :=
  Globals (in_name g) (out_name g) (in_dbsz g) (out_dbsz g) x (out_offset g) (ddflags g)
    (cbsz g) (cpy_cnt g) (files_cnt g) (progress g) (ctab g) (iflag g) (oflag g) (msgfmt g)
    (cfunc g).
Definition with_out_offset (g : dd_globals) (x : Z) : dd_globals :=
  Globals (in_name g) (out_name g) (in_dbsz g) (out_dbsz g) (in_offset g) x (ddflags g)
    (cbsz g) (cpy_cnt g) (files_cnt g) (progress g) (ctab g) (iflag g) (oflag g) (msgfmt g)
    (cfunc g).
Definition with_ddflags (g : dd_globals) (x : Z) : dd_globals :=
  Globals (in_name g) (out_name g) (in_dbsz g) (out_dbsz g) (in_offset g) (out_offset g) x
    (cbsz g) (cpy_cnt g) (files_cnt g) (progress g) (ctab g) (iflag g) (oflag g) (msgfmt g)
    (cfunc g).
Definition with_cbsz (g : dd_globals) (x : Z) : dd_globals :=
  Globals (in_name g) (out_name g) (in_dbsz g) (out_dbsz g) (in_offset g) (out_offset g)
    (ddflags g) x (cpy_cnt g) (files_cnt g) (progress g) (ctab g) (iflag g) (oflag g)
    (msgfmt g) (cfunc g).
Definition with_cpy_cnt (g : dd_globals) (x : Z) : dd_globals :=
  Globals (in_name g) (out_name g) (in_dbsz g) (out_dbsz g) (in_offset g) (out_offset g)
    (ddflags g) (cbsz g) x (files_cnt g) (progress g) (ctab g) (iflag g) (oflag g)
    (msgfmt g) (cfunc g).
Definition with_files_cnt (g : dd_globals) (x : Z) : dd_globals :=
  Globals (in_name g) (out_name g) (in_dbsz g) (out_dbsz g) (in_offset g) (out_offset g)
    (ddflags g) (cbsz g) (cpy_cnt g) x (progress g) (ctab g) (iflag g) (oflag g) (msgfmt g)
    (cfunc g).
Definition with_progress (g : dd_globals) (x : Z) : dd_globals :=
  Globals (in_name g) (out_name g) (in_dbsz g) (out_dbsz g) (in_offset g) (out_offset g)
    (ddflags g) (cbsz g) (cpy_cnt g) (files_cnt g) x (ctab g) (iflag g) (oflag g)
    (msgfmt g) (cfunc g).
Definition with_ctab (g : dd_globals) (x : option (list Z)) : dd_globals :=
  Globals (in_name g) (out_name g) (in_dbsz g) (out_dbsz g) (in_offset g) (out_offset g)
    (ddflags g) (cbsz g) (cpy_cnt g) (files_cnt g) (progress g) x (iflag g) (oflag g)
    (msgfmt g) (cfunc g).
Definition with_iflag (g : dd_globals) (x : Z) : dd_globals :=
  Globals (in_name g) (out_name g) (in_dbsz g) (out_dbsz g) (in_offset g) (out_offset g)
    (ddflags g) (cbsz g) (cpy_cnt g) (files_cnt g) (progress g) (ctab g) x (oflag g)
    (msgfmt g) (cfunc g).
Definition with_oflag (g : dd_globals) (x : Z) : dd_globals :=
  Globals (in_name g) (out_name g) (in_dbsz g) (out_dbsz g) (in_offset g) (out_offset g)
    (ddflags g) (cbsz g) (cpy_cnt g) (files_cnt g) (progress g) (ctab g) (iflag g) x
    (msgfmt g) (cfunc g).
Definition with_msgfmt (g : dd_globals) (x : list Z) : dd_globals :=
  Globals (in_name g) (out_name g) (in_dbsz g) (out_dbsz g) (in_offset g) (out_offset g)
    (ddflags g) (cbsz g) (cpy_cnt g) (files_cnt g) (progress g) (ctab g) (iflag g)
    (oflag g) x (cfunc g).
Definition with_cfunc (g : dd_globals) (x : option cfunc_t) : dd_globals :=
  Globals (in_name g) (out_name g) (in_dbsz g) (out_dbsz g) (in_offset g) (out_offset g)
    (ddflags g) (cbsz g) (cpy_cnt g) (files_cnt g) (progress g) (ctab g) (iflag g)
    (oflag g) (msgfmt g) x.

(** The function of an operand. *)
Inductive operand_fn :=
  | f_bs | f_cbs | f_conv | f_count | f_files | f_ibs | f_if | f_iflag | f_skip | f_msgfmt
  | f_obs | f_of | f_oflag | f_seek | f_progress.

Record arg_entry := Arg { arg_name : list Z; arg_f : operand_fn; arg_set : Z; arg_noset : Z }.

Definition args_table : list arg_entry :=
  [Arg (str "bs") f_bs C_BS (C_BS .| C_IBS .| C_OBS .| C_OSYNC);
   Arg (str "cbs") f_cbs C_CBS C_CBS;
   Arg (str "conv") f_conv 0 0;
   Arg (str "count") f_count C_COUNT C_COUNT;
   Arg (str "files") f_files C_FILES C_FILES;
   Arg (str "ibs") f_ibs C_IBS (C_BS .| C_IBS);
   Arg (str "if") f_if C_IF C_IF;
   Arg (str "iflag") f_iflag C_IFLAG C_IFLAG;
   Arg (str "iseek") f_skip C_SKIP C_SKIP;
   Arg (str "msgfmt") f_msgfmt 0 0;
   Arg (str "obs") f_obs C_OBS (C_BS .| C_OBS);
   Arg (str "of") f_of C_OF C_OF;
   Arg (str "oflag") f_oflag C_OFLAG C_OFLAG;
   Arg (str "oseek") f_seek C_SEEK C_SEEK;
   Arg (str "progress") f_progress 0 0;
   Arg (str "seek") f_seek C_SEEK C_SEEK;
   Arg (str "skip") f_skip C_SKIP C_SKIP].

Record conversion := Conversion {
  conv_name : list Z; conv_set : Z; conv_noset : Z; conv_ctab : option (list Z) }.

Definition clist : list conversion :=
  [Conversion (str "ascii") C_ASCII C_EBCDIC (Some e2a_POSIX);
   Conversion (str "block") C_BLOCK C_UNBLOCK None;
   Conversion (str "ebcdic") C_EBCDIC C_ASCII (Some a2e_POSIX);
   Conversion (str "ibm") C_EBCDIC C_ASCII (Some a2ibm);
   Conversion (str "lcase") C_LCASE C_UCASE None;
   Conversion (str "noerror") C_NOERROR 0 None;
   Conversion (str "notrunc") C_NOTRUNC 0 None;
   Conversion (str "oldascii") C_ASCII C_EBCDIC (Some e2a_32V);
   Conversion (str "oldebcdic") C_EBCDIC C_ASCII (Some a2e_32V);
   Conversion (str "oldibm") C_EBCDIC C_ASCII (Some a2ibm);
   Conversion (str "osync") C_OSYNC C_BS None;
   Conversion (str "sparse") C_SPARSE 0 None;
   Conversion (str "swab") C_SWAB 0 None;
   Conversion (str "sync") C_SYNC 0 None;
   Conversion (str "ucase") C_UCASE C_LCASE None;
   Conversion (str "unblock") C_UNBLOCK C_BLOCK None].

Record ioflag := Ioflag { io_name : list Z; io_set : oconst; io_allowed : Z }.

Definition olist : list ioflag :=
  [Ioflag (str "alt_io") O_ALT_IO (C_IFLAG .| C_OFLAG);
   Ioflag (str "append") O_APPEND C_OFLAG;
   Ioflag (str "async") O_ASYNC (C_IFLAG .| C_OFLAG);
   Ioflag (str "cloexec") O_CLOEXEC (C_IFLAG .| C_OFLAG);
   Ioflag (str "creat") O_CREAT C_OFLAG;
   Ioflag (str "direct") O_DIRECT (C_IFLAG .| C_OFLAG);
   Ioflag (str "directory") O_DIRECTORY C_NONE;
   Ioflag (str "dsync") O_DSYNC C_OFLAG;
   Ioflag (str "excl") O_EXCL C_OFLAG;
   Ioflag (str "exlock") O_EXLOCK (C_IFLAG .| C_OFLAG);
   Ioflag (str "noctty") O_NOCTTY (C_IFLAG .| C_OFLAG);
   Ioflag (str "nofollow") O_NOFOLLOW (C_IFLAG .| C_OFLAG);
   Ioflag (str "nonblock") O_NONBLOCK (C_IFLAG .| C_OFLAG);
   Ioflag (str "nosigpipe") O_NOSIGPIPE (C_IFLAG .| C_OFLAG);
   Ioflag (str "rdonly") O_RDONLY C_IFLAG;
   Ioflag (str "rdwr") O_RDWR C_IFLAG;
   Ioflag (str "rsync") O_RSYNC C_IFLAG;
   Ioflag (str "shlock") O_SHLOCK (C_IFLAG .| C_OFLAG);
   Ioflag (str "sync") O_SYNC (C_IFLAG .| C_OFLAG);
   Ioflag (str "trunc") O_TRUNC C_OFLAG;
   Ioflag (str "wronly") O_WRONLY C_IFLAG].

(** The status [terminate(0)] exits with: no signal is raised, and [_exit(127)] follows. *)
Definition TERMINATED : Z := 127.

(** [strsuftoll] exits when the number is not accepted. *)
Definition suftoll (s : list Z) (min max : Z) : res Z :=
  match strsuftoll s min max with Some n => Ok n | None => Err EXIT_FAILURE end.

(** [strchr(oper, '=')]: the name and the value. *)
Fixpoint split_operand (oper : list Z) : option (list Z * list Z) :=
  match oper with
  | [] => None
  | c :: oper' =>
      if c =? ch "=" then Some ([], oper')
      else match split_operand oper' with
           | Some (n, a) => Some (c :: n, a)
           | None => None
           end
  end.

Section jcl.
Context (b : build) (oval : oconst → Z).
(** What the check of a format takes: the locale's decimal point, the arrays before
    they are written, and the time. *)
Context (decimal_point hbuf nbuf : list Z) (now : Z * Z).

(** The statistics before the copy. *)
Definition stat0 : STAT := mkSTAT 0 0 0 0 0 0 0 0.

(** The loop of [f_conv]: a token in every turn. *)
Fixpoint f_conv_loop (fuel : nat) (arg : option (list Z)) (g : dd_globals) : res dd_globals :=
  match arg with
  | None => Ok g
  | Some a =>
      match fuel with
      | O => Fault
      | S fuel' =>
          let '(name, arg) := strsep [ch ","] a in
          let* cp := bsearch conv_name name clist in
          match cp with
          | None => Err EXIT_FAILURE
          | Some cp =>
              if has (ddflags g) (conv_noset cp) then Err EXIT_FAILURE
              else
                let g := with_ddflags g (ddflags g .| conv_set cp) in
                let g := match conv_ctab cp with Some t => with_ctab g (Some t) | None => g end in
                f_conv_loop fuel' arg g
          end
      end
  end.

(** The loop of [f_ioflag], whose warnings are left out. *)
Fixpoint f_ioflag_loop (fuel : nat) (flagtype : Z) (arg : option (list Z)) (ioflag : Z) : res Z :=
  match arg with
  | None => Ok ioflag
  | Some a =>
      match fuel with
      | O => Fault
      | S fuel' =>
          let '(name, arg) := strsep [ch ","] a in
          let* cp := bsearch io_name name olist in
          match cp with
          | None => Err EXIT_FAILURE
          | Some cp =>
              let set := oval (io_set cp) in
              if has set (oval O_ACCMODE) && (flagtype =? C_OFLAG)
              then f_ioflag_loop fuel' flagtype arg ioflag
              else f_ioflag_loop fuel' flagtype arg (ioflag .| set)
          end
      end
  end.

Definition f_ioflag (arg : list Z) (flagtype : Z) : res Z :=
  f_ioflag_loop (S (length arg)) flagtype (Some arg) 0.

(** The functions of the operands. *)
Definition operand_f (f : operand_fn) (arg : list Z) (g : dd_globals) : res dd_globals :=
  match f with
  | f_bs => let* n := suftoll arg 1 UINT_MAX in Ok (with_in_dbsz (with_out_dbsz g n) n)
  | f_cbs => let* n := suftoll arg 1 UINT_MAX in Ok (with_cbsz g n)
  | f_count =>
      let* n := suftoll arg 0 LLONG_MAX in
      if n =? 0 then Err TERMINATED else Ok (with_cpy_cnt g n)
  | f_files =>
      let* n := suftoll arg 0 UINT_MAX in
      if u32 n =? 0 then Err TERMINATED else Ok (with_files_cnt g (u32 n))
  | f_ibs =>
      if has (ddflags g) C_BS then Ok g
      else let* n := suftoll arg 1 UINT_MAX in Ok (with_in_dbsz g n)
  | f_obs =>
      if has (ddflags g) C_BS then Ok g
      else let* n := suftoll arg 1 UINT_MAX in Ok (with_out_dbsz g n)
  | f_if => Ok (with_in_name g (Some arg))
  | f_of => Ok (with_out_name g (Some arg))
  | f_seek => let* n := suftoll arg 0 LLONG_MAX in Ok (with_out_offset g n)
  | f_skip => let* n := suftoll arg 0 LLONG_MAX in Ok (with_in_offset g n)
  | f_progress => let* n := suftoll arg 0 LLONG_MAX in Ok (with_progress g n)
  | f_conv =>
      if NO_CONV b then Err EXIT_FAILURE else f_conv_loop (S (length arg)) (Some arg) g
  | f_msgfmt =>
      if NO_MSGFMT b then Err EXIT_FAILURE
      else
        let* _ := dd_write_msg decimal_point hbuf nbuf stat0 (elapsed (0, 0) now) arg false in
        Ok (with_msgfmt g arg)
  | f_iflag =>
      if NO_IOFLAG b then Err EXIT_FAILURE
      else let* n := f_ioflag arg C_IFLAG in Ok (with_iflag g n)
  | f_oflag =>
      if NO_IOFLAG b then Err EXIT_FAILURE
      else let* n := f_ioflag arg C_OFLAG in Ok (with_oflag g n)
  end.

(** The body of the loop of [jcl]. *)
Definition jcl_operand (oper : list Z) (g : dd_globals) : res dd_globals :=
  match split_operand oper with
  | None => Err EXIT_FAILURE
  | Some (name, arg) =>
      if bool_decide (arg = []) then Err EXIT_FAILURE
      else
        let* ap := bsearch arg_name name args_table in
        match ap with
        | None => Err EXIT_FAILURE
        | Some ap =>
            if has (ddflags g) (arg_noset ap) then Err EXIT_FAILURE
            else operand_f (arg_f ap) arg (with_ddflags g (ddflags g .| arg_set ap))
        end
  end.

Fixpoint jcl_loop (argv : list (list Z)) (g : dd_globals) : res dd_globals :=
  match argv with
  | [] => Ok g
  | oper :: argv => let* g := jcl_operand oper g in jcl_loop argv g
  end.

(** The "final sanity checks"; a warning is left out. *)
Definition jcl_finish (g : dd_globals) : res dd_globals :=
  let g :=
    if has (ddflags g) C_BS then
      if has (ddflags g) (C_BLOCK .| C_LCASE .| C_SWAB .| C_UCASE .| C_UNBLOCK .| C_OSYNC
                          .| C_ASCII .| C_EBCDIC .| C_SPARSE)
      then with_ddflags g ((ddflags g .&~ C_BS) .| (C_IBS .| C_OBS))
      else g
    else g in
  if has (ddflags g) (C_BLOCK .| C_UNBLOCK) then
    if negb (has (ddflags g) C_CBS) then Err EXIT_FAILURE
    else Ok (with_cfunc g (Some (if has (ddflags g) C_BLOCK then Block else Unblock)))
  else if has (ddflags g) C_CBS then
    if has (ddflags g) (C_ASCII .| C_EBCDIC) then
      if has (ddflags g) C_ASCII
      then Ok (with_cfunc (with_ddflags g (ddflags g .| C_UNBLOCK)) (Some Unblock))
      else Ok (with_cfunc (with_ddflags g (ddflags g .| C_BLOCK)) (Some Block))
    else Err EXIT_FAILURE
  else Ok (with_cfunc g (Some Def)).

(** The globals before [main]. *)
Definition globals0 : dd_globals :=
  Globals None None 0 0 0 0 0 0 0 1 0 None (oval O_RDONLY) (oval O_CREAT) (str "posix") None.

Definition jcl (argv : list (list Z)) : res dd_globals :=
  let* g := jcl_loop argv (with_in_dbsz (with_out_dbsz globals0 512) 512) in
  jcl_finish g.

End jcl.

(** The sizes [setup] asks for when there are two buffers, cast to an unsigned int. *)
Definition setup_sizes (g : dd_globals) : Z * Z :=
  (u32 (Z.max (in_dbsz g) (cbsz g) + cbsz g), u32 (out_dbsz g + cbsz g)).

(** ** Specification *)

(** A table of the EBCDIC conversions in force, or none. *)
Definition table_ok (f : Z) (t : option (list Z)) : Prop :=
  match t with
  | None => has f C_ASCII = false ∧ has f C_EBCDIC = false
  | Some t => has f C_ASCII = true ∧ (t = e2a_POSIX ∨ t = e2a_32V) ∨
              has f C_EBCDIC = true ∧ (t = a2e_POSIX ∨ t = a2e_32V ∨ t = a2ibm)
  end.

(** Flags that exclude each other. *)
Definition exclusive_pairs : list (Z * Z) :=
  [(C_ASCII, C_EBCDIC); (C_BLOCK, C_UNBLOCK); (C_LCASE, C_UCASE); (C_BS, C_IBS); (C_BS, C_OBS);
   (C_BS, C_OSYNC)].

Definition compatible (f : Z) : Prop :=
  Forall (λ p, has f (fst p) && has f (snd p) = false) exclusive_pairs.

(** What holds after every operand: no two flags that exclude each other, no size that is
    0 or more than an unsigned int, the same sizes after bs=, and a number for every
    flag that needs one. *)
Record parsed (g : dd_globals) : Prop := {
  p_flags : compatible (ddflags g);
  p_bs : has (ddflags g) C_BS = true → in_dbsz g = out_dbsz g;
  p_dbsz : 1 <= in_dbsz g <= UINT_MAX ∧ 1 <= out_dbsz g <= UINT_MAX;
  p_cbs : if has (ddflags g) C_CBS then 1 <= cbsz g <= UINT_MAX else cbsz g = 0;
  p_ctab : table_ok (ddflags g) (ctab g);
  p_count : if has (ddflags g) C_COUNT then 1 <= cpy_cnt g <= LLONG_MAX else cpy_cnt g = 0;
  p_files : if has (ddflags g) C_FILES then 1 <= files_cnt g <= UINT_MAX else files_cnt g = 1;
  p_skip : if has (ddflags g) C_SKIP then 0 <= in_offset g <= LLONG_MAX else in_offset g = 0;
  p_seek : if has (ddflags g) C_SEEK then 0 <= out_offset g <= LLONG_MAX else out_offset g = 0 }.

(** The conversions that turn off the meaning of bs=. *)
Definition conversions : Z :=
  C_BLOCK .| C_LCASE .| C_SWAB .| C_UCASE .| C_UNBLOCK .| C_OSYNC .| C_ASCII .| C_EBCDIC
  .| C_SPARSE.

(** What the copy is entitled to: in addition, a record size exactly when records are made
    or undone, the function that does it, and bs= only when nothing is converted. *)
Record configured (g : dd_globals) : Prop := {
  c_parsed : parsed g;
  c_records : has (ddflags g) (C_BLOCK .| C_UNBLOCK) = has (ddflags g) C_CBS;
  c_cfunc : cfunc g = Some (if has (ddflags g) C_BLOCK then Block
                            else if has (ddflags g) C_UNBLOCK then Unblock else Def);
  c_bs : has (ddflags g) C_BS = true → has (ddflags g) conversions = false }.

(** ** Flags *)

Lemma has_lor_l f s c : has (f .| s) c = has f c || has s c.
Proof.
  unfold has. rewrite Z.land_lor_distr_l.
  destruct (Z.eqb_spec (f .& c) 0) as [->|Hf]; cbn [negb orb].
  - by rewrite Z.lor_0_l.
  - destruct (Z.eqb_spec ((f .& c) .| (s .& c)) 0) as [E|]; [|done].
    by apply Z.lor_eq_0_iff in E as [? _].
Qed.

Lemma has_comm f c : has f c = has c f.
Proof. unfold has. by rewrite Z.land_comm. Qed.

Lemma has_lor_r f c d : has f (c .| d) = has f c || has f d.
Proof. by rewrite has_comm, has_lor_l, (has_comm c), (has_comm d). Qed.

Lemma has_ldiff f m c : has (f .&~ m) c = has f (c .&~ m).
Proof. unfold has. do 2 f_equal. Zbits. Qed.

Lemma has_sub f m c : has f m = false → m .& c = c → has f c = false.
Proof.
  unfold has. intros Hm Hc. destruct (Z.eqb_spec (f .& m) 0) as [E|]; [|done].
  by rewrite <- Hc, Z.land_assoc, E.
Qed.

(** A flag and its set keep a pair of flags apart: what sets one forbids the other. *)
Definition keeps_apart (set noset : Z) (p : Z * Z) : bool :=
  negb (has set (fst p) && has set (snd p)) &&
  implb (has set (fst p)) (noset .& snd p =? snd p) &&
  implb (has set (snd p)) (noset .& fst p =? fst p).

Lemma keeps_apart_ok f set noset p : keeps_apart set noset p = true → has f noset = false →
  has f (fst p) && has f (snd p) = false →
  has (f .| set) (fst p) && has (f .| set) (snd p) = false.
Proof.
  destruct p as [x y]. unfold keeps_apart. cbn [fst snd]. rewrite !has_lor_l.
  intros Hk Hn Hf.
  pose proof (has_sub f noset x Hn) as Hx. pose proof (has_sub f noset y Hn) as Hy.
  destruct (has set x), (has set y); cbn in Hk; try done;
    rewrite ?orb_false_r, ?orb_true_r, ?andb_true_r in *; cbn [andb] in *; [| |done].
  - apply Hy. by apply Z.eqb_eq.
  - apply Hx. by apply Z.eqb_eq.
Qed.

Lemma compatible_set f set noset :
  forallb (keeps_apart set noset) exclusive_pairs = true → has f noset = false →
  compatible f → compatible (f .| set).
Proof.
  unfold compatible. rewrite forallb_forall, !List.Forall_forall. intros Hk Hn Hf p Hp.
  apply (keeps_apart_ok _ _ noset); [by apply Hk | done | by apply Hf].
Qed.

(** ** The numbers *)

Lemma in_range_inl n min max r : in_range n min max = inl r → min <= r <= max.
Proof. unfold in_range. intros H. Zcases; try done. injection H as <-. lia. Qed.

Lemma strsuftollx_range levels s min max r :
  strsuftollx_rec levels s min max = inl r → min <= r <= max.
Proof.
  destruct levels as [|levels]; cbn [strsuftollx_rec]; [done|].
  destruct (strtoimax _ 10) as [[num expr] errno]. intros H.
  repeat (case_match; simplify_eq); eauto using in_range_inl.
Qed.

Lemma suftoll_range s min max n : suftoll s min max = Ok n → min <= n <= max.
Proof.
  unfold suftoll, strsuftoll, strsuftollx. intros H.
  destruct (strsuftollx_rec 17 s min max) as [r|] eqn:E; [|done]. injection H as ->.
  by eapply strsuftollx_range.
Qed.

(** ** The tables *)

Lemma bsearch_in {A} (name : A → list Z) key table : ascending (name <$> table) = true →
  ∃ r, bsearch name key table = Ok r ∧ ∀ a, r = Some a → In a table.
Proof.
  intros H. unfold bsearch. rewrite H. eexists. split; [done|].
  by intros a [? _]%find_some.
Qed.

Definition failure (e : Z) : Prop := e = EXIT_FAILURE ∨ e = TERMINATED.

Lemma failure_exit : failure EXIT_FAILURE.
Proof. by left. Qed.
#[local] Hint Resolve failure_exit : core.

(** The rule for a lookup: the entry found is of the table, and without one [dd] exits. *)
Lemma bsearch_safe {A B} (name : A → list Z) key table (k : option A → res B) P :
  ascending (name <$> table) = true → safe_or failure P (k None) →
  (∀ a, In a table → safe_or failure P (k (Some a))) →
  safe_or failure P (res_bind (bsearch name key table) k).
Proof.
  intros Ht Hn Hs. destruct (bsearch_in name key table Ht) as (r & -> & Hr). cbn [res_bind].
  destruct r as [a|]; [by apply Hs, Hr | done].
Qed.

Lemma args_ascending : ascending (arg_name <$> args_table) = true.
Proof. reflexivity. Qed.
Lemma clist_ascending : ascending (conv_name <$> clist) = true.
Proof. reflexivity. Qed.
Lemma olist_ascending : ascending (io_name <$> olist) = true.
Proof. reflexivity. Qed.

(** The flags a conversion sets: none of those that belong to operands, and a table with
    those that need one. *)
Definition conversion_ok (c : conversion) : bool :=
  forallb (keeps_apart (conv_set c) (conv_noset c)) exclusive_pairs &&
  negb (has (conv_set c) (C_BS .| C_CBS .| C_COUNT .| C_FILES .| C_SKIP .| C_SEEK)) &&
  match conv_ctab c with
  | None => negb (has (conv_set c) (C_ASCII .| C_EBCDIC))
  | Some _ => true
  end.

Lemma clist_ok c : In c clist → conversion_ok c = true.
Proof. assert (forallb conversion_ok clist = true) as H by reflexivity.
  rewrite forallb_forall in H. apply H. Qed.

Lemma clist_table c t : In c clist → conv_ctab c = Some t → table_ok (conv_set c) (Some t).
Proof.
  unfold clist. intros Hin. repeat destruct Hin as [<- | Hin]; [..|destruct Hin];
    cbn [conv_ctab conv_set]; intros [= <-]; cbn [table_ok];
    first [left; split; [reflexivity|tauto] | right; split; [reflexivity|tauto]].
Qed.

Lemma table_ok_set f s t : table_ok s (Some t) → table_ok (f .| s) (Some t).
Proof.
  cbn [table_ok]. rewrite !has_lor_l. intros [[-> H] | [-> H]]; rewrite orb_true_r; auto.
Qed.

(** A conversion whose forbidden flags are not set keeps the invariant. *)
Lemma conversion_parsed c g : In c clist → has (ddflags g) (conv_noset c) = false → parsed g →
  let g' := with_ddflags g (ddflags g .| conv_set c) in
  parsed (match conv_ctab c with Some t => with_ctab g' (Some t) | None => g' end).
Proof.
  intros Hin Hno [Hf Hbs Hd Hcb Ht Hco Hfi Hsk Hse] g'.
  pose proof (clist_ok c Hin) as Hc. unfold conversion_ok in Hc.
  rewrite !andb_true_iff, negb_true_iff, !has_lor_r, !orb_false_iff in Hc.
  destruct Hc as [[Hk (((((H1 & H2) & H3) & H4) & H5) & H6)] Hct].
  pose proof (compatible_set _ _ _ Hk Hno Hf) as Hf'.
  destruct (conv_ctab c) as [t|] eqn:Et; split; unfold g'; cbn -[table_ok];
    rewrite ?has_lor_l, ?H1, ?H2, ?H3, ?H4, ?H5, ?H6, ?orb_false_r; try done.
  - by apply table_ok_set, clist_table.
  - rewrite negb_true_iff, orb_false_iff in Hct. destruct Hct as [Ha He].
    unfold table_ok in *. by rewrite !has_lor_l, Ha, He, !orb_false_r.
Qed.

(** ** The operands *)

(** [strsep] leaves less than it was given. *)
Lemma strsep_shorter d s n r : strsep d s = (n, Some r) → (length r < length s)%nat.
Proof.
  revert n. induction s as [|c s IH]; intros n; simpl; [done|].
  destruct (existsb _ d); [intros [= _ <-]; lia|].
  destruct (strsep d s) as [n' r'] eqn:E. intros [= _ ->].
  specialize (IH n' eq_refl). lia.
Qed.

Lemma f_conv_loop_safe fuel : ∀ arg g, parsed g →
  (match arg with Some a => (length a < fuel)%nat | None => True end) →
  safe_or failure parsed (f_conv_loop fuel arg g).
Proof.
  induction fuel as [|fuel IH]; intros arg g Hg Hf;
    (destruct arg as [a|]; [|done]); [lia|].
  cbn [f_conv_loop]. destruct (strsep [44] a) as [name rest] eqn:Es.
  apply bsearch_safe; [apply clist_ascending | exact failure_exit |].
  intros c Hin. destruct (has _ _) eqn:Hno; [exact failure_exit|].
  apply IH; [by apply conversion_parsed|].
  destruct rest as [r|]; [|done]. apply strsep_shorter in Es. lia.
Qed.

Lemma f_ioflag_loop_safe oval fuel ty : ∀ arg n,
  (match arg with Some a => (length a < fuel)%nat | None => True end) →
  safe_or failure (λ _, True) (f_ioflag_loop oval fuel ty arg n).
Proof.
  induction fuel as [|fuel IH]; intros arg n Hf;
    (destruct arg as [a|]; [|done]); [lia|].
  cbn [f_ioflag_loop]. destruct (strsep [44] a) as [name rest] eqn:Es.
  apply bsearch_safe; [apply olist_ascending | exact failure_exit |].
  intros c Hin. assert (match rest with Some a => (length a < fuel)%nat | None => True end).
  { destruct rest as [r|]; [|done]. apply strsep_shorter in Es. lia. }
  destruct (_ && _); by apply IH.
Qed.

Lemma check_format_safe dp hbuf nbuf now arg :
  length hbuf = 7%nat → length nbuf = 32%nat → 1 <= elapsed (0, 0) now →
  safe_or failure (λ _, True) (dd_write_msg dp hbuf nbuf stat0 (elapsed (0, 0) now) arg false).
Proof.
  intros Hh Hn Hnow.
  assert (Hst : stat_ok stat0) by (split; [repeat constructor; done | done]).
  assert (Hm : 1 <= elapsed (0, 0) now < 2 ^ 63).
  { split; [done|]. unfold elapsed. pose proof (s64_range (tv2mS now - tv2mS (0, 0))).
    case_match; lia. }
  destruct (in_hbuf_sizes dp hbuf stat0 _ Hh Hst Hm) as (hB & hE & HB & HE).
  unfold dd_write_msg. erewrite msg_loop_disabled by (done || lia).
  destruct (msg_text _ arg); [done | exact failure_exit].
Qed.

Lemma suftoll_safe {B} s min max (k : Z → res B) P :
  (∀ n, min <= n <= max → safe_or failure P (k n)) →
  safe_or failure P (res_bind (suftoll s min max) k).
Proof.
  intros Hk. destruct (suftoll s min max) as [n|e|] eqn:E; cbn [res_bind].
  - apply Hk. by eapply suftoll_range.
  - unfold suftoll in E. case_match; [done|]. injection E as <-. exact failure_exit.
  - unfold suftoll in E. by case_match.
Qed.

(** The operands' entries: what an operand sets the others forbid where they must. *)
Lemma args_keep_apart a : In a args_table →
  forallb (keeps_apart (arg_set a) (arg_noset a)) exclusive_pairs = true.
Proof.
  assert (forallb (λ a, forallb (keeps_apart (arg_set a) (arg_noset a)) exclusive_pairs) args_table
    = true) as H by reflexivity.
  rewrite forallb_forall in H. apply H.
Qed.

Lemma table_ok_keep f s t :
  has s C_ASCII = false → has s C_EBCDIC = false → table_ok f t → table_ok (f .| s) t.
Proof. unfold table_ok. intros Ha He. by rewrite !has_lor_l, Ha, He, !orb_false_r. Qed.

(** Computes the tests of constants. *)
Ltac constant_flags :=
  repeat match goal with
    | |- context [has ?s ?c] =>
        tryif is_var s then fail else
          (let v := eval vm_compute in (has s c) in
             match v with true => idtac | false => idtac end; change (has s c) with v)
    end; rewrite ?orb_false_r, ?orb_true_r.

(** The invariant after an operand, from the invariant before. *)
Ltac parsed_after :=
  split; cbn -[table_ok has Z.lor]; rewrite ?has_lor_l; constant_flags; try done;
    try (unfold UINT_MAX, LLONG_MAX, INTMAX_MAX in *; lia);
    try (apply table_ok_keep; done); try congruence.

(** The cases in which the operand is a number. *)
Ltac numbered n Hr :=
  apply suftoll_safe; intros n Hr; unfold UINT_MAX, LLONG_MAX, INTMAX_MAX in *.

Section operands.
Context (b : build) (oval : oconst → Z).
Context (dp hbuf nbuf : list Z) (now : Z * Z).
Context (Hh : length hbuf = 7%nat) (Hn : length nbuf = 32%nat) (Hnow : 1 <= elapsed (0, 0) now).

Lemma operand_safe a arg g : In a args_table → has (ddflags g) (arg_noset a) = false → parsed g →
  safe_or failure parsed
    (operand_f b oval dp hbuf nbuf now (arg_f a) arg (with_ddflags g (ddflags g .| arg_set a))).
Proof.
  intros Hin Hno Hg. pose proof (args_keep_apart a Hin) as Hk.
  pose proof (compatible_set _ _ _ Hk Hno (p_flags g Hg)) as Hf'. clear Hk.
  destruct g as [in_n out_n in_d out_d in_o out_o f cb cnt files prog tab ifl ofl msg cf].
  destruct Hg as [Hf Hbs Hd Hcb Ht Hco Hfi Hsk Hse]. cbn -[table_ok has Z.lor] in *.
  unfold UINT_MAX, LLONG_MAX, INTMAX_MAX in *.
  unfold args_table in Hin. repeat destruct Hin as [<- | Hin]; [..|destruct Hin];
    cbn [arg_f arg_set arg_noset operand_f ddflags with_ddflags] in *;
    rewrite ?has_lor_r, ?orb_false_iff in Hno.
  - numbered n Hr. parsed_after.
  - numbered n Hr. parsed_after.
  - rewrite Z.lor_0_r in *. destruct (NO_CONV b); [exact failure_exit|].
    apply f_conv_loop_safe; [by split | lia].
  - numbered n Hr. destruct (Z.eqb_spec n 0); [by right|]. parsed_after.
  - numbered n Hr. rewrite u32_small by lia.
    destruct (Z.eqb_spec n 0); [by right|]. parsed_after.
  - rewrite has_lor_l. destruct Hno as [Hb _]. rewrite Hb. cbn [orb]. constant_flags.
    numbered n Hr. parsed_after.
  - parsed_after.
  - destruct (NO_IOFLAG b); [exact failure_exit|].
    eapply safe_or_bind; [apply f_ioflag_loop_safe; lia|]. intros n _. parsed_after.
  - numbered n Hr. parsed_after.
  - rewrite Z.lor_0_r in *. destruct (NO_MSGFMT b); [exact failure_exit|].
    eapply safe_or_bind; [by apply check_format_safe|]. intros _ _. by split.
  - rewrite has_lor_l. destruct Hno as [Hb _]. rewrite Hb. cbn [orb]. constant_flags.
    numbered n Hr. parsed_after.
  - parsed_after.
  - destruct (NO_IOFLAG b); [exact failure_exit|].
    eapply safe_or_bind; [apply f_ioflag_loop_safe; lia|]. intros n _. parsed_after.
  - numbered n Hr. parsed_after.
  - rewrite Z.lor_0_r in *. numbered n Hr. by split.
  - numbered n Hr. parsed_after.
  - numbered n Hr. parsed_after.
Qed.

Lemma jcl_operand_safe oper g : parsed g →
  safe_or failure parsed (jcl_operand b oval dp hbuf nbuf now oper g).
Proof.
  intros Hg. unfold jcl_operand.
  destruct (split_operand oper) as [[name arg]|]; [|exact failure_exit].
  case_bool_decide; [exact failure_exit|].
  apply bsearch_safe; [apply args_ascending | exact failure_exit |].
  intros a Hin. destruct (has (ddflags g) _) eqn:Hno; [exact failure_exit|].
  by apply operand_safe.
Qed.

Lemma jcl_loop_safe argv : ∀ g, parsed g →
  safe_or failure parsed (jcl_loop b oval dp hbuf nbuf now argv g).
Proof.
  induction argv as [|oper argv IH]; intros g Hg; [done|].
  eapply safe_or_bind; [by apply jcl_operand_safe | exact IH].
Qed.

End operands.

(** ** The checks at the end *)

(** The flags when bs= only sets both sizes. *)
Definition no_bs (f : Z) : Z := (f .&~ C_BS) .| (C_IBS .| C_OBS).

Lemma no_bs_other f c : c .&~ C_BS = c → has (C_IBS .| C_OBS) c = false →
  has (no_bs f) c = has f c.
Proof. intros Hc Ho. unfold no_bs. by rewrite has_lor_l, has_ldiff, Hc, Ho, orb_false_r. Qed.

Lemma no_bs_bs f : has (no_bs f) C_BS = false.
Proof.
  unfold no_bs. rewrite has_lor_l, has_ldiff, has_comm. reflexivity.
Qed.

Lemma parsed_no_bs g : parsed g → parsed (with_ddflags g (no_bs (ddflags g))).
Proof.
  intros [Hf Hbs Hd Hcb Ht Hco Hfi Hsk Hse]. unfold compatible, exclusive_pairs in *.
  rewrite !Forall_cons in Hf. cbn [fst snd] in Hf. destruct Hf as (F1 & F2 & F3 & _).
  split; cbn -[table_ok has no_bs]; rewrite ?no_bs_other by reflexivity; try done.
  - repeat constructor; cbn [fst snd]; rewrite ?no_bs_bs, ?no_bs_other by reflexivity; done.
  - by rewrite no_bs_bs.
  - unfold table_ok in *. by rewrite !no_bs_other by reflexivity.
Qed.

(** The record conversion that ascii or ebcdic with cbs= implies. *)
Lemma parsed_implied g s : parsed g → has (ddflags g) (C_BLOCK .| C_UNBLOCK) = false →
  s = C_BLOCK ∨ s = C_UNBLOCK → parsed (with_ddflags g (ddflags g .| s)).
Proof.
  intros [Hf Hbs Hd Hcb Ht Hco Hfi Hsk Hse] Hno Hs. rewrite has_lor_r, orb_false_iff in Hno.
  destruct Hno as [N1 N2]. unfold compatible, exclusive_pairs in *.
  rewrite !Forall_cons in Hf. cbn [fst snd] in Hf. destruct Hf as (F1 & F2 & F3 & F4 & F5 & F6 & _).
  destruct g as [? ? ? ? ? ? f ? ? ? ? ? ? ? ? ?]. cbn -[table_ok has Z.lor] in *.
  assert (Hc : compatible (f .| s)).
  { unfold compatible, exclusive_pairs. rewrite !Forall_cons. cbn [fst snd].
    rewrite !has_lor_l. destruct Hs as [-> | ->]; constant_flags; rewrite ?N1, ?N2; done. }
  destruct Hs as [-> | ->]; split; cbn -[table_ok has Z.lor]; rewrite ?has_lor_l; constant_flags;
    try done; by apply table_ok_keep.
Qed.

Lemma parsed_cfunc g c : parsed g → parsed (with_cfunc g c).
Proof. by intros []. Qed.

Lemma configured_implied g s fn : parsed g → has (ddflags g) (C_BLOCK .| C_UNBLOCK) = false →
  has (ddflags g) C_CBS = true → has (ddflags g) C_BS = false →
  s = C_BLOCK ∧ fn = Block ∨ s = C_UNBLOCK ∧ fn = Unblock →
  configured (with_cfunc (with_ddflags g (ddflags g .| s)) (Some fn)).
Proof.
  intros Hg Hr Hc Hb Hs. assert (Hp : parsed (with_ddflags g (ddflags g .| s)))
    by (apply parsed_implied; tauto).
  apply (parsed_cfunc _ (Some fn)) in Hp.
  rewrite has_lor_r, orb_false_iff in Hr. destruct Hr as [N1 N2].
  destruct g as [? ? ? ? ? ? f ? ? ? ? ? ? ? ? ?]. cbn -[has Z.lor] in *.
  split; [done|..]; cbn -[has Z.lor conversions]; rewrite ?has_lor_l, ?has_lor_r, ?N1, ?N2, ?Hc, ?Hb;
    destruct Hs as [[-> ->] | [-> ->]]; constant_flags; done.
Qed.

Lemma jcl_finish_safe g : parsed g → safe_or failure configured (jcl_finish g).
Proof.
  intros Hg. unfold jcl_finish. fold conversions. fold (no_bs (ddflags g)).
  set (g1 := if has (ddflags g) C_BS then _ else g).
  assert (H1 : parsed g1 ∧ (has (ddflags g1) C_BS = true → has (ddflags g1) conversions = false)).
  { unfold g1. destruct (has (ddflags g) C_BS) eqn:Hb; [|by rewrite Hb].
    destruct (has (ddflags g) conversions) eqn:Hc; [|done].
    split; [by apply parsed_no_bs|]. cbn [ddflags with_ddflags]. by rewrite no_bs_bs. }
  clearbody g1. clear Hg g. destruct H1 as [Hg Hb].
  pose proof (p_flags g1 Hg) as Hf. unfold compatible, exclusive_pairs in Hf.
  rewrite !Forall_cons in Hf. cbn [fst snd] in Hf. destruct Hf as (F1 & F2 & _).
  destruct (has (ddflags g1) (C_BLOCK .| C_UNBLOCK)) eqn:Hr.
  - destruct (has (ddflags g1) C_CBS) eqn:Hc; cbn [negb]; [|exact failure_exit].
    split; cbn; [by apply parsed_cfunc | by rewrite Hr, Hc | | done].
    rewrite has_lor_r in Hr. destruct (has (ddflags g1) C_BLOCK); [done|].
    cbn in Hr. by rewrite Hr.
  - pose proof Hr as Hr'. rewrite has_lor_r, orb_false_iff in Hr'. destruct Hr' as [N1 N2].
    destruct (has (ddflags g1) C_CBS) eqn:Hc.
    + destruct (has (ddflags g1) (C_ASCII .| C_EBCDIC)) eqn:Ha; [|exact failure_exit].
      assert (Hnb : has (ddflags g1) C_BS = false).
      { destruct (has (ddflags g1) C_BS); [|done]. specialize (Hb eq_refl).
        rewrite has_lor_r in Ha. unfold conversions in Hb. rewrite !has_lor_r, !orb_false_iff in Hb.
        destruct Hb as [[[_ E1] E2] _]. by rewrite E1, E2 in Ha. }
      destruct (has (ddflags g1) C_ASCII); apply configured_implied; auto.
    + split; cbn -[has]; [by apply parsed_cfunc | by rewrite Hr, Hc | by rewrite N1, N2 | done].
Qed.

Lemma jcl_safe b oval dp hbuf nbuf now argv :
  length hbuf = 7%nat → length nbuf = 32%nat → 1 <= elapsed (0, 0) now →
  safe_or failure configured (jcl b oval dp hbuf nbuf now argv).
Proof.
  intros Hh Hn Hnow. unfold jcl. eapply safe_or_bind; [|exact jcl_finish_safe].
  apply jcl_loop_safe; try done.
  split; cbn; try done. by repeat constructor.
Qed.

(** ** Properties *)

(** C22.  Whatever the operands, dd either exits, with status 1, or 127 when it has nothing to
    copy, or has a consistent configuration: no conversions that contradict each other,
    block sizes between 1 and the largest unsigned int, a record size exactly when records
    are made or undone and the function for that, a table exactly for the EBCDIC
    conversions, and bs= in force only when nothing is converted.  The tables of operands
    are in the order the binary search needs, and no buffer is overrun. *)
Theorem jcl_configures b oval dp hbuf nbuf now argv :
  length hbuf = 7%nat → length nbuf = 32%nat → 1 <= elapsed (0, 0) now →
  match jcl b oval dp hbuf nbuf now argv with
  | Ok g => configured g
  | Err e => e = EXIT_FAILURE ∨ e = TERMINATED
  | Fault => False
  end.
Proof. intros. by apply jcl_safe. Qed.

Lemma jcl_configures_witness :
  match jcl (Build false false false) (λ _, 0) [ch "."] (replicate 7 1) (replicate 32 1) (1, 0)
    [str "if=tape"; str "bs=20b"; str "cbs=80"; str "conv=ascii,lcase"; str "msgfmt=%b"] with
  | Ok g => configured g ∧ in_dbsz g = 10240 ∧ cbsz g = 80 ∧ cfunc g = Some Unblock
  | _ => False
  end.
Proof.
  pose proof (jcl_configures (Build false false false) (λ _, 0) [ch "."] (replicate 7 1)
    (replicate 32 1) (1, 0)
    [str "if=tape"; str "bs=20b"; str "cbs=80"; str "conv=ascii,lcase"; str "msgfmt=%b"]
    eq_refl eq_refl ltac:(vm_compute; discriminate)) as H.
  revert H. destruct (jcl _ _ _ _ _ _ _) as [g| |] eqn:E; [|vm_compute in E; discriminate..].
  intros H. split; [exact H|]. vm_compute in E. injection E as <-. by split.
Defined.

(** *** What the code does instead *)

(** The sizes of the two buffers of a record conversion are cast to an unsigned int: a
    large record size that [jcl] accepts leaves no room at all. *)
Lemma setup_sizes_wrap :
  match jcl (Build false false false) (λ _, 0) [] [] [] (0, 0)
    [str "conv=block"; str "cbs=2147483648"] with
  | Ok g => setup_sizes g = (0, 2147484160) ∧ in_dbsz g = 512 ∧ cbsz g = 2147483648
  | _ => False
  end.
Proof. by vm_compute. Qed.

(** Where the sum is an unsigned int the buffers are as large as the copy takes them. *)
Lemma setup_sizes_exact g : configured g →
  Z.max (in_dbsz g) (cbsz g) + cbsz g < 2 ^ 32 → out_dbsz g + cbsz g < 2 ^ 32 →
  setup_sizes g = (Z.max (in_dbsz g) (cbsz g) + cbsz g, out_dbsz g + cbsz g).
Proof.
  intros [[_ _ Hd Hcb _ _ _ _ _] _ _ _] H1 H2. unfold setup_sizes.
  assert (0 <= cbsz g) by (destruct (has _ _); lia).
  by rewrite !u32_small by lia.
Qed.

(** count=0 does not copy nothing: dd exits with status 127 before it looks at the operands
    that follow. *)
Lemma jcl_count_zero b oval dp hbuf nbuf now argv :
  jcl b oval dp hbuf nbuf now (str "count=0" :: argv) = Err TERMINATED.
Proof. done. Qed.

(** Built as the Makefile says dd has no conversions. *)
Lemma jcl_no_conv no_msgfmt no_ioflag oval dp hbuf nbuf now arg argv :
  jcl (Build true no_msgfmt no_ioflag) oval dp hbuf nbuf now ((str "conv=" ++ arg) :: argv)
  = Err EXIT_FAILURE.
Proof. by destruct arg. Qed.
