(* ===== verification/DdPos.v ===== *)
(** * Positioning the input and the output of dd (bin/dd/position.c)

    [pos_in] skips the blocks of skip= and [pos_out] those of seek=: by seeking, and on a
    pipe or a tape by reading. *)

From S2P Require Import Prelude Libc Dd DdArgs.

(** ** Code *)

(** The flags of an [IO]. *)
Definition ISPIPE : Z := 0x02.
Definition ISTAPE : Z := 0x04.
Definition NOREAD : Z := 0x08.

(** [read(fd, db, n)] on a pipe or a tape whose reads are given: on a pipe what is not
    asked for is left for the next read, on a tape it is lost. *)
Definition ddop_read (pipe : bool) (n : nat) (reads : list rresult) : rresult * list rresult :=
  match reads with
  | [] => (Read [], [])
  | Read bs :: reads =>
      (Read (take n bs),
       if pipe && (n <? length bs)%nat then Read (drop n bs) :: reads else reads)
  | ReadError :: reads => (ReadError, reads)
  end.

(** The loop of [pos_in]; [bcnt] and [cnt] are ints, and a read of more than the buffer
    holds, or of a negative count, is a fault.  With conv=noerror an error is reported and
    the read is tried again. *)
Fixpoint skip_loop (fuel : nat) (pipe noerror : bool) (dbsz bcnt cnt files_cnt : Z)
    (reads : list rresult) : res (Z * list rresult) :=
  if cnt =? 0 then Ok (files_cnt, reads)
  else
    match fuel with
    | O => Fault
    | S fuel' =>
        if (bcnt <? 0) || (dbsz <? bcnt) then Fault
        else
          let '(nr, reads) := ddop_read pipe (Z.to_nat bcnt) reads in
          match nr with
          | Read [] =>
              if 1 <? files_cnt
              then skip_loop fuel' pipe noerror dbsz bcnt cnt (files_cnt - 1) reads
              else Err EXIT_FAILURE
          | Read bs =>
              if pipe then
                let bcnt := bcnt - Z.of_nat (length bs) in
                if bcnt =? 0
                then skip_loop fuel' pipe noerror dbsz (s32 dbsz) (cnt - 1) files_cnt reads
                else skip_loop fuel' pipe noerror dbsz bcnt cnt files_cnt reads
              else skip_loop fuel' pipe noerror dbsz bcnt (cnt - 1) files_cnt reads
          | ReadError =>
              if noerror then skip_loop fuel' pipe noerror dbsz bcnt cnt files_cnt reads
              else Err EXIT_FAILURE
          end
    end.

(** The bytes and the reads there are: every turn takes one or ends a file. *)
Fixpoint read_fuel (reads : list rresult) : nat :=
  match reads with
  | [] => 1
  | Read bs :: reads => S (length bs + read_fuel reads)
  | ReadError :: reads => S (read_fuel reads)
  end.

(** A seek by so many bytes, or what is left of the files and of the input. *)
Inductive position := Sought (off : Z) | Skipped (files_cnt : Z) (reads : list rresult).

(** [(off_t)offset * (off_t)dbsz], whose overflow is undefined. *)
Definition seek_offset (offset dbsz : Z) : res Z :=
  let off := offset * dbsz in if INTMAX_MAX <? off then Fault else Ok off.

(** [pos_in]; a seek that fails ends dd. *)
Definition pos_in (g : dd_globals) (flags : Z) (reads : list rresult) : res position :=
  if negb (has flags (ISPIPE .| ISTAPE)) then
    let* off := seek_offset (in_offset g) (in_dbsz g) in Ok (Sought off)
  else
    let* (files_cnt, reads) :=
      skip_loop (read_fuel reads + Z.to_nat (files_cnt g)) (has flags ISPIPE)
        (has (ddflags g) C_NOERROR) (in_dbsz g) (s32 (in_dbsz g)) (s32 (in_offset g)) (files_cnt g)
        reads in
    Ok (Skipped files_cnt reads).

(** What [pos_out] does: a seek, a request to the tape to pass over blocks, or blocks
    written after the end of a tape, once the tape has been told to go back. *)
Inductive out_position := OutSought (off : Z) | PassOver (n : Z) | Filled (blocks : list (list Z)).

(** The loop that reads the tape: [n] blocks are left, and [db] is the output buffer, which
    every read writes. *)
Fixpoint pos_out_loop (n : nat) (dbsz : nat) (db : list Z) (reads : list rresult)
  : res (list (list Z)) :=
  match n with
  | O => Ok []
  | S n' =>
      match ddop_read false dbsz reads with
      | (ReadError, _) => Err EXIT_FAILURE
      | (Read [], _) => Ok (replicate n db)
      | (Read bs, reads) => pos_out_loop n' dbsz (bs ++ drop (length bs) db) reads
      end
  end.

(** [pos_out], where no call but a read of the tape fails; the writes are whole. *)
Definition pos_out (g : dd_globals) (flags : Z) (db : list Z) (reads : list rresult)
  : res out_position :=
  if negb (has flags ISTAPE) then
    let* off := seek_offset (out_offset g) (out_dbsz g) in Ok (OutSought off)
  else if has flags NOREAD then Ok (PassOver (s32 (out_offset g)))
  else
    let* bs := pos_out_loop (Z.to_nat (out_offset g)) (Z.to_nat (out_dbsz g)) db reads in
    Ok (Filled bs).

(** ** Lemmas *)

(** Reads of a pipe: some bytes each. *)
Definition some_bytes (r : rresult) : Prop :=
  match r with Read bs => bs ≠ [] | ReadError => False end.

(** A read takes the first bytes of the input, at least one if there is one. *)
Lemma ddop_read_pipe n reads : (0 < n)%nat → Forall some_bytes reads →
  let '(r, reads') := ddop_read true n reads in
  match r with
  | Read bs => input_bytes reads = bs ++ input_bytes reads' ∧ (length bs <= n)%nat ∧
      Forall some_bytes reads' ∧ (bs = [] → reads = []) ∧
      (reads ≠ [] → (read_fuel reads' + length bs <= read_fuel reads)%nat) ∧
      (∀ ibs, Forall (reads_ok ibs) reads → Forall (reads_ok ibs) reads')
  | ReadError => False
  end.
Proof.
  intros Hn Hr. destruct Hr as [|[bs|] reads Hbs Hr]; cbn [ddop_read]; [| |done].
  { cbn. split; [done|]. split; [lia|]. by repeat constructor. }
  destruct bs as [|c bs]; [done|]. destruct n as [|n]; [lia|]. cbn [andb].
  destruct (Nat.ltb_spec (S n) (length (c :: bs))) as [Hl|Hl]; cbn [take].
  - assert (Hd : drop n bs ≠ []).
    { intros E. apply (f_equal length) in E. rewrite length_drop in E. simpl in *. lia. }
    split.
    + cbn [input_bytes drop]. destruct (drop n bs) as [|d ds] eqn:Ed; [done|].
      rewrite <- Ed. simpl. by rewrite app_assoc, take_drop.
    + split; [simpl; rewrite length_take; lia|]. split; [by constructor|]. split; [done|].
      split; [intros _; simpl; rewrite length_take, length_drop; simpl in Hl; lia|].
      intros ibs [[Hi Hb] Hrs]%Forall_cons. constructor; [|done].
      split; [simpl in *; rewrite length_drop; lia | by apply (Forall_drop _ (S n)) in Hb].
  - rewrite take_ge by (simpl in Hl; lia). split; [done|]. split; [done|]. split; [done|].
    split; [done|]. split; [intros _; simpl; lia|]. by intros ibs [_ ?]%Forall_cons.
Qed.

(** On a pipe the loop takes exactly the bytes of the blocks, however the reads cut
    them. *)
Lemma skip_loop_pipe dbsz files_cnt : 0 < dbsz < 2 ^ 31 → files_cnt <= 1 →
  ∀ fuel reads bcnt cnt noerror, Forall some_bytes reads → 0 < bcnt <= dbsz → 0 <= cnt →
  (read_fuel reads <= fuel)%nat →
  let n := if cnt =? 0 then 0 else (cnt - 1) * dbsz + bcnt in
  if n <=? Z.of_nat (length (input_bytes reads))
  then ∃ reads', skip_loop fuel true noerror dbsz bcnt cnt files_cnt reads = Ok (files_cnt, reads') ∧
         input_bytes reads' = drop (Z.to_nat n) (input_bytes reads) ∧
         (∀ ibs, Forall (reads_ok ibs) reads → Forall (reads_ok ibs) reads')
  else skip_loop fuel true noerror dbsz bcnt cnt files_cnt reads = Err EXIT_FAILURE.
Proof.
  intros Hd Hfc. induction fuel as [|fuel IH]; intros reads bcnt cnt noerror Hr Hb Hc Hf n.
  { destruct reads as [|[]]; simpl in Hf; lia. }
  cbn [skip_loop]. unfold n. destruct (Z.eqb_spec cnt 0) as [->|Hc0].
  { rewrite (proj2 (Z.leb_le _ _)) by lia. by exists reads. }
  rewrite (proj2 (Z.ltb_ge bcnt 0)), (proj2 (Z.ltb_ge dbsz bcnt)) by lia. cbn [orb].
  pose proof (ddop_read_pipe (Z.to_nat bcnt) reads ltac:(lia) Hr) as H.
  destruct (ddop_read true (Z.to_nat bcnt) reads) as [[bs|] reads']; [|done].
  destruct H as (Hin & Hl & Hr' & He & Hfu & Hok). destruct bs as [|c bs].
  { rewrite (He eq_refl). cbn [input_bytes length].
    rewrite (proj2 (Z.ltb_ge 1 files_cnt)) by lia. by rewrite (proj2 (Z.leb_gt _ _)) by nia. }
  set (w := c :: bs) in *. assert (Hw : (0 < length w)%nat) by (simpl; lia).
  assert (Hne : reads ≠ []) by (intros ->; done). specialize (Hfu Hne).
  set (k := Z.of_nat (length w)) in *.
  assert (Hstep : ∀ bcnt' cnt', 0 < bcnt' <= dbsz → 0 <= cnt' →
    (if cnt' =? 0 then 0 else (cnt' - 1) * dbsz + bcnt') = (cnt - 1) * dbsz + bcnt - k →
    if (cnt - 1) * dbsz + bcnt <=? Z.of_nat (length (input_bytes reads))
    then ∃ reads2, skip_loop fuel true noerror dbsz bcnt' cnt' files_cnt reads' = Ok (files_cnt, reads2) ∧
           input_bytes reads2 = drop (Z.to_nat ((cnt - 1) * dbsz + bcnt)) (input_bytes reads) ∧
           (∀ ibs, Forall (reads_ok ibs) reads → Forall (reads_ok ibs) reads2)
    else skip_loop fuel true noerror dbsz bcnt' cnt' files_cnt reads' = Err EXIT_FAILURE).
  { intros bcnt' cnt' Hb' Hc' E. specialize (IH reads' bcnt' cnt' noerror Hr' Hb' Hc' ltac:(lia)).
    cbv zeta in IH. rewrite E in IH. rewrite Hin, length_app.
    replace (Z.of_nat (length w + length (input_bytes reads')))
      with (k + Z.of_nat (length (input_bytes reads'))) by lia.
    assert (k <= bcnt) by lia.
    destruct (Z.leb_spec ((cnt - 1) * dbsz + bcnt - k) (Z.of_nat (length (input_bytes reads'))));
      [rewrite (proj2 (Z.leb_le _ _)) by lia | rewrite (proj2 (Z.leb_gt _ _)) by lia]; [|exact IH].
    destruct IH as (reads2 & E2 & Hx & Hrd). exists reads2. split; [done|]. rewrite Hx. split.
    - rewrite drop_app_ge by nia. f_equal. nia.
    - intros ibs Hi. by apply Hrd, Hok. }
  destruct (Z.eqb_spec (bcnt - k) 0).
  - rewrite s32_small by lia. apply Hstep; [lia|lia|]. destruct (Z.eqb_spec (cnt - 1) 0); nia.
  - apply Hstep; [lia|lia|]. destruct (Z.eqb_spec cnt 0); [done|]. lia.
Qed.

Lemma pos_in_pipe g flags reads : has flags ISPIPE = true → 0 < in_dbsz g < 2 ^ 31 →
  0 <= in_offset g < 2 ^ 31 → files_cnt g = 1 → Forall some_bytes reads →
  let n := in_offset g * in_dbsz g in
  if n <=? Z.of_nat (length (input_bytes reads))
  then ∃ reads', pos_in g flags reads = Ok (Skipped 1 reads') ∧
         input_bytes reads' = drop (Z.to_nat n) (input_bytes reads) ∧
         (∀ ibs, Forall (reads_ok ibs) reads → Forall (reads_ok ibs) reads')
  else pos_in g flags reads = Err EXIT_FAILURE.
Proof.
  intros Hp Hd Ho Hf Hr n. unfold pos_in. rewrite has_lor_r, Hp. cbn [orb negb].
  rewrite !s32_small, Hf by lia.
  pose proof (skip_loop_pipe (in_dbsz g) 1 Hd ltac:(lia) (read_fuel reads + Z.to_nat 1) reads
    (in_dbsz g) (in_offset g) (has (ddflags g) C_NOERROR) Hr ltac:(lia) ltac:(lia) ltac:(lia)) as H.
  cbv zeta in H.
  replace (if in_offset g =? 0 then 0 else (in_offset g - 1) * in_dbsz g + in_dbsz g) with n in H
    by (unfold n; destruct (Z.eqb_spec (in_offset g) 0); nia).
  destruct (n <=? _).
  - destruct H as (reads' & -> & H). by exists reads'.
  - by rewrite H.
Qed.

(** ** Properties *)

(** On a pipe skip= passes over exactly its number of blocks of the input, however
    the reads are cut, and dd exits when the input ends before. *)
Theorem pos_in_skips g flags reads : has flags ISPIPE = true → 0 < in_dbsz g < 2 ^ 31 →
  0 <= in_offset g < 2 ^ 31 → files_cnt g = 1 → Forall some_bytes reads →
  let n := in_offset g * in_dbsz g in
  if n <=? Z.of_nat (length (input_bytes reads))
  then ∃ reads', pos_in g flags reads = Ok (Skipped 1 reads') ∧
         input_bytes reads' = drop (Z.to_nat n) (input_bytes reads)
  else pos_in g flags reads = Err EXIT_FAILURE.
Proof.
  intros Hp Hd Ho Hf Hr n. pose proof (pos_in_pipe g flags reads Hp Hd Ho Hf Hr) as H.
  cbv zeta in H. fold n in H. destruct (n <=? _); [|done].
  destruct H as (reads' & ? & ? & _). by exists reads'.
Qed.

(** Two blocks of three bytes from a pipe that gives two, three and four. *)
Definition skip_two : dd_globals :=
  Globals None None 3 512 2 0 C_SKIP 0 0 1 0 None 0 0 [] (Some Def).

Lemma pos_in_skips_witness :
  ∃ reads', pos_in skip_two ISPIPE [Read (str "ab"); Read (str "cde"); Read (str "fghi")]
    = Ok (Skipped 1 reads') ∧ input_bytes reads' = str "ghi".
Proof.
  apply (pos_in_skips skip_two ISPIPE [Read (str "ab"); Read (str "cde"); Read (str "fghi")]);
    [done | by split | by split | done | by repeat constructor].
Defined.

(** *** What the code does instead *)

(** The number of blocks to skip is put into an int: 2^32 blocks are none. *)
Lemma pos_in_truncates reads :
  pos_in (with_in_offset skip_two (2 ^ 32)) ISPIPE reads = Ok (Skipped 1 reads).
Proof. by destruct reads as [|[bs|] reads]. Qed.

(** A block size of 2^31 becomes negative, and the read is asked for more than there is
    room for. *)
Lemma pos_in_large_block reads :
  pos_in (with_in_dbsz skip_two (2 ^ 31)) ISPIPE reads = Fault.
Proof. by destruct reads as [|[bs|] reads]. Qed.

(** The offset is computed without a check, and overflows for operands that are accepted. *)
Lemma pos_in_overflow reads : pos_in (with_in_offset skip_two (2 ^ 62)) 0 reads = Fault.
Proof. done. Qed.

(** After the end of a tape the blocks written are not the NULs the comment speaks of but
    what the buffer holds, here the block read last. *)
Lemma pos_out_fills :
  pos_out (with_out_offset (with_out_dbsz skip_two 3) 3) ISTAPE [1; 2; 3] [Read (str "abc")]
  = Ok (Filled [str "abc"; str "abc"]).
Proof. done. Qed.
