(* ===== verification/DdMain.v ===== *)
(** * dd from its operands to its output (bin/dd/dd.c, main and setup)

    [jcl] sets the globals (DdArgs), [setup] makes the buffers and the conversion table
    from them, and the copy runs (Dd).  The theorem puts together what the parts promise:
    the configuration is what the copy is entitled to. *)

From S2P Require Import Prelude Libc Strnum Humanize Dd DdMsg DdBlock DdArgs DdPos.

(** ** Code *)




(** ** Specification *)







(** ** Lemmas *)









(** ** Properties *)


